(* ===== verification/_CoqProject ===== *)
-Q . S2P
Prelude.v
Crypto.v
Toy.v
Kem.v
Codec.v
Ops.v
Dag.v
Membership.v
Keys.v
Channel.v
Prekey.v
Replay.v
Ratchet.v
Layout.v
Frame.v
MediaState.v
Checkpoint.v
Wire.v
Member.v
MemberInv.v
MemberProps.v
Converge.v
Fuzz.v
Inbound.v
Emit.v
State.v
Conference.v
Net.v
Persist.v
Store.v
Crash.v
Failed.v
Durable.v
LState.v
PConf.v
