(* ===== verification/Prelude.v ===== *)
(** * Causal Frontier Ratchet: a verification library

    This library models the CFR group-key protocol of the Rust workspace under
    [src/crates] and proves what the code relies on.  Definitions are
    executable and follow the source function by function; every [result],
    early return and bound is kept.

    ** The program

    - [cfr-crypto] wraps the primitives: labelled hashing, key derivation,
      AEAD, signatures, key agreement, entropy.
    - [cfr-core] is the control plane.  Signed operations form a causal graph;
      membership, authorisation and the contribution frontier are functions of
      the graph; the group key combines the node keys of the frontier.  Node
      keys travel in slices over pairwise ratchets, are repaired on request and
      handed to newcomers in welcomes.
    - [cfr-media] protects media frames under the group key: clear codec
      headers, encrypted content, per-sender ratchets, replay windows.
    - [cfr] joins the two in [Conference], and [persistence] makes it durable:
      every transaction exports the whole conference, appends it to a
      write-ahead log and only then replaces the live state.

    ** Files

    - [Prelude]: bytes, big-endian integers, ordered collections, the result
      and state monads, automation, shared lemmas.
    - [Crypto] ([cfr-crypto/src]), with [Toy], an executable instance of the
      primitives used by the witnesses; [Kem] ([kem.rs]), the hybrid key
      encapsulation, which no other crate calls.
    - [Codec] ([codec.rs], [error.rs]): writers, readers and the class [Lawful],
      the contract between readers and everything that is stored or sent.
    - [Ops] ([op.rs]), [Dag] ([dag.rs]), [Membership] ([membership.rs]), [Keys]
      ([keys.rs]), [Channel] ([channel.rs]), [Prekey] ([prekey.rs]),
      [Checkpoint] ([checkpoint.rs]), [Wire] ([wire.rs]): one file per module of
      the core.
    - [Member] ([member.rs]): the participant, every public and internal method;
      [MemberInv]: its invariant and the preservation lemmas; [MemberProps]: its
      theorems and a two-party run.  [Converge]: two participants of one
      conference, what makes them agree and how anti-entropy gets them there;
      [Emit]: what a participant sends in reply.  [State] ([state.rs] of the
      core): the persisted participant.
    - [Replay], [Ratchet], [Layout] ([codec/*.rs]), [Frame], [MediaState]:
      the media crate.
    - [Conference] ([conference.rs]): the facade.  [Net]
      ([crates/cfr/examples/scale.rs]): several conferences joined by a queue.
    - [Fuzz], [Inbound] ([fuzz/fuzz_targets]): what the fuzz targets assert.
    - [Persist], [Store] ([persistence/store.rs]): limits and errors; the file
      system, the formats of snapshot and log, and every operation of the store.
      [Crash]: what a power loss leaves and a program logic for the store;
      [Failed]: appends and checkpoints that fail, after which the store is kept;
      [Durable]: the theorems about the store.
    - [LState] ([persistence/state.rs]): the transactional image, its encoding
      and recovery.  [PConf] ([persistence/mod.rs]): the persistent conference.

    ** Correspondence

    A method on [&mut self] that returns [Result] is a function of the monad
    [M S E]: the state is returned on failure too, as in Rust.  [BTreeMap] and
    [BTreeSet] are [gmap] and [gset] with [bt_list], [bt_elems] and [nt_list]
    for their ascending iteration.  Integers are [N] with the width written
    where the code depends on it ([checked_add64], [wrapping_add32], [shl64],
    masks).  The primitives of other crates (BLAKE3, AEGIS-256, Ed25519,
    X25519; ML-KEM in [Kem]) are the fields of the class [Primitives]; what is
    assumed of them is [PrimitivesOk] (lengths, decryption of what was encrypted, acceptance of
    own signatures, commutation of key agreement).  Nothing cryptographic is
    assumed.  Where a statement needs collision resistance, it names the two
    inputs that would collide ([collide]); where it rests on the digest that keys
    the verdict memo, it says that this digest tells apart the dependency sets of
    the operations presented to the participant ([reached], [separate]).  Entropy
    is a tape of answers of the operating system, failures included.

    ** What the theorems show

    - Participant: one invariant for every reachable participant, transparent
      memos, history that only grows, the exact branches of [ingest], repair,
      termination of the two open loops.  Verdicts are those of the membership
      rule wherever the memo's digest tells the dependency sets apart.
    - Convergence: participants with the same operations, the evidence for their
      convictions among them, agree on convictions, roster, version and key; a
      delivery in answer to advertised heads holds exactly what is missing, in
      causal order, and leaves nothing missing; an example shows what an
      accusation that arrives before the contribution it names can do.
    - Network: whatever its peers are made to do, each stays within the facade's
      invariant, and the queue drains within a bound made of what is queued and
      what can still be stored.
    - Fuzz targets: each assertion is decided for all inputs.
    - Graph and membership: independence of delivery order, well-formedness,
      agreement of memoised and reference traversals, remove-wins and how far it
      is the documented rule, verdicts that only a new conviction can change.
    - Keys and channels: maximality of the frontier, agreement and binding of
      the group key, exactness of the bounded store, key schedules, no replay.
    - Codecs: each reader accepts exactly the images of its writer.
    - Media: tilings, frame round trips, no replay, fresh indices, bounded
      retention, exact persistence.
    - Conference: the media layer follows the participant, two conferences that
      agree exchange frames under the stated conditions.
    - Restarts: what import answers for an export, exactly, for participants and
      conferences within the stored limits; a participant that is read back
      computes what it computed before.
    - Durable store: in every state that [reaches] describes (appends and
      checkpoints, also such as failed and were taken back, short writes, power
      losses, reopenings) the store holds the history of committed entries;
      appends are all or nothing; opening finds the last entry; formats are
      exact.  Two lemmas of [Durable] show what [reaches] has to leave out.
    - Persistent conference: transactions are atomic in memory and on the disk,
      a conference reopens with its last committed state, an inbound message is
      processed once while its identifier is in the window, whatever calls,
      failures and reopenings follow, the outbox neither loses nor repeats.

    ** Fuel and bounds

    Loops that are not structural take fuel computed from their input: graph
    walks the number of edges, [drain_channel] one more than the buffered
    slices, [drain_loop] one more than the waiting operations, layout scanners
    the frame length, UTF-8 and WAL scans the buffer length, [settle] the bound
    [net_fuel] on deliveries.  [loops_terminate], [settle_completes]
    and the lemmas beside each loop show that more fuel changes nothing.

    ** Not modelled

    The crate roots and the tests.  Lengths of 4 GiB and more, where [Writer] and
    [Hasher] panic; overflow of the graph epoch (a [u64] incremented once per
    operation); platforms whose [usize] is not 64 bits wide; erasure of secrets from memory beyond the value written;
    the ancestor memo of [Dag] is modelled and proved transparent in [Dag], and
    callers use the unmemoised functions.

    The file system of [Store] keeps, for every file and directory, the
    versions a power loss may leave until they are synchronised; a rename is one
    step; a scripted list of faults makes any system call fail, stop short or
    lose power.  Contents that were not synchronised survive a power loss as
    prefixes: holes and tails that were allocated but not written are outside the
    model ([survives]).  Two processes compete only through the lock.  The fault hooks
    of the test build and the non-Unix variants of [store.rs] are left out, and
    creating a conference does not return the entropy it leaves unused.
    Convergence is stated for histories that are exchanged; that messages arrive
    is the transport's part.  [settle] is bounded only while no synchronisation
    request is queued: two full graphs with different heads would answer each
    other's requests for ever.  The clock, the printing and the exact texts of
    errors of the benchmark are left out; the fuzz harness itself is not modelled.
*)

From Stdlib Require Import NArith Lia.
From Stdlib Require Strings.Byte.
From stdpp Require Export base gmap sets list strings sorting numbers countable relations.

#[export] Set Default Goal Selector "!".

(** ** Bytes, byte strings and machine integers *)

Abbreviation byte := Byte.byte.
Abbreviation bytes := (list Byte.byte).

Declare Scope cfr_scope.
Delimit Scope cfr_scope with cfr.
Open Scope cfr_scope.

#[export] Instance byte_eq_decision : EqDecision byte := Byte.byte_eq_dec.

#[export] Program Instance byte_countable : Countable byte :=
  inj_countable Byte.to_N Byte.of_N _.
Next Obligation. intros b. apply Byte.of_to_N. Qed.

(** Length of a slice as the [usize] the code computes with. *)
Definition lenN {A} (l : list A) : N := N.of_nat (length l).

(** [u32::MAX + 1] and [u64::MAX + 1]. *)
Definition two32 : N := 2 ^ 32.
Definition two64 : N := 2 ^ 64.
Definition u64_max : N := two64 - 1.

(** [checked_add] on [u64]. *)
Definition checked_add64 (a b : N) : option N :=
  if (a + b <? two64)%N then Some (a + b)%N else None.

(** [wrapping_add] and [saturating_add] on [u32]. *)
Definition wrapping_add32 (a b : N) : N := ((a + b) mod two32)%N.
Definition saturating_add32 (a b : N) : N := N.min (a + b) (two32 - 1).

(** The byte of value [n mod 256]. *)
Definition byte_of (n : N) : byte :=
  match Byte.of_N (n mod 256) with Some b => b | None => Byte.x00 end.

(** [to_be_bytes] at a width of [n] bytes and [from_be_bytes]. *)
Fixpoint be_bytes (n : nat) (v : N) : bytes :=
  match n with
  | O => []
  | S n' => be_bytes n' (v / 256) ++ [byte_of v]
  end.

Fixpoint be_val_acc (acc : N) (l : bytes) : N :=
  match l with
  | [] => acc
  | b :: l' => be_val_acc (acc * 256 + Byte.to_N b) l'
  end.
Definition be_val (l : bytes) : N := be_val_acc 0 l.

Definition u32_to_be_bytes (v : N) : bytes := be_bytes 4 v.
Definition u64_to_be_bytes (v : N) : bytes := be_bytes 8 v.

(** An array [[b; n]]. *)
Definition array_of (b : byte) (n : nat) : bytes := replicate n b.

(** [slice[a..b]] for [a <= b <= len]. *)
Definition slice {A} (l : list A) (a b : N) : list A :=
  take (N.to_nat (b - a)) (drop (N.to_nat a) l).

(** ASCII byte-string literals [b"..."]. *)
Fixpoint bstr (s : string) : bytes :=
  match s with
  | EmptyString => []
  | String c s' => Ascii.byte_of_ascii c :: bstr s'
  end.

(** ** Lexicographic order on byte strings ([Ord] for slices and arrays) *)

Fixpoint bytes_compare (a b : bytes) : comparison :=
  match a, b with
  | [], [] => Eq
  | [], _ :: _ => Lt
  | _ :: _, [] => Gt
  | x :: a', y :: b' =>
      match N.compare (Byte.to_N x) (Byte.to_N y) with
      | Eq => bytes_compare a' b'
      | c => c
      end
  end.

Definition bytes_lt (a b : bytes) : Prop := bytes_compare a b = Lt.
Definition bytes_le (a b : bytes) : Prop := bytes_compare a b <> Gt.

#[export] Instance bytes_lt_dec a b : Decision (bytes_lt a b).
Proof. unfold bytes_lt. solve_decision. Defined.
#[export] Instance bytes_le_dec a b : Decision (bytes_le a b).
Proof. unfold bytes_le. solve_decision. Defined.

(** [Vec::sort] followed by nothing else, on byte strings. *)
Definition bytes_sort (l : list bytes) : list bytes := merge_sort bytes_le l.

(** [Vec::dedup]: removes consecutive repetitions. *)
Fixpoint dedup {A} `{EqDecision A} (l : list A) : list A :=
  match l with
  | [] => []
  | x :: l' =>
      match l' with
      | [] => [x]
      | y :: _ => if decide (x = y) then dedup l' else x :: dedup l'
      end
  end.

(** ** Ordered collections

    [BTreeSet] and [BTreeMap] are finite sets and maps; what the code observes
    of their order is iteration, which visits keys in ascending order. *)

Definition bt_elems (s : gset bytes) : list bytes := bytes_sort (elements s).

Definition bt_list {V} (m : gmap bytes V) : list (bytes * V) :=
  omap (fun k => (fun v => (k, v)) <$> m !! k) (bt_elems (dom m)).

Definition bt_keys {V} (m : gmap bytes V) : list bytes := bt_elems (dom m).

Definition bt_values {V} (m : gmap bytes V) : list V := (bt_list m).*2.

(** Iteration of a [BTreeMap] keyed by an integer. *)
Definition nt_keys {V} (m : gmap N V) : list N := merge_sort N.le (elements (dom m)).
Definition nt_list {V} (m : gmap N V) : list (N * V) :=
  omap (fun k => (fun v => (k, v)) <$> m !! k) (nt_keys m).

(** ** Errors and state *)

Inductive result (E A : Type) : Type :=
| Ok (a : A)
| Err (e : E).
Arguments Ok {E A} a.
Arguments Err {E A} e.

#[export] Instance result_eq_dec {E A} `{EqDecision E} `{EqDecision A} :
  EqDecision (result E A).
Proof. solve_decision. Defined.

(** A function on [&mut S] that returns [Result<A, E>]: the state it leaves is
    returned on failure too. *)
Definition M (S E A : Type) : Type := S -> result E A * S.

#[export] Instance result_ret {E} : MRet (result E) := fun A a => Ok a.
#[export] Instance result_bind {E} : MBind (result E) := fun A B f m =>
  match m with Ok a => f a | Err e => Err e end.
#[export] Instance M_ret {S E} : MRet (M S E) := fun A a s => (Ok a, s).
#[export] Instance M_bind {S E} : MBind (M S E) := fun A B f m s =>
  match m s with
  | (Ok a, s') => f a s'
  | (Err e, s') => (Err e, s')
  end.

Definition fail {S E A} (e : E) : M S E A := fun s => (Err e, s).
Definition lift {S E A} (r : result E A) : M S E A := fun s => (r, s).
Definition gets {S E A} (f : S -> A) : M S E A := fun s => (Ok (f s), s).
Definition modify {S E} (f : S -> S) : M S E unit := fun s => (Ok tt, f s).

(** [ok_or] and [map_err]. *)
Definition ok_or {E A} (o : option A) (e : E) : result E A :=
  match o with Some a => Ok a | None => Err e end.
Definition map_err {E F A} (f : E -> F) (r : result E A) : result F A :=
  match r with Ok a => Ok a | Err e => Err (f e) end.
Definition is_ok {E A} (r : result E A) : bool :=
  match r with Ok _ => true | Err _ => false end.

(** ** Automation *)

Create HintDb cfr.
Create Rewrite HintDb cfr_len.

(** Splits the boolean comparisons on [N] that guard a branch. *)
Ltac n_cases :=
  repeat match goal with
  | |- context [N.ltb ?a ?b] => destruct (N.ltb_spec a b)
  | |- context [N.leb ?a ?b] => destruct (N.leb_spec a b)
  | |- context [N.eqb ?a ?b] => destruct (N.eqb_spec a b)
  | H : context [N.ltb ?a ?b] |- _ => destruct (N.ltb_spec a b)
  | H : context [N.leb ?a ?b] |- _ => destruct (N.leb_spec a b)
  | H : context [N.eqb ?a ?b] |- _ => destruct (N.eqb_spec a b)
  end.

(** [lia] over list lengths, in [nat] and [N]. *)
Ltac len_lia :=
  unfold lenN in *;
  repeat (rewrite length_app in * || rewrite length_cons in * ||
          rewrite length_take in * || rewrite length_drop in * ||
          rewrite length_replicate in * || rewrite length_fmap in *);
  simpl length in *; lia.

(** ** Monad lemmas *)

Section monad_lemmas.
Context {S E A B : Type}.
Implicit Types (m : M S E A) (f : A -> M S E B).

Lemma bind_ok m f s a s1 :
  m s = (Ok a, s1) -> (m ≫= f) s = f a s1.
Proof. intros H. unfold mbind, M_bind. by rewrite H. Qed.

Lemma bind_err m f s e s1 :
  m s = (Err e, s1) -> (m ≫= f) s = (Err e, s1).
Proof. intros H. unfold mbind, M_bind. by rewrite H. Qed.

Lemma bind_ok_inv m f s b s' :
  (m ≫= f) s = (Ok b, s') ->
  exists a s1, m s = (Ok a, s1) /\ f a s1 = (Ok b, s').
Proof.
  unfold mbind, M_bind. destruct (m s) as [[a|e] s1]; [|done]. eauto.
Qed.
End monad_lemmas.

(** Turns a successful run of a sequence into the runs of its steps. *)
Ltac inv_bind H :=
  let a := fresh "a" in let s1 := fresh "s" in
  let H1 := fresh "Hm" in
  apply bind_ok_inv in H as (a & s1 & H1 & H).

(** ** Lengths, slices and big-endian integers *)

(** Injectivity of [::] one cell at a time, for images that should not be
    computed. *)
Lemma cons_inv {A} (x y : A) l k : x :: l = y :: k -> x = y /\ l = k.
Proof. by intros [= -> ->]. Qed.


(** Evaluates a computation to its success flag only. *)
Lemma default_is_some {A} (o : option A) a :
  (if o then true else false) = true -> o = Some (default a o).
Proof. by destruct o. Qed.

(** Evaluates a run to its answer only. *)
Lemma run_fst {A B} (x : A * B) a : x.1 = a -> x = (a, x.2).
Proof. by destruct x as [? ?]; intros <-. Qed.

Lemma sublist_Forall {A} (Q : A -> Prop) (k l : list A) : Forall Q l -> k `sublist_of` l -> Forall Q k.
Proof. rewrite !Forall_forall. intros H Hs x Hx. apply H. by eapply elem_of_sublist. Qed.

Lemma lenN_app {A} (l k : list A) : lenN (l ++ k) = (lenN l + lenN k)%N.
Proof. len_lia. Qed.

Lemma lenN_nil {A} : lenN (@nil A) = 0%N.
Proof. done. Qed.

Lemma lenN_cons {A} (x : A) l : lenN (x :: l) = (1 + lenN l)%N.
Proof. len_lia. Qed.

Lemma lenN_to_nat {A} (l : list A) : N.to_nat (lenN l) = length l.
Proof. unfold lenN. lia. Qed.

Lemma slice_app {A} (a b c : list A) :
  slice (a ++ b ++ c) (lenN a) (lenN (a ++ b)) = b.
Proof.
  unfold slice. rewrite lenN_to_nat, drop_app_length, lenN_app.
  replace (N.to_nat (lenN a + lenN b - lenN a)) with (length b) by len_lia.
  by rewrite take_app_length.
Qed.

Lemma slice_app_r {A} (a b c : list A) n :
  lenN b = n -> slice (a ++ b ++ c) (lenN a) (lenN a + n) = b.
Proof. intros <-. rewrite <- lenN_app. apply slice_app. Qed.

Lemma to_N_lt b : (Byte.to_N b < 256)%N.
Proof. pose proof (Byte.to_N_bounded b). lia. Qed.

Lemma byte_of_to_N b : byte_of (Byte.to_N b) = b.
Proof.
  unfold byte_of. rewrite N.mod_small by apply to_N_lt. by rewrite Byte.of_to_N.
Qed.

Lemma to_N_byte_of n : Byte.to_N (byte_of n) = (n mod 256)%N.
Proof.
  unfold byte_of. destruct (Byte.of_N (n mod 256)) as [b|] eqn:E.
  - by apply Byte.to_of_N.
  - apply Byte.of_N_None_iff in E. pose proof (N.mod_lt n 256). lia.
Qed.

Lemma to_N_inj a b : Byte.to_N a = Byte.to_N b -> a = b.
Proof. intros H. by rewrite <- (byte_of_to_N a), <- (byte_of_to_N b), H. Qed.

Lemma be_bytes_length n v : length (be_bytes n v) = n.
Proof. revert v. induction n; intros v; simpl; [done|]. rewrite length_app, IHn. simpl. lia. Qed.

Lemma be_val_acc_app acc l k : be_val_acc acc (l ++ k) = be_val_acc (be_val_acc acc l) k.
Proof. revert acc. induction l; intros; simpl; auto. Qed.

Lemma be_val_snoc l b : be_val (l ++ [b]) = (be_val l * 256 + Byte.to_N b)%N.
Proof. unfold be_val. by rewrite be_val_acc_app. Qed.

Lemma be_val_be_bytes n v : (v < 256 ^ N.of_nat n)%N -> be_val (be_bytes n v) = v.
Proof.
  revert v. induction n; intros v Hv; simpl.
  - simpl in Hv. change (be_val []) with 0%N. lia.
  - rewrite be_val_snoc, to_N_byte_of, IHn.
    + pose proof (N.div_mod v 256). lia.
    + apply N.Div0.div_lt_upper_bound.
      rewrite Nat2N.inj_succ, N.pow_succ_r' in Hv. lia.
Qed.

Lemma be_bytes_be_val l : be_bytes (length l) (be_val l) = l.
Proof.
  induction l as [|b l IH] using rev_ind; [done|].
  rewrite length_app, Nat.add_comm. simpl. rewrite be_val_snoc.
  pose proof (to_N_lt b).
  rewrite (N.div_add_l _ 256), N.div_small, N.add_0_r, IH by lia.
  f_equal. f_equal. unfold byte_of.
  rewrite N.add_comm, N.Div0.mod_add, N.mod_small by lia. by rewrite Byte.of_to_N.
Qed.

Lemma be_val_bound l : (be_val l < 256 ^ lenN l)%N.
Proof.
  induction l as [|b l IH] using rev_ind; [done|].
  rewrite be_val_snoc, lenN_app. change (lenN [b]) with 1%N.
  rewrite N.add_1_r, N.pow_succ_r'. pose proof (to_N_lt b). lia.
Qed.

Lemma u32_be_length v : length (u32_to_be_bytes v) = 4.
Proof. apply be_bytes_length. Qed.
Lemma u64_be_length v : length (u64_to_be_bytes v) = 8.
Proof. apply be_bytes_length. Qed.

Lemma u32_be_val v : (v < two32)%N -> be_val (u32_to_be_bytes v) = v.
Proof. intros H. by apply be_val_be_bytes. Qed.
Lemma u64_be_val v : (v < two64)%N -> be_val (u64_to_be_bytes v) = v.
Proof. intros H. by apply be_val_be_bytes. Qed.

Lemma u64_be_inj a b :
  (a < two64)%N -> (b < two64)%N -> u64_to_be_bytes a = u64_to_be_bytes b -> a = b.
Proof. intros Ha Hb H. apply (f_equal be_val) in H. by rewrite !u64_be_val in H. Qed.

#[export] Hint Rewrite @length_app @length_take @length_drop @length_replicate
  be_bytes_length u32_be_length u64_be_length : cfr_len.

(** ** The lexicographic order is a strict total order *)

Lemma bytes_compare_eq a b : bytes_compare a b = Eq <-> a = b.
Proof.
  split; [|intros ->; induction b; simpl; [done|by rewrite N.compare_refl]].
  revert b. induction a as [|x a IH]; intros [|y b]; simpl; try done.
  destruct (N.compare_spec (Byte.to_N x) (Byte.to_N y)) as [H|H|H]; try done.
  intros Hab. f_equal; [by apply to_N_inj|by apply IH].
Qed.

Lemma bytes_compare_antisym a b : bytes_compare b a = CompOpp (bytes_compare a b).
Proof.
  revert b. induction a as [|x a IH]; intros [|y b]; simpl; try done.
  rewrite (N.compare_antisym (Byte.to_N x)).
  destruct (N.compare (Byte.to_N x) (Byte.to_N y)); simpl; auto.
Qed.

Lemma bytes_lt_trans a b c : bytes_lt a b -> bytes_lt b c -> bytes_lt a c.
Proof.
  unfold bytes_lt. revert b c.
  induction a as [|x a IH]; intros [|y b] [|z c]; simpl; try done.
  destruct (N.compare_spec (Byte.to_N x) (Byte.to_N y)) as [H1|H1|H1]; try done;
    destruct (N.compare_spec (Byte.to_N y) (Byte.to_N z)) as [H2|H2|H2]; try done;
    intros Ha Hb.
  - rewrite H1, H2, N.compare_refl. eauto.
  - rewrite H1. by rewrite (proj2 (N.compare_lt_iff _ _)) by lia.
  - rewrite <- H2. by rewrite (proj2 (N.compare_lt_iff _ _)) by lia.
  - by rewrite (proj2 (N.compare_lt_iff _ _)) by lia.
Qed.

Lemma bytes_lt_irrefl a : ~ bytes_lt a a.
Proof. unfold bytes_lt. by rewrite (proj2 (bytes_compare_eq a a)). Qed.

Lemma bytes_le_lt_eq a b : bytes_le a b <-> bytes_lt a b \/ a = b.
Proof.
  unfold bytes_le, bytes_lt. rewrite <- bytes_compare_eq.
  destruct (bytes_compare a b); naive_solver.
Qed.

Lemma bytes_not_le a b : ~ bytes_le a b <-> bytes_lt b a.
Proof.
  unfold bytes_le, bytes_lt. rewrite (bytes_compare_antisym a b).
  destruct (bytes_compare a b); naive_solver.
Qed.

#[export] Instance bytes_lt_strict : StrictOrder bytes_lt.
Proof.
  split; [intros a; apply bytes_lt_irrefl|].
  intros a b c. apply bytes_lt_trans.
Qed.

#[export] Instance bytes_le_trans : Transitive bytes_le.
Proof.
  intros a b c. rewrite !bytes_le_lt_eq. intros [?| ->] [?| ->]; eauto using bytes_lt_trans.
Qed.
#[export] Instance bytes_le_total : Total bytes_le.
Proof.
  intros a b. destruct (decide (bytes_le a b)) as [H|H]; [by left|right].
  apply bytes_not_le in H. apply bytes_le_lt_eq. by left.
Qed.
#[export] Instance bytes_le_antisymm : AntiSymm (=) bytes_le.
Proof.
  intros a b. rewrite !bytes_le_lt_eq. intros [H| ->]; [|done]. intros [H'| ->]; [|done].
  destruct (bytes_lt_irrefl a). by eapply bytes_lt_trans.
Qed.

(** A shared prefix does not matter, which relates the order of raw
    identifiers and the order of their encodings. *)
Lemma bytes_compare_prefix p a b : bytes_compare (p ++ a) (p ++ b) = bytes_compare a b.
Proof. induction p; simpl; [done|]. by rewrite N.compare_refl. Qed.

Lemma bytes_lt_prefix p a b : bytes_lt (p ++ a) (p ++ b) <-> bytes_lt a b.
Proof. unfold bytes_lt. by rewrite bytes_compare_prefix. Qed.

(** ** Sorting and de-duplication *)

Lemma bytes_sort_perm l : bytes_sort l ≡ₚ l.
Proof. apply merge_sort_Permutation. Qed.

Lemma bytes_sort_sorted l : StronglySorted bytes_le (bytes_sort l).
Proof. apply StronglySorted_merge_sort; apply _. Qed.

Lemma sorted_lt_le l : StronglySorted bytes_lt l -> StronglySorted bytes_le l.
Proof.
  induction 1 as [|x l Hs IH Hx]; constructor; [done|].
  eapply Forall_impl; [done|]. intros y. rewrite bytes_le_lt_eq. auto.
Qed.

Lemma sorted_lt_NoDup l : StronglySorted bytes_lt l -> NoDup l.
Proof.
  induction 1 as [|x l Hs IH Hx]; constructor; [|done].
  intros Hin. rewrite Forall_forall in Hx. by apply (bytes_lt_irrefl x), Hx.
Qed.

Lemma sorted_le_NoDup_lt l :
  NoDup l -> StronglySorted bytes_le l -> StronglySorted bytes_lt l.
Proof.
  intros Hnd. induction 1 as [|x l Hs IH Hx]; [constructor|].
  apply NoDup_cons in Hnd as [Hx' Hnd]. constructor; [auto|].
  rewrite Forall_forall in *. intros y Hy.
  destruct (proj1 (bytes_le_lt_eq x y) (Hx y Hy)) as [?| ->]; [done|]. done.
Qed.

Lemma bytes_sort_id l : StronglySorted bytes_le l -> bytes_sort l = l.
Proof.
  intros H. apply (StronglySorted_unique bytes_le); [apply bytes_sort_sorted|done|].
  apply bytes_sort_perm.
Qed.

Lemma bytes_sort_eq l k : l ≡ₚ k -> bytes_sort l = bytes_sort k.
Proof.
  intros H. apply (StronglySorted_unique bytes_le); try apply bytes_sort_sorted.
  by rewrite !bytes_sort_perm.
Qed.

Lemma sorted_lt_unique l k :
  StronglySorted bytes_lt l -> StronglySorted bytes_lt k ->
  (forall x, x ∈ l <-> x ∈ k) -> l = k.
Proof.
  intros Hl Hk H. apply (StronglySorted_unique bytes_le); auto using sorted_lt_le.
  apply NoDup_Permutation; auto using sorted_lt_NoDup.
Qed.

Lemma elem_of_dedup {A} `{EqDecision A} (l : list A) x : x ∈ dedup l <-> x ∈ l.
Proof.
  induction l as [|y l IH]; [done|]. destruct l as [|z l]; [done|].
  change (dedup (y :: z :: l)) with
    (if decide (y = z) then dedup (z :: l) else y :: dedup (z :: l)).
  case_decide as Hd; [subst; rewrite IH; set_solver|].
  rewrite elem_of_cons, IH, (elem_of_cons (z :: l)). done.
Qed.

Lemma dedup_sorted l : StronglySorted bytes_le l -> StronglySorted bytes_lt (dedup l).
Proof.
  induction l as [|x l IH]; [constructor|]. intros Hs.
  destruct l as [|y l]; [repeat constructor|].
  apply StronglySorted_cons in Hs as [Hx Hs].
  change (dedup (x :: y :: l)) with
    (if decide (x = y) then dedup (y :: l) else x :: dedup (y :: l)).
  case_decide as Hd; [auto|]. constructor; [auto|].
  rewrite Forall_forall. intros z Hz. apply (elem_of_dedup (y :: l)) in Hz.
  rewrite Forall_forall in Hx. pose proof (Hx y (list_elem_of_here _ _)) as Hxy.
  apply bytes_le_lt_eq in Hxy as [Hxy|]; [|done].
  apply StronglySorted_cons in Hs as [Hy Hs]. rewrite Forall_forall in Hy.
  apply elem_of_cons in Hz as [->|Hz]; [done|].
  destruct (proj1 (bytes_le_lt_eq y z) (Hy z Hz)) as [?|<-]; [|done].
  by eapply bytes_lt_trans.
Qed.

Lemma dedup_id l : StronglySorted bytes_lt l -> dedup l = l.
Proof.
  intros H. apply sorted_lt_unique; auto using dedup_sorted, sorted_lt_le.
  intros x. apply elem_of_dedup.
Qed.

(** ** Ordered iteration *)

Lemma elem_of_bt_elems (s : gset bytes) x : x ∈ bt_elems s <-> x ∈ s.
Proof. unfold bt_elems. rewrite bytes_sort_perm. apply elem_of_elements. Qed.

Lemma bt_elems_NoDup s : NoDup (bt_elems s).
Proof. unfold bt_elems. rewrite bytes_sort_perm. apply NoDup_elements. Qed.

Lemma bt_elems_sorted s : StronglySorted bytes_lt (bt_elems s).
Proof. apply sorted_le_NoDup_lt; [apply bt_elems_NoDup|apply bytes_sort_sorted]. Qed.

Lemma bt_elems_to_set s : list_to_set (bt_elems s) = s.
Proof. apply set_eq. intros x. by rewrite elem_of_list_to_set, elem_of_bt_elems. Qed.

Lemma bt_elems_of_sorted l :
  StronglySorted bytes_lt l -> bt_elems (list_to_set l) = l.
Proof.
  intros H. apply sorted_lt_unique; [apply bt_elems_sorted|done|].
  intros x. by rewrite elem_of_bt_elems, elem_of_list_to_set.
Qed.

Lemma bt_elems_length s : length (bt_elems s) = size s.
Proof.
  unfold bt_elems. rewrite (Permutation_length (bytes_sort_perm _)). done.
Qed.

Lemma bt_elems_empty : bt_elems ∅ = [].
Proof. done. Qed.

Lemma elem_of_bt_list {V} (m : gmap bytes V) k v : (k, v) ∈ bt_list m <-> m !! k = Some v.
Proof.
  unfold bt_list. rewrite list_elem_of_omap. split.
  - intros (k' & Hk & Hv). destruct (m !! k') eqn:E; simplify_eq/=. done.
  - intros H. exists k. rewrite elem_of_bt_elems, elem_of_dom, H. eauto.
Qed.

Lemma bt_list_fst {V} (m : gmap bytes V) : (bt_list m).*1 = bt_keys m.
Proof.
  unfold bt_list, bt_keys.
  assert (forall k, k ∈ bt_elems (dom m) -> is_Some (m !! k)) as H.
  { intros k. by rewrite elem_of_bt_elems, elem_of_dom. }
  induction (bt_elems (dom m)) as [|k l IH]; [done|]. simpl.
  destruct (H k) as [v Hv]; [set_solver|]. rewrite Hv. simpl. f_equal.
  apply IH. set_solver.
Qed.

Lemma bt_list_NoDup_fst {V} (m : gmap bytes V) : NoDup (bt_list m).*1.
Proof. rewrite bt_list_fst. apply bt_elems_NoDup. Qed.

Lemma bt_list_NoDup {V} (m : gmap bytes V) : NoDup (bt_list m).
Proof. eapply NoDup_fmap_1, bt_list_NoDup_fst. Qed.

Lemma elem_of_bt_keys {V} (m : gmap bytes V) k : k ∈ bt_keys m <-> is_Some (m !! k).
Proof. unfold bt_keys. by rewrite elem_of_bt_elems, elem_of_dom. Qed.

Lemma bt_list_sorted {V} (m : gmap bytes V) : StronglySorted bytes_lt (bt_list m).*1.
Proof. rewrite bt_list_fst. apply bt_elems_sorted. Qed.

Lemma bt_list_length {V} (m : gmap bytes V) : length (bt_list m) = size m.
Proof.
  rewrite <- (length_fmap fst), bt_list_fst. unfold bt_keys.
  by rewrite bt_elems_length, size_dom.
Qed.

Lemma list_to_map_bt_list {V} (m : gmap bytes V) : list_to_map (bt_list m) = m.
Proof.
  apply map_eq. intros k. apply option_eq. intros v.
  rewrite <- elem_of_list_to_map by apply bt_list_NoDup_fst. apply elem_of_bt_list.
Qed.

Lemma omap_lookup_all {K V} `{Countable K} (m : gmap K V) (l : list (K * V)) :
  (forall k v, (k, v) ∈ l -> m !! k = Some v) ->
  omap (fun k => (fun v => (k, v)) <$> m !! k) l.*1 = l.
Proof.
  induction l as [|[k v] l IH]; intros Hl; [done|]. simpl.
  rewrite (Hl k v) by apply list_elem_of_here. simpl. f_equal. apply IH.
  intros k' v' Hin. apply Hl. by apply list_elem_of_further.
Qed.

(** A list strictly ascending in its keys is the iteration of its map. *)
Lemma bt_list_of_sorted {V} (l : list (bytes * V)) :
  StronglySorted bytes_lt l.*1 -> bt_list (list_to_map l) = l.
Proof.
  intros Hs. assert (NoDup l.*1) as Hnd by (by apply sorted_lt_NoDup).
  unfold bt_list. rewrite dom_list_to_map_L, bt_elems_of_sorted by done.
  apply omap_lookup_all. intros k v. by apply elem_of_list_to_map_1.
Qed.

Lemma foldl_insert_map {K V} `{Countable K} (l : list (K * V)) (acc : gmap K V) :
  NoDup l.*1 ->
  foldl (fun m kv => <[kv.1 := kv.2]> m) acc l = list_to_map l ∪ acc.
Proof.
  revert acc. induction l as [|[k v] l IH]; intros acc Hnd; cbn [foldl fst snd].
  - change (list_to_map [] : gmap K V) with (∅ : gmap K V). by rewrite map_empty_union.
  - apply NoDup_cons in Hnd as [Hk Hnd]. rewrite IH by done. simpl.
    rewrite <- insert_union_l, insert_union_r; [done|].
    by apply not_elem_of_list_to_map_1.
Qed.

(** The same for integer keys. *)
Lemma nt_keys_perm {V} (m : gmap N V) : nt_keys m ≡ₚ elements (dom m).
Proof. apply merge_sort_Permutation. Qed.

Lemma sorted_N_lt_NoDup l : StronglySorted N.lt l -> NoDup l.
Proof.
  induction 1 as [|x l Hs IH Hx]; constructor; [|done].
  intros Hin. rewrite Forall_forall in Hx. specialize (Hx x Hin). lia.
Qed.

Lemma sorted_N_le l : StronglySorted N.lt l -> StronglySorted N.le l.
Proof.
  induction 1 as [|x l Hs IH Hx]; constructor; [done|].
  eapply Forall_impl; [exact Hx|]. intros y Hy. lia.
Qed.

Lemma sorted_N_unique l k :
  StronglySorted N.lt l -> StronglySorted N.lt k -> (forall x, x ∈ l <-> x ∈ k) -> l = k.
Proof.
  intros Hl Hk He. apply (StronglySorted_unique N.le); auto using sorted_N_le.
  apply NoDup_Permutation; auto using sorted_N_lt_NoDup.
Qed.

Lemma nt_keys_sorted {V} (m : gmap N V) : StronglySorted N.lt (nt_keys m).
Proof.
  assert (StronglySorted N.le (nt_keys m)) as Hs by (apply StronglySorted_merge_sort; apply _).
  assert (NoDup (nt_keys m)) as Hnd by (rewrite nt_keys_perm; apply NoDup_elements).
  induction Hs as [|x l Hs IH Hx]; [constructor|]. apply NoDup_cons in Hnd as [Hn Hnd].
  constructor; [auto|]. rewrite Forall_forall in *. intros y Hy. specialize (Hx y Hy).
  destruct (decide (x = y)) as [->|]; [done|lia].
Qed.

Lemma elem_of_nt_list {V} (m : gmap N V) k v : (k, v) ∈ nt_list m <-> m !! k = Some v.
Proof.
  unfold nt_list. rewrite list_elem_of_omap. split.
  - intros (k' & Hk & Hv). destruct (m !! k') eqn:E; simplify_eq/=. done.
  - intros H. exists k. rewrite nt_keys_perm, elem_of_elements, elem_of_dom, H. eauto.
Qed.

Lemma nt_list_fst {V} (m : gmap N V) : (nt_list m).*1 = nt_keys m.
Proof.
  unfold nt_list. assert (forall k, k ∈ nt_keys m -> is_Some (m !! k)) as H.
  { intros k. by rewrite nt_keys_perm, elem_of_elements, elem_of_dom. }
  induction (nt_keys m) as [|k l IH]; [done|]. simpl.
  destruct (H k) as [v Hv]; [set_solver|]. rewrite Hv. simpl. f_equal.
  apply IH. set_solver.
Qed.

Lemma nt_list_sorted {V} (m : gmap N V) : StronglySorted N.lt (nt_list m).*1.
Proof. rewrite nt_list_fst. apply nt_keys_sorted. Qed.

Lemma nt_list_length {V} (m : gmap N V) : length (nt_list m) = size m.
Proof.
  rewrite <- (length_fmap fst), nt_list_fst, nt_keys_perm. apply size_dom.
Qed.

Lemma list_to_map_nt_list {V} (m : gmap N V) : list_to_map (nt_list m) = m.
Proof.
  apply map_eq. intros k. apply option_eq. intros v.
  rewrite <- elem_of_list_to_map by (rewrite nt_list_fst, nt_keys_perm; apply NoDup_elements).
  apply elem_of_nt_list.
Qed.

Lemma nt_list_of_sorted {V} (l : list (N * V)) :
  StronglySorted N.lt l.*1 -> nt_list (list_to_map l) = l.
Proof.
  intros Hs. assert (NoDup l.*1) as Hnd by (by apply sorted_N_lt_NoDup).
  unfold nt_list. assert (nt_keys (list_to_map l : gmap N V) = l.*1) as ->.
  { apply sorted_N_unique; [apply nt_keys_sorted|done|]. intros k.
    by rewrite nt_keys_perm, elem_of_elements, dom_list_to_map_L, elem_of_list_to_set. }
  apply omap_lookup_all. intros k v. by apply elem_of_list_to_map_1.
Qed.

Global Arguments u32_to_be_bytes : simpl never.
Global Arguments u64_to_be_bytes : simpl never.
Global Arguments be_bytes : simpl never.
Global Arguments be_val : simpl never.
Global Arguments lenN : simpl never.
Global Arguments slice : simpl never.
