(* ===== verification/Crypto.v ===== *)
(** * The primitive layer ([crates/cfr-crypto])

    The ciphers, hashes, signatures and curves come from other crates: they are
    the operations of the class [Primitives], and [PrimitivesOk] holds what
    those crates document.  The wrappers of [cfr-crypto] are definitions:
    [secret.rs] (erasable buffers, the XOR accumulator), [hash.rs] (length
    prefixed, labelled hashing), [aead.rs], [dh.rs], [sig.rs] and the entropy
    entry point of [lib.rs].  [Toy] is a concrete instance of the class. *)

From Stdlib Require Import NArith Lia.
From S2P Require Import Prelude.

(** ** Third-party primitives *)

Class Primitives := {
  (* blake3: optional key, input, finalized to 32 bytes, and its XOF *)
  blake3 : option bytes -> bytes -> bytes;
  blake3_xof : option bytes -> bytes -> nat -> bytes;
  (* aegis: tag length, key, nonce, plaintext, associated data *)
  aegis256_encrypt : nat -> bytes -> bytes -> bytes -> bytes -> bytes * bytes;
  aegis256_decrypt : nat -> bytes -> bytes -> bytes -> bytes -> bytes -> option bytes;
  (* ed25519-dalek: seed -> public key; signing; key decoding; strict check *)
  ed25519_public : bytes -> bytes;
  ed25519_sign : bytes -> bytes -> bytes;
  ed25519_decodes : bytes -> bool;
  ed25519_verify_strict : bytes -> bytes -> bytes -> bool;
  (* x25519-dalek: scalar -> point; agreement; contributory check *)
  x25519_public : bytes -> bytes;
  x25519_dh : bytes -> bytes -> bytes;
  x25519_contributory : bytes -> bool;
}.

(** Documented behaviour of those crates. *)
Class PrimitivesOk (P : Primitives) : Prop := {
  blake3_length k x : length (blake3 k x) = 32;
  blake3_xof_length k x n : length (blake3_xof k x n) = n;
  aegis_correct t k n p a :
    let '(c, g) := aegis256_encrypt t k n p a in
    aegis256_decrypt t k n c g a = Some p;
  aegis_length t k n p a :
    let '(c, g) := aegis256_encrypt t k n p a in
    length c = length p /\ length g = t;
  ed25519_correct s m :
    ed25519_verify_strict (ed25519_public s) m (ed25519_sign s m) = true;
  ed25519_public_decodes s : ed25519_decodes (ed25519_public s) = true;
  ed25519_public_length s : length (ed25519_public s) = 32;
  ed25519_sign_length s m : length (ed25519_sign s m) = 64;
  x25519_commutes a b :
    x25519_dh a (x25519_public b) = x25519_dh b (x25519_public a);
  x25519_public_length a : length (x25519_public a) = 32;
  x25519_dh_length a p : length (x25519_dh a p) = 32;
}.

Definition KEY_LEN : nat := 32.
Definition NONCE_LEN : nat := 32.
Definition TAG_LEN : nat := 32.
Definition TAG_LEN_SHORT : nat := 16.
Definition MAC_LEN : nat := 16.
Definition SIG_LEN : nat := 64.

Inductive CryptoError :=
| CryptoBadTag
| CryptoBadSignature
| CryptoBadEncoding
| CryptoTruncated
| CryptoNoEntropy.

#[export] Instance CryptoError_eq_dec : EqDecision CryptoError.
Proof. solve_decision. Defined.

(** ** [secret.rs] *)

Definition byte_xor (a b : byte) : byte := byte_of (N.lxor (Byte.to_N a) (Byte.to_N b)).

Definition secret_zero (n : nat) : bytes := array_of Byte.x00 n.

Definition secret_from_slice (n : nat) (b : bytes) : option bytes :=
  if decide (length b = n) then Some b else None.

Definition xor_in_place (a b : bytes) : bytes := zip_with byte_xor a b.

Definition wipe (s : bytes) : bytes := secret_zero (length s).

Definition ct_eq (a b : bytes) : bool :=
  if decide (length a = length b) then bool_decide (a = b) else false.

(** ** Entropy ([lib.rs])

    The operating system's answers to successive requests, in order. *)

Abbreviation Tape := (list (option bytes)).

Definition fill_random (n : nat) : M Tape CryptoError bytes := fun t =>
  match t with
  | Some b :: t' => (Ok (take n (b ++ secret_zero n)), t')
  | None :: t' => (Err CryptoNoEntropy, t')
  | [] => (Err CryptoNoEntropy, [])
  end.

Definition random_secret : M Tape CryptoError bytes := fill_random KEY_LEN.

(** ** Hashing, signing, sealing *)

Section wrappers.
Context {P : Primitives}.

(** A [blake3::Hasher] by its mode and what it absorbed. *)
Record Hasher := mkHasher { h_key : option bytes; h_input : bytes }.

Definition hasher_field (h : Hasher) (data : bytes) : Hasher :=
  mkHasher (h_key h) (h_input h ++ u32_to_be_bytes (lenN data) ++ data).

Definition hasher_new (label : bytes) : Hasher := hasher_field (mkHasher None []) label.

Definition hasher_keyed (key label : bytes) : Hasher :=
  hasher_field (mkHasher (Some key) []) label.

Definition hasher_u32 (h : Hasher) (v : N) : Hasher := hasher_field h (u32_to_be_bytes v).
Definition hasher_u64 (h : Hasher) (v : N) : Hasher := hasher_field h (u64_to_be_bytes v).

Definition hasher_finish (h : Hasher) : bytes := blake3 (h_key h) (h_input h).

Definition hasher_finish_into (h : Hasher) (n : nat) : bytes :=
  blake3_xof (h_key h) (h_input h) n.

Definition hash (label : bytes) (fields : list bytes) : bytes :=
  hasher_finish (foldl hasher_field (hasher_new label) fields).

Definition hash_into (label : bytes) (fields : list bytes) (n : nat) : bytes :=
  hasher_finish_into (foldl hasher_field (hasher_new label) fields) n.

Definition kdf (key label : bytes) (ctx : list bytes) : bytes :=
  hasher_finish (foldl hasher_field (hasher_keyed key label) ctx).

Definition kdf_into (key label : bytes) (ctx : list bytes) (n : nat) : bytes :=
  hasher_finish_into (foldl hasher_field (hasher_keyed key label) ctx) n.

Definition mac (key label : bytes) (fields : list bytes) : bytes :=
  let h := hasher_field (hasher_keyed key (bstr "cfr/mac")) label in
  hasher_finish_into (foldl hasher_field h fields) MAC_LEN.

Definition mac_verify (key label : bytes) (fields : list bytes) (tag : bytes) : bool :=
  ct_eq (mac key label fields) tag.

Definition nonce (fields : list bytes) : bytes := hash (bstr "cfr/nonce") fields.

Definition aead_seal (key nonce plaintext ad : bytes) : bytes :=
  let '(ct, tag) := aegis256_encrypt TAG_LEN key nonce plaintext ad in ct ++ tag.

Definition aead_open (key nonce ciphertext ad : bytes) : result CryptoError bytes :=
  if decide (length ciphertext < TAG_LEN) then Err CryptoTruncated
  else
    let n := length ciphertext - TAG_LEN in
    let body := take n ciphertext in
    let tag := drop n ciphertext in
    ok_or (aegis256_decrypt TAG_LEN key nonce body tag ad) CryptoBadTag.

Definition aead_seal_detached (key nonce buf ad : bytes) : bytes * bytes :=
  aegis256_encrypt TAG_LEN key nonce buf ad.

Definition aead_open_detached (key nonce buf tag ad : bytes) : result CryptoError bytes :=
  ok_or (aegis256_decrypt TAG_LEN key nonce buf tag ad) CryptoBadTag.

Definition aead_seal_detached_short (key nonce buf ad : bytes) : bytes * bytes :=
  aegis256_encrypt TAG_LEN_SHORT key nonce buf ad.

Definition aead_open_detached_short (key nonce buf tag ad : bytes) : result CryptoError bytes :=
  ok_or (aegis256_decrypt TAG_LEN_SHORT key nonce buf tag ad) CryptoBadTag.

(** [sig.rs]: a signing key is its seed, a public key its encoding. *)
Definition sig_generate : M Tape CryptoError bytes := fill_random 32.
Definition sig_public (seed : bytes) : bytes := ed25519_public seed.
Definition sig_sign (seed msg : bytes) : bytes := ed25519_sign seed msg.

Definition sig_verify (pk msg sig : bytes) : result CryptoError unit :=
  if negb (ed25519_decodes pk) then Err CryptoBadEncoding
  else if ed25519_verify_strict pk msg sig then Ok tt
  else Err CryptoBadSignature.

(** [dh.rs] *)
Definition dh_generate : M Tape CryptoError bytes := fill_random 32.
Definition dh_public (sk : bytes) : bytes := x25519_public sk.

Definition dh_agree (sk peer : bytes) : option bytes :=
  let shared := x25519_dh sk peer in
  if negb (x25519_contributory shared) then None else Some shared.

(** These two inputs of one mode have one digest.  Statements that need
    collision resistance name the two inputs. *)
Definition collide (key : option bytes) (x y : bytes) : Prop :=
  x <> y /\ blake3 key x = blake3 key y.

(** The canonical image a field list is hashed under. *)
Fixpoint frames (fs : list bytes) : bytes :=
  match fs with
  | [] => []
  | f :: fs' => u32_to_be_bytes (lenN f) ++ f ++ frames fs'
  end.

Definition framable (f : bytes) : Prop := (lenN f < two32)%N.

(** ** Lemmas *)

Lemma foldl_field fs k x :
  foldl hasher_field (mkHasher k x) fs = mkHasher k (x ++ frames fs).
Proof.
  revert x. induction fs as [|f fs IH]; intros x; simpl.
  - by rewrite app_nil_r.
  - etrans; [apply IH|]. simpl. by rewrite <- !app_assoc.
Qed.

Lemma foldl_field_label l fs k :
  foldl hasher_field (hasher_field (mkHasher k []) l) fs = mkHasher k (frames (l :: fs)).
Proof. apply (foldl_field (l :: fs) k []). Qed.

Lemma hash_frames l fs : hash l fs = blake3 None (frames (l :: fs)).
Proof. unfold hash, hasher_finish, hasher_new. by rewrite foldl_field_label. Qed.

Lemma kdf_frames k l fs : kdf k l fs = blake3 (Some k) (frames (l :: fs)).
Proof. unfold kdf, hasher_finish, hasher_keyed. by rewrite foldl_field_label. Qed.

Lemma mac_frames k l fs :
  mac k l fs = blake3_xof (Some k) (frames (bstr "cfr/mac" :: l :: fs)) MAC_LEN.
Proof.
  unfold mac, hasher_finish_into, hasher_keyed.
  pose proof (foldl_field_label (bstr "cfr/mac") (l :: fs) (Some k)) as H.
  cbn [foldl] in H. by rewrite H.
Qed.

Lemma frames_inj fs gs :
  Forall framable fs -> Forall framable gs -> frames fs = frames gs -> fs = gs.
Proof.
  revert gs. induction fs as [|f fs IH]; intros [|g gs] Hf Hg H; [done| | |].
  - by apply (f_equal length) in H.
  - by apply (f_equal length) in H.
  - apply Forall_cons in Hf as [Hf1 Hf2]. apply Forall_cons in Hg as [Hg1 Hg2].
    cbn [frames] in H. apply app_inj_1 in H as [Hl H]; [|by rewrite !u32_be_length].
    apply (f_equal be_val) in Hl. rewrite !u32_be_val in Hl by done.
    apply app_inj_1 in H as [-> H]; [|len_lia].
    f_equal. by apply IH.
Qed.

Lemma xor_length a b : length a = length b -> length (xor_in_place a b) = length a.
Proof. intros H. unfold xor_in_place. rewrite length_zip_with. lia. Qed.

Lemma byte_xor_N a b : Byte.to_N (byte_xor a b) = N.lxor (Byte.to_N a) (Byte.to_N b).
Proof.
  unfold byte_xor. rewrite to_N_byte_of. apply N.mod_small.
  change 256%N with (2 ^ 8)%N.
  assert (N.lxor (Byte.to_N a) (Byte.to_N b)
          = N.land (N.lxor (Byte.to_N a) (Byte.to_N b)) (N.ones 8)) as ->.
  - apply N.bits_inj. intros i. rewrite N.land_spec.
    destruct (N.ltb_spec i 8).
    + by rewrite N.ones_spec_low, andb_true_r by done.
    + rewrite N.ones_spec_high, andb_false_r by done. rewrite N.lxor_spec.
      assert (forall c, N.testbit (Byte.to_N c) i = false) as Hc.
      { intros c. pose proof (to_N_lt c) as Hlt.
        rewrite <- (N.mod_small _ (2 ^ 8) Hlt). by apply N.mod_pow2_bits_high. }
      by rewrite !Hc.
  - rewrite N.land_ones. apply N.mod_lt. done.
Qed.

Lemma byte_xor_comm a b : byte_xor a b = byte_xor b a.
Proof. apply to_N_inj. rewrite !byte_xor_N. apply N.lxor_comm. Qed.

Lemma byte_xor_assoc a b c : byte_xor a (byte_xor b c) = byte_xor (byte_xor a b) c.
Proof. apply to_N_inj. rewrite !byte_xor_N. by rewrite N.lxor_assoc. Qed.

Lemma byte_xor_self a : byte_xor a a = Byte.x00.
Proof. apply to_N_inj. rewrite byte_xor_N. by rewrite N.lxor_nilpotent. Qed.

Lemma byte_xor_zero a : byte_xor a Byte.x00 = a.
Proof. apply to_N_inj. rewrite byte_xor_N. apply N.lxor_0_r. Qed.

Lemma xor_comm a b : xor_in_place a b = xor_in_place b a.
Proof.
  unfold xor_in_place. revert b. induction a; intros [|y b]; simpl; try done.
  by rewrite byte_xor_comm, IHa.
Qed.

Lemma xor_assoc a b c :
  xor_in_place a (xor_in_place b c) = xor_in_place (xor_in_place a b) c.
Proof.
  unfold xor_in_place. revert b c.
  induction a; intros [|y b] [|z c]; simpl; try done. by rewrite byte_xor_assoc, IHa.
Qed.

Lemma xor_zero a : xor_in_place a (secret_zero (length a)) = a.
Proof.
  unfold xor_in_place, secret_zero, array_of. induction a; simpl; [done|].
  by rewrite byte_xor_zero, IHa.
Qed.

Lemma xor_self a : xor_in_place a a = secret_zero (length a).
Proof.
  unfold xor_in_place, secret_zero, array_of. induction a; simpl; [done|].
  by rewrite byte_xor_self, IHa.
Qed.

Lemma ct_eq_spec a b : ct_eq a b = bool_decide (a = b).
Proof. unfold ct_eq. case_decide; [done|]. rewrite bool_decide_false; [done|]. by intros ->. Qed.

Lemma sig_verify_ok pk m s :
  sig_verify pk m s = Ok tt <->
  ed25519_decodes pk = true /\ ed25519_verify_strict pk m s = true.
Proof.
  unfold sig_verify.
  destruct (ed25519_decodes pk), (ed25519_verify_strict pk m s); simpl; naive_solver.
Qed.

Section with_laws.
Context {PO : PrimitivesOk P}.

Lemma hash_length l fs : length (hash l fs) = 32.
Proof. rewrite hash_frames. apply blake3_length. Qed.

Lemma kdf_length k l fs : length (kdf k l fs) = 32.
Proof. rewrite kdf_frames. apply blake3_length. Qed.

Lemma sig_verify_own s m : sig_verify (sig_public s) m (sig_sign s m) = Ok tt.
Proof. apply sig_verify_ok. split; [apply ed25519_public_decodes|apply ed25519_correct]. Qed.

Lemma aead_seal_length k n p a : length (aead_seal k n p a) = length p + TAG_LEN.
Proof.
  unfold aead_seal. pose proof (aegis_length TAG_LEN k n p a) as H.
  destruct (aegis256_encrypt TAG_LEN k n p a) as [c g]. rewrite length_app. lia.
Qed.
End with_laws.
End wrappers.

(** ** Properties *)

Section properties.
Context {P : Primitives} {PO : PrimitivesOk P}.

Lemma hash_inj l1 l2 fs1 fs2 :
  Forall framable (l1 :: fs1) -> Forall framable (l2 :: fs2) ->
  hash l1 fs1 = hash l2 fs2 ->
  (l1 = l2 /\ fs1 = fs2) \/ collide None (frames (l1 :: fs1)) (frames (l2 :: fs2)).
Proof using Type.
  intros H1 H2. rewrite !hash_frames. intros H.
  destruct (decide (frames (l1 :: fs1) = frames (l2 :: fs2))) as [E|E].
  - left. apply frames_inj in E; [|done|done]. by simplify_eq.
  - by right.
Qed.

Lemma kdf_inj key l1 l2 fs1 fs2 :
  Forall framable (l1 :: fs1) -> Forall framable (l2 :: fs2) ->
  kdf key l1 fs1 = kdf key l2 fs2 ->
  (l1 = l2 /\ fs1 = fs2) \/ collide (Some key) (frames (l1 :: fs1)) (frames (l2 :: fs2)).
Proof using Type.
  intros H1 H2. rewrite !kdf_frames. intros H.
  destruct (decide (frames (l1 :: fs1) = frames (l2 :: fs2))) as [E|E].
  - left. apply frames_inj in E; [|done|done]. by simplify_eq.
  - by right.
Qed.

Lemma aead_open_sealed k n p a : aead_open k n (aead_seal k n p a) a = Ok p.
Proof.
  unfold aead_open. rewrite aead_seal_length, decide_False by (unfold TAG_LEN; lia).
  unfold aead_seal. pose proof (aegis_correct TAG_LEN k n p a) as Hc.
  pose proof (aegis_length TAG_LEN k n p a) as Hl.
  destruct (aegis256_encrypt TAG_LEN k n p a) as [c g]. destruct Hl as [Hl _].
  replace (length p + TAG_LEN - TAG_LEN) with (length c) by (unfold TAG_LEN; lia).
  rewrite take_app_length, drop_app_length. by rewrite Hc.
Qed.

Lemma dh_agree_comm a b : dh_agree a (dh_public b) = dh_agree b (dh_public a).
Proof. unfold dh_agree, dh_public. by rewrite x25519_commutes. Qed.

(** Field framing is unambiguous: two labelled hashes of field lists agree
    only when the labels and the fields agree, unless BLAKE3 collides on the two
    framed lists themselves; likewise for derivations under one key. *)
Theorem hash_kdf_binding key l1 l2 fs1 fs2 :
  Forall framable (l1 :: fs1) -> Forall framable (l2 :: fs2) ->
  let i1 := frames (l1 :: fs1) in
  let i2 := frames (l2 :: fs2) in
  (hash l1 fs1 = hash l2 fs2 -> (l1 = l2 /\ fs1 = fs2) \/ collide None i1 i2) /\
  (kdf key l1 fs1 = kdf key l2 fs2 -> (l1 = l2 /\ fs1 = fs2) \/ collide (Some key) i1 i2).
Proof using Type.
  intros H1 H2 i1 i2. split; [by apply hash_inj|by apply kdf_inj].
Qed.

(** Sealing then opening with the same key, nonce and associated data
    returns the plaintext, and anything shorter than a tag is refused as
    truncated. *)
Theorem aead_seal_open k n p a ct :
  (ct = aead_seal k n p a -> aead_open k n ct a = Ok p /\ length ct = length p + TAG_LEN) /\
  (length ct < TAG_LEN -> aead_open k n ct a = Err CryptoTruncated).
Proof.
  split.
  - intros ->. split; [apply aead_open_sealed|apply aead_seal_length].
  - intros H. unfold aead_open. by rewrite decide_True.
Qed.
End properties.
