(* ===== verification/Toy.v ===== *)
(** * A concrete instance of the primitive layer

    [Toy] implements every operation of [Primitives] by a small computable
    function and satisfies [PrimitivesOk], so that the hypotheses of the
    theorems can be met and the model can be run.  Nothing is claimed about its
    strength: it is the test double of the development. *)

From Stdlib Require Import NArith Lia.
From S2P Require Import Prelude Crypto.

Definition toy_mask : N := N.ones 48.

(** A polynomial checksum over the key and the input. *)
Definition toy_digest (k : option bytes) (x : bytes) : bytes :=
  let start := match k with Some b => be_val (byte_of 1 :: b) | None => 7%N end in
  let h := foldl (fun h b => N.land (16777619 * h + Byte.to_N b + 1) toy_mask) start x in
  let d := be_bytes 8 h in d ++ d ++ d ++ d.

Definition resize (n : nat) (b : bytes) : bytes := take n (b ++ secret_zero n).

Definition toy_stream (b : byte) : byte := byte_xor b (byte_of 90).

Definition toy_tag (t : nat) (k n p a : bytes) : bytes :=
  resize t (toy_digest (Some k) (frames [n; p; a])).

Definition toy_signature (pk m : bytes) : bytes :=
  toy_digest None (pk ++ m) ++ toy_digest (Some pk) m.

#[export] Instance Toy : Primitives := {|
  blake3 := toy_digest;
  blake3_xof := fun k x n => resize n (toy_digest k x);
  aegis256_encrypt := fun t k n p a => (toy_stream <$> p, toy_tag t k n p a);
  aegis256_decrypt := fun t k n c g a =>
    let p := toy_stream <$> c in
    if decide (g = toy_tag t k n p a) then Some p else None;
  ed25519_public := fun s => toy_digest (Some (bstr "public")) s;
  ed25519_sign := fun s m => toy_signature (toy_digest (Some (bstr "public")) s) m;
  ed25519_decodes := fun _ => true;
  ed25519_verify_strict := fun pk m sig => bool_decide (sig = toy_signature pk m);
  x25519_public := resize 32;
  x25519_dh := fun a p => xor_in_place (resize 32 a) (resize 32 p);
  x25519_contributory := fun s => negb (bool_decide (s = secret_zero 32));
|}.

Lemma toy_digest_length k x : length (toy_digest k x) = 32.
Proof. unfold toy_digest. cbn zeta. by rewrite !length_app, !be_bytes_length. Qed.

Lemma resize_length n b : length (resize n b) = n.
Proof. unfold resize, secret_zero, array_of. len_lia. Qed.

Lemma resize_id b n : length b = n -> resize n b = b.
Proof. intros <-. unfold resize. apply take_app_length. Qed.

Lemma toy_stream_involutive b : toy_stream (toy_stream b) = b.
Proof.
  unfold toy_stream. by rewrite <- byte_xor_assoc, byte_xor_self, byte_xor_zero.
Qed.

Lemma toy_stream_list (p : bytes) : toy_stream <$> (toy_stream <$> p) = p.
Proof.
  rewrite <- list_fmap_compose. rewrite <- (list_fmap_id p) at 2.
  apply list_fmap_ext. intros i b _. apply toy_stream_involutive.
Qed.

#[export] Instance ToyOk : PrimitivesOk Toy.
Proof.
  split; cbn -[resize toy_digest toy_tag].
  - intros. apply toy_digest_length.
  - intros. apply resize_length.
  - intros t k n p a. rewrite toy_stream_list. by rewrite decide_True.
  - intros t k n p a. rewrite length_fmap. split; [done|apply resize_length].
  - intros. by apply bool_decide_true.
  - done.
  - intros. apply toy_digest_length.
  - intros. unfold toy_signature. by rewrite length_app, !toy_digest_length.
  - intros a b. rewrite !(resize_id (resize 32 _) 32) by apply resize_length. apply xor_comm.
  - intros. apply resize_length.
  - intros. rewrite xor_length; rewrite !resize_length; done.
Qed.

(** ** Witnesses for the primitive layer *)

Lemma hash_kdf_binding_witness :
  hash (P := Toy) (bstr "cfr/a") [bstr "ab"; bstr "c"]
    <> hash (bstr "cfr/a") [bstr "a"; bstr "bc"] /\
  (hash (P := Toy) (bstr "cfr/a") [bstr "ab"] = hash (bstr "cfr/a") [bstr "ab"] ->
   (bstr "cfr/a" = bstr "cfr/a" /\ [bstr "ab"] = [bstr "ab"]) \/
   collide (P := Toy) None (frames [bstr "cfr/a"; bstr "ab"]) (frames [bstr "cfr/a"; bstr "ab"])).
Proof.
  split; [by vm_compute|].
  apply (hash_kdf_binding (P := Toy) [] (bstr "cfr/a") (bstr "cfr/a") [bstr "ab"] [bstr "ab"]);
    repeat constructor.
Defined.

Lemma aead_seal_open_witness :
  aead_open (P := Toy) (bstr "k") (bstr "n")
    (aead_seal (bstr "k") (bstr "n") (bstr "payload") (bstr "header")) (bstr "header")
  = Ok (bstr "payload").
Proof.
  exact (proj1 (proj1 (aead_seal_open (P := Toy) (bstr "k") (bstr "n") (bstr "payload")
                         (bstr "header") _) eq_refl)).
Defined.
