(* ===== verification/Kem.v ===== *)
(** * The hybrid key encapsulation ([crates/cfr-crypto/src/kem.rs])

    X25519 and ML-KEM-768 side by side, combined so that the secret is bound to
    the whole exchange.  ML-KEM comes from another crate: its operations are the
    class [MlKem], and [MlKemOk] holds the widths and the canonical encoding of
    keys that FIPS 203 prescribes.  Its decapsulation recovers the secret except
    for a negligible share of the draws, so that step is named where it is used
    ([mlkem_recovers]) and not assumed in general. *)

From Stdlib Require Import NArith Lia.
From S2P Require Import Prelude Crypto Toy.

Definition MLKEM_PK_LEN : nat := N.to_nat 1184.
Definition MLKEM_CT_LEN : nat := N.to_nat 1088.
Definition HYBRID_PK_LEN : nat := 32 + MLKEM_PK_LEN.
Definition HYBRID_CT_LEN : nat := 32 + MLKEM_CT_LEN.

Class MlKem := {
  mlkem_dk : Type;
  mlkem_ek : Type;
  (* a key pair from a 64-byte seed *)
  mlkem_from_seed : bytes -> mlkem_dk;
  mlkem_encapsulation_key : mlkem_dk -> mlkem_ek;
  (* ciphertext and secret from 32 drawn bytes *)
  mlkem_encapsulate : mlkem_ek -> bytes -> bytes * bytes;
  (* never fails: a ciphertext that was not made for the key gives another secret *)
  mlkem_decapsulate : mlkem_dk -> bytes -> bytes;
  mlkem_to_bytes : mlkem_ek -> bytes;
  (* with the modulus check *)
  mlkem_new : bytes -> option mlkem_ek;
}.

Class MlKemOk (K : MlKem) : Prop := {
  mlkem_ct_length ek m : length (mlkem_encapsulate ek m).1 = MLKEM_CT_LEN;
  mlkem_ss_length ek m : length (mlkem_encapsulate ek m).2 = 32;
  mlkem_pk_length ek : length (mlkem_to_bytes ek) = MLKEM_PK_LEN;
  mlkem_new_spec b ek : length b = MLKEM_PK_LEN -> mlkem_new b = Some ek <-> mlkem_to_bytes ek = b;
}.

Section kem.
Context {P : Primitives} {K : MlKem}.

Record HybridSecret := mkHybridSecret { hs_x : bytes; hs_pq : mlkem_dk }.
Record HybridPublic := mkHybridPublic { hp_x : bytes; hp_pq : mlkem_ek }.
Record HybridCiphertext := mkHybridCiphertext { hc_bytes : bytes }.

(** [DhPublic::from_slice] *)
Definition dh_from_slice (b : bytes) : result CryptoError bytes :=
  if decide (length b = 32) then Ok b else Err CryptoBadEncoding.

(** [Array::try_from] of a slice. *)
Definition array_from_slice (n : nat) (b : bytes) : result CryptoError bytes :=
  if decide (length b = n) then Ok b else Err CryptoBadEncoding.

Definition hybrid_generate : M Tape CryptoError HybridSecret :=
  seed ← fill_random 64;
  let dk := mlkem_from_seed seed in
  x ← dh_generate;
  mret (mkHybridSecret x dk).

Definition hybrid_public (s : HybridSecret) : HybridPublic :=
  mkHybridPublic (dh_public (hs_x s)) (mlkem_encapsulation_key (hs_pq s)).

Definition hybrid_to_bytes (p : HybridPublic) : bytes := hp_x p ++ mlkem_to_bytes (hp_pq p).

Definition hybrid_combine (ss_x ss_pq ct : bytes) (pk : HybridPublic) : bytes :=
  let seed := hasher_new (bstr "cfr/hybrid/seed") in
  let seed := hasher_field seed ss_x in
  let seed := hasher_field seed ss_pq in
  let root := hasher_finish seed in
  let h := hasher_keyed root (bstr "cfr/hybrid") in
  let h := hasher_field h ct in
  let h := hasher_field h (hybrid_to_bytes pk) in
  hasher_finish h.

Definition hybrid_decapsulate (s : HybridSecret) (ct : HybridCiphertext) : result CryptoError bytes :=
  if decide (length (hc_bytes ct) <> HYBRID_CT_LEN) then Err CryptoBadEncoding else
  let x_ct := take 32 (hc_bytes ct) in
  let pq_ct := drop 32 (hc_bytes ct) in
  x_pub ← dh_from_slice x_ct;
  ss_x ← ok_or (dh_agree (hs_x s) x_pub) CryptoBadEncoding;
  arr ← array_from_slice MLKEM_CT_LEN pq_ct;
  let ss_pq := mlkem_decapsulate (hs_pq s) arr in
  Ok (hybrid_combine ss_x ss_pq (hc_bytes ct) (hybrid_public s)).

Definition hybrid_encapsulate (p : HybridPublic) : M Tape CryptoError (HybridCiphertext * bytes) :=
  eph ← dh_generate;
  ss_x ← lift (ok_or (dh_agree eph (hp_x p)) CryptoBadEncoding);
  m ← fill_random 32;
  let '(pq_ct, ss_pq) := mlkem_encapsulate (hp_pq p) m in
  let ct := dh_public eph ++ pq_ct in
  mret (mkHybridCiphertext ct, hybrid_combine ss_x ss_pq ct p).

Definition hybrid_from_bytes (b : bytes) : result CryptoError HybridPublic :=
  if decide (length b <> HYBRID_PK_LEN) then Err CryptoBadEncoding else
  let x := take 32 b in
  let pq := drop 32 b in
  enc ← array_from_slice MLKEM_PK_LEN pq;
  x ← dh_from_slice x;
  pq ← ok_or (mlkem_new enc) CryptoBadEncoding;
  Ok (mkHybridPublic x pq).

Definition ciphertext_from_bytes (b : bytes) : result CryptoError HybridCiphertext :=
  if decide (length b <> HYBRID_CT_LEN) then Err CryptoBadEncoding else Ok (mkHybridCiphertext b).
End kem.
#[global] Arguments HybridSecret {K}.
#[global] Arguments HybridPublic {K}.

(** ** Properties *)

Section properties.
Context {P : Primitives} {K : MlKem} {PO : PrimitivesOk P} {KO : MlKemOk K}.
Implicit Types (s : HybridSecret) (pk : HybridPublic).

(** What [fill_random] makes of an answer of the operating system. *)
Definition drawn (n : nat) (b : bytes) : bytes := take n (b ++ secret_zero n).

(** ML-KEM recovers the secret encapsulated with this draw. *)
Definition mlkem_recovers s (m : bytes) : Prop :=
  mlkem_decapsulate (hs_pq s) (mlkem_encapsulate (mlkem_encapsulation_key (hs_pq s)) m).1 =
  (mlkem_encapsulate (mlkem_encapsulation_key (hs_pq s)) m).2.

(** The chaining key and the input of the combiner. *)
Definition combiner_key (ss_x ss_pq : bytes) : bytes := hash (bstr "cfr/hybrid/seed") [ss_x; ss_pq].
Definition combiner_input (ct : bytes) pk : bytes := frames [bstr "cfr/hybrid"; ct; hybrid_to_bytes pk].

(** The two secrets that the owner of [s] extracts from [ct]. *)
Definition shares s ct : bytes * bytes :=
  (default [] (dh_agree (hs_x s) (take 32 (hc_bytes ct))), mlkem_decapsulate (hs_pq s) (drop 32 (hc_bytes ct))).

(** These two decapsulations combine different inputs to one digest. *)
Definition decapsulations_collide s ct s' ct' : Prop :=
  combiner_input (hc_bytes ct) (hybrid_public s) <> combiner_input (hc_bytes ct') (hybrid_public s') /\
  blake3 (Some (combiner_key (shares s ct).1 (shares s ct).2)) (combiner_input (hc_bytes ct) (hybrid_public s)) =
  blake3 (Some (combiner_key (shares s' ct').1 (shares s' ct').2)) (combiner_input (hc_bytes ct') (hybrid_public s')).

Lemma hybrid_combine_frames ss_x ss_pq ct pk :
  hybrid_combine ss_x ss_pq ct pk =
  blake3 (Some (combiner_key ss_x ss_pq)) (combiner_input ct pk).
Proof using Type. change (hybrid_combine ss_x ss_pq ct pk) with
  (kdf (combiner_key ss_x ss_pq) (bstr "cfr/hybrid") [ct; hybrid_to_bytes pk]). apply kdf_frames. Qed.

Lemma hybrid_public_wf s : length (hp_x (hybrid_public s)) = 32.
Proof using PO. apply x25519_public_length. Qed.

Lemma hybrid_to_bytes_length pk : length (hp_x pk) = 32 -> length (hybrid_to_bytes pk) = HYBRID_PK_LEN.
Proof using KO. intros H. unfold hybrid_to_bytes. rewrite length_app, H, mlkem_pk_length. done. Qed.

Lemma hybrid_from_bytes_iff b pk :
  hybrid_from_bytes b = Ok pk <-> hybrid_to_bytes pk = b /\ length (hp_x pk) = 32.
Proof using KO.
  unfold hybrid_from_bytes. split.
  - case_decide as Hl; [done|].  unfold array_from_slice, dh_from_slice, HYBRID_PK_LEN in *.
    rewrite !decide_True by len_lia. cbn [mbind result_bind].
    destruct (mlkem_new (drop 32 b)) as [ek|] eqn:E; [|done]. intros [= <-].
    apply mlkem_new_spec in E; [|len_lia]. unfold hybrid_to_bytes. cbn [hp_x hp_pq].
    rewrite E, take_drop. split; [done|len_lia].
  - intros [<- Hx]. rewrite decide_False by (rewrite hybrid_to_bytes_length by done; tauto).
    unfold array_from_slice, dh_from_slice, hybrid_to_bytes.
    rewrite take_app_length', drop_app_length' by done. rewrite !decide_True by (done || apply mlkem_pk_length). cbn [mbind result_bind].
    rewrite (proj2 (mlkem_new_spec _ (hp_pq pk) (mlkem_pk_length (hp_pq pk))) eq_refl). by destruct pk.
Qed.

Lemma hybrid_to_bytes_inj pk1 pk2 :
  length (hp_x pk1) = 32 -> length (hp_x pk2) = 32 -> hybrid_to_bytes pk1 = hybrid_to_bytes pk2 -> pk1 = pk2.
Proof using KO.
  intros H1 H2 E. assert (hybrid_from_bytes (hybrid_to_bytes pk1) = Ok pk2) as E2 by (by apply hybrid_from_bytes_iff).
  rewrite (proj2 (hybrid_from_bytes_iff _ pk1)) in E2 by done. congruence.
Qed.

Lemma combiner_input_inj ct1 pk1 ct2 pk2 :
  Forall framable [ct1; hybrid_to_bytes pk1] -> Forall framable [ct2; hybrid_to_bytes pk2] ->
  combiner_input ct1 pk1 = combiner_input ct2 pk2 -> ct1 = ct2 /\ hybrid_to_bytes pk1 = hybrid_to_bytes pk2.
Proof using Type. intros F1 F2 E. apply frames_inj in E; [by simplify_eq|by constructor|by constructor]. Qed.

Lemma framable_length (b : bytes) n : length b = n -> (N.of_nat n < two32)%N -> framable b.
Proof using Type. by intros <-. Qed.

Lemma hybrid_decapsulate_ok s ct ss :
  hybrid_decapsulate s ct = Ok ss ->
  length (hc_bytes ct) = HYBRID_CT_LEN /\
  ss = blake3 (Some (combiner_key (shares s ct).1 (shares s ct).2)) (combiner_input (hc_bytes ct) (hybrid_public s)).
Proof using Type.
  unfold hybrid_decapsulate, shares. case_decide as Hl; [done|].
  unfold array_from_slice, dh_from_slice, HYBRID_CT_LEN in *. rewrite !decide_True by len_lia. cbn [mbind result_bind].
  destruct (dh_agree (hs_x s) _) as [x|]; [|done]. cbn [ok_or mbind result_bind]. intros [= <-]. split; [done|].
  apply hybrid_combine_frames.
Qed.

Lemma public_framable b s : length b = HYBRID_CT_LEN -> Forall framable [b; hybrid_to_bytes (hybrid_public s)].
Proof using PO KO.
  intros Hb. repeat constructor.
  - by apply (framable_length _ _ Hb).
  - by apply (framable_length _ _ (hybrid_to_bytes_length _ (hybrid_public_wf s))).
Qed.

(** The hybrid exchange is correct and bound.  With two answers of the entropy
    source, an X25519 agreement that is contributory and an ML-KEM draw that is
    recovered, encapsulation to a public key gives a ciphertext of the fixed
    width from which the owner of the key recovers the same secret; and whoever
    decapsulates anything to that secret did so from that very ciphertext under
    that very public key, unless BLAKE3 gives the inputs of those two
    decapsulations one digest. *)
Theorem hybrid_exchange s e r t :
  mlkem_recovers s (drawn 32 r) -> is_Some (dh_agree (drawn 32 e) (hp_x (hybrid_public s))) ->
  exists ct ss,
    hybrid_encapsulate (hybrid_public s) (Some e :: Some r :: t) = (Ok (ct, ss), t) /\
    ciphertext_from_bytes (hc_bytes ct) = Ok ct /\ hybrid_decapsulate s ct = Ok ss /\
    (forall s' ct', hybrid_decapsulate s' ct' = Ok ss ->
       (ct' = ct /\ hybrid_public s' = hybrid_public s) \/ decapsulations_collide s ct s' ct').
Proof using PO KO.
  intros Hm [x Hx]. set (ek := mlkem_encapsulation_key (hs_pq s)) in *.
  set (c := (mlkem_encapsulate ek (drawn 32 r)).1). set (k := (mlkem_encapsulate ek (drawn 32 r)).2).
  set (b := dh_public (drawn 32 e) ++ c).
  assert (length (dh_public (drawn 32 e)) = 32) as Hp by apply x25519_public_length.
  assert (length c = MLKEM_CT_LEN) as Hc by apply mlkem_ct_length.
  assert (length b = HYBRID_CT_LEN) as Hb by (unfold b; by rewrite length_app, Hp, Hc).
  assert (hybrid_decapsulate s (mkHybridCiphertext b) = Ok (hybrid_combine x k b (hybrid_public s))) as Hdec.
  { unfold hybrid_decapsulate, dh_from_slice, array_from_slice. cbn [hc_bytes]. rewrite decide_False by tauto.
    assert (take 32 b = dh_public (drawn 32 e)) as -> by (by apply take_app_length').
    assert (drop 32 b = c) as -> by (by apply drop_app_length'). rewrite !decide_True by done.
    cbn [mbind result_bind]. rewrite dh_agree_comm. unfold hybrid_public in Hx. cbn [hp_x] in Hx. rewrite Hx. cbn [ok_or].
    by rewrite (Hm : mlkem_decapsulate (hs_pq s) c = k). }
  exists (mkHybridCiphertext b), (hybrid_combine x k b (hybrid_public s)). split_and!.
  - unfold hybrid_encapsulate. erewrite bind_ok by reflexivity. fold (drawn 32 e).
    erewrite bind_ok by (unfold lift; by rewrite Hx). erewrite bind_ok by reflexivity. fold (drawn 32 r).
    cbn [hybrid_public hp_pq]. fold ek. unfold b, c, k. by destruct (mlkem_encapsulate ek (drawn 32 r)).
  - unfold ciphertext_from_bytes. cbn [hc_bytes]. by rewrite decide_False by tauto.
  - exact Hdec.
  - intros s' ct' Hd. pose proof (hybrid_decapsulate_ok _ _ _ Hdec) as [_ Hs]. rewrite Hs in Hd.
    apply hybrid_decapsulate_ok in Hd as [Hb' Hd].
    destruct (decide (combiner_input b (hybrid_public s) = combiner_input (hc_bytes ct') (hybrid_public s'))) as [E|E]; [left|by right].
    destruct ct' as [b']. cbn [hc_bytes] in *. apply combiner_input_inj in E as [<- Hpk]; [|by apply public_framable..].
    split; [done|]. symmetry. apply hybrid_to_bytes_inj; [apply hybrid_public_wf..|done].
Qed.
End properties.

(** ** A concrete instance *)

(** A one-byte key that is added to the drawn bytes. *)
#[export] Instance ToyKem : MlKem := {|
  mlkem_dk := byte;
  mlkem_ek := byte;
  mlkem_from_seed := fun seed => default Byte.x00 (head seed);
  mlkem_encapsulation_key := fun k => k;
  mlkem_encapsulate := fun k m => (resize MLKEM_CT_LEN (byte_xor k <$> m), resize 32 m);
  mlkem_decapsulate := fun k c => byte_xor k <$> take 32 c;
  mlkem_to_bytes := fun k => array_of k MLKEM_PK_LEN;
  mlkem_new := fun b => k ← head b; if decide (b = array_of k MLKEM_PK_LEN) then Some k else None;
|}.

Lemma array_of_cons k n h b : array_of k n = h :: b -> h = k.
Proof. destruct n; [done|]. by intros [= -> _]. Qed.

#[export] Instance ToyKemOk : MlKemOk ToyKem.
Proof.
  split; cbn -[resize array_of MLKEM_CT_LEN MLKEM_PK_LEN mbind].
  - intros. apply resize_length.
  - intros. apply resize_length.
  - intros. apply length_replicate.
  - intros b k Hb. destruct b as [|h b]; [by vm_compute in Hb|]. cbn [head mbind option_bind].
    case_decide as E; split; try done.
    + by intros [= <-].
    + intros H. by rewrite (array_of_cons _ _ _ _ H).
    + intros H. pose proof (array_of_cons _ _ _ _ H) as ->. by destruct E.
Qed.

Definition ex_hybrid : HybridSecret := mkHybridSecret (secret_zero 32) (byte_of 9).

Lemma hybrid_exchange_witness :
  exists ct ss,
    hybrid_encapsulate (P := Toy) (hybrid_public (P := Toy) ex_hybrid) [Some (bstr "ephemeral"); Some (bstr "message")] =
      (Ok (ct, ss), []) /\ hybrid_decapsulate (P := Toy) ex_hybrid ct = Ok ss.
Proof.
  destruct (hybrid_exchange (P := Toy) (K := ToyKem) ex_hybrid (bstr "ephemeral") (bstr "message") [])
    as (ct & ss & H1 & _ & H2 & _).
  - vm_compute. reflexivity.
  - vm_compute. eexists. reflexivity.
  - exists ct, ss. split; [exact H1|exact H2].
Defined.
