(* ===== verification/Codec.v ===== *)
(** * Canonical TLV codec ([crates/cfr-core/src/codec.rs], [error.rs])

    [Writer] and [Reader] operation by operation.  A reader is its buffer and
    its position.  [Lawful V img rd] is the contract the rest of the wire layer
    is built on: the reader [rd] accepts exactly the images [img a] of the
    valid values [V a], consumes the image and nothing else, and returns [a].
    [run_reader_ok] turns it into the statement the protocol needs: a byte
    string is accepted if and only if it is the image of the value returned. *)

From Stdlib Require Import NArith Lia.
From S2P Require Import Prelude Crypto.

(** ** Errors of the core crate *)

Inductive Error :=
| Encoding (m : string)
| BadSignature
| NotAMember
| Unauthorised (m : string)
| Buffered
| MissingNodeKeys
| NoPrekey
| Decrypt
| Equivocation
| NotParticipating
| LimitExceeded (m : string)
| CryptoE (e : CryptoError)
| Internal (m : string).

#[export] Instance Error_eq_dec : EqDecision Error.
Proof. solve_decision. Defined.

(** ** Tags and ceilings *)

Definition T_BYTES : byte := byte_of 1.
Definition T_U64 : byte := byte_of 2.
Definition T_STR : byte := byte_of 3.
Definition T_LIST : byte := byte_of 4.
Definition T_SET : byte := byte_of 5.

Definition MAX_FIELD : N := 4194304.
Definition MAX_ITEMS : N := 65536.

(** ** Writer *)

Record Writer := mkWriter { w_buf : bytes }.

Notation "w |> f" := (f w) (at level 50, left associativity, only parsing) : cfr_scope.

Definition writer_new : Writer := mkWriter [].
Definition writer_finish (w : Writer) : bytes := w_buf w.

Definition writer_bytes (v : bytes) (w : Writer) : Writer :=
  mkWriter (w_buf w ++ [T_BYTES] ++ u32_to_be_bytes (lenN v) ++ v).

Definition writer_u64 (v : N) (w : Writer) : Writer :=
  mkWriter (w_buf w ++ [T_U64] ++ u64_to_be_bytes v).

Definition writer_u32 (v : N) (w : Writer) : Writer := writer_u64 v w.

Definition writer_str (v : bytes) (w : Writer) : Writer :=
  mkWriter (w_buf w ++ [T_STR] ++ u32_to_be_bytes (lenN v) ++ v).

Definition writer_list {A} (items : list A) (f : A -> Writer -> Writer) (w : Writer) : Writer :=
  foldl (fun w it => f it w)
    (mkWriter (w_buf w ++ [T_LIST] ++ u32_to_be_bytes (lenN items))) items.

Definition writer_set {A} (items : list A) (f : A -> Writer -> Writer) (w : Writer) : Writer :=
  let images := (fun it => writer_finish (f it writer_new)) <$> items in
  let images := dedup (bytes_sort images) in
  foldl (fun w i => mkWriter (w_buf w ++ i))
    (mkWriter (w_buf w ++ [T_SET] ++ u32_to_be_bytes (lenN images))) images.

(** ** Reader *)

Record Reader := mkReader { r_buf : bytes; r_pos : N }.

Abbreviation Rd := (M Reader Error).

Definition reader_new (buf : bytes) : Reader := mkReader buf 0.

Definition reader_finish : Rd unit := fun r =>
  if (r_pos r =? lenN (r_buf r))%N then (Ok tt, r)
  else (Err (Encoding "trailing bytes"), r).

Definition reader_remaining (r : Reader) : N := (lenN (r_buf r) - r_pos r)%N.

Definition reader_take (n : N) : Rd bytes := fun r =>
  if (reader_remaining r <? n)%N then (Err (Encoding "truncated"), r)
  else (Ok (slice (r_buf r) (r_pos r) (r_pos r + n)), mkReader (r_buf r) (r_pos r + n)).

Definition reader_tag (want : byte) : Rd unit :=
  s ← reader_take 1;
  if decide (head s = Some want) then mret tt
  else fail (Encoding "unexpected type tag").

Definition reader_len32 (limit : N) : Rd N :=
  raw ← reader_take 4;
  let n := be_val raw in
  if (limit <? n)%N then fail (Encoding "length exceeds limit") else mret n.

Definition reader_bytes : Rd bytes :=
  _ ← reader_tag T_BYTES;
  n ← reader_len32 MAX_FIELD;
  reader_take n.

Definition reader_array (n : nat) : Rd bytes :=
  b ← reader_bytes;
  if decide (length b = n) then mret b else fail (Encoding "wrong field width").

Definition reader_u64 : Rd N :=
  _ ← reader_tag T_U64;
  raw ← reader_take 8;
  mret (be_val raw).

Definition reader_u32 : Rd N :=
  v ← reader_u64;
  if (v <? two32)%N then mret v else fail (Encoding "integer out of range").

(** [core::str::from_utf8]: well-formed UTF-8 byte sequences. *)
Definition in_range (lo hi : N) (b : byte) : bool :=
  (lo <=? Byte.to_N b)%N && (Byte.to_N b <=? hi)%N.
Definition utf8_cont (b : byte) : bool := in_range 128 191 b.

Fixpoint utf8_valid (fuel : nat) (s : bytes) : bool :=
  match fuel with
  | O => false
  | S fuel =>
    match s with
    | [] => true
    | a :: s1 =>
      if in_range 0 127 a then utf8_valid fuel s1
      else match s1 with
      | b :: s2 =>
        if in_range 194 223 a && utf8_cont b then utf8_valid fuel s2
        else match s2 with
        | c :: s3 =>
          if ((in_range 224 224 a && in_range 160 191 b)
              || (in_range 225 236 a && utf8_cont b)
              || (in_range 237 237 a && in_range 128 159 b)
              || (in_range 238 239 a && utf8_cont b)) && utf8_cont c
          then utf8_valid fuel s3
          else match s3 with
          | d :: s4 =>
            if ((in_range 240 240 a && in_range 144 191 b)
                || (in_range 241 243 a && utf8_cont b)
                || (in_range 244 244 a && in_range 128 143 b))
               && utf8_cont c && utf8_cont d
            then utf8_valid fuel s4 else false
          | [] => false
          end
        | [] => false
        end
      | [] => false
      end
    end
  end.
Definition from_utf8 (s : bytes) : bool := utf8_valid (S (length s)) s.

Definition reader_str : Rd bytes :=
  _ ← reader_tag T_STR;
  n ← reader_len32 MAX_FIELD;
  s ← reader_take n;
  if from_utf8 s then mret s else fail (Encoding "invalid utf-8").

Fixpoint reader_items {A} (f : Rd A) (n : nat) : Rd (list A) :=
  match n with
  | O => mret []
  | S n => x ← f; xs ← reader_items f n; mret (x :: xs)
  end.

Definition reader_list {A} (f : Rd A) : Rd (list A) :=
  _ ← reader_tag T_LIST;
  n ← reader_len32 MAX_ITEMS;
  reader_items f (N.to_nat n).

Fixpoint reader_set_items {A} (f : Rd A) (n : nat) (prev : option bytes) : Rd (list A) :=
  match n with
  | O => mret []
  | S n =>
      start ← gets r_pos;
      item ← f;
      image ← gets (fun r => slice (r_buf r) start (r_pos r));
      if (match prev with Some p => bool_decide (bytes_le image p) | None => false end)
      then fail (Encoding "set not in canonical order")
      else
        out ← reader_set_items f n (Some image);
        mret (item :: out)
  end.

Definition reader_set {A} (f : Rd A) : Rd (list A) :=
  _ ← reader_tag T_SET;
  n ← reader_len32 MAX_ITEMS;
  reader_set_items f (N.to_nat n) None.

(** Reads one value and requires that nothing is left, as every [from_wire]
    does. *)
Definition run_reader {A} (f : Rd A) (buf : bytes) : result Error A :=
  fst ((a ← f; _ ← reader_finish; mret a) (reader_new buf)).

(** ** The codec contract *)

(** A reader that has consumed [pre] and has [rest] in front of it. *)
Definition rd_at (pre rest : bytes) : Reader := mkReader (pre ++ rest) (lenN pre).

Class Lawful {E A} (V : A -> Prop) (img : A -> bytes) (rd : M Reader E A) : Prop := {
  rd_complete a pre post :
    V a -> rd (rd_at pre (img a ++ post)) = (Ok a, rd_at (pre ++ img a) post);
  rd_sound pre rest a r' :
    rd (rd_at pre rest) = (Ok a, r') ->
    V a /\ exists post, rest = img a ++ post /\ r' = rd_at (pre ++ img a) post;
}.

Definition bytes_image (v : bytes) : bytes := [T_BYTES] ++ u32_to_be_bytes (lenN v) ++ v.
Definition u64_image (v : N) : bytes := [T_U64] ++ u64_to_be_bytes v.
Definition str_image (v : bytes) : bytes := [T_STR] ++ u32_to_be_bytes (lenN v) ++ v.
Definition list_image {A} (img : A -> bytes) (l : list A) : bytes :=
  [T_LIST] ++ u32_to_be_bytes (lenN l) ++ concat (img <$> l).
Definition set_image {A} (img : A -> bytes) (l : list A) : bytes :=
  let images := dedup (bytes_sort (img <$> l)) in
  [T_SET] ++ u32_to_be_bytes (lenN images) ++ concat images.

Definition list_valid {A} (V : A -> Prop) (l : list A) : Prop :=
  Forall V l /\ (lenN l <= MAX_ITEMS)%N.
(** A list that a set reader returns: strictly ascending in image order. *)
Definition set_valid {A} (V : A -> Prop) (img : A -> bytes) (l : list A) : Prop :=
  Forall V l /\ (lenN l <= MAX_ITEMS)%N /\ StronglySorted bytes_lt (img <$> l).

Definition bytes_valid (b : bytes) : Prop := (lenN b <= MAX_FIELD)%N.
Definition array_valid (n : nat) (b : bytes) : Prop := length b = n /\ bytes_valid b.
Definition u64_valid (v : N) : Prop := (v < two64)%N.
Definition u32_valid (v : N) : Prop := (v < two32)%N.
Definition str_valid (b : bytes) : Prop := bytes_valid b /\ from_utf8 b = true.

(** ** Writers append images *)

Create Rewrite HintDb cfr_writer.

Lemma w_buf_bytes v w : w_buf (writer_bytes v w) = w_buf w ++ bytes_image v.
Proof. done. Qed.
Lemma w_buf_u64 v w : w_buf (writer_u64 v w) = w_buf w ++ u64_image v.
Proof. done. Qed.
Lemma w_buf_u32 v w : w_buf (writer_u32 v w) = w_buf w ++ u64_image v.
Proof. done. Qed.
Lemma w_buf_str v w : w_buf (writer_str v w) = w_buf w ++ str_image v.
Proof. done. Qed.

Lemma foldl_writer {A} (f : A -> Writer -> Writer) img (items : list A) w :
  (forall a w, w_buf (f a w) = w_buf w ++ img a) ->
  w_buf (foldl (fun w it => f it w) w items) = w_buf w ++ concat (img <$> items).
Proof.
  intros Hf. revert w. induction items as [|a items IH]; intros w; simpl.
  - by rewrite app_nil_r.
  - by rewrite IH, Hf, <- app_assoc.
Qed.

Lemma w_buf_list {A} (f : A -> Writer -> Writer) img (items : list A) w :
  (forall a w, w_buf (f a w) = w_buf w ++ img a) ->
  w_buf (writer_list items f w) = w_buf w ++ list_image img items.
Proof.
  intros Hf. unfold writer_list. rewrite (foldl_writer f img) by done. simpl.
  unfold list_image. by rewrite <- !app_assoc.
Qed.

Lemma w_buf_set {A} (f : A -> Writer -> Writer) img (items : list A) w :
  (forall a w, w_buf (f a w) = w_buf w ++ img a) ->
  w_buf (writer_set items f w) = w_buf w ++ set_image img items.
Proof.
  intros Hf. unfold writer_set.
  assert ((fun it => writer_finish (f it writer_new)) <$> items = img <$> items) as ->.
  { apply list_fmap_ext. intros i a _. unfold writer_finish. by rewrite Hf. }
  rewrite (foldl_writer (fun i w => mkWriter (w_buf w ++ i)) (fun i => i)) by done.
  simpl. unfold set_image. rewrite list_fmap_id. by rewrite <- !app_assoc.
Qed.

#[export] Hint Rewrite w_buf_bytes w_buf_u64 w_buf_u32 w_buf_str : cfr_writer.

(** ** The primitive readers are lawful *)

Lemma rd_at_remaining pre rest : reader_remaining (rd_at pre rest) = lenN rest.
Proof. unfold reader_remaining, rd_at. simpl. rewrite lenN_app. lia. Qed.

#[export] Instance reader_take_lawful n :
  Lawful (fun b => lenN b = n) (fun b => b) (reader_take n).
Proof.
  split.
  - intros b pre post <-. unfold reader_take. rewrite rd_at_remaining, lenN_app.
    destruct (N.ltb_spec (lenN b + lenN post) (lenN b)); [lia|]. unfold rd_at. simpl.
    rewrite <- !lenN_app, slice_app. by rewrite <- app_assoc.
  - intros pre rest b r'. unfold reader_take. rewrite rd_at_remaining.
    destruct (N.ltb_spec (lenN rest) n) as [|Hn]; [done|]. unfold rd_at. simpl.
    intros [= <- <-].
    rewrite <- (take_drop (N.to_nat n) rest).
    set (b := take (N.to_nat n) rest). set (p := drop (N.to_nat n) rest).
    assert (lenN b = n) as Hb by (subst b; len_lia).
    rewrite (slice_app_r pre b p n) by done. split; [done|].
    exists p. split; [done|]. by rewrite lenN_app, Hb, <- app_assoc.
Qed.

(** Steps a sequence forward over an image in front of the reader. *)
Tactic Notation "rd_step" "by" tactic3(tac) :=
  lazymatch goal with
  | |- (?m ≫= _) (rd_at _ _) = _ =>
      let Hc := fresh in pose proof (rd_complete (rd := m)) as Hc;
      erewrite (bind_ok m) by (eapply Hc; tac); clear Hc
  | |- ?m (rd_at _ _) = _ =>
      let Hc := fresh in pose proof (rd_complete (rd := m)) as Hc;
      erewrite Hc by tac; clear Hc
  end.
Ltac rd_tag :=
  lazymatch goal with
  | |- (reader_tag ?t ≫= _) (rd_at ?pre _) = _ =>
      let Hc := fresh in pose proof (rd_complete (rd := reader_tag t) tt) as Hc;
      erewrite (bind_ok (reader_tag t)) by (apply Hc; exact I); clear Hc
  end.
Tactic Notation "rd_step" := rd_step by (eauto with cfr).

(** Splits a successful sequence into the images its steps consumed. *)
Ltac rd_inv_step H :=
  lazymatch type of H with
  | ?m _ = (Ok _, _) =>
      let Hc := fresh in pose proof (rd_sound (rd := m)) as Hc; apply Hc in H; clear Hc;
      let HV := fresh "HV" in let p := fresh "post" in
      destruct H as (HV & p & -> & ->)
  end.
Ltac rd_inv H :=
  let a := fresh "a" in let s1 := fresh "s" in let Hm := fresh "Hm" in
  apply bind_ok_inv in H as (a & s1 & Hm & H);
  rd_inv_step Hm.

#[export] Instance reader_tag_lawful want :
  Lawful (fun _ : unit => True) (fun _ => [want]) (reader_tag want).
Proof.
  split.
  - intros [] pre post _. unfold reader_tag.
    rd_step by (done). by rewrite decide_True.
  - intros pre rest [] r' H. unfold reader_tag in H. rd_inv H.
    destruct a as [|b [|? a]]; [done| |exfalso; len_lia]. case_decide as Hd; [|done].
    simplify_eq/=. injection H as <-. split; [done|]. by eexists.
Qed.

#[export] Instance reader_len32_lawful limit :
  Lawful (fun n => (n <= limit)%N /\ u32_valid n) u32_to_be_bytes (reader_len32 limit).
Proof.
  split.
  - intros n pre post [Hl Hn]. unfold reader_len32.
    rd_step by (unfold lenN; by rewrite u32_be_length).
    rewrite u32_be_val by done. destruct (N.ltb_spec limit n); [lia|done].
  - intros pre rest n r' H. unfold reader_len32 in H. rd_inv H. cbn zeta in H.
    destruct (N.ltb_spec limit (be_val a)); [done|]. injection H as <- <-.
    pose proof (be_val_bound a) as Hb. rewrite HV in Hb.
    assert (u32_to_be_bytes (be_val a) = a) as ->.
    { pose proof (be_bytes_be_val a) as Ha. replace (length a) with 4 in Ha by len_lia. done. }
    split; [split; done|]. by eexists.
Qed.

#[export] Instance reader_bytes_lawful : Lawful bytes_valid bytes_image reader_bytes.
Proof.
  split.
  - intros v pre post Hv. unfold reader_bytes, bytes_image, bytes_valid in *.
    rewrite <- !app_assoc.
    rd_tag.
    rd_step by (split; [done|]; unfold u32_valid, MAX_FIELD, two32 in *; lia).
    rd_step. by rewrite !app_assoc.
  - intros pre rest v r' H. unfold reader_bytes in H. do 2 rd_inv H.
    rd_inv_step H. subst a0.
    split; [apply HV0|]. exists post. unfold bytes_image. by rewrite <- !app_assoc.
Qed.

#[export] Instance reader_array_lawful n :
  Lawful (array_valid n) bytes_image (reader_array n).
Proof.
  split.
  - intros v pre post [Hn Hv]. unfold reader_array.
    rd_step. by rewrite decide_True.
  - intros pre rest v r' H. unfold reader_array in H. rd_inv H.
    case_decide as Hd; [|done]. injection H as <- <-. split; [by split|]. by eexists.
Qed.

#[export] Instance reader_u64_lawful : Lawful u64_valid u64_image reader_u64.
Proof.
  split.
  - intros v pre post Hv. unfold reader_u64, u64_image. rewrite <- !app_assoc.
    rd_tag.
    rd_step by (unfold lenN; by rewrite u64_be_length).
    rewrite u64_be_val by done. by rewrite !app_assoc.
  - intros pre rest v r' H. unfold reader_u64 in H. do 2 rd_inv H. injection H as <- <-.
    pose proof (be_val_bound a0) as Hb. rewrite HV0 in Hb. split; [done|].
    unfold u64_image.
    assert (u64_to_be_bytes (be_val a0) = a0) as ->.
    { pose proof (be_bytes_be_val a0) as Ha. replace (length a0) with 8 in Ha by len_lia. done. }
    eexists. by rewrite <- !app_assoc.
Qed.

#[export] Instance reader_u32_lawful : Lawful u32_valid u64_image reader_u32.
Proof.
  split.
  - intros v pre post Hv. unfold reader_u32.
    rd_step by (unfold u32_valid, u64_valid, two32, two64 in *; lia).
    destruct (N.ltb_spec v two32); [done|]. unfold u32_valid in *. lia.
  - intros pre rest v r' H. unfold reader_u32 in H. rd_inv H.
    destruct (N.ltb_spec a two32); [|done]. injection H as <- <-. split; [done|]. by eexists.
Qed.

#[export] Instance reader_str_lawful : Lawful str_valid str_image reader_str.
Proof.
  split.
  - intros v pre post [Hv Hu]. unfold reader_str, str_image, bytes_valid in *.
    rewrite <- !app_assoc.
    rd_tag.
    rd_step by (split; [done|]; unfold u32_valid, MAX_FIELD, two32 in *; lia).
    rd_step. rewrite Hu. by rewrite !app_assoc.
  - intros pre rest v r' H. unfold reader_str in H. do 3 rd_inv H.
    destruct (from_utf8 a1) eqn:Hu; [|done]. injection H as <- <-. subst a0.
    split; [split; [apply HV0|done]|]. eexists. unfold str_image. by rewrite <- !app_assoc.
Qed.

(** ** Lists and sets of lawful values *)

Section collections.
Context {A : Type} {V : A -> Prop} {img : A -> bytes} {f : Rd A} {L : Lawful V img f}.
Implicit Types (l : list A) (pre post rest : bytes).

Lemma reader_items_complete l pre post :
  Forall V l ->
  reader_items f (length l) (rd_at pre (concat (img <$> l) ++ post))
  = (Ok l, rd_at (pre ++ concat (img <$> l)) post).
Proof.
  intros H. revert pre. induction H as [|a l Ha Hl IH]; intros pre; simpl.
  - by rewrite app_nil_r.
  - rewrite <- !app_assoc. rd_step. erewrite bind_ok by apply IH.
    by rewrite <- !app_assoc.
Qed.

Lemma reader_items_sound n pre rest l r' :
  reader_items f n (rd_at pre rest) = (Ok l, r') ->
  length l = n /\ Forall V l /\
  exists post, rest = concat (img <$> l) ++ post /\ r' = rd_at (pre ++ concat (img <$> l)) post.
Proof.
  revert pre rest l r'. induction n as [|n IH]; intros pre rest l r' H; simpl in H.
  - injection H as <- <-. split_and!; [done|done|]. exists rest. by rewrite app_nil_r.
  - rd_inv H. inv_bind H. apply IH in Hm as (Hlen & HF & post' & -> & ->).
    injection H as <- <-. split_and!; [simpl; lia|by constructor|].
    exists post'. simpl. by rewrite <- !app_assoc.
Qed.

#[export] Instance reader_list_lawful :
  Lawful (list_valid V) (list_image img) (reader_list f).
Proof.
  split.
  - intros l pre post [HV Hl]. unfold reader_list, list_image. rewrite <- !app_assoc.
    rd_tag. rd_step by (split; [done|]; unfold u32_valid, MAX_ITEMS, two32 in *; lia).
    rewrite lenN_to_nat, reader_items_complete by done. by rewrite !app_assoc.
  - intros pre rest l r' H. unfold reader_list in H. do 2 rd_inv H.
    apply reader_items_sound in H as (Hn & HF & post' & -> & ->).
    assert (a0 = lenN l) as -> by (unfold lenN; lia). split; [split; [done|apply HV0]|].
    exists post'. unfold list_image. by rewrite <- !app_assoc.
Qed.

(** Images still to come are above the previous one. *)
Definition above (prev : option bytes) (images : list bytes) : Prop :=
  match prev with
  | None => StronglySorted bytes_lt images
  | Some p => StronglySorted bytes_lt (p :: images)
  end.

Lemma above_cons prev i images :
  above prev (i :: images) <->
  match prev with Some p => ~ bytes_le i p | None => True end /\ above (Some i) images.
Proof.
  unfold above. destruct prev as [p|]; [|naive_solver].
  rewrite bytes_not_le. rewrite StronglySorted_cons. split.
  - intros [HF HS]. split; [|done]. by apply Forall_cons in HF as [? _].
  - intros [Hpi HS]. split; [|done]. constructor; [done|].
    apply StronglySorted_cons in HS as [HF _].
    eapply Forall_impl; [done|]. intros x Hx. simpl in Hx. by eapply bytes_lt_trans.
Qed.

Lemma slice_consumed pre i post :
  slice ((pre ++ i) ++ post) (lenN pre) (lenN (pre ++ i)) = i.
Proof. rewrite <- app_assoc. apply slice_app. Qed.

Lemma reader_set_items_complete l prev pre post :
  Forall V l -> above prev (img <$> l) ->
  reader_set_items f (length l) prev (rd_at pre (concat (img <$> l) ++ post))
  = (Ok l, rd_at (pre ++ concat (img <$> l)) post).
Proof.
  intros H. revert prev pre. induction H as [|a l Ha Hl IH]; intros prev pre Hs.
  - simpl. by rewrite app_nil_r.
  - rewrite fmap_cons in *. apply above_cons in Hs as [Hp Hs].
    cbn [length reader_set_items concat]. rewrite <- !app_assoc.
    erewrite bind_ok by done. rd_step. erewrite bind_ok by done.
    cbn [r_buf r_pos rd_at]. rewrite slice_consumed.
    assert (match prev with Some p => bool_decide (bytes_le (img a) p) | None => false end
            = false) as ->.
    { destruct prev; [|done]. by apply bool_decide_false. }
    erewrite bind_ok by (by apply IH). by rewrite !app_assoc.
Qed.

Lemma reader_set_items_sound n prev pre rest l r' :
  reader_set_items f n prev (rd_at pre rest) = (Ok l, r') ->
  length l = n /\ Forall V l /\ (prev <> None \/ n <> 0 -> above prev (img <$> l)) /\
  exists post, rest = concat (img <$> l) ++ post /\ r' = rd_at (pre ++ concat (img <$> l)) post.
Proof.
  revert prev pre rest l r'.
  induction n as [|n IH]; intros prev pre rest l r' H; cbn [reader_set_items] in H.
  - injection H as <- <-. split_and!; [done|done| |].
    + intros [Hp|]; [|done]. destruct prev; [|done]. repeat constructor.
    + exists rest. by rewrite app_nil_r.
  - inv_bind H. injection Hm as <- <-. rd_inv H. inv_bind H. injection Hm as <- <-.
    cbn [r_buf r_pos rd_at] in H. rewrite slice_consumed in H.
    destruct (match prev with Some p => bool_decide (bytes_le (img a) p) | None => false end)
      eqn:Ep; [done|].
    inv_bind H. apply IH in Hm as (Hlen & HF & Hab & post' & -> & ->).
    injection H as <- <-. split_and!; [simpl; lia|by constructor| |].
    + intros _. rewrite fmap_cons. apply above_cons. split; [|apply Hab; by left].
      destruct prev; [|done]. by apply bool_decide_eq_false in Ep.
    + exists post'. simpl. by rewrite <- !app_assoc.
Qed.

Lemma set_image_sorted l :
  StronglySorted bytes_lt (img <$> l) ->
  set_image img l = [T_SET] ++ u32_to_be_bytes (lenN l) ++ concat (img <$> l).
Proof.
  intros H. unfold set_image. rewrite bytes_sort_id, dedup_id by auto using sorted_lt_le.
  unfold lenN. by rewrite length_fmap.
Qed.

#[export] Instance reader_set_lawful :
  Lawful (set_valid V img) (set_image img) (reader_set f).
Proof.
  split.
  - intros l pre post (HV & Hl & Hs). unfold reader_set.
    rewrite set_image_sorted by done. rewrite <- !app_assoc.
    rd_tag. rd_step by (split; [done|]; unfold u32_valid, MAX_ITEMS, two32 in *; lia).
    rewrite lenN_to_nat, reader_set_items_complete by done. by rewrite !app_assoc.
  - intros pre rest l r' H. unfold reader_set in H. do 2 rd_inv H.
    apply reader_set_items_sound in H as (Hn & HF & Hab & post' & -> & ->).
    assert (a0 = lenN l) as -> by (unfold lenN; lia).
    assert (StronglySorted bytes_lt (img <$> l)) as Hs.
    { destruct l as [|x l]; [constructor|]. apply Hab. right. by rewrite lenN_to_nat. }
    split; [split_and!; [done|apply HV0|done]|].
    exists post'. rewrite set_image_sorted by done. by rewrite <- !app_assoc.
Qed.
End collections.

(** ** Acceptance is exactly being an image *)

Lemma run_reader_done {A} (f : Rd A) b a :
  f (rd_at [] (b ++ [])) = (Ok a, rd_at b []) -> run_reader f b = Ok a.
Proof.
  unfold run_reader. change (reader_new b) with (rd_at [] b). rewrite app_nil_r. intros H.
  erewrite bind_ok by done. unfold reader_finish, rd_at, mbind, M_bind. simpl.
  by rewrite app_nil_r, N.eqb_refl.
Qed.

(** What a successful run leaves behind is the end of its input. *)
Lemma run_reader_inv {A} (f : Rd A) b a :
  run_reader f b = Ok a ->
  exists r', f (rd_at [] b) = (Ok a, r') /\ r_pos r' = lenN (r_buf r').
Proof.
  unfold run_reader. change (reader_new b) with (rd_at [] b). intros H.
  destruct ((f ≫= _) (rd_at [] b)) as [r s] eqn:E. simpl in H. subst r.
  inv_bind E. inv_bind E. injection E as <- <-. eexists. split; [done|].
  unfold reader_finish in Hm0. by destruct (N.eqb_spec (r_pos s0) (lenN (r_buf s0))).
Qed.

Lemma rd_at_end pre post : r_pos (rd_at pre post) = lenN (r_buf (rd_at pre post)) -> post = [].
Proof.
  simpl. rewrite lenN_app. intros H. apply length_zero_iff_nil. unfold lenN in *. lia.
Qed.

Section run.
Context {A : Type} {V : A -> Prop} {img : A -> bytes} {f : Rd A} {L : Lawful V img f}.

Lemma run_reader_ok buf a : run_reader f buf = Ok a <-> V a /\ buf = img a.
Proof.
  split.
  - intros (r' & H & He)%run_reader_inv. rd_inv_step H. split; [done|].
    apply rd_at_end in He as ->. by rewrite app_nil_r.
  - intros [HV ->]. apply run_reader_done. exact (rd_complete a [] [] HV).
Qed.

Lemma lawful_inj a b : V a -> V b -> img a = img b -> a = b.
Proof.
  intros Ha Hb H. assert (run_reader f (img a) = Ok b) as H1.
  { apply run_reader_ok. by split. }
  assert (run_reader f (img a) = Ok a) as H2 by (by apply run_reader_ok).
  congruence.
Qed.

(** No image is a proper prefix of another. *)
Lemma lawful_prefix_free a b post :
  V a -> V b -> img a = img b ++ post -> a = b /\ post = [].
Proof.
  intros Ha Hb H.
  assert (f (rd_at [] (img b ++ post)) = (Ok b, rd_at ([] ++ img b) post)) as H1
    by (by apply rd_complete).
  assert (f (rd_at [] (img a ++ [])) = (Ok a, rd_at ([] ++ img a) [])) as H2
    by (by apply rd_complete).
  rewrite app_nil_r, H, H1 in H2. injection H2 as -> H2. split; [done|].
  apply (f_equal length) in H. rewrite length_app in H.
  apply length_zero_iff_nil. lia.
Qed.
End run.

(** ** What the codec promises *)

(** The image of a set does not depend on the order or multiplicity of the
    items the caller passes. *)
Lemma set_image_ext {A} (img : A -> bytes) l k :
  (forall i, i ∈ (img <$> l) <-> i ∈ (img <$> k)) -> set_image img l = set_image img k.
Proof.
  intros H. unfold set_image.
  assert (dedup (bytes_sort (img <$> l)) = dedup (bytes_sort (img <$> k))) as ->; [|done].
  apply sorted_lt_unique; try apply dedup_sorted, bytes_sort_sorted.
  intros i. rewrite !elem_of_dedup, !bytes_sort_perm. apply H.
Qed.

(** Identifiers of one width sort like their images. *)
Lemma bytes_image_lt n a b :
  length a = n -> length b = n -> bytes_lt (bytes_image a) (bytes_image b) <-> bytes_lt a b.
Proof.
  intros Ha Hb. unfold bytes_image, lenN. rewrite Ha, Hb.
  by rewrite (bytes_lt_prefix [T_BYTES]), bytes_lt_prefix.
Qed.

Lemma bytes_images_sorted n l :
  Forall (fun a => length a = n) l ->
  StronglySorted bytes_lt (bytes_image <$> l) <-> StronglySorted bytes_lt l.
Proof.
  induction 1 as [|a l Ha Hl IH]; [done|]. rewrite fmap_cons, !StronglySorted_cons, IH.
  rewrite Forall_fmap. rewrite !Forall_forall in *.
  split; intros [H1 H2]; (split; [|done]); intros x Hx.
  - apply (bytes_image_lt n); auto. by apply H1.
  - apply (bytes_image_lt n); auto.
Qed.

#[export] Hint Resolve I : cfr.
