(* ===== verification/Ops.v ===== *)
(** * Signed operations ([crates/cfr-core/src/op.rs])

    Kinds, payloads, operations, their canonical encoding and their signed
    image.  [op_read_lawful] is the codec contract for operations; it gives the
    round trip, canonicity and, with [hash], the binding of identifiers. *)

From Stdlib Require Import NArith Lia.
From S2P Require Import Prelude Crypto Toy Codec.

Abbreviation Oid := (list Byte.byte).
Abbreviation Cid := (list Byte.byte).
Abbreviation SessionId := (list Byte.byte).
Abbreviation SigPublic := (list Byte.byte).
Abbreviation DhPublic := (list Byte.byte).

Definition MAX_RECIPIENTS : N := 256.
Definition MAX_DEPS : N := 256.

Inductive Kind := KAdd | KRemove | KPrekeys | KContrib | KAccuse | KPrekeyRequest.

#[export] Instance Kind_eq_dec : EqDecision Kind.
Proof. solve_decision. Defined.

(** [kind as u32] *)
Definition kind_code (k : Kind) : N :=
  match k with
  | KAdd => 1 | KRemove => 2 | KPrekeys => 3
  | KContrib => 4 | KAccuse => 5 | KPrekeyRequest => 6
  end.

Definition kind_from_u32 (v : N) : result Error Kind :=
  match v with
  | 1%N => Ok KAdd
  | 2%N => Ok KRemove
  | 3%N => Ok KPrekeys
  | 4%N => Ok KContrib
  | 5%N => Ok KAccuse
  | 6%N => Ok KPrekeyRequest
  | _ => Err (Encoding "unknown operation kind")
  end.

Record Slice := mkSlice {
  sl_to : SigPublic;
  sl_establish : option (N * DhPublic);
  sl_seq : N;
  sl_ct : bytes;
}.

#[export] Instance Slice_eq_dec : EqDecision Slice.
Proof. solve_decision. Defined.

Definition slice_encode (s : Slice) (w : Writer) : Writer :=
  let w := w |> writer_bytes (sl_to s) in
  let w := match sl_establish s with
           | Some (gen, eph) => w |> writer_u32 1 |> writer_u32 gen |> writer_bytes eph
           | None => w |> writer_u32 0
           end in
  w |> writer_u64 (sl_seq s) |> writer_bytes (sl_ct s).

Definition slice_decode : Rd Slice :=
  to ← reader_array 32;
  d ← reader_u32;
  establish ← (match d with
               | 0%N => mret None
               | 1%N => gen ← reader_u32; eph ← reader_array 32; mret (Some (gen, eph))
               | _ => fail (Encoding "invalid slice discriminant")
               end);
  seq ← reader_u64;
  ct ← reader_bytes;
  mret (mkSlice to establish seq ct).

Inductive Body :=
| Add (who : SigPublic)
| Remove (who : SigPublic)
| Prekeys (gen : N) (pk : DhPublic)
| Contrib (cid : Cid) (cparents : gset Oid) (recips : list SigPublic)
    (slices : list Slice) (view : bytes)
| Accuse (who : SigPublic) (coid : Oid) (mk : bytes) (seq : N)
| PrekeyRequest (targets : list SigPublic).

#[export] Instance Body_eq_dec : EqDecision Body.
Proof. solve_decision. Defined.

Definition body_kind (b : Body) : Kind :=
  match b with
  | Add _ => KAdd
  | Remove _ => KRemove
  | Prekeys _ _ => KPrekeys
  | Contrib _ _ _ _ _ => KContrib
  | Accuse _ _ _ _ => KAccuse
  | PrekeyRequest _ => KPrekeyRequest
  end.

Definition body_encode (b : Body) (w : Writer) : Writer :=
  match b with
  | Add who | Remove who => w |> writer_bytes who
  | Prekeys gen pk => w |> writer_u32 gen |> writer_bytes pk
  | Contrib cid cparents recips slices view =>
      w |> writer_bytes cid
        |> writer_set (bt_elems cparents) writer_bytes
        |> writer_list recips writer_bytes
        |> writer_list slices slice_encode
        |> writer_bytes view
  | Accuse who coid mk seq =>
      w |> writer_bytes who |> writer_bytes coid |> writer_bytes mk |> writer_u64 seq
  | PrekeyRequest targets => w |> writer_list targets writer_bytes
  end.

Definition body_decode (k : Kind) : Rd Body :=
  match k with
  | KAdd => who ← reader_array 32; mret (Add who)
  | KRemove => who ← reader_array 32; mret (Remove who)
  | KPrekeys => gen ← reader_u32; pk ← reader_array 32; mret (Prekeys gen pk)
  | KContrib =>
      cid ← reader_array 32;
      parents ← reader_set (reader_array 32);
      if (MAX_DEPS <? lenN parents)%N then fail (Encoding "too many contribution parents") else
      recips ← reader_list (reader_array 32);
      if (MAX_RECIPIENTS <? lenN recips)%N then fail (Encoding "too many recipients") else
      slices ← reader_list slice_decode;
      if (MAX_RECIPIENTS <? lenN slices)%N then fail (Encoding "too many slices") else
      view ← reader_array 32;
      mret (Contrib cid (list_to_set parents) recips slices view)
  | KAccuse =>
      who ← reader_array 32;
      coid ← reader_array 32;
      mk ← reader_array 32;
      seq ← reader_u64;
      mret (Accuse who coid mk seq)
  | KPrekeyRequest =>
      targets ← reader_list (reader_array 32);
      if (MAX_RECIPIENTS <? lenN targets)%N then fail (Encoding "too many targets")
      else mret (PrekeyRequest targets)
  end.

(** An operation with its cached image and identifier. *)
Record Op := mkOp {
  op_sid : SessionId;
  op_author : SigPublic;
  op_deps : gset Oid;
  op_body : Body;
  op_sig : bytes;
  op_image : bytes;
  op_oid : Oid;
}.

#[export] Instance Op_eq_dec : EqDecision Op.
Proof. solve_decision. Defined.

(** [PartialEq for Op]: the caches are not compared. *)
Definition op_eqb (a b : Op) : bool :=
  bool_decide (op_sid a = op_sid b) && bool_decide (op_author a = op_author b)
  && bool_decide (op_deps a = op_deps b) && bool_decide (op_body a = op_body b)
  && bool_decide (op_sig a = op_sig b).

Definition op_kind (o : Op) : Kind := body_kind (op_body o).

Section ops.
Context {P : Primitives}.

Definition signed_image (sid : SessionId) (author : SigPublic) (deps : gset Oid)
    (body : Body) : bytes :=
  let w := writer_new |> writer_bytes sid
                      |> writer_u32 (kind_code (body_kind body))
                      |> writer_bytes author
                      |> writer_set (bt_elems deps) writer_bytes
                      |> body_encode body in
  hash (bstr "cfr/op") [writer_finish w].

Definition op_create (signing_key : bytes) (session_id : SessionId) (deps : gset Oid)
    (body : Body) : Op :=
  let author := sig_public signing_key in
  let image := signed_image session_id author deps body in
  let signature := sig_sign signing_key image in
  let oid := hash (bstr "cfr/oid") [image; signature] in
  mkOp session_id author deps body signature image oid.

Definition op_verify (o : Op) : result Error unit :=
  map_err (fun _ => BadSignature) (sig_verify (op_author o) (op_image o) (op_sig o)).

Definition op_to_wire (o : Op) : bytes :=
  let w := writer_new |> writer_bytes (op_sid o)
                      |> writer_u32 (kind_code (body_kind (op_body o)))
                      |> writer_bytes (op_author o)
                      |> writer_set (bt_elems (op_deps o)) writer_bytes
                      |> body_encode (op_body o)
                      |> writer_bytes (op_sig o) in
  writer_finish w.

Definition op_read : Rd Op :=
  session_id ← reader_array 32;
  code ← reader_u32;
  kind ← lift (kind_from_u32 code);
  author ← reader_array 32;
  dependency_list ← reader_set (reader_array 32);
  if (MAX_DEPS <? lenN dependency_list)%N then fail (Encoding "too many dependencies") else
  body ← body_decode kind;
  signature ← reader_array 64;
  let deps : gset Oid := list_to_set dependency_list in
  let image := signed_image session_id author deps body in
  let oid := hash (bstr "cfr/oid") [image; signature] in
  mret (mkOp session_id author deps body signature image oid).

Definition op_from_wire (buf : bytes) : result Error Op := run_reader op_read buf.

Definition op_write (o : Op) (w : Writer) : Writer := w |> writer_bytes (op_to_wire o).

Definition op_wire_len (o : Op) : N := lenN (op_to_wire o).
End ops.

(** ** Images and validity *)

Definition establish_image (e : option (N * DhPublic)) : bytes :=
  match e with
  | Some (gen, eph) => u64_image 1 ++ u64_image gen ++ bytes_image eph
  | None => u64_image 0
  end.

Definition slice_image (s : Slice) : bytes :=
  bytes_image (sl_to s) ++ establish_image (sl_establish s)
  ++ u64_image (sl_seq s) ++ bytes_image (sl_ct s).

Definition oid_set_image (s : gset Oid) : bytes := set_image bytes_image (bt_elems s).

Definition body_image (b : Body) : bytes :=
  match b with
  | Add who | Remove who => bytes_image who
  | Prekeys gen pk => u64_image gen ++ bytes_image pk
  | Contrib cid cparents recips slices view =>
      bytes_image cid ++ oid_set_image cparents ++ list_image bytes_image recips
      ++ list_image slice_image slices ++ bytes_image view
  | Accuse who coid mk seq =>
      bytes_image who ++ bytes_image coid ++ bytes_image mk ++ u64_image seq
  | PrekeyRequest targets => list_image bytes_image targets
  end.

(** What the signature covers. *)
Definition core_image (sid author : bytes) (deps : gset Oid) (body : Body) : bytes :=
  bytes_image sid ++ u64_image (kind_code (body_kind body)) ++ bytes_image author
  ++ oid_set_image deps ++ body_image body.

Definition len32 (b : bytes) : Prop := length b = 32.

Definition oid_set_valid (s : gset Oid) : Prop :=
  (forall o, o ∈ s -> len32 o) /\ (N.of_nat (size s) <= MAX_DEPS)%N.

Definition establish_valid (e : option (N * DhPublic)) : Prop :=
  match e with Some (gen, eph) => u32_valid gen /\ len32 eph | None => True end.

Definition slice_valid (s : Slice) : Prop :=
  len32 (sl_to s) /\ establish_valid (sl_establish s) /\ u64_valid (sl_seq s)
  /\ bytes_valid (sl_ct s).

Definition peers_valid (l : list SigPublic) : Prop :=
  Forall len32 l /\ (lenN l <= MAX_RECIPIENTS)%N.

Definition body_valid (b : Body) : Prop :=
  match b with
  | Add who | Remove who => len32 who
  | Prekeys gen pk => u32_valid gen /\ len32 pk
  | Contrib cid cparents recips slices view =>
      len32 cid /\ oid_set_valid cparents /\ peers_valid recips
      /\ (Forall slice_valid slices /\ (lenN slices <= MAX_RECIPIENTS)%N) /\ len32 view
  | Accuse who coid mk seq => len32 who /\ len32 coid /\ len32 mk /\ u64_valid seq
  | PrekeyRequest targets => peers_valid targets
  end.

Definition op_valid {P : Primitives} (o : Op) : Prop :=
  len32 (op_sid o) /\ len32 (op_author o) /\ oid_set_valid (op_deps o)
  /\ body_valid (op_body o) /\ length (op_sig o) = 64
  /\ op_image o = signed_image (op_sid o) (op_author o) (op_deps o) (op_body o)
  /\ op_oid o = hash (bstr "cfr/oid") [op_image o; op_sig o].

(** ** Writers produce the images *)

Lemma slice_encode_buf s w : w_buf (slice_encode s w) = w_buf w ++ slice_image s.
Proof.
  unfold slice_encode, slice_image, establish_image.
  destruct (sl_establish s) as [[gen eph]|]; autorewrite with cfr_writer;
    by rewrite <- !app_assoc.
Qed.

Lemma w_buf_list_bytes l w :
  w_buf (writer_list l writer_bytes w) = w_buf w ++ list_image bytes_image l.
Proof. by apply w_buf_list. Qed.
Lemma w_buf_set_bytes l w :
  w_buf (writer_set l writer_bytes w) = w_buf w ++ set_image bytes_image l.
Proof. by apply w_buf_set. Qed.
Lemma w_buf_list_slices l w :
  w_buf (writer_list l slice_encode w) = w_buf w ++ list_image slice_image l.
Proof. apply w_buf_list, slice_encode_buf. Qed.
#[export] Hint Rewrite w_buf_list_bytes w_buf_set_bytes w_buf_list_slices : cfr_writer.

Lemma body_encode_buf b w : w_buf (body_encode b w) = w_buf w ++ body_image b.
Proof.
  destruct b; cbn [body_encode body_image]; autorewrite with cfr_writer;
    by rewrite <- ?app_assoc.
Qed.
#[export] Hint Rewrite body_encode_buf : cfr_writer.

Section images.
Context {P : Primitives}.

Lemma signed_image_core sid author deps body :
  signed_image sid author deps body = hash (bstr "cfr/op") [core_image sid author deps body].
Proof.
  unfold signed_image, writer_finish. autorewrite with cfr_writer.
  unfold core_image, oid_set_image. cbn [w_buf writer_new app]. by rewrite <- !app_assoc.
Qed.

Lemma op_to_wire_image o :
  op_to_wire o =
  core_image (op_sid o) (op_author o) (op_deps o) (op_body o) ++ bytes_image (op_sig o).
Proof.
  unfold op_to_wire, writer_finish. autorewrite with cfr_writer.
  unfold core_image, oid_set_image. cbn [w_buf writer_new app]. by rewrite <- !app_assoc.
Qed.
End images.

(** ** The operation readers are lawful *)

Lemma len32_array b : len32 b -> array_valid 32 b.
Proof. intros H. split; [done|]. unfold bytes_valid, MAX_FIELD, lenN. rewrite H. lia. Qed.
Lemma array_len32 b : array_valid 32 b -> len32 b.
Proof. by intros [? _]. Qed.
Lemma sig_array b : length b = 64 -> array_valid 64 b.
Proof. intros H. split; [done|]. unfold bytes_valid, MAX_FIELD, lenN. rewrite H. lia. Qed.

Lemma peers_list l : peers_valid l -> list_valid (array_valid 32) l.
Proof.
  intros [HF Hl]. split; [|unfold MAX_RECIPIENTS, MAX_ITEMS in *; lia].
  eapply Forall_impl; [done|]. apply len32_array.
Qed.
Lemma list_peers l :
  list_valid (array_valid 32) l -> (lenN l <= MAX_RECIPIENTS)%N -> peers_valid l.
Proof. intros [HF _] Hl. split; [|done]. eapply Forall_impl; [done|]. apply array_len32. Qed.

Lemma oid_set_list s :
  oid_set_valid s -> set_valid (array_valid 32) bytes_image (bt_elems s).
Proof.
  intros [HF Hl]. assert (Forall len32 (bt_elems s)) as H32.
  { apply Forall_forall. intros o Ho. by apply HF, elem_of_bt_elems. }
  split_and!.
  - eapply Forall_impl; [done|]. apply len32_array.
  - unfold lenN. rewrite bt_elems_length. unfold MAX_DEPS, MAX_ITEMS in *. lia.
  - apply (bytes_images_sorted 32); [done|]. apply bt_elems_sorted.
Qed.

Lemma set_list_oid l :
  set_valid (array_valid 32) bytes_image l ->
  Forall len32 l /\ bt_elems (list_to_set l) = l.
Proof.
  intros (HF & _ & Hs). assert (Forall len32 l) as H32.
  { eapply Forall_impl; [done|]. apply array_len32. }
  split; [done|]. apply bt_elems_of_sorted. by apply (bytes_images_sorted 32).
Qed.

Lemma list_oid_set l :
  set_valid (array_valid 32) bytes_image l -> (lenN l <= MAX_DEPS)%N ->
  oid_set_valid (list_to_set l).
Proof.
  intros H Hl. apply set_list_oid in H as [HF He]. split.
  - intros o Ho. rewrite elem_of_list_to_set in Ho. by eapply Forall_forall in HF.
  - rewrite <- bt_elems_length, He. done.
Qed.

#[export] Hint Resolve len32_array sig_array peers_list oid_set_list : cfr.

Lemma u32_valid_01 (b : bool) : u32_valid (if b then 1 else 0).
Proof. by destruct b. Qed.

(** Ends a forward run over images: only associativity is left. *)
Ltac rd_done := unfold mret, M_ret; by rewrite <- ?app_assoc.

#[export] Instance slice_decode_lawful : Lawful slice_valid slice_image slice_decode.
Proof.
  split.
  - intros [to e seq ct] pre post (Ht & He & Hs & Hc).
    unfold slice_decode, slice_image.
    cbn [sl_to sl_establish sl_seq sl_ct] in *.
    destruct e as [[gen eph]|]; cbn [establish_image establish_valid] in *;
      rewrite <- !app_assoc; rd_step; rd_step by done.
    + destruct He. erewrite bind_ok by (do 2 rd_step; done). do 2 rd_step. rd_done.
    + erewrite bind_ok by done. do 2 rd_step. rd_done.
  - intros pre rest s r' H. unfold slice_decode in H. do 2 rd_inv H.
    inv_bind H. destruct a0 as [|[| |]]; try done.
    + injection Hm as <- <-. do 2 rd_inv H. injection H as <- <-.
      split; [by repeat split; [apply array_len32|..]|].
      eexists. unfold slice_image. cbn [sl_to sl_establish sl_seq sl_ct establish_image].
      by rewrite <- !app_assoc.
    + do 2 rd_inv Hm. injection Hm as <- <-. do 2 rd_inv H. injection H as <- <-.
      split; [by repeat split; [apply array_len32| |apply array_len32|..]|].
      eexists. unfold slice_image. cbn [sl_to sl_establish sl_seq sl_ct establish_image].
      by rewrite <- !app_assoc.
Qed.

Lemma slices_list l :
  Forall slice_valid l /\ (lenN l <= MAX_RECIPIENTS)%N -> list_valid slice_valid l.
Proof. intros [HF Hl]. split; [done|]. unfold MAX_RECIPIENTS, MAX_ITEMS in *. lia. Qed.
#[export] Hint Resolve slices_list : cfr.

Lemma limit_ok {B} (a b : N) (x y : B) : (b <= a)%N -> (if (a <? b)%N then x else y) = y.
Proof. intros H. by destruct (N.ltb_spec a b); [lia|]. Qed.

Lemma limit_fail_inv {S A} (a b : N) e (m : M S Error A) s v s' :
  (if (a <? b)%N then fail e else m) s = (Ok v, s') -> (b <= a)%N /\ m s = (Ok v, s').
Proof. destruct (N.ltb_spec a b); [done|]. auto. Qed.

Lemma lenN_bt_elems s : oid_set_valid s -> (lenN (bt_elems s) <= MAX_DEPS)%N.
Proof. intros [_ H]. unfold lenN. by rewrite bt_elems_length. Qed.
#[export] Hint Resolve lenN_bt_elems : cfr.

Lemma body_decode_complete b pre post :
  body_valid b ->
  body_decode (body_kind b) (rd_at pre (body_image b ++ post))
  = (Ok b, rd_at (pre ++ body_image b) post).
Proof.
  destruct b as [who|who|gen pk|cid cp recips slices view|who coid mk seq|targets];
    cbn [body_valid body_kind body_decode body_image]; intros HV.
  - rd_step. rd_done.
  - rd_step. rd_done.
  - destruct HV. rewrite <- !app_assoc. do 2 rd_step. rd_done.
  - destruct HV as (Hc & Hp & Hr & Hs & Hv). unfold oid_set_image. rewrite <- !app_assoc.
    rd_step. rd_step. rewrite limit_ok by auto with cfr. rd_step.
    rewrite limit_ok by apply Hr. rd_step. rewrite limit_ok by apply Hs. rd_step.
    rewrite bt_elems_to_set. rd_done.
  - destruct HV as (H1 & H2 & H3 & H4). rewrite <- !app_assoc. do 4 rd_step. rd_done.
  - rd_step. rewrite limit_ok by apply HV. rd_done.
Qed.

Lemma body_decode_sound k pre rest b r' :
  body_decode k (rd_at pre rest) = (Ok b, r') ->
  (body_valid b /\ body_kind b = k) /\
  exists post, rest = body_image b ++ post /\ r' = rd_at (pre ++ body_image b) post.
Proof.
  destruct k; cbn [body_decode]; intros H.
  - rd_inv H. injection H as <- <-. split; [split; [by apply array_len32|done]|]. by eexists.
  - rd_inv H. injection H as <- <-. split; [split; [by apply array_len32|done]|]. by eexists.
  - do 2 rd_inv H. injection H as <- <-.
    split; [split; [split; [done|by apply array_len32]|done]|].
    eexists. cbn [body_image]. by rewrite <- !app_assoc.
  - do 2 rd_inv H. apply limit_fail_inv in H as [Hp H]. rd_inv H.
    apply limit_fail_inv in H as [Hr H]. rd_inv H. apply limit_fail_inv in H as [Hs H].
    rd_inv H. injection H as <- <-. split; [split; [|done]|].
    + split_and!; [by apply array_len32|by apply list_oid_set|by apply list_peers|
                   apply HV2|done|by apply array_len32].
    + apply set_list_oid in HV0 as [_ He]. eexists. cbn [body_image].
      unfold oid_set_image. rewrite He. by rewrite <- !app_assoc.
  - do 4 rd_inv H. injection H as <- <-.
    split; [split; [by split_and!; try apply array_len32|done]|].
    eexists. cbn [body_image]. by rewrite <- !app_assoc.
  - rd_inv H. apply limit_fail_inv in H as [Hl H]. injection H as <- <-.
    split; [split; [by apply list_peers|done]|]. by eexists.
Qed.

#[export] Instance body_decode_lawful k :
  Lawful (fun b => body_valid b /\ body_kind b = k) body_image (body_decode k).
Proof.
  split.
  - intros b pre post [HV <-]. by apply body_decode_complete.
  - intros pre rest b r' H. by apply body_decode_sound.
Qed.

Lemma kind_from_code k : kind_from_u32 (kind_code k) = Ok k.
Proof. by destruct k. Qed.

Lemma kind_from_u32_inv v k : kind_from_u32 v = Ok k -> v = kind_code k.
Proof.
  unfold kind_from_u32.
  destruct v as [|[[[?|?|]|[?|?|]|]|[[?|?|]|[?|?|]|]|]]; try done; by intros [= <-].
Qed.

Lemma kind_code_u32 k : u32_valid (kind_code k).
Proof. by destruct k. Qed.
#[export] Hint Resolve kind_code_u32 : cfr.

Section laws.
Context {P : Primitives}.

#[export] Instance op_read_lawful : Lawful op_valid op_to_wire op_read.
Proof.
  split.
  - intros [sid author deps body sig image oid] pre post (H1 & H2 & H3 & H4 & H5 & H6 & H7).
    rewrite op_to_wire_image. unfold op_read, core_image, oid_set_image.
    cbn [op_sid op_author op_deps op_body op_sig op_image op_oid] in *.
    rewrite <- !app_assoc. do 2 rd_step. rewrite kind_from_code. erewrite bind_ok by done.
    do 2 rd_step. rewrite limit_ok by auto with cfr. rd_step by done. rd_step.
    rewrite bt_elems_to_set, <- H6, <- H7. rd_done.
  - intros pre rest o r' H. unfold op_read in H. do 2 rd_inv H. inv_bind H.
    injection Hm as Hk <-. apply kind_from_u32_inv in Hk as ->.
    do 2 rd_inv H. apply limit_fail_inv in H as [Hd H]. do 2 rd_inv H. injection H as <- <-.
    destruct HV3 as [HV3 Hkind]. destruct HV4 as [HV4 _]. split.
    + split_and!; cbn [op_sid op_author op_deps op_body op_sig op_image op_oid];
        auto using array_len32, list_oid_set.
    + eexists. rewrite op_to_wire_image. unfold core_image, oid_set_image.
      cbn [op_sid op_author op_deps op_body op_sig].
      apply set_list_oid in HV2 as [_ He]. rewrite He, Hkind. by rewrite <- !app_assoc.
Qed.

Lemma core_image_inj s1 a1 d1 b1 s2 a2 d2 b2 :
  len32 s1 -> len32 a1 -> oid_set_valid d1 -> body_valid b1 ->
  len32 s2 -> len32 a2 -> oid_set_valid d2 -> body_valid b2 ->
  core_image s1 a1 d1 b1 = core_image s2 a2 d2 b2 ->
  s1 = s2 /\ a1 = a2 /\ d1 = d2 /\ b1 = b2.
Proof.
  intros Hs1 Ha1 Hd1 Hb1 Hs2 Ha2 Hd2 Hb2 H.
  pose (z := replicate 64 Byte.x00).
  pose (mk s a d b := mkOp s a d b z (signed_image s a d b)
                        (hash (bstr "cfr/oid") [signed_image s a d b; z])).
  assert (mk s1 a1 d1 b1 = mk s2 a2 d2 b2) as E.
  { apply (lawful_inj (f := op_read)); try by split_and!.
    rewrite !op_to_wire_image. unfold mk.
    cbn [op_sid op_author op_deps op_body op_sig]. by rewrite H. }
  by injection E.
Qed.
End laws.

(** ** Properties *)

Section properties.
Context {P : Primitives}.

(** [Op::from_wire] accepts a byte string if and only if it is the
    canonical wire form [Op::to_wire] of the operation returned, whose fields
    respect every bound and whose cached image and identifier are recomputed
    from them. *)
Theorem op_wire_exact buf o :
  op_from_wire buf = Ok o <-> op_valid o /\ buf = op_to_wire o.
Proof. apply run_reader_ok. Qed.

(** A wire operation cut at any length is refused. *)
Theorem op_truncation_rejected o n :
  op_valid o -> n < length (op_to_wire o) ->
  exists e, op_from_wire (take n (op_to_wire o)) = Err e.
Proof.
  intros Ho Hn. destruct (op_from_wire (take n (op_to_wire o))) as [b|e] eqn:E; [|eauto].
  exfalso. apply run_reader_ok in E as [Hb E].
  pose proof (take_drop n (op_to_wire o)) as Ht. rewrite E in Ht.
  symmetry in Ht. apply (lawful_prefix_free (f := op_read)) in Ht as [_ Ht]; [|done|done].
  apply (f_equal length) in Ht. rewrite length_drop in Ht. simpl in Ht. lia.
Qed.

Context {PO : PrimitivesOk P}.

Lemma op_create_valid sk sid deps body :
  len32 sid -> oid_set_valid deps -> body_valid body ->
  op_valid (op_create sk sid deps body).
Proof.
  intros. unfold op_create. split_and!; simpl; auto.
  - apply ed25519_public_length.
  - apply ed25519_sign_length.
Qed.

Lemma op_create_verifies sk sid deps body :
  op_verify (op_create sk sid deps body) = Ok tt.
Proof. unfold op_verify, op_create. simpl. by rewrite sig_verify_own. Qed.

(** An operation built by [Op::create] from well-formed inputs verifies,
    survives the wire unchanged and still verifies after parsing. *)
Theorem op_create_roundtrip sk sid deps body :
  len32 sid -> oid_set_valid deps -> body_valid body ->
  let o := op_create sk sid deps body in
  op_verify o = Ok tt /\ op_from_wire (op_to_wire o) = Ok o.
Proof.
  intros Hs Hd Hb. split; [apply op_create_verifies|].
  apply run_reader_ok. split; [by apply op_create_valid|done].
Qed.

Lemma core_framable o :
  (lenN (op_to_wire o) < two32)%N ->
  framable (core_image (op_sid o) (op_author o) (op_deps o) (op_body o)).
Proof using Type. rewrite op_to_wire_image, lenN_app. unfold framable. lia. Qed.

(** What is hashed into the image and into the identifier of an operation. *)
Definition image_input (o : Op) : bytes :=
  frames [bstr "cfr/op"; core_image (op_sid o) (op_author o) (op_deps o) (op_body o)].
Definition oid_input (o : Op) : bytes := frames [bstr "cfr/oid"; op_image o; op_sig o].

Lemma op_image_inj a b :
  op_valid a -> op_valid b ->
  (lenN (op_to_wire a) < two32)%N -> (lenN (op_to_wire b) < two32)%N ->
  op_image a = op_image b ->
  (op_sid a = op_sid b /\ op_author a = op_author b /\ op_deps a = op_deps b
   /\ op_body a = op_body b) \/ collide None (image_input a) (image_input b).
Proof using Type.
  intros Ha Hb La Lb H.
  destruct Ha as (? & ? & ? & ? & ? & Hia & _), Hb as (? & ? & ? & ? & ? & Hib & _).
  rewrite Hia, Hib, !signed_image_core in H.
  apply hash_inj in H as [[_ H]|?]; [| |by repeat constructor; try apply core_framable..].
  - left. apply cons_inv in H as [H _]. by apply core_image_inj in H.
  - by right.
Qed.

(** An identifier binds the whole operation: two valid operations with one
    identifier are the same operation, or BLAKE3 collides on the inputs of these
    two identifiers or of these two images. *)
Theorem op_oid_binding a b :
  op_valid a -> op_valid b ->
  (lenN (op_to_wire a) < two32)%N -> (lenN (op_to_wire b) < two32)%N ->
  op_oid a = op_oid b ->
  a = b \/ collide None (oid_input a) (oid_input b) \/ collide None (image_input a) (image_input b).
Proof.
  intros Ha Hb La Lb H.
  destruct Ha as (Ha1 & Ha2 & Ha3 & Ha4 & Ha5 & Ha6 & Ha7) eqn:Ea.
  destruct Hb as (Hb1 & Hb2 & Hb3 & Hb4 & Hb5 & Hb6 & Hb7) eqn:Eb. clear Ea Eb.
  rewrite Ha7, Hb7 in H.
  assert (forall o, op_image o = signed_image (op_sid o) (op_author o) (op_deps o) (op_body o) ->
    length (op_sig o) = 64 -> Forall framable [bstr "cfr/oid"; op_image o; op_sig o]) as Hfr.
  { intros o Ho Hs. unfold framable, lenN. rewrite Ho. unfold signed_image.
    repeat constructor; [rewrite hash_length|rewrite Hs]; done. }
  apply hash_inj in H as [[_ H]|?]; [|by right; left|by apply Hfr|by apply Hfr].
  apply cons_inv in H as [Hi [Hs _]%cons_inv].
  destruct (op_image_inj a b) as [(H1 & H2 & H3 & H4)|?]; [done..| |by right; right].
  left. destruct a, b; simpl in *. by subst.
Qed.
End properties.

(** ** Witnesses *)

Definition ex_sid : SessionId := array_of (byte_of 171) 32.
Definition ex_seed : bytes := array_of (byte_of 1) 32.
Definition ex_op : Op := op_create (P := Toy) ex_seed ex_sid {[array_of (byte_of 9) 32]}
                           (Add (array_of (byte_of 2) 32)).

Lemma ex_op_valid : op_valid (P := Toy) ex_op.
Proof.
  apply op_create_valid; [done| |done]. split; [|by vm_compute].
  intros o ->%elem_of_singleton. done.
Qed.

Lemma op_oid_binding_witness :
  ex_op = ex_op \/ collide (P := Toy) None (oid_input ex_op) (oid_input ex_op) \/
  collide (P := Toy) None (image_input ex_op) (image_input ex_op).
Proof. apply (op_oid_binding (P := Toy)); try apply ex_op_valid; by vm_compute. Defined.

Lemma op_create_roundtrip_witness :
  op_verify (P := Toy) ex_op = Ok tt /\ op_from_wire (op_to_wire ex_op) = Ok ex_op.
Proof.
  apply (op_create_roundtrip (P := Toy)); [done| |done]. split; [|by vm_compute].
  intros o ->%elem_of_singleton. done.
Defined.

Lemma op_truncation_rejected_witness :
  exists e, op_from_wire (P := Toy) (take 100 (op_to_wire ex_op)) = Err e.
Proof.
  apply (op_truncation_rejected (P := Toy)); [apply ex_op_valid|].
  apply Nat.ltb_lt. by vm_compute.
Defined.
