(* ===== verification/Dag.v ===== *)
(** * Causal operation graph ([crates/cfr-core/src/dag.rs])

    The graph with its recorded parents and its memo of ancestor sets.  The
    three loops ([ancestors], [compact], [topological]) are fuelled by a bound
    on the work they can do; the specifications ([walk_spec], [rewire_spec],
    [topological_spec]) show that the fuel is never exhausted.  [ancestors]
    reads and fills the memo exactly as the code does; callers read its result,
    and [ancestors_memo] shows that the memo never changes an answer. *)

From Stdlib Require Import NArith Lia.
From S2P Require Import Prelude Codec Ops.

Definition MAX_OPS : N := 4096.

Record Dag := mkDag {
  dag_epoch : N;
  dag_ops : gmap Oid Op;
  dag_parents : gmap Oid (gset Oid);
  dag_cache : gmap Oid (gset Oid);
}.

Definition dag_new : Dag := mkDag 0 ∅ ∅ ∅.
Definition dag_len (d : Dag) : N := N.of_nat (size (dag_ops d)).
Definition dag_is_empty (d : Dag) : bool := bool_decide (dag_ops d = ∅).
Definition dag_contains (d : Dag) (oid : Oid) : bool := bool_decide (is_Some (dag_ops d !! oid)).
Definition dag_get (d : Dag) (oid : Oid) : option Op := dag_ops d !! oid.
Definition dag_iter (d : Dag) : list (Oid * Op) := bt_list (dag_ops d).
Definition dag_oids (d : Dag) : list Oid := bt_keys (dag_ops d).
Definition dag_parents_of (d : Dag) (oid : Oid) : option (gset Oid) := dag_parents d !! oid.

Definition dag_add (op : Op) (d : Dag) : result Error Oid * Dag :=
  if (MAX_OPS <=? dag_len d)%N then (Err (LimitExceeded "operation graph full"), d) else
  let oid := op_oid op in
  if dag_contains d oid then (Ok oid, d) else
  let deps := filter (fun x => dag_contains d x = true) (op_deps op) in
  (Ok oid, mkDag (dag_epoch d + 1) (<[oid := op]> (dag_ops d))
             (<[oid := deps]> (dag_parents d)) ∅).

Definition deps_satisfied (d : Dag) (op : Op) : bool :=
  forallb (dag_contains d) (bt_elems (op_deps op)).

(** The [Vec] of a node's parents, as a stack whose top is its last element. *)
Definition stack_of (ps : option (gset Oid)) : list Oid :=
  match ps with Some s => rev (bt_elems s) | None => [] end.

(** The depth-first loop of [ancestors]. *)
Fixpoint walk (parents : gmap Oid (gset Oid)) (fuel : nat) (stack : list Oid)
    (seen : gset Oid) : gset Oid :=
  match fuel with
  | O => seen
  | S fuel =>
    match stack with
    | [] => seen
    | cur :: stack =>
        if decide (cur ∈ seen) then walk parents fuel stack seen
        else walk parents fuel (stack_of (parents !! cur) ++ stack) ({[cur]} ∪ seen)
    end
  end.

(** Parent links leaving nodes not yet seen. *)
Definition weight (parents : gmap Oid (gset Oid)) (seen : gset Oid) : nat :=
  map_fold (fun k ps acc => (if decide (k ∈ seen) then 0 else size ps) + acc) 0 parents.

(** Enough iterations for a walk from [stack]. *)
Definition walk_fuel (parents : gmap Oid (gset Oid)) (stack : list Oid) : nat :=
  S (length stack + weight parents ∅).

Definition ancestors (d : Dag) (oid : Oid) : gset Oid * Dag :=
  match dag_cache d !! oid with
  | Some hit => (hit, d)
  | None =>
      let stack := stack_of (dag_parents d !! oid) in
      let seen := walk (dag_parents d) (walk_fuel (dag_parents d) stack) stack ∅ in
      (seen, mkDag (dag_epoch d) (dag_ops d) (dag_parents d) (<[oid := seen]> (dag_cache d)))
  end.

(** The set a caller of [ancestors] receives. *)
Definition past_of (d : Dag) (oid : Oid) : gset Oid := (ancestors d oid).1.

Definition causal_closure (d : Dag) (heads : list Oid) : gset Oid :=
  foldl (fun known head =>
           if dag_contains d head then known ∪ {[head]} ∪ past_of d head else known)
        ∅ heads.

Definition precedes (d : Dag) (a b : Oid) : bool :=
  bool_decide (a <> b) && bool_decide (a ∈ past_of d b).

Definition dag_heads (d : Dag) : gset Oid :=
  let referenced := foldl (fun acc ps => acc ∪ ps) ∅ (bt_values (dag_parents d)) in
  list_to_set (filter (fun o => o ∉ referenced) (bt_keys (dag_ops d))).

(** The loop of [compact] that resolves one survivor's parents. *)
Fixpoint rewire_loop (parents : gmap Oid (gset Oid)) (dropped : gset Oid) (fuel : nat)
    (stack : list Oid) (seen out : gset Oid) : gset Oid :=
  match fuel with
  | O => out
  | S fuel =>
    match stack with
    | [] => out
    | cur :: stack =>
        if decide (cur ∈ seen) then rewire_loop parents dropped fuel stack seen out
        else if decide (cur ∈ dropped)
        then rewire_loop parents dropped fuel (stack_of (parents !! cur) ++ stack)
               ({[cur]} ∪ seen) out
        else rewire_loop parents dropped fuel stack ({[cur]} ∪ seen) ({[cur]} ∪ out)
    end
  end.

Definition rewire (parents : gmap Oid (gset Oid)) (dropped : gset Oid) (oid : Oid) : gset Oid :=
  let stack := stack_of (parents !! oid) in
  rewire_loop parents dropped (walk_fuel parents stack) stack ∅ ∅.

Definition compact (keep : gset Oid) (d : Dag) : Dag :=
  let drop := filter (fun o => o ∉ keep) (bt_keys (dag_ops d)) in
  match drop with
  | [] => d
  | _ :: _ =>
      let dropped : gset Oid := list_to_set drop in
      let rewired :=
        foldl (fun m oid => <[oid := rewire (dag_parents d) dropped oid]> m) ∅
          (filter (fun o => o ∈ keep) (bt_keys (dag_ops d))) in
      mkDag (dag_epoch d + 1) (foldl (fun m o => delete o m) (dag_ops d) drop) rewired ∅
  end.

(** [children.entry(p).or_default().push(oid)] *)
Definition push_child (oid : Oid) (m : gmap Oid (list Oid)) (p : Oid) : gmap Oid (list Oid) :=
  <[p := default [] (m !! p) ++ [oid]]> m.

Definition children_of (parents : gmap Oid (gset Oid)) : gmap Oid (list Oid) :=
  foldl (fun m '(oid, ps) => foldl (push_child oid) m (bt_elems ps)) ∅ (bt_list parents).

(** Releases one child: its count drops, and it becomes ready at zero. *)
Definition release (st : gmap Oid nat * list Oid) (c : Oid) : gmap Oid nat * list Oid :=
  let '(indeg, ready) := st in
  match indeg !! c with
  | Some n =>
      let n := pred n in
      (<[c := n]> indeg, if decide (n = 0) then c :: ready else ready)
  | None => (indeg, ready)
  end.

(** The main loop; [ready] is a stack with its top first. *)
Fixpoint kahn (children : gmap Oid (list Oid)) (fuel : nat) (indeg : gmap Oid nat)
    (ready out : list Oid) : list Oid :=
  match fuel with
  | O => out
  | S fuel =>
    match ready with
    | [] => out
    | cur :: ready =>
        let out := out ++ [cur] in
        let '(indeg, ready) :=
          match children !! cur with
          | Some cs => foldl release (indeg, ready) cs
          | None => (indeg, ready)
          end in
        kahn children fuel indeg ready out
    end
  end.

Definition topological (d : Dag) : list Oid :=
  let indeg : gmap Oid nat :=
    list_to_map ((fun o => (o, match dag_parents d !! o with
                               | Some ps => size ps | None => 0 end)) <$> bt_keys (dag_ops d)) in
  let children := children_of (dag_parents d) in
  let ready := rev (filter (fun o => indeg !! o = Some 0) (bt_keys indeg)) in
  kahn children (S (size (dag_ops d))) indeg ready [].

(** ** The dependency relation and the graph invariant *)

(** [x] lists [y] among its recorded parents. *)
Definition edge (parents : gmap Oid (gset Oid)) (x y : Oid) : Prop :=
  exists ps, parents !! x = Some ps /\ y ∈ ps.

(** What every graph built by [dag_new], [dag_add] and [compact] satisfies. *)
Record dag_wf (d : Dag) : Prop := {
  wf_dom : dom (dag_parents d) = dom (dag_ops d);
  wf_closed x y : edge (dag_parents d) x y -> y ∈ dom (dag_ops d);
  wf_acyclic x : sn (edge (dag_parents d)) x;
  wf_oid o op : dag_ops d !! o = Some op -> op_oid op = o;
  wf_size : (dag_len d <= MAX_OPS)%N;
  wf_cache o s : dag_cache d !! o = Some s ->
    forall x, x ∈ s <-> tc (edge (dag_parents d)) o x;
}.

(** The graph of a participant, which adds an operation only once its
    dependencies are present: recorded parents are the signed dependencies. *)
Definition dag_exact (d : Dag) : Prop :=
  forall o op, dag_ops d !! o = Some op -> dag_parents d !! o = Some (op_deps op).

(** ** Walks *)

Lemma weight_insert parents seen cur ps :
  parents !! cur = None ->
  weight (<[cur := ps]> parents) seen
  = (if decide (cur ∈ seen) then 0 else size ps) + weight parents seen.
Proof.
  intros H. unfold weight. rewrite map_fold_insert_L; [done| |done]. intros. lia.
Qed.

Lemma weight_seen_None parents seen cur :
  parents !! cur = None -> weight parents ({[cur]} ∪ seen) = weight parents seen.
Proof.
  induction parents as [|k ps m Hk IH] using map_ind; [done|].
  intros Hc. apply lookup_insert_None in Hc as [Hc Hne].
  rewrite !weight_insert, IH by done. f_equal.
  by rewrite (decide_ext (k ∈ {[cur]} ∪ seen) (k ∈ seen)) by set_solver.
Qed.

Lemma weight_seen parents seen cur :
  cur ∉ seen ->
  weight parents seen
  = length (stack_of (parents !! cur)) + weight parents ({[cur]} ∪ seen).
Proof.
  intros Hs. destruct (parents !! cur) as [ps|] eqn:E.
  - rewrite <- (insert_delete_id parents cur ps) by done.
    rewrite !weight_insert, weight_seen_None by apply lookup_delete_eq.
    rewrite decide_False by done. rewrite decide_True by set_solver.
    cbn [stack_of]. rewrite length_rev, bt_elems_length. lia.
  - by rewrite weight_seen_None.
Qed.

Lemma elem_of_stack ps x : x ∈ stack_of ps <-> exists s, ps = Some s /\ x ∈ s.
Proof.
  destruct ps as [s|]; simpl.
  - rewrite <- Permutation_rev, elem_of_bt_elems. naive_solver.
  - rewrite elem_of_nil. naive_solver.
Qed.

Lemma stack_edge parents o x : x ∈ stack_of (parents !! o) <-> edge parents o x.
Proof. apply elem_of_stack. Qed.

Lemma walk_correct parents fuel stack seen :
  length stack + weight parents seen < fuel ->
  (forall x y, x ∈ seen -> edge parents x y -> y ∈ seen \/ y ∈ stack) ->
  let W := walk parents fuel stack seen in
  (forall x, x ∈ seen \/ x ∈ stack -> x ∈ W) /\
  (forall x y, x ∈ W -> edge parents x y -> y ∈ W) /\
  (forall x, x ∈ W -> x ∈ seen \/ exists s, s ∈ stack /\ rtc (edge parents) s x).
Proof.
  revert stack seen. induction fuel as [|fuel IH]; intros stack seen Hf Hc; [lia|].
  destruct stack as [|cur stack]; simpl.
  { split_and!; [set_solver| |auto]. intros x y Hx Hxy. destruct (Hc x y Hx Hxy); set_solver. }
  simpl in Hf. case_decide as Hs.
  - destruct (IH stack seen) as (H1 & H2 & H3); [lia|set_solver|].
    split_and!; [set_solver|done|]. intros x Hx. destruct (H3 x Hx) as [?|(s & ? & ?)]; set_solver.
  - destruct (IH (stack_of (parents !! cur) ++ stack) ({[cur]} ∪ seen)) as (H1 & H2 & H3).
    + rewrite length_app. rewrite (weight_seen _ _ cur) in Hf by done. lia.
    + intros x y [->%elem_of_singleton|Hx]%elem_of_union Hxy.
      * right. apply elem_of_app. left. by apply stack_edge.
      * destruct (Hc x y Hx Hxy); set_solver.
    + split_and!; [set_solver|done|]. intros x Hx.
      destruct (H3 x Hx) as [[->%elem_of_singleton|?]%elem_of_union
                            |(s & [Hs'%stack_edge|?]%elem_of_app & Hr)]; [|by left| |].
      * right. exists cur. split; [set_solver|done].
      * right. exists cur. split; [set_solver|]. by eapply rtc_l.
      * right. exists s. set_solver.
Qed.

(** The loop of [ancestors] computes the transitive closure. *)
Lemma walk_spec parents o x :
  x ∈ walk parents (walk_fuel parents (stack_of (parents !! o))) (stack_of (parents !! o)) ∅
  <-> tc (edge parents) o x.
Proof.
  destruct (walk_correct parents (walk_fuel parents (stack_of (parents !! o)))
              (stack_of (parents !! o)) ∅) as (H1 & H2 & H3);
    [unfold walk_fuel; lia|set_solver|]. split.
  - intros [?|(s & Hs%stack_edge & Hr)]%H3; [set_solver|].
    by eapply tc_rtc_r; [apply tc_once|].
  - intros Ht. apply (tc_ind_r (R := edge parents) (fun x => x ∈ _) o); [| |done].
    + intros y Hy. apply H1. right. by apply stack_edge.
    + intros y z _ Hyz Hy. by eapply H2.
Qed.

(** ** [ancestors] and its memo *)

Lemma past_of_spec d o x : dag_wf d -> x ∈ past_of d o <-> tc (edge (dag_parents d)) o x.
Proof.
  intros Hwf. unfold past_of, ancestors. destruct (dag_cache d !! o) as [hit|] eqn:E.
  - by apply (wf_cache d Hwf).
  - apply walk_spec.
Qed.

Lemma past_of_uncached d o :
  dag_wf d ->
  past_of d o = past_of (mkDag (dag_epoch d) (dag_ops d) (dag_parents d) ∅) o.
Proof.
  intros Hwf. apply set_eq. intros x. rewrite past_of_spec by done.
  unfold past_of, ancestors. cbn [dag_cache dag_parents]. rewrite lookup_empty.
  symmetry. apply walk_spec.
Qed.

Lemma ancestors_wf d o : dag_wf d -> dag_wf (ancestors d o).2.
Proof.
  intros Hwf. unfold ancestors. destruct (dag_cache d !! o) eqn:E; [done|].
  destruct Hwf as [H1 H2 H3 H4 H5 H6]. split; try done. cbn [snd dag_cache dag_parents].
  intros o' s [[<- <-]|[? Hs]]%lookup_insert_Some; [|by apply H6].
  intros x. apply walk_spec.
Qed.

(** A run of queries, each filling the memo for the next. *)
Fixpoint queries (d : Dag) (qs : list Oid) : list (gset Oid) :=
  match qs with
  | [] => []
  | q :: qs => let '(s, d) := ancestors d q in s :: queries d qs
  end.

Lemma ancestors_parents d o : dag_parents (ancestors d o).2 = dag_parents d.
Proof. unfold ancestors. by destruct (dag_cache d !! o). Qed.

(** The memo never changes an answer: in a run of queries, whatever was
    cached before and between them, each answer is exactly the set of strict
    transitive dependencies of the queried operation. *)
Theorem ancestors_memo d qs :
  dag_wf d ->
  Forall2 (fun q s => forall x, x ∈ s <-> tc (edge (dag_parents d)) q x) qs (queries d qs).
Proof.
  revert d. induction qs as [|q qs IH]; intros d Hwf; simpl; [constructor|].
  pose proof (ancestors_wf d q Hwf) as Hwf'. pose proof (ancestors_parents d q) as Hp.
  pose proof (fun x => past_of_spec d q x Hwf) as Hs. unfold past_of in Hs.
  destruct (ancestors d q) as [s d']; simpl in *. constructor; [done|].
  rewrite <- Hp. by apply IH.
Qed.

(** ** [add] keeps the invariant *)

Lemma dag_contains_spec d o : dag_contains d o = true <-> o ∈ dom (dag_ops d).
Proof. unfold dag_contains. by rewrite bool_decide_eq_true, elem_of_dom. Qed.

Lemma dag_contains_false d o : dag_contains d o = false <-> dag_ops d !! o = None.
Proof. unfold dag_contains. by rewrite bool_decide_eq_false, <- eq_None_not_Some. Qed.

Lemma deps_satisfied_spec d op :
  deps_satisfied d op = true <-> op_deps op ⊆ dom (dag_ops d).
Proof.
  unfold deps_satisfied. rewrite forallb_forall, elem_of_subseteq.
  apply forall_proper. intros x.
  by rewrite <- list_elem_of_In, elem_of_bt_elems, dag_contains_spec.
Qed.

(** A successful insertion either finds the operation or stores it. *)
Lemma dag_add_cases op d r d' :
  dag_add op d = (r, d') ->
  ((MAX_OPS <= dag_len d)%N /\ r = Err (LimitExceeded "operation graph full") /\ d' = d) \/
  ((dag_len d < MAX_OPS)%N /\ op_oid op ∈ dom (dag_ops d) /\ r = Ok (op_oid op) /\ d' = d) \/
  ((dag_len d < MAX_OPS)%N /\ dag_ops d !! op_oid op = None /\ r = Ok (op_oid op) /\
   dag_ops d' = <[op_oid op := op]> (dag_ops d) /\
   dag_parents d' = <[op_oid op := op_deps op ∩ dom (dag_ops d)]> (dag_parents d) /\
   dag_cache d' = ∅ /\ dag_epoch d' = (dag_epoch d + 1)%N).
Proof.
  unfold dag_add. destruct (N.leb_spec MAX_OPS (dag_len d)) as [Hl|Hl].
  { intros [= <- <-]. left. by split_and!. }
  destruct (dag_contains d (op_oid op)) eqn:Ec; intros [= <- <-]; right.
  - left. by rewrite dag_contains_spec in Ec.
  - right. apply dag_contains_false in Ec. split_and!; try done.
    cbn [dag_parents]. f_equal. apply set_eq. intros x.
    rewrite elem_of_filter, dag_contains_spec. set_solver.
Qed.

Lemma edge_insert parents o ps x y :
  edge (<[o := ps]> parents) x y <-> (x = o /\ y ∈ ps) \/ (x <> o /\ edge parents x y).
Proof.
  unfold edge. split.
  - intros (qs & [[<- <-]|[? H]]%lookup_insert_Some & Hy); [by left|right]. eauto.
  - intros [[-> Hy]|(Hne & qs & H & Hy)].
    + exists ps. by rewrite lookup_insert_eq.
    + exists qs. by rewrite lookup_insert_ne by done.
Qed.

(** Adding a node whose parents are old nodes adds no cycle. *)
Lemma acyclic_insert parents o ps :
  (forall x, sn (edge parents) x) -> (forall x y, edge parents x y -> y <> o) -> o ∉ ps ->
  forall x, sn (edge (<[o := ps]> parents)) x.
Proof.
  intros Hac Hno Ho.
  assert (forall x, x <> o -> sn (edge (<[o := ps]> parents)) x) as Hold.
  { intros x. induction (Hac x) as [x _ IH]. intros Hx. constructor. intros y Hy.
    apply edge_insert in Hy as [[? _]|[_ Hy]]; [done|]. apply IH; [done|by eapply Hno]. }
  intros x. destruct (decide (x = o)) as [->|?]; [|by apply Hold].
  constructor. intros y Hy. apply edge_insert in Hy as [[_ Hy]|[? _]]; [|done].
  apply Hold. by intros ->.
Qed.

Lemma dag_new_wf : dag_wf dag_new.
Proof.
  unfold dag_new. split; cbn [dag_ops dag_parents dag_cache].
  - done.
  - by intros x y (ps & H & _).
  - intros x. constructor. by intros y (ps & H & _).
  - intros o op. by rewrite lookup_empty.
  - unfold dag_len, MAX_OPS. cbn [dag_ops dag_new]. rewrite map_size_empty. lia.
  - intros o s. by rewrite lookup_empty.
Qed.

Lemma dag_add_wf op d r d' : dag_wf d -> dag_add op d = (r, d') -> dag_wf d'.
Proof.
  intros Hwf [(_ & _ & ->)|[(_ & _ & _ & ->)|(Hl & Hn & _ & Ho & Hp & Hc & _)]]%dag_add_cases;
    [done..|].
  destruct Hwf as [H1 H2 H3 H4 H5 H6]. split; rewrite ?Ho, ?Hp, ?Hc.
  - rewrite !dom_insert_L. by rewrite H1.
  - intros x y [[_ Hy]|[_ Hy]]%edge_insert; [set_solver|].
    rewrite dom_insert_L. apply elem_of_union_r. by eapply H2.
  - apply acyclic_insert; [done| |].
    + intros x y Hxy ->. by apply not_elem_of_dom in Hn; eapply Hn, H2.
    + rewrite elem_of_intersection. intros [_ ?]. by apply not_elem_of_dom in Hn.
  - intros o p [[<- <-]|[_ Hop]]%lookup_insert_Some; [done|by apply H4].
  - unfold dag_len in *. rewrite Ho, map_size_insert_None by done. lia.
  - intros o s. by rewrite lookup_empty.
Qed.

Lemma dag_add_exact op d r d' :
  dag_exact d -> deps_satisfied d op = true -> dag_add op d = (r, d') -> dag_exact d'.
Proof.
  intros He Hs%deps_satisfied_spec
    [(_ & _ & ->)|[(_ & _ & _ & ->)|(Hl & Hn & _ & Ho & Hp & Hc & _)]]%dag_add_cases; [done..|].
  intros o p. rewrite Ho, Hp. intros [[<- <-]|[? Hop]]%lookup_insert_Some.
  - rewrite lookup_insert_eq. f_equal. set_solver.
  - rewrite lookup_insert_ne by done. by apply He.
Qed.

(** ** Precedence *)

Lemma sn_tc_irrefl {A} (R : relation A) x : sn R x -> tc R x x -> False.
Proof.
  induction 1 as [x _ IH]. intros Ht. inversion Ht as [? y Hxy|? y z Hxy Hyx]; subst.
  - by apply (IH x Hxy), tc_once.
  - eapply IH; [exact Hxy|]. by eapply tc_r.
Qed.

Lemma tc_flip {A} (R : relation A) a b : tc (fun x y => R y x) a b -> tc R b a.
Proof. induction 1; [by apply tc_once|by eapply tc_r]. Qed.

Lemma precedes_spec d a b :
  dag_wf d -> precedes d a b = true <-> tc (edge (dag_parents d)) b a.
Proof.
  intros Hwf. unfold precedes. rewrite andb_true_iff, !bool_decide_eq_true, past_of_spec by done.
  split; [by intros [_ ?]|]. intros Ht. split; [|done]. intros ->.
  eapply sn_tc_irrefl; [apply (wf_acyclic d Hwf)|done].
Qed.

(** Causal precedence is a strict partial order on every well-formed graph:
    no operation precedes itself, and precedence is transitive. *)
Theorem precedes_strict_order d :
  dag_wf d -> StrictOrder (fun a b => precedes d a b = true).
Proof.
  intros Hwf. split.
  - intros a Ha%precedes_spec; [|done].
    eapply sn_tc_irrefl; [apply (wf_acyclic d Hwf)|done].
  - intros a b c Hab Hbc. rewrite precedes_spec in * by done. by eapply tc_trans.
Qed.

Lemma tc_edge_dom d a b : dag_wf d -> tc (edge (dag_parents d)) a b ->
  a ∈ dom (dag_ops d) /\ b ∈ dom (dag_ops d).
Proof.
  intros Hwf Ht. split.
  - rewrite <- (wf_dom d Hwf). destruct Ht as [? ? (ps & H & _)|? ? ? (ps & H & _) _];
      by eapply elem_of_dom_2.
  - induction Ht as [? ? H|]; [by eapply wf_closed|done].
Qed.

(** Above every operation with a property there is a latest one with it. *)
Lemma max_above d (Q : Oid -> Prop) `{forall o, Decision (Q o)} c :
  dag_wf d -> (Q c) ->
  exists o, Q o /\ (o = c \/ precedes d c o = true) /\ forall x, Q x -> precedes d o x = false.
Proof.
  intros Hwf Hc. set (R := fun a b => precedes d b a = true).
  assert (forall x y, Decision (R x y)) as HD by (unfold R; apply _).
  assert (Transitive R) as HT.
  { intros x y z. unfold R. rewrite !precedes_spec by done. intros ? ?. by eapply tc_trans. }
  set (X := filter (fun x => Q x /\ (x = c \/ precedes d c x = true))
              ({[c]} ∪ dom (dag_ops d)) : gset Oid).
  destruct (minimal_exists_elem_of R X) as (o & Ho & Hmin).
  { intros He. assert (c ∈ X) as HcX; [|set_solver].
    apply elem_of_filter. set_solver. }
  apply elem_of_filter in Ho as [[HQ Hco] _]. exists o. split_and!; [done..|].
  intros x HQx. apply not_true_iff_false. intros Hox.
  assert (precedes d x o = true) as Hxo.
  { apply (Hmin x); [|done]. apply elem_of_filter. split.
    - split; [done|right]. destruct Hco as [->|Hco]; [done|].
      rewrite precedes_spec in * by done. by eapply tc_trans.
    - apply precedes_spec in Hox; [|done]. apply (tc_edge_dom d) in Hox as [? _]; [|done].
      set_solver. }
  rewrite precedes_spec in * by done.
  eapply sn_tc_irrefl; [apply (wf_acyclic d Hwf)|]. by eapply tc_trans.
Qed.

(** ** Closures and heads *)

Lemma causal_closure_spec d heads x :
  dag_wf d ->
  x ∈ causal_closure d heads <->
  exists h, h ∈ heads /\ h ∈ dom (dag_ops d) /\ rtc (edge (dag_parents d)) h x.
Proof.
  intros Hwf. unfold causal_closure.
  assert (forall acc,
    x ∈ foldl (fun known head => if dag_contains d head
                 then known ∪ {[head]} ∪ past_of d head else known) acc heads <->
    x ∈ acc \/ exists h, h ∈ heads /\ h ∈ dom (dag_ops d) /\ rtc (edge (dag_parents d)) h x) as H.
  { induction heads as [|h heads IH]; intros acc; simpl; [set_solver|]. rewrite IH.
    destruct (dag_contains d h) eqn:E.
    - apply dag_contains_spec in E. rewrite !elem_of_union, elem_of_singleton, past_of_spec by done.
      assert (rtc (edge (dag_parents d)) h x <-> x = h \/ tc (edge (dag_parents d)) h x) as Hr.
      { rewrite rtc_tc. naive_solver. }
      setoid_rewrite elem_of_cons. clear IH. naive_solver.
    - apply dag_contains_false, not_elem_of_dom in E. set_solver. }
  rewrite H. set_solver.
Qed.

Lemma elem_of_foldl_union (l : list (gset Oid)) acc x :
  x ∈ foldl (fun acc ps => acc ∪ ps) acc l <-> x ∈ acc \/ exists s, s ∈ l /\ x ∈ s.
Proof.
  revert acc. induction l as [|s l IH]; intros acc; simpl; [set_solver|].
  rewrite IH. setoid_rewrite elem_of_cons. set_solver.
Qed.

Lemma elem_of_bt_values {V} (m : gmap bytes V) v : v ∈ bt_values m <-> exists k, m !! k = Some v.
Proof.
  unfold bt_values. rewrite list_elem_of_fmap. split.
  - intros ([k w] & -> & H%elem_of_bt_list). eauto.
  - intros [k H]. exists (k, v). by rewrite elem_of_bt_list.
Qed.

Lemma dag_heads_spec d x :
  x ∈ dag_heads d <-> x ∈ dom (dag_ops d) /\ forall y, ~ edge (dag_parents d) y x.
Proof.
  unfold dag_heads. rewrite elem_of_list_to_set, list_elem_of_filter, elem_of_bt_keys.
  rewrite elem_of_foldl_union, elem_of_dom. setoid_rewrite elem_of_bt_values.
  unfold edge. set_solver.
Qed.

(** Every operation lies below some head. *)
Lemma head_above d x :
  dag_wf d -> x ∈ dom (dag_ops d) ->
  exists h, h ∈ dag_heads d /\ rtc (edge (dag_parents d)) h x.
Proof.
  intros Hwf Hx. destruct (max_above d (fun o => o ∈ dom (dag_ops d)) x Hwf Hx)
    as (h & Hh & Hxh & Hmax).
  exists h. split.
  - apply dag_heads_spec. split; [done|]. intros y Hyh. assert (precedes d h y = true) as Hp.
    { apply precedes_spec; [done|]. by apply tc_once. }
    rewrite Hmax in Hp; [done|]. rewrite <- (wf_dom d Hwf).
    destruct Hyh as (ps & Hps & _). by eapply elem_of_dom_2.
  - destruct Hxh as [->|Hp]; [done|]. apply precedes_spec in Hp; [|done]. by apply tc_rtc.
Qed.

(** The heads summarise the graph: their causal closure, which repair
    advertisements rely on, is the whole set of stored operations. *)
Theorem heads_cover d :
  dag_wf d -> causal_closure d (bt_elems (dag_heads d)) = dom (dag_ops d).
Proof.
  intros Hwf. apply set_eq. intros x. rewrite causal_closure_spec by done. split.
  - intros (h & _ & Hd & Hr). apply rtc_tc in Hr as [<-|Ht]; [done|]. by eapply tc_edge_dom.
  - intros Hx. destruct (head_above d x Hwf Hx) as (h & Hh & Hr).
    exists h. split_and!; [by apply elem_of_bt_elems| |done].
    by apply dag_heads_spec in Hh as [? _].
Qed.

(** ** Compaction *)

(** The links leaving dropped nodes, which the rewiring loop follows. *)
Definition links_of (parents : gmap Oid (gset Oid)) (dropped : gset Oid) :=
  filter (fun kv => kv.1 ∈ dropped) parents.

Lemma weight_links parents dropped seen :
  weight (links_of parents dropped) seen <= weight parents seen.
Proof.
  induction parents as [|k ps m Hk IH] using map_ind; [done|].
  rewrite (weight_insert m) by done. unfold links_of in *. rewrite map_filter_insert. simpl.
  case_decide as Hd.
  - rewrite weight_insert; [lia|]. by apply map_lookup_filter_None_2; left.
  - rewrite delete_id by done. lia.
Qed.

Lemma stack_links parents dropped cur :
  stack_of (links_of parents dropped !! cur)
  = if decide (cur ∈ dropped) then stack_of (parents !! cur) else [].
Proof.
  unfold links_of. rewrite map_lookup_filter. destruct (parents !! cur); simpl.
  - by repeat case_decide; repeat case_guard.
  - by case_decide.
Qed.

Lemma rewire_loop_walk parents dropped fuel stack seen :
  rewire_loop parents dropped fuel stack seen (seen ∖ dropped)
  = walk (links_of parents dropped) fuel stack seen ∖ dropped.
Proof.
  revert stack seen. induction fuel as [|fuel IH]; intros stack seen; simpl; [done|].
  destruct stack as [|cur stack]; [done|]. case_decide; [apply IH|].
  rewrite stack_links. case_decide; rewrite <- IH; f_equal; set_solver.
Qed.

Lemma edge_links parents dropped x y :
  edge (links_of parents dropped) x y <-> x ∈ dropped /\ edge parents x y.
Proof.
  unfold edge, links_of. setoid_rewrite map_lookup_filter_Some. simpl. naive_solver.
Qed.

(** Rewiring one survivor: the nearest survivors below it. *)
Lemma rewire_spec parents dropped o x :
  x ∈ rewire parents dropped o <->
  x ∉ dropped /\
  exists s, edge parents o s /\ rtc (edge (links_of parents dropped)) s x.
Proof.
  unfold rewire. set (stack := stack_of (parents !! o)).
  replace (∅ : gset Oid) with ((∅ : gset Oid) ∖ dropped) at 2 by set_solver.
  rewrite rewire_loop_walk, elem_of_difference.
  destruct (walk_correct (links_of parents dropped) (walk_fuel parents stack) stack ∅)
    as (H1 & H2 & H3); [|set_solver|].
  { unfold walk_fuel. pose proof (weight_links parents dropped ∅). lia. }
  setoid_rewrite <- stack_edge. fold stack. split.
  - intros [Hx Hd]. split; [done|]. destruct (H3 x Hx) as [?|?]; set_solver.
  - intros [Hd (s & Hs & Hr)]. split; [|done].
    assert (s ∈ walk (links_of parents dropped) (walk_fuel parents stack) stack ∅) as Hw
      by (apply H1; by right).
    clear Hs. induction Hr; eauto.
Qed.

Lemma lookup_foldl_insert {V} (f : Oid -> V) (l : list Oid) (m : gmap Oid V) k :
  foldl (fun m o => <[o := f o]> m) m l !! k = if decide (k ∈ l) then Some (f k) else m !! k.
Proof.
  revert m. induction l as [|o l IH]; intros m; simpl; [done|]. rewrite IH.
  destruct (decide (k ∈ l)); [by rewrite decide_True by set_solver|].
  destruct (decide (k = o)) as [->|]; [rewrite decide_True, lookup_insert_eq by set_solver; done|].
  by rewrite decide_False, lookup_insert_ne by set_solver.
Qed.

Lemma lookup_foldl_delete {V} (l : list Oid) (m : gmap Oid V) k :
  foldl (fun m o => delete o m) m l !! k = if decide (k ∈ l) then None else m !! k.
Proof.
  revert m. induction l as [|o l IH]; intros m; simpl; [done|]. rewrite IH.
  destruct (decide (k ∈ l)); [by rewrite decide_True by set_solver|].
  destruct (decide (k = o)) as [->|]; [rewrite decide_True, lookup_delete_eq by set_solver; done|].
  by rewrite decide_False, lookup_delete_ne by set_solver.
Qed.

(** What [compact] leaves, whichever branch it takes. *)
Lemma compact_ops keep d k :
  dag_ops (compact keep d) !! k = if decide (k ∈ keep) then dag_ops d !! k else None.
Proof.
  unfold compact. set (drop := filter _ _).
  assert (k ∈ drop <-> k ∉ keep /\ is_Some (dag_ops d !! k)) as Hk.
  { subst drop. by rewrite list_elem_of_filter, elem_of_bt_keys. }
  destruct drop as [|o rest] eqn:E.
  - case_decide; [done|]. apply eq_None_not_Some. set_solver.
  - cbn [dag_ops]. rewrite <- E in *. rewrite lookup_foldl_delete.
    repeat case_decide; try done.
    + by apply Hk in H as [? _].
    + apply eq_None_not_Some. naive_solver.
Qed.

Definition dropped_of (keep : gset Oid) (d : Dag) : gset Oid := dom (dag_ops d) ∖ keep.

Lemma compact_parents keep d k :
  dom (dag_parents d) = dom (dag_ops d) -> dropped_of keep d <> ∅ ->
  dag_parents (compact keep d) !! k =
  if decide (k ∈ dom (dag_ops d) ∩ keep)
  then Some (rewire (dag_parents d) (dropped_of keep d) k) else None.
Proof.
  intros Hd Hne. unfold compact. set (drop := filter (fun o => o ∉ keep) _).
  assert (list_to_set drop = dropped_of keep d) as Hdrop.
  { apply set_eq. intros x. subst drop. unfold dropped_of.
    rewrite elem_of_list_to_set, list_elem_of_filter, elem_of_bt_keys, elem_of_difference,
      elem_of_dom. naive_solver. }
  destruct drop as [|o rest] eqn:E; [by destruct Hne|].
  cbn [dag_parents]. rewrite <- E in *. rewrite lookup_foldl_insert, Hdrop, lookup_empty.
  rewrite (decide_ext (k ∈ filter _ _) (k ∈ dom (dag_ops d) ∩ keep)); [done|].
  rewrite list_elem_of_filter, elem_of_bt_keys, elem_of_intersection, elem_of_dom. naive_solver.
Qed.

Lemma compact_id keep d : dropped_of keep d = ∅ -> compact keep d = d.
Proof.
  intros He. unfold compact. destruct (filter _ _) as [|o l] eqn:E; [done|].
  exfalso. assert (o ∈ dropped_of keep d) as Ho; [|rewrite He in Ho; set_solver].
  assert (o ∈ filter (fun o => o ∉ keep) (bt_keys (dag_ops d))) as H by (rewrite E; set_solver).
  rewrite list_elem_of_filter, elem_of_bt_keys in H. unfold dropped_of.
  rewrite elem_of_difference, elem_of_dom. naive_solver.
Qed.

Section compaction.
Context (keep : gset Oid) (d : Dag) (Hwf : dag_wf d) (Hne : dropped_of keep d <> ∅).
#[local] Abbreviation E := (edge (dag_parents d)).
#[local] Abbreviation E' := (edge (dag_parents (compact keep d))).
#[local] Abbreviation skip := (edge (links_of (dag_parents d) (dropped_of keep d))).

Lemma compact_edge x y :
  E' x y <-> x ∈ dom (dag_ops d) ∩ keep /\ y ∉ dropped_of keep d /\
             exists s, E x s /\ rtc skip s y.
Proof using Hwf Hne.
  unfold edge at 1. rewrite compact_parents by (done || apply (wf_dom d Hwf)).
  case_decide as Hd.
  - split.
    + intros (ps & [= <-] & Hy%rewire_spec). done.
    + intros (_ & Hy). eexists. split; [done|]. by apply rewire_spec.
  - split; [by intros (? & ? & _)|]. by intros [? _].
Qed.

Lemma skip_rtc s y : rtc skip s y -> rtc E s y.
Proof using Type. apply rtc_subrel. by intros a b [_ ?]%edge_links. Qed.

Lemma compact_edge_tc x y : E' x y -> tc E x y.
Proof using Hwf Hne.
  intros (_ & _ & s & Hs & Hr)%compact_edge. eapply tc_rtc_r; [by apply tc_once|].
  by apply skip_rtc.
Qed.

Lemma survivor y x : tc E x y -> y ∉ dropped_of keep d -> y ∈ dom (dag_ops d) ∩ keep.
Proof using Hwf Hne.
  intros Ht Hy. apply (tc_edge_dom d) in Ht as [_ Ht]; [|done].
  unfold dropped_of in Hy. destruct (decide (y ∈ keep)); set_solver.
Qed.

(** From any node on a path to a survivor, the first survivor met is linked to
    the target in the compacted graph. *)
Lemma compact_path x y :
  tc E x y -> y ∉ dropped_of keep d ->
  exists z, z ∉ dropped_of keep d /\ (exists s, E x s /\ rtc skip s z) /\
            (z = y \/ tc E' z y).
Proof using Hwf Hne.
  intros Ht Hy. induction Ht as [x y Hxy|x w y Hxw Hwy IH].
  - exists y. split_and!; [done| |by left]. eauto using rtc_refl.
  - destruct (IH Hy) as (z & Hz & (s & Hws & Hsz) & Hzy).
    destruct (decide (w ∈ dropped_of keep d)) as [Hw|Hw].
    + exists z. split_and!; [done| |done]. exists w. split; [done|].
      eapply rtc_l; [|done]. by apply edge_links.
    + exists w. split_and!; [done|eauto using rtc_refl|right].
      assert (E' w z) as Hwz.
      { apply compact_edge. split_and!; [|done|by eauto].
        eapply survivor; [by apply tc_once|done]. }
      destruct Hzy as [->|Hzy]; [by apply tc_once|by eapply tc_l].
Qed.

Lemma compact_tc a b :
  a ∈ dom (dag_ops d) ∩ keep -> b ∈ keep -> tc E' a b <-> tc E a b.
Proof using Hwf Hne.
  intros Ha Hb. split.
  - intros Ht. induction Ht; [by apply compact_edge_tc|].
    eapply tc_trans; [by apply compact_edge_tc|]. apply IHHt; [|done].
    eapply survivor; [by apply compact_edge_tc|].
    by apply compact_edge in H as (_ & ? & _).
  - intros Ht. destruct (compact_path a b Ht) as (z & Hz & Hs & Hzb); [unfold dropped_of; set_solver|].
    assert (E' a z) by by apply compact_edge.
    destruct Hzb as [->|Hzb]; [by apply tc_once|by eapply tc_l].
Qed.

Lemma compact_acyclic x : sn E' x.
Proof using Hwf Hne.
  assert (forall a, sn (tc E) a) as Hsn.
  { intros a. induction (wf_acyclic d Hwf a) as [a _ IH]. constructor. intros b Hb.
    inversion Hb as [? ? Hab|? c ? Hac Hcb]; subst; [by apply IH|].
    destruct (IH c Hac) as [Hc]. by apply Hc. }
  induction (Hsn x) as [a _ IH]. constructor. intros b Hb. by apply IH, compact_edge_tc.
Qed.
End compaction.

Lemma compact_dom keep d : dom (dag_ops (compact keep d)) = dom (dag_ops d) ∩ keep.
Proof.
  apply set_eq. intros k. rewrite elem_of_intersection, !elem_of_dom, compact_ops.
  case_decide; [naive_solver|]. rewrite is_Some_alt. naive_solver.
Qed.

Lemma compact_wf keep d : dag_wf d -> dag_wf (compact keep d).
Proof.
  intros Hwf. destruct (decide (dropped_of keep d = ∅)) as [He|He].
  { by rewrite compact_id. }
  pose proof (compact_dom keep d) as Hdom. split.
  - rewrite Hdom. apply set_eq. intros k. rewrite elem_of_dom, compact_parents
      by (done || apply (wf_dom d Hwf)). case_decide; [naive_solver|].
    rewrite is_Some_alt. naive_solver.
  - intros x y Hxy. rewrite Hdom. eapply survivor; [done|done|by eapply (compact_edge_tc keep)|].
    by apply compact_edge in Hxy as (_ & ? & _).
  - by apply compact_acyclic.
  - intros o op. rewrite compact_ops. case_decide; [|done]. apply (wf_oid d Hwf).
  - etrans; [|apply (wf_size d Hwf)]. unfold dag_len. rewrite <- !size_dom, Hdom.
    pose proof (subseteq_size (dom (dag_ops d) ∩ keep) (dom (dag_ops d))). set_solver by lia.
  - intros o s. unfold compact. destruct (filter _ _) as [|o' l] eqn:E.
    + exfalso. apply He. apply set_eq. intros x. split; [|set_solver].
      unfold dropped_of. intros [Hx Hk]%elem_of_difference.
      assert (x ∈ filter (fun o => o ∉ keep) (bt_keys (dag_ops d))) as H; [|rewrite E in H; set_solver].
      by rewrite list_elem_of_filter, elem_of_bt_keys, <- elem_of_dom.
    + cbn [dag_cache]. by rewrite lookup_empty.
Qed.

(** [compact] keeps exactly the requested operations, leaves a well-formed
    graph, and does not change the precedence of any two of them. *)
Theorem compact_correct keep d :
  dag_wf d ->
  dag_wf (compact keep d) /\
  dom (dag_ops (compact keep d)) = dom (dag_ops d) ∩ keep /\
  forall a b, a ∈ dom (dag_ops d) ∩ keep -> b ∈ dom (dag_ops d) ∩ keep ->
    precedes (compact keep d) a b = precedes d a b.
Proof.
  intros Hwf. split_and!; [by apply compact_wf|apply compact_dom|]. intros a b Ha Hb.
  apply eq_bool_prop_intro. rewrite !Is_true_true, !precedes_spec by auto using compact_wf.
  destruct (decide (dropped_of keep d = ∅)) as [He|He]; [by rewrite compact_id|].
  apply compact_tc; set_solver.
Qed.

(** ** Topological order *)

Definition kids (m : gmap Oid (list Oid)) (p : Oid) : list Oid := default [] (m !! p).

Lemma kids_push m oid l p :
  NoDup l ->
  kids (foldl (push_child oid) m l) p = kids m p ++ (if decide (p ∈ l) then [oid] else []).
Proof.
  revert m. induction l as [|q l IH]; intros m Hnd; simpl; [by rewrite app_nil_r|].
  apply NoDup_cons in Hnd as [Hq Hnd]. rewrite IH by done.
  unfold kids, push_child. destruct (decide (p = q)) as [->|Hpq].
  - rewrite lookup_insert_eq. cbn [default]. rewrite decide_False by done.
    rewrite decide_True by set_solver. by rewrite app_nil_r.
  - rewrite lookup_insert_ne by done. f_equal.
    by rewrite (decide_ext (p ∈ q :: l) (p ∈ l)) by set_solver.
Qed.

Lemma kids_fold (l : list (Oid * gset Oid)) m p :
  kids (foldl (fun m '(oid, ps) => foldl (push_child oid) m (bt_elems ps)) m l) p
  = kids m p ++ (filter (fun kv => p ∈ kv.2) l).*1.
Proof.
  revert m. induction l as [|[c ps] l IH]; intros m; simpl; [by rewrite app_nil_r|].
  rewrite IH, kids_push by apply bt_elems_NoDup. rewrite <- app_assoc. f_equal.
  rewrite filter_cons. cbn [snd].
  rewrite (decide_ext (p ∈ bt_elems ps) (p ∈ ps)) by apply elem_of_bt_elems.
  by case_decide.
Qed.

Lemma children_spec parents p :
  NoDup (kids (children_of parents) p) /\
  forall c, c ∈ kids (children_of parents) p <-> edge parents c p.
Proof.
  unfold children_of. rewrite kids_fold. unfold kids at 1 2. rewrite lookup_empty. simpl. split.
  - eapply sublist_NoDup; [apply (bt_list_NoDup_fst parents)|]. apply fmap_sublist, sublist_filter.
  - intros c. rewrite list_elem_of_fmap. unfold edge. split.
    + intros ([k ps] & -> & [Hp Hin%elem_of_bt_list]%list_elem_of_filter). eauto.
    + intros (ps & Hc & Hp). exists (c, ps). split; [done|].
      rewrite list_elem_of_filter, elem_of_bt_list. done.
Qed.

Lemma release_fold cs indeg ready :
  NoDup cs -> (forall c, c ∈ cs -> exists n, indeg !! c = Some (S n)) ->
  exists new, (foldl release (indeg, ready) cs).2 = new ++ ready /\ NoDup new /\
    (forall c, c ∈ new <-> c ∈ cs /\ indeg !! c = Some 1) /\
    forall c, (foldl release (indeg, ready) cs).1 !! c
              = if decide (c ∈ cs) then pred <$> indeg !! c else indeg !! c.
Proof.
  revert indeg ready. induction cs as [|c cs IH]; intros indeg ready Hnd Hpos; simpl.
  { exists []. split_and!; [done|constructor|set_solver|done]. }
  apply NoDup_cons in Hnd as [Hc Hnd]. destruct (Hpos c) as [n Hn]; [set_solver|].
  rewrite Hn. cbn [pred].
  destruct (IH (<[c := n]> indeg) (if decide (n = 0) then c :: ready else ready))
    as (new & H1 & H2 & H3 & H4); [done| |].
  { intros c' Hc'. rewrite lookup_insert_ne by set_solver. apply Hpos. set_solver. }
  assert (forall c', c' ∈ cs -> <[c := n]> indeg !! c' = indeg !! c') as Hne.
  { intros c' Hc'. rewrite lookup_insert_ne by set_solver. done. }
  exists (new ++ if decide (n = 0) then [c] else []). split_and!.
  - rewrite H1, <- app_assoc. by case_decide.
  - apply NoDup_app. split_and!; [done| |case_decide; repeat constructor; set_solver].
    intros x [Hx _]%H3. case_decide; set_solver.
  - intros x. rewrite elem_of_app, H3, elem_of_cons.
    destruct (decide (x = c)) as [->|Hxc].
    + rewrite Hn. case_decide; naive_solver set_solver.
    + rewrite lookup_insert_ne by done. case_decide; set_solver.
  - intros x. rewrite H4. destruct (decide (x = c)) as [->|Hxc].
    + rewrite decide_False, lookup_insert_eq by done. rewrite decide_True by set_solver.
      by rewrite Hn.
    + rewrite lookup_insert_ne by done.
      by rewrite (decide_ext (x ∈ c :: cs) (x ∈ cs)) by set_solver.
Qed.

(** [out] lists every operation after its parents. *)
Definition respects (parents : gmap Oid (gset Oid)) (out : list Oid) : Prop :=
  forall pre x post, out = pre ++ x :: post -> forall y, edge parents x y -> y ∈ pre.

(** Invariant of the main loop. *)
Record kahn_inv (parents : gmap Oid (gset Oid)) (indeg : gmap Oid nat)
    (ready out : list Oid) : Prop := {
  kn_deg c : indeg !! c = (fun ps => size (ps ∖ list_to_set out)) <$> parents !! c;
  kn_nodup : NoDup (out ++ ready);
  kn_zero c : indeg !! c = Some 0 <-> c ∈ out ++ ready;
  kn_order : respects parents out;
}.

Lemma respects_snoc parents out cur :
  respects parents out -> (forall y, edge parents cur y -> y ∈ out) ->
  respects parents (out ++ [cur]).
Proof.
  intros Hr Hcur pre x post Heq y Hy.
  destruct post as [|z post] using rev_ind.
  - apply app_inj_tail in Heq as [-> ->]. auto.
  - rewrite app_comm_cons, app_assoc in Heq. apply app_inj_tail in Heq as [-> _].
    by eapply Hr.
Qed.

Lemma size_remove (ps : gset Oid) out cur :
  cur ∉ out ->
  size (ps ∖ list_to_set out)
  = (if decide (cur ∈ ps) then 1 else 0) + size (ps ∖ list_to_set (out ++ [cur])).
Proof.
  intros Hc. case_decide as Hd.
  - rewrite <- (size_singleton cur (C := gset Oid)), <- size_union by set_solver.
    f_equal. apply set_eq. intros x. destruct (decide (x = cur)); set_solver.
  - simpl. f_equal. set_solver.
Qed.

Section kahn_loop.
Context (d : Dag) (Hwf : dag_wf d).
#[local] Abbreviation Pm := (dag_parents d).

(** One iteration of the main loop. *)
Lemma kahn_step indeg cur ready out :
  kahn_inv Pm indeg (cur :: ready) out ->
  let st := foldl release (indeg, ready) (kids (children_of Pm) cur) in
  kahn_inv Pm st.1 st.2 (out ++ [cur]).
Proof using Hwf.
  intros [Hdeg Hnd Hz Ho]. destruct (children_spec Pm cur) as [Hcs Hkids].
  assert (cur ∉ out) as Hcur by (apply NoDup_app in Hnd as (_ & H & _); set_solver).
  assert (forall c, c ∈ kids (children_of Pm) cur -> exists n, indeg !! c = Some (S n)) as Hpos.
  { intros c (ps & Hps & Hin)%Hkids. rewrite Hdeg, Hps. simpl.
    rewrite (size_remove ps out cur), decide_True by done. eauto. }
  destruct (release_fold _ indeg ready Hcs Hpos) as (new & H1 & H2 & H3 & H4).
  assert (forall c, c ∈ new -> c ∉ out ++ cur :: ready) as Hfresh.
  { intros c [_ Hc]%H3 Hin%Hz. congruence. }
  cbn zeta. rewrite H1. split.
  - intros c. rewrite H4, Hdeg. destruct (Pm !! c) as [ps|] eqn:Hps; simpl; [|by case_decide].
    rewrite (size_remove ps out cur) by done.
    rewrite (decide_ext (c ∈ kids _ cur) (cur ∈ ps)); [by case_decide|].
    rewrite Hkids. unfold edge. naive_solver.
  - rewrite <- app_assoc, (Permutation_app_comm new). simpl.
    rewrite app_comm_cons, app_assoc. apply NoDup_app.
    split_and!; [done|set_solver|done].
  - intros c. rewrite H4. trans (c ∈ out ++ cur :: ready \/ c ∈ new); [|set_solver].
    rewrite <- Hz, H3. case_decide as Hc; [|naive_solver].
    destruct (Hpos c Hc) as [n Hn]. rewrite Hn. simpl. destruct n; naive_solver.
  - apply respects_snoc; [done|]. intros y (ps & Hps & Hy).
    assert (indeg !! cur = Some 0) as Hc0 by (apply Hz; set_solver).
    rewrite Hdeg, Hps in Hc0. injection Hc0 as Hc0. apply size_empty_inv in Hc0. set_solver.
Qed.

Lemma kahn_in_dom indeg ready out c :
  kahn_inv Pm indeg ready out -> c ∈ out ++ ready -> c ∈ dom (dag_ops d).
Proof using Hwf.
  intros [Hdeg _ Hz _] Hc%Hz. rewrite Hdeg in Hc. rewrite <- (wf_dom d Hwf).
  apply elem_of_dom. destruct (Pm !! c); naive_solver.
Qed.

Lemma kahn_length indeg ready out :
  kahn_inv Pm indeg ready out -> length (out ++ ready) <= size (dag_ops d).
Proof using Hwf.
  intros HI. rewrite <- size_dom, <- (size_list_to_set (C := gset Oid) (out ++ ready))
    by apply HI.
  apply subseteq_size. intros c. rewrite elem_of_list_to_set. by apply (kahn_in_dom indeg).
Qed.

(** When nothing is ready, acyclicity leaves nothing behind. *)
Lemma kahn_done indeg out c :
  kahn_inv Pm indeg [] out -> c ∈ dom (dag_ops d) -> c ∈ out.
Proof using Hwf.
  intros [Hdeg _ Hz _]. induction (wf_acyclic d Hwf c) as [c _ IH]. intros Hc.
  rewrite <- (wf_dom d Hwf) in Hc. apply elem_of_dom in Hc as [ps Hps].
  rewrite <- (app_nil_r out). apply Hz. rewrite Hdeg, Hps. simpl. f_equal.
  apply size_empty_iff. intros y. rewrite elem_of_difference, elem_of_list_to_set.
  split; [|set_solver]. intros [Hy Hn]. destruct Hn. apply IH.
  - by exists ps.
  - eapply (wf_closed d Hwf). by exists ps.
Qed.

Lemma kahn_correct fuel indeg ready out :
  size (dag_ops d) < fuel + length out -> kahn_inv Pm indeg ready out ->
  let res := kahn (children_of Pm) fuel indeg ready out in
  NoDup res /\ (forall c, c ∈ res <-> c ∈ dom (dag_ops d)) /\ respects Pm res.
Proof using Hwf.
  revert indeg ready out. induction fuel as [|fuel IH]; intros indeg ready out Hf HI.
  { pose proof (kahn_length _ _ _ HI) as Hl. rewrite length_app in Hl. lia. }
  destruct ready as [|cur ready]; simpl.
  - pose proof (kn_nodup _ _ _ _ HI) as Hnd. rewrite app_nil_r in Hnd.
    split_and!; [done| |apply HI]. intros c. split; [|by eapply kahn_done].
    intros Hc. eapply kahn_in_dom; [done|]. by rewrite app_nil_r.
  - pose proof (kahn_step _ _ _ _ HI) as HI'. unfold kids in HI'.
    destruct (children_of Pm !! cur) as [cs|]; simpl in HI'.
    + destruct (foldl release (indeg, ready) cs) as [indeg' ready'].
      apply IH; [rewrite length_app; simpl; lia|done].
    + apply IH; [rewrite length_app; simpl; lia|done].
Qed.
End kahn_loop.

Lemma topological_init d :
  dag_wf d ->
  let indeg : gmap Oid nat :=
    list_to_map ((fun o => (o, match dag_parents d !! o with
                               | Some ps => size ps | None => 0 end)) <$> bt_keys (dag_ops d)) in
  kahn_inv (dag_parents d) indeg
    (rev (filter (fun o => indeg !! o = Some 0) (bt_keys indeg))) [].
Proof.
  intros Hwf indeg.
  assert (forall c, indeg !! c = size <$> dag_parents d !! c) as Hdeg.
  { intros c. subst indeg.
    pose (f o := match dag_parents d !! o with Some ps => size ps | None => 0 end).
    change (fun o => (o, _)) with (fun o => (o, f o)).
    assert (((fun o => (o, f o)) <$> bt_keys (dag_ops d)).*1 = bt_keys (dag_ops d)) as Hfst.
    { rewrite <- list_fmap_compose. apply list_fmap_id. }
    destruct (dag_parents d !! c) as [ps|] eqn:E; simpl.
    - apply elem_of_list_to_map; [rewrite Hfst; apply bt_elems_NoDup|].
      apply list_elem_of_fmap. exists c. unfold f. rewrite E. split; [done|].
      rewrite elem_of_bt_keys, <- elem_of_dom, <- (wf_dom d Hwf). by eapply elem_of_dom_2.
    - apply not_elem_of_list_to_map. rewrite Hfst, elem_of_bt_keys, <- elem_of_dom,
        <- (wf_dom d Hwf). by apply not_elem_of_dom. }
  split.
  - intros c. rewrite Hdeg. destruct (dag_parents d !! c); simpl; [|done]. do 2 f_equal. set_solver.
  - simpl. rewrite <- Permutation_rev. apply NoDup_filter, bt_elems_NoDup.
  - intros c. simpl. rewrite <- Permutation_rev, list_elem_of_filter, elem_of_bt_keys. naive_solver.
  - intros pre x post H. by destruct pre.
Qed.

Lemma topological_spec d :
  dag_wf d ->
  NoDup (topological d) /\ (forall c, c ∈ topological d <-> c ∈ dom (dag_ops d)) /\
  respects (dag_parents d) (topological d).
Proof.
  intros Hwf. apply kahn_correct; [done|simpl; lia|]. by apply topological_init.
Qed.

(** [topological] lists every stored operation exactly once, each one after
    all the operations that causally precede it. *)
Theorem topological_order d :
  dag_wf d ->
  topological d ≡ₚ dag_oids d /\
  forall pre x post, topological d = pre ++ x :: post ->
    forall y, precedes d y x = true -> y ∈ pre.
Proof.
  intros Hwf. destruct (topological_spec d Hwf) as (Hnd & Hin & Hr). split.
  - apply NoDup_Permutation; [done|apply bt_elems_NoDup|]. intros c.
    unfold dag_oids. by rewrite Hin, elem_of_bt_keys, elem_of_dom.
  - intros pre x post Heq y Hy%precedes_spec; [|done]. revert pre post Heq.
    induction Hy as [x y Hxy|x z y Hxz Hzy IH]; intros pre post Heq; [by eapply Hr|].
    pose proof (Hr pre x post Heq z Hxz) as (pre1 & pre2 & ->)%list_elem_of_split.
    assert (y ∈ pre1); [|set_solver].
    eapply IH. rewrite Heq, <- app_assoc. done.
Qed.

(** ** Growth and delivery order *)

Definition dag_extends (d d' : Dag) : Prop :=
  dag_ops d ⊆ dag_ops d' /\ dag_parents d ⊆ dag_parents d'.

Lemma dag_add_extends op d r d' : dag_wf d -> dag_add op d = (r, d') -> dag_extends d d'.
Proof.
  intros Hwf [(_ & _ & ->)|[(_ & _ & _ & ->)|(Hl & Hn & _ & Ho & Hp & Hc & _)]]%dag_add_cases;
    [done..|].
  split; rewrite ?Ho, ?Hp; apply insert_subseteq; [done|].
  apply not_elem_of_dom. rewrite (wf_dom d Hwf). by apply not_elem_of_dom.
Qed.

(** Parents of a stored operation never change as the graph grows. *)
Lemma extends_edge d d' x y :
  dag_wf d -> dag_extends d d' -> x ∈ dom (dag_ops d) ->
  edge (dag_parents d') x y <-> edge (dag_parents d) x y.
Proof.
  intros Hwf [_ Hsub] Hx. rewrite <- (wf_dom d Hwf) in Hx. apply elem_of_dom in Hx as [ps Hps].
  pose proof (lookup_weaken _ _ _ _ Hps Hsub) as Hps'. unfold edge. rewrite Hps, Hps'. done.
Qed.

Lemma extends_tc d d' x y :
  dag_wf d -> dag_extends d d' -> x ∈ dom (dag_ops d) ->
  tc (edge (dag_parents d')) x y <-> tc (edge (dag_parents d)) x y.
Proof.
  intros Hwf He Hx. split; intros Ht; revert Hx.
  - induction Ht as [x y H|x z y H _ IH]; intros Hx.
    + apply tc_once. by apply (extends_edge d d').
    + apply (extends_edge d d') in H; [|done..]. eapply tc_l; [done|]. apply IH.
      by eapply wf_closed.
  - induction Ht as [x y H|x z y H _ IH]; intros Hx.
    + apply tc_once. by apply (extends_edge d d').
    + eapply tc_l; [by apply (extends_edge d d')|]. apply IH. by eapply wf_closed.
Qed.

Lemma extends_past d d' o :
  dag_wf d -> dag_wf d' -> dag_extends d d' -> o ∈ dom (dag_ops d) ->
  past_of d' o = past_of d o.
Proof.
  intros Hwf Hwf' He Ho. apply set_eq. intros x. rewrite !past_of_spec by done.
  by apply extends_tc.
Qed.

(** Delivers operations in order, each with its dependencies already present,
    as a participant does; [None] when one of them is refused. *)
Fixpoint deliver (l : list Op) (d : Dag) : option Dag :=
  match l with
  | [] => Some d
  | op :: l =>
      if deps_satisfied d op then
        match dag_add op d with
        | (Ok _, d) => deliver l d
        | (Err _, _) => None
        end
      else None
  end.

Lemma deliver_spec l d d' :
  deliver l d = Some d' -> dag_wf d -> dag_exact d ->
  dag_wf d' /\ dag_exact d' /\ dag_ops d ⊆ dag_ops d' /\
  (forall o op, dag_ops d' !! o = Some op -> dag_ops d !! o = Some op \/ (op ∈ l /\ op_oid op = o)) /\
  (forall op, op ∈ l -> op_oid op ∈ dom (dag_ops d')).
Proof.
  revert d. induction l as [|op l IH]; intros d Hd Hwf He; simpl in Hd.
  { injection Hd as <-. split_and!; [done|done|reflexivity|by auto|set_solver]. }
  destruct (deps_satisfied d op) eqn:Hs; [|done].
  destruct (dag_add op d) as [[o|e] d1] eqn:Ha; [|done].
  destruct (IH d1 Hd (dag_add_wf _ _ _ _ Hwf Ha) (dag_add_exact _ _ _ _ He Hs Ha))
    as (H1 & H2 & H3 & H4 & H5).
  assert (op_oid op ∈ dom (dag_ops d1) /\
    forall o p, dag_ops d1 !! o = Some p -> dag_ops d !! o = Some p \/ (p = op /\ op_oid op = o))
    as [Hin Hcase].
  { apply dag_add_cases in Ha as [(_ & ? & _)|[(_ & ? & _ & ->)|(_ & Hn & _ & Ho & _)]]; [done|auto|].
    rewrite Ho. split; [set_solver|].
    intros o' p [[<- <-]|[? ?]]%lookup_insert_Some; auto. }
  destruct (dag_add_extends _ _ _ _ Hwf Ha) as [Hsub _].
  split_and!; [done|done|by etrans| |].
  - intros o' p Hp. destruct (H4 o' p Hp) as [Hp'|[? ?]]; [|set_solver].
    destruct (Hcase o' p Hp') as [?|[-> ?]]; [by left|right; set_solver].
  - intros p [->|Hp]%elem_of_cons; [|by apply H5].
    eapply subseteq_dom; done.
Qed.

Lemma deliver_new l d :
  deliver l dag_new = Some d -> dag_wf d /\ dag_exact d /\
  (forall o op, dag_ops d !! o = Some op -> op ∈ l /\ op_oid op = o) /\
  (forall op, op ∈ l -> op_oid op ∈ dom (dag_ops d)).
Proof.
  intros H. destruct (deliver_spec _ _ _ H dag_new_wf) as (H1 & H2 & _ & H4 & H5).
  { intros o op. cbn [dag_ops dag_new]. by rewrite lookup_empty. }
  split_and!; [done|done| |done]. intros o op Ho.
  destruct (H4 o op Ho) as [Hn|?]; [|done]. cbn [dag_ops dag_new] in Hn.
  by rewrite lookup_empty in Hn.
Qed.

Lemma exact_same_parents d d' :
  dag_wf d -> dag_wf d' -> dag_exact d -> dag_exact d' -> dag_ops d = dag_ops d' ->
  dag_parents d = dag_parents d'.
Proof.
  intros Hwf Hwf' He He' Heq. apply map_eq. intros o.
  destruct (dag_ops d !! o) as [op|] eqn:E.
  - rewrite (He o op E). rewrite Heq in E. by rewrite (He' o op E).
  - assert (dag_parents d !! o = None) as ->.
    { apply not_elem_of_dom. rewrite (wf_dom d Hwf). by apply not_elem_of_dom. }
    symmetry. apply not_elem_of_dom. rewrite (wf_dom d' Hwf'). rewrite <- Heq.
    by apply not_elem_of_dom.
Qed.

(** C30. Delivery order does not matter: two replicas that receive the same
    operations in any causally admissible orders hold the same graph, with the
    same heads, the same topological listing and the same precedence. *)
Theorem delivery_order_irrelevant l1 l2 d1 d2 :
  l1 ≡ₚ l2 ->
  (forall a b, a ∈ l1 -> b ∈ l1 -> op_oid a = op_oid b -> a = b) ->
  deliver l1 dag_new = Some d1 -> deliver l2 dag_new = Some d2 ->
  dag_ops d1 = dag_ops d2 /\ dag_parents d1 = dag_parents d2 /\
  dag_heads d1 = dag_heads d2 /\ topological d1 = topological d2 /\
  forall a b, precedes d1 a b = precedes d2 a b.
Proof.
  intros Hp Hinj (Hwf1 & He1 & Hin1 & Hall1)%deliver_new (Hwf2 & He2 & Hin2 & Hall2)%deliver_new.
  assert (dag_ops d1 = dag_ops d2) as Hops.
  { apply map_eq. intros o. apply option_eq. intros op. split; intros Ho.
    - destruct (Hin1 o op Ho) as [Hop <-].
      assert (op ∈ l2) as [q Hq]%Hall2%elem_of_dom by (by rewrite <- Hp).
      destruct (Hin2 _ _ Hq) as [Hq2 Heq]. rewrite Hq. f_equal. apply Hinj; [by rewrite Hp|done..].
    - destruct (Hin2 o op Ho) as [Hop <-].
      assert (op ∈ l1) as [q Hq]%Hall1%elem_of_dom by (by rewrite Hp).
      destruct (Hin1 _ _ Hq) as [Hq2 Heq]. rewrite Hq. f_equal. apply Hinj; [done| |done].
      by rewrite Hp. }
  pose proof (exact_same_parents d1 d2 Hwf1 Hwf2 He1 He2 Hops) as Hpar.
  split_and!; [done|done| | |].
  - unfold dag_heads. by rewrite Hops, Hpar.
  - unfold topological. by rewrite Hops, Hpar.
  - intros a b. apply eq_bool_prop_intro. by rewrite !Is_true_true, !precedes_spec, Hpar.
Qed.

(** ** Reachable graphs *)

(** The graphs the public interface can produce, memo included. *)
Inductive dag_reachable : Dag -> Prop :=
| reach_new : dag_reachable dag_new
| reach_add op d : dag_reachable d -> dag_reachable (dag_add op d).2
| reach_compact keep d : dag_reachable d -> dag_reachable (compact keep d)
| reach_query o d : dag_reachable d -> dag_reachable (ancestors d o).2.

(** Every graph reachable through the interface is well formed: parents are
    recorded for exactly the stored operations and point to stored operations,
    there is no cycle, keys are identifiers, the size ceiling holds and the
    memo is exact. *)
Theorem dag_reachable_wf d : dag_reachable d -> dag_wf d.
Proof.
  induction 1 as [|op d _ IH|keep d _ IH|o d _ IH].
  - apply dag_new_wf.
  - destruct (dag_add op d) as [r d'] eqn:E. by eapply dag_add_wf.
  - by apply compact_wf.
  - by apply ancestors_wf.
Qed.

(** [add] on every branch: a full graph refuses everything, operations it
    already holds included; otherwise a known identifier changes nothing and a
    new one is stored with exactly its known dependencies as parents. *)
Theorem dag_add_spec op d :
  if (MAX_OPS <=? dag_len d)%N
  then dag_add op d = (Err (LimitExceeded "operation graph full"), d)
  else exists d', dag_add op d = (Ok (op_oid op), d') /\
    (if decide (op_oid op ∈ dom (dag_ops d)) then d' = d else
     dag_ops d' = <[op_oid op := op]> (dag_ops d) /\
     dag_parents d' = <[op_oid op := op_deps op ∩ dom (dag_ops d)]> (dag_parents d) /\
     dag_epoch d' <> dag_epoch d).
Proof.
  destruct (dag_add op d) as [r d'] eqn:E.
  apply dag_add_cases in E as
    [(Hl & -> & ->)|[(Hl & Hin & -> & ->)|(Hl & Hn & -> & Ho & Hp & _ & He)]].
  - by rewrite (proj2 (N.leb_le _ _) Hl).
  - rewrite (proj2 (N.leb_gt _ _) Hl). exists d. by rewrite decide_True.
  - rewrite (proj2 (N.leb_gt _ _) Hl). exists d'. apply not_elem_of_dom in Hn.
    rewrite decide_False by done. split_and!; [done..|]. rewrite He. lia.
Qed.

(** ** Witnesses *)

Definition ex_oid (n : N) : Oid := array_of (byte_of n) 32.
Definition ex_node (n : N) (deps : gset Oid) : Op :=
  mkOp [] [] deps (PrekeyRequest []) [] [] (ex_oid n).
(** A diamond: 2 and 3 depend on 1, 4 depends on both. *)
Definition ex_nodes : list Op :=
  [ex_node 1 ∅; ex_node 2 {[ex_oid 1]}; ex_node 3 {[ex_oid 1]}; ex_node 4 {[ex_oid 2; ex_oid 3]}].
Definition ex_nodes' : list Op :=
  [ex_node 1 ∅; ex_node 3 {[ex_oid 1]}; ex_node 2 {[ex_oid 1]}; ex_node 4 {[ex_oid 2; ex_oid 3]}].
Definition ex_dag : Dag := default dag_new (deliver ex_nodes dag_new).

Lemma ex_dag_deliver : deliver ex_nodes dag_new = Some ex_dag.
Proof. apply default_is_some. by vm_compute. Qed.
Lemma ex_dag_wf : dag_wf ex_dag.
Proof. apply (deliver_new ex_nodes ex_dag), ex_dag_deliver. Qed.

Lemma ancestors_memo_witness :
  Forall2 (fun q s => forall x, x ∈ s <-> tc (edge (dag_parents ex_dag)) q x)
    [ex_oid 4; ex_oid 4; ex_oid 2] (queries ex_dag [ex_oid 4; ex_oid 4; ex_oid 2]).
Proof. apply (ancestors_memo ex_dag), ex_dag_wf. Defined.

Lemma precedes_strict_order_witness : StrictOrder (fun a b => precedes ex_dag a b = true).
Proof. apply (precedes_strict_order ex_dag), ex_dag_wf. Defined.

Lemma heads_cover_witness :
  causal_closure ex_dag (bt_elems (dag_heads ex_dag)) = dom (dag_ops ex_dag).
Proof. apply (heads_cover ex_dag), ex_dag_wf. Defined.

Lemma compact_correct_witness :
  precedes (compact {[ex_oid 1; ex_oid 4]} ex_dag) (ex_oid 1) (ex_oid 4) = true /\
  precedes (compact {[ex_oid 1; ex_oid 4]} ex_dag) (ex_oid 1) (ex_oid 4)
  = precedes ex_dag (ex_oid 1) (ex_oid 4).
Proof.
  split; [by vm_compute|].
  apply (compact_correct {[ex_oid 1; ex_oid 4]} ex_dag); [apply ex_dag_wf|..];
    apply (bool_decide_unpack _); by vm_compute.
Defined.

Lemma topological_order_witness : topological ex_dag ≡ₚ dag_oids ex_dag.
Proof. apply (topological_order ex_dag), ex_dag_wf. Defined.

Lemma delivery_order_irrelevant_witness :
  dag_heads ex_dag = dag_heads (default dag_new (deliver ex_nodes' dag_new)).
Proof.
  apply (delivery_order_irrelevant ex_nodes ex_nodes'); [| | |].
  - apply (Permutation_cons eq_refl). apply Permutation_swap.
  - intros a b. rewrite !list_elem_of_In. simpl.
    intros [<-|[<-|[<-|[<-|[]]]]] [<-|[<-|[<-|[<-|[]]]]]; try done; intros H; exfalso;
      revert H; apply (bool_decide_unpack _); by vm_compute.
  - apply ex_dag_deliver.
  - apply default_is_some. by vm_compute.
Defined.

Lemma dag_reachable_wf_witness : dag_wf (compact {[ex_oid 1]} dag_new).
Proof. apply dag_reachable_wf, reach_compact, reach_new. Defined.
