(* ===== verification/Membership.v ===== *)
(** * Causal membership ([crates/cfr-core/src/membership.rs])

    Remove-wins membership over the operation graph, evaluated on the whole
    graph or on the causal past of one operation, and the authorisation
    decision.  [members_in_spec] states the rule declaratively; the cloning-free
    evaluation is proved equal to the induced-subgraph reference of the source,
    and verdicts are proved stable as the graph grows. *)

From Stdlib Require Import NArith Lia.
From S2P Require Import Prelude Crypto Codec Ops Dag.

Record Policy := mkPolicy {
  admins : gset SigPublic;
  quorum : N;
  max_ops_per_author : N;
}.

#[export] Instance Policy_eq_dec : EqDecision Policy.
Proof. solve_decision. Defined.

Definition policy_default : Policy := mkPolicy ∅ 2 200.
Definition policy_leaderless (quorum : N) : Policy := mkPolicy ∅ (N.max quorum 1) 200.

Record Membership := mkMembership {
  m_dag : Dag;
  m_policy : Policy;
  m_guilty : gset SigPublic;
}.

(** [keep.contains(oid)] when a subset is given. *)
Definition in_scope (keep : option (gset Oid)) (oid : Oid) : bool :=
  match keep with Some k => bool_decide (oid ∈ k) | None => true end.

Definition tally (m : Membership) (target : SigPublic) (keep : option (gset Oid))
    (st : gmap SigPublic Oid * list Oid) (e : Oid * Op) : gmap SigPublic Oid * list Oid :=
  let '(votes, proven) := st in
  let '(oid, op) := e in
  if negb (in_scope keep oid) then (votes, proven) else
  match op_body op with
  | Remove who =>
      if decide (who = target) then
        if bool_decide (op_author op = target) || bool_decide (op_author op ∈ admins (m_policy m))
        then (votes, proven ++ [oid])
        else (match votes !! op_author op with
              | Some _ => votes
              | None => <[op_author op := oid]> votes
              end, proven)
      else (votes, proven)
  | Accuse who _ _ _ =>
      if bool_decide (who = target) && bool_decide (target ∈ m_guilty m)
      then (votes, proven ++ [oid]) else (votes, proven)
  | _ => (votes, proven)
  end.

Definition counted_removes_in (m : Membership) (target : SigPublic)
    (keep : option (gset Oid)) : list Oid :=
  let '(votes, proven) := foldl (tally m target keep) (∅, []) (dag_iter (m_dag m)) in
  if (quorum (m_policy m) <=? N.of_nat (size votes))%N
  then proven ++ bt_values votes else proven.

(** [adds.entry(who).or_default().push(oid)] for each admission in scope. *)
Definition collect_add (keep : option (gset Oid)) (adds : gmap SigPublic (list Oid))
    (e : Oid * Op) : gmap SigPublic (list Oid) :=
  let '(oid, op) := e in
  if negb (in_scope keep oid) then adds else
  match op_body op with
  | Add who => <[who := default [] (adds !! who) ++ [oid]]> adds
  | _ => adds
  end.

Definition members_in (m : Membership) (keep : option (gset Oid)) : gset SigPublic :=
  let adds := foldl (collect_add keep) ∅ (dag_iter (m_dag m)) in
  foldl (fun live '(who, admissions) =>
           let removes := counted_removes_in m who keep in
           if existsb (fun admission =>
                forallb (fun removal => precedes (m_dag m) removal admission) removes) admissions
           then {[who]} ∪ live else live)
        ∅ (bt_list adds).

Definition members (m : Membership) : gset SigPublic := members_in m None.

(** The declared causal past of an operation, as far as it is known. *)
Definition declared_past (d : Dag) (op : Op) : gset Oid :=
  let oid := op_oid op in
  let past := if dag_contains d oid then past_of d oid else ∅ in
  foldl (fun past x => if dag_contains d x then {[x]} ∪ past ∪ past_of d x else past)
        past (bt_elems (op_deps op)).

Definition members_before (m : Membership) (op : Op) : gset SigPublic :=
  members_in m (Some (declared_past (m_dag m) op)).

(** The [#[cfg(test)]] reference: clone the induced subgraph and evaluate it. *)
Definition induced (d : Dag) (past : gset Oid) : Dag :=
  foldl (fun sub oid =>
           if decide (oid ∈ past) then
             match dag_get d oid with
             | Some operation => (dag_add operation sub).2
             | None => sub
             end
           else sub)
        dag_new (topological d).

Definition members_before_reference (m : Membership) (op : Op) : gset SigPublic :=
  members (mkMembership (induced (m_dag m) (declared_past (m_dag m) op))
             (m_policy m) (m_guilty m)).

Section roots.
Context {P : Primitives}.

Definition root_for_members (members : gset SigPublic) : bytes :=
  hash (bstr "cfr/members") (bt_elems members).

Definition root (m : Membership) : bytes := root_for_members (members m).
End roots.

(** A dependency-free self-admission. *)
Definition is_founding (o : Op) : bool :=
  bool_decide (op_kind o = KAdd) && bool_decide (op_deps o = ∅)
  && match op_body o with Add w => bool_decide (w = op_author o) | _ => false end.

Definition decide_op (m : Membership) (op : Op) (past : gset SigPublic) : bool :=
  match op_kind op with
  | KAdd =>
      if bool_decide (op_author op ∈ past) then true else
      match op_body op with
      | Add who =>
          bool_decide (who = op_author op) && bool_decide (op_deps op = ∅)
          && negb (existsb (fun '(_, o) => is_founding o
                              && bool_decide (op_author o <> op_author op))
                           (dag_iter (m_dag m)))
      | _ => false
      end
  | KRemove | KPrekeys | KContrib | KAccuse | KPrekeyRequest =>
      match op_body op with
      | Remove who =>
          if decide (who = op_author op) then true else bool_decide (op_author op ∈ past)
      | _ => bool_decide (op_author op ∈ past)
      end
  end.

Definition authorised (m : Membership) (op : Op) : bool :=
  decide_op m op (members_before m op).

(** ** The declarative rule *)

(** An eviction that counts on its own. *)
Definition is_proven (m : Membership) (target : SigPublic) (op : Op) : bool :=
  match op_body op with
  | Remove who =>
      bool_decide (who = target)
      && (bool_decide (op_author op = target) || bool_decide (op_author op ∈ admins (m_policy m)))
  | Accuse who _ _ _ => bool_decide (who = target) && bool_decide (target ∈ m_guilty m)
  | _ => false
  end.

(** An eviction that counts towards the quorum. *)
Definition is_vote (m : Membership) (target : SigPublic) (op : Op) : bool :=
  match op_body op with
  | Remove who =>
      bool_decide (who = target)
      && negb (bool_decide (op_author op = target)
               || bool_decide (op_author op ∈ admins (m_policy m)))
  | _ => false
  end.

Definition visible (m : Membership) (keep : option (gset Oid)) (o : Oid) (op : Op) : Prop :=
  dag_ops (m_dag m) !! o = Some op /\ in_scope keep o = true.

Definition votes_in (m : Membership) (target : SigPublic) (keep : option (gset Oid))
    : list (Oid * Op) :=
  filter (fun e => in_scope keep e.1 && is_vote m target e.2 = true) (dag_iter (m_dag m)).

Definition voters (m : Membership) (target : SigPublic) (keep : option (gset Oid))
    : gset SigPublic :=
  list_to_set ((fun e => op_author e.2) <$> votes_in m target keep).

(** Evictions that take effect: proven ones, and, once enough distinct members
    have voted, the least identified vote of each. *)
Definition counted (m : Membership) (target : SigPublic) (keep : option (gset Oid))
    (r : Oid) : Prop :=
  exists op, visible m keep r op /\
    (is_proven m target op = true \/
     (is_vote m target op = true /\
      (quorum (m_policy m) <= N.of_nat (size (voters m target keep)))%N /\
      forall r' op', visible m keep r' op' -> is_vote m target op' = true ->
        op_author op' = op_author op -> bytes_le r r')).

(** ** Folding over the graph *)

Lemma visible_iter m keep o op :
  visible m keep o op <-> (o, op) ∈ dag_iter (m_dag m) /\ in_scope keep o = true.
Proof. unfold visible, dag_iter. by rewrite elem_of_bt_list. Qed.

Lemma head_app {A} (l k : list A) :
  head (l ++ k) = match head l with Some x => Some x | None => head k end.
Proof. by destruct l. Qed.

Lemma head_is_Some {A B} (f : A -> B) (l : list A) :
  is_Some (head (f <$> l)) <-> exists x, x ∈ l.
Proof.
  destruct l as [|x l]; simpl; split; intros [y Hy].
  - done.
  - by apply not_elem_of_nil in Hy.
  - exists x. set_solver.
  - by eexists.
Qed.

Lemma tally_step m target keep votes proven oid op :
  tally m target keep (votes, proven) (oid, op)
  = (if in_scope keep oid && is_vote m target op
     then match votes !! op_author op with
          | Some _ => votes | None => <[op_author op := oid]> votes end
     else votes,
     if in_scope keep oid && is_proven m target op then proven ++ [oid] else proven).
Proof.
  unfold tally, is_vote, is_proven. destruct (in_scope keep oid); [|done]. cbn [negb andb].
  destruct (op_body op) as [who|who|gen pk|cid cps rs ss vw|who coid mk sq|ts]; try done.
  - repeat case_bool_decide; case_decide; by subst.
  - by destruct (bool_decide (who = target) && bool_decide (target ∈ m_guilty m)).
Qed.

Lemma tally_spec m target keep l :
  let st := foldl (tally m target keep) (∅, []) l in
  st.2 = (filter (fun e => in_scope keep e.1 && is_proven m target e.2 = true) l).*1 /\
  forall a, st.1 !! a =
    head (filter (fun e => op_author e.2 = a)
            (filter (fun e => in_scope keep e.1 && is_vote m target e.2 = true) l)).*1.
Proof.
  induction l as [|[oid op] l IH] using rev_ind; [done|].
  rewrite foldl_snoc, !filter_app. destruct (foldl _ _ l) as [votes proven].
  cbn [fst snd] in IH. destruct IH as [-> IH]. cbn zeta. rewrite tally_step. cbn [fst snd].
  split.
  - rewrite fmap_app, filter_cons, filter_nil. cbn [fst snd].
    destruct (in_scope keep oid && is_proven m target op); simpl; [done|by rewrite app_nil_r].
  - intros a. rewrite filter_app, fmap_app, head_app, <- IH, (filter_cons _ (oid, op)), filter_nil.
    cbn [fst snd]. destruct (in_scope keep oid && is_vote m target op); simpl;
      [|by destruct (votes !! a)].
    rewrite filter_cons, filter_nil. cbn [snd].
    destruct (decide (op_author op = a)) as [<-|Hne]; simpl.
    + destruct (votes !! op_author op) eqn:E; [done|]. by rewrite lookup_insert_eq.
    + destruct (votes !! op_author op); [by destruct (votes !! a)|].
      rewrite lookup_insert_ne by done. by destruct (votes !! a).
Qed.

(** The least of an author's votes is the one kept. *)
Lemma head_filter_least {V} (l : list (Oid * V)) (Q : Oid * V -> Prop) `{forall e, Decision (Q e)} o :
  StronglySorted bytes_lt l.*1 ->
  head (filter Q l).*1 = Some o <->
  (exists v, (o, v) ∈ l /\ Q (o, v)) /\ forall o' v', (o', v') ∈ l -> Q (o', v') -> bytes_le o o'.
Proof.
  induction l as [|[k v] l IH]; intros Hs.
  { split; [done|]. intros [(v & Hin & _) _]. set_solver. }
  apply StronglySorted_cons in Hs as [Hk Hs]. rewrite Forall_forall in Hk.
  rewrite filter_cons. case_decide as Hq; simpl.
  - split.
    + intros [= <-]. split; [exists v; set_solver|].
      intros o' v' [[= -> ->]|Hin]%elem_of_cons _; apply bytes_le_lt_eq; [by right|left].
      apply Hk, list_elem_of_fmap. by exists (o', v').
    + intros [(w & [[= -> ->]|Hin]%elem_of_cons & _) Hmin]; [done|].
      pose proof (Hmin k v ltac:(set_solver) Hq) as Hle. f_equal.
      apply (anti_symm bytes_le); [|done]. apply bytes_le_lt_eq. left.
      apply Hk, list_elem_of_fmap. by exists (o, w).
  - rewrite IH by done. split.
    + intros [(w & Hin & HQ) Hmin]. split; [exists w; set_solver|].
      intros o' v' [[= -> ->]|Hin']%elem_of_cons HQ'; [done|eauto].
    + intros [(w & [[= -> ->]|Hin]%elem_of_cons & HQ) Hmin]; [done|].
      split; [eauto|]. intros o' v' Hin' HQ'. eapply Hmin; [|done]. set_solver.
Qed.

Lemma dag_iter_sorted d : StronglySorted bytes_lt (dag_iter d).*1.
Proof. unfold dag_iter. rewrite bt_list_fst. apply bt_elems_sorted. Qed.

Section counting.
Context (m : Membership) (target : SigPublic) (keep : option (gset Oid)).
#[local] Abbreviation st := (foldl (tally m target keep) (∅, []) (dag_iter (m_dag m))).

Lemma elem_of_votes_in o op :
  (o, op) ∈ votes_in m target keep <-> visible m keep o op /\ is_vote m target op = true.
Proof using Type.
  unfold votes_in. rewrite list_elem_of_filter, visible_iter, andb_true_iff. simpl. naive_solver.
Qed.

Lemma vote_kept a o :
  st.1 !! a = Some o <->
  exists op, visible m keep o op /\ is_vote m target op = true /\ op_author op = a /\
    forall r' op', visible m keep r' op' -> is_vote m target op' = true ->
      op_author op' = a -> bytes_le o r'.
Proof using Type.
  destruct (tally_spec m target keep (dag_iter (m_dag m))) as [_ H]. rewrite H.
  rewrite list_filter_filter, head_filter_least by apply dag_iter_sorted.
  setoid_rewrite andb_true_iff. cbn [fst snd]. setoid_rewrite visible_iter. split.
  - intros [(v & Hin & <- & Hs & Hv) Hmin]. exists v. split_and!; try done.
    intros r' op' [Hr Hs'] Hv' Ha. by apply (Hmin r' op').
  - intros (op & [Hin Hs] & Hv & <- & Hmin). split; [by exists op|].
    intros o' v' Hin' (Ha & Hs' & Hv'). by apply (Hmin o' v').
Qed.

Lemma voters_dom : dom st.1 = voters m target keep.
Proof using Type.
  destruct (tally_spec m target keep (dag_iter (m_dag m))) as [_ H].
  apply set_eq. intros a. rewrite elem_of_dom, H, head_is_Some.
  unfold voters. rewrite elem_of_list_to_set, list_elem_of_fmap. unfold votes_in.
  split.
  - intros [e [<- He]%list_elem_of_filter]. by exists e.
  - intros (e & -> & He). exists e. by apply list_elem_of_filter.
Qed.

Lemma counted_removes_spec r : r ∈ counted_removes_in m target keep <-> counted m target keep r.
Proof using Type.
  unfold counted_removes_in, counted. pose proof vote_kept as Hkept. pose proof voters_dom as Hdom.
  destruct (tally_spec m target keep (dag_iter (m_dag m))) as [Hp _].
  destruct st as [votes proven]. cbn [fst snd] in *. rewrite <- Hdom, size_dom.
  assert (r ∈ proven <-> exists op, visible m keep r op /\ is_proven m target op = true) as Hpr.
  { rewrite Hp, list_elem_of_fmap. setoid_rewrite list_elem_of_filter.
    setoid_rewrite visible_iter. setoid_rewrite andb_true_iff. split.
    - intros ([o op] & -> & [? ?] & ?). by exists op.
    - intros (op & [? ?] & ?). by exists (r, op). }
  destruct (N.leb_spec (quorum (m_policy m)) (N.of_nat (size votes))) as [Hq|Hq].
  - rewrite elem_of_app, Hpr, elem_of_bt_values. setoid_rewrite Hkept. naive_solver.
  - rewrite Hpr. split; [naive_solver|]. intros (op & Hv & [?|(_ & ? & _)]); [eauto|lia].
Qed.
End counting.

(** ** The membership rule *)

Lemma collect_add_spec keep l who :
  default [] (foldl (collect_add keep) ∅ l !! who)
  = (filter (fun e => in_scope keep e.1 = true /\ op_body e.2 = Add who) l).*1.
Proof.
  induction l as [|[oid op] l IH] using rev_ind; [done|].
  rewrite foldl_snoc, filter_app, fmap_app, <- IH, filter_cons, filter_nil. cbn [fst snd].
  unfold collect_add at 1. destruct (in_scope keep oid) eqn:Hs; cbn [negb].
  - destruct (op_body op) as [w|w|gen pk|cid cps rs ss vw|w coid mk sq|ts];
      try (rewrite decide_False by (by intros [_ ?]); by rewrite app_nil_r).
    destruct (decide (w = who)) as [->|Hne].
    + rewrite lookup_insert_eq, decide_True by done. done.
    + rewrite lookup_insert_ne by done. rewrite decide_False by naive_solver.
      by rewrite app_nil_r.
  - rewrite decide_False by (by intros [? _]). by rewrite app_nil_r.
Qed.

Lemma elem_of_live {V} (f : SigPublic -> V -> bool) (l : list (SigPublic * V)) acc who :
  who ∈ foldl (fun live '(w, v) => if f w v then {[w]} ∪ live else live) acc l <->
  who ∈ (acc : gset SigPublic) \/ exists v, (who, v) ∈ l /\ f who v = true.
Proof.
  revert acc. induction l as [|[w v] l IH]; intros acc; simpl; [set_solver|].
  rewrite IH. destruct (f w v) eqn:E.
  - setoid_rewrite elem_of_cons. split; [set_solver|].
    intros [?|(v' & [[= -> ->]|?] & ?)]; set_solver.
  - setoid_rewrite elem_of_cons. split; [set_solver|].
    intros [?|(v' & [[= -> ->]|?] & ?)]; [by left|congruence|set_solver].
Qed.

Lemma members_in_spec m keep who :
  who ∈ members_in m keep <->
  exists a op, visible m keep a op /\ op_body op = Add who /\
    forall r, counted m who keep r -> precedes (m_dag m) r a = true.
Proof.
  unfold members_in.
  pose proof (collect_add_spec keep (dag_iter (m_dag m)) who) as Hadds.
  set (adds := foldl (collect_add keep) ∅ _) in *.
  rewrite (elem_of_live (fun who admissions => existsb (fun admission =>
    forallb (fun removal => precedes (m_dag m) removal admission)
      (counted_removes_in m who keep)) admissions)).
  assert (forall a, (exists v, (who, v) ∈ bt_list adds /\ a ∈ v) <->
    exists op, visible m keep a op /\ op_body op = Add who) as Ha.
  { intros a. trans (a ∈ default [] (adds !! who)).
    - setoid_rewrite elem_of_bt_list. destruct (adds !! who) as [v|]; simpl; split.
      + by intros (? & [= <-] & ?).
      + by exists v.
      + by intros (? & ? & ?).
      + by intros ?%not_elem_of_nil.
    - rewrite Hadds, list_elem_of_fmap. setoid_rewrite list_elem_of_filter.
      setoid_rewrite visible_iter. split.
      + intros ([o op] & -> & [? ?] & ?). by exists op.
      + intros (op & [? ?] & ?). by exists (a, op). }
  setoid_rewrite existsb_exists. setoid_rewrite forallb_forall.
  setoid_rewrite <- list_elem_of_In. setoid_rewrite counted_removes_spec. split.
  - intros [?|(v & Hv & a & Hav & Hall)]; [set_solver|].
    destruct (proj1 (Ha a)) as (op & ? & ?); [by exists v|]. by exists a, op.
  - intros (a & op & Hvis & Hb & Hall). right.
    destruct (proj2 (Ha a)) as (v & Hv & Hav); [by exists op|]. exists v. split; [done|].
    by exists a.
Qed.

(** *** The documented rule

    By the protocol description an eviction counts when it comes from a quorum
    of distinct authors: once the quorum is reached, every vote does.  The code
    weighs one vote of each author, the one with the least identifier. *)
Definition quorate (m : Membership) (target : SigPublic) (keep : option (gset Oid)) (r : Oid) : Prop :=
  exists op, visible m keep r op /\
    (is_proven m target op = true \/
     (is_vote m target op = true /\ (quorum (m_policy m) <= N.of_nat (size (voters m target keep)))%N)).

(** Nobody has voted twice to evict [target]. *)
Definition single_votes (m : Membership) (target : SigPublic) (keep : option (gset Oid)) : Prop :=
  forall r op r' op', visible m keep r op -> is_vote m target op = true ->
    visible m keep r' op' -> is_vote m target op' = true -> op_author op = op_author op' -> r = r'.

(** Some visible admission follows every eviction in [R]. *)
Definition readmitted (m : Membership) (keep : option (gset Oid)) (who : SigPublic) (R : Oid -> Prop) : Prop :=
  exists a op, visible m keep a op /\ op_body op = Add who /\
    forall r, R r -> precedes (m_dag m) r a = true.

Lemma counted_quorate m target keep r : counted m target keep r -> quorate m target keep r.
Proof. intros (op & Hv & [Hp|(Hvote & Hq & _)]); exists op; (split; [done|]); [by left|by right]. Qed.

Lemma quorate_counted m target keep r :
  single_votes m target keep -> quorate m target keep r -> counted m target keep r.
Proof.
  intros Hs (op & Hv & [Hp|[Hvote Hq]]); exists op; (split; [done|]); [by left|right].
  split_and!; [done|done|]. intros r' op' Hv' Hvote' Ha.
  rewrite (Hs r op r' op' Hv Hvote Hv' Hvote' (eq_sym Ha)). apply bytes_le_lt_eq. by right.
Qed.

Lemma readmitted_weaken m keep who (R R' : Oid -> Prop) :
  (forall r, R' r -> R r) -> readmitted m keep who R -> readmitted m keep who R'.
Proof. intros HR (a & op & Hv & Hb & Hall). exists a, op. split_and!; auto. Qed.


(** ** Membership depends only on what is visible *)

Lemma elem_of_voters m target keep a :
  a ∈ voters m target keep <->
  exists o op, visible m keep o op /\ is_vote m target op = true /\ op_author op = a.
Proof.
  unfold voters. rewrite elem_of_list_to_set, list_elem_of_fmap. split.
  - intros ([o op] & -> & [? ?]%elem_of_votes_in). by exists o, op.
  - intros (o & op & ? & ? & <-). exists (o, op). by rewrite elem_of_votes_in.
Qed.

Section congruence.
Context (m1 m2 : Membership) (k1 k2 : option (gset Oid)).
Context (Hpol : m_policy m1 = m_policy m2) (Hguilty : m_guilty m1 = m_guilty m2).
Context (Hvis : forall o op, visible m1 k1 o op <-> visible m2 k2 o op).

Lemma counted_cong target r : counted m1 target k1 r <-> counted m2 target k2 r.
Proof using Hpol Hguilty Hvis.
  assert (forall op, is_vote m1 target op = is_vote m2 target op) as Hv
    by (intros op; unfold is_vote; by rewrite Hpol).
  assert (forall op, is_proven m1 target op = is_proven m2 target op) as Hp
    by (intros op; unfold is_proven; by rewrite Hpol, Hguilty).
  assert (voters m1 target k1 = voters m2 target k2) as Hvs.
  { apply set_eq. intros a. rewrite !elem_of_voters. setoid_rewrite Hvis. by setoid_rewrite Hv. }
  unfold counted. setoid_rewrite Hvis. setoid_rewrite Hv. setoid_rewrite Hp.
  by rewrite Hvs, Hpol.
Qed.

Lemma members_in_cong :
  (forall r a opr opa, visible m2 k2 r opr -> visible m2 k2 a opa ->
     precedes (m_dag m1) r a = precedes (m_dag m2) r a) ->
  members_in m1 k1 = members_in m2 k2.
Proof using Hpol Hguilty Hvis.
  intros Hprec. apply set_eq. intros who. rewrite !members_in_spec.
  setoid_rewrite Hvis. setoid_rewrite counted_cong.
  split; intros (a & op & Ha & Hb & Hall); exists a, op; (split_and!; [done|done|]);
    intros r Hr; pose proof Hr as (opr & Hvr & _).
  - rewrite <- (Hprec r a opr op) by done. by apply Hall.
  - rewrite (Hprec r a opr op) by done. by apply Hall.
Qed.
End congruence.

(** ** The declared past *)

Lemma declared_past_spec d op x :
  dag_wf d ->
  x ∈ declared_past d op <->
  (op_oid op ∈ dom (dag_ops d) /\ tc (edge (dag_parents d)) (op_oid op) x) \/
  exists y, y ∈ op_deps op /\ y ∈ dom (dag_ops d) /\ rtc (edge (dag_parents d)) y x.
Proof.
  intros Hwf. unfold declared_past. setoid_rewrite <- (elem_of_bt_elems (op_deps op)).
  assert (forall l acc, x ∈ foldl (fun past y => if dag_contains d y
            then {[y]} ∪ past ∪ past_of d y else past) acc l <->
          x ∈ acc \/ exists y, y ∈ l /\ y ∈ dom (dag_ops d) /\ rtc (edge (dag_parents d)) y x) as H.
  { induction l as [|y l IH]; intros acc; simpl; [set_solver|]. rewrite IH.
    destruct (dag_contains d y) eqn:E.
    - apply dag_contains_spec in E. rewrite !elem_of_union, elem_of_singleton, past_of_spec by done.
      assert (rtc (edge (dag_parents d)) y x <-> x = y \/ tc (edge (dag_parents d)) y x) as Hr.
      { rewrite rtc_tc. naive_solver. }
      setoid_rewrite elem_of_cons. clear IH. naive_solver.
    - apply dag_contains_false, not_elem_of_dom in E. set_solver. }
  rewrite H. destruct (dag_contains d (op_oid op)) eqn:E.
  - apply dag_contains_spec in E. rewrite past_of_spec by done. naive_solver.
  - apply dag_contains_false, not_elem_of_dom in E. set_solver.
Qed.

(** A set of stored operations that contains its members' parents. *)
Definition past_closed (d : Dag) (s : gset Oid) : Prop :=
  s ⊆ dom (dag_ops d) /\ forall x y, x ∈ s -> edge (dag_parents d) x y -> y ∈ s.

Lemma declared_past_closed d op : dag_wf d -> past_closed d (declared_past d op).
Proof.
  intros Hwf. split.
  - intros x. rewrite declared_past_spec by done.
    intros [(_ & Ht)|(y & _ & Hy & Hr)]; [by apply (tc_edge_dom d) in Ht as [_ ?]|].
    apply rtc_tc in Hr as [<-|Ht]; [done|]. by apply (tc_edge_dom d) in Ht as [_ ?].
  - intros x y. rewrite !declared_past_spec by done.
    intros [(? & Ht)|(z & ? & ? & Hr)] Hxy.
    + left. split; [done|]. by eapply tc_r.
    + right. exists z. split_and!; [done..|]. by eapply rtc_r.
Qed.

(** ** The induced subgraph *)

Section reference.
Context (d : Dag) (Hwf : dag_wf d) (Hex : dag_exact d).
Context (past : gset Oid) (Hpast : past_closed d past).

(** What the loop has built after the prefix [pre] of the topological order. *)
Record induced_inv (pre : list Oid) (sub : Dag) : Prop := {
  in_wf : dag_wf sub;
  in_parents : dag_parents sub ⊆ dag_parents d;
  in_ops o : dag_ops sub !! o = if decide (o ∈ past /\ o ∈ pre) then dag_ops d !! o else None;
}.

Lemma induced_dom pre sub o :
  induced_inv pre sub -> o ∈ dom (dag_ops sub) <-> o ∈ past /\ o ∈ pre.
Proof using Hpast.
  intros HI. rewrite elem_of_dom, (in_ops _ _ HI). case_decide as Hd.
  - split; [done|]. intros _. apply elem_of_dom. apply (proj1 Hpast), Hd.
  - split; [by intros [? ?]|done].
Qed.

Lemma induced_step pre x post sub :
  topological d = pre ++ x :: post -> induced_inv pre sub ->
  induced_inv (pre ++ [x])
    (if decide (x ∈ past) then
       match dag_get d x with Some o => (dag_add o sub).2 | None => sub end else sub).
Proof using Hwf Hex Hpast.
  intros Htop HI. destruct (topological_spec d Hwf) as (Hnd & Hin & Hresp).
  pose proof (fun o => induced_dom pre sub o HI) as Hdom.
  assert (x ∉ pre) as Hx by (rewrite Htop in Hnd; apply NoDup_app in Hnd as (_ & H & _); set_solver).
  destruct (decide (x ∈ past)) as [Hp|Hp]; cycle 1.
  { destruct HI as [H1 H2 H3]. split; [done..|]. intros o. rewrite H3.
    erewrite decide_ext; [reflexivity|]. set_solver. }
  assert (x ∈ dom (dag_ops d)) as Hxd by (by apply (proj1 Hpast)).
  unfold dag_get. apply elem_of_dom in Hxd as [op Hop]. rewrite Hop.
  pose proof (wf_oid d Hwf x op Hop) as Hoid. pose proof (Hex x op Hop) as Hpar.
  assert (dag_ops sub !! x = None) as Hnone.
  { apply not_elem_of_dom. rewrite Hdom. set_solver. }
  assert (op_deps op ⊆ dom (dag_ops sub)) as Hdeps.
  { intros y Hy. apply Hdom. assert (edge (dag_parents d) x y) as He by by exists (op_deps op).
    split; [by apply (proj2 Hpast x)|by apply (Hresp pre x post)]. }
  assert (dag_len sub < MAX_OPS)%N as Hlen.
  { assert (size (dom (dag_ops sub)) < size (dom (dag_ops d))) as Hlt.
    { apply subset_size. split; [intros y [Hy _]%Hdom; by apply (proj1 Hpast)|].
      intros Hsub. apply not_elem_of_dom in Hnone. apply Hnone, Hsub. by eapply elem_of_dom_2. }
    pose proof (wf_size d Hwf) as Hs. unfold dag_len in *. rewrite !size_dom in Hlt. lia. }
  destruct (dag_add op sub) as [r sub'] eqn:Ha. simpl.
  pose proof (dag_add_wf _ _ _ _ (in_wf _ _ HI) Ha) as Hwf'.
  apply dag_add_cases in Ha as [(? & _)|[(_ & ? & _)|(_ & _ & _ & Ho & Hp' & _)]]; [lia| |].
  { rewrite Hoid in *. by apply not_elem_of_dom in Hnone. }
  rewrite Hoid in *. split; [done| |].
  - rewrite Hp'. replace (op_deps op ∩ dom (dag_ops sub)) with (op_deps op) by set_solver.
    apply insert_subseteq_l; [done|]. apply HI.
  - intros o. rewrite Ho. destruct (decide (o = x)) as [->|Hne].
    + rewrite lookup_insert_eq, decide_True by set_solver. done.
    + rewrite lookup_insert_ne, (in_ops _ _ HI) by done.
      erewrite decide_ext; [reflexivity|]. set_solver.
Qed.

Lemma induced_correct : induced_inv (topological d) (induced d past).
Proof using Hwf Hex Hpast.
  unfold induced.
  assert (forall pre post sub, topological d = pre ++ post -> induced_inv pre sub ->
    induced_inv (topological d) (foldl (fun sub oid => if decide (oid ∈ past) then
      match dag_get d oid with Some o => (dag_add o sub).2 | None => sub end else sub) sub post))
    as H.
  { intros pre post. revert pre. induction post as [|x post IH]; intros pre sub Heq HI; simpl.
    - by rewrite app_nil_r in Heq; subst.
    - apply (IH (pre ++ [x])); [by rewrite <- app_assoc|]. by eapply induced_step. }
  apply (H [] (topological d)); [done|]. split; [apply dag_new_wf|apply map_empty_subseteq|].
  intros o. rewrite decide_False by set_solver. done.
Qed.

Lemma induced_visible pol g o op :
  visible (mkMembership (induced d past) pol g) None o op <->
  visible (mkMembership d pol g) (Some past) o op.
Proof using Hwf Hex Hpast.
  unfold visible. cbn [m_dag in_scope]. rewrite bool_decide_eq_true, (in_ops _ _ induced_correct).
  destruct (topological_spec d Hwf) as (_ & Hin & _). case_decide as Hd; [naive_solver|].
  split; [by intros [? _]|]. intros [Ho Hp]. destruct Hd. split; [done|]. apply Hin.
  by eapply elem_of_dom_2.
Qed.

Lemma induced_extends : dag_extends (induced d past) d.
Proof using Hwf Hex Hpast.
  split; [|apply induced_correct]. apply map_subseteq_spec. intros o op.
  rewrite (in_ops _ _ induced_correct). by case_decide.
Qed.
End reference.

(** Evaluating membership in an operation's past directly on the full graph
    gives the same roster as cloning the induced subgraph and evaluating it,
    the reference the source keeps beside it. *)
Theorem members_before_matches_reference m op :
  dag_wf (m_dag m) -> dag_exact (m_dag m) ->
  members_before m op = members_before_reference m op.
Proof.
  intros Hwf Hex. destruct m as [d pol g]. cbn [m_dag] in *.
  pose proof (declared_past_closed d op Hwf) as Hpast. symmetry.
  unfold members_before_reference, members_before, members. cbn [m_dag m_policy m_guilty].
  apply members_in_cong; [done|done|by apply induced_visible|].
  intros r a opr opa Hr Ha. cbn [m_dag]. apply eq_bool_prop_intro.
  pose proof (in_wf _ _ _ _ (induced_correct d Hwf Hex _ Hpast)) as Hwfi.
  rewrite !Is_true_true, !precedes_spec by done. symmetry.
  apply extends_tc; [done|by apply induced_extends|].
  eapply elem_of_dom_2. by apply (induced_visible d Hwf Hex _ Hpast pol g) in Ha as [? _].
Qed.

(** ** Verdicts are stable *)

(** The graph holds the operation itself, if anything, under its identifier. *)
Definition stored_as (d : Dag) (op : Op) : Prop :=
  forall op', dag_ops d !! op_oid op = Some op' -> op' = op.

Lemma declared_past_deps d op x :
  dag_wf d -> dag_exact d -> stored_as d op ->
  x ∈ declared_past d op <->
  exists y, y ∈ op_deps op /\ y ∈ dom (dag_ops d) /\ rtc (edge (dag_parents d)) y x.
Proof.
  intros Hwf Hex Hst. rewrite declared_past_spec by done. split; [|by right].
  intros [[[op' Hop]%elem_of_dom Ht]|?]; [|done]. pose proof (Hst op' Hop) as ->.
  pose proof (Hex _ _ Hop) as Hp.
  assert (exists y, edge (dag_parents d) (op_oid op) y /\ rtc (edge (dag_parents d)) y x)
    as (y & Hy & Hr).
  { inversion Ht; subst; eauto using rtc_refl, tc_rtc. }
  exists y. pose proof Hy as (ps & Hps & Hin). split_and!; [congruence| |done].
  by eapply wf_closed.
Qed.

Section stability.
Context (d d' : Dag) (pol : Policy) (g : gset SigPublic) (op : Op).
Context (Hwf : dag_wf d) (Hwf' : dag_wf d') (Hex : dag_exact d) (Hex' : dag_exact d').
Context (Hext : dag_extends d d') (Hst : stored_as d' op).
Context (Hdeps : deps_satisfied d op = true).

Lemma stored_before : stored_as d op.
Proof using Hext Hst. intros op' H. apply Hst. by eapply lookup_weaken, Hext. Qed.

Lemma stable_past : declared_past d' op = declared_past d op.
Proof using All.
  pose proof stored_before as Hst0. apply deps_satisfied_spec in Hdeps.
  apply set_eq. intros x. rewrite !declared_past_deps by done.
  apply exist_proper. intros y.
  split; intros (Hy & _ & Hr); (split_and!; [done| |]);
    try (by apply Hdeps || by eapply subseteq_dom, Hdeps; [apply Hext|]).
  - apply rtc_tc in Hr as [->|Ht]; [done|]. apply tc_rtc.
    apply (extends_tc d d'); [done|done|by apply Hdeps|done].
  - apply rtc_tc in Hr as [->|Ht]; [done|]. apply tc_rtc.
    apply (extends_tc d d'); [done|done|by apply Hdeps|done].
Qed.

Lemma stable_visible o p :
  visible (mkMembership d' pol g) (Some (declared_past d op)) o p <->
  visible (mkMembership d pol g) (Some (declared_past d op)) o p.
Proof using Hwf Hext.
  unfold visible. cbn [m_dag in_scope]. rewrite bool_decide_eq_true.
  split; intros [Ho Hp]; (split; [|done]); [|by eapply lookup_weaken, Hext].
  destruct (declared_past_closed d op Hwf) as [Hd _].
  apply Hd, elem_of_dom in Hp as [p' Hp']. rewrite Hp'.
  by rewrite (lookup_weaken _ _ _ _ Hp' (proj1 Hext)) in Ho.
Qed.

Lemma stable_members :
  members_before (mkMembership d' pol g) op = members_before (mkMembership d pol g) op.
Proof using All.
  unfold members_before. cbn [m_dag]. rewrite stable_past.
  apply members_in_cong; [done|done|apply stable_visible|].
  intros r a opr opa _ [Ha _]. cbn [m_dag] in *. apply eq_bool_prop_intro.
  rewrite !Is_true_true, !precedes_spec by done. apply extends_tc; [done..|].
  by eapply elem_of_dom_2.
Qed.
End stability.

(** Convictions matter only for those accused where one looks. *)
Lemma members_in_guilt d pol g g' keep :
  (forall o op who coid mk sq, visible (mkMembership d pol g) keep o op -> op_body op = Accuse who coid mk sq ->
     who ∈ g' <-> who ∈ g) ->
  members_in (mkMembership d pol g') keep = members_in (mkMembership d pol g) keep.
Proof.
  intros Hg. apply set_eq. intros who. rewrite !members_in_spec.
  assert (forall r, counted (mkMembership d pol g') who keep r <-> counted (mkMembership d pol g) who keep r) as Hc.
  { intros r.
    assert (forall op, visible (mkMembership d pol g) keep r op ->
      is_proven (mkMembership d pol g') who op = is_proven (mkMembership d pol g) who op) as Hp.
    { intros op Hv. unfold is_proven. cbn [m_policy m_guilty]. destruct (op_body op) as [| | | |w coid mk sq|] eqn:Eb; try done.
      destruct (decide (w = who)) as [->|Hne]; [|by rewrite (bool_decide_eq_false_2 (w = who))].
      by rewrite (bool_decide_ext _ _ (Hg r op who coid mk sq Hv Eb)). }
    split; intros (op & Hv & Hor); exists op; (split; [exact Hv|]); pose proof (Hp op Hv) as E.
    - destruct Hor as [Hpr|Hvote]; [left; by rewrite <- E|by right].
    - destruct Hor as [Hpr|Hvote]; [left; by rewrite E|by right]. }
  by setoid_rewrite Hc.
Qed.

(** Somebody accuses [who] in the declared past of [op]. *)
Definition accused_before (d : Dag) (op : Op) (who : SigPublic) : Prop :=
  exists o acc coid mk sq, o ∈ declared_past d op /\ dag_ops d !! o = Some acc /\ op_body acc = Accuse who coid mk sq.

Lemma founding_verdict m op :
  dag_wf (m_dag m) -> dag_exact (m_dag m) -> stored_as (m_dag m) op -> is_founding op = true ->
  authorised m op = true <->
  forall o p, dag_ops (m_dag m) !! o = Some p -> is_founding p = true ->
    op_author p = op_author op.
Proof.
  intros Hwf Hex Hst Hf. pose proof Hf as Hf'. unfold is_founding in Hf'.
  rewrite !andb_true_iff, !bool_decide_eq_true in Hf'. destruct Hf' as [[Hk Hd] Hb].
  assert (op_author op ∉ members_before m op) as Hn.
  { unfold members_before. rewrite members_in_spec. intros (a & p & [_ Ha] & _).
    cbn [in_scope] in Ha. rewrite bool_decide_eq_true, declared_past_deps in Ha by done.
    destruct Ha as (y & Hy & _). rewrite Hd in Hy. set_solver. }
  unfold authorised, decide_op. rewrite Hk, bool_decide_eq_false_2 by done.
  destruct (op_body op) as [who|?|? ?|? ? ? ? ?|? ? ? ?|?]; try done.
  rewrite Hb, Hd, (bool_decide_eq_true_2 (∅ = ∅)) by done. cbn [andb].
  rewrite negb_true_iff, <- not_true_iff_false, existsb_exists.
  setoid_rewrite <- list_elem_of_In. split.
  - intros Hno o p Hp Hfp. destruct (decide (op_author p = op_author op)) as [|Hne]; [done|].
    destruct Hno. exists (o, p). unfold dag_iter. rewrite elem_of_bt_list, Hfp.
    by rewrite bool_decide_eq_true_2.
  - intros Hall ([o p] & Hin & Hp). unfold dag_iter in Hin. rewrite elem_of_bt_list in Hin.
    apply andb_true_iff in Hp as [Hfp Hne%bool_decide_eq_true]. by destruct Hne; eapply Hall.
Qed.

(** Founding: a dependency-free self-admission is authorised exactly when
    every founding operation in the graph has the same author, so a graph never
    authorises two founders. *)
Theorem founding_authorised m op :
  dag_wf (m_dag m) -> dag_exact (m_dag m) -> stored_as (m_dag m) op -> is_founding op = true ->
  authorised m op = true <->
  forall o p, dag_ops (m_dag m) !! o = Some p -> is_founding p = true ->
    op_author p = op_author op.
Proof. apply founding_verdict. Qed.

(** Away from foundings the verdict looks at the graph only for the roster. *)
Lemma decide_op_dag d d' pol g g' op past :
  is_founding op = false -> decide_op (mkMembership d' pol g') op past = decide_op (mkMembership d pol g) op past.
Proof.
  intros Hf. unfold decide_op, is_founding in *. destruct (op_kind op) eqn:Hk; try done.
  destruct (bool_decide (op_author op ∈ _)); [done|].
  destruct (op_body op); try done. rewrite bool_decide_eq_true_2 in Hf by done.
  destruct (bool_decide (op_deps op = ∅)); [|by rewrite !andb_false_r].
  destruct (bool_decide (who = op_author op)); done.
Qed.

(** C32. An authorisation verdict depends on the operation's declared past and on
    nothing that arrives later, as long as nobody accused in that past is newly
    convicted: whatever operations the graph gains, and whoever else is
    convicted, the roster an operation is judged against stays as it was, and
    the verdict with it.  A founding self-admission is the exception: it is
    authorised exactly while the whole graph has no founding operation of
    another author.  A conviction of somebody accused in the past does change
    verdicts ([late_conviction_revokes]). *)
Theorem verdict_stable d d' pol g g' op :
  dag_wf d -> dag_wf d' -> dag_exact d -> dag_exact d' -> dag_extends d d' ->
  stored_as d' op -> deps_satisfied d op = true ->
  (forall who, accused_before d op who -> who ∈ g' <-> who ∈ g) ->
  members_before (mkMembership d' pol g') op = members_before (mkMembership d pol g) op /\
  (is_founding op = false ->
   authorised (mkMembership d' pol g') op = authorised (mkMembership d pol g) op) /\
  (is_founding op = true ->
   authorised (mkMembership d' pol g') op = true <->
   forall o p, dag_ops d' !! o = Some p -> is_founding p = true -> op_author p = op_author op).
Proof.
  intros Hd Hd' He He' Hx Hst Hdeps Hg.
  assert (members_before (mkMembership d' pol g') op = members_before (mkMembership d pol g) op) as Hm.
  { rewrite <- (stable_members d d' pol g op) by done. apply members_in_guilt.
    intros o acc who coid mk sq Hv Hb. apply Hg. cbn [m_dag] in Hv. rewrite (stable_past d d' pol g op) in Hv by done.
    apply (stable_visible d d' pol g op) in Hv as [Ho Hp]; [|done..]. cbn [m_dag in_scope] in *.
    apply bool_decide_eq_true in Hp. by exists o, acc, coid, mk, sq. }
  split_and!; [done| |].
  - intros Hf. unfold authorised. rewrite Hm. by apply decide_op_dag.
  - intros Hf. by apply (founding_verdict (mkMembership d' pol g')).
Qed.

(** ** Examples and witnesses *)

Definition ex_id (n : N) : SigPublic := array_of (byte_of n) 32.
Definition ex_mop (author n : N) (deps : gset Oid) (body : Body) : Op :=
  mkOp ex_sid (ex_id author) deps body [] [] (ex_oid n).

(** Founder 10 admits 11 and 12; 10 and 11 evict 12 under a quorum of two. *)
Definition ex_history : list Op :=
  [ex_mop 10 1 ∅ (Add (ex_id 10));
   ex_mop 10 2 {[ex_oid 1]} (Add (ex_id 11));
   ex_mop 10 3 {[ex_oid 2]} (Add (ex_id 12));
   ex_mop 10 4 {[ex_oid 3]} (Remove (ex_id 12));
   ex_mop 11 5 {[ex_oid 4]} (Remove (ex_id 12))].

(** Then 10 readmits 12, and 10 and 11 evict it once more. *)
Definition ex_second_eviction : list Op :=
  [ex_mop 10 6 {[ex_oid 5]} (Add (ex_id 12));
   ex_mop 10 7 {[ex_oid 6]} (Remove (ex_id 12));
   ex_mop 11 8 {[ex_oid 7]} (Remove (ex_id 12))].

Definition ex_graph (l : list Op) : Dag := default dag_new (deliver l dag_new).
Definition ex_member (l : list Op) : Membership :=
  mkMembership (ex_graph l) (policy_leaderless 2) ∅.

(** The first quorum evicts. *)
Lemma first_quorum_evicts :
  bool_decide (ex_id 12 ∈ members (ex_member ex_history)) = false.
Proof. by vm_compute. Qed.

(** A second quorum, after a readmission, does not: only the vote of each
    member with the least identifier is weighed, here the ones cast before the
    readmission, so two fresh evictions by two distinct members change nothing. *)
Lemma second_quorum_ignored :
  bool_decide (ex_id 12 ∈ members (ex_member (ex_history ++ ex_second_eviction))) = true.
Proof. by vm_compute. Qed.

Lemma ex_graph_ok l :
  (if deliver l dag_new then true else false) = true ->
  dag_wf (ex_graph l) /\ dag_exact (ex_graph l).
Proof.
  intros H. unfold ex_graph. destruct (deliver l dag_new) as [d|] eqn:E; [|done].
  by apply deliver_new in E as (? & ? & _).
Qed.

Lemma members_before_matches_reference_witness :
  members_before (ex_member ex_history) (ex_mop 11 5 {[ex_oid 4]} (Remove (ex_id 12)))
  = members_before_reference (ex_member ex_history)
      (ex_mop 11 5 {[ex_oid 4]} (Remove (ex_id 12))).
Proof.
  apply (members_before_matches_reference (ex_member ex_history)); apply ex_graph_ok;
    by vm_compute.
Defined.

Definition ex_late : Op := ex_mop 11 9 {[ex_oid 3]} (PrekeyRequest []).

Lemma ex_late_extends :
  dag_extends (ex_graph ex_history) (ex_graph (ex_history ++ ex_second_eviction)).
Proof.
  split; apply (bool_decide_unpack _); by vm_compute.
Qed.

(** Somebody is convicted meanwhile, whom no operation in the past accuses. *)
Lemma verdict_stable_witness :
  authorised (mkMembership (ex_graph (ex_history ++ ex_second_eviction))
                (policy_leaderless 2) {[ex_id 12]}) ex_late
  = authorised (mkMembership (ex_graph ex_history) (policy_leaderless 2) ∅) ex_late.
Proof.
  apply (verdict_stable (ex_graph ex_history)); [apply ex_graph_ok; by vm_compute..| | | | |].
  - apply ex_late_extends.
  - intros op' H. exfalso. revert H.
    assert (dag_ops (ex_graph (ex_history ++ ex_second_eviction)) !! op_oid ex_late = None) as ->
      by by vm_compute.
    done.
  - by vm_compute.
  - intros who (o & acc & coid & mk & sq & _ & Ho & Hb). exfalso.
    assert (forallb (fun e => negb (bool_decide (op_kind e.2 = KAccuse))) (dag_iter (ex_graph ex_history)) = true) as Hno
      by by vm_compute.
    rewrite forallb_forall in Hno. specialize (Hno (o, acc)). rewrite <- list_elem_of_In in Hno.
    unfold dag_iter in Hno. rewrite elem_of_bt_list in Hno. specialize (Hno Ho). cbn [snd] in Hno.
    by rewrite bool_decide_true in Hno by (unfold op_kind; by rewrite Hb).
  - by vm_compute.
Defined.

(** 10 accuses 11, who goes on: what 11 did after the accusation is authorised
    until 11 is convicted, by this accusation or by any other, and not any more
    from then on, though the graph is the same. *)
Definition ex_accused : list Op :=
  [ex_mop 10 1 ∅ (Add (ex_id 10));
   ex_mop 10 2 {[ex_oid 1]} (Add (ex_id 11));
   ex_mop 10 3 {[ex_oid 2]} (Accuse (ex_id 11) (ex_oid 7) [] 0);
   ex_mop 11 4 {[ex_oid 3]} (PrekeyRequest [])].

Lemma late_conviction_revokes :
  let op := ex_mop 11 4 {[ex_oid 3]} (PrekeyRequest []) in
  let m g := mkMembership (ex_graph ex_accused) (policy_leaderless 2) g in
  authorised (m ∅) op = true /\ authorised (m {[ex_id 11]}) op = false.
Proof. by vm_compute. Qed.

Definition ex_founder : Op := ex_mop 10 1 ∅ (Add (ex_id 10)).

Lemma founding_authorised_witness :
  authorised (ex_member [ex_founder]) ex_founder = true <->
  forall o p, dag_ops (ex_graph [ex_founder]) !! o = Some p -> is_founding p = true ->
    op_author p = op_author ex_founder.
Proof.
  apply (founding_authorised (ex_member [ex_founder])).
  - apply ex_graph_ok. by vm_compute.
  - apply ex_graph_ok. by vm_compute.
  - intros op' H. assert (dag_ops (ex_graph [ex_founder]) !! op_oid ex_founder = Some ex_founder)
      as E by by vm_compute.
    cbn [m_dag ex_member] in H. rewrite E in H. by injection H.
  - by vm_compute.
Defined.
