(* ===== verification/Keys.v ===== *)
(** * Frontier keys ([crates/cfr-core/src/keys.rs])

    The contribution frontier, the version hint, the bounded store of node keys
    and the derivation of node and group keys.  A secret is the byte string it
    holds; a wiped secret that is dropped from the store is not represented. *)

From Stdlib Require Import NArith Lia.
From S2P Require Import Prelude Crypto Toy Codec Ops Dag.

Definition OVERLAP : N := 64.

Definition frontier (d : Dag) : gset Oid :=
  let nodes := (filter (fun e => op_kind e.2 = KContrib) (dag_iter d)).*1 in
  match nodes with
  | [] => ∅
  | _ =>
      let covered := foldl (fun acc oid => acc ∪ past_of d oid) ∅ nodes in
      list_to_set (filter (fun n => n ∉ covered) nodes)
  end.

Record NodeKeys := mkNodeKeys {
  nk_keys : gmap Oid bytes;
  nk_order : list Oid;
  nk_capacity : N;
}.

Definition nk_with_capacity (capacity : N) : NodeKeys := mkNodeKeys ∅ [] (N.max capacity 1).
Definition nk_default : NodeKeys := nk_with_capacity OVERLAP.
Definition nk_len (s : NodeKeys) : N := N.of_nat (size (nk_keys s)).
Definition nk_is_empty (s : NodeKeys) : bool := bool_decide (nk_keys s = ∅).
Definition nk_contains (s : NodeKeys) (oid : Oid) : bool := bool_decide (is_Some (nk_keys s !! oid)).
Definition nk_peek (s : NodeKeys) (oid : Oid) : option bytes := nk_keys s !! oid.

(** [position], [remove] and [push] on the recency list. *)
Definition nk_touch (oid : Oid) (s : NodeKeys) : NodeKeys :=
  match list_find (fun o => o = oid) (nk_order s) with
  | Some (pos, v) => mkNodeKeys (nk_keys s) (delete pos (nk_order s) ++ [v]) (nk_capacity s)
  | None => s
  end.

(** The eviction loop: it removes the head of [order] while it is too long. *)
Fixpoint nk_evict (order : list Oid) (keys : gmap Oid bytes) (capacity : N)
    : list Oid * gmap Oid bytes :=
  match order with
  | [] => ([], keys)
  | evicted :: rest =>
      if (capacity <? lenN order)%N then nk_evict rest (delete evicted keys) capacity
      else (order, keys)
  end.

Definition nk_insert (node_id : Oid) (node_key : bytes) (s : NodeKeys) : NodeKeys :=
  let s' := mkNodeKeys (<[node_id := node_key]> (nk_keys s)) (nk_order s) (nk_capacity s) in
  let s' := match nk_keys s !! node_id with
            | None => mkNodeKeys (nk_keys s') (nk_order s' ++ [node_id]) (nk_capacity s')
            | Some _ => nk_touch node_id s'
            end in
  let '(order, keys) := nk_evict (nk_order s') (nk_keys s') (nk_capacity s') in
  mkNodeKeys keys order (nk_capacity s').

Definition nk_missing (s : NodeKeys) (nodes : list Oid) : gset Oid :=
  list_to_set (filter (fun n => nk_contains s n = false) nodes).

Fixpoint combine_loop (keys : gmap Oid bytes) (nodes : list Oid) (acc : bytes) : option bytes :=
  match nodes with
  | [] => Some acc
  | n :: nodes =>
      match keys !! n with
      | Some k => combine_loop keys nodes (xor_in_place acc k)
      | None => None
      end
  end.

Definition nk_combine (s : NodeKeys) (nodes : gset Oid) : option bytes :=
  combine_loop (nk_keys s) (bt_elems nodes) (secret_zero KEY_LEN).

Definition nk_wipe (s : NodeKeys) : NodeKeys := mkNodeKeys ∅ [] (nk_capacity s).

Section derivations.
Context {P : Primitives}.

Definition version_of (nodes : gset Oid) (membership_root : bytes) : bytes :=
  take 8 (hash (bstr "cfr/version") (membership_root :: bt_elems nodes)).

Definition node_key (secret parent_combined : bytes) (oid : Oid) : bytes :=
  kdf secret (bstr "cfr/node") [parent_combined; oid].

Definition group_key (seed0 : bytes) (nodes : gset Oid) (membership_root : bytes)
    (store : NodeKeys) : option bytes :=
  combined ← (if decide (nodes = ∅) then Some (secret_zero KEY_LEN) else nk_combine store nodes);
  let digest := hash (bstr "cfr/frontier") (bt_elems nodes) in
  Some (kdf seed0 (bstr "cfr/group") [combined; membership_root; digest]).

Definition commitment (secret : bytes) : bytes := hash (bstr "cfr/cid") [secret].
End derivations.

(** ** The frontier is the set of maximal contributions *)

Definition is_contrib (d : Dag) (o : Oid) : Prop :=
  exists op, dag_ops d !! o = Some op /\ op_kind op = KContrib.

Lemma frontier_elem d o :
  dag_wf d ->
  o ∈ frontier d <->
  is_contrib d o /\ forall c, is_contrib d c -> ~ tc (edge (dag_parents d)) c o.
Proof.
  intros Hwf. unfold frontier. set (nodes := (filter _ (dag_iter d)).*1).
  assert (forall x, x ∈ nodes <-> is_contrib d x) as Hn.
  { intros x. subst nodes. rewrite list_elem_of_fmap. unfold is_contrib. split.
    - intros ([k op] & -> & [Hk Hin]%list_elem_of_filter). exists op.
      unfold dag_iter in Hin. by rewrite elem_of_bt_list in Hin.
    - intros (op & Hop & Hk). exists (x, op). split; [done|]. apply list_elem_of_filter.
      split; [done|]. unfold dag_iter. by rewrite elem_of_bt_list. }
  assert (forall (l : list Oid) acc, o ∈ foldl (fun acc oid => acc ∪ past_of d oid) acc l <->
            o ∈ acc \/ exists c, c ∈ l /\ tc (edge (dag_parents d)) c o) as Hc.
  { induction l as [|c l IH]; intros acc; simpl; [set_solver|].
    rewrite IH, elem_of_union, past_of_spec by done. setoid_rewrite elem_of_cons.
    clear. naive_solver. }
  destruct nodes as [|n0 rest] eqn:E.
  - rewrite <- Hn. set_solver.
  - rewrite elem_of_list_to_set, list_elem_of_filter, Hc. setoid_rewrite Hn. set_solver.
Qed.

(** The frontier is exactly the set of contributions that no other
    contribution causally follows, and every contribution is covered by one in
    the frontier. *)
Theorem frontier_maximal d :
  dag_wf d ->
  (forall o, o ∈ frontier d <->
     is_contrib d o /\ forall c, is_contrib d c -> precedes d o c = false) /\
  (forall c, is_contrib d c -> exists o, o ∈ frontier d /\ (o = c \/ precedes d c o = true)).
Proof.
  intros Hwf. split.
  - intros o. rewrite frontier_elem by done. apply and_iff_compat_l, forall_proper. intros c.
    rewrite <- not_true_iff_false, precedes_spec by done. done.
  - intros c Hc. destruct (max_above d (fun o => o ∈ dom (dag_ops d) /\ bool_decide
      (op_kind <$> dag_ops d !! o = Some KContrib) = true) c) as (o & [_ Ho] & Hco & Hmax).
    { done. }
    { destruct Hc as (op & Hop & Hk). split; [by eapply elem_of_dom_2|].
      rewrite bool_decide_eq_true, Hop. simpl. by rewrite Hk. }
    assert (forall x, bool_decide (op_kind <$> dag_ops d !! x = Some KContrib) = true <->
                      is_contrib d x) as Hb.
    { intros x. rewrite bool_decide_eq_true, fmap_Some. unfold is_contrib.
      split; intros (op & ? & ?); by exists op. }
    exists o. split; [|done]. apply frontier_elem; [done|]. split; [by apply Hb|].
    intros x Hx Ht. apply (precedes_spec d o x Hwf) in Ht. rewrite Hmax in Ht; [done|].
    split; [|by apply Hb]. destruct Hx as (op & Hop & _). by eapply elem_of_dom_2.
Qed.

(** ** The bounded store *)

Record nk_inv (s : NodeKeys) : Prop := {
  nk_nodup : NoDup (nk_order s);
  nk_dom o : o ∈ nk_order s <-> is_Some (nk_keys s !! o);
  nk_bound : (lenN (nk_order s) <= nk_capacity s)%N;
  nk_positive : (1 <= nk_capacity s)%N;
}.

Lemma nk_evict_spec order keys cap :
  let n := length order - N.to_nat cap in
  (nk_evict order keys cap).1 = drop n order /\
  forall o, (nk_evict order keys cap).2 !! o
            = if decide (o ∈ take n order) then None else keys !! o.
Proof.
  revert keys. induction order as [|x order IH]; intros keys; cbn zeta.
  { split; [done|]. intros o. by rewrite decide_False by (by rewrite take_nil; apply not_elem_of_nil). }
  cbn [nk_evict]. destruct (N.ltb_spec cap (lenN (x :: order))) as [Hl|Hl].
  - replace (length (x :: order) - N.to_nat cap) with (S (length order - N.to_nat cap)) by len_lia.
    cbn [drop take]. destruct (IH (delete x keys)) as [H1 H2]. split; [done|].
    intros o. rewrite H2. destruct (decide (o ∈ take _ order)).
    + by rewrite decide_True by set_solver.
    + destruct (decide (o = x)) as [->|?].
      * by rewrite lookup_delete_eq, decide_True by set_solver.
      * by rewrite lookup_delete_ne, decide_False by set_solver.
  - replace (length (x :: order) - N.to_nat cap) with 0 by len_lia. split; [done|].
    intros o. by rewrite decide_False by (by apply not_elem_of_nil).
Qed.

Lemma filter_ne_absent (x : Oid) (l : list Oid) : x ∉ l -> filter (fun o => o <> x) l = l.
Proof.
  induction l as [|y l IH]; intros H; [done|]. rewrite filter_cons, decide_True by set_solver.
  f_equal. apply IH. set_solver.
Qed.

Lemma delete_position (x : Oid) (l : list Oid) i :
  NoDup l -> l !! i = Some x -> delete i l = filter (fun o => o <> x) l.
Proof.
  revert i. induction l as [|y l IH]; intros [|i] Hnd Hi; [done|done| |];
    apply NoDup_cons in Hnd as [Hy Hnd]; simpl in Hi; rewrite filter_cons.
  - injection Hi as ->. rewrite decide_False by auto. by rewrite filter_ne_absent.
  - assert (x ∈ l) by by eapply list_elem_of_lookup_2.
    rewrite decide_True by (intros ->; done). simpl. f_equal. by apply IH.
Qed.

(** Recency after using [oid]: it moves to the back. *)
Definition to_back (oid : Oid) (l : list Oid) : list Oid := filter (fun o => o <> oid) l ++ [oid].

Lemma to_back_NoDup oid l : NoDup l -> NoDup (to_back oid l).
Proof.
  intros H. unfold to_back. apply NoDup_app. split_and!.
  - by apply NoDup_filter.
  - intros x [? _]%list_elem_of_filter. set_solver.
  - repeat constructor. set_solver.
Qed.

Lemma elem_of_to_back oid l o : o ∈ to_back oid l <-> o = oid \/ o ∈ l.
Proof.
  unfold to_back. rewrite elem_of_app, list_elem_of_filter, list_elem_of_singleton.
  destruct (decide (o = oid)); naive_solver.
Qed.

Lemma nk_touch_order oid s :
  NoDup (nk_order s) -> oid ∈ nk_order s ->
  nk_touch oid s = mkNodeKeys (nk_keys s) (to_back oid (nk_order s)) (nk_capacity s).
Proof.
  intros Hnd Hin. unfold nk_touch.
  destruct (list_find_elem_of (fun o => o = oid) _ _ Hin eq_refl) as [[i v] Hf].
  rewrite Hf. apply list_find_Some in Hf as (Hi & -> & _). unfold to_back.
  by rewrite (delete_position oid).
Qed.

(** The order an insertion leaves before eviction. *)
Lemma nk_insert_eq oid key s :
  nk_inv s ->
  let r := nk_evict (to_back oid (nk_order s)) (<[oid := key]> (nk_keys s)) (nk_capacity s) in
  nk_insert oid key s = mkNodeKeys r.2 r.1 (nk_capacity s).
Proof.
  intros [Hnd Hdom Hb Hp]. unfold nk_insert. destruct (nk_keys s !! oid) as [old|] eqn:E.
  - rewrite nk_touch_order; cbn [nk_keys nk_order nk_capacity]; [|done|by apply Hdom; rewrite E].
    by destruct (nk_evict _ _ _).
  - cbn [nk_keys nk_order nk_capacity]. unfold to_back. rewrite filter_ne_absent.
    + by destruct (nk_evict _ _ _).
    + rewrite Hdom, E. by intros [? ?].
Qed.

Lemma lookup_insert_total_order oid key s o :
  nk_inv s -> is_Some (<[oid := key]> (nk_keys s) !! o) <-> o ∈ to_back oid (nk_order s).
Proof.
  intros HI. rewrite elem_of_to_back, lookup_insert_is_Some, (nk_dom s HI).
  destruct (decide (o = oid)); naive_solver.
Qed.

Lemma nk_insert_lru oid key s :
  nk_inv s ->
  let s' := nk_insert oid key s in
  let back := to_back oid (nk_order s) in
  nk_order s' = drop (length back - N.to_nat (nk_capacity s)) back /\
  (forall o, nk_keys s' !! o =
     if decide (o ∈ nk_order s') then <[oid := key]> (nk_keys s) !! o else None) /\
  nk_capacity s' = nk_capacity s.
Proof.
  intros HI s' back. subst s'. rewrite nk_insert_eq by done. cbn zeta. fold back.
  destruct (nk_evict_spec back (<[oid := key]> (nk_keys s)) (nk_capacity s)) as [H1 H2].
  cbn [nk_order nk_keys nk_capacity]. split_and!; [done| |done].
  intros o. rewrite H2, H1. set (n := length back - _).
  pose proof (to_back_NoDup oid _ (nk_nodup s HI)) as Hnd. fold back in Hnd.
  rewrite <- (take_drop n back) in Hnd. apply NoDup_app in Hnd as (_ & Hdisj & _).
  destruct (decide (o ∈ take n back)) as [Ht|Ht], (decide (o ∈ drop n back)) as [Hd|Hd]; try done.
  - by destruct (Hdisj o).
  - apply eq_None_not_Some. rewrite lookup_insert_total_order by done. fold back.
    rewrite <- (take_drop n back), elem_of_app. tauto.
Qed.

Lemma nk_insert_inv oid key s : nk_inv s -> nk_inv (nk_insert oid key s).
Proof.
  intros HI. destruct (nk_insert_lru oid key s HI) as (H1 & H2 & H3).
  pose proof (to_back_NoDup oid _ (nk_nodup s HI)) as Hnd. split.
  - rewrite H1. eapply sublist_NoDup; [done|apply sublist_drop].
  - intros o. rewrite H2. case_decide as Hd; [|naive_solver].
    rewrite lookup_insert_total_order by done. split; [|done]. intros _.
    rewrite H1 in Hd. eapply subseteq_drop, Hd.
  - rewrite H1, H3. len_lia.
  - rewrite H3. apply HI.
Qed.

(** What an insertion can make visible. *)
Lemma nk_insert_lookup oid key s o k :
  nk_inv s -> nk_keys (nk_insert oid key s) !! o = Some k ->
  (o = oid /\ k = key) \/ nk_keys s !! o = Some k.
Proof.
  intros HI. destruct (nk_insert_lru oid key s HI) as (_ & -> & _). case_decide; [|done].
  intros [[-> ->]|[_ Hk]]%lookup_insert_Some; auto.
Qed.

(** The keys used last, as many as fit with the new one, are all kept. *)
Lemma nk_insert_recent oid key s pre suf :
  nk_inv s -> nk_order s = pre ++ suf -> oid ∉ suf ->
  (lenN suf < nk_capacity s)%N ->
  exists pre', nk_order (nk_insert oid key s) = pre' ++ suf ++ [oid] /\
    nk_keys (nk_insert oid key s) !! oid = Some key /\
    (forall o, o ∈ suf -> nk_keys (nk_insert oid key s) !! o = nk_keys s !! o).
Proof.
  intros HI Ho Hni Hl. destruct (nk_insert_lru oid key s HI) as (H1 & H2 & H3).
  assert (to_back oid (nk_order s) = filter (fun o => o <> oid) pre ++ suf ++ [oid]) as Hb.
  { unfold to_back. by rewrite Ho, filter_app, (filter_ne_absent oid suf), app_assoc. }
  rewrite Hb in H1. set (p' := filter _ pre) in *.
  rewrite drop_app_le in H1 by (rewrite !length_app; simpl; len_lia).
  eexists. split; [exact H1|]. split.
  - rewrite H2, decide_True by (rewrite H1; set_solver). apply lookup_insert_eq.
  - intros o Hin. rewrite H2, decide_True by (rewrite H1; set_solver).
    apply lookup_insert_ne. by intros ->.
Qed.

(** Inserting few keys keeps all of them. *)
Lemma nk_insert_all (l : list (Oid * bytes)) s :
  nk_inv s -> NoDup l.*1 -> (lenN l <= nk_capacity s)%N ->
  let s' := foldl (fun s en => nk_insert en.1 en.2 s) s l in
  nk_inv s' /\ nk_capacity s' = nk_capacity s /\ (exists pre, nk_order s' = pre ++ l.*1) /\
  (forall n k, (n, k) ∈ l -> nk_keys s' !! n = Some k).
Proof.
  intros HI. induction l as [|[n k] l IH] using rev_ind; intros Hnd Hl; simpl.
  { split_and!; [done|done|exists (nk_order s); by rewrite app_nil_r|]. intros n k H. set_solver. }
  rewrite fmap_app in Hnd. apply NoDup_app in Hnd as (Hnd & Hdis & _).
  rewrite lenN_app in Hl. change (lenN [(n, k)]) with 1%N in Hl.
  destruct IH as (HI' & Hc & (pre & Ho) & Hk); [done|lia|]. rewrite foldl_snoc. cbn [fst snd].
  set (s1 := foldl _ s l) in *.
  assert (n ∉ l.*1) as Hni by (intros Hin; apply (Hdis n Hin); set_solver).
  destruct (nk_insert_recent n k s1 pre l.*1) as (pre' & Ho' & Hn & Hsuf); [done..| |].
  { rewrite Hc. unfold lenN in *. rewrite length_fmap. lia. }
  split_and!.
  - by apply nk_insert_inv.
  - rewrite <- Hc. by destruct (nk_insert_lru n k s1 HI') as (_ & _ & ->).
  - exists pre'. by rewrite fmap_app.
  - intros m x [Hin|Hin]%elem_of_app.
    + rewrite Hsuf; [by apply Hk|]. apply list_elem_of_fmap. by exists (m, x).
    + apply list_elem_of_singleton in Hin. by simplify_eq.
Qed.

Lemma nk_touch_inv oid s : nk_inv s -> nk_inv (nk_touch oid s).
Proof.
  intros HI. destruct (decide (oid ∈ nk_order s)) as [Hin|Hin].
  - rewrite nk_touch_order by (done || apply HI). destruct HI as [Hnd Hdom Hb Hp].
    split; cbn [nk_keys nk_order nk_capacity]; [by apply to_back_NoDup| | |done].
    + intros o. rewrite elem_of_to_back, <- Hdom. naive_solver.
    + etrans; [|exact Hb]. unfold to_back, lenN. rewrite length_app. simpl.
      assert (length (filter (fun o => o <> oid) (nk_order s)) < length (nk_order s)); [|lia].
      by apply (length_filter_lt _ _ oid); [|auto].
  - unfold nk_touch. destruct (list_find _ _) as [[i v]|] eqn:E; [|done].
    apply list_find_Some in E as (Hi & -> & _). destruct Hin. by eapply list_elem_of_lookup_2.
Qed.

Lemma nk_with_capacity_inv c : nk_inv (nk_with_capacity c).
Proof.
  split; cbn [nk_order nk_keys nk_capacity nk_with_capacity]; [constructor| |unfold lenN; simpl; lia|lia].
  intros o. rewrite lookup_empty. split; [by intros ?%not_elem_of_nil|by intros [? ?]].
Qed.

Lemma nk_wipe_inv s : nk_inv s -> nk_inv (nk_wipe s).
Proof.
  intros HI. split; cbn [nk_order nk_keys nk_capacity nk_wipe];
    [constructor| |unfold lenN; simpl; lia|apply HI].
  intros o. rewrite lookup_empty. split; [by intros ?%not_elem_of_nil|by intros [? ?]].
Qed.

(** The stores that the interface can produce. *)
Inductive nk_reachable : NodeKeys -> Prop :=
| nk_reach_new c : nk_reachable (nk_with_capacity c)
| nk_reach_insert o k s : nk_reachable s -> nk_reachable (nk_insert o k s)
| nk_reach_touch o s : nk_reachable s -> nk_reachable (nk_touch o s)
| nk_reach_wipe s : nk_reachable s -> nk_reachable (nk_wipe s).

Lemma nk_reachable_inv s : nk_reachable s -> nk_inv s.
Proof.
  induction 1; auto using nk_with_capacity_inv, nk_insert_inv, nk_touch_inv, nk_wipe_inv.
Qed.

(** The node-key store is a least-recently-used cache: in every reachable
    store, inserting a key keeps exactly the most recently used keys within
    capacity, the inserted one included, erases every other, and leaves the
    recency list and the keys in step. *)
Theorem nk_store_lru s oid key :
  nk_reachable s ->
  let s' := nk_insert oid key s in
  let back := to_back oid (nk_order s) in
  nk_order s' = drop (length back - N.to_nat (nk_capacity s)) back /\
  nk_keys s' !! oid = Some key /\
  (forall o, o <> oid ->
     nk_keys s' !! o = if decide (o ∈ nk_order s') then nk_keys s !! o else None) /\
  (nk_len s' <= nk_capacity s)%N.
Proof.
  intros HI%nk_reachable_inv s' back.
  destruct (nk_insert_lru oid key s HI) as (H1 & H2 & H3).
  pose proof (nk_insert_inv oid key s HI) as HI'. split_and!; [done| | |].
  - rewrite H2, decide_True; [by rewrite lookup_insert_eq|]. rewrite H1. unfold back, to_back.
    pose proof (nk_positive s HI). set (l := filter _ _).
    rewrite drop_app_le by (rewrite length_app; simpl; lia). set_solver.
  - intros o Ho. rewrite H2. by rewrite lookup_insert_ne.
  - rewrite <- H3. etrans; [|apply HI']. unfold nk_len, lenN.
    rewrite <- size_dom, <- (size_list_to_set (C := gset Oid) (nk_order _)) by apply HI'.
    assert (dom (nk_keys s') ⊆ list_to_set (nk_order s')) as Hs%subseteq_size; [|unfold s' in *; lia].
    intros o. rewrite elem_of_dom, elem_of_list_to_set. apply HI'.
Qed.

(** ** Combination *)

Definition xor_all (l : list bytes) (acc : bytes) : bytes := foldl xor_in_place acc l.

Lemma xor_all_perm l k acc : l ≡ₚ k -> xor_all l acc = xor_all k acc.
Proof.
  intros H. revert acc. unfold xor_all. induction H; intros acc; simpl; [done|by auto| |].
  - by rewrite <- !xor_assoc, (xor_comm y x).
  - by rewrite IHPermutation1.
Qed.

Lemma combine_loop_spec keys nodes acc :
  combine_loop keys nodes acc =
  (fun l => xor_all l acc) <$> mapM (fun n => keys !! n) nodes.
Proof.
  revert acc. induction nodes as [|n nodes IH]; intros acc; simpl; [done|].
  destruct (keys !! n) as [k|]; simpl; [|done]. rewrite IH.
  by destruct (mapM _ nodes).
Qed.

Lemma mapM_lookup_None (keys : gmap Oid bytes) l :
  mapM (fun n => keys !! n) l = None <-> exists n, n ∈ l /\ keys !! n = None.
Proof. rewrite mapM_None, Exists_exists. done. Qed.

Lemma nk_missing_spec s nodes n :
  n ∈ nk_missing s nodes <-> n ∈ nodes /\ nk_keys s !! n = None.
Proof.
  unfold nk_missing, nk_contains. rewrite elem_of_list_to_set, list_elem_of_filter.
  rewrite bool_decide_eq_false, <- eq_None_not_Some. naive_solver.
Qed.

Lemma nk_combine_None s nodes :
  nk_combine s nodes = None <-> nk_missing s (bt_elems nodes) <> ∅.
Proof.
  unfold nk_combine. rewrite combine_loop_spec, fmap_None, mapM_lookup_None. split.
  - intros (n & Hn) He. apply nk_missing_spec in Hn. set_solver.
  - intros (n & Hn)%set_choose_L. apply nk_missing_spec in Hn. eauto.
Qed.

(** Two stores with the same keys for the frontier combine alike. *)
Lemma nk_combine_agree s1 s2 nodes :
  (forall n, n ∈ nodes -> nk_keys s1 !! n = nk_keys s2 !! n) ->
  nk_combine s1 nodes = nk_combine s2 nodes.
Proof.
  intros H. unfold nk_combine. generalize (secret_zero KEY_LEN).
  assert (forall n, n ∈ bt_elems nodes -> nk_keys s1 !! n = nk_keys s2 !! n) as H'
    by (intros n Hn; by apply H, elem_of_bt_elems).
  clear H. induction (bt_elems nodes) as [|n l IH]; intros acc; [done|]. cbn [combine_loop].
  rewrite <- H' by set_solver. destruct (nk_keys s1 !! n); [|done]. apply IH. set_solver.
Qed.

(** [combine] succeeds exactly when no node key is missing, and then the
    result is the XOR of the keys whatever order they are taken in. *)
Theorem combine_complete s nodes :
  (nk_combine s nodes = None <-> nk_missing s (bt_elems nodes) <> ∅) /\
  forall l ks, l ≡ₚ elements nodes -> mapM (fun n => nk_keys s !! n) l = Some ks ->
    nk_combine s nodes = Some (xor_all ks (secret_zero KEY_LEN)).
Proof.
  split; [apply nk_combine_None|]. intros l ks Hl Hks.
  assert (bt_elems nodes ≡ₚ l) as Hp by (unfold bt_elems; by rewrite bytes_sort_perm, Hl).
  unfold nk_combine. rewrite combine_loop_spec.
  destruct (mapM _ (bt_elems nodes)) as [ks'|] eqn:E; simpl.
  - f_equal. apply xor_all_perm. apply mapM_Some in E. apply mapM_Some in Hks.
    clear Hl. revert ks ks' Hks E.
    assert (forall l ks, Forall2 (fun n k => nk_keys s !! n = Some k) l ks ->
              ks = (fun n => default [] (nk_keys s !! n)) <$> l) as Hmap.
    { induction 1 as [|n k l' ks' Hn _ IH]; [done|]. simpl. rewrite Hn. simpl. by f_equal. }
    intros ks ks' ->%Hmap ->%Hmap. by rewrite Hp.
  - exfalso. apply mapM_lookup_None in E as (n & Hn & Hk).
    assert (mapM (fun n => nk_keys s !! n) l = None) by (apply mapM_lookup_None; exists n; by rewrite <- Hp).
    congruence.
Qed.

(** ** Group keys *)

Section group.
Context {P : Primitives}.

Lemma group_key_combine seed nodes mroot store :
  group_key seed nodes mroot store =
  (fun c => kdf seed (bstr "cfr/group") [c; mroot; hash (bstr "cfr/frontier") (bt_elems nodes)])
  <$> nk_combine store nodes.
Proof.
  unfold group_key. case_decide as Hd; [by subst|]. by destruct (nk_combine store nodes).
Qed.

Lemma xor_all_length l acc : length (xor_all l acc) <= length acc.
Proof.
  revert acc. induction l as [|k l IH]; intros acc; [done|]. cbn [xor_all foldl].
  etrans; [apply IH|]. unfold xor_in_place. rewrite length_zip_with. lia.
Qed.

Lemma nk_combine_framable s nodes c : nk_combine s nodes = Some c -> framable c.
Proof.
  unfold nk_combine. rewrite combine_loop_spec. intros (l & _ & ->)%fmap_Some.
  pose proof (xor_all_length l (secret_zero KEY_LEN)) as H. unfold secret_zero, array_of in *.
  rewrite length_replicate in H. unfold framable, lenN, two32, KEY_LEN in *. lia.
Qed.

Lemma frontier_framable (nodes : gset Oid) :
  set_Forall framable nodes -> Forall framable (bstr "cfr/frontier" :: bt_elems nodes).
Proof. intros Hn. constructor; [done|]. apply Forall_forall. intros x Hx%elem_of_bt_elems. by apply Hn. Qed.

(** What is hashed into the digest of a frontier and into a group key. *)
Definition frontier_input (nodes : gset Oid) : bytes := frames (bstr "cfr/frontier" :: bt_elems nodes).
Definition group_input (combined mroot : bytes) (nodes : gset Oid) : bytes :=
  frames [bstr "cfr/group"; combined; mroot; hash (bstr "cfr/frontier") (bt_elems nodes)].

(** C33. Group keys agree and bind.  A derivation succeeds exactly when no node
    key of the frontier is missing; participants with the same seed, frontier,
    roster digest and node keys for that frontier derive the same key, whatever
    else their stores hold; and if two derivations from one seed give the same
    key, they used the same frontier, the same roster digest and the same
    combined contribution, unless BLAKE3 collides on the inputs of these two
    keys or on the inputs of the digests of these two frontiers. *)
Theorem group_key_agree_bind seed nodes1 nodes2 root1 root2 s1 s2 :
  PrimitivesOk P ->
  framable root1 -> framable root2 ->
  set_Forall framable nodes1 -> set_Forall framable nodes2 ->
  (group_key seed nodes1 root1 s1 = None <-> nk_missing s1 (bt_elems nodes1) <> ∅) /\
  (nodes1 = nodes2 -> root1 = root2 ->
   (forall n, n ∈ nodes1 -> nk_keys s1 !! n = nk_keys s2 !! n) ->
   group_key seed nodes1 root1 s1 = group_key seed nodes2 root2 s2) /\
  (forall c1 c2, nk_combine s1 nodes1 = Some c1 -> nk_combine s2 nodes2 = Some c2 ->
   group_key seed nodes1 root1 s1 = group_key seed nodes2 root2 s2 ->
   (nodes1 = nodes2 /\ root1 = root2 /\ c1 = c2) \/
   collide (Some seed) (group_input c1 root1 nodes1) (group_input c2 root2 nodes2) \/
   collide None (frontier_input nodes1) (frontier_input nodes2)).
Proof.
  intros PO Hr1 Hr2 Hn1 Hn2. rewrite !group_key_combine. split_and!.
  - rewrite <- nk_combine_None. by destruct (nk_combine s1 nodes1).
  - intros <- <- Hk. by rewrite (nk_combine_agree s1 s2).
  - intros c1 c2 Hc1 Hc2. rewrite Hc1, Hc2. cbn [fmap option_fmap option_map].
    assert (forall nodes, framable (hash (bstr "cfr/frontier") (bt_elems nodes))) as Hd.
    { intros nodes. unfold framable, lenN. by rewrite hash_length. }
    pose proof (nk_combine_framable _ _ _ Hc1). pose proof (nk_combine_framable _ _ _ Hc2).
    intros Hk%Some_inj. apply kdf_inj in Hk as [[_ Hf]|?]; [|by right; left|by repeat constructor; auto..].
    injection Hf as -> -> Hh. apply hash_inj in Hh as [[_ Hh]|?]; [left|by right; right|by apply frontier_framable..].
    split_and!; [|done|done]. by rewrite <- (bt_elems_to_set nodes1), <- (bt_elems_to_set nodes2), Hh.
Qed.
End group.

(** ** Witnesses *)

Lemma frontier_maximal_witness :
  ex_oid 4 ∈ frontier ex_dag <->
  is_contrib ex_dag (ex_oid 4) /\
  forall c, is_contrib ex_dag c -> precedes ex_dag (ex_oid 4) c = false.
Proof. apply (frontier_maximal ex_dag), ex_dag_wf. Defined.

Definition ex_store : NodeKeys :=
  nk_insert (ex_oid 2) (array_of (byte_of 7) 32)
    (nk_insert (ex_oid 1) (array_of (byte_of 6) 32) (nk_with_capacity 2)).

Lemma ex_store_reachable : nk_reachable ex_store.
Proof. repeat constructor. Qed.

Lemma nk_store_lru_witness :
  nk_keys (nk_insert (ex_oid 3) [Byte.x01] ex_store) !! ex_oid 3 = Some [Byte.x01] /\
  nk_keys (nk_insert (ex_oid 3) [Byte.x01] ex_store) !! ex_oid 1 = None.
Proof.
  split; [apply (nk_store_lru ex_store), ex_store_reachable|by vm_compute].
Defined.

Lemma combine_complete_witness :
  nk_combine ex_store {[ex_oid 1; ex_oid 2]} = Some (array_of (byte_of 1) 32).
Proof.
  rewrite (proj2 (combine_complete ex_store {[ex_oid 1; ex_oid 2]})
    [ex_oid 1; ex_oid 2] [array_of (byte_of 6) 32; array_of (byte_of 7) 32]).
  - by vm_compute.
  - apply (bool_decide_unpack _). by vm_compute.
  - by vm_compute.
Defined.

Definition ex_group (k : NodeKeys) (n : N) : option bytes :=
  group_key (P := Toy) ex_seed {[ex_oid 1; ex_oid 2]} (ex_oid n) k.

Lemma ex_nodes_framable : set_Forall framable ({[ex_oid 1; ex_oid 2]} : gset Oid).
Proof.
  apply set_Forall_union; apply set_Forall_singleton; unfold framable; by vm_compute.
Qed.

(** A key depends on the roster digest. *)
Lemma ex_group_roots : ex_group ex_store 8 <> ex_group ex_store 9.
Proof. by vm_compute. Qed.

Lemma group_key_agree_bind_witness :
  ex_group ex_store 9 <> None /\
  ex_group ex_store 9 = ex_group (nk_insert (ex_oid 3) [] (nk_with_capacity 3)
    |> nk_insert (ex_oid 2) (array_of (byte_of 7) 32) |> nk_insert (ex_oid 1) (array_of (byte_of 6) 32)) 9.
Proof.
  destruct (group_key_agree_bind (P := Toy) ex_seed {[ex_oid 1; ex_oid 2]} {[ex_oid 1; ex_oid 2]}
              (ex_oid 9) (ex_oid 9) ex_store (nk_insert (ex_oid 3) [] (nk_with_capacity 3)
    |> nk_insert (ex_oid 2) (array_of (byte_of 7) 32) |> nk_insert (ex_oid 1) (array_of (byte_of 6) 32)))
    as (H1 & H2 & _).
  - apply ToyOk.
  - unfold framable. by vm_compute.
  - unfold framable. by vm_compute.
  - apply ex_nodes_framable.
  - apply ex_nodes_framable.
  - split.
    + intros E. apply H1 in E. apply E. by vm_compute.
    + apply H2; [done|done|]. intros n [->%elem_of_singleton| ->%elem_of_singleton]%elem_of_union; by vm_compute.
Defined.
