(* ===== verification/Channel.v ===== *)
(** * Pairwise ratcheted channels ([crates/cfr-core/src/channel.rs])

    The sending ratchet, the receiving ratchet and its bounded reordering
    buffer.  [chain_at] and [key_at] are the abstract key schedule of a root
    secret; both ends are proved to follow it. *)

From Stdlib Require Import NArith Lia.
From S2P Require Import Prelude Crypto Toy Codec.

Definition MAX_BUFFERED : N := 64.

Record Chan := mkChan { ch_chain : bytes; ch_next : N }.
Record RecvChan := mkRecvChan { rc_chan : Chan; rc_buffer : gmap N bytes }.

Section channel.
Context {P : Primitives}.

Definition chan_new (root : bytes) : Chan := mkChan (kdf root (bstr "cfr/channel/chain") []) 0.

Definition chan_position (c : Chan) : N := ch_next c.

Definition current_key (c : Chan) : bytes :=
  kdf (ch_chain c) (bstr "cfr/channel/message") [u64_to_be_bytes (ch_next c)].

Definition advance : M Chan Error unit := fun c =>
  match checked_add64 (ch_next c) 1 with
  | None => (Err (LimitExceeded "channel message index exhausted"), c)
  | Some next_index =>
      let next := kdf (ch_chain c) (bstr "cfr/channel/next") [u64_to_be_bytes (ch_next c)] in
      (Ok tt, mkChan next next_index)
  end.

Definition chan_step : M Chan Error (N * bytes) := fun c =>
  if (ch_next c =? u64_max)%N
  then (Err (LimitExceeded "channel message index exhausted"), c)
  else
    let index := ch_next c in
    let message_key := current_key c in
    (_ ← advance; mret (index, message_key)) c.

Definition recv_new (root : bytes) : RecvChan := mkRecvChan (chan_new root) ∅.
Definition recv_position (r : RecvChan) : N := chan_position (rc_chan r).
Definition recv_buffered (r : RecvChan) : N := N.of_nat (size (rc_buffer r)).

Definition offer (index : N) (payload : bytes) (r : RecvChan) : option bytes * RecvChan :=
  let pos := recv_position r in
  if (index <? pos)%N then (None, r)
  else if (pos <? index)%N then
    (None,
     if (recv_buffered r <? MAX_BUFFERED)%N then
       match rc_buffer r !! index with
       | Some _ => r
       | None => mkRecvChan (rc_chan r) (<[index := payload]> (rc_buffer r))
       end
     else r)
  else if (index =? u64_max)%N then (None, r)
  else (Some (current_key (rc_chan r)), r).

Definition commit (index : N) : M RecvChan Error bool := fun r =>
  if negb (index =? recv_position r)%N then (Ok false, r)
  else
    match advance (rc_chan r) with
    | (Ok _, c) => (Ok true, mkRecvChan c (rc_buffer r))
    | (Err e, c) => (Err e, mkRecvChan c (rc_buffer r))
    end.

Definition take_next (r : RecvChan) : option (N * bytes * bytes) * RecvChan :=
  let index := recv_position r in
  if (index =? u64_max)%N then (None, r)
  else
    match rc_buffer r !! index with
    | None => (None, r)
    | Some payload =>
        (Some (index, payload, current_key (rc_chan r)),
         mkRecvChan (rc_chan r) (delete index (rc_buffer r)))
    end.

(** ** The key schedule *)

Fixpoint chain_at (root : bytes) (n : nat) : bytes :=
  match n with
  | O => kdf root (bstr "cfr/channel/chain") []
  | S n => kdf (chain_at root n) (bstr "cfr/channel/next") [u64_to_be_bytes (N.of_nat n)]
  end.

Definition key_at (root : bytes) (i : N) : bytes :=
  kdf (chain_at root (N.to_nat i)) (bstr "cfr/channel/message") [u64_to_be_bytes i].

(** A ratchet that stands at its position of the schedule of [root]. *)
Definition on_schedule (root : bytes) (c : Chan) : Prop :=
  ch_chain c = chain_at root (N.to_nat (ch_next c)) /\ (ch_next c < two64)%N.

Lemma chan_new_on root : on_schedule root (chan_new root).
Proof. by split. Qed.

Lemma current_key_on root c : on_schedule root c -> current_key c = key_at root (ch_next c).
Proof. intros [H _]. unfold current_key, key_at. by rewrite H. Qed.

Lemma advance_on root c :
  on_schedule root c ->
  if (ch_next c =? u64_max)%N
  then advance c = (Err (LimitExceeded "channel message index exhausted"), c)
  else exists c', advance c = (Ok tt, c') /\ on_schedule root c' /\ ch_next c' = (ch_next c + 1)%N.
Proof.
  intros [Hc Hn]. unfold advance, checked_add64.
  destruct (N.eqb_spec (ch_next c) u64_max) as [->|Hne]; [done|].
  unfold u64_max in Hne. destruct (N.ltb_spec (ch_next c + 1) two64); [|lia].
  eexists. split_and!; [done| |done]. split; [|done]. cbn [ch_chain ch_next].
  rewrite N.add_1_r, N2Nat.inj_succ. cbn [chain_at]. by rewrite Hc, N2Nat.id.
Qed.

(** The sending ratchet hands out the keys of its root's schedule in order,
    each index once, and refuses to move past the last index, unchanged. *)
Theorem chan_step_schedule root c :
  on_schedule root c ->
  if (ch_next c =? u64_max)%N
  then chan_step c = (Err (LimitExceeded "channel message index exhausted"), c)
  else exists c', chan_step c = (Ok (ch_next c, key_at root (ch_next c)), c')
         /\ on_schedule root c' /\ ch_next c' = (ch_next c + 1)%N.
Proof.
  intros Hc. pose proof (advance_on root c Hc) as Ha. unfold chan_step.
  destruct (N.eqb_spec (ch_next c) u64_max); [done|]. destruct Ha as (c' & Ha & Hc' & Hn').
  exists c'. split_and!; [|done|done]. erewrite bind_ok by exact Ha.
  by rewrite (current_key_on root).
Qed.

(** ** The receiver as a state machine *)

Inductive recv_step : RecvChan -> option (N * bytes) -> RecvChan -> Prop :=
| rs_offer i p r k : (offer i p r).1 = Some k -> recv_step r (Some (i, k)) (offer i p r).2
| rs_offer_none i p r : (offer i p r).1 = None -> recv_step r None (offer i p r).2
| rs_commit i r : recv_step r None (commit i r).2
| rs_take i p k r : (take_next r).1 = Some (i, p, k) -> recv_step r (Some (i, k)) (take_next r).2
| rs_take_none r : (take_next r).1 = None -> recv_step r None (take_next r).2.

Inductive recv_reachable (root : bytes) : RecvChan -> Prop :=
| rr_new : recv_reachable root (recv_new root)
| rr_step r out r' : recv_reachable root r -> recv_step r out r' -> recv_reachable root r'.

Record recv_inv (root : bytes) (r : RecvChan) : Prop := {
  ri_on : on_schedule root (rc_chan r);
  ri_bound : (recv_buffered r <= MAX_BUFFERED)%N;
}.

Lemma offer_inv root i p r : recv_inv root r -> recv_inv root (offer i p r).2.
Proof.
  intros [Hon Hb]. unfold offer.
  destruct (N.ltb_spec i (recv_position r)); [by split|].
  destruct (N.ltb_spec (recv_position r) i); [|by destruct (i =? u64_max)%N].
  cbn [snd]. destruct (N.ltb_spec (recv_buffered r) MAX_BUFFERED); [|by split].
  destruct (rc_buffer r !! i) eqn:E; [by split|]. split; [done|].
  unfold recv_buffered in *. cbn [rc_buffer]. rewrite map_size_insert_None by done. lia.
Qed.

Lemma commit_inv root i r : recv_inv root r -> recv_inv root (commit i r).2.
Proof.
  intros [Hon Hb]. unfold commit. destruct (negb _); [by split|].
  pose proof (advance_on root (rc_chan r) Hon) as Ha.
  destruct (ch_next (rc_chan r) =? u64_max)%N.
  - rewrite Ha. by split.
  - destruct Ha as (c' & -> & Hc' & _). by split.
Qed.

Lemma take_next_inv root r : recv_inv root r -> recv_inv root (take_next r).2.
Proof.
  intros [Hon Hb]. unfold take_next. destruct (_ =? _)%N; [by split|].
  destruct (rc_buffer r !! _) eqn:E; [|by split]. split; [done|].
  unfold recv_buffered in *. cbn [snd rc_buffer]. rewrite map_size_delete, E. lia.
Qed.

Lemma recv_reachable_inv root r : recv_reachable root r -> recv_inv root r.
Proof.
  induction 1 as [|r out r' _ IH Hs].
  - split; [apply chan_new_on|]. unfold recv_buffered. cbn [rc_buffer recv_new].
    rewrite map_size_empty. unfold MAX_BUFFERED. lia.
  - inversion Hs; subst; auto using offer_inv, commit_inv, take_next_inv.
Qed.

(** A receiver fed any sequence of offers, commits and drains never holds
    more than sixty-four ciphertexts, and every key it gives out, directly or
    for a buffered ciphertext, is the sender's key for that very index, given
    only while the index is the one awaited (so a committed index never yields
    a key again). *)
Theorem recv_keys_match root r i k r' :
  recv_reachable root r -> recv_step r (Some (i, k)) r' ->
  (recv_buffered r' <= MAX_BUFFERED)%N /\
  k = key_at root i /\ i = recv_position r /\ (i < u64_max)%N /\ recv_position r' = recv_position r.
Proof.
  intros HI%recv_reachable_inv Hs.
  assert (recv_inv root r') as HI'
    by (inversion Hs; subst; auto using offer_inv, take_next_inv).
  split; [apply HI'|]. destruct HI as [Hon Hb]. pose proof (proj2 Hon) as Hlt.
  inversion Hs as [i0 p r0 k0 Ho| | |i0 p k0 r0 Ho|]; subst; revert Ho.
  - unfold offer. n_cases; try done. cbn [fst snd]. intros [= <-].
    assert (i = recv_position r) as -> by lia.
    split_and!; [by apply current_key_on|done| |done].
    unfold recv_position, chan_position, u64_max in *. lia.
  - unfold take_next. n_cases; [done|]. destruct (rc_buffer r !! _); [|done]. cbn [fst snd].
    intros [= <- _ <-]. split_and!; [by apply current_key_on|done| |done].
    unfold recv_position, chan_position, u64_max in *. lia.
Qed.

(** The position only moves by a commit of the awaited index. *)
Lemma commit_position root r i :
  recv_inv root r ->
  (commit i r).1 = Ok true <-> i = recv_position r /\ (i < u64_max)%N /\
    recv_position (commit i r).2 = (recv_position r + 1)%N.
Proof.
  intros [Hon Hb]. unfold commit. pose proof (proj2 Hon) as Hlt.
  destruct (N.eqb_spec i (recv_position r)) as [->|Hne]; cbn [negb]; [|naive_solver].
  pose proof (advance_on root (rc_chan r) Hon) as Ha.
  destruct (N.eqb_spec (ch_next (rc_chan r)) u64_max) as [He|Hne].
  - rewrite Ha. cbn [fst snd]. split; [done|]. unfold recv_position, chan_position in *. lia.
  - destruct Ha as (c' & -> & _ & Hn). cbn [fst snd].
    unfold recv_position, chan_position in *. cbn [rc_chan]. split; [|done]. intros _.
    unfold u64_max in *. split_and!; [done|lia|done].
Qed.
Lemma recv_step_position root r out r' :
  recv_inv root r -> recv_step r out r' -> (recv_position r <= recv_position r')%N.
Proof.
  intros HI Hs. inversion Hs as [i p r0 k Ho|i p r0 Ho|i r0|i p k r0 Ho|r0 Ho]; subst; clear Hs.
  - revert Ho. unfold offer. n_cases; try done.
  - unfold offer. n_cases; cbn [snd]; try done. by destruct (rc_buffer r !! i).
  - unfold commit. destruct (negb _); [done|]. pose proof (advance_on root _ (ri_on _ _ HI)) as Ha.
    unfold recv_position, chan_position. destruct (_ =? _)%N.
    + by rewrite Ha.
    + destruct Ha as (c' & -> & _ & Hn). cbn [snd rc_chan]. lia.
  - unfold take_next. destruct (_ =? _)%N; [done|]. by destruct (rc_buffer r !! _).
  - unfold take_next. destruct (_ =? _)%N; [done|]. by destruct (rc_buffer r !! _).
Qed.

(** Runs of the receiver, outputs ignored. *)
Definition recv_moves (r r' : RecvChan) : Prop := exists out, recv_step r out r'.

Lemma recv_moves_inv root r r' :
  recv_inv root r -> rtc recv_moves r r' ->
  recv_inv root r' /\ (recv_position r <= recv_position r')%N.
Proof.
  intros HI Hr. induction Hr as [r|r r1 r' [out Hs] _ IH]; [by split|].
  pose proof (recv_step_position root _ _ _ HI Hs).
  destruct IH as [IH1 IH2]; [inversion Hs; subst; auto using offer_inv, commit_inv, take_next_inv|].
  split; [done|lia].
Qed.

(** C34. No replay: once an index is committed, no later offer or drain, in any
    order, ever yields a key for it again; the ratchet only moves forward. *)
Theorem recv_no_replay root r i r1 r2 j k r3 :
  recv_reachable root r -> commit i r = (Ok true, r1) ->
  rtc recv_moves r1 r2 -> recv_step r2 (Some (j, k)) r3 -> (i < j)%N.
Proof.
  intros HI%recv_reachable_inv Hc Hm Hs.
  pose proof (commit_inv root i r HI) as HI1. pose proof (commit_position root r i HI) as [Hp _].
  rewrite Hc in HI1, Hp. destruct (Hp eq_refl) as (-> & _ & Hpos). cbn [snd] in *.
  destruct (recv_moves_inv root r1 r2 HI1 Hm) as [HI2 Hle].
  assert (j = recv_position r2) as ->; [|lia].
  inversion Hs as [i0 p r0 k0 Ho| | |i0 p k0 r0 Ho|]; subst; revert Ho.
  - unfold offer. n_cases; try done. lia.
  - unfold take_next. n_cases; [done|]. destruct (rc_buffer r2 !! _); [|done]. by intros [= <- _ _].
Qed.
End channel.

(** ** Witnesses *)

Definition ex_root : bytes := array_of (byte_of 7) 32.

Lemma chan_step_schedule_witness :
  exists c', chan_step (P := Toy) (chan_new ex_root)
    = (Ok (0%N, key_at (P := Toy) ex_root 0), c') /\ on_schedule (P := Toy) ex_root c'
    /\ ch_next c' = 1%N.
Proof. apply (chan_step_schedule (P := Toy) ex_root (chan_new ex_root)), chan_new_on. Defined.

Definition ex_recv : RecvChan := (offer (P := Toy) 1 (bstr "one") (recv_new ex_root)).2.

Lemma ex_recv_reachable : recv_reachable (P := Toy) ex_root ex_recv.
Proof.
  eapply rr_step; [apply rr_new|]. unfold ex_recv. apply rs_offer_none. by vm_compute.
Qed.

Lemma recv_keys_match_witness :
  current_key (P := Toy) (rc_chan ex_recv) = key_at (P := Toy) ex_root 0.
Proof.
  apply (recv_keys_match (P := Toy) ex_root ex_recv 0 _ (offer (P := Toy) 0 (bstr "zero") ex_recv).2).
  - apply ex_recv_reachable.
  - apply rs_offer. by vm_compute.
Defined.

Lemma recv_no_replay_witness : (0 < 1)%N.
Proof.
  apply (recv_no_replay (P := Toy) ex_root ex_recv 0 (commit (P := Toy) 0 ex_recv).2
           (commit (P := Toy) 0 ex_recv).2 1
           (current_key (P := Toy) (rc_chan (commit (P := Toy) 0 ex_recv).2))
           (take_next (P := Toy) (commit (P := Toy) 0 ex_recv).2).2).
  - apply ex_recv_reachable.
  - by vm_compute.
  - apply rtc_refl.
  - apply rs_take with (p := bstr "one"). by vm_compute.
Defined.
