(* ===== verification/Prekey.v ===== *)
(** * One-time prekeys ([crates/cfr-core/src/prekey.rs])

    A prekey generation, its deadline and its destruction.  Every operation
    that can end the life of the private half is a step of [pool_step]; the
    theorems say when it ends and that it never comes back. *)

From Stdlib Require Import NArith Lia.
From S2P Require Import Prelude Crypto Toy Ops.

Definition SEAL_AFTER : N := 64.

Record PrekeyPool := mkPool {
  pk_generation : N;
  pk_secret : option bytes;
  pk_public : DhPublic;
  pk_established : gset SigPublic;
  pk_age : N;
}.

Section prekey.
Context {P : Primitives}.

Definition pool_at (generation : N) : M Tape CryptoError PrekeyPool :=
  secret ← dh_generate;
  mret (mkPool generation (Some secret) (dh_public secret) ∅ 0).

Definition pool_new : M Tape CryptoError PrekeyPool := pool_at 0.

Definition is_sealed (p : PrekeyPool) : bool := if pk_secret p then false else true.

Definition pool_seal (p : PrekeyPool) : PrekeyPool :=
  mkPool (pk_generation p) None (pk_public p) (pk_established p) (pk_age p).

Definition pool_tick (p : PrekeyPool) : PrekeyPool :=
  let p := mkPool (pk_generation p) (pk_secret p) (pk_public p) (pk_established p)
             (saturating_add32 (pk_age p) 1) in
  if (SEAL_AFTER <=? pk_age p)%N then pool_seal p else p.

Definition agree_for (peer : SigPublic) (eph : DhPublic) (expected : gset SigPublic)
    (p : PrekeyPool) : option bytes * PrekeyPool :=
  match pk_secret p with
  | None => (None, p)
  | Some sk =>
      match dh_agree sk eph with
      | None => (None, p)
      | Some shared =>
          let p := mkPool (pk_generation p) (pk_secret p) (pk_public p)
                     ({[peer]} ∪ pk_established p) (pk_age p) in
          (Some shared,
           if negb (bool_decide (expected = ∅))
              && forallb (fun q => bool_decide (q ∈ pk_established p)) (bt_elems expected)
           then pool_seal p else p)
      end
  end.

Definition agree_envelope (eph : DhPublic) (p : PrekeyPool) : option bytes :=
  match pk_secret p with Some sk => dh_agree sk eph | None => None end.

(** On failure the pool is untouched: the fresh generation is made first. *)
Definition pool_rotate (p : PrekeyPool) : M Tape CryptoError PrekeyPool :=
  pool_at (wrapping_add32 (pk_generation p) 1).

(** ** Lifetime of a generation *)

Inductive pool_step : PrekeyPool -> PrekeyPool -> Prop :=
| ps_tick p : pool_step p (pool_tick p)
| ps_seal p : pool_step p (pool_seal p)
| ps_agree peer eph expected p : pool_step p (agree_for peer eph expected p).2.

Lemma agree_for_cases peer eph expected p :
  (agree_for peer eph expected p = (None, p) /\
   (pk_secret p = None \/ exists sk, pk_secret p = Some sk /\ dh_agree sk eph = None)) \/
  exists sk shared, pk_secret p = Some sk /\ dh_agree sk eph = Some shared /\
    (agree_for peer eph expected p).1 = Some shared /\
    let p' := (agree_for peer eph expected p).2 in
    pk_generation p' = pk_generation p /\ pk_public p' = pk_public p /\ pk_age p' = pk_age p /\
    pk_established p' = {[peer]} ∪ pk_established p /\
    pk_secret p' = (if decide (expected <> ∅ /\ expected ⊆ {[peer]} ∪ pk_established p)
                    then None else Some sk).
Proof.
  unfold agree_for. destruct (pk_secret p) as [sk|] eqn:Es; [|by left; auto].
  destruct (dh_agree sk eph) as [shared|] eqn:Ea; [|by left; eauto].
  right. exists sk, shared. cbn [fst snd pk_established]. split_and!; try done; cbn zeta;
    set (c := negb _ && _); try by destruct c.
  assert (c = true <-> expected <> ∅ /\ expected ⊆ {[peer]} ∪ pk_established p) as Hc.
  { unfold c. rewrite andb_true_iff, negb_true_iff, bool_decide_eq_false, forallb_forall.
    apply and_iff_compat_l. rewrite elem_of_subseteq. apply forall_proper. intros x.
    by rewrite <- list_elem_of_In, elem_of_bt_elems, bool_decide_eq_true. }
  destruct c.
  - by rewrite decide_True by by apply Hc.
  - rewrite decide_False by (by intros ?%Hc). done.
Qed.

Lemma pool_step_sealed p p' :
  pool_step p p' -> pk_generation p' = pk_generation p /\ pk_public p' = pk_public p /\
  (pk_secret p = None -> pk_secret p' = None) /\
  (pk_secret p' = pk_secret p \/ pk_secret p' = None).
Proof.
  intros [q|q|peer eph expected q].
  - unfold pool_tick. cbn. destruct (_ <=? _)%N; cbn; auto.
  - auto.
  - destruct (agree_for_cases peer eph expected q) as [[-> _]|(sk & sh & Hsk & _ & _ & Hg & Hp & _ & _ & Hs)];
      [by auto|].
    rewrite Hs, Hsk. case_decide; split_and!; auto; congruence.
Qed.

(** Destroying a generation is final: whatever is done to it afterwards,
    short of rotating to a fresh generation, its private half never returns,
    it opens no channel and no envelope, and it keeps its number and public
    half. *)
Theorem sealed_is_final p p' peer eph expected :
  is_sealed p = true -> rtc pool_step p p' ->
  is_sealed p' = true /\ pk_generation p' = pk_generation p /\ pk_public p' = pk_public p /\
  (agree_for peer eph expected p').1 = None /\ agree_envelope eph p' = None.
Proof.
  intros Hs Hr. assert (pk_secret p = None) as Hn by (unfold is_sealed in Hs; by destruct (pk_secret p)).
  assert (pk_secret p' = None /\ pk_generation p' = pk_generation p /\ pk_public p' = pk_public p)
    as (Hn' & Hg & Hp).
  { clear Hs. induction Hr as [p|p q p' Hpq _ IH]; [done|].
    apply pool_step_sealed in Hpq as (Hg & Hp & Hq & _).
    destruct (IH (Hq Hn)) as (? & ? & ?). split_and!; congruence. }
  unfold is_sealed, agree_for, agree_envelope. by rewrite Hn'.
Qed.

Lemma pool_tick_age p : pk_age (pool_tick p) = saturating_add32 (pk_age p) 1.
Proof. unfold pool_tick. cbn. by destruct (_ <=? _)%N. Qed.

Lemma pool_tick_secret p :
  pk_secret (pool_tick p) =
  if (SEAL_AFTER <=? saturating_add32 (pk_age p) 1)%N then None else pk_secret p.
Proof. unfold pool_tick. cbn. by destruct (_ <=? _)%N. Qed.

Lemma iter_tick_S n p : Nat.iter (S n) pool_tick p = pool_tick (Nat.iter n pool_tick p).
Proof. done. Qed.

Lemma iter_tick_age n p :
  pk_age p = 0%N -> pk_age (Nat.iter n pool_tick p) = N.min (N.of_nat n) (two32 - 1).
Proof.
  intros Ha. induction n as [|n IH]; [unfold two32; simpl; lia|].
  rewrite iter_tick_S, pool_tick_age, IH. unfold saturating_add32, two32. lia.
Qed.

(** A generation is destroyed no later than its deadline of [SEAL_AFTER]
    ticks, whether or not every peer was served, and ticking alone never
    destroys it earlier. *)
Theorem deadline_seals p sk n :
  pk_secret p = Some sk -> pk_age p = 0%N -> 1 <= n ->
  is_sealed (Nat.iter n pool_tick p) = (SEAL_AFTER <=? N.of_nat n)%N.
Proof.
  intros Hs Ha Hn. destruct n as [|n]; [lia|]. clear Hn.
  assert (forall m, (N.of_nat m < SEAL_AFTER)%N -> pk_secret (Nat.iter m pool_tick p) = Some sk) as Hopen.
  { intros m. induction m as [|m IH]; [done|]. intros Hm.
    rewrite iter_tick_S, pool_tick_secret, iter_tick_age by done.
    destruct (N.leb_spec SEAL_AFTER (saturating_add32 (N.min (N.of_nat m) (two32 - 1)) 1));
      [unfold saturating_add32, SEAL_AFTER, two32 in *; lia|]. apply IH. lia. }
  unfold is_sealed. destruct (N.leb_spec SEAL_AFTER (N.of_nat (S n))) as [Hle|Hgt].
  - rewrite iter_tick_S, pool_tick_secret, iter_tick_age by done.
    destruct (N.leb_spec SEAL_AFTER (saturating_add32 (N.min (N.of_nat n) (two32 - 1)) 1)); [done|].
    unfold saturating_add32, SEAL_AFTER, two32 in *. lia.
  - by rewrite Hopen.
Qed.

(** Serving a channel: a live generation gives the shared secret and is
    destroyed exactly when every expected peer (a non-empty set) has been
    served; serving one peer twice, or an envelope, does not count. *)
Theorem agree_for_seals peer eph expected p sk shared :
  pk_secret p = Some sk -> dh_agree sk eph = Some shared ->
  (agree_for peer eph expected p).1 = Some shared /\
  pk_established (agree_for peer eph expected p).2 = {[peer]} ∪ pk_established p /\
  (is_sealed (agree_for peer eph expected p).2 = true <->
   expected <> ∅ /\ expected ⊆ {[peer]} ∪ pk_established p).
Proof.
  intros Hs Ha. destruct (agree_for_cases peer eph expected p)
    as [[_ [?|(? & ? & ?)]]|(sk' & sh' & Hs' & Ha' & H1 & _ & _ & _ & He & Hsec)]; [congruence..|].
  assert (sk' = sk) as -> by congruence. assert (sh' = shared) as -> by congruence.
  split_and!; [done|done|]. unfold is_sealed. rewrite Hsec. by case_decide.
Qed.

(** Rotation replaces the generation by a fresh, live one with the next
    number (modulo 2^32), and fails only when there is no entropy. *)
Theorem rotate_fresh p t :
  match pool_rotate p t with
  | (Ok p', _) =>
      exists b t', t = Some b :: t' /\
        pk_generation p' = ((pk_generation p + 1) mod two32)%N /\
        is_sealed p' = false /\ pk_established p' = ∅ /\ pk_age p' = 0%N /\
        exists sk, pk_secret p' = Some sk /\ pk_public p' = dh_public sk
  | (Err e, _) => e = CryptoNoEntropy /\ forall b t', t <> Some b :: t'
  end.
Proof.
  unfold pool_rotate, pool_at, dh_generate, fill_random, mbind, M_bind.
  destruct t as [|[b|] t]; [done| |by split].
  exists b, t. split_and!; try done. eexists. by split.
Qed.
End prekey.

(** ** Witnesses *)

Definition ex_pool : PrekeyPool :=
  mkPool 3 (Some (array_of (byte_of 5) 32)) (array_of (byte_of 5) 32) ∅ 0.

Lemma sealed_is_final_witness :
  is_sealed (pool_tick (pool_seal ex_pool)) = true.
Proof.
  apply (sealed_is_final (P := Toy) (pool_seal ex_pool) (pool_tick (pool_seal ex_pool)) [] [] ∅).
  - by vm_compute.
  - apply rtc_once, ps_tick.
Defined.

Lemma deadline_seals_witness : is_sealed (Nat.iter 64 pool_tick ex_pool) = true.
Proof.
  rewrite (deadline_seals ex_pool (array_of (byte_of 5) 32) 64); [by vm_compute|done|done|lia].
Defined.

Lemma agree_for_seals_witness :
  (agree_for (P := Toy) (array_of (byte_of 1) 32) (array_of (byte_of 6) 32) ∅ ex_pool).1
  = Some (array_of (byte_of 3) 32).
Proof.
  apply (agree_for_seals (P := Toy) _ _ _ _ (array_of (byte_of 5) 32)); by vm_compute.
Defined.
