(* ===== verification/Replay.v ===== *)
(** * Replay window of the media layer ([crates/cfr-media/src/replay.rs])

    The 64-frame bitmap, at its width, and its refinement of the abstract
    specification: remember every accepted index, accept an index once, and
    only when it is newer than all others or fewer than 64 frames behind. *)

From Stdlib Require Import NArith Lia.
From S2P Require Import Prelude.

Definition WINDOW : N := 64.

Record Replay := mkReplay { rp_high : N; rp_seen : N; rp_started : bool }.

Definition replay_new : Replay := mkReplay 0 0 false.

(** [<<] on [u64] for a shift below 64. *)
Definition shl64 (v n : N) : N := N.land (N.shiftl v n) (N.ones 64).

Definition accept (index : N) (r : Replay) : bool * Replay :=
  if negb (rp_started r) then (true, mkReplay index 1 true)
  else if (rp_high r <? index)%N then
    let shift := (index - rp_high r)%N in
    let seen := if (WINDOW <=? shift)%N then 0%N else shl64 (rp_seen r) shift in
    (true, mkReplay index (N.lor seen 1) (rp_started r))
  else
    let back := (rp_high r - index)%N in
    if (WINDOW <=? back)%N then (false, r)
    else
      let bit := shl64 1 back in
      if negb (N.land (rp_seen r) bit =? 0)%N then (false, r)
      else (true, mkReplay (rp_high r) (N.lor (rp_seen r) bit) (rp_started r)).

(** ** Abstract specification *)

Definition newest (acc : list N) : N := foldr N.max 0%N acc.

Definition spec_accept (acc : list N) (index : N) : bool :=
  match acc with
  | [] => true
  | _ => bool_decide (index ∉ acc) && (newest acc <? index + WINDOW)%N
  end.

(** Verdicts and accepted indices for a sequence of frames. *)
Fixpoint spec_run (acc : list N) (l : list N) : list bool :=
  match l with
  | [] => []
  | i :: l => let b := spec_accept acc i in
              b :: spec_run (if b then i :: acc else acc) l
  end.

Fixpoint replay_run (r : Replay) (l : list N) : list bool :=
  match l with
  | [] => []
  | i :: l => let '(b, r) := accept i r in b :: replay_run r l
  end.

(** ** Refinement *)

(** The bitmap represents the accepted indices. *)
Definition represents (r : Replay) (acc : list N) : Prop :=
  match acc with
  | [] => rp_started r = false
  | _ =>
      rp_started r = true /\ rp_high r = newest acc /\
      forall k, N.testbit (rp_seen r) k
        = (k <? WINDOW)%N && (k <=? rp_high r)%N && bool_decide ((rp_high r - k)%N ∈ acc)
  end.

Lemma newest_in acc : acc <> [] -> newest acc ∈ acc.
Proof.
  induction acc as [|x acc IH]; [done|]. intros _. simpl. destruct acc as [|y acc].
  - simpl. rewrite N.max_0_r. set_solver.
  - destruct (N.max_spec x (newest (y :: acc))) as [[_ ->]|[_ ->]]; [|set_solver].
    apply elem_of_cons. right. by apply IH.
Qed.

Lemma newest_ge acc i : i ∈ acc -> (i <= newest acc)%N.
Proof.
  induction acc as [|x acc IH]; [by intros ?%not_elem_of_nil|]. simpl.
  intros [->|?%IH]%elem_of_cons; lia.
Qed.

Lemma shl64_bit v n k :
  N.testbit (shl64 v n) k = (k <? 64)%N && (n <=? k)%N && N.testbit v (k - n).
Proof.
  unfold shl64. rewrite N.land_spec. destruct (N.ltb_spec k 64) as [Hk|Hk].
  - rewrite N.ones_spec_low, andb_true_r by done. destruct (N.leb_spec n k).
    + by rewrite N.shiftl_spec_high' by done.
    + by rewrite N.shiftl_spec_low by done.
  - by rewrite N.ones_spec_high, andb_false_r by done.
Qed.

Lemma one_bit k : N.testbit 1 k = (k =? 0)%N.
Proof. destruct k as [|[]]; done. Qed.

Lemma single_bit back k : (back < 64)%N -> N.testbit (shl64 1 back) k = (k =? back)%N.
Proof.
  intros Hb. rewrite shl64_bit, one_bit.
  destruct (N.eqb_spec k back) as [->|Hne].
  - destruct (N.ltb_spec back 64); [|lia]. by rewrite N.leb_refl, N.sub_diag.
  - destruct (N.ltb_spec k 64), (N.leb_spec back k), (N.eqb_spec (k - back) 0); simpl; try done. lia.
Qed.

Lemma bit_test v back : (back < 64)%N -> (N.land v (shl64 1 back) =? 0)%N = negb (N.testbit v back).
Proof.
  intros Hb. destruct (N.testbit v back) eqn:E; simpl.
  - apply N.eqb_neq. intros H. apply (f_equal (fun x => N.testbit x back)) in H.
    rewrite N.land_spec, single_bit, N.eqb_refl, E in H by done. by rewrite N.bits_0 in H.
  - apply N.eqb_eq, N.bits_inj. intros k. rewrite N.land_spec, single_bit, N.bits_0 by done.
    destruct (N.eqb_spec k back) as [->|]; [by rewrite E|by rewrite andb_false_r].
Qed.

(** What a set bit of the represented window means. *)
Definition in_window (high : N) (acc : list N) (k : N) : Prop :=
  (k < WINDOW)%N /\ (k <= high)%N /\ (high - k)%N ∈ acc.

Lemma window_bits (high : N) (acc : list N) k :
  (k <? WINDOW)%N && (k <=? high)%N && bool_decide ((high - k)%N ∈ acc) = true
  <-> in_window high acc k.
Proof.
  unfold in_window. rewrite !andb_true_iff, N.ltb_lt, N.leb_le, bool_decide_eq_true. tauto.
Qed.

Lemma represents_intro high seen i acc :
  high = newest (i :: acc) ->
  (forall k, N.testbit seen k = true <-> in_window high (i :: acc) k) ->
  represents (mkReplay high seen true) (i :: acc).
Proof.
  intros Hh Hb. split_and!; [done|done|]. intros k. cbn [rp_high rp_seen].
  apply eq_bool_prop_intro. by rewrite !Is_true_true, window_bits.
Qed.

Lemma accept_first r i : rp_started r = false ->
  exists r', accept i r = (true, r') /\ represents r' [i].
Proof.
  intros Hs. unfold accept. rewrite Hs. eexists. split; [done|].
  apply represents_intro; [simpl; lia|]. intros k. rewrite one_bit, N.eqb_eq. unfold in_window.
  rewrite list_elem_of_singleton. unfold WINDOW. lia.
Qed.

Section started.
Context (r : Replay) (acc : list N) (i : N).
Context (Hacc : acc <> []) (Hstart : rp_started r = true) (Hhigh : rp_high r = newest acc).
Context (Hbits : forall k, N.testbit (rp_seen r) k = true <-> in_window (rp_high r) acc k).

Lemma accept_newer :
  (rp_high r < i)%N -> exists r', accept i r = (true, r') /\ represents r' (i :: acc).
Proof using Hstart Hhigh Hbits.
  intros Hi. unfold accept. rewrite Hstart. cbn [negb]. rewrite (proj2 (N.ltb_lt _ _) Hi).
  eexists. split; [done|]. apply represents_intro; [simpl; rewrite <- Hhigh; lia|]. intros k.
  rewrite N.lor_spec, orb_true_iff, one_bit, N.eqb_eq. set (shift := (i - rp_high r)%N).
  assert (N.testbit (if (WINDOW <=? shift)%N then 0 else shl64 (rp_seen r) shift) k = true <->
          (shift <= k)%N /\ in_window i acc k) as ->.
  { destruct (N.leb_spec WINDOW shift) as [Hs|Hs].
    - rewrite N.bits_0. unfold in_window, WINDOW in *. split; [done|lia].
    - rewrite shl64_bit, !andb_true_iff, N.ltb_lt, N.leb_le, Hbits. unfold in_window, WINDOW in *.
      split.
      + intros ([? ?] & ? & ? & Hin). replace (rp_high r - (k - shift))%N with (i - k)%N in Hin by lia.
        split_and!; [done..|lia|done].
      + intros (? & ? & ? & Hin). replace (i - k)%N with (rp_high r - (k - shift))%N in Hin by lia.
        split_and!; [done..|lia| |done]. apply newest_ge in Hin. lia. }
  unfold in_window. rewrite elem_of_cons. unfold WINDOW. split.
  - intros [(? & ? & ? & ?)| ->]; [naive_solver|]. rewrite N.sub_0_r. split_and!; [lia..|by left].
  - intros (? & ? & [?|Hin]); [right; lia|]. pose proof (newest_ge _ _ Hin).
    left. split_and!; [subst shift; lia|done..].
Qed.

Lemma accept_older :
  (i <= rp_high r)%N ->
  if decide ((rp_high r < i + WINDOW)%N /\ i ∉ acc)
  then exists r', accept i r = (true, r') /\ represents r' (i :: acc)
  else accept i r = (false, r).
Proof using Hstart Hhigh Hbits.
  intros Hi. unfold accept. rewrite Hstart. cbn [negb].
  destruct (N.ltb_spec (rp_high r) i); [lia|]. set (back := (rp_high r - i)%N).
  destruct (N.leb_spec WINDOW back) as [Hb|Hb].
  { by rewrite decide_False by (unfold WINDOW in *; lia). }
  rewrite bit_test by done.
  assert (N.testbit (rp_seen r) back = true <-> i ∈ acc) as Hbit.
  { rewrite Hbits. unfold in_window. replace (rp_high r - back)%N with i by lia.
    unfold WINDOW in *. split; [tauto|]. intros ?. split_and!; [done|lia|done]. }
  destruct (N.testbit (rp_seen r) back); cbn [negb].
  { rewrite decide_False; [done|]. intros [_ Hn]. by apply Hn, Hbit. }
  rewrite decide_True by (split; [unfold WINDOW in *; lia|by intros ?%Hbit]).
  eexists. split; [done|]. apply represents_intro.
  { simpl. rewrite <- Hhigh. lia. }
  intros k. rewrite N.lor_spec, orb_true_iff, single_bit, N.eqb_eq, Hbits by done.
  unfold in_window. rewrite elem_of_cons. unfold WINDOW in *. split.
  - intros [(? & ? & ?)| ->]; [by auto|]. split_and!; [done|lia|left; lia].
  - intros (? & ? & [?|?]); [right; lia|by left].
Qed.
End started.

Lemma accept_refines r acc i :
  represents r acc ->
  exists r', accept i r = (spec_accept acc i, r') /\
    represents r' (if spec_accept acc i then i :: acc else acc).
Proof.
  intros Hr. destruct acc as [|x acc']; [by apply accept_first|]. set (acc := x :: acc') in *.
  destruct Hr as (Hs & Hh & Hb).
  assert (forall k, N.testbit (rp_seen r) k = true <-> in_window (rp_high r) acc k) as Hbits.
  { intros k. by rewrite Hb, window_bits. }
  assert (spec_accept acc i = true <-> i ∉ acc /\ (rp_high r < i + WINDOW)%N) as Hsp.
  { unfold spec_accept. cbn. rewrite andb_true_iff, bool_decide_eq_true, N.ltb_lt, Hh. done. }
  destruct (N.lt_ge_cases (rp_high r) i) as [Hi|Hi].
  - assert (spec_accept acc i = true) as ->.
    { apply Hsp. split; [|unfold WINDOW; lia]. intros ?%newest_ge. lia. }
    by apply accept_newer.
  - pose proof (accept_older r acc i Hs Hh Hbits Hi) as Ho. case_decide as Hd.
    + assert (spec_accept acc i = true) as -> by (apply Hsp; tauto). done.
    + assert (spec_accept acc i = false) as -> by (apply not_true_iff_false; rewrite Hsp; tauto).
      exists r. split; [done|]. by split_and!.
Qed.

(** C35. The bitmap implements the specification: over any sequence of frame
    indices it gives the verdicts of the abstract window that remembers every
    accepted index. *)
Theorem replay_refines_spec l : replay_run replay_new l = spec_run [] l.
Proof.
  assert (forall r acc, represents r acc -> replay_run r l = spec_run acc l) as H; [|by apply H].
  induction l as [|i l IH]; intros r acc Hr; [done|]. cbn [replay_run spec_run].
  destruct (accept_refines r acc i Hr) as (r' & -> & Hr'). f_equal. by apply IH.
Qed.

(** No frame index is accepted twice: at most one of the verdicts for any
    index is positive, whatever else is received around it. *)
Theorem replay_accepts_once l p q i :
  p < q -> l !! p = Some i -> l !! q = Some i ->
  replay_run replay_new l !! p = Some true ->
  replay_run replay_new l !! q = Some false.
Proof.
  intros Hpq Hp Hq. generalize replay_new, (nil : list N), (eq_refl : represents replay_new []).
  assert (forall l r acc q, represents r acc -> i ∈ acc -> l !! q = Some i ->
            replay_run r l !! q = Some false) as Hin.
  { clear. induction l as [|x l IH]; intros r acc q Hr Hi Hq; [done|]. cbn [replay_run].
    destruct (accept_refines r acc x Hr) as (r' & -> & Hr').
    destruct q as [|q]; simpl in Hq |- *.
    - injection Hq as ->. f_equal. destruct acc; [by apply not_elem_of_nil in Hi|].
      unfold spec_accept. by rewrite bool_decide_eq_false_2 by tauto.
    - eapply IH; [exact Hr'| |done]. destruct (spec_accept acc x); set_solver. }
  revert p q Hpq Hp Hq. induction l as [|x l IH]; intros p q Hpq Hp Hq r acc Hr; [done|].
  cbn [replay_run]. destruct (accept_refines r acc x Hr) as (r' & -> & Hr').
  destruct q as [|q]; [lia|]. simpl in Hq. destruct p as [|p]; simpl in Hp |- *.
  - injection Hp as ->. intros [= Hb]. rewrite Hb in Hr'. eapply Hin; [exact Hr'|set_solver|done].
  - eapply IH; [|done|done|exact Hr']. lia.
Qed.

Lemma replay_accepts_once_witness :
  replay_run replay_new [10; 8; 9; 8]%N !! 3 = Some false.
Proof.
  apply (replay_accepts_once [10; 8; 9; 8]%N 1 3 8%N); [lia|done|done|by vm_compute].
Defined.
