(* ===== verification/Ratchet.v ===== *)
(** * Media ratchets ([crates/cfr-media/src/ratchet.rs])

    The sending and receiving epoch chains of one sender.  [epoch_chain] and
    [frame_key] are the abstract schedule; both sides are proved to follow it
    and hence to agree on every frame key. *)

From Stdlib Require Import NArith Lia.
From S2P Require Import Prelude Crypto Toy.

Definition EPOCH : N := 256.
Definition MAX_EPOCH_JUMP : N := 1024.

Record SendRatchet := mkSendRatchet { sr_chain : bytes; sr_epoch : N }.
Record RecvRatchet := mkRecvRatchet { rr_chain : bytes; rr_epoch : N }.

Section ratchet.
Context {P : Primitives}.

Definition media_base (group sender : bytes) : bytes :=
  kdf group (bstr "cfr/media/base") [sender].

(** The [while self.epoch < target_epoch] loop both sides run: the flag is
    false when [checked_add] fails. *)
Fixpoint epoch_loop (fuel : nat) (target : N) (chain : bytes) (epoch : N) : bool * bytes * N :=
  if (epoch <? target)%N then
    match fuel with
    | O => (true, chain, epoch)
    | S fuel =>
        let next := kdf chain (bstr "cfr/media/epoch") [] in
        match checked_add64 epoch 1 with
        | None => (false, next, epoch)
        | Some epoch => epoch_loop fuel target next epoch
        end
    end
  else (true, chain, epoch).

(** The loop runs once per missing epoch. *)
Definition epoch_fuel (target epoch : N) : nat := N.to_nat (target - epoch).

Definition send_new (group sender : bytes) : SendRatchet :=
  mkSendRatchet (media_base group sender) 0.

Definition send_key (index : N) (s : SendRatchet) : option bytes * SendRatchet :=
  let target := (index / EPOCH)%N in
  if (target <? sr_epoch s)%N then (None, s) else
  let '(ok, chain, epoch) :=
    epoch_loop (epoch_fuel target (sr_epoch s)) target (sr_chain s) (sr_epoch s) in
  (if ok : bool then Some (kdf chain (bstr "cfr/media/frame") [u64_to_be_bytes index]) else None,
   mkSendRatchet chain epoch).

Definition recv_ratchet_new (group sender : bytes) : RecvRatchet :=
  mkRecvRatchet (media_base group sender) 0.

Definition recv_key (index : N) (s : RecvRatchet) : option bytes * RecvRatchet :=
  let target := (index / EPOCH)%N in
  if (target <? rr_epoch s)%N || (MAX_EPOCH_JUMP <? target - rr_epoch s)%N then (None, s) else
  let '(ok, chain, epoch) :=
    epoch_loop (epoch_fuel target (rr_epoch s)) target (rr_chain s) (rr_epoch s) in
  (if ok : bool then Some (kdf chain (bstr "cfr/media/frame") [u64_to_be_bytes index]) else None,
   mkRecvRatchet chain epoch).

(** ** The schedule *)

Fixpoint epoch_chain (base : bytes) (n : nat) : bytes :=
  match n with
  | O => base
  | S n => kdf (epoch_chain base n) (bstr "cfr/media/epoch") []
  end.

Definition frame_key (group sender : bytes) (index : N) : bytes :=
  kdf (epoch_chain (media_base group sender) (N.to_nat (index / EPOCH)))
    (bstr "cfr/media/frame") [u64_to_be_bytes index].

Definition send_on (group sender : bytes) (s : SendRatchet) : Prop :=
  sr_chain s = epoch_chain (media_base group sender) (N.to_nat (sr_epoch s)).
Definition recv_on (group sender : bytes) (s : RecvRatchet) : Prop :=
  rr_chain s = epoch_chain (media_base group sender) (N.to_nat (rr_epoch s)).

Lemma epoch_loop_spec base fuel target epoch :
  (epoch <= target)%N -> fuel = epoch_fuel target epoch -> (target < two64)%N ->
  epoch_loop fuel target (epoch_chain base (N.to_nat epoch)) epoch
  = (true, epoch_chain base (N.to_nat target), target).
Proof.
  revert epoch. induction fuel as [|fuel IH]; intros epoch Hle Hf Ht; unfold epoch_fuel in Hf;
    cbn [epoch_loop]; destruct (N.ltb_spec epoch target) as [Hlt|Hge].
  - lia.
  - by replace epoch with target by lia.
  - unfold checked_add64. destruct (N.ltb_spec (epoch + 1) two64); [|lia].
    change (kdf (epoch_chain base (N.to_nat epoch)) (bstr "cfr/media/epoch") [])
      with (epoch_chain base (S (N.to_nat epoch))).
    rewrite <- N2Nat.inj_succ, <- N.add_1_r. apply IH; [lia|unfold epoch_fuel; lia|done].
  - by replace epoch with target by lia.
Qed.

Lemma epoch_bound index : (index < two64)%N -> (index / EPOCH < two64)%N.
Proof. intros H. apply N.Div0.div_lt_upper_bound. unfold EPOCH, two64 in *. lia. Qed.

Lemma send_key_on group sender index s :
  send_on group sender s -> (index < two64)%N -> (sr_epoch s <= index / EPOCH)%N ->
  exists s', send_key index s = (Some (frame_key group sender index), s') /\
    send_on group sender s' /\ sr_epoch s' = (index / EPOCH)%N.
Proof.
  intros Hon Hi He. unfold send_key. destruct (N.ltb_spec (index / EPOCH) (sr_epoch s)); [lia|].
  rewrite Hon, epoch_loop_spec by auto using epoch_bound. eexists. by split_and!.
Qed.

Lemma recv_key_on group sender index s :
  recv_on group sender s -> (index < two64)%N ->
  (rr_epoch s <= index / EPOCH <= rr_epoch s + MAX_EPOCH_JUMP)%N ->
  exists s', recv_key index s = (Some (frame_key group sender index), s') /\
    recv_on group sender s' /\ rr_epoch s' = (index / EPOCH)%N.
Proof.
  intros Hon Hi [He Hj]. unfold recv_key.
  destruct (N.ltb_spec (index / EPOCH) (rr_epoch s)); [lia|].
  destruct (N.ltb_spec MAX_EPOCH_JUMP (index / EPOCH - rr_epoch s)); [lia|]. cbn [orb].
  rewrite Hon, epoch_loop_spec by auto using epoch_bound. eexists. by split_and!.
Qed.

(** Both ends of a media stream derive the same frame key: a sender and a
    receiver of one group key and sender, at any epochs not past the frame's
    (the receiver at most 1024 behind), return the same key and land on the
    same epoch; a frame of a passed epoch gets no key and changes nothing. *)
Theorem media_ratchets_agree group sender index tx rx :
  send_on group sender tx -> recv_on group sender rx -> (index < two64)%N ->
  ((sr_epoch tx <= index / EPOCH)%N ->
   (rr_epoch rx <= index / EPOCH <= rr_epoch rx + MAX_EPOCH_JUMP)%N ->
   (send_key index tx).1 = Some (frame_key group sender index) /\
   (recv_key index rx).1 = (send_key index tx).1 /\
   rr_epoch (recv_key index rx).2 = sr_epoch (send_key index tx).2) /\
  ((index / EPOCH < rr_epoch rx \/ rr_epoch rx + MAX_EPOCH_JUMP < index / EPOCH)%N ->
   recv_key index rx = (None, rx)) /\
  ((index / EPOCH < sr_epoch tx)%N -> send_key index tx = (None, tx)).
Proof.
  intros Htx Hrx Hi. split_and!.
  - intros Hs Hr. destruct (send_key_on _ _ _ _ Htx Hi Hs) as (tx' & -> & _ & He).
    destruct (recv_key_on _ _ _ _ Hrx Hi Hr) as (rx' & -> & _ & He').
    cbn [fst snd]. by rewrite He, He'.
  - intros Hb. unfold recv_key. destruct (N.ltb_spec (index / EPOCH) (rr_epoch rx)); [done|].
    destruct (N.ltb_spec MAX_EPOCH_JUMP (index / EPOCH - rr_epoch rx)); [done|]. lia.
  - intros Hb. unfold send_key. by rewrite (proj2 (N.ltb_lt _ _) Hb).
Qed.
End ratchet.

Lemma media_ratchets_agree_witness :
  (recv_key (P := Toy) 700 (recv_ratchet_new (P := Toy) [Byte.x03] [Byte.x09])).1
  = (send_key (P := Toy) 700 (send_new (P := Toy) [Byte.x03] [Byte.x09])).1.
Proof.
  apply (media_ratchets_agree (P := Toy) [Byte.x03] [Byte.x09] 700); try done; by vm_compute.
Defined.
