(* ===== verification/Layout.v ===== *)
(** * Frame partitioning ([crates/cfr-media/src/codec/])

    The parsers that split a frame into readable structure and protected
    content, for a 64-bit [usize].  Positions are [N]; a range is a pair.  The
    loops are fuelled by the frame length, since each iteration consumes at
    least one byte.  [layout_tiling] shows that every codec tiles every frame. *)

From Stdlib Require Import NArith Lia.
From S2P Require Import Prelude.

Inductive Codec := H264 | H265 | Av1 | Vp8 | Vp9 | Opus | Generic.

#[export] Instance Codec_eq_dec : EqDecision Codec.
Proof. solve_decision. Defined.

Definition is_audio (c : Codec) : bool := match c with Opus => true | _ => false end.

Abbreviation Range := (N * N)%type.
Abbreviation Unit := (Range * Range)%type.

Record Layout := mkLayout { ly_clear : list Range; ly_secret : list Range }.

Definition layout_default : Layout := mkLayout [] [].

Definition layout_prefix (len total : N) : Layout :=
  let cut := N.min len total in
  mkLayout (if (0 <? cut)%N then [(0%N, cut)] else [])
           (if (cut <? total)%N then [(cut, total)] else []).

Definition range_len (r : Range) : N := (r.2 - r.1)%N.
Definition secret_len (l : Layout) : N := foldr (fun r s => range_len r + s)%N 0%N (ly_secret l).

(** Stable sort by start: equal starts keep their order. *)
Fixpoint insert_range (r : Range) (l : list Range) : list Range :=
  match l with
  | [] => [r]
  | x :: l' => if (r.1 <? x.1)%N then r :: l else x :: insert_range r l'
  end.
Definition sort_ranges (l : list Range) : list Range := foldl (fun acc r => insert_range r acc) [] l.

Fixpoint tiles_from (l : list Range) (pos total : N) : bool :=
  match l with
  | [] => (pos =? total)%N
  | r :: l =>
      if negb (r.1 =? pos)%N || (r.2 <? r.1)%N || (total <? r.2)%N then false
      else tiles_from l r.2 total
  end.

Definition tiles (l : Layout) (total : N) : bool :=
  tiles_from (sort_ranges (ly_clear l ++ ly_secret l)) 0 total.

(** [frame[i]], used only below the length. *)
Definition byte_at (frame : bytes) (i : N) : N :=
  match frame !! N.to_nat i with Some b => Byte.to_N b | None => 0%N end.

(** ** H.264 and H.265 *)

Fixpoint start_codes_loop (frame : bytes) (fuel : nat) (i : N) : list (N * N) :=
  match fuel with
  | O => []
  | S fuel =>
    if (i + 3 <=? lenN frame)%N then
      if (byte_at frame i =? 0)%N && (byte_at frame (i + 1) =? 0)%N
         && (byte_at frame (i + 2) =? 1)%N
      then (i, 3%N) :: start_codes_loop frame fuel (i + 3)
      else if (byte_at frame i =? 0)%N && (byte_at frame (i + 1) =? 0)%N
              && (i + 4 <=? lenN frame)%N && (byte_at frame (i + 2) =? 0)%N
              && (byte_at frame (i + 3) =? 1)%N
      then (i, 4%N) :: start_codes_loop frame fuel (i + 4)
      else start_codes_loop frame fuel (i + 1)
    else []
  end.

Definition start_codes (frame : bytes) : list (N * N) :=
  start_codes_loop frame (S (length frame)) 0.

(** The loop over start codes, each with the next one or the frame end. *)
Fixpoint units_of_codes (codes : list (N * N)) (total : N) : option (list Unit) :=
  match codes with
  | [] => Some []
  | (pos, len) :: rest =>
      let body_start := (pos + len)%N in
      let body_end := match rest with (n, _) :: _ => n | [] => total end in
      if (body_end <? body_start)%N then None
      else (fun us => ((pos, body_start), (body_start, body_end)) :: us)
             <$> units_of_codes rest total
  end.

Definition annex_b_units (frame : bytes) : option (list Unit) :=
  let codes := start_codes frame in
  match codes with
  | [] => None
  | (p, _) :: _ => if negb (p =? 0)%N then None else units_of_codes codes (lenN frame)
  end.

Fixpoint length_prefixed_loop (frame : bytes) (fuel : nat) (i : N) : option (list Unit) :=
  match fuel with
  | O => Some []
  | S fuel =>
    if (i <? lenN frame)%N then
      if (lenN frame <? i + 4)%N then None else
      let n := be_val (slice frame i (i + 4)) in
      if (n =? 0)%N || (lenN frame <? i + 4 + n)%N then None else
      (fun us => ((i, i + 4), (i + 4, i + 4 + n))%N :: us)
        <$> length_prefixed_loop frame fuel (i + 4 + n)
    else Some []
  end.

Definition length_prefixed_units (frame : bytes) : option (list Unit) :=
  match length_prefixed_loop frame (S (length frame)) 0 with
  | None => None
  | Some [] => None
  | Some out => Some out
  end.

(** Extends the last clear range when the next one touches it. *)
Definition merge_clear (merged : list Range) (r : Range) : list Range :=
  match last merged with
  | Some prev =>
      if (prev.2 =? r.1)%N then removelast merged ++ [(prev.1, r.2)] else merged ++ [r]
  | None => merged ++ [r]
  end.

(** One unit: its readable range, and its content range if it has one. *)
Definition unit_clear (header : N) (u : Unit) : Range :=
  (u.1.1, N.min (u.2.1 + header) u.2.2).
Definition unit_secret (header : N) (u : Unit) : list Range :=
  let clear_end := N.min (u.2.1 + header) u.2.2 in
  if (clear_end <? u.2.2)%N then [(clear_end, u.2.2)] else [].

Definition from_units (units : list Unit) (header : N) : Layout :=
  let clear := unit_clear header <$> units in
  let secret := concat (unit_secret header <$> units) in
  mkLayout (foldl merge_clear [] clear) secret.

Definition layout_with_header (frame : bytes) (header : N) : Layout :=
  match frame with
  | [] => layout_default
  | _ =>
      match annex_b_units frame with
      | Some units => from_units units header
      | None =>
          match length_prefixed_units frame with
          | Some units => from_units units header
          | None => layout_prefix 0 (lenN frame)
          end
      end
  end.

Definition h264_layout (frame : bytes) : Layout := layout_with_header frame 1.
Definition h265_layout (frame : bytes) : Layout := layout_with_header frame 2.

(** ** AV1 *)

Definition OBU_EXTENSION_FLAG : N := 4.
Definition OBU_HAS_SIZE_FIELD : N := 2.
Definition OBU_FORBIDDEN_BIT : N := 128.

Fixpoint leb128_loop (buf : bytes) (at_ : N) (fuel : nat) (i value : N) : option (N * N) :=
  match fuel with
  | O => None
  | S fuel =>
    match buf !! N.to_nat (at_ + i) with
    | None => None
    | Some b =>
        let b := Byte.to_N b in
        let value := N.lor value (N.shiftl (N.land b 127) (i * 7)) in
        let i := (i + 1)%N in
        if (N.land b 128 =? 0)%N then Some (value, i) else leb128_loop buf at_ fuel i value
    end
  end.

(** At most eight bytes are read. *)
Definition leb128 (buf : bytes) (at_ : N) : option (N * N) := leb128_loop buf at_ 8 0 0.

(** [None] where the code falls back to protecting the whole frame. *)
Fixpoint obu_loop (frame : bytes) (fuel : nat) (pos : N) : option (list Unit) :=
  match fuel with
  | O => Some []
  | S fuel =>
    if (pos <? lenN frame)%N then
      let header := byte_at frame pos in
      if negb (N.land header OBU_FORBIDDEN_BIT =? 0)%N then None else
      let meta := if negb (N.land header OBU_EXTENSION_FLAG =? 0)%N then 2%N else 1%N in
      if (lenN frame <? pos + meta)%N then None else
      '(payload_len, meta) ←
        (if negb (N.land header OBU_HAS_SIZE_FIELD =? 0)%N
         then '(len, width) ← leb128 frame (pos + meta); Some (len, (meta + width)%N)
         else Some ((lenN frame - (pos + meta))%N, meta));
      let body_start := (pos + meta)%N in
      body_end ← checked_add64 body_start payload_len;
      if (lenN frame <? body_end)%N then None else
      (fun us => ((pos, body_start), (body_start, body_end)) :: us)
        <$> obu_loop frame fuel body_end
    else Some []
  end.

Definition av1_layout (frame : bytes) : Layout :=
  match obu_loop frame (S (length frame)) 0 with
  | None => layout_prefix 0 (lenN frame)
  | Some [] => layout_prefix 0 (lenN frame)
  | Some units => from_units units 0
  end.

(** ** VP8, VP9 and the dispatcher *)

Definition VP8_UNCOMPRESSED : N := 3.
Definition VP8_KEYFRAME_EXTRA : N := 7.

Definition vp8_layout (frame : bytes) (keyframe : bool) : Layout :=
  let declared_key := match frame with
                      | b :: _ => (N.land (Byte.to_N b) 1 =? 0)%N
                      | [] => false
                      end in
  let is_key := keyframe && declared_key in
  let n := if is_key then (VP8_UNCOMPRESSED + VP8_KEYFRAME_EXTRA)%N else VP8_UNCOMPRESSED in
  layout_prefix n (lenN frame).

Definition vp9_layout (frame : bytes) : Layout := layout_prefix 0 (lenN frame).

Definition layout (codec : Codec) (frame : bytes) (keyframe : bool) : Layout :=
  match codec with
  | H264 => h264_layout frame
  | H265 => h265_layout frame
  | Av1 => av1_layout frame
  | Vp8 => vp8_layout frame keyframe
  | Vp9 => vp9_layout frame
  | Opus => layout_prefix 1 (lenN frame)
  | Generic => layout_prefix 0 (lenN frame)
  end.

(** ** Tilings

    A layout is a tiling when its ranges are the tagged pieces of one chain of
    non-empty ranges from the start of the frame to its end. *)

Fixpoint chain (l : list (bool * Range)) (pos total : N) : Prop :=
  match l with
  | [] => pos = total
  | (_, r) :: l => r.1 = pos /\ (pos < r.2)%N /\ chain l r.2 total
  end.

Definition clears (l : list (bool * Range)) : list Range := (filter (fun e => e.1 = true) l).*2.
Definition secrets (l : list (bool * Range)) : list Range := (filter (fun e => e.1 = false) l).*2.

Definition tiling (l : Layout) (total : N) : Prop :=
  exists L, chain L 0 total /\ ly_clear l = clears L /\ ly_secret l = secrets L.

Fixpoint unit_chain (us : list Unit) (pos total : N) : Prop :=
  match us with
  | [] => pos = total
  | u :: us =>
      u.1.1 = pos /\ (pos < u.1.2)%N /\ u.1.2 = u.2.1 /\ (u.2.1 <= u.2.2)%N /\
      unit_chain us u.2.2 total
  end.

Lemma chain_le L pos total : chain L pos total -> (pos <= total)%N.
Proof.
  revert pos. induction L as [|[b r] L IH]; intros pos; simpl; [lia|].
  intros (_ & ? & ?%IH). lia.
Qed.

Lemma chain_snoc L b r pos total :
  chain (L ++ [(b, r)]) pos total <-> chain L pos r.1 /\ (r.1 < r.2)%N /\ r.2 = total.
Proof.
  revert pos. induction L as [|[c s] L IH]; intros pos; simpl; [naive_solver|].
  rewrite IH. tauto.
Qed.

Lemma unit_chain_snoc us u pos total :
  unit_chain (us ++ [u]) pos total <->
  unit_chain us pos u.1.1 /\ (u.1.1 < u.1.2)%N /\ u.1.2 = u.2.1 /\ (u.2.1 <= u.2.2)%N /\
  u.2.2 = total.
Proof.
  revert pos. induction us as [|v us IH]; intros pos; simpl; [naive_solver|].
  rewrite IH. tauto.
Qed.

Lemma clears_snoc L b r : clears (L ++ [(b, r)]) = clears L ++ (if b then [r] else []).
Proof. unfold clears. rewrite filter_app, fmap_app. f_equal. by destruct b. Qed.
Lemma secrets_snoc L b r : secrets (L ++ [(b, r)]) = secrets L ++ (if b then [] else [r]).
Proof. unfold secrets. rewrite filter_app, fmap_app. f_equal. by destruct b. Qed.

(** The state after some units: the pieces so far, the last of which is the
    last clear range whenever that range reaches the current position. *)
Definition partial (merged secret : list Range) (pos : N) : Prop :=
  exists L, chain L 0 pos /\ merged = clears L /\ secret = secrets L /\
    forall prev, last merged = Some prev -> prev.2 = pos ->
      exists L', L = L' ++ [(true, prev)].

Lemma partial_clear merged secret pos e :
  partial merged secret pos -> (pos < e)%N -> partial (merge_clear merged (pos, e)) secret e.
Proof.
  intros (L & Hc & -> & -> & Hlast) He. unfold merge_clear. cbn [fst snd].
  destruct (last (clears L)) as [prev|] eqn:El.
  - destruct (N.eqb_spec prev.2 pos) as [Hp|Hp].
    + destruct (Hlast prev eq_refl Hp) as [L' ->]. exists (L' ++ [(true, (prev.1, e))]).
      rewrite chain_snoc in Hc. rewrite !clears_snoc, !secrets_snoc, removelast_last.
      split_and!; [|done|done|].
      * rewrite chain_snoc. simpl. split_and!; [apply Hc|lia|done].
      * intros p Hlp _. rewrite last_snoc in Hlp. injection Hlp as <-. by exists L'.
    + exists (L ++ [(true, (pos, e))]). rewrite clears_snoc, secrets_snoc, app_nil_r.
      split_and!; [by rewrite chain_snoc|done|done|].
      intros p Hlp _. rewrite last_snoc in Hlp. injection Hlp as <-. by exists L.
  - exists (L ++ [(true, (pos, e))]). rewrite clears_snoc, secrets_snoc, app_nil_r.
    split_and!; [by rewrite chain_snoc|done|done|].
    intros p Hlp _. rewrite last_snoc in Hlp. injection Hlp as <-. by exists L.
Qed.

Lemma partial_last merged secret pos e :
  partial merged secret pos -> (pos < e)%N ->
  exists prev, last (merge_clear merged (pos, e)) = Some prev /\ prev.2 = e.
Proof.
  intros _ _. unfold merge_clear. destruct (last merged) as [prev|]; [destruct (_ =? _)%N|];
    rewrite last_snoc; eauto.
Qed.

Lemma partial_secret merged secret pos e :
  partial merged secret pos -> (pos < e)%N ->
  (exists prev, last merged = Some prev /\ prev.2 = pos) ->
  partial merged (secret ++ [(pos, e)]) e.
Proof.
  intros (L & Hc & -> & -> & _) He (prev & Hl & Hp).
  exists (L ++ [(false, (pos, e))]). rewrite clears_snoc, secrets_snoc, app_nil_r.
  split_and!; [by rewrite chain_snoc|done|done|]. intros p Hlp Hpe. simplify_eq. lia.
Qed.

Lemma from_units_partial us header pos :
  unit_chain us 0 pos ->
  partial (ly_clear (from_units us header)) (ly_secret (from_units us header)) pos.
Proof.
  revert pos. induction us as [|u us IH] using rev_ind; intros pos.
  { intros <-. by exists []. }
  rewrite unit_chain_snoc. intros (Hus & H1 & H2 & H3 & <-). specialize (IH _ Hus).
  unfold from_units in *. cbn [ly_clear ly_secret] in *.
  rewrite !fmap_app, foldl_app, concat_app. cbn [fmap list_fmap foldl concat app].
  unfold unit_clear, unit_secret. set (ce := N.min (u.2.1 + header) u.2.2).
  assert (u.1.1 < ce)%N as Hce by (subst ce; lia).
  pose proof (partial_clear _ _ _ _ IH Hce) as HP.
  destruct (N.ltb_spec ce u.2.2) as [Hs|Hs].
  - rewrite app_nil_r. eapply partial_secret; [done|done|by eapply partial_last].
  - rewrite !app_nil_r. assert (ce = u.2.2) as <- by (subst ce; lia). done.
Qed.

Lemma from_units_tiling us header total :
  unit_chain us 0 total -> tiling (from_units us header) total.
Proof. intros (L & ? & ? & ? & _)%(from_units_partial us header). by exists L. Qed.

Lemma prefix_tiling n total : tiling (layout_prefix n total) total.
Proof.
  unfold layout_prefix. set (cut := N.min n total). cbn zeta.
  destruct (N.ltb_spec 0 cut), (N.ltb_spec cut total).
  - exists [(true, (0, cut)); (false, (cut, total))]%N. by split_and!.
  - exists [(true, (0, cut))]%N. split_and!; try done. simpl. lia.
  - exists [(false, (cut, total))]%N. split_and!; try done. simpl. lia.
  - exists []. split_and!; try done. simpl. lia.
Qed.

(** ** Every parser yields a chain of units *)

Fixpoint codes_ok (codes : list (N * N)) (i total : N) : Prop :=
  match codes with
  | [] => True
  | (p, n) :: rest => (i <= p)%N /\ (3 <= n)%N /\ (p + n <= total)%N /\ codes_ok rest (p + n) total
  end.

Lemma codes_ok_weaken codes i j total : (i <= j)%N -> codes_ok codes j total -> codes_ok codes i total.
Proof. destruct codes as [|[p n] rest]; simpl; [done|]. intros. split_and!; try tauto. lia. Qed.

Lemma start_codes_ok frame fuel i : codes_ok (start_codes_loop frame fuel i) i (lenN frame).
Proof.
  revert i. induction fuel as [|fuel IH]; intros i; cbn [start_codes_loop]; [done|].
  destruct (N.leb_spec (i + 3) (lenN frame)); [|done].
  destruct (_ && (byte_at frame (i + 2) =? 1)%N).
  { cbn [codes_ok]. split_and!; [lia..|apply IH]. }
  destruct (N.leb_spec (i + 4) (lenN frame)).
  - destruct (_ && (byte_at frame (i + 3) =? 1)%N).
    + cbn [codes_ok]. split_and!; [lia..|apply IH].
    + eapply codes_ok_weaken, IH. lia.
  - rewrite andb_false_r. cbn [andb]. eapply codes_ok_weaken, IH. lia.
Qed.

Lemma units_of_codes_chain codes p n rest total i :
  codes = (p, n) :: rest -> codes_ok codes i total ->
  exists us, units_of_codes codes total = Some us /\ unit_chain us p total.
Proof.
  revert p n rest i. induction codes as [|[p' n'] codes IH]; [done|].
  intros p n rest i [= -> -> ->] (Hi & Hn & Ht & Hok). cbn [units_of_codes].
  destruct rest as [|[q m] rest].
  - destruct (N.ltb_spec total (p + n)); [lia|]. eexists. split; [done|]. simpl. lia.
  - pose proof Hok as (Hq & _ & _ & _). destruct (N.ltb_spec q (p + n)); [lia|].
    destruct (IH q m rest (p + n)%N eq_refl Hok) as (us & -> & Hus).
    eexists. split; [done|]. simpl. split_and!; [done|lia|done|lia|done].
Qed.

Lemma annex_b_chain frame us :
  annex_b_units frame = Some us -> unit_chain us 0 (lenN frame).
Proof.
  unfold annex_b_units, start_codes.
  pose proof (start_codes_ok frame (S (length frame)) 0) as Hok.
  destruct (start_codes_loop _ _ _) as [|[p n] rest]; [done|].
  destruct (N.eqb_spec p 0) as [->|]; [|done]. cbn [negb]. intros Hu.
  destruct (units_of_codes_chain _ 0 n rest (lenN frame) 0 eq_refl Hok) as (us' & Hu' & Hc).
  by rewrite Hu in Hu'; injection Hu' as ->.
Qed.

Lemma length_prefixed_chain frame fuel i us :
  (i <= lenN frame)%N -> (lenN frame < i + N.of_nat fuel)%N ->
  length_prefixed_loop frame fuel i = Some us -> unit_chain us i (lenN frame).
Proof.
  revert i us. induction fuel as [|fuel IH]; intros i us Hi Hf; [lia|].
  cbn [length_prefixed_loop]. destruct (N.ltb_spec i (lenN frame)).
  - destruct (N.ltb_spec (lenN frame) (i + 4)); [done|]. cbn zeta.
    set (n := be_val _). destruct (N.eqb_spec n 0); [done|]. cbn [orb].
    destruct (N.ltb_spec (lenN frame) (i + 4 + n)); [done|].
    intros (us' & Hus & ->)%fmap_Some. apply IH in Hus; [|lia|lia]. simpl.
    split_and!; [done|lia|done|lia|done].
  - intros [= <-]. simpl. lia.
Qed.

Lemma obu_chain frame fuel pos us :
  (pos <= lenN frame)%N -> (lenN frame < pos + N.of_nat fuel)%N ->
  obu_loop frame fuel pos = Some us -> unit_chain us pos (lenN frame).
Proof.
  revert pos us. induction fuel as [|fuel IH]; intros pos us Hi Hf; [lia|].
  cbn [obu_loop]. destruct (N.ltb_spec pos (lenN frame)); [|intros [= <-]; simpl; lia].
  destruct (negb _); [done|]. set (meta := if negb _ then 2%N else 1%N).
  assert (1 <= meta)%N as Hm by (subst meta; destruct (negb _); lia).
  destruct (N.ltb_spec (lenN frame) (pos + meta)); [done|].
  intros ([len m2] & Hp & Hrest)%bind_Some.
  assert (meta <= m2)%N as Hm2.
  { clearbody meta. destruct (N.land (byte_at frame pos) OBU_HAS_SIZE_FIELD =? 0)%N; cbn [negb] in Hp.
    - by injection Hp as _ <-.
    - apply bind_Some in Hp as ([v w] & _ & [= _ <-]). lia. }
  apply bind_Some in Hrest as (e & He & Hrest).
  unfold checked_add64 in He. destruct (N.ltb_spec (pos + m2 + len) two64); [|done].
  injection He as <-. destruct (N.ltb_spec (lenN frame) (pos + m2 + len)); [done|].
  apply fmap_Some in Hrest as (us' & Hus & ->). apply IH in Hus; [|lia|lia].
  simpl. split_and!; [done|lia|done|lia|done].
Qed.

Lemma layout_tiling codec frame kf : tiling (layout codec frame kf) (lenN frame).
Proof.
  assert (forall header, tiling (layout_with_header frame header) (lenN frame)) as Hh.
  { intros header. unfold layout_with_header. destruct frame as [|b frame']; [by exists []|].
    set (frame := b :: frame'). destruct (annex_b_units frame) as [us|] eqn:Ea.
    { by apply from_units_tiling, annex_b_chain. }
    destruct (length_prefixed_units frame) as [us|] eqn:El; [|apply prefix_tiling].
    apply from_units_tiling. unfold length_prefixed_units in El.
    destruct (length_prefixed_loop _ _ _) as [us'|] eqn:E; [|done].
    apply length_prefixed_chain in E; [|lia|unfold lenN; lia].
    destruct us' as [|u us']; [done|]. by injection El as <-. }
  destruct codec; cbn [layout]; try apply prefix_tiling; try apply Hh.
  unfold av1_layout. destruct (obu_loop _ _ _) as [[|u us]|] eqn:E; try apply prefix_tiling.
  apply from_units_tiling. eapply obu_chain; [| |exact E]; unfold lenN; lia.
Qed.

(** ** The runtime check agrees *)

Definition starts_le (a b : Range) : Prop := (a.1 <= b.1)%N.

Lemma insert_range_perm r l : insert_range r l ≡ₚ r :: l.
Proof.
  induction l as [|x l IH]; simpl; [done|]. destruct (_ <? _)%N; [done|].
  rewrite IH. apply Permutation_swap.
Qed.

Lemma insert_range_sorted r l :
  StronglySorted starts_le l -> StronglySorted starts_le (insert_range r l).
Proof.
  induction 1 as [|x l Hs IH Hx]; simpl; [repeat constructor|].
  destruct (N.ltb_spec r.1 x.1) as [Hr|Hr].
  - constructor; [by constructor|]. constructor; [unfold starts_le; lia|].
    eapply Forall_impl; [done|]. unfold starts_le. intros; lia.
  - constructor; [done|]. rewrite insert_range_perm. by constructor.
Qed.

Lemma sort_ranges_spec l : sort_ranges l ≡ₚ l /\ StronglySorted starts_le (sort_ranges l).
Proof.
  unfold sort_ranges. assert (forall acc, StronglySorted starts_le acc ->
    foldl (fun acc r => insert_range r acc) acc l ≡ₚ acc ++ l /\
    StronglySorted starts_le (foldl (fun acc r => insert_range r acc) acc l)) as H.
  { induction l as [|r l IH]; intros acc Hacc; simpl; [by rewrite app_nil_r|].
    destruct (IH (insert_range r acc)) as [H1 H2]; [by apply insert_range_sorted|].
    split; [|done]. rewrite H1, insert_range_perm. apply Permutation_middle. }
  apply (H []). constructor.
Qed.

Lemma chain_starts L pos total e : chain L pos total -> e ∈ L -> (pos <= e.2.1 < e.2.2)%N /\ (e.2.2 <= total)%N.
Proof.
  revert pos. induction L as [|[b r] L IH]; intros pos; simpl; [by intros _ ?%not_elem_of_nil|].
  intros (Hr & Hlt & Hc) [->|He]%elem_of_cons; simpl.
  - apply chain_le in Hc. lia.
  - destruct (IH _ Hc He). lia.
Qed.

Lemma chain_sorted L pos total :
  chain L pos total -> StronglySorted (fun a b => (a.1 < b.1)%N) L.*2.
Proof.
  revert pos. induction L as [|[b r] L IH]; intros pos; simpl; [constructor|].
  intros (Hr & Hlt & Hc). constructor; [by eapply IH|].
  apply Forall_forall. intros x (e & -> & He)%list_elem_of_fmap.
  destruct (chain_starts _ _ _ _ Hc He). lia.
Qed.

(** A list with increasing starts is the only sorted arrangement of its ranges. *)
Lemma sorted_ranges_unique l k :
  StronglySorted starts_le l -> StronglySorted (fun a b : Range => (a.1 < b.1)%N) k ->
  l ≡ₚ k -> l = k.
Proof.
  revert k. induction l as [|x l IH]; intros k Hl Hk Hp.
  { by apply Permutation_nil_l in Hp. }
  destruct k as [|y k]; [by apply Permutation_nil_r in Hp|].
  apply StronglySorted_cons in Hl as [Hx Hl]. apply StronglySorted_cons in Hk as [Hy Hk].
  rewrite Forall_forall in Hx, Hy.
  assert (x = y) as ->.
  { assert (x ∈ y :: k) as Hin by (rewrite <- Hp; set_solver).
    apply elem_of_cons in Hin as [?|Hin]; [done|]. apply Hy in Hin.
    assert (y ∈ x :: l) as Hin' by (rewrite Hp; set_solver).
    apply elem_of_cons in Hin' as [->|Hin']; [done|]. apply Hx in Hin'.
    unfold starts_le in Hin'. lia. }
  f_equal. apply IH; [done|done|]. by apply Permutation_cons_inv in Hp.
Qed.

Lemma clears_secrets_perm L : clears L ++ secrets L ≡ₚ L.*2.
Proof.
  unfold clears, secrets. rewrite <- fmap_app. apply fmap_Permutation.
  induction L as [|[b r] L IH]; [done|]. rewrite !filter_cons. cbn [fst]. destruct b; simpl.
  - by rewrite IH.
  - by rewrite <- Permutation_middle, IH.
Qed.

Lemma chain_tiles_from L pos total : chain L pos total -> tiles_from L.*2 pos total = true.
Proof.
  revert pos. induction L as [|[b r] L IH]; intros pos; simpl; [by intros ->%N.eqb_eq|].
  intros (Hr & Hlt & Hc). pose proof (chain_le _ _ _ Hc).
  destruct (N.eqb_spec r.1 pos), (N.ltb_spec r.2 r.1), (N.ltb_spec total r.2); try lia.
  simpl. by apply IH.
Qed.

(** Every codec tiles every frame: whatever bytes arrive, the readable and
    protected ranges cover the frame exactly once, without gap or overlap, so
    no content byte is left in the clear by accident or encrypted twice. *)
Theorem layout_tiles codec frame kf :
  tiles (layout codec frame kf) (lenN frame) = true.
Proof.
  destruct (layout_tiling codec frame kf) as (L & Hc & H1 & H2). unfold tiles. rewrite H1, H2.
  destruct (sort_ranges_spec (clears L ++ secrets L)) as [Hp Hs].
  rewrite (sorted_ranges_unique _ L.*2 Hs (chain_sorted _ _ _ Hc)).
  - by apply chain_tiles_from.
  - by rewrite Hp, clears_secrets_perm.
Qed.

(** ** What the frame layer needs of a tiling *)

(** Ascending, disjoint, non-empty ranges inside [[pos, total)]. *)
Fixpoint ascending (rs : list Range) (pos total : N) : Prop :=
  match rs with
  | [] => (pos <= total)%N
  | r :: rs => (pos <= r.1 < r.2)%N /\ ascending rs r.2 total
  end.

Lemma ascending_weaken rs p q total : (p <= q)%N -> ascending rs q total -> ascending rs p total.
Proof. destruct rs; simpl; [lia|]. intros ? [? ?]. split; [lia|done]. Qed.

Lemma chain_ascending L pos total : chain L pos total -> ascending (secrets L) pos total.
Proof.
  unfold secrets. revert pos. induction L as [|[b r] L IH]; intros pos; simpl; [lia|].
  intros (Hr & Hlt & Hc). rewrite filter_cons. cbn [fst]. destruct b; simpl.
  - eapply ascending_weaken, IH; [|done]. lia.
  - split; [lia|by apply IH].
Qed.

Definition covers (rs : list Range) (i : N) : Prop := exists r, r ∈ rs /\ (r.1 <= i < r.2)%N.

(** No position is both readable and protected. *)
Lemma chain_disjoint L pos total r s i :
  chain L pos total -> r ∈ clears L -> s ∈ secrets L ->
  (r.1 <= i < r.2)%N -> (s.1 <= i < s.2)%N -> False.
Proof.
  unfold clears, secrets. intros Hc (e & -> & [Hb He]%list_elem_of_filter)%list_elem_of_fmap
    (e' & -> & [Hb' He']%list_elem_of_filter)%list_elem_of_fmap Hr Hs.
  revert pos Hc He He'. induction L as [|[b x] L IH]; intros pos; simpl;
    [by intros _ ?%not_elem_of_nil|].
  intros (Hx & Hlt & Hc) [->|He]%elem_of_cons [->|He']%elem_of_cons.
  - simpl in *. congruence.
  - destruct (chain_starts _ _ _ _ Hc He'). simpl in *. lia.
  - destruct (chain_starts _ _ _ _ Hc He). simpl in *. lia.
  - by eapply IH.
Qed.
