(* ===== verification/Frame.v ===== *)
(** * Protected media frames ([crates/cfr-media/src/frame.rs], [error.rs])

    The trailer, the gathering and scattering of content, and the protector of
    one participant: installation and retention of key versions, protection and
    opening of frames, with their state changes on every branch. *)

From Stdlib Require Import NArith Lia.
From S2P Require Import Prelude Crypto Toy Ops Replay Ratchet Layout.

(** ** Errors, tags and trailers *)

Inductive MediaError :=
| Malformed | NoKey | UnknownVersion | UnknownSender | OwnFrame
| ReplayE | Stale | BadTag | CounterExhausted | MalformedState.

#[export] Instance MediaError_eq_dec : EqDecision MediaError.
Proof. solve_decision. Defined.

Definition TRAILER_LEN : nat := 33.

Abbreviation SenderTag := (list Byte.byte).
Abbreviation ContextId := (list Byte.byte).

Definition codec_id (c : Codec) : N :=
  match c with
  | H264 => 1 | H265 => 2 | Av1 => 3 | Vp8 => 4 | Vp9 => 5 | Opus => 6 | Generic => 0
  end.

Definition codec_of (id : N) : option Codec :=
  match id with
  | 0%N => Some Generic
  | 1%N => Some H264
  | 2%N => Some H265
  | 3%N => Some Av1
  | 4%N => Some Vp8
  | 5%N => Some Vp9
  | 6%N => Some Opus
  | _ => None
  end.

Record Trailer := mkTrailer {
  t_sender : SenderTag;
  t_counter : N;
  t_version : ContextId;
  t_codec : Codec;
  t_keyframe : bool;
}.

(** The last byte: marker, codec and key-frame flag. *)
Definition trailer_flags (t : Trailer) : N :=
  N.lor (N.lor 128 (N.shiftl (codec_id (t_codec t)) 1)) (if t_keyframe t then 1 else 0).

Definition trailer_encode (t : Trailer) : bytes :=
  t_sender t ++ u64_to_be_bytes (t_counter t) ++ t_version t ++ [byte_of (trailer_flags t)].

Definition trailer_decode (buf : bytes) : result MediaError Trailer :=
  let flags := byte_at buf 32 in
  if (N.land flags 128 =? 0)%N then Err Malformed else
  match codec_of (N.shiftr (N.land flags 127) 1) with
  | None => Err Malformed
  | Some codec =>
      Ok (mkTrailer (slice buf 0 8) (be_val (slice buf 8 16)) (slice buf 16 32) codec
            (N.land flags 1 =? 1)%N)
  end.

(** ** Moving content *)

Definition associated (trailer frame : bytes) (l : Layout) : bytes :=
  foldl (fun ad r => ad ++ slice frame r.1 r.2) trailer (ly_clear l).

Definition gather (frame : bytes) (l : Layout) : bytes :=
  foldl (fun out r => out ++ slice frame r.1 r.2) [] (ly_secret l).

(** [frame[r].copy_from_slice(&data[pos..pos + n])] for each range in turn. *)
Fixpoint scatter_loop (frame : bytes) (rs : list Range) (data : bytes) (pos : N) : bytes :=
  match rs with
  | [] => frame
  | r :: rs =>
      let n := range_len r in
      scatter_loop (list_inserts (N.to_nat r.1) (slice data pos (pos + n)) frame) rs data (pos + n)
  end.

Definition scatter (frame : bytes) (l : Layout) (data : bytes) : bytes :=
  scatter_loop frame (ly_secret l) data 0.

(** ** State *)

Record VersionKeys := mkVersionKeys {
  vk_version : bytes;
  vk_key : bytes;
  vk_roster : gmap SenderTag SigPublic;
  vk_send : SendRatchet;
  vk_recv : gmap SenderTag (RecvRatchet * Replay);
  vk_counter : N;
}.

Record Protector := mkProtector {
  p_sid : bytes;
  p_me : SigPublic;
  p_my_tag : SenderTag;
  p_versions : gmap ContextId VersionKeys;
  p_order : list ContextId;
  p_current : option ContextId;
  p_retain : N;
}.

Definition set_versions (v : gmap ContextId VersionKeys) (p : Protector) : Protector :=
  mkProtector (p_sid p) (p_me p) (p_my_tag p) v (p_order p) (p_current p) (p_retain p).
Definition set_current (c : option ContextId) (p : Protector) : Protector :=
  mkProtector (p_sid p) (p_me p) (p_my_tag p) (p_versions p) (p_order p) c (p_retain p).
Definition set_vk_counter (c : N) (v : VersionKeys) : VersionKeys :=
  mkVersionKeys (vk_version v) (vk_key v) (vk_roster v) (vk_send v) (vk_recv v) c.
Definition set_vk_send (s : SendRatchet) (v : VersionKeys) : VersionKeys :=
  mkVersionKeys (vk_version v) (vk_key v) (vk_roster v) s (vk_recv v) (vk_counter v).
Definition set_vk_recv (r : gmap SenderTag (RecvRatchet * Replay)) (v : VersionKeys) : VersionKeys :=
  mkVersionKeys (vk_version v) (vk_key v) (vk_roster v) (vk_send v) r (vk_counter v).

Section frame.
Context {P : Primitives}.

Definition sender_tag (id : SigPublic) : SenderTag := take 8 (hash (bstr "cfr/media/sender") [id]).
Definition context_id (version : bytes) : ContextId :=
  take 16 (hash (bstr "cfr/media/context") [version]).

Definition nonce_for (sid : bytes) (t : Trailer) : bytes :=
  nonce [sid; t_sender t; t_version t; u64_to_be_bytes (t_counter t); [byte_of (codec_id (t_codec t))]].

Definition protector_new (sid : bytes) (me : SigPublic) (retain : N) : Protector :=
  mkProtector sid me (sender_tag me) ∅ [] None (N.max retain 1).

(** The retention loop: the oldest version is dropped while there are too many. *)
Fixpoint drop_old (order : list ContextId) (versions : gmap ContextId VersionKeys) (retain : N)
    : list ContextId * gmap ContextId VersionKeys :=
  match order with
  | [] => ([], versions)
  | old :: rest =>
      if (retain <? lenN order)%N then drop_old rest (delete old versions) retain
      else (order, versions)
  end.

Definition install (version key : bytes) (roster : list SigPublic) (p : Protector) : Protector :=
  let context := context_id version in
  match p_versions p !! context with
  | Some _ => set_current (Some context) p
  | None =>
      let roster : gmap SenderTag SigPublic :=
        foldl (fun m id => <[sender_tag id := id]> m) ∅ roster in
      let vk := mkVersionKeys version key roster (send_new key (p_me p)) ∅ 0 in
      let '(order, versions) :=
        drop_old (p_order p ++ [context]) (<[context := vk]> (p_versions p)) (p_retain p) in
      mkProtector (p_sid p) (p_me p) (p_my_tag p) versions order (Some context) (p_retain p)
  end.

Definition current_version (p : Protector) : option bytes :=
  c ← p_current p; vk_version <$> p_versions p !! c.

Definition retained (p : Protector) : N := N.of_nat (size (p_versions p)).

Definition seal_frame (codec : Codec) (fk n content ad : bytes) : bytes * bytes :=
  if is_audio codec then aead_seal_detached_short fk n content ad
  else aead_seal_detached fk n content ad.

Definition open_frame (codec : Codec) (fk n content tag ad : bytes) : result MediaError bytes :=
  map_err (fun _ => BadTag)
    (if is_audio codec then aead_open_detached_short fk n content tag ad
     else aead_open_detached fk n content tag ad).

Definition protect (codec : Codec) (frame : bytes) (keyframe : bool)
    : M Protector MediaError bytes := fun p =>
  match p_current p with
  | None => (Err NoKey, p)
  | Some context =>
    match p_versions p !! context with
    | None => (Err NoKey, p)
    | Some vk =>
      let counter := vk_counter vk in
      match checked_add64 counter 1 with
      | None => (Err CounterExhausted, p)
      | Some next =>
        let vk := set_vk_counter next vk in
        let l := layout codec frame keyframe in
        let trailer := mkTrailer (p_my_tag p) counter context codec keyframe in
        let raw := trailer_encode trailer in
        let nonce := nonce_for (p_sid p) trailer in
        let ad := associated raw frame l in
        let '(fk, send) := send_key counter (vk_send vk) in
        let p := set_versions (<[context := set_vk_send send vk]> (p_versions p)) p in
        match fk with
        | None => (Err NoKey, p)
        | Some fk =>
          let '(protected, tag) := seal_frame codec fk nonce (gather frame l) ad in
          (Ok (scatter frame l protected ++ tag ++ raw), p)
        end
      end
    end
  end.

Definition tag_len (codec : Codec) : nat := if is_audio codec then TAG_LEN_SHORT else TAG_LEN.

(** [split_at(len - n)] *)
Definition split_tail (b : bytes) (n : nat) : bytes * bytes :=
  (take (length b - n) b, drop (length b - n) b).

(** Opening under the version the trailer names; [entry] is the receive state
    of the sender, created when absent and committed after authentication. *)
Definition open_with (sid : bytes) (vk : VersionKeys) (trailer : Trailer) (sender : SigPublic)
    (raw body tag : bytes) : result MediaError bytes * VersionKeys :=
  let entry := match vk_recv vk !! t_sender trailer with
               | Some e => e
               | None => (recv_ratchet_new (vk_key vk) sender, replay_new)
               end in
  let vk := set_vk_recv (<[t_sender trailer := entry]> (vk_recv vk)) vk in
  let '(fresh, next_replay) := accept (t_counter trailer) entry.2 in
  if negb fresh then (Err ReplayE, vk) else
  let '(fk, next_ratchet) := recv_key (t_counter trailer) entry.1 in
  match fk with
  | None => (Err Stale, vk)
  | Some fk =>
      let l := layout (t_codec trailer) body (t_keyframe trailer) in
      let nonce := nonce_for sid trailer in
      let ad := associated raw body l in
      match open_frame (t_codec trailer) fk nonce (gather body l) tag ad with
      | Err e => (Err e, vk)
      | Ok content =>
          (Ok (scatter body l content),
           set_vk_recv (<[t_sender trailer := (next_ratchet, next_replay)]> (vk_recv vk)) vk)
      end
  end.

Definition unprotect (packet : bytes) : M Protector MediaError (SigPublic * bytes) := fun p =>
  if decide (length packet < TRAILER_LEN) then (Err Malformed, p) else
  let '(rest, raw) := split_tail packet TRAILER_LEN in
  match trailer_decode raw with
  | Err e => (Err e, p)
  | Ok trailer =>
    let tag_len := tag_len (t_codec trailer) in
    if decide (length rest < tag_len) then (Err Malformed, p) else
    let '(body, tag) := split_tail rest tag_len in
    match p_versions p !! t_version trailer with
    | None => (Err UnknownVersion, p)
    | Some vk =>
      match vk_roster vk !! t_sender trailer with
      | None => (Err UnknownSender, p)
      | Some sender =>
        if decide (sender = p_me p) then (Err OwnFrame, p) else
        let '(r, vk) := open_with (p_sid p) vk trailer sender raw body tag in
        let p := set_versions (<[t_version trailer := vk]> (p_versions p)) p in
        (match r with Ok out => Ok (sender, out) | Err e => Err e end, p)
      end
    end
  end.

Definition inspect (packet : bytes) : result MediaError Trailer :=
  if decide (length packet < TRAILER_LEN) then Err Malformed
  else trailer_decode (drop (length packet - TRAILER_LEN) packet).
End frame.

(** ** Trailers *)

Definition trailer_valid (t : Trailer) : Prop :=
  length (t_sender t) = 8 /\ (t_counter t < two64)%N /\ length (t_version t) = 16.

Lemma trailer_encode_length t : trailer_valid t -> length (trailer_encode t) = TRAILER_LEN.
Proof.
  intros (H1 & _ & H3). unfold trailer_encode, TRAILER_LEN.
  rewrite !length_app, H1, H3, u64_be_length. done.
Qed.

Lemma flags_decode (b : byte) c :
  (N.land (Byte.to_N b) 128 =? 0)%N = false ->
  codec_of (N.shiftr (N.land (Byte.to_N b) 127) 1) = Some c ->
  byte_of (N.lor (N.lor 128 (N.shiftl (codec_id c) 1))
             (if (N.land (Byte.to_N b) 1 =? 1)%N then 1 else 0)) = b.
Proof. destruct b; cbn; intros H1 H2; try done; by injection H2 as <-. Qed.

Lemma flags_encode t :
  let f := Byte.to_N (byte_of (trailer_flags t)) in
  (N.land f 128 =? 0)%N = false /\ codec_of (N.shiftr (N.land f 127) 1) = Some (t_codec t) /\
  (N.land f 1 =? 1)%N = t_keyframe t.
Proof. unfold trailer_flags. destruct (t_codec t), (t_keyframe t); by vm_compute. Qed.

Lemma slice_all_fields (a b c : bytes) x :
  length a = 8 -> length b = 8 -> length c = 16 ->
  let buf := a ++ b ++ c ++ [x] in
  slice buf 0 8 = a /\ slice buf 8 16 = b /\ slice buf 16 32 = c /\ byte_at buf 32 = Byte.to_N x.
Proof.
  intros Ha Hb Hc buf. subst buf. split_and!.
  - apply (slice_app_r [] a). unfold lenN. by rewrite Ha.
  - pose proof (slice_app_r a b (c ++ [x]) 8) as H. unfold lenN in H. rewrite Ha in H.
    apply H. by rewrite Hb.
  - pose proof (slice_app_r (a ++ b) c [x] 16) as H. rewrite <- app_assoc in H.
    unfold lenN in H. rewrite length_app, Ha, Hb in H. apply H. by rewrite Hc.
  - unfold byte_at. rewrite !app_assoc, lookup_app_r; rewrite !length_app, Ha, Hb, Hc; [done|].
    simpl. lia.
Qed.

Lemma trailer_decode_encode t : trailer_valid t -> trailer_decode (trailer_encode t) = Ok t.
Proof.
  intros (H1 & H2 & H3). unfold trailer_encode, trailer_decode.
  destruct (slice_all_fields (t_sender t) (u64_to_be_bytes (t_counter t)) (t_version t)
              (byte_of (trailer_flags t))) as (-> & -> & -> & ->); [done|apply u64_be_length|done|].
  destruct (flags_encode t) as (-> & -> & ->). rewrite u64_be_val by done. by destruct t.
Qed.

(** Trailers round-trip: a trailer decodes from its 33 bytes to itself, and
    33 bytes that decode at all are the encoding of the trailer they decode to. *)
Theorem trailer_roundtrip :
  (forall t, trailer_valid t ->
     length (trailer_encode t) = TRAILER_LEN /\ trailer_decode (trailer_encode t) = Ok t) /\
  (forall buf t, length buf = TRAILER_LEN -> trailer_decode buf = Ok t ->
     trailer_valid t /\ trailer_encode t = buf).
Proof.
  split; [intros t Ht; split; [by apply trailer_encode_length|by apply trailer_decode_encode]|].
  intros buf t Hl.
  assert (exists a b c x, buf = a ++ b ++ c ++ [x] /\ length a = 8 /\ length b = 8 /\ length c = 16)
    as (a & b & c & x & -> & Ha & Hb & Hc).
  { unfold TRAILER_LEN in Hl. destruct (drop 32 buf) as [|x [|y l]] eqn:E;
      [apply (f_equal length) in E; len_lia| |apply (f_equal length) in E; len_lia].
    exists (take 8 buf), (take 8 (drop 8 buf)), (take 16 (drop 16 buf)), x.
    split_and!; [|len_lia..].
    rewrite <- E, <- (take_drop 8 buf) at 1. f_equal.
    rewrite <- (take_drop 8 (drop 8 buf)) at 1. f_equal. rewrite drop_drop.
    rewrite <- (take_drop 16 (drop (8 + 8) buf)) at 1. f_equal. by rewrite drop_drop. }
  unfold trailer_decode.
  destruct (slice_all_fields a b c x Ha Hb Hc) as (-> & -> & -> & ->).
  destruct (_ =? 0)%N eqn:E1; [done|]. destruct (codec_of _) as [cd|] eqn:E2; [|done].
  intros [= <-]. split.
  - split_and!; [done| |done]. cbn [t_counter].
    pose proof (be_val_bound b) as Hbound. unfold lenN in Hbound. rewrite Hb in Hbound. done.
  - unfold trailer_encode, trailer_flags. cbn [t_sender t_counter t_version t_codec t_keyframe].
    rewrite (flags_decode x cd E1 E2). unfold u64_to_be_bytes. rewrite <- Hb, be_bytes_be_val. done.
Qed.

(** ** Gathering and scattering *)

Lemma foldl_slices (frame : bytes) (rs : list Range) acc :
  foldl (fun out r => out ++ slice frame r.1 r.2) acc rs
  = acc ++ concat ((fun r => slice frame r.1 r.2) <$> rs).
Proof.
  revert acc. induction rs as [|r rs IH]; intros acc; simpl; [by rewrite app_nil_r|].
  by rewrite IH, <- app_assoc.
Qed.

Definition slices (frame : bytes) (rs : list Range) : bytes :=
  concat ((fun r => slice frame r.1 r.2) <$> rs).

Lemma gather_slices frame l : gather frame l = slices frame (ly_secret l).
Proof. unfold gather. by rewrite foldl_slices. Qed.

Lemma associated_slices raw frame l : associated raw frame l = raw ++ slices frame (ly_clear l).
Proof. unfold associated. by rewrite foldl_slices. Qed.

Lemma slice_length (frame : bytes) a b :
  (a <= b)%N -> (b <= lenN frame)%N -> lenN (slice frame a b) = (b - a)%N.
Proof. intros. unfold slice. len_lia. Qed.

Lemma slice_lookup (frame : bytes) a b i :
  (N.of_nat i < b - a)%N -> slice frame a b !! i = frame !! (N.to_nat a + i).
Proof. intros H. unfold slice. rewrite lookup_take_lt by lia. by rewrite lookup_drop. Qed.

Lemma slice_ext (f g : bytes) a b :
  length f = length g ->
  (forall i, (a <= N.of_nat i < b)%N -> f !! i = g !! i) -> slice f a b = slice g a b.
Proof.
  intros Hl H. apply list_eq. intros i.
  destruct (N.lt_ge_cases (N.of_nat i) (b - a)) as [Hi|Hi].
  - rewrite !slice_lookup by done. apply H. lia.
  - unfold slice. rewrite !lookup_take_ge by lia. done.
Qed.

Lemma slices_ext (f g : bytes) rs :
  length f = length g ->
  (forall i, covers rs (N.of_nat i) -> f !! i = g !! i) -> slices f rs = slices g rs.
Proof.
  intros Hl H. unfold slices. f_equal. apply list_fmap_ext. intros k r Hr.
  apply slice_ext; [done|]. intros i Hi. apply H. exists r. split; [|done].
  by eapply list_elem_of_lookup_2.
Qed.

(** The loop reads its data from the front. *)
Lemma scatter_loop_drop frame rs data pos :
  scatter_loop frame rs data pos = scatter_loop frame rs (drop (N.to_nat pos) data) 0.
Proof.
  revert frame data pos. induction rs as [|r rs IH]; intros frame data pos; cbn [scatter_loop]; [done|].
  rewrite IH. rewrite (IH _ _ (0 + _)%N), drop_drop. f_equal; [|f_equal; lia].
  f_equal. unfold slice. rewrite drop_drop. f_equal; [lia|f_equal; lia].
Qed.

Lemma scatter_loop_length frame rs data pos :
  length (scatter_loop frame rs data pos) = length frame.
Proof.
  revert frame pos. induction rs as [|r rs IH]; intros frame pos; cbn [scatter_loop]; [done|].
  by rewrite IH, length_inserts.
Qed.

Lemma lookup_inserts_in (frame k : bytes) a i :
  a <= i < a + length k -> i < length frame -> list_inserts a k frame !! i = k !! (i - a).
Proof. intros H1 H2. apply list_lookup_inserts; lia. Qed.

Lemma lookup_inserts_out (frame k : bytes) a i :
  i < a \/ a + length k <= i -> list_inserts a k frame !! i = frame !! i.
Proof. intros [H|H]; [by apply list_lookup_inserts_lt|by apply list_lookup_inserts_ge]. Qed.

Fixpoint ranges_len (rs : list Range) : N :=
  match rs with [] => 0 | r :: rs => range_len r + ranges_len rs end.

(** Positions outside the content ranges keep their bytes. *)
Lemma scatter_outside rs frame data pos total i :
  ascending rs pos total -> (ranges_len rs <= lenN data)%N ->
  ~ covers rs (N.of_nat i) -> scatter_loop frame rs data 0 !! i = frame !! i.
Proof.
  revert frame data pos. induction rs as [|r rs IH]; intros frame data pos Ha Hd Hi; [done|].
  cbn [scatter_loop ranges_len ascending] in *. destruct Ha as [Hr Ha].
  rewrite scatter_loop_drop, (IH _ _ r.2); [|done|len_lia|].
  - apply lookup_inserts_out.
    assert (lenN (slice data 0 (0 + range_len r)) = range_len r) as Hs
      by (rewrite slice_length; lia).
    assert (~ (r.1 <= N.of_nat i < r.2)%N) by (intros ?; apply Hi; exists r; set_solver).
    unfold lenN in Hs. unfold range_len in *. lia.
  - intros (s & Hs & Hsi). apply Hi. exists s. set_solver.
Qed.

Lemma ascending_covers rs pos total i : ascending rs pos total -> covers rs i -> (pos <= i)%N.
Proof.
  revert pos. induction rs as [|r rs IH]; intros pos; simpl; intros Ha (s & Hs & Hi);
    [by apply not_elem_of_nil in Hs|]. destruct Ha as [Hr Ha].
  apply elem_of_cons in Hs as [->|Hs]; [lia|].
  assert (r.2 <= i)%N by (apply (IH r.2); [done|by exists s]). lia.
Qed.

Lemma ascending_total rs pos total : ascending rs pos total -> (pos <= total)%N.
Proof. revert pos. induction rs as [|r rs IH]; intros pos; simpl; [done|]. intros [? ?%IH]. lia. Qed.

(** What was scattered is what is gathered. *)
Lemma gather_scatter rs frame data pos :
  ascending rs pos (lenN frame) -> ranges_len rs = lenN data ->
  slices (scatter_loop frame rs data 0) rs = data.
Proof.
  revert frame data pos. induction rs as [|r rs IH]; intros frame data pos Ha Hd; cbn [ranges_len] in Hd.
  { symmetry in Hd. destruct data; [done|]. unfold lenN in Hd. simpl in Hd. lia. }
  cbn [ascending] in Ha. destruct Ha as [Hr Ha]. pose proof (ascending_total _ _ _ Ha) as Ht.
  cbn [scatter_loop]. rewrite scatter_loop_drop. set (n := range_len r) in *.
  set (f1 := list_inserts _ _ frame). unfold slices. cbn [fmap list_fmap concat].
  assert (lenN (slice data 0 (0 + n)) = n) as Hs by (rewrite slice_length; lia).
  assert (slice data 0 (0 + n) = take (N.to_nat n) data) as Hd0.
  { unfold slice. rewrite drop_0. f_equal. lia. }
  assert (lenN f1 = lenN frame) as Hf1 by (unfold lenN, f1; by rewrite length_inserts).
  etrans; [|apply (take_drop (N.to_nat n) data)]. f_equal.
  - rewrite <- Hd0. apply list_eq. intros i.
    destruct (N.lt_ge_cases (N.of_nat i) n) as [Hi|Hi].
    + rewrite slice_lookup by (unfold n, range_len in *; lia).
      rewrite (scatter_outside rs _ _ r.2 (lenN frame)); [|done|len_lia|].
      * unfold f1. rewrite lookup_inserts_in; [f_equal; lia| |].
        -- unfold lenN in Hs. lia.
        -- unfold n, range_len, lenN in *. lia.
      * intros Hc. eapply ascending_covers in Hc; [|done]. unfold n, range_len in *. lia.
    + assert (forall l : bytes, lenN l = n -> l !! i = None) as Hnone
        by (intros l Hl; apply lookup_ge_None; unfold lenN in Hl; lia).
      rewrite !Hnone; [done|done|]. rewrite slice_length; unfold lenN in *;
        rewrite ?scatter_loop_length; unfold n, range_len in *; [done|lia|].
      unfold f1. rewrite length_inserts. lia.
  - apply (IH _ _ r.2); [by rewrite Hf1|]. unfold lenN in *. rewrite length_drop. lia.
Qed.

(** Writing a frame's own content over any frame of its length restores it
    inside the content ranges and changes nothing elsewhere. *)
Lemma scatter_own rs (f g : bytes) pos i :
  ascending rs pos (lenN f) -> length f = length g ->
  scatter_loop g rs (slices f rs) 0 !! i
  = if decide (Exists (fun r => (r.1 <= N.of_nat i < r.2)%N) rs) then f !! i else g !! i.
Proof.
  revert g pos. induction rs as [|r rs IH]; intros g pos Ha Hl.
  { rewrite decide_False by (by intros ?%Exists_nil). done. }
  cbn [ascending] in Ha. destruct Ha as [Hr Ha]. pose proof (ascending_total _ _ _ Ha) as Ht.
  cbn [scatter_loop]. rewrite scatter_loop_drop. unfold slices. cbn [fmap list_fmap concat].
  fold (slices f rs). set (n := range_len r).
  assert (lenN (slice f r.1 r.2) = n) as Hs by (rewrite slice_length; unfold n, range_len; lia).
  assert (slice (slice f r.1 r.2 ++ slices f rs) 0 (0 + n) = slice f r.1 r.2) as ->.
  { apply (slice_app_r [] (slice f r.1 r.2) (slices f rs)). done. }
  replace (drop (N.to_nat (0 + n)) (slice f r.1 r.2 ++ slices f rs)) with (slices f rs)
    by (symmetry; apply drop_app_length'; unfold lenN in Hs; lia).
  rewrite (IH _ r.2); [|done|by rewrite length_inserts].
  destruct (decide (Exists _ rs)) as [He|He].
  { rewrite decide_True; [done|]. by apply Exists_cons; right. }
  destruct (decide (r.1 <= N.of_nat i < r.2)%N) as [Hi|Hi].
  - rewrite decide_True by (apply Exists_cons; by left).
    rewrite lookup_inserts_in; [|unfold lenN, n, range_len in *; lia..].
    rewrite slice_lookup by lia. f_equal. lia.
  - rewrite decide_False by (by intros [?|?]%Exists_cons).
    apply lookup_inserts_out. unfold lenN, n, range_len in *. lia.
Qed.

Section content.
Context (l : Layout) (frame : bytes) (Hl : tiling l (lenN frame)).

Lemma tiling_ascending : ascending (ly_secret l) 0 (lenN frame).
Proof using Hl. destruct Hl as (L & Hc & _ & ->). by apply chain_ascending. Qed.

Lemma slices_len rs pos : ascending rs pos (lenN frame) -> ranges_len rs = lenN (slices frame rs).
Proof using Type.
  revert pos. induction rs as [|r rs IH]; intros pos Ha; [done|]. cbn [ascending ranges_len] in *.
  destruct Ha as [Hr Ha]. pose proof (ascending_total _ _ _ Ha).
  unfold slices. cbn [fmap list_fmap concat]. rewrite lenN_app, slice_length by lia.
  unfold range_len. f_equal. by eapply IH.
Qed.

Lemma gather_len : ranges_len (ly_secret l) = lenN (gather frame l).
Proof using Hl. rewrite gather_slices. eapply slices_len, tiling_ascending. Qed.

Lemma scatter_length ct : length (scatter frame l ct) = length frame.
Proof using Type. apply scatter_loop_length. Qed.

Lemma gather_scattered ct :
  length ct = length (gather frame l) -> gather (scatter frame l ct) l = ct.
Proof using Hl.
  intros Hct. rewrite gather_slices. eapply gather_scatter; [apply tiling_ascending|].
  rewrite gather_len. unfold lenN. by rewrite Hct.
Qed.

(** Structure is untouched, so both ends authenticate the same bytes. *)
Lemma associated_scattered raw ct :
  length ct = length (gather frame l) ->
  associated raw (scatter frame l ct) l = associated raw frame l.
Proof using Hl.
  intros Hct. rewrite !associated_slices. f_equal. apply slices_ext; [apply scatter_length|].
  intros i (r & Hr & Hi). eapply scatter_outside; [apply tiling_ascending| |].
  - rewrite gather_len. unfold lenN. lia.
  - intros (s & Hs & Hsi). destruct Hl as (L & Hc & Hcl & Hse). rewrite Hcl in Hr. rewrite Hse in Hs.
    by eapply (chain_disjoint L 0 (lenN frame) r s (N.of_nat i)).
Qed.

Lemma scatter_restores ct :
  length ct = length (gather frame l) ->
  scatter (scatter frame l ct) l (gather frame l) = frame.
Proof using Hl.
  intros Hct. apply list_eq. intros i. rewrite gather_slices. unfold scatter at 1.
  rewrite (scatter_own _ _ _ 0) by (apply tiling_ascending || by rewrite scatter_length).
  destruct (decide (Exists _ _)) as [He|He]; [done|].
  eapply scatter_outside; [apply tiling_ascending| |].
  - rewrite gather_len. unfold lenN. lia.
  - intros (s & Hs & Hsi). apply He, Exists_exists. by exists s.
Qed.
End content.

(** ** The protector's invariant *)

Section invariant.
Context {P : Primitives}.

Record vk_ok (me : SigPublic) (c : ContextId) (vk : VersionKeys) : Prop := {
  vo_context : context_id (vk_version vk) = c;
  vo_send : send_on (vk_key vk) me (vk_send vk);
  vo_epoch : (sr_epoch (vk_send vk) <= vk_counter vk / EPOCH)%N;
  vo_counter : (vk_counter vk < two64)%N;
  vo_roster tag s : vk_roster vk !! tag = Some s -> tag = sender_tag s;
  vo_recv tag e : vk_recv vk !! tag = Some e ->
    exists s, vk_roster vk !! tag = Some s /\ recv_on (vk_key vk) s e.1 /\
      exists acc, represents e.2 acc;
}.

Record prot_inv (p : Protector) : Prop := {
  pi_tag : p_my_tag p = sender_tag (p_me p);
  pi_nodup : NoDup (p_order p);
  pi_dom c : c ∈ p_order p <-> is_Some (p_versions p !! c);
  pi_bound : (lenN (p_order p) <= p_retain p)%N;
  pi_retain : (1 <= p_retain p)%N;
  pi_current c : p_current p = Some c -> is_Some (p_versions p !! c);
  pi_versions c vk : p_versions p !! c = Some vk -> vk_ok (p_me p) c vk;
}.

Lemma protector_new_inv sid me retain : prot_inv (protector_new sid me retain).
Proof.
  split; cbn [protector_new p_my_tag p_me p_order p_versions p_retain p_current].
  - done.
  - constructor.
  - intros c. rewrite lookup_empty. split; [by intros ?%not_elem_of_nil|by intros [? ?]].
  - unfold lenN. simpl. lia.
  - lia.
  - done.
  - intros c vk. by rewrite lookup_empty.
Qed.

Lemma drop_old_spec order versions retain :
  let n := length order - N.to_nat retain in
  (drop_old order versions retain).1 = drop n order /\
  forall c, (drop_old order versions retain).2 !! c
            = if decide (c ∈ take n order) then None else versions !! c.
Proof.
  revert versions. induction order as [|x order IH]; intros versions; cbn zeta.
  { split; [done|]. intros c. by rewrite decide_False by (by rewrite take_nil; apply not_elem_of_nil). }
  cbn [drop_old]. destruct (N.ltb_spec retain (lenN (x :: order))) as [Hl|Hl].
  - replace (length (x :: order) - N.to_nat retain) with (S (length order - N.to_nat retain)) by len_lia.
    cbn [drop take]. destruct (IH (delete x versions)) as [H1 H2]. split; [done|].
    intros c. rewrite H2. destruct (decide (c ∈ take _ order)).
    + by rewrite decide_True by set_solver.
    + destruct (decide (c = x)) as [->|?].
      * by rewrite lookup_delete_eq, decide_True by set_solver.
      * by rewrite lookup_delete_ne, decide_False by set_solver.
  - replace (length (x :: order) - N.to_nat retain) with 0 by len_lia. split; [done|].
    intros c. by rewrite decide_False by (by apply not_elem_of_nil).
Qed.

Lemma roster_tags (l : list SigPublic) (acc : gmap SenderTag SigPublic) :
  (forall tag s, acc !! tag = Some s -> tag = sender_tag s) ->
  forall tag s, foldl (fun m id => <[sender_tag id := id]> m) acc l !! tag = Some s ->
    tag = sender_tag s.
Proof.
  revert acc. induction l as [|id l IH]; intros acc Hacc; simpl; [done|].
  apply IH. intros tag s [[<- <-]|[_ ?]]%lookup_insert_Some; auto.
Qed.

(** A freshly installed version. *)
Definition fresh_version (version key : bytes) (roster : list SigPublic) (me : SigPublic) : VersionKeys :=
  mkVersionKeys version key (foldl (fun m id => <[sender_tag id := id]> m) ∅ roster)
    (send_new key me) ∅ 0.

Lemma fresh_version_ok version key roster me :
  vk_ok me (context_id version) (fresh_version version key roster me).
Proof.
  split; try done.
  apply (roster_tags roster ∅). intros tag s. by rewrite lookup_empty.
Qed.

(** Installing a new version keeps the most recent [retain] versions. *)
Lemma install_new version key roster p :
  prot_inv p -> p_versions p !! context_id version = None ->
  let c := context_id version in
  let p' := install version key roster p in
  let order := p_order p ++ [c] in
  p_order p' = drop (length order - N.to_nat (p_retain p)) order /\
  (forall x, p_versions p' !! x =
     if decide (x ∈ p_order p')
     then <[c := fresh_version version key roster (p_me p)]> (p_versions p) !! x else None) /\
  p_current p' = Some c /\ c ∈ p_order p' /\
  p_me p' = p_me p /\ p_my_tag p' = p_my_tag p /\ p_retain p' = p_retain p /\ p_sid p' = p_sid p.
Proof.
  intros HI Hn c p' order. subst p'. unfold install. rewrite Hn. fold c.
  change (mkVersionKeys version key _ _ ∅ 0) with (fresh_version version key roster (p_me p)).
  set (vs := <[c := _]> (p_versions p)). fold order.
  destruct (drop_old_spec order vs (p_retain p)) as [H1 H2].
  destruct (drop_old order vs (p_retain p)) as [ord ver]. cbn [fst snd] in *.
  cbn [p_order p_versions p_current p_me p_my_tag p_retain p_sid]. subst ord.
  set (n := length order - N.to_nat (p_retain p)) in *.
  assert (NoDup order) as Hnd.
  { unfold order. apply NoDup_app. split_and!; [apply HI| |repeat constructor; set_solver].
    intros x Hx%(pi_dom p HI) ->%list_elem_of_singleton. fold c in Hn. rewrite Hn in Hx. by destruct Hx. }
  assert (forall x, x ∈ order <-> is_Some (vs !! x)) as Hdom.
  { intros x. unfold order, vs. rewrite elem_of_app, list_elem_of_singleton, lookup_insert_is_Some,
      (pi_dom p HI). destruct (decide (x = c)); naive_solver. }
  split_and!; try done.
  - intros x. rewrite H2. rewrite <- (take_drop n order) in Hnd. apply NoDup_app in Hnd as (_ & Hd & _).
    destruct (decide (x ∈ take n order)) as [Ht|Ht], (decide (x ∈ drop n order)) as [Hx|Hx]; try done.
    + by destruct (Hd x).
    + apply eq_None_not_Some. rewrite <- Hdom, <- (take_drop n order), elem_of_app. tauto.
  - pose proof (pi_retain p HI). unfold order, n.
    rewrite drop_app_le by (unfold order; rewrite length_app; simpl; lia). set_solver.
Qed.

Lemma install_inv version key roster p : prot_inv p -> prot_inv (install version key roster p).
Proof.
  intros HI. destruct (p_versions p !! context_id version) as [vk|] eqn:E.
  { unfold install. rewrite E. destruct HI as [H1 H2 H3 H4 H5 H6 H7].
    split; try done. intros c [= <-]. cbn [p_versions set_current]. rewrite E. by eexists. }
  destruct (install_new version key roster p HI E) as (H1 & H2 & H3 & H4 & H5 & H6 & H7 & _).
  set (p' := install _ _ _ p) in *. set (c := context_id version) in *.
  assert (NoDup (p_order p ++ [c])) as Hnd.
  { apply NoDup_app. split_and!; [apply HI| |repeat constructor; set_solver].
    intros x Hx%(pi_dom p HI) ->%list_elem_of_singleton. rewrite E in Hx. by destruct Hx. }
  assert (forall x, x ∈ p_order p' -> is_Some (p_versions p' !! x)) as Hin.
  { intros x Hx. rewrite H2, decide_True by done. rewrite lookup_insert_is_Some.
    rewrite H1 in Hx. apply subseteq_drop, elem_of_app in Hx as [Hx|Hx%list_elem_of_singleton]; [|auto].
    destruct (decide (c = x)); [by left|right]. split; [done|]. by apply (pi_dom p HI). }
  split.
  - by rewrite H5, H6, (pi_tag p HI).
  - rewrite H1. eapply sublist_NoDup; [done|apply sublist_drop].
  - intros x. split; [apply Hin|]. rewrite H2. case_decide; [done|by intros [? ?]].
  - rewrite H7, H1. len_lia.
  - rewrite H7. apply HI.
  - intros x. rewrite H3. intros [= <-]. by apply Hin.
  - intros x vk. rewrite H2, H5. case_decide; [|done].
    intros [[<- <-]|[_ Hv]]%lookup_insert_Some; [apply fresh_version_ok|by apply (pi_versions p HI)].
Qed.

(** Replacing one version's keys by well-formed ones. *)
Lemma set_versions_inv p c vk vk' :
  prot_inv p -> p_versions p !! c = Some vk -> vk_ok (p_me p) c vk' ->
  prot_inv (set_versions (<[c := vk']> (p_versions p)) p).
Proof.
  intros [H1 H2 H3 H4 H5 H6 H7] Hc Hok.
  split; cbn [set_versions p_my_tag p_me p_order p_versions p_retain p_current]; try done.
  - intros x. rewrite H3, lookup_insert_is_Some. destruct (decide (c = x)) as [<-|]; [|naive_solver].
    rewrite Hc. naive_solver.
  - intros x Hx%H6. rewrite lookup_insert_is_Some. destruct (decide (c = x)); naive_solver.
  - intros x v [[<- <-]|[_ Hv]]%lookup_insert_Some; [done|by apply H7].
Qed.
End invariant.

(** ** Protecting *)

Section protecting.
Context {P : Primitives}.

(** The trailer, the body and the tag that [protect] emits. *)
Definition sent_trailer (p : Protector) (c : ContextId) (vk : VersionKeys) (codec : Codec) (kf : bool)
    : Trailer := mkTrailer (p_my_tag p) (vk_counter vk) c codec kf.
Definition sealed (p : Protector) (c : ContextId) (vk : VersionKeys) (codec : Codec)
    (frame : bytes) (kf : bool) : bytes * bytes :=
  let t := sent_trailer p c vk codec kf in
  let l := layout codec frame kf in
  seal_frame codec (frame_key (vk_key vk) (p_me p) (vk_counter vk)) (nonce_for (p_sid p) t)
    (gather frame l) (associated (trailer_encode t) frame l).
Definition packet_of (p : Protector) (c : ContextId) (vk : VersionKeys) (codec : Codec)
    (frame : bytes) (kf : bool) : bytes :=
  scatter frame (layout codec frame kf) (sealed p c vk codec frame kf).1
  ++ (sealed p c vk codec frame kf).2 ++ trailer_encode (sent_trailer p c vk codec kf).

Lemma epoch_mono c : (c / EPOCH <= (c + 1) / EPOCH)%N.
Proof. apply N.Div0.div_le_mono. lia. Qed.

Lemma protect_spec p c vk codec frame kf :
  prot_inv p -> p_current p = Some c -> p_versions p !! c = Some vk ->
  if (vk_counter vk =? u64_max)%N
  then protect codec frame kf p = (Err CounterExhausted, p)
  else exists vk', protect codec frame kf p
         = (Ok (packet_of p c vk codec frame kf), set_versions (<[c := vk']> (p_versions p)) p) /\
       vk_ok (p_me p) c vk' /\ vk_counter vk' = (vk_counter vk + 1)%N /\
       vk_recv vk' = vk_recv vk /\ vk_key vk' = vk_key vk /\ vk_roster vk' = vk_roster vk /\
       vk_version vk' = vk_version vk /\ sr_epoch (vk_send vk') = (vk_counter vk / EPOCH)%N.
Proof.
  intros HI Hc Hv. destruct (pi_versions p HI c vk Hv) as [V1 V2 V3 V4 V5 V6].
  unfold protect. rewrite Hc, Hv. unfold checked_add64.
  destruct (N.eqb_spec (vk_counter vk) u64_max) as [He|Hne].
  { rewrite He. done. }
  destruct (N.ltb_spec (vk_counter vk + 1) two64) as [Hlt|]; [|unfold u64_max in *; lia].
  destruct (send_key_on (vk_key vk) (p_me p) (vk_counter vk) (vk_send vk) V2 V4 V3)
    as (s' & Hs & Hon & Hep).
  cbn [vk_send set_vk_counter]. rewrite Hs.
  fold (sent_trailer p c vk codec kf). fold (sealed p c vk codec frame kf).
  exists (set_vk_send s' (set_vk_counter (vk_counter vk + 1) vk)). split_and!; try done.
  - unfold packet_of. by destruct (sealed p c vk codec frame kf).
  - split; cbn; try done. rewrite Hep. apply epoch_mono.
Qed.

Context {PO : PrimitivesOk P}.

Lemma sender_tag_length id : length (sender_tag id) = 8.
Proof. unfold sender_tag. rewrite length_take, hash_length. done. Qed.

Lemma context_id_length v : length (context_id v) = 16.
Proof. unfold context_id. rewrite length_take, hash_length. done. Qed.

Lemma sent_trailer_valid p c vk codec kf :
  prot_inv p -> p_versions p !! c = Some vk -> trailer_valid (sent_trailer p c vk codec kf).
Proof.
  intros HI Hv. destruct (pi_versions p HI c vk Hv) as [V1 _ _ V4 _ _].
  split_and!; cbn [t_sender t_counter t_version sent_trailer].
  - rewrite (pi_tag p HI). apply sender_tag_length.
  - done.
  - rewrite <- V1. apply context_id_length.
Qed.

Lemma seal_frame_ok codec fk n content ad :
  let s := seal_frame codec fk n content ad in
  length s.1 = length content /\ length s.2 = tag_len codec /\
  open_frame codec fk n s.1 s.2 ad = Ok content.
Proof.
  unfold seal_frame, open_frame, tag_len. destruct (is_audio codec).
  - unfold aead_seal_detached_short, aead_open_detached_short.
    pose proof (aegis_length TAG_LEN_SHORT fk n content ad) as H1.
    pose proof (aegis_correct TAG_LEN_SHORT fk n content ad) as H2.
    destruct (aegis256_encrypt _ _ _ _ _). simpl. rewrite H2. naive_solver.
  - unfold aead_seal_detached, aead_open_detached.
    pose proof (aegis_length TAG_LEN fk n content ad) as H1.
    pose proof (aegis_correct TAG_LEN fk n content ad) as H2.
    destruct (aegis256_encrypt _ _ _ _ _). simpl. rewrite H2. naive_solver.
Qed.

Lemma split_tail_app (a b : bytes) n : length b = n -> split_tail (a ++ b) n = (a, b).
Proof using Type.
  intros <-. unfold split_tail. rewrite length_app. replace (length a + length b - length b) with (length a) by lia.
  by rewrite take_app_length, drop_app_length.
Qed.

(** The state of a receiver for one sender under one version. *)
Definition entry_of (vk : VersionKeys) (tag : SenderTag) (sender : SigPublic) : RecvRatchet * Replay :=
  match vk_recv vk !! tag with
  | Some e => e
  | None => (recv_ratchet_new (vk_key vk) sender, replay_new)
  end.

(** Layout of a protected body: unchanged for codecs whose split depends only
    on the length and on readable bytes. *)
Definition prefix_codec (c : Codec) : bool :=
  match c with Vp8 | Vp9 | Opus | Generic => true | H264 | H265 | Av1 => false end.

Lemma prefix_layout_stable codec frame kf ct :
  prefix_codec codec = true -> length ct = length (gather frame (layout codec frame kf)) ->
  layout codec (scatter frame (layout codec frame kf) ct) kf = layout codec frame kf.
Proof using Type.
  intros Hp Hct. pose proof (layout_tiling codec frame kf) as Ht.
  pose proof (scatter_length (layout codec frame kf) frame ct) as Hl.
  destruct codec; try done; cbn [layout] in *; unfold vp9_layout, lenN in *; try by rewrite Hl.
  unfold vp8_layout in *. set (l := layout_prefix _ (lenN frame)) in *.
  assert (head (scatter frame l ct) = head frame) as Hh.
  { destruct frame as [|b frame'] eqn:Ef; [by destruct (scatter [] l ct)|]. rewrite <- Ef in *.
    rewrite !head_lookup. eapply scatter_outside; [by apply tiling_ascending| |].
    - rewrite (gather_len l frame Ht). unfold lenN. lia.
    - intros (r & Hr & Hi). unfold l, layout_prefix in Hr. cbn [ly_secret] in Hr.
      destruct (_ <? _)%N; [|by apply not_elem_of_nil in Hr].
      apply list_elem_of_singleton in Hr as ->. cbn [fst snd] in Hi.
      assert (0 < lenN frame)%N by (rewrite Ef; unfold lenN; simpl; lia).
      destruct (kf && _); unfold VP8_UNCOMPRESSED, VP8_KEYFRAME_EXTRA in *; lia. }
  unfold lenN at 1. rewrite Hl. fold (lenN frame).
  destruct (scatter frame l ct) as [|b t], frame as [|b' frame']; try done. by injection Hh as ->.
Qed.
End protecting.

(** ** Opening *)

Section opening.
Context {P : Primitives}.

(** The receive state the code works on is on schedule and represents some
    history, whether it was stored or is created now. *)
Lemma entry_of_ok me c vk tag sender :
  vk_ok me c vk -> vk_roster vk !! tag = Some sender ->
  recv_on (vk_key vk) sender (entry_of vk tag sender).1 /\
  exists acc, represents (entry_of vk tag sender).2 acc.
Proof.
  intros Hok Hs. unfold entry_of. destruct (vk_recv vk !! tag) as [e|] eqn:E.
  - destruct (vo_recv _ _ _ Hok _ _ E) as (s & Hs' & Hon & Hr). by simplify_eq.
  - split; [done|]. by exists [].
Qed.

Lemma recv_key_step group sender i e fk e' :
  recv_on group sender e -> (i < two64)%N -> recv_key i e = (fk, e') -> recv_on group sender e'.
Proof.
  intros He Ht Ek.
  destruct (decide (rr_epoch e <= i / EPOCH <= rr_epoch e + MAX_EPOCH_JUMP)%N) as [Hd|Hd].
  - destruct (recv_key_on _ _ _ _ He Ht Hd) as (rt' & Hk & Hon & _). rewrite Hk in Ek.
    by injection Ek as _ <-.
  - unfold recv_key in Ek. destruct (N.ltb_spec (i / EPOCH) (rr_epoch e)); [by injection Ek as _ <-|].
    destruct (N.ltb_spec MAX_EPOCH_JUMP (i / EPOCH - rr_epoch e)); [by injection Ek as _ <-|]. lia.
Qed.

(** The two outcomes of an opening: the receive state is stored as it was, or
    advanced after the frame was accepted by the replay window. *)
Lemma open_with_cases sid vk trailer sender raw body tag :
  let e := entry_of vk (t_sender trailer) sender in
  let r := open_with sid vk trailer sender raw body tag in
  exists e', r.2 = set_vk_recv (<[t_sender trailer := e']> (vk_recv vk)) vk /\
    ((e' = e /\ exists err, r.1 = Err err) \/
     (exists out fk, r.1 = Ok out /\ accept (t_counter trailer) e.2 = (true, e'.2) /\
        recv_key (t_counter trailer) e.1 = (Some fk, e'.1))).
Proof.
  unfold open_with. fold (entry_of vk (t_sender trailer) sender).
  set (e := entry_of vk (t_sender trailer) sender). cbn zeta.
  destruct (accept _ _) as [fresh next] eqn:Ea.
  destruct fresh; cbn [negb]; [|exists e; split; [done|left; split; [done|by eexists]]].
  destruct (recv_key _ _) as [[fk|] rt] eqn:Ek; [|exists e; split; [done|left; split; [done|by eexists]]].
  destruct (open_frame _ _ _ _ _ _) as [content|err];
    [|exists e; split; [done|left; split; [done|by eexists]]].
  exists (rt, next). split; [|right; by do 2 eexists].
  unfold set_vk_recv. cbn [snd vk_recv vk_version vk_key vk_roster vk_send vk_counter].
  by rewrite insert_insert_eq.
Qed.

Lemma open_with_ok me sid c vk trailer sender raw body tag :
  vk_ok me c vk -> vk_roster vk !! t_sender trailer = Some sender -> (t_counter trailer < two64)%N ->
  vk_ok me c (open_with sid vk trailer sender raw body tag).2.
Proof.
  intros Hok Hs Ht. destruct (entry_of_ok _ _ _ _ _ Hok Hs) as (Hon & acc & Hacc).
  destruct (open_with_cases sid vk trailer sender raw body tag) as (e' & -> & He').
  assert (recv_on (vk_key vk) sender e'.1 /\ exists acc, represents e'.2 acc) as [Hon' Hacc'].
  { destruct He' as [[-> _]|(out & fk & _ & Ha & Hk)]; [by eauto|].
    split; [by eapply recv_key_step|].
    destruct (accept_refines _ _ (t_counter trailer) Hacc) as (r' & Hr' & Hrep).
    rewrite Ha in Hr'. injection Hr' as Hb <-. eauto. }
  destruct Hok as [V1 V2 V3 V4 V5 V6]. split; try done. cbn [set_vk_recv vk_recv vk_roster vk_key].
  intros tg x [[<- <-]|[_ Hx]]%lookup_insert_Some; [by exists sender|by apply V6].
Qed.

Lemma trailer_decode_counter raw t :
  length raw = TRAILER_LEN -> trailer_decode raw = Ok t -> (t_counter t < two64)%N.
Proof.
  intros Hl. unfold trailer_decode. destruct (_ =? 0)%N; [done|]. destruct (codec_of _); [|done].
  intros [= <-]. cbn [t_counter]. pose proof (be_val_bound (slice raw 8 16)) as H.
  rewrite slice_length in H by (unfold lenN; rewrite ?Hl; unfold TRAILER_LEN; lia). done.
Qed.

(** What an opening does to the state: at most one version's keys change. *)
Lemma unprotect_cases packet p :
  (exists e, unprotect packet p = (Err e, p)) \/
  exists trailer vk sender raw body tag,
    length raw = TRAILER_LEN /\ packet = (body ++ tag) ++ raw /\ trailer_decode raw = Ok trailer /\
    p_versions p !! t_version trailer = Some vk /\
    vk_roster vk !! t_sender trailer = Some sender /\ sender <> p_me p /\
    unprotect packet p =
      let '(r, vk') := open_with (p_sid p) vk trailer sender raw body tag in
      (match r with Ok out => Ok (sender, out) | Err e => Err e end,
       set_versions (<[t_version trailer := vk']> (p_versions p)) p).
Proof.
  unfold unprotect. case_decide as Hlen; [by left; eexists|].
  unfold split_tail at 1. set (rest := take _ packet). set (raw := drop _ packet).
  destruct (trailer_decode raw) as [trailer|e] eqn:Ed; [|by left; eexists].
  case_decide as Hr; [by left; eexists|]. unfold split_tail.
  destruct (p_versions p !! t_version trailer) as [vk|] eqn:Ev; [|by left; eexists].
  destruct (vk_roster vk !! t_sender trailer) as [sender|] eqn:Es; [|by left; eexists].
  case_decide as Hme; [by left; eexists|]. right.
  exists trailer, vk, sender, raw, (take (length rest - tag_len (t_codec trailer)) rest),
    (drop (length rest - tag_len (t_codec trailer)) rest).
  split_and!; try done.
  - unfold raw. rewrite length_drop. lia.
  - unfold rest, raw. by rewrite !take_drop.
  - fold raw rest. rewrite Ed, decide_False by done. by rewrite Ev, Es, decide_False by done.
Qed.

Lemma protect_inv codec frame kf p : prot_inv p -> prot_inv (protect codec frame kf p).2.
Proof.
  intros HI. destruct (p_current p) as [c|] eqn:Ec; [|unfold protect; by rewrite Ec].
  destruct (pi_current p HI c Ec) as [vk Hv].
  pose proof (protect_spec p c vk codec frame kf HI Ec Hv) as Hs.
  destruct (_ =? _)%N; [by rewrite Hs|]. destruct Hs as (vk' & -> & Hok & _).
  by eapply set_versions_inv.
Qed.

Lemma unprotect_inv packet p : prot_inv p -> prot_inv (unprotect packet p).2.
Proof.
  intros HI. destruct (unprotect_cases packet p)
    as [[e ->]|(t & vk & s & raw & body & tag & Hl & _ & Hd & Hv & Hs & _ & ->)]; [done|].
  pose proof (open_with_ok (p_me p) (p_sid p) _ vk t s raw body tag (pi_versions p HI _ _ Hv) Hs
    (trailer_decode_counter _ _ Hl Hd)) as Hok.
  destruct (open_with _ _ _ _ _ _ _) as [r vk']. by eapply set_versions_inv.
Qed.

(** ** Runs of a protector *)

Inductive prot_step : Protector -> Protector -> Prop :=
| pst_install v k roster p : prot_step p (install v k roster p)
| pst_protect codec frame kf p : prot_step p (protect codec frame kf p).2
| pst_unprotect packet p : prot_step p (unprotect packet p).2.

Inductive prot_reachable (sid : bytes) (me : SigPublic) : Protector -> Prop :=
| pre_new retain : prot_reachable sid me (protector_new sid me retain)
| pre_step p p' : prot_reachable sid me p -> prot_step p p' -> prot_reachable sid me p'.

Lemma prot_step_inv p p' : prot_inv p -> prot_step p p' -> prot_inv p'.
Proof. intros HI Hs. inversion Hs; subst; auto using install_inv, protect_inv, unprotect_inv. Qed.

Lemma protect_fixed codec frame kf p :
  p_sid (protect codec frame kf p).2 = p_sid p /\ p_me (protect codec frame kf p).2 = p_me p.
Proof.
  unfold protect. destruct (p_current p); [|done]. destruct (p_versions p !! _); [|done].
  destruct (checked_add64 _ _); [|done]. destruct (send_key _ _) as [[fk|] s]; [|done].
  by destruct (seal_frame _ _ _ _ _).
Qed.

Lemma prot_step_fixed p p' : prot_step p p' -> p_sid p' = p_sid p /\ p_me p' = p_me p.
Proof.
  intros [v k roster q|codec frame kf q|packet q].
  - unfold install. cbn zeta. destruct (p_versions q !! _); [done|]. by destruct (drop_old _ _ _).
  - apply protect_fixed.
  - destruct (unprotect_cases packet q)
      as [[e ->]|(t & vk & s & raw & body & tag & _ & _ & _ & _ & _ & _ & ->)]; [done|].
    by destruct (open_with _ _ _ _ _ _ _).
Qed.

Lemma prot_reachable_inv sid me p :
  prot_reachable sid me p -> prot_inv p /\ p_sid p = sid /\ p_me p = me.
Proof.
  induction 1 as [retain|p p' _ (IH & IHs & IHm) Hs]; [by split; [apply protector_new_inv|]|].
  split; [by eapply prot_step_inv|]. destruct (prot_step_fixed p p' Hs). by split; congruence.
Qed.

Lemma retained_bound p : prot_inv p -> (retained p <= p_retain p)%N.
Proof.
  intros HI. etrans; [|apply HI]. unfold retained, lenN.
  rewrite <- size_dom, <- (size_list_to_set (C := gset ContextId) (p_order p)) by apply HI.
  assert (dom (p_versions p) ⊆ list_to_set (p_order p)) as Hs%subseteq_size; [|lia].
  intros c. rewrite elem_of_dom, elem_of_list_to_set. apply HI.
Qed.

(** Key retention: in every reachable protector the retained versions are
    exactly those in the retention queue, at most [retain] of them, the version
    used for sending is one of them, and every ratchet stands on the schedule
    of its version's key. *)
Theorem protector_invariant sid me p :
  prot_reachable sid me p ->
  (retained p <= p_retain p)%N /\ NoDup (p_order p) /\
  (forall c, c ∈ p_order p <-> is_Some (p_versions p !! c)) /\
  (forall c, p_current p = Some c -> is_Some (p_versions p !! c)) /\
  (forall c vk, p_versions p !! c = Some vk -> vk_ok me c vk).
Proof.
  intros (HI & _ & <-)%prot_reachable_inv. split_and!; try apply HI. by apply retained_bound.
Qed.

Context {PO : PrimitivesOk P}.

Lemma packet_split p c vk codec frame kf :
  prot_inv p -> p_versions p !! c = Some vk ->
  let body := scatter frame (layout codec frame kf) (sealed p c vk codec frame kf).1 in
  let tag := (sealed p c vk codec frame kf).2 in
  let raw := trailer_encode (sent_trailer p c vk codec kf) in
  TRAILER_LEN <= length (packet_of p c vk codec frame kf) /\
  split_tail (packet_of p c vk codec frame kf) TRAILER_LEN = (body ++ tag, raw) /\
  length tag = tag_len codec.
Proof.
  intros HI Hv body tag raw.
  pose proof (sent_trailer_valid p c vk codec kf HI Hv) as Ht%trailer_encode_length.
  unfold packet_of. split_and!.
  - rewrite !length_app, Ht. lia.
  - rewrite app_assoc. by apply split_tail_app.
  - apply seal_frame_ok.
Qed.

Lemma frame_opens sid me you tx rx c vkt vkr codec frame kf :
  prot_inv tx -> p_sid tx = sid -> p_me tx = me ->
  prot_inv rx -> p_sid rx = sid -> p_me rx = you -> me <> you ->
  p_current tx = Some c -> p_versions tx !! c = Some vkt -> p_versions rx !! c = Some vkr ->
  vk_key vkt = vk_key vkr -> vk_roster vkr !! sender_tag me = Some me ->
  (vk_counter vkt < u64_max)%N ->
  let e := entry_of vkr (sender_tag me) me in
  (accept (vk_counter vkt) e.2).1 = true ->
  (rr_epoch e.1 <= vk_counter vkt / EPOCH <= rr_epoch e.1 + MAX_EPOCH_JUMP)%N ->
  (prefix_codec codec = true \/
   layout codec (scatter frame (layout codec frame kf) (sealed tx c vkt codec frame kf).1) kf
   = layout codec frame kf) ->
  exists packet tx' rx',
    protect codec frame kf tx = (Ok packet, tx') /\ unprotect packet rx = (Ok (me, frame), rx').
Proof.
  intros HIt Hst Hmt HIr Hsr Hmr Hne
    Hc Hvt Hvr Hkey Hros Hcnt e Hfresh Hep Hlay.
  pose proof (protect_spec tx c vkt codec frame kf HIt Hc Hvt) as Hp.
  destruct (N.eqb_spec (vk_counter vkt) u64_max); [lia|]. destruct Hp as (vk' & Hp & _).
  exists (packet_of tx c vkt codec frame kf). eexists.
  destruct (packet_split tx c vkt codec frame kf HIt Hvt) as (Hlen & Hsplit & Htag).
  set (t := sent_trailer tx c vkt codec kf) in *.
  assert (trailer_decode (trailer_encode t) = Ok t) as Hdec
    by by apply trailer_decode_encode, sent_trailer_valid.
  assert (t_sender t = sender_tag me) as Hts
    by (unfold t; cbn [t_sender sent_trailer]; rewrite (pi_tag tx HIt); congruence).
  set (sl := sealed tx c vkt codec frame kf) in *.
  assert (length sl.1 = length (gather frame (layout codec frame kf)) /\
    open_frame codec (frame_key (vk_key vkt) (p_me tx) (vk_counter vkt)) (nonce_for (p_sid tx) t)
      sl.1 sl.2 (associated (trailer_encode t) frame (layout codec frame kf))
    = Ok (gather frame (layout codec frame kf))) as [Hct Hopen] by (split; apply seal_frame_ok).
  assert (layout codec (scatter frame (layout codec frame kf) sl.1) kf
          = layout codec frame kf) as Hstable.
  { destruct Hlay; [by apply prefix_layout_stable|done]. }
  pose proof (layout_tiling codec frame kf) as Htile.
  assert (recv_on (vk_key vkr) me e.1) as Hon.
  { unfold e, entry_of. destruct (vk_recv vkr !! sender_tag me) as [x|] eqn:E; [|done].
    destruct (vo_recv _ _ _ (pi_versions rx HIr c vkr Hvr) _ _ E) as (s & Hs & Hon & _). by simplify_eq. }
  pose proof (vo_counter _ _ _ (pi_versions tx HIt c vkt Hvt)) as Hc64.
  destruct (recv_key_on _ _ _ _ Hon Hc64 Hep) as (rt & Hrk & _).
  destruct (accept (vk_counter vkt) e.2) as [b nr] eqn:Eacc. cbn [fst] in Hfresh. subst b.
  eexists. split; [exact Hp|]. unfold unprotect. rewrite decide_False by lia.
  rewrite Hsplit, Hdec.
  change (t_codec t) with codec. change (t_version t) with c.
  rewrite decide_False by (rewrite length_app; lia). rewrite split_tail_app by done.
  rewrite Hvr, Hts, Hros. rewrite decide_False by congruence.
  unfold open_with. rewrite Hts. fold (entry_of vkr (sender_tag me) me). fold e.
  change (t_counter t) with (vk_counter vkt). rewrite Eacc. cbn [negb]. rewrite Hrk.
  change (t_codec t) with codec. change (t_keyframe t) with kf.
  rewrite Hstable, gather_scattered, associated_scattered by done.
  rewrite Hsr, <- Hst, <- Hkey, <- Hmt, Hopen. cbn [map_err]. rewrite scatter_restores by done.
  reflexivity.
Qed.

(** C36. Frames round-trip: what one reachable protector protects, another with
    the same conference, version key and roster entry opens to the same frame
    and the right sender, provided the frame is fresh to its replay window and
    within its epoch window. For VP8, VP9, Opus and generic frames this holds
    unconditionally; for H.264, H.265 and AV1 the protected body must parse to
    the layout of the original frame. *)
Theorem frame_roundtrip sid me you tx rx c vkt vkr codec frame kf :
  prot_reachable sid me tx -> prot_reachable sid you rx -> me <> you ->
  p_current tx = Some c -> p_versions tx !! c = Some vkt -> p_versions rx !! c = Some vkr ->
  vk_key vkt = vk_key vkr -> vk_roster vkr !! sender_tag me = Some me ->
  (vk_counter vkt < u64_max)%N ->
  let e := entry_of vkr (sender_tag me) me in
  (accept (vk_counter vkt) e.2).1 = true ->
  (rr_epoch e.1 <= vk_counter vkt / EPOCH <= rr_epoch e.1 + MAX_EPOCH_JUMP)%N ->
  (prefix_codec codec = true \/
   layout codec (scatter frame (layout codec frame kf) (sealed tx c vkt codec frame kf).1) kf
   = layout codec frame kf) ->
  exists packet tx' rx',
    protect codec frame kf tx = (Ok packet, tx') /\ unprotect packet rx = (Ok (me, frame), rx').
Proof.
  intros (HIt & Hst & Hmt)%prot_reachable_inv (HIr & Hsr & Hmr)%prot_reachable_inv.
  exact (frame_opens sid me you tx rx c vkt vkr codec frame kf HIt Hst Hmt HIr Hsr Hmr).
Qed.
End opening.

(** ** Counters and replays over runs *)

Section runs.
Context {P : Primitives}.

(** The frame [i] of the sender with [tag] has been accepted under a version. *)
Definition accepted (vk : VersionKeys) (tag : SenderTag) (i : N) : Prop :=
  exists e acc, vk_recv vk !! tag = Some e /\ represents e.2 acc /\ i ∈ acc.

(** What a version's keys may become while the version stays retained. *)
Definition vk_advances (vk vk' : VersionKeys) : Prop :=
  vk_key vk' = vk_key vk /\ (vk_counter vk <= vk_counter vk')%N /\
  forall tag i, accepted vk tag i -> accepted vk' tag i.

Lemma vk_advances_refl vk : vk_advances vk vk.
Proof. by split_and!. Qed.

Lemma vk_advances_trans a b c : vk_advances a b -> vk_advances b c -> vk_advances a c.
Proof. intros (H1 & H2 & H3) (G1 & G2 & G3). split_and!; [congruence|lia|auto]. Qed.

Lemma open_with_advances sid vk trailer sender raw body tag :
  vk_advances vk (open_with sid vk trailer sender raw body tag).2.
Proof.
  destruct (open_with_cases sid vk trailer sender raw body tag) as (e' & -> & He').
  split_and!; [done|done|]. intros tg i (e & acc & Hl & Hr & Hi). unfold accepted.
  cbn [set_vk_recv vk_recv]. destruct (decide (t_sender trailer = tg)) as [<-|Hne].
  - rewrite lookup_insert_eq. exists e'. unfold entry_of in He'. rewrite Hl in He'.
    destruct He' as [[-> _]|(out & fk & _ & Ha & _)]; [by exists acc|].
    destruct (accept_refines _ _ (t_counter trailer) Hr) as (r' & Hr' & Hrep).
    rewrite Ha in Hr'. injection Hr' as Hb Heq. rewrite <- Hb in Hrep.
    exists (t_counter trailer :: acc). rewrite Heq. split_and!; [done|done|set_solver].
  - rewrite lookup_insert_ne by done. by exists e, acc.
Qed.

Lemma open_with_accepts sid me c vk trailer sender raw body tag out :
  vk_ok me c vk -> vk_roster vk !! t_sender trailer = Some sender ->
  (open_with sid vk trailer sender raw body tag).1 = Ok out ->
  accepted (open_with sid vk trailer sender raw body tag).2 (t_sender trailer) (t_counter trailer).
Proof.
  intros Hok Hs Hr. destruct (entry_of_ok _ _ _ _ _ Hok Hs) as (_ & acc & Hacc).
  destruct (open_with_cases sid vk trailer sender raw body tag)
    as (e' & -> & [[_ [err He]]|(out' & fk & _ & Ha & _)]); [congruence|].
  destruct (accept_refines _ _ (t_counter trailer) Hacc) as (r' & Hr' & Hrep).
  rewrite Ha in Hr'. injection Hr' as Hb Heq. rewrite <- Hb in Hrep.
  exists e', (t_counter trailer :: acc). cbn [set_vk_recv vk_recv]. rewrite lookup_insert_eq.
  rewrite Heq. split_and!; [done|done|set_solver].
Qed.

Lemma open_with_replay sid vk trailer sender raw body tag out :
  accepted vk (t_sender trailer) (t_counter trailer) ->
  (open_with sid vk trailer sender raw body tag).1 <> Ok out.
Proof.
  intros (e & acc & Hl & Hr & Hi) Ho.
  destruct (open_with_cases sid vk trailer sender raw body tag)
    as (e' & _ & [[_ [err He]]|(out' & fk & _ & Ha & _)]); [congruence|].
  unfold entry_of in Ha. rewrite Hl in Ha.
  destruct (accept_refines _ _ (t_counter trailer) Hr) as (r' & Hr' & _). rewrite Ha in Hr'.
  injection Hr' as Hb _. unfold spec_accept in Hb. destruct acc as [|x acc']; [set_solver|].
  by rewrite bool_decide_eq_false_2 in Hb by tauto.
Qed.

(** One step, seen from a version that survives it. *)
Lemma prot_step_version p p' c vk vk' :
  prot_inv p -> prot_step p p' -> p_versions p !! c = Some vk -> p_versions p' !! c = Some vk' ->
  vk_advances vk vk'.
Proof.
  intros HI Hs Hv Hv'. inversion Hs as [v k roster q|codec frame kf q|packet q]; subst.
  - destruct (p_versions p !! context_id v) as [old|] eqn:E.
    + unfold install in Hv'. cbn zeta in Hv'. rewrite E in Hv'. cbn [set_current p_versions] in Hv'.
      rewrite Hv in Hv'. injection Hv' as <-. apply vk_advances_refl.
    + destruct (install_new v k roster p HI E) as (_ & H2 & _). rewrite H2 in Hv'.
      case_decide; [|done]. rewrite lookup_insert_ne in Hv' by congruence.
      rewrite Hv in Hv'. injection Hv' as <-. apply vk_advances_refl.
  - destruct (p_current p) as [cc|] eqn:Ec; cycle 1.
    { unfold protect in Hv'. rewrite Ec in Hv'. cbn [snd] in Hv'. simplify_eq. apply vk_advances_refl. }
    destruct (pi_current p HI cc Ec) as [vc Hvc].
    pose proof (protect_spec p cc vc codec frame kf HI Ec Hvc) as Hp.
    destruct (_ =? _)%N; [rewrite Hp in Hv'; cbn [snd] in Hv'; simplify_eq; apply vk_advances_refl|].
    destruct Hp as (vn & Hp & _ & Hcnt & Hrecv & Hkey & _). rewrite Hp in Hv'.
    cbn [snd set_versions p_versions] in Hv'.
    apply lookup_insert_Some in Hv' as [[<- <-]|[_ Hv']]; [|simplify_eq; apply vk_advances_refl].
    simplify_eq. split_and!; [done|lia|]. intros tg i (e & acc & Hl & Hr). exists e, acc.
    by rewrite Hrecv.
  - destruct (unprotect_cases packet p)
      as [[e Hu]|(t & vu & s & raw & body & tag & _ & _ & _ & Hvu & _ & _ & Hu)]; rewrite Hu in Hv'.
    { cbn [snd] in Hv'. simplify_eq. apply vk_advances_refl. }
    pose proof (open_with_advances (p_sid p) vu t s raw body tag) as Had.
    destruct (open_with _ _ _ _ _ _ _) as [r vn]. cbn [snd set_versions p_versions] in *.
    apply lookup_insert_Some in Hv' as [[<- <-]|[_ Hv']]; [by simplify_eq|].
    simplify_eq. apply vk_advances_refl.
Qed.

(** Steps during which the version [c] is not evicted. *)
Definition keeps (c : ContextId) (p p' : Protector) : Prop :=
  prot_step p p' /\ is_Some (p_versions p' !! c).

Lemma keeps_advances c p p' vk :
  prot_inv p -> rtc (keeps c) p p' -> p_versions p !! c = Some vk ->
  prot_inv p' /\ exists vk', p_versions p' !! c = Some vk' /\ vk_advances vk vk'.
Proof.
  intros HI Hr. revert vk HI. induction Hr as [p|p q p' [Hs [vq Hq]] _ IH]; intros vk HI Hv.
  { split; [done|]. exists vk. split; [done|apply vk_advances_refl]. }
  destruct (IH vq (prot_step_inv _ _ HI Hs) Hq) as (HI' & vk' & Hv' & Had).
  split; [done|]. exists vk'. split; [done|].
  eapply vk_advances_trans; [exact (prot_step_version p q c vk vq HI Hs Hv Hq)|done].
Qed.

(** C37. No frame is delivered twice: after a packet has been opened, no packet
    with the same sender, version and frame index is opened again, whatever
    happens in between, as long as the version stays retained. *)
Theorem unprotect_no_replay sid me p pk s f p1 p2 pk' t t' out :
  prot_reachable sid me p ->
  unprotect pk p = (Ok (s, f), p1) -> inspect pk = Ok t ->
  rtc (keeps (t_version t)) p1 p2 ->
  inspect pk' = Ok t' -> t_sender t' = t_sender t -> t_version t' = t_version t ->
  t_counter t' = t_counter t ->
  (unprotect pk' p2).1 <> Ok out.
Proof.
  intros (HI & _ & _)%prot_reachable_inv Hu Hins Hrun Hins' Hs Hv Hc Ho.
  assert (forall pkt body tag raw tr, pkt = (body ++ tag) ++ raw -> length raw = TRAILER_LEN ->
            trailer_decode raw = Ok tr -> inspect pkt = Ok tr) as Hinspect.
  { intros pkt body tag raw tr -> Hl Hd. unfold inspect.
    rewrite decide_False by (rewrite length_app; lia). rewrite length_app.
    replace (length (body ++ tag) + length raw - TRAILER_LEN) with (length (body ++ tag)) by lia.
    by rewrite drop_app_length. }
  destruct (unprotect_cases pk p)
    as [[e He]|(t0 & vk & s0 & raw & body & tag & Hl & Hpk & Hd & Hvk & Hros & _ & Hu0)]; [congruence|].
  rewrite (Hinspect _ _ _ _ _ Hpk Hl Hd) in Hins. injection Hins as ->.
  pose proof (open_with_accepts (p_sid p) (p_me p) (t_version t) vk t s0 raw body tag) as Hacc.
  rewrite Hu in Hu0. destruct (open_with _ _ _ _ _ _ _) as [r vk1]. injection Hu0 as Hr ->.
  destruct r as [o|err]; [|done].
  assert (accepted vk1 (t_sender t) (t_counter t)) as Hacc1.
  { eapply Hacc; [by apply (pi_versions p HI)|done|done]. }
  pose proof (unprotect_inv pk p HI) as HI1. rewrite Hu in HI1.
  destruct (keeps_advances (t_version t) _ p2 vk1 HI1 Hrun) as (HI2 & vk2 & Hvk2 & Had).
  { cbn [snd set_versions p_versions]. apply lookup_insert_eq. }
  destruct (unprotect_cases pk' p2)
    as [[e He]|(t2 & vk2' & s2 & raw2 & body2 & tag2 & Hl2 & Hpk2 & Hd2 & Hvk2' & _ & _ & Hu2)];
    [by rewrite He in Ho|].
  rewrite (Hinspect _ _ _ _ _ Hpk2 Hl2 Hd2) in Hins'. injection Hins' as ->.
  rewrite Hv, Hvk2 in Hvk2'. injection Hvk2' as <-. rewrite Hu2 in Ho.
  pose proof (open_with_replay (p_sid p2) vk2 t' s2 raw2 body2 tag2) as Hrep.
  destruct (open_with _ _ _ _ _ _ _) as [[o2|e2] vk3]; [|done].
  apply (Hrep o2); [|done]. rewrite Hs, Hc. by apply Had.
Qed.

Context {PO : PrimitivesOk P}.

Lemma inspect_packet p c vk codec frame kf :
  prot_inv p -> p_versions p !! c = Some vk ->
  inspect (packet_of p c vk codec frame kf) = Ok (sent_trailer p c vk codec kf).
Proof.
  intros HI Hv. destruct (packet_split p c vk codec frame kf HI Hv) as (Hl & Hs & _).
  unfold inspect. rewrite decide_False by lia. unfold split_tail in Hs. injection Hs as _ ->.
  by apply trailer_decode_encode, sent_trailer_valid.
Qed.

(** Frame indices, and so nonces, are never reused under a retained
    version: two frames protected under the same version, with any steps that
    keep it retained in between, carry the sender's tag and strictly increasing
    indices, which anyone can read back from the packets. *)
Theorem protect_indices_increase sid me p c codec1 f1 kf1 pk1 p1 p2 codec2 f2 kf2 pk2 p3 :
  prot_reachable sid me p -> p_current p = Some c ->
  protect codec1 f1 kf1 p = (Ok pk1, p1) -> rtc (keeps c) p1 p2 -> p_current p2 = Some c ->
  protect codec2 f2 kf2 p2 = (Ok pk2, p3) ->
  exists t1 t2, inspect pk1 = Ok t1 /\ inspect pk2 = Ok t2 /\
    t_sender t1 = sender_tag me /\ t_sender t2 = sender_tag me /\
    t_version t1 = c /\ t_version t2 = c /\ (t_counter t1 < t_counter t2)%N.
Proof.
  intros (HI & _ & Hme)%prot_reachable_inv Hc H1 Hrun Hc2 H2.
  destruct (pi_current p HI c Hc) as [vk Hvk].
  pose proof (protect_inv codec1 f1 kf1 p HI) as HI1. rewrite H1 in HI1. cbn [snd] in HI1.
  pose proof (protect_spec p c vk codec1 f1 kf1 HI Hc Hvk) as Hp.
  destruct (_ =? _)%N; [congruence|]. destruct Hp as (vk1 & Hp & _ & Hcnt & _).
  rewrite H1 in Hp. injection Hp as -> ->.
  destruct (keeps_advances c _ p2 vk1 HI1 Hrun) as (HI2 & vk2 & Hvk2 & (_ & Hle & _)).
  { cbn [set_versions p_versions]. apply lookup_insert_eq. }
  pose proof (protect_spec p2 c vk2 codec2 f2 kf2 HI2 Hc2 Hvk2) as Hp2.
  destruct (_ =? _)%N; [congruence|]. destruct Hp2 as (vk3 & Hp2 & _).
  rewrite H2 in Hp2. injection Hp2 as -> _.
  exists (sent_trailer p c vk codec1 kf1), (sent_trailer p2 c vk2 codec2 kf2).
  assert (p_me p2 = me) as Hme2.
  { rewrite <- Hme. clear -Hrun. assert (forall q q', rtc (keeps c) q q' -> p_me q' = p_me q) as H.
    { induction 1 as [|q q1 q' [Hs _] _ IH]; [done|]. rewrite IH. by apply prot_step_fixed. }
    by rewrite (H _ _ Hrun). }
  split_and!; [by apply inspect_packet|by apply inspect_packet| | |done|done|].
  - cbn [t_sender sent_trailer]. by rewrite (pi_tag p HI), Hme.
  - cbn [t_sender sent_trailer]. by rewrite (pi_tag p2 HI2), Hme2.
  - cbn [t_counter sent_trailer]. lia.
Qed.
End runs.

(** ** Examples and witnesses *)

Definition ex_me : SigPublic := array_of (byte_of 1) 32.
Definition ex_you : SigPublic := array_of (byte_of 2) 32.
Definition ex_vers (n : N) : bytes := array_of (byte_of n) 8.
Definition ex_gkey (n : N) : bytes := array_of (byte_of n) 32.
Definition ex_tx : Protector :=
  install (P := Toy) (ex_vers 1) (ex_gkey 42) [ex_me; ex_you]
    (protector_new (P := Toy) ex_sid ex_me 1).
Definition ex_rx : Protector :=
  install (P := Toy) (ex_vers 1) (ex_gkey 42) [ex_me; ex_you]
    (protector_new (P := Toy) ex_sid ex_you 4).

Lemma ex_tx_reachable : prot_reachable (P := Toy) ex_sid ex_me ex_tx.
Proof. eapply pre_step; [apply pre_new|apply pst_install]. Qed.
Lemma ex_rx_reachable : prot_reachable (P := Toy) ex_sid ex_you ex_rx.
Proof. eapply pre_step; [apply pre_new|apply pst_install]. Qed.

Definition sent (r : result MediaError bytes * Protector) : bytes :=
  match r.1 with Ok b => b | Err _ => [] end.

(** A unit whose content encrypts to the bytes [00 00 01]. *)
Definition ex_h264 : bytes := byte_of <$> [0; 0; 1; 101; 90; 90; 91; 170]%N.

(** The ciphertext is written in place without escaping, so it can contain a
    start code: the receiver then splits the body differently, authenticates
    other bytes as structure, and refuses a frame nobody touched. *)
Lemma h264_start_code_emulation :
  (unprotect (P := Toy) (sent (protect (P := Toy) H264 ex_h264 true ex_tx)) ex_rx).1 = Err BadTag.
Proof. by vm_compute. Qed.

(** After its eviction a version that is installed again starts over from frame
    zero with the same key: the trailer, and with it the nonce, is reused for
    another frame. *)
Definition ex_reinstalled : Protector :=
  install (P := Toy) (ex_vers 1) (ex_gkey 42) [ex_me; ex_you]
    (install (P := Toy) (ex_vers 2) (ex_gkey 43) [ex_me; ex_you]
       (protect (P := Toy) Opus (bstr "one") false ex_tx).2).

Lemma reinstalled_version_reuses_nonce :
  inspect (sent (protect (P := Toy) Opus (bstr "one") false ex_tx))
  = inspect (sent (protect (P := Toy) Opus (bstr "two") false ex_reinstalled)) /\
  bool_decide (sent (protect (P := Toy) Opus (bstr "one") false ex_tx)
               = sent (protect (P := Toy) Opus (bstr "two") false ex_reinstalled)) = false /\
  is_ok (inspect (sent (protect (P := Toy) Opus (bstr "one") false ex_tx))) = true.
Proof. by vm_compute. Qed.

Definition ex_ctx : ContextId := context_id (P := Toy) (ex_vers 1).
Definition ex_vk (me : SigPublic) : VersionKeys :=
  fresh_version (P := Toy) (ex_vers 1) (ex_gkey 42) [ex_me; ex_you] me.

Lemma ex_install_version me retain :
  p_versions (install (P := Toy) (ex_vers 1) (ex_gkey 42) [ex_me; ex_you]
    (protector_new (P := Toy) ex_sid me retain)) !! ex_ctx = Some (ex_vk me).
Proof.
  destruct (install_new (P := Toy) (ex_vers 1) (ex_gkey 42) [ex_me; ex_you]
    (protector_new (P := Toy) ex_sid me retain)) as (_ & H & _ & Hin & _).
  - apply protector_new_inv.
  - done.
  - rewrite H, decide_True by exact Hin. apply lookup_insert_eq.
Qed.
Lemma ex_tx_version : p_versions ex_tx !! ex_ctx = Some (ex_vk ex_me).
Proof. apply ex_install_version. Qed.
Lemma ex_rx_version : p_versions ex_rx !! ex_ctx = Some (ex_vk ex_you).
Proof. apply ex_install_version. Qed.

Lemma frame_roundtrip_witness :
  exists packet tx' rx', protect (P := Toy) Vp8 (bstr "frame") true ex_tx = (Ok packet, tx') /\
    unprotect (P := Toy) packet ex_rx = (Ok (ex_me, bstr "frame"), rx').
Proof.
  apply (frame_roundtrip (P := Toy) ex_sid ex_me ex_you ex_tx ex_rx ex_ctx (ex_vk ex_me) (ex_vk ex_you)).
  - apply ex_tx_reachable.
  - apply ex_rx_reachable.
  - done.
  - reflexivity.
  - apply ex_tx_version.
  - apply ex_rx_version.
  - reflexivity.
  - by vm_compute.
  - reflexivity.
  - by vm_compute.
  - by vm_compute.
  - by left.
Defined.

Lemma protector_invariant_witness : (retained ex_tx <= p_retain ex_tx)%N.
Proof. exact (proj1 (protector_invariant (P := Toy) ex_sid ex_me ex_tx ex_tx_reachable)). Defined.

Definition ex_packet : bytes := sent (protect (P := Toy) Opus (bstr "one") false ex_tx).

Lemma ex_packet_opens :
  unprotect (P := Toy) ex_packet ex_rx
  = (Ok (ex_me, bstr "one"), (unprotect (P := Toy) ex_packet ex_rx).2).
Proof. apply run_fst. by vm_compute. Qed.

Lemma unprotect_no_replay_witness :
  (unprotect (P := Toy) ex_packet (unprotect (P := Toy) ex_packet ex_rx).2).1
  <> Ok (ex_me, bstr "one").
Proof.
  apply (unprotect_no_replay (P := Toy) ex_sid ex_you ex_rx ex_packet ex_me (bstr "one")
    (unprotect (P := Toy) ex_packet ex_rx).2 (unprotect (P := Toy) ex_packet ex_rx).2 ex_packet
    (mkTrailer (sender_tag (P := Toy) ex_me) 0 ex_ctx Opus false)
    (mkTrailer (sender_tag (P := Toy) ex_me) 0 ex_ctx Opus false)).
  - apply ex_rx_reachable.
  - apply ex_packet_opens.
  - by vm_compute.
  - apply rtc_refl.
  - by vm_compute.
  - done.
  - done.
  - done.
Defined.

Lemma protect_indices_increase_witness :
  exists t1 t2, inspect ex_packet = Ok t1 /\
    inspect (sent (protect (P := Toy) Vp9 (bstr "two") false
                     (protect (P := Toy) Opus (bstr "one") false ex_tx).2)) = Ok t2 /\
    t_sender t1 = sender_tag (P := Toy) ex_me /\ t_sender t2 = sender_tag (P := Toy) ex_me /\
    t_version t1 = ex_ctx /\ t_version t2 = ex_ctx /\ (t_counter t1 < t_counter t2)%N.
Proof.
  apply (protect_indices_increase (P := Toy) ex_sid ex_me ex_tx ex_ctx Opus (bstr "one") false _
    (protect (P := Toy) Opus (bstr "one") false ex_tx).2
    (protect (P := Toy) Opus (bstr "one") false ex_tx).2 Vp9 (bstr "two") false _
    (protect (P := Toy) Vp9 (bstr "two") false
       (protect (P := Toy) Opus (bstr "one") false ex_tx).2).2).
  - apply ex_tx_reachable.
  - reflexivity.
  - apply run_fst. by vm_compute.
  - apply rtc_refl.
  - by vm_compute.
  - apply run_fst. by vm_compute.
Defined.
