(* ===== verification/MediaState.v ===== *)
(** * Persisted media state ([crates/cfr-media/src/state.rs])

    The private codec of a protector: the unframed writer and the bounds-checked
    reader, export and import with every consistency check, and the binding
    check against the control plane.  The reader has the fields of the wire
    codec's reader and shares its record, so the [Lawful] contract of [Codec]
    applies to it. *)

From Stdlib Require Import NArith Lia.
From S2P Require Import Prelude Crypto Toy Codec Ops Replay Ratchet Layout Frame.

Definition MAX_MEDIA_STATE_BYTES : N := 4194304.
Definition MAX_RETAINED_VERSIONS : N := 64.
Definition MAX_ROSTER : N := 256.

(** ** Writer *)

Abbreviation Mw := (M (list Byte.byte) MediaError).

Definition mw_fixed (value : bytes) : Mw unit := modify (fun w => w ++ value).
Definition mw_u8 (value : N) : Mw unit := mw_fixed [byte_of value].
Definition mw_u32 (value : N) : Mw unit := mw_fixed (u32_to_be_bytes value).
Definition mw_u64 (value : N) : Mw unit := mw_fixed (u64_to_be_bytes value).
Definition mw_count (value : N) : Mw unit :=
  if (value <? two32)%N then mw_u32 value else fail MalformedState.

(** [for item in items { ... }] with [?] in its body. *)
Fixpoint mw_each {A} (f : A -> Mw unit) (items : list A) : Mw unit :=
  match items with
  | [] => mret tt
  | a :: items => _ ← f a; mw_each f items
  end.

(** ** Reader *)

Abbreviation Mr := (M Reader MediaError).

Definition mr_new (buf : bytes) : result MediaError Reader :=
  if (MAX_MEDIA_STATE_BYTES <? lenN buf)%N then Err MalformedState else Ok (reader_new buf).

(** A position that overflows [usize] and a range past the end are the same
    error and leave the reader as it was. *)
Definition mr_take (length : N) : Mr bytes := fun r =>
  let end_ := (r_pos r + length)%N in
  if (end_ <=? lenN (r_buf r))%N
  then (Ok (slice (r_buf r) (r_pos r) end_), mkReader (r_buf r) end_)
  else (Err MalformedState, r).

Definition mr_array (n : nat) : Mr bytes := mr_take (N.of_nat n).

Definition mr_u8 : Mr N :=
  b ← mr_take 1;
  match head b with Some b => mret (Byte.to_N b) | None => fail MalformedState end.

Definition mr_u32 : Mr N := b ← mr_array 4; mret (be_val b).
Definition mr_u64 : Mr N := b ← mr_array 8; mret (be_val b).

Definition mr_count (limit : N) : Mr N :=
  value ← mr_u32;
  if (limit <? value)%N then fail MalformedState else mret value.

Definition mr_finish : Mr unit := fun r =>
  if (r_pos r =? lenN (r_buf r))%N then (Ok tt, r) else (Err MalformedState, r).

Definition read_bool : Mr bool :=
  v ← mr_u8;
  match v with 0%N => mret false | 1%N => mret true | _ => fail MalformedState end.

(** [saturating_sub(1) / EPOCH]: [N] subtraction stops at zero. *)
Definition expected_send_epoch (counter : N) : N := ((counter - 1) / EPOCH)%N.

(** The loop that fills a map: [count] times a key above the previous one and
    admitted by [allowed], then its value. *)
Fixpoint read_map {V} (n : nat) (width : nat) (allowed : bytes -> bool) (value : bytes -> Mr V)
    (previous : option bytes) (acc : gmap bytes V) : Mr (gmap bytes V) :=
  match n with
  | O => mret acc
  | S n =>
      key ← mr_array width;
      if (match previous with Some p => bool_decide (bytes_le key p) | None => false end)
         || negb (allowed key)
      then fail MalformedState
      else
        v ← value key;
        read_map n width allowed value (Some key) (<[key := v]> acc)
  end.

Section media_state.
Context {P : Primitives}.

(** ** Export *)

Definition write_roster_entry (e : SenderTag * SigPublic) : Mw unit :=
  _ ← mw_fixed e.1; mw_fixed e.2.

Definition write_receiver (e : SenderTag * (RecvRatchet * Replay)) : Mw unit :=
  let '(tag, (ratchet, replay)) := e in
  _ ← mw_fixed tag;
  _ ← mw_fixed (rr_chain ratchet);
  _ ← mw_u64 (rr_epoch ratchet);
  _ ← mw_u64 (rp_high replay);
  _ ← mw_u64 (rp_seen replay);
  mw_u8 (if rp_started replay then 1 else 0).

Definition write_version (e : ContextId * VersionKeys) : Mw unit :=
  let '(context, version) := e in
  _ ← mw_fixed context;
  _ ← mw_fixed (vk_version version);
  _ ← mw_fixed (vk_key version);
  _ ← mw_count (lenN (bt_list (vk_roster version)));
  _ ← mw_each write_roster_entry (bt_list (vk_roster version));
  _ ← mw_fixed (sr_chain (vk_send version));
  _ ← mw_u64 (sr_epoch (vk_send version));
  _ ← mw_count (lenN (bt_list (vk_recv version)));
  _ ← mw_each write_receiver (bt_list (vk_recv version));
  mw_u64 (vk_counter version).

Definition write_current (current : option ContextId) : Mw unit :=
  match current with
  | Some context => _ ← mw_u8 1; mw_fixed context
  | None => mw_u8 0
  end.

Definition write_protector (p : Protector) : Mw unit :=
  _ ← mw_fixed (p_sid p);
  _ ← mw_fixed (p_me p);
  _ ← mw_fixed (p_my_tag p);
  _ ← mw_count (p_retain p);
  _ ← mw_count (lenN (bt_list (p_versions p)));
  _ ← mw_each write_version (bt_list (p_versions p));
  _ ← mw_count (lenN (p_order p));
  _ ← mw_each mw_fixed (p_order p);
  write_current (p_current p).

Definition media_export (p : Protector) : result MediaError bytes :=
  match write_protector p [] with
  | (Ok _, bytes) =>
      if (MAX_MEDIA_STATE_BYTES <? lenN bytes)%N then Err MalformedState else Ok bytes
  | (Err e, _) => Err e
  end.

(** ** Import *)

Definition read_identity (tag : SenderTag) : Mr SigPublic :=
  identity ← mr_array 32;
  if decide (sender_tag identity <> tag) then fail MalformedState else mret identity.

Definition read_roster : Mr (gmap SenderTag SigPublic) :=
  count ← mr_count MAX_ROSTER;
  read_map (N.to_nat count) 8 (fun _ => true) read_identity None ∅.

(** The consistency of a replay window with the epoch it stands in. *)
Definition receiver_invalid (ratchet : RecvRatchet) (replay : Replay) : bool :=
  (negb (rp_started replay) && (negb (rp_high replay =? 0)%N || negb (rp_seen replay =? 0)%N))
  || (rp_started replay
      && ((N.land (rp_seen replay) 1 =? 0)%N
          || negb (rr_epoch ratchet =? rp_high replay / EPOCH)%N)).

Definition read_receiver : Mr (RecvRatchet * Replay) :=
  chain ← mr_array 32;
  epoch ← mr_u64;
  high ← mr_u64;
  seen ← mr_u64;
  started ← read_bool;
  let ratchet := mkRecvRatchet chain epoch in
  let replay := mkReplay high seen started in
  if receiver_invalid ratchet replay then fail MalformedState else mret (ratchet, replay).

Definition receiver_allowed (roster : gmap SenderTag SigPublic) (my_tag tag : SenderTag) : bool :=
  bool_decide (tag <> my_tag) && bool_decide (is_Some (roster !! tag)).

Definition read_receivers (roster : gmap SenderTag SigPublic) (my_tag : SenderTag)
    : Mr (gmap SenderTag (RecvRatchet * Replay)) :=
  count ← mr_count (lenN (bt_list roster));
  read_map (N.to_nat count) 8 (receiver_allowed roster my_tag) (fun _ => read_receiver) None ∅.

Definition read_version (my_tag : SenderTag) (context : ContextId) : Mr VersionKeys :=
  version ← mr_array 8;
  if decide (context_id version <> context) then fail MalformedState else
  key ← mr_array 32;
  roster ← read_roster;
  chain ← mr_array 32;
  epoch ← mr_u64;
  recv ← read_receivers roster my_tag;
  counter ← mr_u64;
  if negb (epoch =? expected_send_epoch counter)%N then fail MalformedState
  else mret (mkVersionKeys version key roster (mkSendRatchet chain epoch) recv counter).

Definition read_versions_map (retain : N) (my_tag : SenderTag) : Mr (gmap ContextId VersionKeys) :=
  version_count ← mr_count retain;
  read_map (N.to_nat version_count) 16 (fun _ => true) (read_version my_tag) None ∅.

Fixpoint read_order_loop (n : nat) (versions : gmap ContextId VersionKeys) (order : list ContextId)
    : Mr (list ContextId) :=
  match n with
  | O => mret order
  | S n =>
      context ← mr_array 16;
      if negb (bool_decide (is_Some (versions !! context))) || bool_decide (context ∈ order)
      then fail MalformedState
      else read_order_loop n versions (order ++ [context])
  end.

Definition read_order (versions : gmap ContextId VersionKeys) (retain : N) : Mr (list ContextId) :=
  count ← mr_count retain;
  if negb (count =? lenN (bt_list versions))%N then fail MalformedState
  else read_order_loop (N.to_nat count) versions [].

Definition read_current : Mr (option ContextId) :=
  v ← mr_u8;
  match v with
  | 0%N => mret None
  | 1%N => context ← mr_array 16; mret (Some context)
  | _ => fail MalformedState
  end.

(** The last check: [current] names a version, and is absent exactly when there
    are none. *)
Definition current_invalid (versions : gmap ContextId VersionKeys) (current : option ContextId) : bool :=
  match current with
  | Some context => negb (bool_decide (is_Some (versions !! context)))
  | None => false
  end || negb (Bool.eqb (size versions =? 0) (bool_decide (current = None))).

Definition read_protector : Mr Protector :=
  sid ← mr_array 32;
  me ← mr_array 32;
  my_tag ← mr_array 8;
  if decide (my_tag <> sender_tag me) then fail MalformedState else
  retain ← mr_count MAX_RETAINED_VERSIONS;
  if (retain =? 0)%N then fail MalformedState else
  versions ← read_versions_map retain my_tag;
  order ← read_order versions retain;
  current ← read_current;
  _ ← mr_finish;
  if current_invalid versions current then fail MalformedState
  else mret (mkProtector sid me my_tag versions order current retain).

Definition media_import (bytes : bytes) : result MediaError Protector :=
  r ← mr_new bytes;
  (read_protector r).1.

(** ** Binding to the control plane *)

Definition validate_persistence_binding (sid : bytes) (me : SigPublic)
    (current : option (bytes * bytes * gset SigPublic)) (p : Protector) : result MediaError unit :=
  if decide (p_sid p <> sid \/ p_me p <> me \/ p_my_tag p <> sender_tag me) then Err MalformedState
  else match current with
  | None => Ok tt
  | Some (version, key, members) =>
      let context := context_id version in
      if decide (p_current p <> Some context) then Err MalformedState else
      match p_versions p !! context with
      | None => Err MalformedState
      | Some stored =>
          let roster : gset SigPublic := list_to_set (bt_list (vk_roster stored)).*2 in
          if bool_decide (vk_version stored <> version) || negb (ct_eq (vk_key stored) key)
             || bool_decide (roster <> members)
          then Err MalformedState else Ok tt
      end
  end.
End media_state.

(** ** The readers accept exactly the images *)

#[export] Instance mr_take_lawful n : Lawful (fun b => lenN b = n) (fun b => b) (mr_take n).
Proof.
  split.
  - intros b pre post <-. unfold mr_take, rd_at. cbn zeta. cbn [r_pos r_buf].
    rewrite !lenN_app. destruct (N.leb_spec (lenN pre + lenN b) (lenN pre + (lenN b + lenN post))); [|lia].
    rewrite <- lenN_app, slice_app. by rewrite <- app_assoc.
  - intros pre rest b r'. unfold mr_take, rd_at. cbn zeta. cbn [r_pos r_buf].
    rewrite lenN_app. destruct (N.leb_spec (lenN pre + n) (lenN pre + lenN rest)) as [Hn|]; [|done].
    intros [= <- <-]. rewrite <- (take_drop (N.to_nat n) rest).
    set (b := take (N.to_nat n) rest). set (p := drop (N.to_nat n) rest).
    assert (lenN b = n) as Hb by (subst b; len_lia).
    rewrite (slice_app_r pre b p n) by done. split; [done|].
    exists p. split; [done|]. by rewrite lenN_app, Hb, <- app_assoc.
Qed.

#[export] Instance mr_array_lawful n : Lawful (fun b => length b = n) (fun b => b) (mr_array n).
Proof.
  unfold mr_array. split.
  - intros b pre post Hb. rd_step by (unfold lenN; by rewrite Hb). done.
  - intros pre rest b r' H. rd_inv_step H. split; [len_lia|]. by eexists.
Qed.

Lemma be_val_width n b : length b = n -> be_bytes n (be_val b) = b.
Proof. intros <-. apply be_bytes_be_val. Qed.

#[export] Instance mr_u32_lawful : Lawful u32_valid u32_to_be_bytes mr_u32.
Proof.
  unfold mr_u32. split.
  - intros v pre post Hv. rd_step by apply u32_be_length. by rewrite u32_be_val.
  - intros pre rest v r' H. rd_inv H. injection H as <- <-. split.
    + pose proof (be_val_bound a) as Hb. unfold lenN in Hb. by rewrite HV in Hb.
    + exists post. unfold u32_to_be_bytes. by rewrite be_val_width.
Qed.

#[export] Instance mr_u64_lawful : Lawful u64_valid u64_to_be_bytes mr_u64.
Proof.
  unfold mr_u64. split.
  - intros v pre post Hv. rd_step by apply u64_be_length. by rewrite u64_be_val.
  - intros pre rest v r' H. rd_inv H. injection H as <- <-. split.
    + pose proof (be_val_bound a) as Hb. unfold lenN in Hb. by rewrite HV in Hb.
    + exists post. unfold u64_to_be_bytes. by rewrite be_val_width.
Qed.

#[export] Instance mr_u8_lawful : Lawful (fun v => (v < 256)%N) (fun v => [byte_of v]) mr_u8.
Proof.
  unfold mr_u8. split.
  - intros v pre post Hv. rd_step by done. cbn [head]. rewrite to_N_byte_of, N.mod_small by done. done.
  - intros pre rest v r' H. rd_inv H. destruct a as [|b [|? ?]]; [done| |exfalso; len_lia].
    injection H as <- <-. rewrite byte_of_to_N. split; [apply to_N_lt|]. by eexists.
Qed.

#[export] Instance mr_count_lawful limit :
  Lawful (fun n => (n <= limit)%N /\ u32_valid n) u32_to_be_bytes (mr_count limit).
Proof.
  unfold mr_count. split.
  - intros n pre post [Hl Hn]. rd_step. destruct (N.ltb_spec limit n); [lia|done].
  - intros pre rest n r' H. rd_inv H. destruct (N.ltb_spec limit a); [done|].
    injection H as <- <-. split; [done|]. by eexists.
Qed.

Definition bool_image (b : bool) : bytes := [byte_of (if b then 1 else 0)].

Lemma u8_case {A} (v : N) (a b c : A) :
  (match v with 0%N => a | 1%N => b | _ => c end)
  = if decide (v = 0%N) then a else if decide (v = 1%N) then b else c.
Proof. by destruct v as [|[]]. Qed.

#[export] Instance read_bool_lawful : Lawful (fun _ => True) bool_image read_bool.
Proof.
  unfold read_bool, bool_image. split.
  - intros b pre post _. rd_step by (by destruct b). by destruct b.
  - intros pre rest b r' H. rd_inv H. rewrite u8_case in H.
    repeat case_decide; subst; try done; injection H as <- <-; by split; [|eexists].
Qed.

(** ** Maps *)

Section maps.
Context {V : Type} (width : nat) (allowed : bytes -> bool) (value : bytes -> Mr V).
Context (VV : bytes -> V -> Prop) (vimg : V -> bytes).
Context {L : forall k, Lawful (VV k) vimg (value k)}.

Definition entry_ok (e : bytes * V) : Prop :=
  length e.1 = width /\ allowed e.1 = true /\ VV e.1 e.2.
Definition entries_image (l : list (bytes * V)) : bytes :=
  concat ((fun e => e.1 ++ vimg e.2) <$> l).

Definition map_valid (m : gmap bytes V) : Prop := Forall entry_ok (bt_list m).
Definition map_image (m : gmap bytes V) : bytes := entries_image (bt_list m).

Lemma read_map_complete l prev acc pre post :
  Forall entry_ok l -> above prev l.*1 ->
  read_map (length l) width allowed value prev acc (rd_at pre (entries_image l ++ post))
  = (Ok (foldl (fun m kv => <[kv.1 := kv.2]> m) acc l), rd_at (pre ++ entries_image l) post).
Proof using L.
  intros H. revert prev acc pre. induction H as [|[k v] l (Hw & Ha & Hv) Hl IH]; intros prev acc pre Hs.
  - by rewrite app_nil_r.
  - rewrite fmap_cons in Hs. apply above_cons in Hs as [Hp Hs]. cbn [fst snd] in *.
    change (entries_image ((k, v) :: l)) with ((k ++ vimg v) ++ entries_image l).
    cbn [length read_map]. rewrite <- !app_assoc. rd_step.
    assert (match prev with Some p => bool_decide (bytes_le k p) | None => false end = false) as ->.
    { destruct prev; [|done]. by apply bool_decide_false. }
    rewrite Ha. cbn [orb negb]. rd_step. rewrite IH by done. by rewrite <- !app_assoc.
Qed.

Lemma read_map_sound n prev acc pre rest m r' :
  read_map n width allowed value prev acc (rd_at pre rest) = (Ok m, r') ->
  exists l post, length l = n /\ Forall entry_ok l /\ (prev <> None \/ n <> 0 -> above prev l.*1) /\
    m = foldl (fun m kv => <[kv.1 := kv.2]> m) acc l /\
    rest = entries_image l ++ post /\ r' = rd_at (pre ++ entries_image l) post.
Proof using L.
  revert prev acc pre rest. induction n as [|n IH]; intros prev acc pre rest H; cbn [read_map] in H.
  - injection H as <- <-. exists [], rest. split_and!; try done; [|by rewrite app_nil_r].
    intros [Hp|]; [|done]. destruct prev; [|done]. repeat constructor.
  - rd_inv H. rename a into k.
    destruct (match prev with Some p => bool_decide (bytes_le k p) | None => false end) eqn:Ep; [done|].
    destruct (allowed k) eqn:Ea; [|done]. cbn [orb negb] in H. rd_inv H. rename a into v.
    apply IH in H as (l & post' & Hlen & HF & Hab & -> & -> & ->).
    exists ((k, v) :: l), post'. split_and!.
    + simpl. lia.
    + by constructor.
    + intros _. rewrite fmap_cons. apply above_cons. split; [|apply Hab; by left].
      destruct prev; [|done]. by apply bool_decide_eq_false in Ep.
    + done.
    + unfold entries_image. simpl. by rewrite <- !app_assoc.
    + unfold entries_image. simpl. by rewrite <- !app_assoc.
Qed.

(** A counted map is read from its count and its entries in key order. *)
Lemma read_counted_lawful limit :
  Lawful (fun m => map_valid m /\ (lenN (bt_list m) <= limit)%N /\ u32_valid (lenN (bt_list m)))
    (fun m => u32_to_be_bytes (lenN (bt_list m)) ++ map_image m)
    (count ← mr_count limit; read_map (N.to_nat count) width allowed value None ∅).
Proof using L.
  split.
  - intros m pre post (HV & Hl & Hu). rewrite <- !app_assoc. rd_step.
    rewrite lenN_to_nat. unfold map_image. rewrite read_map_complete; [|done|apply bt_list_sorted].
    rewrite foldl_insert_map, map_union_empty, list_to_map_bt_list by apply bt_list_NoDup_fst.
    by rewrite app_assoc.
  - intros pre rest m r' H. rd_inv H.
    apply read_map_sound in H as (l & post' & Hlen & HF & Hab & -> & -> & ->).
    assert (a = lenN l) as -> by (unfold lenN; lia).
    assert (StronglySorted bytes_lt l.*1) as Hs.
    { destruct l as [|x l]; [constructor|]. apply Hab. right. by rewrite lenN_to_nat. }
    assert (foldl (fun m kv => <[kv.1 := kv.2]> m) ∅ l = list_to_map l) as ->.
    { by rewrite foldl_insert_map, map_union_empty by (by apply sorted_lt_NoDup). }
    unfold map_valid, map_image. rewrite bt_list_of_sorted by done.
    split; [by split|]. exists post'. by rewrite <- !app_assoc.
Qed.
End maps.

(** ** Images and validity of the stored state *)

Section stored.
Context {P : Primitives}.

Definition roster_image (r : gmap SenderTag SigPublic) : bytes :=
  u32_to_be_bytes (lenN (bt_list r)) ++ map_image (fun id => id) r.

Definition roster_valid (r : gmap SenderTag SigPublic) : Prop :=
  map_valid 8 (fun _ => true) (fun tag id => length id = 32 /\ sender_tag id = tag) r
  /\ (lenN (bt_list r) <= MAX_ROSTER)%N /\ u32_valid (lenN (bt_list r)).

Definition receiver_image (e : RecvRatchet * Replay) : bytes :=
  rr_chain e.1 ++ u64_to_be_bytes (rr_epoch e.1) ++ u64_to_be_bytes (rp_high e.2)
  ++ u64_to_be_bytes (rp_seen e.2) ++ bool_image (rp_started e.2).

Definition receiver_valid (e : RecvRatchet * Replay) : Prop :=
  length (rr_chain e.1) = 32 /\ u64_valid (rr_epoch e.1) /\ u64_valid (rp_high e.2)
  /\ u64_valid (rp_seen e.2) /\ receiver_invalid e.1 e.2 = false.

Definition receivers_image (r : gmap SenderTag (RecvRatchet * Replay)) : bytes :=
  u32_to_be_bytes (lenN (bt_list r)) ++ map_image receiver_image r.

Definition receivers_valid (roster : gmap SenderTag SigPublic) (my_tag : SenderTag)
    (r : gmap SenderTag (RecvRatchet * Replay)) : Prop :=
  map_valid 8 (receiver_allowed roster my_tag) (fun _ => receiver_valid) r
  /\ (lenN (bt_list r) <= lenN (bt_list roster))%N /\ u32_valid (lenN (bt_list r)).

Definition version_image (v : VersionKeys) : bytes :=
  vk_version v ++ vk_key v ++ roster_image (vk_roster v) ++ sr_chain (vk_send v)
  ++ u64_to_be_bytes (sr_epoch (vk_send v)) ++ receivers_image (vk_recv v)
  ++ u64_to_be_bytes (vk_counter v).

Definition version_valid (my_tag : SenderTag) (context : ContextId) (v : VersionKeys) : Prop :=
  length (vk_version v) = 8 /\ context_id (vk_version v) = context /\ length (vk_key v) = 32
  /\ roster_valid (vk_roster v) /\ length (sr_chain (vk_send v)) = 32
  /\ u64_valid (sr_epoch (vk_send v)) /\ receivers_valid (vk_roster v) my_tag (vk_recv v)
  /\ u64_valid (vk_counter v) /\ sr_epoch (vk_send v) = expected_send_epoch (vk_counter v).

#[export] Instance read_identity_lawful tag :
  Lawful (fun id => length id = 32 /\ sender_tag id = tag) (fun id => id) (read_identity tag).
Proof.
  unfold read_identity. split.
  - intros id pre post [Hl Ht]. rd_step. by rewrite decide_False by (intros Hn; by apply Hn).
  - intros pre rest id r' H. rd_inv H. destruct (decide _) as [|Hd]; [done|].
    injection H as <- <-. apply dec_stable in Hd. split; [done|]. by eexists.
Qed.

#[export] Instance read_roster_lawful : Lawful roster_valid roster_image read_roster.
Proof. apply (read_counted_lawful 8 (fun _ => true) read_identity _ _ MAX_ROSTER). Qed.

#[export] Instance read_receiver_lawful : Lawful receiver_valid receiver_image read_receiver.
Proof.
  unfold read_receiver, receiver_image. split.
  - intros [[chain epoch] [high seen started]] pre post (H1 & H2 & H3 & H4 & H5).
    cbn [fst snd rr_chain rr_epoch rp_high rp_seen rp_started] in *.
    rewrite <- !app_assoc. do 5 rd_step. cbn zeta. rewrite H5. by rewrite <- !app_assoc.
  - intros pre rest e r' H. do 5 rd_inv H. cbn zeta in H.
    destruct (receiver_invalid _ _) eqn:E; [done|]. injection H as <- <-.
    split; [by split_and!|]. eexists. by rewrite <- !app_assoc.
Qed.

#[export] Instance read_receivers_lawful roster my_tag :
  Lawful (receivers_valid roster my_tag) receivers_image (read_receivers roster my_tag).
Proof.
  apply (read_counted_lawful 8 (receiver_allowed roster my_tag) (fun _ => read_receiver)
    (fun _ => receiver_valid) _ _).
Qed.

#[export] Instance read_version_lawful my_tag context :
  Lawful (version_valid my_tag context) version_image (read_version my_tag context).
Proof.
  unfold read_version, version_image. split.
  - intros [v k ro [ch ep] rv c] pre post (H1 & H2 & H3 & H4 & H5 & H6 & H7 & H8 & H9).
    cbn [vk_version vk_key vk_roster vk_send vk_recv vk_counter sr_chain sr_epoch] in *.
    rewrite <- !app_assoc. rd_step. rewrite decide_False by (intros Hn; by apply Hn).
    do 6 rd_step. rewrite (proj2 (N.eqb_eq _ _) H9). cbn [negb]. by rewrite <- !app_assoc.
  - intros pre rest e r' H. rd_inv H. destruct (decide _) as [|Hd]; [done|]. apply dec_stable in Hd.
    do 6 rd_inv H. destruct (N.eqb_spec a3 (expected_send_epoch a5)); [|done]. cbn [negb] in H.
    injection H as <- <-. split; [by split_and!|]. eexists.
    cbn [vk_version vk_key vk_roster vk_send vk_recv vk_counter sr_chain sr_epoch].
    by rewrite <- !app_assoc.
Qed.

Definition versions_image (vs : gmap ContextId VersionKeys) : bytes :=
  u32_to_be_bytes (lenN (bt_list vs)) ++ map_image version_image vs.

Definition versions_valid (retain : N) (my_tag : SenderTag) (vs : gmap ContextId VersionKeys) : Prop :=
  map_valid 16 (fun _ => true) (version_valid my_tag) vs
  /\ (lenN (bt_list vs) <= retain)%N /\ u32_valid (lenN (bt_list vs)).

#[export] Instance read_versions_map_lawful retain my_tag :
  Lawful (versions_valid retain my_tag) versions_image (read_versions_map retain my_tag).
Proof. apply (read_counted_lawful 16 (fun _ => true) (read_version my_tag) _ _ _). Qed.

Definition order_valid (vs : gmap ContextId VersionKeys) (retain : N) (l : list ContextId) : Prop :=
  (lenN l <= retain)%N /\ u32_valid (lenN l) /\ lenN l = lenN (bt_list vs) /\ NoDup l
  /\ Forall (fun c => length c = 16 /\ is_Some (vs !! c)) l.
Definition order_image (l : list ContextId) : bytes := u32_to_be_bytes (lenN l) ++ concat l.

Lemma read_order_loop_complete vs l acc pre post :
  Forall (fun c => length c = 16 /\ is_Some (vs !! c)) l -> NoDup (acc ++ l) ->
  read_order_loop (length l) vs acc (rd_at pre (concat l ++ post))
  = (Ok (acc ++ l), rd_at (pre ++ concat l) post).
Proof.
  intros H. revert acc pre. induction H as [|c l [Hc Hv] Hl IH]; intros acc pre Hnd.
  - simpl. by rewrite !app_nil_r.
  - cbn [length read_order_loop concat]. rewrite <- app_assoc. rd_step.
    rewrite (bool_decide_true _ Hv), bool_decide_false.
    + cbn [negb orb]. rewrite IH; by rewrite <- !app_assoc.
    + apply NoDup_app in Hnd as (_ & Hd & _). intros Hin. apply (Hd c Hin). apply list_elem_of_here.
Qed.

Lemma read_order_loop_sound vs n acc pre rest l r' :
  NoDup acc -> read_order_loop n vs acc (rd_at pre rest) = (Ok l, r') ->
  exists k post, l = acc ++ k /\ length k = n /\ NoDup l /\
    Forall (fun c => length c = 16 /\ is_Some (vs !! c)) k /\
    rest = concat k ++ post /\ r' = rd_at (pre ++ concat k) post.
Proof.
  revert acc pre rest. induction n as [|n IH]; intros acc pre rest Hnd H; cbn [read_order_loop] in H.
  - injection H as <- <-. exists [], rest. rewrite !app_nil_r. by split_and!.
  - rd_inv H. destruct (bool_decide (is_Some (vs !! a))) eqn:E1; [|done].
    destruct (bool_decide (a ∈ acc)) eqn:E2; [done|]. cbn [negb orb] in H.
    apply bool_decide_eq_true in E1. apply bool_decide_eq_false in E2.
    apply IH in H as (k & post' & -> & Hlen & Hnd' & HF & -> & ->).
    + exists (a :: k), post'. split_and!; simpl; try lia; [by rewrite <- app_assoc|done|by constructor|..];
        by rewrite <- ?app_assoc.
    + apply NoDup_app. split_and!; [done| |repeat constructor; set_solver].
      intros x Hx ->%list_elem_of_singleton. done.
Qed.

#[export] Instance read_order_lawful vs retain :
  Lawful (order_valid vs retain) order_image (read_order vs retain).
Proof.
  unfold read_order, order_image. split.
  - intros l pre post (H1 & H2 & H3 & H4 & H5). rewrite <- app_assoc. rd_step.
    rewrite (proj2 (N.eqb_eq _ _) H3), lenN_to_nat. cbn [negb].
    rewrite read_order_loop_complete by done. by rewrite <- app_assoc.
  - intros pre rest l r' H. rd_inv H. destruct (N.eqb_spec a (lenN (bt_list vs))) as [->|]; [|done].
    cbn [negb] in H. apply read_order_loop_sound in H
      as (k & post' & -> & Hlen & Hnd & HF & -> & ->); [|constructor].
    assert (lenN (bt_list vs) = lenN k) as Hk by (unfold lenN in *; lia). rewrite Hk in *.
    cbn [app]. split; [by destruct HV|]. exists post'. by rewrite <- !app_assoc.
Qed.

Definition current_image (c : option ContextId) : bytes :=
  match c with Some c => [byte_of 1] ++ c | None => [byte_of 0] end.

#[export] Instance read_current_lawful :
  Lawful (fun c => match c with Some c => length c = 16 | None => True end) current_image read_current.
Proof.
  unfold read_current, current_image. split.
  - intros [c|] pre post Hc; rewrite <- ?app_assoc.
    + rd_step by done. cbn match. rd_step. by rewrite <- !app_assoc.
    + rd_step by done. done.
  - intros pre rest c r' H. rd_inv H. rewrite u8_case in H. repeat case_decide; subst; try done.
    + injection H as <- <-. split; [done|]. by eexists.
    + rd_inv H. injection H as <- <-. split; [done|]. eexists. by rewrite <- !app_assoc.
Qed.

(** A state that import accepts. *)
Definition protector_valid (p : Protector) : Prop :=
  length (p_sid p) = 32 /\ length (p_me p) = 32 /\ length (p_my_tag p) = 8
  /\ p_my_tag p = sender_tag (p_me p)
  /\ (p_retain p <= MAX_RETAINED_VERSIONS)%N /\ p_retain p <> 0%N
  /\ versions_valid (p_retain p) (p_my_tag p) (p_versions p)
  /\ order_valid (p_versions p) (p_retain p) (p_order p)
  /\ match p_current p with Some c => length c = 16 | None => True end
  /\ current_invalid (p_versions p) (p_current p) = false.

Definition protector_image (p : Protector) : bytes :=
  p_sid p ++ p_me p ++ p_my_tag p ++ u32_to_be_bytes (p_retain p) ++ versions_image (p_versions p)
  ++ order_image (p_order p) ++ current_image (p_current p).

Lemma mr_finish_end pre : mr_finish (rd_at pre []) = (Ok tt, rd_at pre []).
Proof. unfold mr_finish, rd_at. cbn [r_pos r_buf]. by rewrite app_nil_r, N.eqb_refl. Qed.

Lemma mr_finish_ok pre post u r :
  mr_finish (rd_at pre post) = (Ok u, r) -> post = [] /\ r = rd_at pre [].
Proof.
  unfold mr_finish. destruct (N.eqb_spec (r_pos (rd_at pre post)) (lenN (r_buf (rd_at pre post)))) as [He|];
    [|done]. apply rd_at_end in He as ->. by intros [= _ <-].
Qed.

Lemma read_protector_complete p :
  protector_valid p -> exists r, read_protector (rd_at [] (protector_image p ++ [])) = (Ok p, r).
Proof.
  destruct p as [sid me tag vs order current retain].
  intros (H1 & H2 & H3 & H4 & H5 & H6 & H7 & H8 & H9 & H10). eexists.
  unfold read_protector, protector_image.
  cbn [p_sid p_me p_my_tag p_versions p_order p_current p_retain] in *.
  rewrite <- !app_assoc. do 3 rd_step. rewrite decide_False by (intros Hn; by apply Hn).
  rd_step by (split; [done|]; unfold u32_valid, MAX_RETAINED_VERSIONS, two32 in *; lia).
  rewrite (proj2 (N.eqb_neq _ _) H6). do 3 rd_step.
  erewrite bind_ok by apply mr_finish_end. by rewrite H10.
Qed.

Lemma read_protector_sound buf p r :
  read_protector (rd_at [] buf) = (Ok p, r) -> protector_valid p /\ buf = protector_image p.
Proof.
  unfold read_protector. intros H. do 3 rd_inv H. destruct (decide _) as [|Hd]; [done|].
  apply dec_stable in Hd. rd_inv H. destruct (N.eqb_spec a2 0); [done|]. do 3 rd_inv H. inv_bind H.
  apply mr_finish_ok in Hm as [-> ->].
  destruct (current_invalid _ _) eqn:Ec; [done|]. injection H as <- <-.
  split; [unfold protector_valid; cbn [p_sid p_me p_my_tag p_versions p_order p_current p_retain]|].
  - destruct HV2. by split_and!.
  - unfold protector_image. cbn [p_sid p_me p_my_tag p_versions p_order p_current p_retain].
    by rewrite <- ?app_assoc, app_nil_r.
Qed.

(** ** Writing *)

(** [m] cannot fail and appends [img]. *)
Definition writes (m : Mw unit) (img : bytes) : Prop := forall w, m w = (Ok tt, w ++ img).

Lemma writes_bind m f a b : writes m a -> writes (f tt) b -> writes (m ≫= f) (a ++ b).
Proof. intros Ha Hb w. rewrite (bind_ok m f w tt (w ++ a) (Ha w)), Hb. by rewrite app_assoc. Qed.

Lemma writes_fixed v : writes (mw_fixed v) v.
Proof. done. Qed.

Lemma writes_count v : u32_valid v -> writes (mw_count v) (u32_to_be_bytes v).
Proof. intros Hv w. unfold mw_count. by rewrite (proj2 (N.ltb_lt _ _) Hv). Qed.

Lemma writes_each {A} (f : A -> Mw unit) img (l : list A) :
  Forall (fun a => writes (f a) (img a)) l -> writes (mw_each f l) (concat (img <$> l)).
Proof.
  induction 1 as [|a l Ha _ IH]; [intros w; cbn; by rewrite app_nil_r|].
  cbn [mw_each]. rewrite fmap_cons. by apply writes_bind.
Qed.

#[local] Hint Resolve writes_fixed writes_count : cfr.

Lemma writes_receiver e : writes (write_receiver e) (e.1 ++ receiver_image e.2).
Proof.
  destruct e as [tag [ratchet replay]]. unfold write_receiver, receiver_image. cbn [fst snd].
  repeat (apply writes_bind; [apply writes_fixed|]). apply writes_fixed.
Qed.

Lemma writes_version my_tag e :
  version_valid my_tag e.1 e.2 -> writes (write_version e) (e.1 ++ version_image e.2).
Proof.
  destruct e as [c v]. cbn [fst snd]. intros (_ & _ & _ & Hro & _ & _ & Hrv & _).
  unfold write_version, version_image, roster_image, receivers_image, map_image, entries_image.
  rewrite <- !app_assoc.
  repeat (apply writes_bind; [apply writes_fixed|]).
  apply writes_bind; [apply writes_count, Hro|].
  apply writes_bind; [apply writes_each, Forall_true; intros [k x]; by apply writes_bind|].
  repeat (apply writes_bind; [apply writes_fixed|]).
  apply writes_bind; [apply writes_count, Hrv|].
  apply writes_bind; [apply writes_each, Forall_true; intros [k x]; apply writes_receiver|].
  apply writes_fixed.
Qed.

Lemma writes_protector p : protector_valid p -> writes (write_protector p) (protector_image p).
Proof.
  intros (_ & _ & _ & _ & H5 & _ & (HV & _ & Hu) & (_ & Ho & _) & _).
  unfold write_protector, protector_image, versions_image, map_image, entries_image, order_image.
  rewrite <- !app_assoc.
  repeat (apply writes_bind; [apply writes_fixed|]).
  apply writes_bind;
    [apply writes_count; unfold u32_valid, MAX_RETAINED_VERSIONS, two32 in *; lia|].
  apply writes_bind; [by apply writes_count|].
  apply writes_bind.
  { apply writes_each. eapply Forall_impl; [exact HV|]. intros e (_ & _ & He).
    by apply (writes_version (p_my_tag p)). }
  apply writes_bind; [by apply writes_count|].
  apply writes_bind; [rewrite <- (list_fmap_id (p_order p)) at 2; apply writes_each, Forall_true; intros c; apply writes_fixed|].
  destruct (p_current p); [|apply writes_fixed]. apply writes_bind; apply writes_fixed.
Qed.

Lemma media_export_image p :
  protector_valid p ->
  media_export p = if (MAX_MEDIA_STATE_BYTES <? lenN (protector_image p))%N
                   then Err MalformedState else Ok (protector_image p).
Proof. intros Hp. unfold media_export. by rewrite (writes_protector p Hp []). Qed.

Lemma media_import_image buf p :
  media_import buf = Ok p <->
  protector_valid p /\ buf = protector_image p /\ (lenN buf <= MAX_MEDIA_STATE_BYTES)%N.
Proof.
  unfold media_import, mr_new. change (reader_new buf) with (rd_at [] buf).
  destruct (N.ltb_spec MAX_MEDIA_STATE_BYTES (lenN buf)) as [Hl|Hl]; cbn [mbind result_bind].
  { split; [done|intros (_ & _ & ?); lia]. }
  split.
  - destruct (read_protector (rd_at [] buf)) as [r s] eqn:E. cbn [fst]. intros ->.
    by apply read_protector_sound in E as [? ?].
  - intros (Hp & -> & _). destruct (read_protector_complete p Hp) as [r Hr].
    rewrite app_nil_r in Hr. by rewrite Hr.
Qed.

(** Persisted media state is canonical and exact: import accepts a byte
    string if and only if it is what export writes for the protector returned,
    and that protector satisfies every stored consistency condition (ordered
    maps, tags and contexts that match their preimages, ratchet epochs that
    match counters and replay windows, a retention queue that lists exactly the
    stored versions). *)
Theorem media_import_exact buf p :
  media_import buf = Ok p <-> protector_valid p /\ media_export p = Ok buf.
Proof.
  rewrite media_import_image. split.
  - intros (Hp & -> & Hl). split; [done|]. rewrite media_export_image by done.
    by destruct (N.ltb_spec MAX_MEDIA_STATE_BYTES (lenN (protector_image p))); [lia|].
  - intros [Hp He]. rewrite media_export_image in He by done.
    destruct (N.ltb_spec MAX_MEDIA_STATE_BYTES (lenN (protector_image p))); [done|].
    by injection He as <-.
Qed.
End stored.

(** ** Every stored state fits *)

Lemma lenN_concat_le {A} (f : A -> bytes) (l : list A) b :
  Forall (fun a => (lenN (f a) <= b)%N) l -> (lenN (concat (f <$> l)) <= b * lenN l)%N.
Proof.
  induction 1 as [|a l Ha _ IH]; [unfold lenN; simpl; lia|].
  rewrite fmap_cons. cbn [concat]. rewrite lenN_app, lenN_cons. lia.
Qed.

Lemma lenN_u32 v : lenN (u32_to_be_bytes v) = 4%N.
Proof. unfold lenN. by rewrite u32_be_length. Qed.
Lemma lenN_u64 v : lenN (u64_to_be_bytes v) = 8%N.
Proof. unfold lenN. by rewrite u64_be_length. Qed.
Lemma lenN_of_length (l : bytes) n : length l = n -> lenN l = N.of_nat n.
Proof. by intros <-. Qed.

Create Rewrite HintDb cfr_lenN.
#[export] Hint Rewrite @lenN_app lenN_u32 lenN_u64 : cfr_lenN.

Lemma map_image_le {V} (width : nat) (allowed : bytes -> bool) (VV : bytes -> V -> Prop)
    (vimg : V -> bytes) (m : gmap bytes V) (b : N) :
  map_valid width allowed VV m -> (forall k v, VV k v -> (lenN (vimg v) <= b)%N) ->
  (lenN (map_image vimg m) <= (N.of_nat width + b) * lenN (bt_list m))%N.
Proof.
  intros Hm Hb. apply lenN_concat_le. eapply Forall_impl; [exact Hm|].
  intros [k v] (Hk & _ & Hv). cbn [fst snd] in *. rewrite lenN_app, (lenN_of_length _ _ Hk).
  specialize (Hb k v Hv). lia.
Qed.

Section stored_bounds.
Context {P : Primitives}.

Lemma version_image_le my_tag c v :
  version_valid my_tag c v -> (lenN (version_image v) <= 26976)%N.
Proof.
  intros (H1 & _ & H3 & (HR & Hr & _) & H5 & _ & (HE & He & _) & _).
  unfold version_image, roster_image, receivers_image. autorewrite with cfr_lenN.
  rewrite (lenN_of_length _ _ H1), (lenN_of_length _ _ H3), (lenN_of_length _ _ H5).
  pose proof (map_image_le _ _ _ (fun id => id) _ 32 HR) as Hb1.
  pose proof (map_image_le _ _ _ receiver_image _ 57 HE) as Hb2.
  assert (lenN (map_image (fun id => id) (vk_roster v)) <= (8 + 32) * lenN (bt_list (vk_roster v)))%N.
  { apply Hb1. intros k id [Hid _]. by rewrite (lenN_of_length _ _ Hid). }
  assert (lenN (map_image receiver_image (vk_recv v)) <= (8 + 57) * lenN (bt_list (vk_recv v)))%N.
  { apply Hb2. intros k e (Hc & _). unfold receiver_image, bool_image. autorewrite with cfr_lenN.
    rewrite (lenN_of_length _ _ Hc). done. }
  unfold MAX_ROSTER in *. lia.
Qed.

Lemma protector_image_le p :
  protector_valid p -> (lenN (protector_image p) <= 1728613)%N.
Proof.
  intros (H1 & H2 & H3 & _ & H5 & _ & (HV & Hv & _) & (Ho & _ & _ & _ & HO) & H9 & _).
  unfold protector_image, versions_image, order_image. autorewrite with cfr_lenN.
  rewrite (lenN_of_length _ _ H1), (lenN_of_length _ _ H2), (lenN_of_length _ _ H3).
  pose proof (map_image_le _ _ _ version_image _ 26976 HV (version_image_le (p_my_tag p))) as Hb.
  assert (lenN (concat (p_order p)) <= 16 * lenN (p_order p))%N.
  { rewrite <- (list_fmap_id (p_order p)) at 1. apply lenN_concat_le. eapply Forall_impl; [exact HO|].
    intros c [Hc _]. change (lenN c <= 16)%N. by rewrite (lenN_of_length _ _ Hc). }
  assert (lenN (current_image (p_current p)) <= 17)%N.
  { destruct (p_current p) as [c|]; [|done]. cbn [current_image]. rewrite lenN_app, (lenN_of_length _ _ H9). done. }
  unfold MAX_RETAINED_VERSIONS in *. lia.
Qed.
End stored_bounds.

(** ** Runs whose states are stored

    What the conference layer installs: versions, keys and identities of their
    Rust widths, at most [MAX_ROSTER] members, none of which shares the 8-byte
    tag of the local identity. *)
Section sessions.
Context {P : Primitives}.

Inductive session_step : Protector -> Protector -> Prop :=
| sst_install v k roster p :
    length v = 8 -> length k = 32 -> Forall (fun id => length id = 32) roster ->
    (lenN roster <= MAX_ROSTER)%N ->
    (forall id, id ∈ roster -> sender_tag id = p_my_tag p -> id = p_me p) ->
    session_step p (install v k roster p)
| sst_protect codec frame kf p : session_step p (protect codec frame kf p).2
| sst_unprotect packet p : session_step p (unprotect packet p).2.

Inductive session_reachable (sid : bytes) (me : SigPublic) (retain : N) : Protector -> Prop :=
| sre_new : session_reachable sid me retain (protector_new sid me retain)
| sre_step p p' :
    session_reachable sid me retain p -> session_step p p' -> session_reachable sid me retain p'.

Lemma session_step_prot p p' : session_step p p' -> prot_step p p'.
Proof. destruct 1; constructor. Qed.

(** What a stored version satisfies beyond [vk_ok]. *)
Record stored_version (me : SigPublic) (my_tag : SenderTag) (v : VersionKeys) : Prop := {
  sv_version : length (vk_version v) = 8;
  sv_key : length (vk_key v) = 32;
  sv_ids tag id : vk_roster v !! tag = Some id -> length id = 32;
  sv_count : (lenN (bt_list (vk_roster v)) <= MAX_ROSTER)%N;
  sv_foreign tag id : vk_roster v !! tag = Some id -> tag = my_tag -> id = me;
  sv_recv tag e : vk_recv v !! tag = Some e -> tag <> my_tag /\ receiver_valid e;
  sv_epoch : sr_epoch (vk_send v) = expected_send_epoch (vk_counter v);
}.

Record session_inv (p : Protector) : Prop := {
  si_prot : prot_inv p;
  si_sid : length (p_sid p) = 32;
  si_me : length (p_me p) = 32;
  si_retain : (p_retain p <= MAX_RETAINED_VERSIONS)%N;
  si_current : p_current p = None -> p_versions p = ∅;
  si_versions c v : p_versions p !! c = Some v -> stored_version (p_me p) (p_my_tag p) v;
}.

Context {PO : PrimitivesOk P}.

Lemma map_valid_intro {V} (width : nat) (allowed : bytes -> bool) (VV : bytes -> V -> Prop)
    (m : gmap bytes V) :
  (forall k v, m !! k = Some v -> length k = width /\ allowed k = true /\ VV k v) ->
  map_valid width allowed VV m.
Proof. intros H. apply Forall_forall. intros [k v] Hin%elem_of_bt_list. by apply H. Qed.

Lemma count_dom {V W : Type} (a : gmap bytes V) (b : gmap bytes W) :
  dom a ⊆ dom b -> (lenN (bt_list a) <= lenN (bt_list b))%N.
Proof. intros H%subseteq_size. unfold lenN. rewrite !bt_list_length. rewrite !size_dom in H. lia. Qed.

Lemma chain_length group sender n : length (epoch_chain (media_base group sender) n) = 32.
Proof. destruct n; apply kdf_length. Qed.

Lemma stored_version_valid me c v :
  vk_ok me c v -> stored_version me (sender_tag me) v -> length me = 32 ->
  version_valid (sender_tag me) c v.
Proof.
  intros [V1 V2 V3 V4 V5 V6] [S1 S2 S3 S4 S5 S6 S7] Hme.
  assert (dom (vk_recv v) ⊆ dom (vk_roster v)) as Hdom.
  { intros tag. rewrite !elem_of_dom. intros [e He]. destruct (V6 _ _ He) as (s & Hs & _). by eexists. }
  pose proof (count_dom _ _ Hdom) as Hcnt. unfold MAX_ROSTER in *.
  split_and!; try done.
  - split; [|split; [done|unfold u32_valid, two32; lia]]. apply map_valid_intro. intros tag id Hid.
    pose proof (V5 _ _ Hid) as ->. split_and!; [apply sender_tag_length|done|by eapply S3|done].
  - rewrite V2. apply chain_length.
  - rewrite S7. unfold expected_send_epoch, u64_valid. apply epoch_bound. unfold two64 in *. lia.
  - split; [|split; [done|unfold u32_valid, two32; lia]]. apply map_valid_intro. intros tag e He.
    destruct (V6 _ _ He) as (s & Hs & _), (S6 _ _ He) as [Hne Hv].
    pose proof (V5 _ _ Hs) as ->. split_and!; [apply sender_tag_length| |done].
    unfold receiver_allowed. rewrite !bool_decide_true; [done|by eexists|done].
Qed.

Lemma session_valid p : session_inv p -> protector_valid p.
Proof.
  intros [[I1 I2 I3 I4 I5 I6 I7] S1 S2 S3 S4 S5].
  assert (lenN (p_order p) = lenN (bt_list (p_versions p))) as Hlen.
  { unfold lenN. rewrite bt_list_length, <- size_dom,
      <- (size_list_to_set (C := gset ContextId) (p_order p)) by done. f_equal. f_equal.
    apply set_eq. intros c. by rewrite elem_of_list_to_set, elem_of_dom, I3. }
  assert (forall c v, p_versions p !! c = Some v -> length c = 16) as Hc.
  { intros c v Hv. destruct (I7 _ _ Hv) as [<- _ _ _ _ _]. apply context_id_length. }
  unfold MAX_RETAINED_VERSIONS in *. split_and!; try done; try lia.
  - rewrite I1. apply sender_tag_length.
  - split; [|rewrite <- Hlen; split; [done|unfold u32_valid, two32; lia]].
    apply map_valid_intro. intros c v Hv. split_and!; [by eapply Hc|done|].
    rewrite I1. apply stored_version_valid; [by apply I7| |done]. rewrite <- I1. by eapply S5.
  - split_and!; try done; [unfold u32_valid, two32; lia|]. apply Forall_forall. intros c Hin%I3.
    split; [|done]. destruct Hin as [v Hv]. by eapply Hc.
  - destruct (p_current p) as [c|] eqn:E; [|done]. destruct (I6 c eq_refl) as [v Hv]. by eapply Hc.
  - unfold current_invalid. destruct (p_current p) as [c|] eqn:E.
    + pose proof (I6 c eq_refl) as Hv. rewrite bool_decide_true by done. cbn [negb orb].
      rewrite bool_decide_false by done. destruct (size (p_versions p) =? 0) eqn:Ez; [|done].
      apply Nat.eqb_eq, map_size_empty_iff in Ez. rewrite Ez in Hv. by destruct Hv.
    + by rewrite S4, bool_decide_true by done.
Qed.

Lemma recv_key_some group sender i e fk e' :
  recv_on group sender e -> (i < two64)%N -> recv_key i e = (Some fk, e') ->
  recv_on group sender e' /\ rr_epoch e' = (i / EPOCH)%N /\ (rr_epoch e <= i / EPOCH)%N.
Proof.
  intros He Ht Ek.
  destruct (decide (rr_epoch e <= i / EPOCH <= rr_epoch e + MAX_EPOCH_JUMP)%N) as [Hd|Hd].
  - destruct (recv_key_on _ _ _ _ He Ht Hd) as (rt' & Hk & Hon & Hep). rewrite Hk in Ek.
    injection Ek as _ <-. split_and!; [done..|lia].
  - unfold recv_key in Ek. destruct (N.ltb_spec (i / EPOCH) (rr_epoch e)); [done|].
    destruct (N.ltb_spec MAX_EPOCH_JUMP (i / EPOCH - rr_epoch e)); [done|]. lia.
Qed.

Lemma lor_u64 a b : u64_valid a -> u64_valid b -> u64_valid (N.lor a b).
Proof.
  unfold u64_valid, two64. intros Ha Hb.
  assert (N.land (N.lor a b) (N.ones 64) = N.lor a b) as <-.
  { by rewrite N.land_lor_distr_l, !N.land_ones, !N.mod_small. }
  rewrite N.land_ones. by apply N.mod_lt.
Qed.

Lemma shl64_u64 v n : u64_valid (shl64 v n).
Proof. unfold u64_valid, shl64. rewrite N.land_ones. by apply N.mod_lt. Qed.

(** The newest bit stays set, whatever is added to the window. *)
Lemma odd_lor_l a b : (N.land a 1 =? 0)%N = false -> (N.land (N.lor a b) 1 =? 0)%N = false.
Proof.
  rewrite !N.eqb_neq. intros Ha Hz. apply Ha. rewrite N.land_lor_distr_l in Hz.
  by apply N.lor_eq_0_l in Hz.
Qed.

Lemma seen_start seen :
  u64_valid seen -> u64_valid (N.lor seen 1) /\ (N.land (N.lor seen 1) 1 =? 0)%N = false.
Proof.
  intros Hs. split; [by apply lor_u64|]. rewrite N.lor_comm. by apply odd_lor_l.
Qed.

(** A window that accepted an index stands at it, or stays at its newest. *)
Lemma accept_stored i r r' :
  u64_valid i -> u64_valid (rp_high r) -> u64_valid (rp_seen r) ->
  (rp_started r = true -> (N.land (rp_seen r) 1 =? 0)%N = false) ->
  accept i r = (true, r') ->
  rp_started r' = true /\ u64_valid (rp_high r') /\ u64_valid (rp_seen r') /\
  (N.land (rp_seen r') 1 =? 0)%N = false /\
  (rp_high r' = i \/ rp_started r = true /\ rp_high r' = rp_high r /\ (i <= rp_high r)%N).
Proof.
  intros Hi Hh Hs Ho. unfold accept. destruct (rp_started r) eqn:Est; cbn [negb].
  2:{ intros [= <-]. by split_and!; [..|left]. }
  specialize (Ho eq_refl). destruct (N.ltb_spec (rp_high r) i) as [Hlt|Hge].
  { intros [= <-]. cbn [rp_started rp_high rp_seen].
    assert (u64_valid (if (WINDOW <=? i - rp_high r)%N then 0%N else shl64 (rp_seen r) (i - rp_high r)))
      as Hu by (destruct (_ <=? _)%N; [done|apply shl64_u64]).
    destruct (seen_start _ Hu). split_and!; try done. by left. }
  destruct (_ <=? _)%N; [done|]. cbn zeta.
  destruct (negb (N.land (rp_seen r) (shl64 1 (rp_high r - i)) =? 0)%N); [done|].
  intros [= <-]. cbn [rp_started rp_high rp_seen].
  split_and!; [done|done|apply lor_u64; [done|apply shl64_u64]|by apply odd_lor_l|by right].
Qed.

Lemma receiver_invalid_false k r :
  receiver_invalid k r = false <->
  if rp_started r then (N.land (rp_seen r) 1 =? 0)%N = false /\ rr_epoch k = (rp_high r / EPOCH)%N
  else rp_high r = 0%N /\ rp_seen r = 0%N.
Proof.
  unfold receiver_invalid. destruct (rp_started r); cbn [negb andb orb].
  - rewrite orb_false_iff, negb_false_iff, N.eqb_eq. done.
  - rewrite orb_false_r, orb_false_iff, !negb_false_iff, !N.eqb_eq. done.
Qed.

Lemma receiver_advances group sender i e fk k' r' :
  recv_on group sender e.1 -> receiver_valid e -> (i < two64)%N ->
  accept i e.2 = (true, r') -> recv_key i e.1 = (Some fk, k') -> receiver_valid (k', r').
Proof.
  intros Hon (H1 & H2 & H3 & H4 & H5) Hi Ha Hk.
  destruct (recv_key_some _ _ _ _ _ _ Hon Hi Hk) as (Hon' & Hep & Hle).
  apply receiver_invalid_false in H5.
  apply accept_stored in Ha as (A1 & A2 & A3 & A4 & A5);
    [|done|done|done|by intros Hs; rewrite Hs in H5; destruct H5].
  split_and!; cbn [fst snd]; try done.
  - rewrite Hon'. apply chain_length.
  - rewrite Hep. apply epoch_bound. exact Hi.
  - apply receiver_invalid_false. rewrite A1. split; [done|]. rewrite Hep.
    destruct A5 as [->|(Hs & -> & Hle')]; [done|]. rewrite Hs in H5. destruct H5 as [_ H5].
    rewrite H5 in Hle. apply N.le_antisymm; [by apply N.Div0.div_le_mono|exact Hle].
Qed.

Lemma fresh_receiver_valid group sender : receiver_valid (recv_ratchet_new group sender, replay_new).
Proof. split_and!; try done. apply kdf_length. Qed.

Lemma roster_count (l : list SigPublic) (acc : gmap SenderTag SigPublic) :
  size (foldl (fun m id => <[sender_tag id := id]> m) acc l) <= size acc + length l.
Proof.
  revert acc. induction l as [|id l IH]; intros acc; simpl; [lia|]. etrans; [apply IH|].
  rewrite map_size_insert. destruct (acc !! sender_tag id); simpl; lia.
Qed.

Lemma roster_values (l : list SigPublic) (acc : gmap SenderTag SigPublic) tag id :
  foldl (fun m id => <[sender_tag id := id]> m) acc l !! tag = Some id ->
  acc !! tag = Some id \/ id ∈ l.
Proof.
  revert acc. induction l as [|x l IH]; intros acc H; [by left|].
  apply IH in H as [[[_ <-]|[_ ?]]%lookup_insert_Some|?]; [right; apply list_elem_of_here|by left|].
  right. by apply list_elem_of_further.
Qed.

Lemma fresh_version_stored v k roster p :
  length v = 8 -> length k = 32 -> Forall (fun id => length id = 32) roster ->
  (lenN roster <= MAX_ROSTER)%N ->
  (forall id, id ∈ roster -> sender_tag id = p_my_tag p -> id = p_me p) ->
  stored_version (p_me p) (p_my_tag p) (fresh_version v k roster (p_me p)).
Proof.
  intros Hv Hk Hids Hn Hf.
  assert (forall tag id, vk_roster (fresh_version v k roster (p_me p)) !! tag = Some id ->
            id ∈ roster /\ tag = sender_tag id) as Hro.
  { intros tag id Hid. split; [|by apply (vo_roster _ _ _ (fresh_version_ok v k roster (p_me p)))].
    apply roster_values in Hid as [Hid|?]; [by rewrite lookup_empty in Hid|done]. }
  split; try done.
  - intros tag id [Hin _]%Hro. by eapply Forall_forall in Hids.
  - unfold lenN. rewrite bt_list_length.
    pose proof (roster_count roster ∅) as Hc. rewrite map_size_empty in Hc.
    unfold lenN in Hn. cbn [fresh_version vk_roster]. lia.
  - intros tag id [Hin ->]%Hro Ht. by apply Hf.
Qed.

Lemma install_session v k roster p :
  session_inv p -> length v = 8 -> length k = 32 -> Forall (fun id => length id = 32) roster ->
  (lenN roster <= MAX_ROSTER)%N ->
  (forall id, id ∈ roster -> sender_tag id = p_my_tag p -> id = p_me p) ->
  session_inv (install v k roster p).
Proof.
  intros [HI S1 S2 S3 S4 S5] Hv Hk Hids Hn Hf.
  pose proof (install_inv v k roster p HI) as HI'.
  destruct (p_versions p !! context_id v) as [vk|] eqn:E.
  { unfold install in *. rewrite E in *. split; try done. }
  destruct (install_new v k roster p HI E) as (H1 & H2 & H3 & H4 & H5 & H6 & H7 & H8).
  split; rewrite ?H5, ?H6, ?H7, ?H8; try done.
  - by rewrite H3.
  - intros c w. rewrite H2. case_decide; [|done].
    intros [[<- <-]|[_ Hw]]%lookup_insert_Some; [by apply fresh_version_stored|by eapply S5].
Qed.

(** Replacing one stored version by another. *)
Lemma set_versions_session p c v v' :
  session_inv p -> prot_inv (set_versions (<[c := v']> (p_versions p)) p) ->
  p_versions p !! c = Some v -> stored_version (p_me p) (p_my_tag p) v' ->
  session_inv (set_versions (<[c := v']> (p_versions p)) p).
Proof.
  intros [HI S1 S2 S3 S4 S5] HI' Hv Hv'. split; try done.
  - intros Hc%S4. by rewrite Hc, lookup_empty in Hv.
  - cbn [set_versions p_versions p_me p_my_tag].
    intros d w [[<- <-]|[_ Hw]]%lookup_insert_Some; [done|by eapply S5].
Qed.

Lemma protect_session codec frame kf p : session_inv p -> session_inv (protect codec frame kf p).2.
Proof.
  intros HS. destruct (p_current p) as [c|] eqn:Ec; [|unfold protect; by rewrite Ec].
  pose proof (protect_inv codec frame kf p (si_prot _ HS)) as HI'.
  destruct (pi_current p (si_prot _ HS) c Ec) as [vk Hv].
  pose proof (protect_spec p c vk codec frame kf (si_prot _ HS) Ec Hv) as Hs.
  destruct (_ =? _)%N; [by rewrite Hs|].
  destruct Hs as (vk' & Hp & Hok & Hcnt & Hrecv & Hkey & Hro & Hver & Hep). rewrite Hp in *.
  eapply set_versions_session; [done|done|done|].
  destruct (si_versions _ HS _ _ Hv) as [W1 W2 W3 W4 W5 W6 W7].
  split; rewrite ?Hver, ?Hkey, ?Hro, ?Hrecv; try done.
  rewrite Hep, Hcnt. unfold expected_send_epoch. by rewrite N.add_sub.
Qed.

Lemma unprotect_session packet p : session_inv p -> session_inv (unprotect packet p).2.
Proof.
  intros HS. pose proof (unprotect_inv packet p (si_prot _ HS)) as HI'.
  destruct (unprotect_cases packet p)
    as [[e He]|(t & vk & s & raw & body & tag & Hl & _ & Hd & Hv & Hs & Hme & He)]; [by rewrite He|].
  rewrite He in *. destruct (open_with_cases (p_sid p) vk t s raw body tag) as (e' & He' & Hcase).
  destruct (open_with _ _ _ _ _ _ _) as [r vk']. cbn [snd fst] in *. subst vk'.
  eapply set_versions_session; [done|done|done|].
  pose proof (pi_versions p (si_prot _ HS) _ _ Hv) as Hok.
  destruct (si_versions _ HS _ _ Hv) as [W1 W2 W3 W4 W5 W6 W7].
  destruct (entry_of_ok _ _ _ _ _ Hok Hs) as [Hon _].
  assert (receiver_valid (entry_of vk (t_sender t) s)) as Hev.
  { unfold entry_of. destruct (vk_recv vk !! t_sender t) eqn:Er;
      [by eapply W6|apply fresh_receiver_valid]. }
  split; cbn [set_vk_recv vk_version vk_key vk_roster vk_send vk_recv vk_counter]; try done.
  intros tg e [[<- <-]|[_ Hx]]%lookup_insert_Some; [|by eapply W6]. split.
  - intros Ht. apply Hme. by eapply W5.
  - destruct Hcase as [[-> _]|(out & fk & _ & Ha & Hk)]; [done|]. destruct e' as [k' r'].
    eapply receiver_advances; [exact Hon|done| |done|done]. by eapply trailer_decode_counter.
Qed.

Lemma session_reachable_inv sid me retain p :
  length sid = 32 -> length me = 32 -> (retain <= MAX_RETAINED_VERSIONS)%N ->
  session_reachable sid me retain p -> session_inv p.
Proof.
  intros Hsid Hme Hr. induction 1 as [|p p' _ IH Hs].
  - split; try done; [apply protector_new_inv|]. cbn. unfold MAX_RETAINED_VERSIONS in *. lia.
  - destruct Hs; auto using install_session, protect_session, unprotect_session.
Qed.

(** No run loses its media state: in every state a session reaches, however
    frames were protected, opened, replayed or refused, export succeeds within
    1728613 of the 4 MiB allowed, and import of the exported bytes returns the
    same state. *)
Theorem media_state_survives sid me retain p :
  length sid = 32 -> length me = 32 -> (retain <= MAX_RETAINED_VERSIONS)%N ->
  session_reachable sid me retain p ->
  exists buf, media_export p = Ok buf /\ (lenN buf <= 1728613)%N /\ media_import buf = Ok p.
Proof.
  intros H1 H2 H3 Hp. pose proof (session_valid p (session_reachable_inv _ _ _ _ H1 H2 H3 Hp)) as Hv.
  pose proof (protector_image_le p Hv) as Hle. exists (protector_image p).
  assert ((MAX_MEDIA_STATE_BYTES <? lenN (protector_image p))%N = false) as Hl.
  { apply N.ltb_ge. unfold MAX_MEDIA_STATE_BYTES. lia. }
  rewrite media_export_image, Hl, media_import_image by done. split_and!; try done.
  by apply N.ltb_ge.
Qed.
End sessions.

(** ** Witness *)

Lemma ex_tx_session : session_reachable (P := Toy) ex_sid ex_me 1 ex_tx.
Proof.
  eapply sre_step; [apply sre_new|]. apply sst_install.
  - reflexivity.
  - reflexivity.
  - repeat constructor.
  - vm_compute. discriminate.
  - intros id Hid. rewrite elem_of_cons, list_elem_of_singleton in Hid.
    destruct Hid as [-> | ->]; [reflexivity|]. intros H. exfalso. revert H.
    apply (bool_decide_unpack (sender_tag (P := Toy) ex_you <> sender_tag (P := Toy) ex_me)).
    vm_compute. exact I.
Qed.

Lemma media_state_survives_witness :
  exists buf, media_export ex_tx = Ok buf /\ (lenN buf <= 1728613)%N /\
    media_import (P := Toy) buf = Ok ex_tx.
Proof.
  apply (media_state_survives (P := Toy) ex_sid ex_me 1 ex_tx).
  - reflexivity.
  - reflexivity.
  - vm_compute. discriminate.
  - exact ex_tx_session.
Defined.
