(* ===== verification/Checkpoint.v ===== *)
(** * Session transition certificates ([crates/cfr-core/src/checkpoint.rs])

    The resumption record that links an old session to a fresh one, its
    canonical bytes, its admission checks, and the certificate that collects
    one signature per active member.  [cert_verify_spec] says what a verified
    certificate establishes, [cert_reachable] that the signatures held are
    always genuine, [read_record_lawful] and [cert_read_spec] what the decoder
    accepts. *)

From Stdlib Require Import NArith Lia.
From S2P Require Import Prelude Crypto Toy Codec Ops.

Definition PROTOCOL_ID : N := 1.
Definition MAX_CHECKPOINT_FRONTIER : nat := 256.
Definition MAX_CHECKPOINT_SIGNERS : nat := 256.

Inductive ProtocolProfile := CentralizedSequenced | DecentralizedMerkle.

#[export] Instance ProtocolProfile_eq_dec : EqDecision ProtocolProfile.
Proof. solve_decision. Defined.

Definition profile_code (p : ProtocolProfile) : N :=
  match p with CentralizedSequenced => 1 | DecentralizedMerkle => 2 end.

Definition profile_decode (code : N) : result Error ProtocolProfile :=
  match code with
  | 1%N => Ok CentralizedSequenced
  | 2%N => Ok DecentralizedMerkle
  | _ => Err (Encoding "unknown protocol profile")
  end.

(** A set of capability bits; [CORE_SECURITY] asks for the lowest three. *)
Record Capabilities := mkCapabilities { cap_bits : N }.

#[export] Instance Capabilities_eq_dec : EqDecision Capabilities.
Proof. solve_decision. Defined.

Definition CORE_SECURITY : Capabilities := mkCapabilities 7.

Definition cap_supports (have required : Capabilities) : bool :=
  (N.land (cap_bits have) (cap_bits required) =? cap_bits required)%N.

Definition cap_from_bits (bits : N) : Capabilities := mkCapabilities bits.

Record ResumptionRecord := mkRecord {
  rr_protocol_id : N;
  rr_previous_session : SessionId;
  rr_previous_context : bytes;
  rr_previous_frontier : gset Oid;
  rr_membership_root : bytes;
  rr_checkpoint_epoch : N;
  rr_next_session : SessionId;
  rr_profile : ProtocolProfile;
  rr_required_capabilities : Capabilities;
}.

#[export] Instance ResumptionRecord_eq_dec : EqDecision ResumptionRecord.
Proof. solve_decision. Defined.

Definition record_validate (r : ResumptionRecord) : result Error unit :=
  if negb (rr_protocol_id r =? PROTOCOL_ID)%N then
    Err (Encoding "unsupported protocol generation")
  else if decide (rr_previous_session r = rr_next_session r) then
    Err (Encoding "checkpoint must create a fresh session")
  else if decide (rr_previous_frontier r = ∅) then
    Err (Encoding "checkpoint frontier is empty")
  else if decide (MAX_CHECKPOINT_FRONTIER < size (rr_previous_frontier r)) then
    Err (LimitExceeded "checkpoint frontier too large")
  else if (rr_checkpoint_epoch r =? 0)%N then
    Err (Encoding "checkpoint epoch is zero")
  else if negb (cap_supports (rr_required_capabilities r) CORE_SECURITY) then
    Err (Unauthorised "checkpoint lacks required required capabilities")
  else Ok tt.

Definition record_new (previous_session : SessionId) (previous_context : bytes)
    (previous_frontier : gset Oid) (membership_root : bytes) (checkpoint_epoch : N)
    (next_session : SessionId) (profile : ProtocolProfile)
    (required_capabilities : Capabilities) : result Error ResumptionRecord :=
  let record := mkRecord PROTOCOL_ID previous_session previous_context previous_frontier
                  membership_root checkpoint_epoch next_session profile
                  required_capabilities in
  _ ← record_validate record;
  Ok record.

Definition record_write (r : ResumptionRecord) (w : Writer) : Writer :=
  w |> writer_u64 (rr_protocol_id r)
    |> writer_bytes (rr_previous_session r)
    |> writer_bytes (rr_previous_context r)
    |> writer_set (bt_elems (rr_previous_frontier r)) writer_bytes
    |> writer_bytes (rr_membership_root r)
    |> writer_u64 (rr_checkpoint_epoch r)
    |> writer_bytes (rr_next_session r)
    |> writer_u64 (profile_code (rr_profile r))
    |> writer_u64 (cap_bits (rr_required_capabilities r)).

Definition signing_bytes (r : ResumptionRecord) : bytes :=
  writer_finish (record_write r writer_new).

Definition record_read : Rd ResumptionRecord :=
  v ← reader_u64;
  if negb (v <? 65536)%N then fail (Encoding "protocol generation exceeds u16") else
  previous_session ← reader_array 32;
  previous_context ← reader_array 16;
  frontier ← reader_set (reader_array 32);
  membership_root ← reader_array 32;
  checkpoint_epoch ← reader_u64;
  next_session ← reader_array 32;
  code ← reader_u64;
  profile ← lift (profile_decode code);
  bits ← reader_u64;
  let record := mkRecord v previous_session previous_context (list_to_set frontier)
                  membership_root checkpoint_epoch next_session profile
                  (cap_from_bits bits) in
  _ ← lift (record_validate record);
  mret record.

Record CheckpointSignature := mkApproval { ap_signer : SigPublic; ap_signature : bytes }.

#[export] Instance CheckpointSignature_eq_dec : EqDecision CheckpointSignature.
Proof. solve_decision. Defined.

Record CheckpointCertificate := mkCertificate {
  cc_record : ResumptionRecord;
  cc_signatures : gmap SigPublic bytes;
}.

#[export] Instance CheckpointCertificate_eq_dec : EqDecision CheckpointCertificate.
Proof. solve_decision. Defined.

Definition cert_new (r : ResumptionRecord) : CheckpointCertificate := mkCertificate r ∅.

Definition approval_write (a : CheckpointSignature) (w : Writer) : Writer :=
  w |> writer_bytes (ap_signer a) |> writer_bytes (ap_signature a).

Definition cert_approvals (c : CheckpointCertificate) : list CheckpointSignature :=
  (fun kv => mkApproval kv.1 kv.2) <$> bt_list (cc_signatures c).

Definition cert_write (c : CheckpointCertificate) (w : Writer) : Writer :=
  w |> record_write (cc_record c) |> writer_list (cert_approvals c) approval_write.

Definition approval_read : Rd CheckpointSignature :=
  signer ← reader_array 32;
  signature ← reader_array 64;
  mret (mkApproval signer signature).

Section certificates.
Context {P : Primitives}.

Definition media_context_id (version : bytes) : bytes :=
  take 16 (hash (bstr "cfr/media/context") [version]).

Definition record_id (r : ResumptionRecord) : bytes :=
  hash (bstr "cfr/resumption") [signing_bytes r].

Definition cert_id (c : CheckpointCertificate) : bytes := record_id (cc_record c).

Definition add_signature (a : CheckpointSignature) : M CheckpointCertificate Error unit :=
  fun c =>
  if decide (MAX_CHECKPOINT_SIGNERS <= size (cc_signatures c)) then
    (Err (LimitExceeded "checkpoint signer set too large"), c)
  else
    match sig_verify (ap_signer a) (signing_bytes (cc_record c)) (ap_signature a) with
    | Err e => (Err (CryptoE e), c)
    | Ok _ =>
        let c' := mkCertificate (cc_record c)
                    (<[ap_signer a := ap_signature a]> (cc_signatures c)) in
        match cc_signatures c !! ap_signer a with
        | Some _ => (Err (Encoding "duplicate checkpoint signer"), c')
        | None => (Ok tt, c')
        end
    end.

Fixpoint verify_each (image : bytes) (l : list (SigPublic * bytes)) : result Error unit :=
  match l with
  | [] => Ok tt
  | (signer, signature) :: l' =>
      _ ← map_err CryptoE (sig_verify signer image signature);
      verify_each image l'
  end.

Definition cert_verify (active_roster : gset SigPublic) (c : CheckpointCertificate)
    : result Error unit :=
  _ ← record_validate (cc_record c);
  if bool_decide (active_roster = ∅)
     || negb (bool_decide (size (cc_signatures c) = size active_roster)) then
    Err (Unauthorised "checkpoint lacks unanimous active roster")
  else if decide (dom (cc_signatures c) <> active_roster) then
    Err (Unauthorised "checkpoint signer set differs from active roster")
  else verify_each (signing_bytes (cc_record c)) (bt_list (cc_signatures c)).

Fixpoint add_signatures (l : list CheckpointSignature) : M CheckpointCertificate Error unit :=
  match l with
  | [] => mret tt
  | a :: l' => _ ← add_signature a; add_signatures l'
  end.

Definition cert_read : Rd CheckpointCertificate :=
  record ← record_read;
  approvals ← reader_list approval_read;
  if decide (MAX_CHECKPOINT_SIGNERS < length approvals) then
    fail (LimitExceeded "checkpoint signer set too large")
  else
    match add_signatures approvals (cert_new record) with
    | (Ok _, certificate) => mret certificate
    | (Err e, _) => fail e
    end.
End certificates.

(** ** Images and validity *)

Definition record_image (r : ResumptionRecord) : bytes :=
  u64_image (rr_protocol_id r) ++ bytes_image (rr_previous_session r)
  ++ bytes_image (rr_previous_context r) ++ oid_set_image (rr_previous_frontier r)
  ++ bytes_image (rr_membership_root r) ++ u64_image (rr_checkpoint_epoch r)
  ++ bytes_image (rr_next_session r) ++ u64_image (profile_code (rr_profile r))
  ++ u64_image (cap_bits (rr_required_capabilities r)).

(** The Rust types' widths and the checks of [validate]. *)
Definition record_valid (r : ResumptionRecord) : Prop :=
  len32 (rr_previous_session r) /\ length (rr_previous_context r) = 16
  /\ (forall o, o ∈ rr_previous_frontier r -> len32 o)
  /\ len32 (rr_membership_root r) /\ u64_valid (rr_checkpoint_epoch r)
  /\ len32 (rr_next_session r) /\ u64_valid (cap_bits (rr_required_capabilities r))
  /\ record_validate r = Ok tt.

Definition approval_image (a : CheckpointSignature) : bytes :=
  bytes_image (ap_signer a) ++ bytes_image (ap_signature a).
Definition approval_valid (a : CheckpointSignature) : Prop :=
  len32 (ap_signer a) /\ length (ap_signature a) = 64.
Definition approval_pair (a : CheckpointSignature) : SigPublic * bytes :=
  (ap_signer a, ap_signature a).

Lemma record_write_buf r w : w_buf (record_write r w) = w_buf w ++ record_image r.
Proof.
  unfold record_write, record_image, oid_set_image. autorewrite with cfr_writer.
  by rewrite <- !app_assoc.
Qed.
Lemma approval_write_buf a w : w_buf (approval_write a w) = w_buf w ++ approval_image a.
Proof.
  unfold approval_write, approval_image. autorewrite with cfr_writer.
  by rewrite <- !app_assoc.
Qed.
#[export] Hint Rewrite record_write_buf : cfr_writer.

Lemma signing_bytes_image r : signing_bytes r = record_image r.
Proof. unfold signing_bytes, writer_finish. by rewrite record_write_buf. Qed.

Definition cert_image (c : CheckpointCertificate) : bytes :=
  record_image (cc_record c) ++ list_image approval_image (cert_approvals c).

Lemma cert_write_buf c w : w_buf (cert_write c w) = w_buf w ++ cert_image c.
Proof.
  unfold cert_write, cert_image. rewrite (w_buf_list _ approval_image) by apply approval_write_buf.
  by rewrite record_write_buf, <- app_assoc.
Qed.

(** The checks of [validate], as one conjunction. *)
Lemma record_validate_ok r :
  record_validate r = Ok tt <->
  rr_protocol_id r = PROTOCOL_ID /\ rr_previous_session r <> rr_next_session r
  /\ rr_previous_frontier r <> ∅
  /\ size (rr_previous_frontier r) <= MAX_CHECKPOINT_FRONTIER
  /\ rr_checkpoint_epoch r <> 0%N
  /\ cap_supports (rr_required_capabilities r) CORE_SECURITY = true.
Proof.
  unfold record_validate.
  destruct (N.eqb_spec (rr_protocol_id r) PROTOCOL_ID); cbn [negb]; [|naive_solver].
  repeat case_decide; try naive_solver lia.
  destruct (N.eqb_spec (rr_checkpoint_epoch r) 0); [naive_solver|].
  destruct (cap_supports _ _); naive_solver lia.
Qed.

Lemma profile_decode_code p : profile_decode (profile_code p) = Ok p.
Proof. by destruct p. Qed.
Lemma profile_decode_inv v p : profile_decode v = Ok p -> v = profile_code p.
Proof. unfold profile_decode. destruct v as [|[?|[?|?|]|]]; try done; by intros [= <-]. Qed.
Lemma profile_code_u64 p : u64_valid (profile_code p).
Proof. by destruct p. Qed.
#[export] Hint Resolve profile_code_u64 : cfr.

Lemma array16 b : length b = 16 -> array_valid 16 b.
Proof. intros H. split; [done|]. unfold bytes_valid, MAX_FIELD, lenN. rewrite H. lia. Qed.
#[export] Hint Resolve array16 : cfr.

#[export] Instance approval_read_lawful : Lawful approval_valid approval_image approval_read.
Proof.
  split.
  - intros [k s] pre post [Hk Hs]. unfold approval_read, approval_image. simpl in *.
    rewrite <- !app_assoc. do 2 rd_step. rd_done.
  - intros pre rest a r' H. unfold approval_read in H. do 2 rd_inv H. injection H as <- <-.
    split; [split; [by apply array_len32|apply HV0]|].
    eexists. unfold approval_image. simpl. by rewrite <- !app_assoc.
Qed.

(** Answers of type [unit] carry nothing. *)
Ltac destruct_unit := repeat match goal with u : unit |- _ => destruct u end.

(** A record is read back exactly from its canonical bytes. *)
#[export] Instance record_read_lawful : Lawful record_valid record_image record_read.
Proof.
  split.
  - intros [pid ps pc fr root ep ns prof [bits]] pre post (H1 & H2 & H3 & H4 & H5 & H6 & H7 & HV).
    pose proof HV as Hv. apply record_validate_ok in Hv as (Hp & _ & _ & Hf & _).
    unfold record_read, record_image, oid_set_image.
    cbn [rr_protocol_id rr_previous_session rr_previous_context rr_previous_frontier
         rr_membership_root rr_checkpoint_epoch rr_next_session rr_profile
         rr_required_capabilities cap_bits] in *. subst pid.
    assert (oid_set_valid fr) by (split; [done|unfold MAX_DEPS, MAX_CHECKPOINT_FRONTIER in *; lia]).
    rewrite <- !app_assoc. rd_step by done. change (negb (PROTOCOL_ID <? 65536)%N) with false. cbn match.
    do 7 rd_step. rewrite profile_decode_code. erewrite bind_ok by done. rd_step.
    rewrite bt_elems_to_set. unfold cap_from_bits. rewrite HV. erewrite bind_ok by done.
    rd_done.
  - intros pre rest r r' H. unfold record_read in H. rd_inv H.
    destruct (N.ltb_spec a 65536); [|done]. cbn [negb] in H. do 7 rd_inv H.
    inv_bind H. injection Hm as Hk <-. apply profile_decode_inv in Hk as ->.
    rd_inv H. inv_bind H. injection Hm as Hv <-. destruct_unit. injection H as <- <-. split.
    + split_and!; cbn [rr_protocol_id rr_previous_session rr_previous_context
        rr_previous_frontier rr_membership_root rr_checkpoint_epoch rr_next_session
        rr_profile rr_required_capabilities cap_bits]; auto using array_len32.
      * apply HV1.
      * intros o. rewrite elem_of_list_to_set. apply set_list_oid in HV2 as [HF _].
        intros Ho. by eapply Forall_forall in HF.
    + eexists. unfold record_image, oid_set_image.
      cbn [rr_protocol_id rr_previous_session rr_previous_context rr_previous_frontier
           rr_membership_root rr_checkpoint_epoch rr_next_session rr_profile
           rr_required_capabilities cap_bits].
      apply set_list_oid in HV2 as [_ He]. rewrite He. by rewrite <- !app_assoc.
Qed.

(** ** Collecting signatures *)

Section certificate_lemmas.
Context {P : Primitives}.

(** Every signature held is the key holder's, over this record. *)
Definition approves (r : ResumptionRecord) (k : SigPublic) (s : bytes) : Prop :=
  sig_verify k (signing_bytes r) s = Ok tt.

Definition cert_genuine (c : CheckpointCertificate) : Prop :=
  (forall k s, cc_signatures c !! k = Some s -> approves (cc_record c) k s)
  /\ size (cc_signatures c) <= MAX_CHECKPOINT_SIGNERS.

Lemma add_signature_ok a c c' :
  add_signature a c = (Ok tt, c') <->
  size (cc_signatures c) < MAX_CHECKPOINT_SIGNERS
  /\ approves (cc_record c) (ap_signer a) (ap_signature a)
  /\ cc_signatures c !! ap_signer a = None
  /\ c' = mkCertificate (cc_record c) (<[ap_signer a := ap_signature a]> (cc_signatures c)).
Proof.
  unfold add_signature, approves. case_decide; [naive_solver lia|].
  destruct (sig_verify _ _ _) as [[]|]; [|naive_solver].
  destruct (cc_signatures c !! ap_signer a); naive_solver lia.
Qed.

Lemma add_signature_genuine a c c' x :
  cert_genuine c -> add_signature a c = (x, c') ->
  cert_genuine c' /\ cc_record c' = cc_record c.
Proof.
  intros [Hg Hs]. unfold add_signature. case_decide as Hd; [by intros [= <- <-]|].
  destruct (sig_verify _ _ _) as [[]|] eqn:Ev; [|by intros [= <- <-]].
  intros H. assert (c' = mkCertificate (cc_record c)
    (<[ap_signer a := ap_signature a]> (cc_signatures c))) as ->.
  { destruct (cc_signatures c !! ap_signer a); by injection H. }
  split; [|done]. split; simpl.
  - intros k s. rewrite lookup_insert_Some. intros [[<- <-]|[_ Hk]]; [done|by apply Hg].
  - rewrite map_size_insert. case_match; simpl; lia.
Qed.

Lemma bt_list_perm {V} (m : gmap bytes V) : bt_list m ≡ₚ map_to_list m.
Proof.
  apply NoDup_Permutation; [apply bt_list_NoDup|apply NoDup_map_to_list|].
  intros [k v]. by rewrite elem_of_bt_list, elem_of_map_to_list.
Qed.

Lemma add_signatures_ok l c c' :
  add_signatures l c = (Ok tt, c') <->
  NoDup (ap_signer <$> l)
  /\ Forall (fun a => approves (cc_record c) (ap_signer a) (ap_signature a)
                     /\ cc_signatures c !! ap_signer a = None) l
  /\ (l = [] \/ size (cc_signatures c) + length l <= MAX_CHECKPOINT_SIGNERS)
  /\ cc_record c' = cc_record c
  /\ cc_signatures c' = list_to_map (approval_pair <$> l) ∪ cc_signatures c.
Proof.
  revert c. induction l as [|a l IH]; intros c; cbn [add_signatures].
  - split.
    + intros [= <-]. split_and!; [constructor|constructor|by left|done|].
      simpl. by rewrite (left_id_L ∅ (∪)).
    + intros (_ & _ & _ & Hr & Hs). simpl in Hs. rewrite (left_id_L ∅ (∪)) in Hs.
      unfold mret, M_ret. f_equal. destruct c, c'. simpl in *. by subst.
  - rewrite fmap_cons, NoDup_cons, Forall_cons. split.
    + intros H. inv_bind H. destruct a0. apply add_signature_ok in Hm as (Hl & Ha & Hn & ->).
      apply IH in H as (Hnd & HF & Hlen & Hr & Hs). simpl in *.
      rewrite map_size_insert_None in Hlen by done.
      assert (ap_signer a ∉ ap_signer <$> l) as Hni.
      { intros (b & Hb & Hin)%list_elem_of_fmap. rewrite Forall_forall in HF.
        destruct (HF b Hin) as [_ Hb']. rewrite <- Hb, lookup_insert_eq in Hb'. done. }
      split_and!; auto.
      * eapply Forall_impl; [done|]. simpl. intros b [? Hb]. split; [done|].
        by apply lookup_insert_None in Hb as [? _].
      * right. destruct Hlen as [->|]; simpl; lia.
      * rewrite Hs. simpl. rewrite <- insert_union_r.
        { by rewrite insert_union_l. }
        apply not_elem_of_list_to_map_1. rewrite <- list_fmap_compose. done.
    + intros ([Hni Hnd] & [[Ha Hn] HF] & Hlen & Hr & Hs).
      destruct Hlen as [|Hlen]; [done|]. simpl in Hlen.
      erewrite bind_ok by (apply add_signature_ok; split_and!; [lia|done..]).
      apply IH. simpl. split_and!; auto.
      * rewrite Forall_forall in *. intros b Hb. destruct (HF b Hb) as [? Hbn].
        split; [done|]. apply lookup_insert_None. split; [done|].
        intros He. apply Hni. rewrite He. by apply list_elem_of_fmap_2.
      * right. rewrite map_size_insert_None by done. lia.
      * rewrite Hs. simpl. rewrite <- insert_union_r.
        { by rewrite insert_union_l. }
        apply not_elem_of_list_to_map_1. rewrite <- list_fmap_compose. done.
Qed.

Lemma verify_each_ok image l :
  verify_each image l = Ok tt <-> Forall (fun kv => sig_verify kv.1 image kv.2 = Ok tt) l.
Proof.
  induction l as [|[k s] l IH]; simpl; [done|]. rewrite Forall_cons, <- IH. simpl.
  destruct (sig_verify k image s) as [[]|]; simpl; naive_solver.
Qed.
End certificate_lemmas.

(** ** What a certificate establishes *)

Section properties.
Context {P : Primitives}.

Definition cert_valid (c : CheckpointCertificate) : Prop :=
  record_valid (cc_record c) /\ cert_genuine c
  /\ (forall k s, cc_signatures c !! k = Some s -> len32 k /\ length s = 64).

(** [l] lists the approvals of [c], each once, in some order. *)
Definition approvals_of (c : CheckpointCertificate) (l : list CheckpointSignature) : Prop :=
  approval_pair <$> l ≡ₚ map_to_list (cc_signatures c).

Lemma approvals_of_map c l :
  approvals_of c l <->
  NoDup (ap_signer <$> l) /\ cc_signatures c = list_to_map (approval_pair <$> l).
Proof.
  unfold approvals_of. assert (ap_signer <$> l = (approval_pair <$> l).*1) as ->.
  { by rewrite <- list_fmap_compose. }
  split.
  - intros H. assert (NoDup (approval_pair <$> l).*1) as Hnd.
    { rewrite H. apply NoDup_fst_map_to_list. }
    split; [done|]. rewrite (list_to_map_proper _ _ Hnd H). by rewrite list_to_map_to_list.
  - intros [Hnd ->]. by rewrite map_to_list_to_map.
Qed.

Lemma cert_approvals_of c : approvals_of c (cert_approvals c).
Proof.
  unfold approvals_of, cert_approvals. rewrite <- list_fmap_compose.
  rewrite <- bt_list_perm. rewrite <- (list_fmap_id (bt_list _)) at 2.
  by rewrite (list_fmap_ext _ (fun kv => kv)) by (by intros i [k s] _).
Qed.

Lemma approvals_of_length c l : approvals_of c l -> length l = size (cc_signatures c).
Proof.
  intros H. apply Permutation_length in H. rewrite length_fmap in H. rewrite H.
  apply length_map_to_list.
Qed.

Lemma approvals_of_elem c l a :
  approvals_of c l -> a ∈ l -> cc_signatures c !! ap_signer a = Some (ap_signature a).
Proof.
  intros H Ha. apply elem_of_map_to_list. rewrite <- H.
  change (ap_signer a, ap_signature a) with (approval_pair a). by apply list_elem_of_fmap_2.
Qed.

Lemma cert_read_complete c l pre post :
  cert_valid c -> approvals_of c l ->
  cert_read (rd_at pre ((record_image (cc_record c) ++ list_image approval_image l) ++ post))
  = (Ok c, rd_at (pre ++ (record_image (cc_record c) ++ list_image approval_image l)) post).
Proof.
  intros (Hr & [Hg Hs] & Hw) Hl. pose proof (approvals_of_length _ _ Hl) as Hlen.
  assert (list_valid approval_valid l).
  { split; [|unfold lenN, MAX_ITEMS, MAX_CHECKPOINT_SIGNERS in *; lia].
    apply Forall_forall. intros a Ha. by apply Hw, (approvals_of_elem c l). }
  unfold cert_read. rewrite <- app_assoc. do 2 rd_step.
  rewrite decide_False by lia.
  assert (add_signatures l (cert_new (cc_record c)) = (Ok tt, c)) as ->.
  { apply add_signatures_ok. pose proof Hl as [Hnd Hm]%approvals_of_map. simpl. split_and!; auto.
    - apply Forall_forall. intros a Ha. split; [|done]. by apply Hg, (approvals_of_elem c l).
    - right. rewrite map_size_empty. lia.
    - by rewrite (right_id_L ∅ (∪)). }
  rd_done.
Qed.

Lemma cert_read_sound pre rest c r' :
  cert_read (rd_at pre rest) = (Ok c, r') ->
  cert_valid c /\ exists l post, approvals_of c l /\
    let image := record_image (cc_record c) ++ list_image approval_image l in
    rest = image ++ post /\ r' = rd_at (pre ++ image) post.
Proof.
  intros H. unfold cert_read in H. do 2 rd_inv H. case_decide as Hd; [done|].
  destruct (add_signatures a0 (cert_new a)) as [[[]|e] c'] eqn:Ea; [|done].
  injection H as <- <-. apply add_signatures_ok in Ea as (Hnd & HF & Hlen & Hrec & Hs).
  cbn [cert_new cc_record cc_signatures] in *. rewrite (right_id_L ∅ (∪)) in Hs.
  assert (approvals_of c' a0) as Hl by (by apply approvals_of_map).
  assert (forall k s, cc_signatures c' !! k = Some s -> mkApproval k s ∈ a0) as Hin.
  { intros k s Hk. apply elem_of_map_to_list in Hk. rewrite <- Hl in Hk.
    apply list_elem_of_fmap in Hk as ([k' s'] & [= -> ->] & Hk). done. }
  split; [split; [by rewrite Hrec|split]|].
  + split; [|rewrite <- (approvals_of_length _ _ Hl); lia].
    intros k s Hk. rewrite Forall_forall in HF.
    destruct (HF _ (Hin k s Hk)) as [Ha _]. by rewrite Hrec.
  + intros k s Hk. destruct HV0 as [HV0 _]. rewrite Forall_forall in HV0.
    exact (HV0 _ (Hin k s Hk)).
  + exists a0, post0. rewrite Hrec. split; [done|]. cbn zeta. by rewrite <- !app_assoc.
Qed.

(** The certificate decoder accepts exactly the encodings of valid
    certificates: a valid record, then the list of its signatures, each signer
    once, every signature genuine.  The order of the list is not fixed. *)
Theorem cert_read_exact pre rest c r' :
  cert_read (rd_at pre rest) = (Ok c, r') <->
  cert_valid c /\ exists l post, approvals_of c l /\
    let image := record_image (cc_record c) ++ list_image approval_image l in
    rest = image ++ post /\ r' = rd_at (pre ++ image) post.
Proof.
  split; [apply cert_read_sound|].
  intros (Hv & l & post & Hl & -> & ->). by apply cert_read_complete.
Qed.

Lemma cert_verify_ok roster c :
  cert_verify roster c = Ok tt <->
  record_validate (cc_record c) = Ok tt /\ roster <> ∅ /\ dom (cc_signatures c) = roster
  /\ (forall k, k ∈ roster -> exists s, cc_signatures c !! k = Some s
                                /\ sig_verify k (record_image (cc_record c)) s = Ok tt).
Proof.
  unfold cert_verify. destruct (record_validate (cc_record c)) as [[]|]; simpl; [|naive_solver].
  rewrite <- (signing_bytes_image (cc_record c)).
  assert (size (cc_signatures c) = size (dom (cc_signatures c))) as -> by (by rewrite size_dom).
  destruct (decide (roster = ∅)) as [He|He].
  { rewrite (bool_decide_true (roster = ∅)) by done. simpl. naive_solver. }
  rewrite (bool_decide_false (roster = ∅)) by done. simpl.
  destruct (decide (dom (cc_signatures c) = roster)) as [Hr|Hr].
  - rewrite Hr, bool_decide_true, decide_False by auto. simpl. rewrite verify_each_ok, Forall_forall.
    split.
    + intros H. split_and!; [done..|]. intros k Hk. rewrite <- Hr in Hk.
      apply elem_of_dom in Hk as [s Hk]. exists s. split; [done|].
      by apply (H (k, s)), elem_of_bt_list.
    + intros (_ & _ & _ & H) [k s] Hk. apply elem_of_bt_list in Hk.
      destruct (H k) as (s' & Hk' & Hs); [|by simplify_eq/=].
      rewrite <- Hr. by apply elem_of_dom_2 in Hk.
  - rewrite decide_True by done. split; [|naive_solver]. by destruct (negb _).
Qed.

Lemma add_signatures_genuine l c x c' :
  cert_genuine c -> add_signatures l c = (x, c') ->
  cert_genuine c' /\ cc_record c' = cc_record c.
Proof.
  revert c x. induction l as [|a l IH]; intros c x Hg; cbn [add_signatures].
  - by intros [= <- <-].
  - unfold mbind, M_bind. destruct (add_signature a c) as [[[]|e] c1] eqn:Ea.
    + apply add_signature_genuine in Ea as [Hg1 Hr1]; [|done]. intros H.
      apply IH in H as [? Hr]; [|done]. by rewrite Hr, Hr1.
    + intros [= <- <-]. by apply add_signature_genuine in Ea.
Qed.

(** C38. [verify] accepts a certificate for a roster if and only if the record
    passes every admission check, the roster is not empty, the signers are
    exactly the roster, and each signature verifies over the record's bytes. *)
Theorem cert_verify_spec roster c :
  cert_verify roster c = Ok tt <->
  record_validate (cc_record c) = Ok tt /\ roster <> ∅ /\ dom (cc_signatures c) = roster
  /\ (forall k, k ∈ roster -> exists s, cc_signatures c !! k = Some s
                                /\ sig_verify k (record_image (cc_record c)) s = Ok tt).
Proof. apply cert_verify_ok. Qed.

(** Whatever approvals a certificate is given, in whatever order, and
    whether or not some were refused, it only ever holds genuine signatures
    over its own record, at most 256, so the signatures [verify] rechecks
    never fail. *)
Theorem cert_holds_genuine r l x c :
  add_signatures l (cert_new r) = (x, c) ->
  cc_record c = r /\ cert_genuine c /\
  forall roster, cert_verify roster c = Ok tt <->
    record_validate r = Ok tt /\ roster <> ∅ /\ dom (cc_signatures c) = roster.
Proof.
  intros H. apply add_signatures_genuine in H as [Hg Hr].
  - split_and!; [done..|]. intros roster.
    rewrite cert_verify_ok, Hr. split; [naive_solver|]. intros (? & ? & Hd).
    split_and!; [done..|]. intros k. rewrite <- Hd. intros [s Hk]%elem_of_dom.
    exists s. split; [done|]. rewrite <- Hr, <- signing_bytes_image. by apply Hg.
  - split; [done|]. simpl. rewrite map_size_empty. unfold MAX_CHECKPOINT_SIGNERS. lia.
Qed.

Context {PO : PrimitivesOk P}.

Definition approval_by (r : ResumptionRecord) (seed : bytes) : CheckpointSignature :=
  mkApproval (sig_public seed) (sig_sign seed (signing_bytes r)).

(** A certificate to which every member of a roster of at most 256
    distinct identities adds its signature verifies for that roster, and
    survives the wire. *)
Theorem cert_unanimous_accepted r (seeds : list bytes) :
  record_valid r -> seeds <> [] -> length seeds <= MAX_CHECKPOINT_SIGNERS ->
  NoDup (sig_public <$> seeds) ->
  exists c, add_signatures (approval_by r <$> seeds) (cert_new r) = (Ok tt, c)
    /\ cert_verify (list_to_set (sig_public <$> seeds)) c = Ok tt
    /\ run_reader cert_read (writer_finish (cert_write c writer_new)) = Ok c.
Proof.
  intros Hr Hne Hlen Hnd.
  set (l := approval_by r <$> seeds).
  set (c := mkCertificate r (list_to_map (approval_pair <$> l))).
  assert (ap_signer <$> l = sig_public <$> seeds) as Hsig.
  { subst l. by rewrite <- list_fmap_compose. }
  assert (Forall (fun a => approval_valid a /\ approves r (ap_signer a) (ap_signature a)) l) as Hok.
  { subst l. apply Forall_fmap, Forall_forall. intros s _. simpl. split.
    - split; [apply ed25519_public_length|apply ed25519_sign_length].
    - apply sig_verify_own. }
  assert (approvals_of c l) as Hap by (apply approvals_of_map; by rewrite Hsig).
  assert (add_signatures l (cert_new r) = (Ok tt, c)) as Hadd.
  { apply add_signatures_ok. simpl. split_and!; [by rewrite Hsig| | |done|].
    - eapply Forall_impl; [done|]. by intros a [_ Ha].
    - right. rewrite map_size_empty. subst l. rewrite length_fmap. lia.
    - by rewrite (right_id_L ∅ (∪)). }
  exists c. split; [done|]. 
  assert (forall k s, cc_signatures c !! k = Some s -> mkApproval k s ∈ l) as Hin.
  { intros k s Hk. apply elem_of_map_to_list in Hk. rewrite <- Hap in Hk.
    by apply list_elem_of_fmap in Hk as ([k' s'] & [= -> ->] & Hk). }
  rewrite Forall_forall in Hok. split.
  - apply cert_verify_ok. split_and!; [apply Hr| | |].
    + destruct seeds; [done|]. set_solver.
    + simpl. rewrite dom_list_to_map_L, <- Hsig, <- list_fmap_compose. done.
    + intros k. rewrite elem_of_list_to_set, <- Hsig. intros (a & -> & Ha)%list_elem_of_fmap.
      exists (ap_signature a). split; [by apply (approvals_of_elem c l)|].
      destruct (Hok a Ha) as [_ H]. unfold approves in H. by rewrite signing_bytes_image in H.
  - apply run_reader_done. unfold writer_finish. rewrite cert_write_buf.
    apply (cert_read_complete c (cert_approvals c) []); [|apply cert_approvals_of].
    split; [done|split].
    + split; [|rewrite <- (approvals_of_length _ _ Hap); subst l; by rewrite length_fmap].
      intros k s Hk. by apply (Hok _ (Hin k s Hk)).
    + intros k s Hk. by apply (Hok _ (Hin k s Hk)).
Qed.
End properties.

(** ** Witnesses *)

Definition ex_record : ResumptionRecord :=
  mkRecord 1 ex_sid (array_of (byte_of 3) 16) {[array_of (byte_of 9) 32]}
    (array_of (byte_of 4) 32) 1 (array_of (byte_of 5) 32) DecentralizedMerkle CORE_SECURITY.
Definition ex_seeds : list bytes := [array_of (byte_of 1) 32; array_of (byte_of 2) 32].

Lemma ex_record_valid : record_valid ex_record.
Proof.
  split_and!; [done|done| |done..].
  unfold ex_record. simpl. intros o ->%elem_of_singleton. done.
Qed.

Lemma cert_unanimous_accepted_witness :
  exists c, add_signatures (P := Toy) (approval_by ex_record <$> ex_seeds) (cert_new ex_record)
            = (Ok tt, c)
    /\ cert_verify (list_to_set (sig_public <$> ex_seeds)) c = Ok tt
    /\ run_reader cert_read (writer_finish (cert_write c writer_new)) = Ok c.
Proof.
  apply (cert_unanimous_accepted (P := Toy) ex_record ex_seeds); [apply ex_record_valid|done| |].
  - apply Nat.leb_le. done.
  - apply (bool_decide_unpack (NoDup (sig_public (P := Toy) <$> ex_seeds))). by vm_compute.
Defined.

Lemma cert_holds_genuine_witness :
  let c := (add_signatures (P := Toy) (approval_by ex_record <$> ex_seeds)
              (cert_new ex_record)).2 in
  cc_record c = ex_record /\ cert_genuine c /\
  forall roster, cert_verify roster c = Ok tt <->
    record_validate ex_record = Ok tt /\ roster <> ∅ /\ dom (cc_signatures c) = roster.
Proof.
  apply (cert_holds_genuine (P := Toy) ex_record (approval_by ex_record <$> ex_seeds) (Ok tt)).
  apply run_fst. by vm_compute.
Defined.
