(* ===== verification/Wire.v ===== *)
(** * Control-plane messages ([crates/cfr-core/src/wire.rs])

    Key packages, sealed envelopes and the seven messages, with their wire
    form.  [message_wire_exact] states what [Message::from_wire] accepts. *)

From Stdlib Require Import NArith Lia.
From S2P Require Import Prelude Crypto Toy Codec Ops Checkpoint.

Record KeyPackage := mkKeyPackage {
  kp_ipk : SigPublic;
  kp_gen : N;
  kp_prekey : DhPublic;
  kp_sig : bytes;
}.

Record Envelope := mkEnvelope { env_eph : DhPublic; env_gen : N; env_ct : bytes }.

#[export] Instance Envelope_eq_dec : EqDecision Envelope.
Proof. solve_decision. Defined.

Inductive Message :=
| MOp (op : Op)
| MWelcome (sid : SessionId) (from : SigPublic) (sealed : Envelope) (history : list Op)
    (pruned : list Oid)
| MSync (from : SigPublic) (heads : list Oid)
| MDeliver (ops : list Op) (pruned : list Oid)
| MNodeKeyRequest (from : SigPublic) (nodes : list Oid)
| MNodeKeyResponse (from : SigPublic) (sealed : Envelope)
| MCheckpoint (certificate : CheckpointCertificate).

#[export] Instance Message_eq_dec : EqDecision Message.
Proof. solve_decision. Defined.

Definition CFR_WIRE_MARKER : N := 1128682017.

Definition M_OP : N := 1.
Definition M_WELCOME : N := 2.
Definition M_SYNC : N := 3.
Definition M_DELIVER : N := 4.
Definition M_NKREQ : N := 5.
Definition M_NKRESP : N := 6.
Definition M_CHECKPOINT : N := 7.

Definition MAX_BATCH : N := 4096.

Definition kp_encode (kp : KeyPackage) (w : Writer) : Writer :=
  w |> writer_bytes (kp_ipk kp) |> writer_u32 (kp_gen kp)
    |> writer_bytes (kp_prekey kp) |> writer_bytes (kp_sig kp).

Definition kp_decode : Rd KeyPackage :=
  ipk ← reader_array 32;
  gen ← reader_u32;
  prekey ← reader_array 32;
  sig ← reader_array 64;
  mret (mkKeyPackage ipk gen prekey sig).

Definition kp_to_wire (kp : KeyPackage) : bytes := writer_finish (kp_encode kp writer_new).
Definition kp_from_wire (buf : bytes) : result Error KeyPackage := run_reader kp_decode buf.

Definition env_encode (e : Envelope) (w : Writer) : Writer :=
  w |> writer_bytes (env_eph e) |> writer_u32 (env_gen e) |> writer_bytes (env_ct e).

Definition env_decode : Rd Envelope :=
  eph ← reader_array 32;
  gen ← reader_u32;
  ct ← reader_bytes;
  mret (mkEnvelope eph gen ct).

Inductive Destination := Everyone | Peer (who : SigPublic).

Record Outbound := mkOutbound { ob_to : Destination; ob_payload : bytes }.

Section messages.
Context {P : Primitives}.

Definition kp_image (ipk : SigPublic) (gen : N) (prekey : DhPublic) : bytes :=
  let w := writer_new |> writer_bytes ipk |> writer_u32 gen |> writer_bytes prekey in
  hash (bstr "cfr/keypackage") [writer_finish w].

Definition kp_verify (kp : KeyPackage) : result Error unit :=
  let img := kp_image (kp_ipk kp) (kp_gen kp) (kp_prekey kp) in
  map_err (fun _ => BadSignature) (sig_verify (kp_ipk kp) img (kp_sig kp)).

Definition message_to_wire (m : Message) : bytes :=
  let w := writer_new |> writer_u64 CFR_WIRE_MARKER |> writer_u64 PROTOCOL_ID in
  let w :=
    match m with
    | MOp op => w |> writer_u32 M_OP |> op_write op
    | MWelcome sid from sealed history pruned =>
        w |> writer_u32 M_WELCOME |> writer_bytes sid |> writer_bytes from
          |> env_encode sealed |> writer_list history op_write
          |> writer_set pruned writer_bytes
    | MSync from heads =>
        w |> writer_u32 M_SYNC |> writer_bytes from |> writer_set heads writer_bytes
    | MDeliver ops pruned =>
        w |> writer_u32 M_DELIVER |> writer_list ops op_write
          |> writer_set pruned writer_bytes
    | MNodeKeyRequest from nodes =>
        w |> writer_u32 M_NKREQ |> writer_bytes from |> writer_set nodes writer_bytes
    | MNodeKeyResponse from sealed =>
        w |> writer_u32 M_NKRESP |> writer_bytes from |> env_encode sealed
    | MCheckpoint certificate => w |> writer_u32 M_CHECKPOINT |> cert_write certificate
    end in
  writer_finish w.

(** [Op::from_wire(r.bytes()?)] *)
Definition nested_op : Rd Op := b ← reader_bytes; lift (op_from_wire b).

Definition message_body (tag : N) : Rd Message :=
  match tag with
  | 1%N => op ← nested_op; mret (MOp op)
  | 2%N =>
      sid ← reader_array 32;
      from ← reader_array 32;
      sealed ← env_decode;
      history ← reader_list nested_op;
      if (MAX_BATCH <? lenN history)%N then fail (LimitExceeded "welcome history too large") else
      pruned ← reader_set (reader_array 32);
      if (MAX_BATCH <? lenN pruned)%N then fail (LimitExceeded "pruned set too large") else
      mret (MWelcome sid from sealed history pruned)
  | 3%N =>
      from ← reader_array 32;
      heads ← reader_set (reader_array 32);
      if (MAX_BATCH <? lenN heads)%N then fail (LimitExceeded "sync head set too large") else
      mret (MSync from heads)
  | 4%N =>
      ops ← reader_list nested_op;
      if (MAX_BATCH <? lenN ops)%N then fail (LimitExceeded "delivery batch too large") else
      pruned ← reader_set (reader_array 32);
      if (MAX_BATCH <? lenN pruned)%N then fail (LimitExceeded "pruned set too large") else
      mret (MDeliver ops pruned)
  | 5%N =>
      from ← reader_array 32;
      nodes ← reader_set (reader_array 32);
      if (MAX_BATCH <? lenN nodes)%N then fail (LimitExceeded "node key request too large") else
      mret (MNodeKeyRequest from nodes)
  | 6%N =>
      from ← reader_array 32;
      sealed ← env_decode;
      mret (MNodeKeyResponse from sealed)
  | 7%N => certificate ← cert_read; mret (MCheckpoint certificate)
  | _ => fail (Encoding "unknown message tag")
  end.

Definition message_read : Rd Message :=
  marker ← reader_u64;
  if negb (marker =? CFR_WIRE_MARKER)%N then fail (Encoding "not a CFR wire message") else
  id ← reader_u64;
  if negb (id =? PROTOCOL_ID)%N then fail (Encoding "unsupported CFR protocol identifier") else
  tag ← reader_u32;
  message_body tag.

Definition message_from_wire (buf : bytes) : result Error Message :=
  run_reader message_read buf.

Definition broadcast (m : Message) : Outbound := mkOutbound Everyone (message_to_wire m).
Definition direct (to : SigPublic) (m : Message) : Outbound :=
  mkOutbound (Peer to) (message_to_wire m).
End messages.

Global Arguments CFR_WIRE_MARKER : simpl never.

(** ** Images and validity *)

Definition kp_wire_image (kp : KeyPackage) : bytes :=
  bytes_image (kp_ipk kp) ++ u64_image (kp_gen kp) ++ bytes_image (kp_prekey kp)
  ++ bytes_image (kp_sig kp).
Definition kp_valid (kp : KeyPackage) : Prop :=
  len32 (kp_ipk kp) /\ u32_valid (kp_gen kp) /\ len32 (kp_prekey kp) /\ length (kp_sig kp) = 64.

Definition env_image (e : Envelope) : bytes :=
  bytes_image (env_eph e) ++ u64_image (env_gen e) ++ bytes_image (env_ct e).
Definition env_valid (e : Envelope) : Prop :=
  len32 (env_eph e) /\ u32_valid (env_gen e) /\ bytes_valid (env_ct e).

#[export] Instance kp_decode_lawful : Lawful kp_valid kp_wire_image kp_decode.
Proof.
  split.
  - intros [k g p s] pre post (H1 & H2 & H3 & H4). unfold kp_decode, kp_wire_image.
    cbn [kp_ipk kp_gen kp_prekey kp_sig] in *.
    rewrite <- !app_assoc. do 4 rd_step. rd_done.
  - intros pre rest a r' H. unfold kp_decode in H. do 4 rd_inv H. injection H as <- <-.
    split; [split_and!; auto using array_len32; apply HV2|].
    eexists. unfold kp_wire_image. cbn [kp_ipk kp_gen kp_prekey kp_sig].
    by rewrite <- !app_assoc.
Qed.

#[export] Instance env_decode_lawful : Lawful env_valid env_image env_decode.
Proof.
  split.
  - intros [e g c] pre post (H1 & H2 & H3). unfold env_decode, env_image.
    cbn [env_eph env_gen env_ct] in *.
    rewrite <- !app_assoc. do 3 rd_step. rd_done.
  - intros pre rest a r' H. unfold env_decode in H. do 3 rd_inv H. injection H as <- <-.
    split; [split_and!; auto using array_len32|].
    eexists. unfold env_image. cbn [env_eph env_gen env_ct]. by rewrite <- !app_assoc.
Qed.

Lemma env_encode_buf e w : w_buf (env_encode e w) = w_buf w ++ env_image e.
Proof.
  unfold env_encode, env_image. autorewrite with cfr_writer. by rewrite <- !app_assoc.
Qed.
#[export] Hint Rewrite env_encode_buf cert_write_buf : cfr_writer.

Lemma kp_to_wire_image kp : kp_to_wire kp = kp_wire_image kp.
Proof.
  unfold kp_to_wire, writer_finish, kp_encode, kp_wire_image. autorewrite with cfr_writer.
  by rewrite <- !app_assoc.
Qed.

Section laws.
Context {P : Primitives}.

(** An operation carried inside a message is a length-prefixed field. *)
Definition nested_valid (o : Op) : Prop := op_valid o /\ bytes_valid (op_to_wire o).
Definition nested_image (o : Op) : bytes := bytes_image (op_to_wire o).

#[export] Instance nested_op_lawful : Lawful nested_valid nested_image nested_op.
Proof.
  split.
  - intros o pre post [Ho Hb]. unfold nested_op, nested_image. rd_step.
    unfold lift, op_from_wire.
    by rewrite (proj2 (run_reader_ok (f := op_read) (op_to_wire o) o)).
  - intros pre rest o r' H. unfold nested_op in H. rd_inv H.
    injection H as H <-. apply (run_reader_ok (f := op_read)) in H as [Ho ->].
    split; [by split|]. by eexists.
Qed.

Lemma op_write_list l w :
  w_buf (writer_list l op_write w) = w_buf w ++ list_image nested_image l.
Proof. by apply w_buf_list. Qed.

Definition ops_valid (l : list Op) : Prop :=
  Forall nested_valid l /\ (lenN l <= MAX_BATCH)%N.

(** What a set of identifiers in a message decodes to: ascending, without
    repetition, at most [MAX_BATCH]. *)
Definition oids_valid (l : list Oid) : Prop :=
  Forall len32 l /\ (lenN l <= MAX_BATCH)%N /\ StronglySorted bytes_lt l.

Lemma ops_list l : ops_valid l -> list_valid nested_valid l.
Proof. intros [HF Hl]. split; [done|]. unfold MAX_BATCH, MAX_ITEMS in *. lia. Qed.

Lemma list_ops l : list_valid nested_valid l -> (lenN l <= MAX_BATCH)%N -> ops_valid l.
Proof. by intros [HF _]. Qed.

Lemma oids_set l : oids_valid l -> set_valid (array_valid 32) bytes_image l.
Proof.
  intros (HF & Hl & Hs). split_and!.
  - eapply Forall_impl; [done|]. apply len32_array.
  - unfold MAX_BATCH, MAX_ITEMS in *. lia.
  - by apply (bytes_images_sorted 32).
Qed.

Lemma set_oids l :
  set_valid (array_valid 32) bytes_image l -> (lenN l <= MAX_BATCH)%N -> oids_valid l.
Proof.
  intros (HF & _ & Hs) Hl. assert (Forall len32 l) as H32.
  { eapply Forall_impl; [done|]. apply array_len32. }
  split_and!; [done..|]. by apply (bytes_images_sorted 32).
Qed.

Lemma bt_elems_oids s :
  (forall o, o ∈ s -> len32 o) -> (N.of_nat (size s) <= MAX_BATCH)%N -> oids_valid (bt_elems s).
Proof.
  intros Hs Hn. split_and!; [|unfold lenN; by rewrite bt_elems_length|apply bt_elems_sorted].
  apply Forall_forall. intros o Ho. by apply Hs, elem_of_bt_elems.
Qed.

Definition message_valid (m : Message) : Prop :=
  match m with
  | MOp op => nested_valid op
  | MWelcome sid from sealed history pruned =>
      len32 sid /\ len32 from /\ env_valid sealed /\ ops_valid history /\ oids_valid pruned
  | MSync from heads => len32 from /\ oids_valid heads
  | MDeliver ops pruned => ops_valid ops /\ oids_valid pruned
  | MNodeKeyRequest from nodes => len32 from /\ oids_valid nodes
  | MNodeKeyResponse from sealed => len32 from /\ env_valid sealed
  | MCheckpoint certificate => cert_valid certificate
  end.

Definition message_tag (m : Message) : N :=
  match m with
  | MOp _ => M_OP | MWelcome _ _ _ _ _ => M_WELCOME | MSync _ _ => M_SYNC
  | MDeliver _ _ => M_DELIVER | MNodeKeyRequest _ _ => M_NKREQ
  | MNodeKeyResponse _ _ => M_NKRESP | MCheckpoint _ => M_CHECKPOINT
  end.

(** The encodings of a message body: one for each message, except that a
    certificate has one for each order of its approvals. *)
Definition body_encodes (m : Message) (b : bytes) : Prop :=
  match m with
  | MOp op => b = nested_image op
  | MWelcome sid from sealed history pruned =>
      b = bytes_image sid ++ bytes_image from ++ env_image sealed
          ++ list_image nested_image history ++ set_image bytes_image pruned
  | MSync from heads => b = bytes_image from ++ set_image bytes_image heads
  | MDeliver ops pruned => b = list_image nested_image ops ++ set_image bytes_image pruned
  | MNodeKeyRequest from nodes => b = bytes_image from ++ set_image bytes_image nodes
  | MNodeKeyResponse from sealed => b = bytes_image from ++ env_image sealed
  | MCheckpoint c =>
      exists l, approvals_of c l
                /\ b = record_image (cc_record c) ++ list_image approval_image l
  end.

Definition preamble (m : Message) : bytes :=
  u64_image CFR_WIRE_MARKER ++ u64_image PROTOCOL_ID ++ u64_image (message_tag m).

Definition encodes (m : Message) (buf : bytes) : Prop :=
  exists b, body_encodes m b /\ buf = preamble m ++ b.

Lemma to_wire_encodes m : encodes m (message_to_wire m).
Proof.
  unfold encodes, message_to_wire, writer_finish.
  assert (forall sid from sealed history (pruned : list Oid) w,
    w_buf (w |> writer_bytes sid |> writer_bytes from |> env_encode sealed
             |> writer_list history op_write |> writer_set pruned writer_bytes)
    = w_buf w ++ bytes_image sid ++ bytes_image from ++ env_image sealed
          ++ list_image nested_image history ++ set_image bytes_image pruned) as Hw.
  { intros. rewrite w_buf_set_bytes, op_write_list. autorewrite with cfr_writer.
    by rewrite <- !app_assoc. }
  destruct m; cbn [body_encodes preamble];
    try (eexists; split; [reflexivity|]; unfold preamble; cbn [message_tag]).
  - unfold op_write. autorewrite with cfr_writer. by rewrite <- !app_assoc.
  - rewrite Hw. autorewrite with cfr_writer. by rewrite <- !app_assoc.
  - autorewrite with cfr_writer. by rewrite <- !app_assoc.
  - rewrite w_buf_set_bytes, op_write_list. autorewrite with cfr_writer.
    by rewrite <- !app_assoc.
  - autorewrite with cfr_writer. by rewrite <- !app_assoc.
  - autorewrite with cfr_writer. by rewrite <- !app_assoc.
  - exists (cert_image certificate). split.
    + eexists. split; [apply cert_approvals_of|done].
    + autorewrite with cfr_writer. unfold preamble. cbn [message_tag].
      by rewrite <- !app_assoc.
Qed.

#[local] Hint Resolve ops_list oids_set : cfr.

Lemma message_body_complete m b pre post :
  message_valid m -> body_encodes m b ->
  message_body (message_tag m) (rd_at pre (b ++ post)) = (Ok m, rd_at (pre ++ b) post).
Proof.
  destruct m as [op|sid from e ops pruned|from heads|ops pruned|from nodes|from e|c];
    cbn [message_valid body_encodes message_tag]; intros HV;
    try intros ->; cbn [message_body M_OP M_WELCOME M_SYNC M_DELIVER M_NKREQ M_NKRESP
                        M_CHECKPOINT].
  - rd_step. rd_done.
  - destruct HV as (H1 & H2 & H3 & H4 & H5). rewrite <- !app_assoc. do 4 rd_step.
    rewrite limit_ok by apply H4. rd_step. rewrite limit_ok by apply H5. rd_done.
  - destruct HV as (H1 & H2). rewrite <- !app_assoc. do 2 rd_step.
    rewrite limit_ok by apply H2. rd_done.
  - destruct HV as (H1 & H2). rewrite <- !app_assoc. rd_step.
    rewrite limit_ok by apply H1. rd_step. rewrite limit_ok by apply H2. rd_done.
  - destruct HV as (H1 & H2). rewrite <- !app_assoc. do 2 rd_step.
    rewrite limit_ok by apply H2. rd_done.
  - destruct HV as (H1 & H2). rewrite <- !app_assoc. do 2 rd_step. rd_done.
  - intros (l & Hl & ->). erewrite bind_ok by (by apply cert_read_complete). rd_done.
Qed.

Ltac fields_valid :=
  cbn [message_valid];
  repeat first [by apply array_len32|by apply set_oids|by apply list_ops|done|split].

Lemma message_body_sound t pre rest m r' :
  message_body t (rd_at pre rest) = (Ok m, r') ->
  message_valid m /\ message_tag m = t /\
  exists b post, body_encodes m b /\ rest = b ++ post /\ r' = rd_at (pre ++ b) post.
Proof.
  unfold message_body.
  destruct t as [|[[[?|?|]|[?|?|]|]|[[?|?|]|[?|?|]|]|]]; try done; intros H.
  - inv_bind H. injection H as <- <-.
    apply cert_read_sound in Hm as (Hv & l & post & Hl & -> & ->).
    split; [done|split; [done|]]. eexists _, post. split; [by eexists|]. done.
  - do 2 rd_inv H. apply limit_fail_inv in H as [Hl H]. injection H as <- <-.
    split; [fields_valid|split; [done|]]. eexists _, _. split; [reflexivity|]. by rewrite <- !app_assoc.
  - do 2 rd_inv H. apply limit_fail_inv in H as [Hl H]. injection H as <- <-.
    split; [fields_valid|split; [done|]]. eexists _, _. split; [reflexivity|]. by rewrite <- !app_assoc.
  - do 2 rd_inv H. injection H as <- <-. split; [fields_valid|split; [done|]].
    eexists _, _. split; [reflexivity|]. by rewrite <- !app_assoc.
  - rd_inv H. apply limit_fail_inv in H as [Ho H]. rd_inv H.
    apply limit_fail_inv in H as [Hl H]. injection H as <- <-.
    split; [fields_valid|split; [done|]]. eexists _, _. split; [reflexivity|]. by rewrite <- !app_assoc.
  - do 4 rd_inv H. apply limit_fail_inv in H as [Ho H]. rd_inv H.
    apply limit_fail_inv in H as [Hl H]. injection H as <- <-.
    split; [fields_valid|split; [done|]]. eexists _, _. split; [reflexivity|]. by rewrite <- !app_assoc.
  - rd_inv H. injection H as <- <-. split; [done|split; [done|]].
    eexists _, _. split; [reflexivity|]. done.
Qed.

Lemma message_read_complete m buf pre post :
  message_valid m -> encodes m buf ->
  message_read (rd_at pre (buf ++ post)) = (Ok m, rd_at (pre ++ buf) post).
Proof.
  intros HV (b & Hb & ->). unfold message_read, preamble. rewrite <- !app_assoc.
  rd_step by done. rewrite N.eqb_refl. cbn [negb]. rd_step by done.
  rewrite N.eqb_refl. cbn [negb]. rd_step by (by destruct m).
  rewrite (message_body_complete m b) by done. rd_done.
Qed.

Lemma message_read_sound pre rest m r' :
  message_read (rd_at pre rest) = (Ok m, r') ->
  message_valid m /\ exists buf post, encodes m buf /\ rest = buf ++ post
                                    /\ r' = rd_at (pre ++ buf) post.
Proof.
  intros H. unfold message_read in H. rd_inv H.
  destruct (N.eqb_spec a CFR_WIRE_MARKER) as [->|]; [|done]. cbn [negb] in H. rd_inv H.
  destruct (N.eqb_spec a PROTOCOL_ID) as [->|]; [|done]. cbn [negb] in H. rd_inv H.
  apply message_body_sound in H as (Hv & <- & b & post' & Hb & -> & ->).
  split; [done|]. eexists _, post'. split; [by exists b|]. unfold preamble.
  by rewrite <- !app_assoc.
Qed.
End laws.

(** ** Properties *)

Section properties.
Context {P : Primitives}.

Lemma encodes_canonical m buf :
  encodes m buf <->
  match m with
  | MCheckpoint c => exists l, approvals_of c l /\
      buf = preamble m ++ record_image (cc_record c) ++ list_image approval_image l
  | _ => buf = message_to_wire m
  end.
Proof.
  destruct (to_wire_encodes m) as (b0 & H0 & ->). unfold encodes.
  destruct m; cbn [body_encodes] in *; try (subst b0; split; [by intros (b & -> & ->)|by intros ->; eexists]).
  split; [by intros (b & (l & Hl & ->) & ->); exists l|by intros (l & Hl & ->); eexists; split; [by exists l|]].
Qed.

(** C39. [Message::from_wire] accepts a byte string if and only if the message
    returned respects every bound (batch ceilings, field widths, ascending
    identifier sets, verified certificate signatures) and the byte string is
    what [to_wire] writes for it; a checkpoint certificate is the exception: its
    approvals are accepted in any order, although [to_wire] writes them sorted,
    so that re-encoding an accepted certificate need not reproduce it, as
    [docs/protocol.md], section 7, says it must. *)
Theorem message_wire_exact buf m :
  message_from_wire buf = Ok m <->
  message_valid m /\
  match m with
  | MCheckpoint c => exists l, approvals_of c l /\
      buf = preamble m ++ record_image (cc_record c) ++ list_image approval_image l
  | _ => buf = message_to_wire m
  end.
Proof.
  rewrite <- encodes_canonical. split.
  - intros (r' & H & He)%run_reader_inv.
    apply message_read_sound in H as (Hv & b & post & Hb & -> & ->).
    apply rd_at_end in He as ->. by rewrite app_nil_r.
  - intros [Hv He]. apply run_reader_done. by apply (message_read_complete m buf []).
Qed.

(** Every valid message survives the wire, and no two distinct valid
    messages share an encoding. *)
Theorem message_roundtrip m :
  message_valid m ->
  message_from_wire (message_to_wire m) = Ok m /\
  forall m', message_valid m' -> encodes m' (message_to_wire m) -> m' = m.
Proof.
  intros Hm.
  assert (forall n b, message_valid n -> encodes n b -> message_from_wire b = Ok n) as Hrt.
  { intros n b Hn He. apply run_reader_done. by apply (message_read_complete n b []). }
  split; [by apply Hrt, to_wire_encodes|]. intros m' Hm' He.
  apply Hrt in He; [|done].
  rewrite (Hrt m) in He by (done || apply to_wire_encodes). by injection He.
Qed.

(** What is hashed into the signed image of a key package. *)
Definition kp_input (k : KeyPackage) : bytes :=
  frames [bstr "cfr/keypackage"; (bytes_image (kp_ipk k) ++ u64_image (kp_gen k)) ++ bytes_image (kp_prekey k)].

(** A key package that verifies was signed, over this identity, generation
    and prekey, for the identity it names; the inviter cannot swap the prekey
    without a new signature, unless BLAKE3 collides on what the two sign. *)
Lemma key_package_binding a b :
  kp_valid a -> kp_valid b -> kp_ipk a = kp_ipk b ->
  kp_image (kp_ipk a) (kp_gen a) (kp_prekey a) = kp_image (kp_ipk b) (kp_gen b) (kp_prekey b) ->
  (kp_gen a = kp_gen b /\ kp_prekey a = kp_prekey b) \/ collide None (kp_input a) (kp_input b).
Proof.
  intros (Ha1 & Ha2 & Ha3 & Ha4) (Hb1 & Hb2 & Hb3 & Hb4) Hi H.
  set (z := replicate 64 Byte.x00).
  pose (pad k := mkKeyPackage (kp_ipk k) (kp_gen k) (kp_prekey k) z).
  unfold kp_image, writer_finish in H. autorewrite with cfr_writer in H.
  cbn [w_buf writer_new app] in H.
  assert (forall k g p, len32 k -> len32 p ->
    framable ((bytes_image k ++ u64_image g) ++ bytes_image p)) as Hfr.
  { intros k g p Hk Hp. unfold framable, bytes_image, u64_image, lenN.
    rewrite !length_app, !u32_be_length, u64_be_length, Hk, Hp. done. }
  apply hash_inj in H as [[_ H]|]; [|by right|by repeat constructor; apply Hfr..].
  left. apply cons_inv in H as [H _].
  assert (pad a = pad b) as E; [|by injection E].
  apply (lawful_inj (f := kp_decode)); [by split_and!..|].
  unfold kp_wire_image, pad. cbn [kp_ipk kp_gen kp_prekey kp_sig].
  rewrite !app_assoc. by rewrite H.
Qed.
End properties.

(** ** Witnesses *)

Definition ex_message : Message :=
  MDeliver [ex_op] [array_of (byte_of 8) 32; array_of (byte_of 9) 32].

Lemma ex_message_valid : message_valid (P := Toy) ex_message.
Proof.
  split.
  - split; [|done]. constructor; [|constructor]. split; [apply ex_op_valid|].
    unfold bytes_valid. apply N.leb_le. by vm_compute.
  - split; [by repeat constructor|split; [done|]]. by repeat constructor.
Qed.

Lemma message_roundtrip_witness :
  message_from_wire (P := Toy) (message_to_wire ex_message) = Ok ex_message /\
  forall m', message_valid m' -> encodes m' (message_to_wire ex_message) -> m' = ex_message.
Proof. apply (message_roundtrip (P := Toy)), ex_message_valid. Defined.
