(* ===== verification/Member.v ===== *)
(** * The participant state machine ([crates/cfr-core/src/member.rs])

    The whole handler code of a participant: founding, joining, inviting,
    evicting, contributing, receiving, repairing, checkpoints and beacons.  The
    state is [Participant], field by field, including the two memos behind
    [RefCell]; a method is a computation on it and on the entropy source, and
    keeps its changes when it fails, as [&mut self] does.  The loops that are
    not over a given list ([drain_channel], [drain_loop]) are fuelled by the
    size of what they consume.  Only definitions are here; [MemberInv] has the
    invariants and [MemberProps] the properties. *)

From Stdlib Require Import NArith Lia.
From S2P Require Import Prelude Crypto Codec Ops Dag Membership Keys Channel Prekey Checkpoint Wire.

Definition BEACON_LEN : nat := 12.
Definition MAX_PENDING : nat := 512.
Definition REINIT_RECOMMENDED_AT : N := 1024.

Inductive Event :=
| KeyChanged (version : bytes)
| Joined (who : SigPublic)
| Left (who : SigPublic)
| EquivocationBy (who : SigPublic)
| RepairNeeded
| CheckpointOffered (certificate : CheckpointCertificate).

Inductive Beacon := Agreed | Diverged | Unknown.

#[export] Instance Beacon_eq_dec : EqDecision Beacon.
Proof. solve_decision. Defined.

Record RecvState := mkRecvState { rs_eph : DhPublic; rs_chan : RecvChan }.

Record Derived := mkDerived {
  dv_epoch : N;
  dv_guilty : nat;
  dv_frontier : gset Oid;
  dv_members : gset SigPublic;
  dv_root : bytes;
  dv_version : bytes;
}.

Record Participant := mkParticipant {
  p_identity : bytes;
  p_ipk : SigPublic;
  p_sid : SessionId;
  p_policy : Policy;
  p_seed0 : bytes;
  p_dag : Dag;
  p_guilty : gset SigPublic;
  p_prekeys : PrekeyPool;
  p_peer_prekeys : gmap SigPublic (N * DhPublic);
  p_send : gmap SigPublic Chan;
  p_recv : gmap SigPublic RecvState;
  p_nodekeys : NodeKeys;
  p_cparents : gmap Oid (gset Oid);
  p_absorbed : gset Oid;
  p_missing : gset Oid;
  p_pending : list Op;
  p_open_accusations : list Op;
  p_seen_versions : gmap bytes (gset Oid * bytes);
  p_last_version : bytes;
  p_authz : gmap (bytes * N * nat) (gset SigPublic);
  p_derived : option Derived;
}.

(** One assignment per mutable field. *)
Definition set_dag (v : Dag) (p : Participant) : Participant :=
  mkParticipant
    (p_identity p) (p_ipk p) (p_sid p) (p_policy p) (p_seed0 p) v (p_guilty p)
    (p_prekeys p) (p_peer_prekeys p) (p_send p) (p_recv p) (p_nodekeys p) (p_cparents
    p) (p_absorbed p) (p_missing p) (p_pending p) (p_open_accusations p)
    (p_seen_versions p) (p_last_version p) (p_authz p) (p_derived p).
Definition set_guilty (v : gset SigPublic) (p : Participant) : Participant :=
  mkParticipant
    (p_identity p) (p_ipk p) (p_sid p) (p_policy p) (p_seed0 p) (p_dag p) v (p_prekeys
    p) (p_peer_prekeys p) (p_send p) (p_recv p) (p_nodekeys p) (p_cparents p)
    (p_absorbed p) (p_missing p) (p_pending p) (p_open_accusations p) (p_seen_versions
    p) (p_last_version p) (p_authz p) (p_derived p).
Definition set_prekeys (v : PrekeyPool) (p : Participant) : Participant :=
  mkParticipant
    (p_identity p) (p_ipk p) (p_sid p) (p_policy p) (p_seed0 p) (p_dag p) (p_guilty p)
    v (p_peer_prekeys p) (p_send p) (p_recv p) (p_nodekeys p) (p_cparents p)
    (p_absorbed p) (p_missing p) (p_pending p) (p_open_accusations p) (p_seen_versions
    p) (p_last_version p) (p_authz p) (p_derived p).
Definition set_peer_prekeys (v : gmap SigPublic (N * DhPublic)) (p : Participant) : Participant :=
  mkParticipant
    (p_identity p) (p_ipk p) (p_sid p) (p_policy p) (p_seed0 p) (p_dag p) (p_guilty p)
    (p_prekeys p) v (p_send p) (p_recv p) (p_nodekeys p) (p_cparents p) (p_absorbed p)
    (p_missing p) (p_pending p) (p_open_accusations p) (p_seen_versions p)
    (p_last_version p) (p_authz p) (p_derived p).
Definition set_send (v : gmap SigPublic Chan) (p : Participant) : Participant :=
  mkParticipant
    (p_identity p) (p_ipk p) (p_sid p) (p_policy p) (p_seed0 p) (p_dag p) (p_guilty p)
    (p_prekeys p) (p_peer_prekeys p) v (p_recv p) (p_nodekeys p) (p_cparents p)
    (p_absorbed p) (p_missing p) (p_pending p) (p_open_accusations p) (p_seen_versions
    p) (p_last_version p) (p_authz p) (p_derived p).
Definition set_recv (v : gmap SigPublic RecvState) (p : Participant) : Participant :=
  mkParticipant
    (p_identity p) (p_ipk p) (p_sid p) (p_policy p) (p_seed0 p) (p_dag p) (p_guilty p)
    (p_prekeys p) (p_peer_prekeys p) (p_send p) v (p_nodekeys p) (p_cparents p)
    (p_absorbed p) (p_missing p) (p_pending p) (p_open_accusations p) (p_seen_versions
    p) (p_last_version p) (p_authz p) (p_derived p).
Definition set_nodekeys (v : NodeKeys) (p : Participant) : Participant :=
  mkParticipant
    (p_identity p) (p_ipk p) (p_sid p) (p_policy p) (p_seed0 p) (p_dag p) (p_guilty p)
    (p_prekeys p) (p_peer_prekeys p) (p_send p) (p_recv p) v (p_cparents p)
    (p_absorbed p) (p_missing p) (p_pending p) (p_open_accusations p) (p_seen_versions
    p) (p_last_version p) (p_authz p) (p_derived p).
Definition set_cparents (v : gmap Oid (gset Oid)) (p : Participant) : Participant :=
  mkParticipant
    (p_identity p) (p_ipk p) (p_sid p) (p_policy p) (p_seed0 p) (p_dag p) (p_guilty p)
    (p_prekeys p) (p_peer_prekeys p) (p_send p) (p_recv p) (p_nodekeys p) v
    (p_absorbed p) (p_missing p) (p_pending p) (p_open_accusations p) (p_seen_versions
    p) (p_last_version p) (p_authz p) (p_derived p).
Definition set_absorbed (v : gset Oid) (p : Participant) : Participant :=
  mkParticipant
    (p_identity p) (p_ipk p) (p_sid p) (p_policy p) (p_seed0 p) (p_dag p) (p_guilty p)
    (p_prekeys p) (p_peer_prekeys p) (p_send p) (p_recv p) (p_nodekeys p) (p_cparents
    p) v (p_missing p) (p_pending p) (p_open_accusations p) (p_seen_versions p)
    (p_last_version p) (p_authz p) (p_derived p).
Definition set_missing (v : gset Oid) (p : Participant) : Participant :=
  mkParticipant
    (p_identity p) (p_ipk p) (p_sid p) (p_policy p) (p_seed0 p) (p_dag p) (p_guilty p)
    (p_prekeys p) (p_peer_prekeys p) (p_send p) (p_recv p) (p_nodekeys p) (p_cparents
    p) (p_absorbed p) v (p_pending p) (p_open_accusations p) (p_seen_versions p)
    (p_last_version p) (p_authz p) (p_derived p).
Definition set_pending (v : list Op) (p : Participant) : Participant :=
  mkParticipant
    (p_identity p) (p_ipk p) (p_sid p) (p_policy p) (p_seed0 p) (p_dag p) (p_guilty p)
    (p_prekeys p) (p_peer_prekeys p) (p_send p) (p_recv p) (p_nodekeys p) (p_cparents
    p) (p_absorbed p) (p_missing p) v (p_open_accusations p) (p_seen_versions p)
    (p_last_version p) (p_authz p) (p_derived p).
Definition set_open_accusations (v : list Op) (p : Participant) : Participant :=
  mkParticipant
    (p_identity p) (p_ipk p) (p_sid p) (p_policy p) (p_seed0 p) (p_dag p) (p_guilty p)
    (p_prekeys p) (p_peer_prekeys p) (p_send p) (p_recv p) (p_nodekeys p) (p_cparents
    p) (p_absorbed p) (p_missing p) (p_pending p) v (p_seen_versions p)
    (p_last_version p) (p_authz p) (p_derived p).
Definition set_seen_versions (v : gmap bytes (gset Oid * bytes)) (p : Participant) : Participant :=
  mkParticipant
    (p_identity p) (p_ipk p) (p_sid p) (p_policy p) (p_seed0 p) (p_dag p) (p_guilty p)
    (p_prekeys p) (p_peer_prekeys p) (p_send p) (p_recv p) (p_nodekeys p) (p_cparents
    p) (p_absorbed p) (p_missing p) (p_pending p) (p_open_accusations p) v
    (p_last_version p) (p_authz p) (p_derived p).
Definition set_last_version (v : bytes) (p : Participant) : Participant :=
  mkParticipant
    (p_identity p) (p_ipk p) (p_sid p) (p_policy p) (p_seed0 p) (p_dag p) (p_guilty p)
    (p_prekeys p) (p_peer_prekeys p) (p_send p) (p_recv p) (p_nodekeys p) (p_cparents
    p) (p_absorbed p) (p_missing p) (p_pending p) (p_open_accusations p)
    (p_seen_versions p) v (p_authz p) (p_derived p).
Definition set_authz (v : gmap (bytes * N * nat) (gset SigPublic)) (p : Participant) : Participant :=
  mkParticipant
    (p_identity p) (p_ipk p) (p_sid p) (p_policy p) (p_seed0 p) (p_dag p) (p_guilty p)
    (p_prekeys p) (p_peer_prekeys p) (p_send p) (p_recv p) (p_nodekeys p) (p_cparents
    p) (p_absorbed p) (p_missing p) (p_pending p) (p_open_accusations p)
    (p_seen_versions p) (p_last_version p) v (p_derived p).
Definition set_derived (v : option Derived) (p : Participant) : Participant :=
  mkParticipant
    (p_identity p) (p_ipk p) (p_sid p) (p_policy p) (p_seed0 p) (p_dag p) (p_guilty p)
    (p_prekeys p) (p_peer_prekeys p) (p_send p) (p_recv p) (p_nodekeys p) (p_cparents
    p) (p_absorbed p) (p_missing p) (p_pending p) (p_open_accusations p)
    (p_seen_versions p) (p_last_version p) (p_authz p) v.

Record PendingJoin := mkPendingJoin {
  pj_identity : bytes;
  pj_prekeys : PrekeyPool;
  pj_policy : Policy;
}.

(** A participant and the entropy still to be drawn. *)
Record Env := mkEnv { e_p : Participant; e_tape : Tape }.

Abbreviation Mp := (M Env Error).

(** Reads and writes of the participant. *)
Definition ask {A} (f : Participant -> A) : Mp A := fun e => (Ok (f (e_p e)), e).
Definition upd (f : Participant -> Participant) : Mp unit := fun e =>
  (Ok tt, mkEnv (f (e_p e)) (e_tape e)).

(** A draw of entropy, with its error converted by [?]. *)
Definition draw {A} (m : M Tape CryptoError A) : Mp A := fun e =>
  let '(r, t) := m (e_tape e) in (map_err CryptoE r, mkEnv (e_p e) t).

(** The outcome of a call as a value, for a caller that inspects it. *)
Definition attempt {A} (m : Mp A) : Mp (result Error A) := fun e =>
  let '(r, e') := m e in (Ok r, e').

(** [self.dag.add(op)?] *)
Definition add_op (op : Op) : Mp unit := fun e =>
  let '(r, d) := dag_add op (p_dag (e_p e)) in
  match r with
  | Ok _ => (Ok tt, mkEnv (set_dag d (e_p e)) (e_tape e))
  | Err x => (Err x, mkEnv (set_dag d (e_p e)) (e_tape e))
  end.

Definition find_slice (who : SigPublic) (slices : list Slice) : option Slice :=
  List.find (fun s => bool_decide (sl_to s = who)) slices.

(** [decide]: authorisation against a roster already derived. *)
Definition decide_with (op : Op) (past : gset SigPublic) (d : Dag) : bool :=
  if decide (op_kind op = KAdd) then
    if bool_decide (op_author op ∈ past) then true else
    match op_body op with
    | Add who =>
        bool_decide (who = op_author op) && bool_decide (op_deps op = ∅)
        && negb (existsb (fun '(_, o) =>
             bool_decide (op_kind o = KAdd) && bool_decide (op_deps o = ∅)
             && match op_body o with Add w => bool_decide (w = op_author o) | _ => false end
             && bool_decide (op_author o <> op_author op)) (dag_iter d))
    | _ => false
    end
  else
    match op_body op with
    | Remove who =>
        if decide (who = op_author op) then true else bool_decide (op_author op ∈ past)
    | _ => bool_decide (op_author op ∈ past)
    end.

(** ** Sealed payloads *)

Definition entry_write (e : Oid * bytes) (w : Writer) : Writer :=
  w |> writer_bytes e.1 |> writer_bytes e.2.

Definition entry_read : Rd (Oid * bytes) :=
  oid ← reader_array 32;
  k ← reader_array 32;
  mret (oid, k).

Definition build_welcome_payload (seed0 : bytes) (entries : list (Oid * bytes)) : bytes :=
  writer_finish (writer_new |> writer_bytes seed0 |> writer_list entries entry_write).

Definition read_welcome_payload : Rd (bytes * list (Oid * bytes)) :=
  seed0 ← reader_array 32;
  entries ← reader_list entry_read;
  mret (seed0, entries).

Definition parse_welcome_payload (buf : bytes) : result Error (bytes * list (Oid * bytes)) :=
  run_reader read_welcome_payload buf.

Definition build_nodekey_payload (entries : list (Oid * bytes)) : bytes :=
  writer_finish (writer_new |> writer_list entries entry_write).

Definition parse_nodekey_payload (buf : bytes) : result Error (list (Oid * bytes)) :=
  run_reader (reader_list entry_read) buf.

Section member.
Context {P : Primitives}.

Definition channel_root (shared : bytes) (sid : SessionId) (from to : SigPublic) (gen : N)
    : bytes :=
  kdf shared (bstr "cfr/root") [sid; from; to; u32_to_be_bytes gen].

Definition envelope_key (shared : bytes) (sid : SessionId) (from to : SigPublic) : bytes :=
  kdf shared (bstr "cfr/envelope") [sid; from; to].

(** ** Derived values and their memo *)

Definition membership (p : Participant) : Membership :=
  mkMembership (p_dag p) (p_policy p) (p_guilty p).

(** What [derived] computes when its memo is stale. *)
Definition derive (p : Participant) : Derived :=
  let f := frontier (p_dag p) in
  let ms := members (membership p) in
  let root := root_for_members ms in
  mkDerived (dag_epoch (p_dag p)) (size (p_guilty p)) f ms root (version_of f root).

Definition stale (p : Participant) : bool :=
  match p_derived p with
  | Some d => negb (dv_epoch d =? dag_epoch (p_dag p))%N
              || negb (bool_decide (dv_guilty d = size (p_guilty p)))
  | None => true
  end.

Definition derived : Mp Derived := fun e =>
  let p := if stale (e_p e) then set_derived (Some (derive (e_p e))) (e_p e) else e_p e in
  match p_derived p with
  | Some d => (Ok d, mkEnv p (e_tape e))
  | None => (Err (Internal "populated above"), mkEnv p (e_tape e))
  end.

Definition p_members : Mp (gset SigPublic) := d ← derived; mret (dv_members d).
Definition p_version : Mp bytes := d ← derived; mret (dv_version d).
Definition p_frontier : Mp (gset Oid) := d ← derived; mret (dv_frontier d).

Definition p_group_key : Mp (option bytes) :=
  d ← derived;
  ask (fun p => group_key (p_seed0 p) (dv_frontier d) (dv_root d) (p_nodekeys p)).

Definition can_derive : Mp bool := 
  k ← p_group_key; mret (match k with Some _ => true | None => false end).

Definition history_len (p : Participant) : N := dag_len (p_dag p).

Definition state_bytes (p : Participant) : N :=
  let ops := foldl (fun acc '(_, op) => acc + op_wire_len op)%N 0%N (dag_iter (p_dag p)) in
  let edges :=
    foldl (fun acc o =>
             acc + (32 + 32 * match dag_parents_of (p_dag p) o with
                              | Some ps => N.of_nat (size ps) | None => 0 end))%N
          0%N (dag_oids (p_dag p)) in
  let keys := (nk_len (p_nodekeys p) * 64)%N in
  let chans := ((N.of_nat (size (p_send p)) + N.of_nat (size (p_recv p))) * 96)%N in
  (ops + edges + keys + chans + 256)%N.

Definition reinitialization_recommended (p : Participant) : bool :=
  (REINIT_RECOMMENDED_AT <=? history_len p)%N.

(** ** Checkpoints *)

Definition prepare_checkpoint (next_session : SessionId) (checkpoint_epoch : N)
    (profile : ProtocolProfile) : Mp ResumptionRecord :=
  v ← p_version;
  f ← p_frontier;
  r ← ask (fun p => root (membership p));
  sid ← ask p_sid;
  lift (record_new sid (media_context_id v) f r checkpoint_epoch next_session profile
          CORE_SECURITY).

Definition validate_checkpoint_record (record : ResumptionRecord) : Mp unit :=
  v ← p_version;
  f ← p_frontier;
  r ← ask (fun p => root (membership p));
  sid ← ask p_sid;
  if decide (rr_previous_session record <> sid
             \/ rr_previous_context record <> media_context_id v
             \/ rr_previous_frontier record <> f
             \/ rr_membership_root record <> r)
  then fail (Unauthorised "checkpoint does not match local state")
  else mret tt.

Definition approve_checkpoint (record : ResumptionRecord) : Mp CheckpointSignature :=
  _ ← validate_checkpoint_record record;
  ask (fun p => mkApproval (p_ipk p) (sig_sign (p_identity p) (signing_bytes record))).

Definition validate_checkpoint (certificate : CheckpointCertificate) : Mp unit :=
  roster ← ask (fun p => members (membership p));
  _ ← lift (cert_verify roster certificate);
  validate_checkpoint_record (cc_record certificate).

Definition offer_checkpoint (certificate : CheckpointCertificate) : Mp Outbound :=
  _ ← validate_checkpoint certificate;
  mret (broadcast (MCheckpoint certificate)).

(** ** Authorisation and its memo *)

Definition authz_digest (deps : gset Oid) : bytes := hash (bstr "cfr/authz") (bt_elems deps).

Definition authz_key (op : Op) (p : Participant) : bytes * N * nat :=
  (authz_digest (op_deps op), dag_epoch (p_dag p), size (p_guilty p)).

Definition p_authorised (op : Op) : Mp bool := fun e =>
  let p := e_p e in
  let key := authz_key op p in
  match p_authz p !! key with
  | Some past => (Ok (decide_with op past (p_dag p)), e)
  | None =>
      let past := members_before (membership p) op in
      let verdict := decide_with op past (p_dag p) in
      let cache := if decide (4096 < size (p_authz p)) then ∅ else p_authz p in
      (Ok verdict, mkEnv (set_authz (<[key := past]> cache) p) (e_tape e))
  end.

Definition sign (p : Participant) (body : Body) : Op :=
  op_create (p_identity p) (p_sid p) (dag_heads (p_dag p)) body.

(** ** Beacons *)

Definition beacon : Mp bytes :=
  v ← p_version;
  k ← p_group_key;
  ipk ← ask p_ipk;
  mret (match k with
        | Some k => v ++ take 4 (mac k (bstr "cfr/confirm") [v; ipk])
        | None => v ++ array_of Byte.x00 4
        end).

Definition check_beacon (p : Participant) (peer : SigPublic) (b : bytes) : Beacon :=
  let v := take 8 b in
  match p_seen_versions p !! v with
  | None => Unknown
  | Some (nodes, root) =>
      match group_key (p_seed0 p) nodes root (p_nodekeys p) with
      | None => Unknown
      | Some k =>
          let full := mac k (bstr "cfr/confirm") [v; peer] in
          if ct_eq (take 4 full) (drop 8 b) then Agreed else Diverged
      end
  end.

(** The retention loop: the least labels go first. *)
Fixpoint evict_versions (labels : list bytes) (m : gmap bytes (gset Oid * bytes))
    : gmap bytes (gset Oid * bytes) :=
  match labels with
  | [] => m
  | oldest :: rest =>
      if (OVERLAP <? N.of_nat (size m))%N then evict_versions rest (delete oldest m) else m
  end.

Definition note_version : Mp unit :=
  d ← derived;
  upd (fun p =>
    let seen := <[dv_version d := (dv_frontier d, dv_root d)]> (p_seen_versions p) in
    set_last_version (dv_version d)
      (set_seen_versions (evict_versions (bt_keys seen) seen) p)).

(** ** Prekeys *)

Definition publish_prekeys : Mp Outbound :=
  op ← ask (fun p => sign p (Prekeys (pk_generation (p_prekeys p)) (pk_public (p_prekeys p))));
  _ ← add_op op;
  mret (broadcast (MOp op)).

Definition rotate_prekeys : Mp Outbound :=
  pool ← ask p_prekeys;
  next ← draw (pool_rotate pool);
  _ ← upd (set_prekeys next);
  publish_prekeys.

Definition p_tick (p : Participant) : Participant := set_prekeys (pool_tick (p_prekeys p)) p.

(** ** Contributions *)

Definition absorb (op : Op) (x : bytes) : Mp unit :=
  match op_body op with
  | Contrib cid cparents _ _ _ =>
      let oid := op_oid op in
      done ← ask (fun p => bool_decide (oid ∈ p_absorbed p));
      if done : bool then mret tt else
      if decide (commitment x <> cid) then fail Equivocation else
      combined ← ask (fun p => if decide (cparents = ∅) then Some (secret_zero KEY_LEN)
                               else nk_combine (p_nodekeys p) cparents);
      match combined with
      | None =>
          _ ← upd (fun p => set_missing ({[oid]} ∪ p_missing p) p);
          fail MissingNodeKeys
      | Some parent =>
          upd (fun p =>
            let p := set_nodekeys (nk_insert oid (node_key x parent oid) (p_nodekeys p)) p in
            let p := set_cparents (<[oid := cparents]> (p_cparents p)) p in
            let p := set_absorbed ({[oid]} ∪ p_absorbed p) p in
            set_missing (p_missing p ∖ {[oid]}) p)
      end
  | _ => fail (Internal "absorb called on a non-contribution")
  end.

(** Frontier nodes that a new contribution may chain: [f] is the frontier. *)
Definition chainable (p : Participant) (members : gset SigPublic) (f : gset Oid) : gset Oid :=
  list_to_set (filter (fun n =>
    (if nk_contains (p_nodekeys p) n then true
     else match dag_get (p_dag p) n with
          | None => true
          | Some op => bool_decide (op_author op ∈ members)
          end) = true) (bt_elems f)).

Definition chainable_parents (members : gset SigPublic) : Mp (gset Oid) :=
  f ← p_frontier;
  ask (fun p => chainable p members f).

Definition past_frontier (p : Participant) (op : Op) : gset Oid :=
  let d := p_dag p in
  let past := foldl (fun past x => if dag_contains d x then {[x]} ∪ past ∪ past_of d x else past)
                ∅ (bt_elems (op_deps op)) in
  let nodes := filter (fun o => op_kind <$> dag_get d o = Some KContrib) (bt_elems past) in
  let covered := foldl (fun acc n => acc ∪ past_of d n) ∅ nodes in
  list_to_set (filter (fun n => n ∉ covered) nodes).

(** Opens a channel to [v] if there is none; what the slice announces. *)
Definition establish_channel (v : SigPublic) : Mp (option (N * DhPublic)) :=
  known ← ask (fun p => p_send p !! v);
  match known with
  | Some _ => mret None
  | None =>
      prekey ← ask (fun p => p_peer_prekeys p !! v);
      match prekey with
      | None => fail NoPrekey
      | Some (gen, pk) =>
          eph ← draw dh_generate;
          match dh_agree eph pk with
          | None => fail NoPrekey
          | Some shared =>
              _ ← upd (fun p =>
                let root := channel_root shared (p_sid p) (p_ipk p) v gen in
                set_send (<[v := chan_new (kdf root (bstr "cfr/chan/data") [])]> (p_send p)) p);
              mret (Some (gen, dh_public eph))
          end
      end
  end.

(** [st.chan.step()?] on the channel to [v]. *)
Definition step_channel (v : SigPublic) : Mp (N * bytes) := fun e =>
  match p_send (e_p e) !! v with
  | None => (Err (Internal "inserted above"), e)
  | Some c =>
      let '(r, c') := chan_step c in
      (r, mkEnv (set_send (<[v := c']> (p_send (e_p e))) (e_p e)) (e_tape e))
  end.

Definition slice_nonce (sid : SessionId) (cid : Cid) (to : SigPublic) (seq : N) : bytes :=
  nonce [sid; cid; to; u64_to_be_bytes seq].

Definition contrib_ad (cid : Cid) (view : bytes) : bytes :=
  hash (bstr "cfr/contrib/ad") [cid; view].

Fixpoint seal_slices (x : bytes) (cid : Cid) (ad : bytes) (recips : list SigPublic)
    : Mp (list Slice) :=
  match recips with
  | [] => mret []
  | v :: recips =>
      establish ← establish_channel v;
      sk ← step_channel v;
      sid ← ask p_sid;
      let '(seq, mk) := sk in
      let ct := aead_seal mk (slice_nonce sid cid v seq) x ad in
      rest ← seal_slices x cid ad recips;
      mret (mkSlice v establish seq ct :: rest)
  end.

Definition contribute_excluding (exclude : gset SigPublic) : Mp (list Outbound) :=
  ms ← p_members;
  ipk ← ask p_ipk;
  if negb (bool_decide (ipk ∈ ms)) then fail NotParticipating else
  let recips := filter (fun m => m <> ipk /\ m ∉ exclude) (bt_elems ms) in
  if (MAX_RECIPIENTS <? lenN recips)%N then fail (LimitExceeded "conference too large") else
  unreachable ← ask (fun p =>
    filter (fun v => p_send p !! v = None /\ p_peer_prekeys p !! v = None) recips);
  match unreachable with
  | _ :: _ =>
      op ← ask (fun p => sign p (PrekeyRequest unreachable));
      _ ← add_op op;
      mret [broadcast (MOp op)]
  | [] =>
      cparents ← chainable_parents ms;
      d ← derived;
      let view := dv_root d in
      combined ← ask (fun p => nk_combine (p_nodekeys p) cparents);
      if bool_decide (cparents <> ∅) && match combined with None => true | Some _ => false end
      then fail MissingNodeKeys else
      x ← draw random_secret;
      let cid := commitment x in
      let ad := contrib_ad cid view in
      slices ← seal_slices x cid ad recips;
      op ← ask (fun p => sign p (Contrib cid cparents recips slices view));
      _ ← add_op op;
      _ ← absorb op x;
      _ ← note_version;
      mret [broadcast (MOp op)]
  end.

Definition contribute : Mp (list Outbound) := contribute_excluding ∅.

Definition rebuild_contribution_parents (p : Participant) : Participant :=
  let pairs := omap (fun '(oid, op) => match op_body op with
                                       | Contrib _ cparents _ _ _ => Some (oid, cparents)
                                       | _ => None
                                       end) (dag_iter (p_dag p)) in
  foldl (fun p '(oid, cp) => set_cparents (<[oid := cp]> (p_cparents p)) p) p pairs.

(** ** Membership *)

(** The node keys an invitation shares: those of the whole frontier. *)
Fixpoint frontier_entries (keys : NodeKeys) (nodes : list Oid)
    : result Error (list (Oid * bytes)) :=
  match nodes with
  | [] => Ok []
  | n :: nodes =>
      match nk_peek keys n with
      | None => Err MissingNodeKeys
      | Some k => rest ← frontier_entries keys nodes; Ok ((n, k) :: rest)
      end
  end.

Definition welcome_ad (sid : SessionId) (from to : SigPublic) : bytes :=
  hash (bstr "cfr/welcome/ad") [sid; from; to].

(** A payload sealed to a prekey by a fresh ephemeral key. *)
Definition seal_envelope (label : bytes) (ad_of : SessionId -> SigPublic -> SigPublic -> bytes)
    (to : SigPublic) (gen : N) (pk : DhPublic) (payload : bytes) : Mp Envelope :=
  eph ← draw dh_generate;
  match dh_agree eph pk with
  | None => fail NoPrekey
  | Some shared =>
      ask (fun p =>
        let k := envelope_key shared (p_sid p) (p_ipk p) to in
        let ad := ad_of (p_sid p) (p_ipk p) to in
        let n := nonce [p_sid p; dh_public eph; label] in
        mkEnvelope (dh_public eph) gen (aead_seal k n payload ad))
  end.

Definition invite (kp : KeyPackage) : Mp (list Outbound) :=
  _ ← lift (kp_verify kp);
  ms ← p_members;
  ipk ← ask p_ipk;
  if negb (bool_decide (ipk ∈ ms)) then fail NotParticipating else
  _ ← upd (fun p => set_peer_prekeys (<[kp_ipk kp := (kp_gen kp, kp_prekey kp)]>
                                        (p_peer_prekeys p)) p);
  add ← ask (fun p => sign p (Add (kp_ipk kp)));
  _ ← add_op add;
  sealed ← ask (fun p => is_sealed (p_prekeys p));
  rotation ← (if sealed : bool then o ← rotate_prekeys; mret [o] else mret []);
  f ← p_frontier;
  keys ← ask p_nodekeys;
  entries ← lift (frontier_entries keys (bt_elems f));
  seed0 ← ask p_seed0;
  envelope ← seal_envelope (bstr "welcome") welcome_ad (kp_ipk kp) (kp_gen kp) (kp_prekey kp)
               (build_welcome_payload seed0 entries);
  history ← ask (fun p => omap (dag_get (p_dag p)) (topological (p_dag p)));
  sid ← ask p_sid;
  let welcome := MWelcome sid ipk envelope history [] in
  more ← contribute;
  _ ← note_version;
  mret ([broadcast (MOp add)] ++ rotation ++ [direct (kp_ipk kp) welcome] ++ more).

Definition remove (who : SigPublic) : Mp (list Outbound) :=
  op ← ask (fun p => sign p (Remove who));
  _ ← add_op op;
  more ← contribute_excluding {[who]};
  _ ← upd (fun p => set_send (delete who (p_send p)) p);
  _ ← upd (fun p => set_recv (delete who (p_recv p)) p);
  _ ← note_version;
  mret (broadcast (MOp op) :: more).

Definition leave : Mp Outbound :=
  op ← ask (fun p => sign p (Remove (p_ipk p)));
  _ ← add_op op;
  mret (broadcast (MOp op)).

(** An eviction of [who] that could take effect. *)
Definition is_removal (p : Participant) (who : SigPublic) (op : Op) : bool :=
  match op_body op with
  | Remove w => bool_decide (w = who)
  | Accuse w _ _ _ => bool_decide (w = who) && bool_decide (who ∈ p_guilty p)
  | _ => false
  end.

Definition removal_complete (who : SigPublic) : Mp bool :=
  removals ← ask (fun p => (filter (fun e => is_removal p who e.2 = true)
                              (dag_iter (p_dag p))).*1);
  match removals with
  | [] => mret false
  | _ :: _ =>
      f ← p_frontier;
      ask (fun p => existsb (fun n =>
        match dag_get (p_dag p) n with
        | None => false
        | Some op =>
            match op_body op with
            | Contrib _ _ recips _ _ =>
                if bool_decide (who ∈ recips) || bool_decide (op_author op = who) then false
                else existsb (fun r => precedes (p_dag p) r n) removals
            | _ => false
            end
        end) (bt_elems f))
  end.

(** ** Receiving *)

Definition check_accusation (p : Participant) (acc : Op) : bool :=
  match op_body acc with
  | Accuse who coid mk seq =>
      match dag_get (p_dag p) coid with
      | None => false
      | Some src =>
          if bool_decide (op_kind src <> KContrib) || bool_decide (op_author src <> who)
          then false else
          match op_body src with
          | Contrib cid _ _ slices view =>
              match find_slice (op_author acc) slices with
              | None => false
              | Some slice =>
                  let n := slice_nonce (p_sid p) cid (op_author acc) seq in
                  match aead_open mk n (sl_ct slice) (contrib_ad cid view) with
                  | Err _ => false
                  | Ok raw =>
                      match secret_from_slice KEY_LEN raw with
                      | None => false
                      | Some x => bool_decide (commitment x <> cid)
                      end
                  end
              end
          | _ => false
          end
      end
  | _ => false
  end.

Definition mark_missing (oid : Oid) : Mp unit :=
  upd (fun p => set_missing ({[oid]} ∪ p_missing p) p).

Definition convict (who : SigPublic) : Mp unit :=
  upd (fun p => set_guilty ({[who]} ∪ p_guilty p) p).

Definition open_slice (op : Op) (mk : bytes) (seq : N) (ad : bytes) : Mp bool :=
  match op_body op with
  | Contrib cid _ _ slices _ =>
      ipk ← ask p_ipk;
      sid ← ask p_sid;
      match find_slice ipk slices with
      | None => mret false
      | Some slice =>
          match aead_open mk (slice_nonce sid cid ipk seq) (sl_ct slice) ad with
          | Err _ => _ ← mark_missing (op_oid op); mret false
          | Ok raw =>
              match secret_from_slice KEY_LEN raw with
              | None => _ ← mark_missing (op_oid op); mret false
              | Some x =>
                  r ← attempt (absorb op x);
                  match r with
                  | Ok _ | Err MissingNodeKeys => mret true
                  | Err Equivocation =>
                      acc ← ask (fun p => sign p (Accuse (op_author op) (op_oid op) mk seq));
                      proof ← ask (fun p => check_accusation p acc);
                      _ ← (if proof : bool then convict (op_author op) else mret tt);
                      _ ← add_op acc;
                      mret true
                  | Err error => fail error
                  end
              end
          end
      end
  | _ => mret false
  end.

(** A call on the receiving channel of [author], if there is one. *)
Definition on_recv {A} (author : SigPublic) (f : RecvChan -> option A * RecvChan)
    : Mp (option A) := fun e =>
  match p_recv (e_p e) !! author with
  | None => (Ok None, e)
  | Some st =>
      let '(r, c) := f (rs_chan st) in
      (Ok r, mkEnv (set_recv (<[author := mkRecvState (rs_eph st) c]> (p_recv (e_p e)))
                      (e_p e)) (e_tape e))
  end.

Definition commit_recv (author : SigPublic) (seq : N) : Mp (option bool) := fun e =>
  match p_recv (e_p e) !! author with
  | None => (Ok None, e)
  | Some st =>
      let '(r, c) := commit seq (rs_chan st) in
      (match r with Ok b => Ok (Some b) | Err x => Err x end,
       mkEnv (set_recv (<[author := mkRecvState (rs_eph st) c]> (p_recv (e_p e))) (e_p e))
         (e_tape e))
  end.

(** The loop over newly contiguous buffered slices. *)
Fixpoint drain_channel (fuel : nat) (author : SigPublic) : Mp unit :=
  match fuel with
  | O => mret tt
  | S fuel =>
      next ← on_recv author take_next;
      match next with
      | None => mret tt
      | Some (sequence, payload, message_key) =>
          let oid := take 32 payload in
          buffered ← ask (fun p => dag_get (p_dag p) oid);
          match buffered with
          | None => mark_missing oid
          | Some op =>
              match op_body op with
              | Contrib cid _ _ _ view =>
                  opened ← open_slice op message_key sequence (contrib_ad cid view);
                  if negb opened then mret tt else
                  r ← commit_recv author sequence;
                  match r with
                  | Some true => drain_channel fuel author
                  | _ => mret tt
                  end
              | _ => mark_missing oid
              end
          end
      end
  end.

(** One more than what is buffered for [author]. *)
Definition drain_fuel (p : Participant) (author : SigPublic) : nat :=
  match p_recv p !! author with
  | Some st => S (size (rc_buffer (rs_chan st)))
  | None => 1
  end.

(** The establishment part of [receive_contribution]: [Some out] when the
    function returns early with [out]. *)
Definition open_channel (op : Op) (establish : option (N * DhPublic))
    : Mp (option (list Outbound)) :=
  match establish with
  | None => mret None
  | Some (gen, eph) =>
      needs_new ← ask (fun p => match p_recv p !! op_author op with
                                | Some r => bool_decide (rs_eph r <> eph)
                                | None => true
                                end);
      if negb needs_new then mret None else
      pool ← ask p_prekeys;
      if negb (gen =? pk_generation pool)%N then
        _ ← mark_missing (op_oid op);
        mret (Some [])
      else
        ms ← p_members;
        ipk ← ask p_ipk;
        let expected := ms ∖ {[ipk]} in
        let '(shared, pool) := agree_for (op_author op) eph expected pool in
        _ ← upd (set_prekeys pool);
        match shared with
        | None =>
            _ ← mark_missing (op_oid op);
            o ← rotate_prekeys;
            mret (Some [o])
        | Some shared =>
            _ ← upd (fun p =>
              let root := channel_root shared (p_sid p) (op_author op) (p_ipk p) gen in
              let chan := recv_new (kdf root (bstr "cfr/chan/data") []) in
              set_recv (<[op_author op := mkRecvState eph chan]> (p_recv p)) p);
            mret None
        end
  end.

Definition receive_contribution (op : Op) : Mp (list Outbound) :=
  match op_body op with
  | Contrib cid _ _ slices view =>
      ipk ← ask p_ipk;
      match find_slice ipk slices with
      | None => mret []
      | Some slice =>
          early ← open_channel op (sl_establish slice);
          match early with
          | Some out => mret out
          | None =>
              let ad := contrib_ad cid view in
              let payload := op_oid op ++ sl_ct slice in
              key ← on_recv (op_author op) (offer (sl_seq slice) payload);
              match key with
              | None => mret []
              | Some message_key =>
                  opened ← open_slice op message_key (sl_seq slice) ad;
                  if negb opened then mret [] else
                  r ← commit_recv (op_author op) (sl_seq slice);
                  match r with
                  | Some false => fail (Internal "channel position changed before commit")
                  | _ =>
                      fuel ← ask (fun p => drain_fuel p (op_author op));
                      _ ← drain_channel fuel (op_author op);
                      mret []
                  end
              end
          end
      end
  | _ => mret []
  end.

Definition accused (acc : Op) : option (SigPublic * Oid) :=
  match op_body acc with Accuse who coid _ _ => Some (who, coid) | _ => None end.

Fixpoint retry_each (parked : list Op) : Mp unit :=
  match parked with
  | [] => mret tt
  | acc :: parked =>
      proof ← ask (fun p => check_accusation p acc);
      _ ← (if proof : bool then
             match accused acc with Some (who, _) => convict who | None => mret tt end
           else
             known ← ask (fun p =>
               dag_get (p_dag p) (match accused acc with
                                  | Some (_, coid) => coid
                                  | None => array_of Byte.x00 32 end));
             match known with
             | None => upd (fun p => set_open_accusations (p_open_accusations p ++ [acc]) p)
             | Some _ => mret tt
             end);
      retry_each parked
  end.

Definition retry_accusations : Mp unit :=
  parked ← ask p_open_accusations;
  _ ← upd (set_open_accusations []);
  retry_each parked.

Definition deps_available (p : Participant) (op : Op) : bool :=
  forallb (dag_contains (p_dag p)) (bt_elems (op_deps op)).

(** What an operation does once it is in the graph. *)
Definition apply_body (op : Op) : Mp (list Outbound) :=
  match op_body op with
  | Prekeys gen pk =>
      known ← ask (fun p => p_peer_prekeys p !! op_author op);
      let store := upd (fun p => set_peer_prekeys (<[op_author op := (gen, pk)]>
                                                     (p_peer_prekeys p)) p) in
      _ ← (match known with
           | None => store
           | Some (k, _) =>
               if (k <? gen)%N then
                 _ ← store; upd (fun p => set_send (delete (op_author op) (p_send p)) p)
               else mret tt
           end);
      mret []
  | Contrib _ _ _ _ _ => receive_contribution op
  | Accuse who _ _ _ =>
      proof ← ask (fun p => check_accusation p op);
      _ ← (if proof : bool then convict who else mret tt);
      mret []
  | PrekeyRequest targets =>
      ipk ← ask p_ipk;
      if bool_decide (ipk ∈ targets) then o ← rotate_prekeys; mret [o] else mret []
  | Add who =>
      rotate ← ask (fun p => bool_decide (who <> p_ipk p) && is_sealed (p_prekeys p));
      if rotate : bool then o ← rotate_prekeys; mret [o] else mret []
  | Remove _ => mret []
  end.

Definition ingest (op : Op) : Mp (list Outbound) :=
  sid ← ask p_sid;
  if decide (op_sid op <> sid) then fail (Encoding "operation from another conference") else
  _ ← lift (op_verify op);
  known ← ask (fun p => dag_contains (p_dag p) (op_oid op));
  if known : bool then mret [] else
  ready ← ask (fun p => deps_available p op);
  if negb ready then
    _ ← upd (fun p =>
      if decide (length (p_pending p) < MAX_PENDING)
      then if existsb (op_eqb op) (p_pending p) then p
           else set_pending (p_pending p ++ [op]) p
      else p);
    mret []
  else
  verdict ← p_authorised op;
  if negb verdict then fail NotAMember else
  _ ← add_op op;
  out ← apply_body op;
  _ ← retry_accusations;
  mret out.

(** One pass over the waiting operations: what is still waiting, whether an
    operation was accepted, and what to send. *)
Fixpoint drain_round (waiting : list Op) : Mp (list Op * bool * list Outbound) :=
  match waiting with
  | [] => mret ([], false, [])
  | op :: waiting =>
      ready ← ask (fun p => deps_available p op);
      if negb ready then
        rest ← drain_round waiting;
        let '(deferred, progressed, out) := rest in
        mret (op :: deferred, progressed, out)
      else
        r ← attempt (ingest op);
        rest ← drain_round waiting;
        let '(deferred, progressed, out) := rest in
        match r with
        | Ok outbound => mret (deferred, true, outbound ++ out)
        | Err _ => mret (deferred, progressed, out)
        end
  end.

Fixpoint drain_loop (fuel : nat) (waiting : list Op) : Mp (list Outbound) :=
  match fuel with
  | O => mret []
  | S fuel =>
      r ← drain_round waiting;
      let '(deferred, progressed, out) := r in
      if negb progressed then
        _ ← upd (set_pending deferred);
        mret out
      else
        more ← drain_loop fuel deferred;
        mret (out ++ more)
  end.

Definition drain_pending : Mp (list Outbound) :=
  waiting ← ask p_pending;
  _ ← upd (set_pending []);
  drain_loop (S (length waiting)) waiting.

(** ** Repair *)

Definition sync_request (p : Participant) : Outbound :=
  broadcast (MSync (p_ipk p) (bt_elems (dag_heads (p_dag p)))).

Definition repair_request : Mp (option (list Outbound)) :=
  f ← p_frontier;
  nodes ← ask (fun p => nk_missing (p_nodekeys p) (bt_elems f));
  if decide (nodes = ∅) then mret None else
  sealed ← ask (fun p => is_sealed (p_prekeys p));
  ipk ← ask p_ipk;
  let request := broadcast (MNodeKeyRequest ipk (bt_elems nodes)) in
  if sealed : bool then
    r ← attempt rotate_prekeys;
    match r with
    | Ok o => mret (Some [o; request])
    | Err _ => mret None
    end
  else mret (Some [request]).

Definition needs_repair : Mp bool :=
  f ← p_frontier;
  ask (fun p => negb (bool_decide (nk_missing (p_nodekeys p) (bt_elems f) = ∅))).

Definition repair_ad (sid : SessionId) (from to : SigPublic) : bytes :=
  hash (bstr "cfr/repair/ad") [sid; from; to].

(** The requested node keys that are held and belong to the frontier [f]. *)
Definition repair_entries (f : gset Oid) (keys : NodeKeys) (nodes : list Oid)
    : list (Oid * bytes) :=
  omap (fun n => if bool_decide (n ∈ f) then (fun k => (n, k)) <$> nk_peek keys n else None)
    nodes.

Definition answer_node_keys_for (to : SigPublic) (nodes : list Oid) : Mp (option Outbound) :=
  ms ← p_members;
  if negb (bool_decide (to ∈ ms)) then mret None else
  frontier_now ← p_frontier;
  keys ← ask p_nodekeys;
  match repair_entries frontier_now keys nodes with
  | [] => mret None
  | entries =>
      prekey ← ask (fun p => p_peer_prekeys p !! to);
      match prekey with
      | None => fail NoPrekey
      | Some (gen, pk) =>
          sealed ← seal_envelope (bstr "repair") repair_ad to gen pk
                     (build_nodekey_payload entries);
          ipk ← ask p_ipk;
          mret (Some (direct to (MNodeKeyResponse ipk sealed)))
      end
  end.

(** [nodekeys.insert], [absorbed.insert] and [missing.remove] for one entry. *)
Definition store_entry (want : gset Oid) (e : Oid * bytes) (p : Participant) : Participant :=
  let '(oid, key) := e in
  if bool_decide (oid ∈ want) then
    let p := set_nodekeys (nk_insert oid key (p_nodekeys p)) p in
    let p := set_absorbed ({[oid]} ∪ p_absorbed p) p in
    set_missing (p_missing p ∖ {[oid]}) p
  else p.

(** Opens an envelope addressed to the current prekey. *)
Definition open_envelope (pool : PrekeyPool) (label : bytes) (sid : SessionId)
    (from to : SigPublic) (ad : bytes) (sealed : Envelope) : result Error bytes :=
  if negb (env_gen sealed =? pk_generation pool)%N then Err NoPrekey else
  match agree_envelope (env_eph sealed) pool with
  | None => Err NoPrekey
  | Some shared =>
      let k := envelope_key shared sid from to in
      let n := nonce [sid; env_eph sealed; label] in
      map_err (fun _ => Decrypt) (aead_open k n (env_ct sealed) ad)
  end.

Definition absorb_node_keys (from : SigPublic) (sealed : Envelope) : Mp unit :=
  ms ← p_members;
  if negb (bool_decide (from ∈ ms)) then fail NotAMember else
  pool ← ask p_prekeys;
  sid ← ask p_sid;
  ipk ← ask p_ipk;
  plain ← lift (open_envelope pool (bstr "repair") sid from ipk (repair_ad sid from ipk) sealed);
  want ← p_frontier;
  entries ← lift (parse_nodekey_payload plain);
  upd (fun p => foldl (fun p e => store_entry want e p) p entries).

(** ** Messages *)

Fixpoint ingest_batch (ops : list Op) : Mp (list Outbound) :=
  match ops with
  | [] => mret []
  | op :: ops =>
      r ← attempt (ingest op);
      rest ← ingest_batch ops;
      mret (match r with Ok o => o ++ rest | Err _ => rest end)
  end.

Definition answer_sync (p : Participant) (from : SigPublic) (heads : list Oid)
    : list Outbound :=
  let d := p_dag p in
  let peer_has_unknown_head := existsb (fun head => negb (dag_contains d head)) heads in
  let known := causal_closure d heads in
  let ops := omap (dag_get d) (filter (fun oid => oid ∉ known) (topological d)) in
  (match ops with [] => [] | _ :: _ => [direct from (MDeliver ops [])] end)
  ++ (if peer_has_unknown_head
      then [direct from (MSync (p_ipk p) (bt_elems (dag_heads d)))] else []).

Definition dispatch (msg : Message) : Mp (list Event * list Outbound) :=
  match msg with
  | MOp op => out ← ingest op; mret ([], out)
  | MDeliver ops _ => out ← ingest_batch ops; mret ([], out)
  | MSync from heads =>
      ms ← p_members;
      if bool_decide (from ∈ ms) then
        out ← ask (fun p => answer_sync p from heads); mret ([], out)
      else mret ([], [])
  | MNodeKeyRequest from nodes =>
      o ← answer_node_keys_for from nodes;
      mret ([], match o with Some o => [o] | None => [] end)
  | MNodeKeyResponse from sealed => _ ← absorb_node_keys from sealed; mret ([], [])
  | MCheckpoint certificate =>
      _ ← validate_checkpoint certificate; mret ([CheckpointOffered certificate], [])
  | MWelcome _ _ _ _ _ => fail (Encoding "welcome sent to an existing participant")
  end.

Definition handle (wire : bytes) : Mp (list Event * list Outbound) :=
  msg ← lift (message_from_wire wire);
  before ← p_version;
  members_before ← p_members;
  r ← dispatch msg;
  let '(events, out) := r in
  drained ← drain_pending;
  members_after ← p_members;
  let events := events ++ (Joined <$> bt_elems (members_after ∖ members_before))
                       ++ (Left <$> bt_elems (members_before ∖ members_after)) in
  after ← p_version;
  changed ← (if decide (after <> before)
             then _ ← note_version; mret [KeyChanged after] else mret []);
  ok ← can_derive;
  mret (events ++ changed ++ (if ok : bool then [] else [RepairNeeded]), out ++ drained).

(** ** Founding and joining *)

Definition participant_new (identity : bytes) (sid : SessionId) (policy : Policy)
    (seed0 : bytes) (prekeys : PrekeyPool) : Participant :=
  mkParticipant identity (sig_public identity) sid policy seed0 dag_new ∅ prekeys ∅ ∅ ∅
    nk_default ∅ ∅ ∅ [] [] ∅ (array_of Byte.x00 8) ∅ None.

(** The part of [create] that runs on the participant it has built. *)
Definition found : Mp (list Outbound) :=
  add ← ask (fun p => sign p (Add (p_ipk p)));
  _ ← add_op add;
  prekeys ← publish_prekeys;
  more ← contribute;
  _ ← note_version;
  mret ([broadcast (MOp add); prekeys] ++ more).

(** Runs a method on a participant that is dropped if it fails. *)
Definition run_on {A} (p : Participant) (m : Mp A) : M Tape Error (Participant * A) := fun t =>
  match m (mkEnv p t) with
  | (Ok a, e) => (Ok (e_p e, a), e_tape e)
  | (Err x, e) => (Err x, e_tape e)
  end.

Definition lift_crypto {A} (m : M Tape CryptoError A) : M Tape Error A := fun t =>
  let '(r, t) := m t in (map_err CryptoE r, t).

Definition create (policy : Policy) : M Tape Error (Participant * list Outbound) :=
  identity ← lift_crypto sig_generate;
  sid ← lift_crypto (fill_random 32);
  seed0 ← lift_crypto random_secret;
  prekeys ← lift_crypto pool_new;
  run_on (participant_new identity sid policy seed0 prekeys) found.

Definition pending_new (policy : Policy) : M Tape Error PendingJoin :=
  identity ← lift_crypto sig_generate;
  prekeys ← lift_crypto pool_new;
  mret (mkPendingJoin identity prekeys policy).

Definition key_package (j : PendingJoin) : KeyPackage :=
  let ipk := sig_public (pj_identity j) in
  let gen := pk_generation (pj_prekeys j) in
  let prekey := pk_public (pj_prekeys j) in
  mkKeyPackage ipk gen prekey (sig_sign (pj_identity j) (kp_image ipk gen prekey)).

Fixpoint ingest_history (history : list Op) : Mp unit :=
  match history with
  | [] => mret tt
  | op :: history => _ ← ingest op; ingest_history history
  end.

Definition seed_entry (e : Oid * bytes) (p : Participant) : Participant :=
  let p := set_nodekeys (nk_insert e.1 e.2 (p_nodekeys p)) p in
  set_absorbed ({[e.1]} ∪ p_absorbed p) p.

Definition join (node_keys : list (Oid * bytes)) (history : list Op) : Mp (list Outbound) :=
  _ ← upd (fun p => foldl (fun p e => seed_entry e p) p node_keys);
  _ ← ingest_history history;
  _ ← upd rebuild_contribution_parents;
  ms ← p_members;
  ipk ← ask p_ipk;
  if negb (bool_decide (ipk ∈ ms)) then fail NotParticipating else
  o ← publish_prekeys;
  _ ← note_version;
  mret [o].

Definition accept_welcome (j : PendingJoin) (wire : bytes)
    : M Tape Error (Participant * list Outbound) :=
  msg ← lift (message_from_wire wire);
  match msg with
  | MWelcome sid from sealed history _ =>
      let ipk := sig_public (pj_identity j) in
      plain ← lift (open_envelope (pj_prekeys j) (bstr "welcome") sid from ipk
                      (welcome_ad sid from ipk) sealed);
      payload ← lift (parse_welcome_payload plain);
      let '(seed0, node_keys) := payload in
      run_on (participant_new (pj_identity j) sid (pj_policy j) seed0 (pj_prekeys j))
        (join node_keys history)
  | _ => fail (Encoding "expected a welcome")
  end.
End member.
