(* ===== verification/MemberInv.v ===== *)
(** * Invariants of the participant

    [part_ok] collects what holds of a participant between any two calls: the
    graph is well formed and holds only authentic operations of the session,
    convictions rest on a checkable proof, buffers respect their bounds,
    channels stand on their schedules, and both memos hold what recomputation
    would give.  [keeps] is preservation by a computation; it composes over the
    monad, so each method needs a lemma only for the steps it performs
    itself. *)

From Stdlib Require Import NArith Lia.
From S2P Require Import Prelude Crypto Codec Ops Dag Membership Keys Channel Prekey Checkpoint Wire Member.

Section invariant.
Context {P : Primitives}.

(** ** Authentic operations *)

(** The cached image and identifier are those of the fields, as in every
    operation that is created or parsed. *)
Definition built (op : Op) : Prop :=
  op_image op = signed_image (op_sid op) (op_author op) (op_deps op) (op_body op)
  /\ op_oid op = hash (bstr "cfr/oid") [op_image op; op_sig op]
  /\ (forall d, d ∈ op_deps op -> len32 d).

(** An operation of session [sid] whose signature verifies. *)
Definition authentic (sid : SessionId) (op : Op) : Prop :=
  op_sid op = sid /\ op_verify op = Ok tt /\ built op.

(** [who] is caught: some accusation against it checks out. *)
Definition proven_guilty (p : Participant) (who : SigPublic) : Prop :=
  exists acc, check_accusation p acc = true /\ fst <$> accused acc = Some who.

(** The conviction of [who] rests on an accusation whose identifier is in the
    graph, unless the graph was full when it was made. *)
Definition convicted (p : Participant) (who : SigPublic) : Prop :=
  exists acc, check_accusation p acc = true /\ fst <$> accused acc = Some who /\
    authentic (p_sid p) acc /\
    (op_oid acc ∈ dom (dag_ops (p_dag p)) \/ (MAX_OPS <= dag_len (p_dag p))%N).

(** Every accusation that checks out and follows the contribution it names has
    led to a conviction. *)
Definition judged (p : Participant) : Prop :=
  forall oid acc who coid, dag_ops (p_dag p) !! oid = Some acc -> accused acc = Some (who, coid) ->
    coid ∈ past_of (p_dag p) oid -> check_accusation p acc = true -> who ∈ p_guilty p.

(** The memo of [derived], when it is for the current state, is right. *)
Definition derived_ok (p : Participant) : Prop :=
  forall dv, p_derived p = Some dv ->
    (dv_epoch dv <= dag_epoch (p_dag p))%N /\ dv_guilty dv <= size (p_guilty p) /\
    (dv_epoch dv = dag_epoch (p_dag p) -> dv_guilty dv = size (p_guilty p) -> dv = derive p).

(** The causal past named by a dependency set, and the roster it defines. *)
Definition past_of_deps (d : Dag) (deps : gset Oid) : gset Oid :=
  foldl (fun past x => if dag_contains d x then {[x]} ∪ past ∪ past_of d x else past)
    ∅ (bt_elems deps).

Definition roster_before (p : Participant) (deps : gset Oid) : gset SigPublic :=
  members_in (membership p) (Some (past_of_deps (p_dag p) deps)).

(** The verdict on [op] against the roster that the dependency set [deps]
    defines. *)
Definition verdict_on (m : Membership) (op : Op) (deps : gset Oid) : bool :=
  decide_op m op (members_in m (Some (past_of_deps (m_dag m) deps))).

(** [asked] are the dependency sets of the operations presented to the
    participant.  The memo of [authorised], where it is for the current state,
    holds the roster of one of them, under its digest. *)
Definition authz_ok (asked : gset Oid -> Prop) (p : Participant) : Prop :=
  forall digest ep g past, p_authz p !! (digest, ep, g) = Some past ->
    (ep <= dag_epoch (p_dag p))%N /\ g <= size (p_guilty p) /\
    (ep = dag_epoch (p_dag p) -> g = size (p_guilty p) ->
     exists deps, asked deps /\ digest = authz_digest deps /\ past = roster_before p deps).

(** [deps] passes for the dependencies of [op] in that memo. *)
Definition taken_for (asked : gset Oid -> Prop) (op : Op) (deps : gset Oid) : Prop :=
  asked deps /\ asked (op_deps op) /\ authz_digest deps = authz_digest (op_deps op).

(** No two of them have one digest. *)
Definition told_apart (asked : gset Oid -> Prop) : Prop :=
  forall a b, asked a -> asked b -> authz_digest a = authz_digest b -> a = b.

(** [op] was authorised by the graph that was there before it, under the
    convictions known then, judged as if it had the dependencies [deps]. *)
Definition admitted_as (p : Participant) (op : Op) (deps : gset Oid) : Prop :=
  exists d g, dag_extends d (p_dag p) /\ g ⊆ p_guilty p /\ deps_satisfied d op = true
    /\ dag_contains d (op_oid op) = false /\ verdict_on (mkMembership d (p_policy p) g) op deps = true.

(** [op] is one's own, or it was authorised when it came. *)
Definition admitted (asked : gset Oid -> Prop) (p : Participant) (op : Op) : Prop :=
  op_author op = p_ipk p \/ exists deps, taken_for asked op deps /\ admitted_as p op deps.

(** The node-key store within its capacity, with keys of full width. *)
Definition nk_ok (s : NodeKeys) : Prop :=
  nk_inv s /\ nk_capacity s = OVERLAP /\
  forall o k, nk_keys s !! o = Some k -> length k = KEY_LEN.

(** What no method changes, and the history that was there at some point: no
    method removes from it. *)
Record Statics := mkStatics {
  st_identity : bytes;
  st_sid : SessionId;
  st_policy : Policy;
  st_seed0 : bytes;
  st_base : Dag;
  st_convicted : gset SigPublic;
  st_asked : gset Oid -> Prop;
}.

Definition statics_for (asked : gset Oid -> Prop) (base : Dag) (convicted : gset SigPublic) (p : Participant) : Statics :=
  mkStatics (p_identity p) (p_sid p) (p_policy p) (p_seed0 p) base convicted asked.
(** Whatever the operations presented. *)
Definition anything : gset Oid -> Prop := fun _ => True.
Definition statics_at : Dag -> gset SigPublic -> Participant -> Statics := statics_for anything.
Definition statics (p : Participant) : Statics := statics_at (p_dag p) (p_guilty p) p.

Record part_ok {fx : Statics} (p : Participant) : Prop := {
  ok_statics : statics_for (st_asked fx) (st_base fx) (st_convicted fx) p = fx;
  ok_base : dag_extends (st_base fx) (p_dag p);
  ok_convicted : st_convicted fx ⊆ p_guilty p;
  ok_key : p_ipk p = sig_public (p_identity p);
  ok_wf : dag_wf (p_dag p);
  ok_exact : dag_exact (p_dag p);
  ok_ops o op : dag_ops (p_dag p) !! o = Some op -> authentic (p_sid p) op;
  ok_admitted o op : dag_ops (p_dag p) !! o = Some op -> admitted (st_asked fx) p op;
  ok_guilty who : who ∈ p_guilty p -> convicted p who;
  ok_judged : judged p;
  ok_parked : p_open_accusations p = [];
  ok_pending : Forall (authentic (p_sid p)) (p_pending p);
  ok_pending_len : length (p_pending p) <= MAX_PENDING;
  ok_waiting : Forall (fun op => st_asked fx (op_deps op)) (p_pending p);
  ok_nodekeys : nk_ok (p_nodekeys p);
  ok_seen : (N.of_nat (size (p_seen_versions p)) <= OVERLAP)%N;
  ok_send v c : p_send p !! v = Some c -> exists root, on_schedule root c;
  ok_recv v st : p_recv p !! v = Some st -> exists root, recv_inv root (rs_chan st);
  ok_derived : derived_ok p;
  ok_authz : authz_ok (st_asked fx) p;
}.
#[global] Arguments part_ok fx p : clear implicits.

(** The same history, more operations presented. *)
Lemma part_ok_rebase (asked : gset Oid -> Prop) {fx} p :
  (forall deps, st_asked fx deps -> asked deps) -> part_ok fx p ->
  part_ok (statics_for asked (p_dag p) (p_guilty p) p) p.
Proof.
  intros Hw []. split; try done; cbn [st_asked statics_for].
  - intros o op Ho. destruct (ok_admitted0 o op Ho) as [?|(deps & (A1 & A2 & A3) & H)]; [by left|right].
    exists deps. split; [|done]. split_and!; auto.
  - eapply Forall_impl; [exact ok_waiting0|]. intros op. apply Hw.
  - intros dg ep g past Hl. destruct (ok_authz0 dg ep g past Hl) as (H1 & H2 & H3). split_and!; [done..|].
    intros E1 E2. destruct (H3 E1 E2) as (deps & ? & ? & ?). exists deps. split_and!; auto.
Qed.

(** ** Preservation *)

Definition keeps {A} (I : Participant -> Prop) (m : Mp A) : Prop :=
  forall e, I (e_p e) -> I (e_p (m e).2).

Section keeps_rules.
Context (I : Participant -> Prop).

Lemma keeps_ret {A} (a : A) : keeps I (mret a).
Proof. by intros e. Qed.
Lemma keeps_fail {A} (x : Error) : keeps I (fail (A := A) x).
Proof. by intros e. Qed.
Lemma keeps_lift {A} (r : result Error A) : keeps I (lift r).
Proof. by intros e. Qed.
Lemma keeps_ask {A} (f : Participant -> A) : keeps I (ask f).
Proof. by intros e. Qed.
Lemma keeps_upd f : (forall p, I p -> I (f p)) -> keeps I (upd f).
Proof. intros H e He. by apply H. Qed.
Lemma keeps_draw {A} (m : M Tape CryptoError A) : keeps I (draw m).
Proof. intros e He. unfold draw. by destruct (m (e_tape e)). Qed.
Lemma keeps_attempt {A} (m : Mp A) : keeps I m -> keeps I (attempt m).
Proof. intros H e He. unfold attempt. specialize (H e He). by destruct (m e). Qed.

Lemma keeps_bind {A B} (m : Mp A) (f : A -> Mp B) :
  keeps I m -> (forall a, keeps I (f a)) -> keeps I (m ≫= f).
Proof.
  intros Hm Hf e He. unfold mbind, M_bind. specialize (Hm e He).
  destruct (m e) as [[a|x] e']; [|done]. by apply Hf.
Qed.

(** A value read from the state is still that value in the next step. *)
Lemma keeps_ask_bind {A B} (f : Participant -> A) (k : A -> Mp B) :
  (forall e, I (e_p e) -> I (e_p (k (f (e_p e)) e).2)) -> keeps I (ask f ≫= k).
Proof. intros H e He. by apply H. Qed.
End keeps_rules.
End invariant.

Create HintDb keeps discriminated.
#[export] Hint Constants Opaque : keeps.
#[export] Hint Resolve keeps_ret keeps_fail keeps_lift keeps_ask keeps_draw keeps_attempt
  : keeps.

(** Walks a method body down to the steps that have lemmas of their own. *)
Ltac keeps_walk :=
  repeat first
    [ solve [eauto with keeps]
    | progress cbn zeta
    | lazymatch goal with
      | |- keeps _ (_ ≫= _) => apply keeps_bind; [|intros ?]
      | |- keeps _ (attempt _) => apply keeps_attempt
      | |- keeps _ (match ?x with _ => _ end) => destruct x
      end ].

(** ** Assignments *)

Lemma nk_ok_insert oid key s : length key = KEY_LEN -> nk_ok s -> nk_ok (nk_insert oid key s).
Proof.
  intros Hk (HI & Hc & H32). split; [by apply nk_insert_inv|]. split.
  - by destruct (nk_insert_lru oid key s HI) as (_ & _ & ->).
  - intros o k [[_ ->]|H]%nk_insert_lookup; [done|by eapply H32|done].
Qed.

Section assignments.
Context {P : Primitives} {fx : Statics}.
Implicit Types (p : Participant).

Lemma ok_set_missing v p : part_ok fx p -> part_ok fx (set_missing v p).
Proof. intros []. by split. Qed.
Lemma ok_set_cparents v p : part_ok fx p -> part_ok fx (set_cparents v p).
Proof. intros []. by split. Qed.
Lemma ok_set_absorbed v p : part_ok fx p -> part_ok fx (set_absorbed v p).
Proof. intros []. by split. Qed.
Lemma ok_set_peer_prekeys v p : part_ok fx p -> part_ok fx (set_peer_prekeys v p).
Proof. intros []. by split. Qed.
Lemma ok_set_prekeys v p : part_ok fx p -> part_ok fx (set_prekeys v p).
Proof. intros []. by split. Qed.
Lemma ok_set_last_version v p : part_ok fx p -> part_ok fx (set_last_version v p).
Proof. intros []. by split. Qed.
Lemma ok_set_nodekeys v p : nk_ok v -> part_ok fx p -> part_ok fx (set_nodekeys v p).
Proof. intros Hv []. by split. Qed.
Lemma ok_set_seen v p :
  (N.of_nat (size v) <= OVERLAP)%N -> part_ok fx p -> part_ok fx (set_seen_versions v p).
Proof. intros Hv []. by split. Qed.
Lemma ok_set_pending v p :
  Forall (authentic (p_sid p)) v -> length v <= MAX_PENDING ->
  Forall (fun op => st_asked fx (op_deps op)) v -> part_ok fx p -> part_ok fx (set_pending v p).
Proof. intros Hv Hl Ha []. by split. Qed.
Lemma ok_set_derived p : part_ok fx p -> part_ok fx (set_derived (Some (derive p)) p).
Proof. intros []. split; try done. intros dv [= <-]. done. Qed.

Lemma ok_insert_send v c root p :
  on_schedule root c -> part_ok fx p -> part_ok fx (set_send (<[v := c]> (p_send p)) p).
Proof.
  intros Hc []. split; try done.
  intros w c'. cbn [set_send p_send].
  intros [[<- <-]|[_ Hw]]%lookup_insert_Some; [by exists root|by eapply ok_send0].
Qed.
Lemma ok_delete_send v p : part_ok fx p -> part_ok fx (set_send (delete v (p_send p)) p).
Proof.
  intros []. split; try done. intros w c. cbn [set_send p_send].
  intros [_ Hw]%lookup_delete_Some. by eapply ok_send0.
Qed.
Lemma ok_insert_recv v st root p :
  recv_inv root (rs_chan st) -> part_ok fx p -> part_ok fx (set_recv (<[v := st]> (p_recv p)) p).
Proof.
  intros Hc []. split; try done. intros w st'. cbn [set_recv p_recv].
  intros [[<- <-]|[_ Hw]]%lookup_insert_Some; [by exists root|by eapply ok_recv0].
Qed.
Lemma ok_delete_recv v p : part_ok fx p -> part_ok fx (set_recv (delete v (p_recv p)) p).
Proof.
  intros []. split; try done. intros w st. cbn [set_recv p_recv].
  intros [_ Hw]%lookup_delete_Some. by eapply ok_recv0.
Qed.

(** ** Growth of the graph *)

Lemma set_dag_id p : set_dag (p_dag p) p = p.
Proof. by destruct p. Qed.

Lemma check_accusation_grows p d acc :
  dag_extends (p_dag p) d -> check_accusation p acc = true ->
  check_accusation (set_dag d p) acc = true.
Proof.
  intros [Hsub _]. unfold check_accusation, dag_get. destruct (op_body acc); try done.
  destruct (dag_ops (p_dag p) !! coid) as [src|] eqn:E; [|done].
  cbn [set_dag p_dag p_sid]. by rewrite (lookup_weaken _ _ _ _ E Hsub).
Qed.

Lemma extends_trans d1 d2 d3 : dag_extends d1 d2 -> dag_extends d2 d3 -> dag_extends d1 d3.
Proof. intros [H1 H2] [H3 H4]. split; by etrans. Qed.

Lemma admitted_grows p d op :
  dag_extends (p_dag p) d -> admitted (st_asked fx) p op -> admitted (st_asked fx) (set_dag d p) op.
Proof.
  intros He [H|(deps & Ht & d0 & g & He0 & H)]; [by left|right].
  exists deps. split; [done|]. exists d0, g. split; [|exact H]. by eapply extends_trans.
Qed.

Lemma check_accusation_same p d acc coid :
  dag_extends (p_dag p) d -> snd <$> accused acc = Some coid -> coid ∈ dom (dag_ops (p_dag p)) ->
  check_accusation (set_dag d p) acc = check_accusation p acc.
Proof.
  intros [Hsub _]. unfold check_accusation, accused, dag_get. destruct (op_body acc); try done.
  cbn [fmap option_fmap option_map snd]. intros [= ->] [src E]%elem_of_dom.
  cbn [set_dag p_dag p_sid]. by rewrite E, (lookup_weaken _ _ _ _ E Hsub).
Qed.

(** An accusation is not evidence for itself. *)
Lemma check_accusation_own p acc :
  check_accusation (set_dag (dag_add acc (p_dag p)).2 p) acc = check_accusation p acc.
Proof.
  destruct (dag_add acc (p_dag p)) as [r d] eqn:E. cbn [snd].
  apply dag_add_cases in E as [(_ & _ & ->)|[(_ & _ & _ & ->)|(_ & Hn & _ & Ho & _)]]; [by rewrite set_dag_id..|].
  unfold check_accusation, dag_get. destruct (op_body acc) as [| | | |who coid mk seq|] eqn:Eb; try done.
  cbn [set_dag p_dag p_sid]. rewrite Ho. destruct (decide (coid = op_oid acc)) as [->|Hne].
  - rewrite lookup_insert_eq, Hn. unfold op_kind. by rewrite Eb.
  - by rewrite lookup_insert_ne by done.
Qed.

Lemma past_in_dom d o x : dag_wf d -> x ∈ past_of d o -> x ∈ dom (dag_ops d).
Proof. intros Hwf Hx. apply past_of_spec in Hx; [|done]. by eapply tc_edge_dom. Qed.

(** Growth of the convictions alone leaves the memos right. *)
Lemma guilty_grows (g g' : gset SigPublic) : g ⊆ g' -> size g <= size g' /\ (size g = size g' -> g = g').
Proof.
  intros Hs. split; [by apply subseteq_size|]. intros Hz. apply set_eq. intros x. split; [by apply Hs|].
  intros Hx. destruct (decide (x ∈ g)) as [|Hn]; [done|].
  assert (g ⊂ g') as Hlt by set_solver. apply subset_size in Hlt. lia.
Qed.

Lemma judged_add op g p d :
  dag_wf (p_dag p) -> dag_wf d -> dag_extends (p_dag p) d -> judged p ->
  (forall o acc, dag_ops d !! o = Some acc -> dag_ops (p_dag p) !! o = Some acc \/ acc = op) ->
  p_guilty p ⊆ g ->
  (forall who, check_accusation (set_dag d p) op = true -> fst <$> accused op = Some who -> who ∈ g) ->
  judged (set_guilty g (set_dag d p)).
Proof.
  intros Hwf Hwf' He Hj Hcase Hg Hop o acc who coid. cbn [set_guilty set_dag p_dag p_guilty].
  intros Ho Ha Hpast Hc. change (check_accusation (set_dag d p) acc = true) in Hc.
  destruct (Hcase o acc Ho) as [Hold| ->]; [|apply Hop; [done|by rewrite Ha]].
  rewrite (extends_past (p_dag p) d) in Hpast by (done || by apply elem_of_dom).
  apply Hg, (Hj o acc who coid); [done..|].
  rewrite <- (check_accusation_same p d acc coid He); [done|by rewrite Ha|by eapply past_in_dom].
Qed.

Lemma convicted_add op g p d :
  dag_extends (p_dag p) d -> (dag_len (p_dag p) <= dag_len d)%N ->
  (op_oid op ∈ dom (dag_ops d) \/ (MAX_OPS <= dag_len d)%N) -> authentic (p_sid p) op ->
  (forall who, who ∈ p_guilty p -> convicted p who) ->
  (forall who, who ∈ g -> who ∈ p_guilty p \/
     (check_accusation (set_dag d p) op = true /\ fst <$> accused op = Some who)) ->
  forall who, who ∈ g -> convicted (set_guilty g (set_dag d p)) who.
Proof.
  intros He Hl Hin Ha Hold Hg who Hw. destruct (Hg who Hw) as [H|[Hc Hacc]].
  - destruct (Hold who H) as (acc & Hc & Hacc & Hau & Hev). exists acc. split_and!; try done.
    + by apply (check_accusation_grows p d acc He).
    + cbn [set_guilty set_dag p_dag]. destruct Hev as [Hev|Hev]; [left|right; lia].
      destruct He as [Hsub _]. apply subseteq_dom in Hsub. set_solver.
  - by exists op.
Qed.

(** Adding an operation together with the convictions that follow from it. *)
Lemma ok_add_judge op g p (d := (dag_add op (p_dag p)).2) :
  part_ok fx p -> authentic (p_sid p) op -> deps_satisfied (p_dag p) op = true ->
  admitted (st_asked fx) p op -> p_guilty p ⊆ g ->
  (forall who, who ∈ g -> who ∈ p_guilty p \/
     (check_accusation (set_dag d p) op = true /\ fst <$> accused op = Some who)) ->
  (forall who, check_accusation (set_dag d p) op = true -> fst <$> accused op = Some who -> who ∈ g) ->
  part_ok fx (set_guilty g (set_dag d p)).
Proof.
  intros Hok Ha Hd Hadm Hg Hnew Hall. destruct (dag_add op (p_dag p)) as [r d1] eqn:E. cbn [snd] in d. subst d.
  pose proof (dag_add_wf _ _ _ _ (ok_wf p Hok) E) as Hwf.
  pose proof (dag_add_exact _ _ _ _ (ok_exact p Hok) Hd E) as Hex.
  pose proof (dag_add_extends _ _ _ _ (ok_wf p Hok) E) as Hext.
  destruct (guilty_grows _ _ Hg) as [Hsz Hszeq].
  assert ((dag_epoch (p_dag p) <= dag_epoch d1)%N /\
    (dag_epoch (p_dag p) = dag_epoch d1 -> d1 = p_dag p) /\ (dag_len (p_dag p) <= dag_len d1)%N /\
    (op_oid op ∈ dom (dag_ops d1) \/ (MAX_OPS <= dag_len d1)%N) /\
    forall o acc, dag_ops d1 !! o = Some acc -> dag_ops (p_dag p) !! o = Some acc \/ acc = op)
    as (Hep & Hepeq & Hlen & Hin & Hcase).
  { apply dag_add_cases in E as [(? & _ & ->)|[(_ & ? & _ & ->)|(_ & Hn & _ & Ho & _ & _ & He)]];
      [split_and!; by auto..|].
    rewrite He. unfold dag_len. rewrite Ho, dom_insert_L, map_size_insert_None by done.
    split_and!; [lia|lia|lia|set_solver|]. intros o acc [[_ <-]|[_ ?]]%lookup_insert_Some; auto. }
  pose proof (judged_add op g p d1 (ok_wf p Hok) Hwf Hext (ok_judged p Hok) Hcase Hg Hall) as Hj.
  pose proof (convicted_add op g p d1 Hext Hlen Hin Ha (ok_guilty p Hok) Hnew) as Hcv.
  destruct Hok. split; try done; cbn [set_guilty set_dag p_dag p_guilty].
  - by eapply extends_trans.
  - by etrans.
  - intros o op' Ho. destruct (Hcase o op' Ho) as [?| ->]; [by eapply ok_ops0|done].
  - intros o op' Ho. assert (admitted (st_asked fx) p op') as Ho' by (destruct (Hcase o op' Ho) as [?| ->]; [by eapply ok_admitted0|done]).
    apply (admitted_grows p d1 op' Hext) in Ho' as [H|(deps & Ht & d0 & g0 & H1 & H2 & H3)]; [by left|right].
    exists deps. split; [done|]. exists d0, g0. split; [done|]. split; [|done]. cbn [set_guilty set_dag p_guilty] in *. by etrans.
  - intros dv Hdv. destruct (ok_derived0 dv Hdv) as (H1 & H2 & H3). cbn [set_guilty set_dag p_dag p_guilty].
    split_and!; [lia|lia|]. intros E1 E2. assert (dag_epoch (p_dag p) = dag_epoch d1) as E3 by lia.
    rewrite (Hepeq E3), <- Hszeq, H3 by (lia || rewrite ?(Hepeq E3) in *; lia). by destruct p.
  - intros dg ep g0 past Hc. destruct (ok_authz0 dg ep g0 past Hc) as (H1 & H2 & H3). cbn [set_guilty set_dag p_dag p_guilty].
    split_and!; [lia|lia|]. intros E1 E2. assert (dag_epoch (p_dag p) = dag_epoch d1) as E3 by lia.
    destruct H3 as (deps & A1 & A2 & A3); [lia|lia|]. exists deps. split_and!; [done..|].
    rewrite A3, (Hepeq E3), <- Hszeq by lia. by destruct p.
Qed.

Lemma ok_add op p :
  part_ok fx p -> authentic (p_sid p) op -> deps_satisfied (p_dag p) op = true ->
  admitted (st_asked fx) p op -> accused op = None ->
  part_ok fx (set_dag (dag_add op (p_dag p)).2 p).
Proof.
  intros Hok Ha Hd Hadm Hn.
  replace (set_dag (dag_add op (p_dag p)).2 p)
    with (set_guilty (p_guilty p) (set_dag (dag_add op (p_dag p)).2 p)) by (by destruct p).
  apply ok_add_judge; try done; [by left|]. by rewrite Hn.
Qed.

(** ** The two memos *)

Lemma derived_spec e :
  part_ok fx (e_p e) ->
  exists e', derived e = (Ok (derive (e_p e)), e') /\ part_ok fx (e_p e')
    /\ (e_p e' = e_p e \/ e_p e' = set_derived (Some (derive (e_p e))) (e_p e))
    /\ e_tape e' = e_tape e.
Proof.
  intros Hok. unfold derived. destruct (stale (e_p e)) eqn:Es.
  - cbn [set_derived p_derived]. eexists. split_and!; [done|by apply ok_set_derived|by right|done].
  - unfold stale in Es. destruct (p_derived (e_p e)) as [d|] eqn:Ed; [|done].
    apply orb_false_iff in Es as [E1 E2].
    apply negb_false_iff in E1. apply N.eqb_eq in E1.
    apply negb_false_iff, bool_decide_eq_true in E2.
    destruct (ok_derived _ Hok d Ed) as (_ & _ & Hd). rewrite (Hd E1 E2).
    eexists. split_and!; [done|done|by left|done].
Qed.

Lemma keeps_derived : keeps (part_ok fx) derived.
Proof. intros e He. destruct (derived_spec e He) as (e' & -> & H & _). done. Qed.

Lemma roster_before_eq p op :
  dag_contains (p_dag p) (op_oid op) = false ->
  members_before (membership p) op = roster_before p (op_deps op).
Proof.
  intros Hc. unfold members_before, roster_before, declared_past, past_of_deps.
  cbn [membership m_dag]. by rewrite Hc.
Qed.

(** Judged by its own dependencies, the verdict is the one of the membership
    component. *)
Lemma verdict_on_self m op :
  dag_contains (m_dag m) (op_oid op) = false -> verdict_on m op (op_deps op) = authorised m op.
Proof.
  intros Hc. unfold verdict_on, authorised. f_equal. unfold members_before, declared_past, past_of_deps. by rewrite Hc.
Qed.

Lemma taken_for_own asked op deps : told_apart asked -> taken_for asked op deps -> deps = op_deps op.
Proof. intros Hs (H1 & H2 & H3). by apply Hs. Qed.

Lemma admitted_authorised asked p op :
  told_apart asked -> admitted asked p op ->
  op_author op = p_ipk p \/
  exists d g, dag_extends d (p_dag p) /\ g ⊆ p_guilty p /\ deps_satisfied d op = true
    /\ authorised (mkMembership d (p_policy p) g) op = true.
Proof.
  intros Hs [H|(deps & Ht & d & g & H1 & H2 & H3 & H4 & H5)]; [by left|right].
  rewrite (taken_for_own _ _ _ Hs Ht), (verdict_on_self (mkMembership d (p_policy p) g) op H4) in H5. by exists d, g.
Qed.

Lemma ok_authz_insert op p :
  part_ok fx p -> st_asked fx (op_deps op) ->
  dag_contains (p_dag p) (op_oid op) = false ->
  let cache := if decide (4096 < size (p_authz p)) then ∅ else p_authz p in
  part_ok fx (set_authz (<[authz_key op p := members_before (membership p) op]> cache) p).
Proof.
  intros Hok Hd Hc cache. destruct Hok. split; try done.
  intros dg ep g past. cbn [set_authz p_authz].
  intros [[[= <- <- <-] <-]|[_ Hl]]%lookup_insert_Some.
  - split_and!; [done|done|]. intros _ _. exists (op_deps op). split_and!; [done..|].
    exact (roster_before_eq p op Hc).
  - apply (ok_authz0 dg ep g past). unfold cache in Hl. by case_decide.
Qed.

(** The participant's copy of the decision is the one of the membership
    component. *)
Lemma decide_with_eq m op past : decide_with op past (m_dag m) = decide_op m op past.
Proof.
  unfold decide_with, decide_op, is_founding, op_kind.
  by destruct (op_body op); simpl.
Qed.

(** The digest tells two dependency sets apart unless BLAKE3 collides on what is
    hashed for these two. *)
Lemma authz_digest_inj d1 d2 :
  (forall d, d ∈ d1 -> len32 d) -> (forall d, d ∈ d2 -> len32 d) ->
  authz_digest d1 = authz_digest d2 ->
  d1 = d2 \/ collide None (frames (bstr "cfr/authz" :: bt_elems d1)) (frames (bstr "cfr/authz" :: bt_elems d2)).
Proof.
  intros H1 H2 H.
  assert (forall (s : gset Oid), (forall d, d ∈ s -> len32 d) ->
            Forall framable (bstr "cfr/authz" :: bt_elems s)) as Hf.
  { intros s Hs. constructor; [done|]. apply Forall_forall.
    intros o Ho%elem_of_bt_elems%Hs. unfold framable, lenN. by rewrite Ho. }
  apply hash_inj in H as [[_ H]|H]; [|by right|by apply Hf..].
  left. by rewrite <- (bt_elems_to_set d1), <- (bt_elems_to_set d2), H.
Qed.

Lemma p_authorised_keeps_at op e :
  part_ok fx (e_p e) -> st_asked fx (op_deps op) ->
  dag_contains (p_dag (e_p e)) (op_oid op) = false ->
  exists v e', p_authorised op e = (Ok v, e') /\ part_ok fx (e_p e')
    /\ e_p e' = set_authz (p_authz (e_p e')) (e_p e) /\ e_tape e' = e_tape e
    /\ exists deps, taken_for (st_asked fx) op deps /\ v = verdict_on (membership (e_p e)) op deps.
Proof.
  intros Hok Hd Hc. unfold p_authorised.
  destruct (p_authz (e_p e) !! authz_key op (e_p e)) as [past|] eqn:El.
  - eexists _, _. split_and!; [done|done| |done|]; [by destruct (e_p e)|].
    destruct (ok_authz _ Hok _ _ _ _ El) as (_ & _ & Hp).
    destruct (Hp eq_refl eq_refl) as (deps & Hl & Hdig & ->).
    exists deps. split; [by split_and!|]. exact (decide_with_eq (membership (e_p e)) op _).
  - pose proof (ok_authz_insert op (e_p e) Hok Hd Hc) as H. cbv zeta in H |- *. revert H.
    generalize (<[authz_key op (e_p e) := members_before (membership (e_p e)) op]>
      (if decide (4096 < size (p_authz (e_p e))) then ∅ else p_authz (e_p e))).
    intros M H. eexists _, _. split_and!; [done..|]. exists (op_deps op). split; [by split_and!|].
    rewrite (roster_before_eq (e_p e) op Hc). exact (decide_with_eq (membership (e_p e)) op _).
Qed.
End assignments.

#[export] Hint Resolve ok_set_missing ok_set_cparents ok_set_absorbed ok_set_peer_prekeys
  ok_set_prekeys ok_set_last_version ok_delete_send ok_delete_recv
  keeps_derived keeps_upd : keeps.

(** ** Every method keeps the invariant *)

Lemma evict_versions_bound l m :
  dom m ⊆ list_to_set l -> (N.of_nat (size (evict_versions l m)) <= OVERLAP)%N.
Proof.
  revert m. induction l as [|k l IH]; intros m Hm; simpl.
  - assert (m = ∅) as ->; [|by rewrite map_size_empty].
    apply dom_empty_iff_L. set_solver.
  - destruct (N.ltb_spec OVERLAP (N.of_nat (size m))); [|done].
    apply IH. rewrite dom_delete_L. set_solver.
Qed.

(** A pass over the waiting operations never fails, returns part of them in
    order, and strictly fewer when it accepted one. *)
Lemma drain_round_total {P : Primitives} waiting e :
  exists deferred b out e', drain_round waiting e = (Ok (deferred, b, out), e') /\
    deferred `sublist_of` waiting /\ (b = true -> length deferred < length waiting).
Proof.
  revert e. induction waiting as [|op waiting IH]; intros e; cbn [drain_round].
  { eexists _, _, _, _. split; [reflexivity|done]. }
  rewrite (bind_ok (ask _) _ e (deps_available (e_p e) op) e) by reflexivity.
  destruct (deps_available (e_p e) op); cbn [negb].
  - destruct (attempt (ingest op) e) as [[r|x] e1] eqn:E1.
    2: { unfold attempt in E1. by destruct (ingest op e). }
    rewrite (bind_ok _ _ _ _ _ E1). destruct (IH e1) as (d & b & o & e2 & E2 & Hs & Hb).
    rewrite (bind_ok _ _ _ _ _ E2). pose proof (sublist_length _ _ Hs).
    destruct r; eexists _, _, _, _; (split; [reflexivity|]);
      (split; [by apply sublist_cons|]); simpl; lia.
  - destruct (IH e) as (d & b & o & e2 & E2 & Hs & Hb).
    rewrite (bind_ok _ _ _ _ _ E2). eexists _, _, _, _. split; [reflexivity|].
    split; [by apply sublist_skip|]. intros Hb'. simpl. apply Hb in Hb'. lia.
Qed.

Section publishing.
Context {P : Primitives} {PO : PrimitivesOk P} {fx : Statics}.

Lemma authentic_oid sid op : authentic sid op -> len32 (op_oid op).
Proof. intros (_ & _ & _ & -> & _). apply hash_length. Qed.

Lemma sign_authentic p body : part_ok fx p -> authentic (p_sid p) (sign p body).
Proof.
  intros Hok. split; [done|split; [apply op_create_verifies|split; [done|split; [done|]]]].
  cbn [sign op_create op_deps]. intros d [Hd _]%dag_heads_spec.
  apply elem_of_dom in Hd as [op Hop]. pose proof (ok_ops p Hok d op Hop) as Ha.
  rewrite <- (wf_oid _ (ok_wf p Hok) d op Hop). by eapply authentic_oid.
Qed.

Lemma sign_deps p body : deps_satisfied (p_dag p) (sign p body) = true.
Proof using Type.
  apply deps_satisfied_spec. cbn [sign op_create op_deps]. by intros d [Hd _]%dag_heads_spec.
Qed.

Lemma sign_admitted p body : part_ok fx p -> admitted (st_asked fx) p (sign p body).
Proof using Type. intros Hok. left. symmetry. apply (ok_key p Hok). Qed.

Lemma add_op_keeps_at op e :
  part_ok fx (e_p e) -> authentic (p_sid (e_p e)) op -> deps_satisfied (p_dag (e_p e)) op = true ->
  admitted (st_asked fx) (e_p e) op -> accused op = None -> part_ok fx (e_p (add_op op e).2).
Proof using Type.
  intros Hok Ha Hd Hadm Hn. pose proof (ok_add op (e_p e) Hok Ha Hd Hadm Hn) as H. unfold add_op.
  destruct (dag_add op (p_dag (e_p e))) as [[|] d]; done.
Qed.

(** Signing and storing an operation of one's own. *)
Lemma keeps_publish {B} (body : Participant -> Body) (k : Op -> Mp B) :
  (forall p, accused (sign p (body p)) = None) -> (forall op, keeps (part_ok fx) (k op)) ->
  keeps (part_ok fx) (op ← ask (fun p => sign p (body p)); _ ← add_op op; k op).
Proof.
  intros Hn Hk. apply keeps_ask_bind. intros e He. unfold mbind, M_bind.
  pose proof (add_op_keeps_at (sign (e_p e) (body (e_p e))) e He) as Ha.
  destruct (add_op _ e) as [[a|x] e']; cbn [snd] in *;
    [apply Hk|]; apply Ha; eauto using sign_authentic, sign_deps, sign_admitted.
Qed.

End publishing.

(** [keeps_walk] that also recognises an operation signed and stored. *)
Ltac keeps_run :=
  repeat first
    [ solve [eauto with keeps]
    | progress cbn zeta
    | lazymatch goal with
      | |- keeps _ (ask (fun p => sign p _) ≫= _) => apply keeps_publish; [reflexivity|intros ?]
      | |- keeps _ (_ ≫= _) => apply keeps_bind; [|intros ?]
      | |- keeps _ (attempt _) => apply keeps_attempt
      | |- keeps _ (match ?x with _ => _ end) => destruct x
      end ].

Section methods.
Context {P : Primitives} {PO : PrimitivesOk P} {fx : Statics}.

Lemma keeps_members : keeps (part_ok fx) p_members.
Proof using Type. unfold p_members. keeps_walk. Qed.
Lemma keeps_version : keeps (part_ok fx) p_version.
Proof using Type. unfold p_version. keeps_walk. Qed.
Lemma keeps_frontier : keeps (part_ok fx) p_frontier.
Proof using Type. unfold p_frontier. keeps_walk. Qed.
Lemma keeps_group_key : keeps (part_ok fx) p_group_key.
Proof using Type. unfold p_group_key. keeps_walk. Qed.

Lemma keeps_note_version : keeps (part_ok fx) note_version.
Proof using Type.
  unfold note_version. apply keeps_bind; [apply keeps_derived|]. intros d.
  apply keeps_upd. intros p Hp. apply ok_set_last_version, ok_set_seen; [|done].
  apply evict_versions_bound. intros k. unfold bt_keys.
  by rewrite elem_of_list_to_set, elem_of_bt_elems.
Qed.

Lemma keeps_publish_prekeys : keeps (part_ok fx) publish_prekeys.
Proof. unfold publish_prekeys. apply keeps_publish; [reflexivity|]. keeps_walk. Qed.
#[local] Hint Resolve keeps_members keeps_version keeps_frontier keeps_group_key
  keeps_note_version keeps_publish_prekeys : keeps.

Lemma keeps_rotate_prekeys : keeps (part_ok fx) rotate_prekeys.
Proof. unfold rotate_prekeys. keeps_walk. Qed.

Lemma keeps_absorb op x : keeps (part_ok fx) (absorb op x).
Proof.
  unfold absorb. keeps_walk. apply keeps_upd. intros p Hp.
  apply ok_set_missing, ok_set_absorbed, ok_set_cparents, ok_set_nodekeys; [|done].
  eapply nk_ok_insert; [apply kdf_length|by eapply ok_nodekeys].
Qed.

Lemma keeps_establish v : keeps (part_ok fx) (establish_channel v).
Proof using Type.
  unfold establish_channel. keeps_walk. apply keeps_upd. intros p Hp.
  eapply ok_insert_send; [apply chan_new_on|done].
Qed.

Lemma chan_step_on root c : on_schedule root c -> on_schedule root (chan_step c).2.
Proof using Type.
  intros Hc. unfold chan_step, mbind, M_bind. pose proof (advance_on root c Hc) as Ha.
  destruct (ch_next c =? u64_max)%N; [done|]. by destruct Ha as (c' & -> & Hc' & _).
Qed.

Lemma keeps_step_channel v : keeps (part_ok fx) (step_channel v).
Proof using Type.
  intros e He. unfold step_channel. destruct (p_send (e_p e) !! v) as [c|] eqn:E; [|done].
  destruct (ok_send _ He v c E) as [root Hc]. pose proof (chan_step_on root c Hc) as Hc'.
  destruct (chan_step c) as [r c']. by eapply ok_insert_send.
Qed.
#[local] Hint Resolve keeps_rotate_prekeys keeps_absorb keeps_establish keeps_step_channel
  : keeps.

Lemma keeps_seal_slices x cid ad recips : keeps (part_ok fx) (seal_slices x cid ad recips).
Proof using Type. induction recips as [|v l IH]; cbn [seal_slices]; keeps_walk. Qed.
#[local] Hint Resolve keeps_seal_slices : keeps.

Lemma keeps_contribute exclude : keeps (part_ok fx) (contribute_excluding exclude).
Proof.
  unfold contribute_excluding, chainable_parents. keeps_run.
Qed.
#[local] Hint Resolve keeps_contribute : keeps.

Lemma keeps_mark_missing oid : keeps (part_ok fx) (mark_missing oid).
Proof using Type. unfold mark_missing. auto with keeps. Qed.
#[local] Hint Resolve keeps_mark_missing : keeps.

(** The equivocation branch: sign, check, convict, store. *)
Lemma keeps_accuse op mk seq :
  keeps (part_ok fx) (acc ← ask (fun p => sign p (Accuse (op_author op) (op_oid op) mk seq));
                 proof ← ask (fun p => check_accusation p acc);
                 _ ← (if proof : bool then convict (op_author op) else mret tt);
                 _ ← add_op acc;
                 mret true).
Proof.
  apply keeps_ask_bind. intros e He. unfold mbind, M_bind.
  set (acc := sign (e_p e) (Accuse (op_author op) (op_oid op) mk seq)).
  pose proof (fun g => ok_add_judge acc g (e_p e) He (sign_authentic _ _ He) (sign_deps _ _) (sign_admitted _ _ He)) as Ha.
  rewrite check_accusation_own in Ha. cbn [ask]. destruct (check_accusation (e_p e) acc).
  - specialize (Ha ({[op_author op]} ∪ p_guilty (e_p e))). unfold convict, upd, add_op. cbn [e_p p_dag set_guilty].
    destruct (dag_add acc (p_dag (e_p e))) as [[] d]; cbn [snd] in *;
      (apply Ha; [set_solver|intros who [->%elem_of_singleton|]%elem_of_union; [by right|by left]|];
       intros who _ [= <-]; set_solver).
  - specialize (Ha (p_guilty (e_p e))). unfold add_op, mret, M_ret.
    replace (set_guilty (p_guilty (e_p e)) (set_dag (dag_add acc (p_dag (e_p e))).2 (e_p e)))
      with (set_dag (dag_add acc (p_dag (e_p e))).2 (e_p e)) in Ha by (by destruct (e_p e)).
    destruct (dag_add acc (p_dag (e_p e))) as [[] d]; cbn [snd] in *; (apply Ha; [done|by left|done]).
Qed.
#[local] Hint Resolve keeps_accuse : keeps.

Lemma keeps_open_slice op mk seq ad : keeps (part_ok fx) (open_slice op mk seq ad).
Proof. unfold open_slice. keeps_run. Qed.

Lemma keeps_on_recv {A} author (f : RecvChan -> option A * RecvChan) :
  (forall root c, recv_inv root c -> recv_inv root (f c).2) -> keeps (part_ok fx) (on_recv author f).
Proof using Type.
  intros Hf e He. unfold on_recv. destruct (p_recv (e_p e) !! author) as [st|] eqn:E; [|done].
  destruct (ok_recv _ He author st E) as [root Hr]. apply Hf in Hr.
  destruct (f (rs_chan st)) as [r c]. by eapply ok_insert_recv.
Qed.

Lemma keeps_commit_recv author seq : keeps (part_ok fx) (commit_recv author seq).
Proof using Type.
  intros e He. unfold commit_recv. destruct (p_recv (e_p e) !! author) as [st|] eqn:E; [|done].
  destruct (ok_recv _ He author st E) as [root Hr]. apply (commit_inv root seq) in Hr.
  destruct (commit seq (rs_chan st)) as [r c]. by eapply ok_insert_recv.
Qed.

Lemma keeps_take author : keeps (part_ok fx) (on_recv author take_next).
Proof using Type. apply keeps_on_recv. intros root c. apply take_next_inv. Qed.
Lemma keeps_offer author seq payload : keeps (part_ok fx) (on_recv author (offer seq payload)).
Proof using Type. apply keeps_on_recv. intros root c. apply offer_inv. Qed.
#[local] Hint Resolve keeps_open_slice keeps_commit_recv keeps_take keeps_offer : keeps.

Lemma keeps_drain_channel fuel author : keeps (part_ok fx) (drain_channel fuel author).
Proof. induction fuel; cbn [drain_channel]; keeps_run. Qed.

Lemma keeps_open_channel op est : keeps (part_ok fx) (open_channel op est).
Proof.
  unfold open_channel. keeps_run. apply keeps_upd. intros q Hq.
  eapply ok_insert_recv; [|done]. apply recv_reachable_inv, rr_new.
Qed.
#[local] Hint Resolve keeps_drain_channel keeps_open_channel : keeps.

Lemma keeps_receive op : keeps (part_ok fx) (receive_contribution op).
Proof. unfold receive_contribution. keeps_run. Qed.

(** No accusation is ever parked, so there is none to retry. *)
Lemma retry_nothing e : p_open_accusations (e_p e) = [] -> retry_accusations e = (Ok tt, e).
Proof using Type.
  intros Hp. unfold retry_accusations, ask, upd, mbind, M_bind.
  rewrite Hp. cbn [retry_each]. destruct e as [p t]. cbn [e_p e_tape] in *. destruct p. cbn in Hp. by subst.
Qed.

Lemma keeps_retry : keeps (part_ok fx) retry_accusations.
Proof using Type. intros e He. by rewrite retry_nothing by apply (ok_parked _ He). Qed.
#[local] Hint Resolve keeps_receive keeps_retry : keeps.

Lemma keeps_apply_body op : accused op = None -> keeps (part_ok fx) (apply_body op).
Proof. unfold apply_body, accused. destruct (op_body op); intros Hn; try discriminate Hn; clear Hn; keeps_run. Qed.
#[local] Hint Resolve keeps_apply_body : keeps.

Lemma buffer_keeps op p :
  authentic (p_sid p) op -> st_asked fx (op_deps op) -> part_ok fx p ->
  part_ok fx (if decide (length (p_pending p) < MAX_PENDING)
           then if existsb (op_eqb op) (p_pending p) then p
                else set_pending (p_pending p ++ [op]) p
           else p).
Proof using Type.
  intros Ha Hk Hp. case_decide; [|done]. destruct (existsb _ _); [done|].
  apply ok_set_pending; [|rewrite length_app; simpl; lia| |done]; apply Forall_app.
  - split; [apply (ok_pending p Hp)|by constructor].
  - split; [apply (ok_waiting p Hp)|by constructor].
Qed.

Lemma keeps_settle op :
  accused op = None -> keeps (part_ok fx) (out ← apply_body op; _ ← retry_accusations; mret out).
Proof. intros. keeps_run. Qed.

(** What applying an accusation does. *)
Lemma apply_accusation op who coid p t :
  accused op = Some (who, coid) ->
  apply_body op (mkEnv p t) =
    (Ok [], mkEnv (set_guilty (if check_accusation p op then {[who]} ∪ p_guilty p else p_guilty p) p) t).
Proof using Type.
  unfold accused, apply_body. destruct (op_body op); try discriminate. intros [= -> ->].
  rewrite (bind_ok (ask _) _ _ (check_accusation p op) (mkEnv p t)) by reflexivity.
  destruct (check_accusation p op); [done|]. by destruct p.
Qed.

(** Storing an operation and applying it: an accusation is judged before
    anything else happens. *)
Lemma add_settle_keeps_at op e :
  part_ok fx (e_p e) -> authentic (p_sid (e_p e)) op -> deps_satisfied (p_dag (e_p e)) op = true ->
  admitted (st_asked fx) (e_p e) op ->
  part_ok fx (e_p ((_ ← add_op op; out ← apply_body op; _ ← retry_accusations; mret out) e).2).
Proof.
  intros He Ha Hd Hadm. destruct (accused op) as [[who coid]|] eqn:Eacc.
  - pose proof (fun g => ok_add_judge op g (e_p e) He Ha Hd Hadm) as Hj. rewrite check_accusation_own in Hj.
    set (g := if check_accusation (e_p e) op then {[who]} ∪ p_guilty (e_p e) else p_guilty (e_p e)).
    assert (part_ok fx (set_guilty g (set_dag (dag_add op (p_dag (e_p e))).2 (e_p e)))) as Hg.
    { rewrite Eacc in Hj. cbn [fmap option_fmap option_map fst] in Hj. apply Hj; unfold g; destruct (check_accusation _ _); set_solver. }
    unfold add_op. pose proof (check_accusation_own (e_p e) op) as Hown.
    destruct (dag_add op (p_dag (e_p e))) as [[u|x] d] eqn:E; cbn [snd] in *.
    + set (e1 := mkEnv (set_dag d (e_p e)) (e_tape e)). set (e2 := mkEnv (set_guilty g (set_dag d (e_p e))) (e_tape e)).
      assert ((out ← apply_body op; _ ← retry_accusations; mret out) e1 = (Ok [], e2)) as Hrun.
      { assert (apply_body op e1 = (Ok [], e2)) as Hb.
        { unfold e1. rewrite (apply_accusation op who coid _ _ Eacc), Hown. done. }
        rewrite (bind_ok _ _ _ _ _ Hb), (bind_ok _ _ _ _ _ (retry_nothing e2 (ok_parked _ Hg))). done. }
      rewrite (bind_ok _ _ e tt e1), Hrun; [exact Hg|]. by rewrite E.
    + rewrite (bind_err _ _ e x (mkEnv (set_dag d (e_p e)) (e_tape e))) by (by rewrite E).
      apply dag_add_cases in E as [(_ & _ & ->)|[(_ & _ & ? & _)|(_ & _ & ? & _)]]; [|discriminate..].
      by rewrite set_dag_id.
  - pose proof (add_op_keeps_at op e He Ha Hd Hadm Eacc) as H1. destruct (add_op op e) as [[u|x] e1] eqn:E.
    + rewrite (bind_ok _ _ _ _ _ E). by apply keeps_settle.
    + rewrite (bind_err _ _ _ _ _ E). done.
Qed.

(** The accepted branch of [ingest]. *)
Lemma admit_keeps_at op e :
  part_ok fx (e_p e) -> authentic (p_sid (e_p e)) op -> st_asked fx (op_deps op) ->
  dag_contains (p_dag (e_p e)) (op_oid op) = false -> deps_available (e_p e) op = true ->
  part_ok fx (e_p ((verdict ← p_authorised op;
                 if negb verdict then fail NotAMember else
                 _ ← add_op op;
                 out ← apply_body op; _ ← retry_accusations; mret out) e).2).
Proof.
  intros He Ha Hk Hc Hd.
  destruct (p_authorised_keeps_at op e He Hk Hc) as (v & e' & Hv & He' & Hp & _ & deps & Ht & Hver).
  rewrite (bind_ok _ _ _ _ _ Hv). destruct v; cbn [negb]; [|exact He'].
  assert (admitted (st_asked fx) (e_p e) op) as Hadm.
  { right. exists deps. split; [done|]. exists (p_dag (e_p e)), (p_guilty (e_p e)). by split_and!. }
  apply add_settle_keeps_at; [done|rewrite Hp..]; [exact Ha|exact Hd|exact Hadm].
Qed.

Lemma keeps_ingest op : built op -> st_asked fx (op_deps op) -> keeps (part_ok fx) (ingest op).
Proof.
  intros Hb Hk. unfold ingest. apply keeps_ask_bind. intros e He.
  case_decide as Hs; [exact He|].
  destruct (op_verify op) as [[]|x] eqn:Ev; [|exact He].
  rewrite (bind_ok (lift (Ok tt)) _ e tt e) by reflexivity.
  rewrite (bind_ok (ask _) _ e (dag_contains (p_dag (e_p e)) (op_oid op)) e) by reflexivity.
  destruct (dag_contains (p_dag (e_p e)) (op_oid op)) eqn:Ec; [exact He|].
  rewrite (bind_ok (ask _) _ e (deps_available (e_p e) op) e) by reflexivity.
  assert (authentic (p_sid (e_p e)) op) as Ha by (split; [exact Hs|split; [exact Ev|exact Hb]]).
  destruct (deps_available (e_p e) op) eqn:Ed; cbn [negb].
  - by apply admit_keeps_at.
  - exact (buffer_keeps op (e_p e) Ha Hk He).
Qed.
#[local] Hint Resolve keeps_ingest : keeps.

(** Operations as they are read, whose dependency sets are among those asked
    about. *)
Definition presented (ops : list Op) : Prop := Forall (fun op => built op /\ st_asked fx (op_deps op)) ops.

Lemma keeps_drain_round waiting :
  presented waiting -> keeps (part_ok fx) (drain_round waiting).
Proof.
  induction 1 as [|op waiting [Hop Hk] Hw IH]; cbn [drain_round]; keeps_run.
Qed.

Lemma drain_loop_keeps fuel waiting e :
  Forall (authentic (st_sid fx)) waiting -> length waiting <= MAX_PENDING ->
  Forall (fun op => st_asked fx (op_deps op)) waiting ->
  part_ok fx (e_p e) -> part_ok fx (e_p (drain_loop fuel waiting e).2).
Proof.
  revert waiting e. induction fuel as [|fuel IH]; intros waiting e Hw Hl Hk He; [exact He|].
  cbn [drain_loop].
  assert (presented waiting) as Hb.
  { apply Forall_and. split; [|done]. eapply Forall_impl; [exact Hw|by intros op (_ & _ & ?)]. }
  pose proof (keeps_drain_round waiting Hb e He) as H1.
  destruct (drain_round_total waiting e) as (d & b & o & e1 & E & Hs & _).
  rewrite (bind_ok _ _ _ _ _ E). rewrite E in H1. cbn [snd] in H1.
  pose proof (sublist_length _ _ Hs) as Hlen.
  assert (Forall (authentic (st_sid fx)) d) as Hd by by eapply sublist_Forall.
  assert (Forall (fun op => st_asked fx (op_deps op)) d) as Hkd by by eapply sublist_Forall.
  destruct b; cbn [negb].
  - assert (length d <= MAX_PENDING) as Hld by lia. specialize (IH d e1 Hd Hld Hkd H1).
    unfold mbind, M_bind. destruct (drain_loop fuel d e1) as [[]]; exact IH.
  - apply (ok_set_pending d (e_p e1)); [|lia|exact Hkd|exact H1].
    rewrite <- (ok_statics _ H1) in Hd. exact Hd.
Qed.

Lemma keeps_drain_pending : keeps (part_ok fx) drain_pending.
Proof.
  unfold drain_pending. apply keeps_ask_bind. intros e He.
  rewrite (bind_ok (upd _) _ e tt (mkEnv (set_pending [] (e_p e)) (e_tape e))) by reflexivity.
  apply drain_loop_keeps.
  - rewrite <- (ok_statics _ He). apply (ok_pending _ He).
  - apply (ok_pending_len _ He).
  - apply (ok_waiting _ He).
  - apply ok_set_pending; [constructor|simpl; lia|constructor|exact He].
Qed.

Lemma keeps_ingest_batch ops : presented ops -> keeps (part_ok fx) (ingest_batch ops).
Proof. induction 1 as [|op ops [Hb Hk] _ IH]; cbn [ingest_batch]; keeps_run. Qed.

Lemma keeps_ingest_history ops : presented ops -> keeps (part_ok fx) (ingest_history ops).
Proof. induction 1 as [|op ops [Hb Hk] _ IH]; cbn [ingest_history]; keeps_run. Qed.

Lemma keeps_seal_envelope label ad to gen pk payload :
  keeps (part_ok fx) (seal_envelope label ad to gen pk payload).
Proof using Type. unfold seal_envelope. keeps_run. Qed.
#[local] Hint Resolve keeps_drain_pending keeps_ingest_batch keeps_ingest_history
  keeps_seal_envelope : keeps.

Lemma keeps_answer to nodes : keeps (part_ok fx) (answer_node_keys_for to nodes).
Proof using Type. unfold answer_node_keys_for. keeps_run. Qed.

(** Entries of a sealed payload. *)
Definition entry_valid (en : Oid * bytes) : Prop := len32 en.1 /\ len32 en.2.
Definition entry_image (en : Oid * bytes) : bytes := bytes_image en.1 ++ bytes_image en.2.

#[export] Instance entry_read_lawful : Lawful entry_valid entry_image entry_read.
Proof using Type.
  split.
  - intros [o k] pre post [Ho Hk]. unfold entry_read, entry_image. cbn [fst snd] in *.
    rewrite <- !app_assoc. do 2 rd_step. rd_done.
  - intros pre rest en r' H. unfold entry_read in H. do 2 rd_inv H. injection H as <- <-.
    split; [split; by apply array_len32|]. eexists. unfold entry_image. cbn [fst snd].
    by rewrite <- !app_assoc.
Qed.

Lemma ok_store_entry want en p :
  entry_valid en -> part_ok fx p -> part_ok fx (store_entry want en p).
Proof using Type.
  intros [_ Hk] Hp. unfold store_entry. destruct en as [oid key]. destruct (bool_decide _); [|exact Hp].
  apply ok_set_missing, ok_set_absorbed, ok_set_nodekeys; [|exact Hp].
  eapply nk_ok_insert; [exact Hk|by eapply ok_nodekeys].
Qed.

Lemma ok_seed_entry en p : entry_valid en -> part_ok fx p -> part_ok fx (seed_entry en p).
Proof using Type.
  intros [_ Hk] Hp. apply ok_set_absorbed, ok_set_nodekeys; [|exact Hp].
  eapply nk_ok_insert; [exact Hk|by eapply ok_nodekeys].
Qed.

Lemma ok_foldl {A} (V : A -> Prop) (f : Participant -> A -> Participant) (l : list A) p :
  (forall q a, V a -> part_ok fx q -> part_ok fx (f q a)) -> Forall V l ->
  part_ok fx p -> part_ok fx (foldl f p l).
Proof using Type.
  intros Hf Hl. revert p. induction Hl as [|a l Ha Hl IH]; intros p Hp; simpl; auto.
Qed.

Lemma keeps_absorb_node_keys from sealed : keeps (part_ok fx) (absorb_node_keys from sealed).
Proof using Type.
  unfold absorb_node_keys. apply keeps_bind; [apply keeps_members|]. intros ms.
  destruct (negb _); [apply keeps_fail|]. do 3 (apply keeps_bind; [apply keeps_ask|intros ?]).
  apply keeps_bind; [apply keeps_lift|]. intros plain.
  apply keeps_bind; [apply keeps_frontier|]. intros want e He.
  destruct (parse_nodekey_payload plain) as [entries|x] eqn:E; [|exact He].
  apply (run_reader_ok (f := reader_list entry_read)) in E as [[HF _] _].
  apply (ok_foldl entry_valid); [|exact HF|exact He]. intros q en. apply ok_store_entry.
Qed.

Lemma keeps_validate_record r : keeps (part_ok fx) (validate_checkpoint_record r).
Proof using Type. unfold validate_checkpoint_record. keeps_run. Qed.
#[local] Hint Resolve keeps_answer keeps_absorb_node_keys keeps_validate_record : keeps.

Lemma keeps_validate c : keeps (part_ok fx) (validate_checkpoint c).
Proof using Type. unfold validate_checkpoint. keeps_run. Qed.
#[local] Hint Resolve keeps_validate : keeps.

Lemma op_valid_built op : op_valid op -> built op.
Proof using Type.
  intros (_ & _ & [Hd _] & _ & _ & Hi & Ho). split; [exact Hi|split; [exact Ho|exact Hd]].
Qed.

Lemma ops_valid_built l : ops_valid l -> Forall built l.
Proof using Type.
  intros [HF _]. eapply Forall_impl; [exact HF|]. intros op [Hv _]. by apply op_valid_built.
Qed.

(** The operations a message hands to [dispatch]. *)
Definition ops_of (m : Message) : list Op :=
  match m with MOp op => [op] | MDeliver ops _ => ops | _ => [] end.

Lemma ops_of_built m : message_valid m -> Forall built (ops_of m).
Proof using Type.
  destruct m; cbn [message_valid ops_of]; intros H; try apply Forall_nil_2.
  - apply Forall_singleton, op_valid_built, H.
  - apply ops_valid_built, H.
Qed.

Definition heard (m : Message) : Prop := Forall (fun op => st_asked fx (op_deps op)) (ops_of m).

Lemma keeps_dispatch m : message_valid m -> heard m -> keeps (part_ok fx) (dispatch m).
Proof.
  intros HV HH. assert (presented (ops_of m)) as Hp by (apply Forall_and; split; [by apply ops_of_built|exact HH]).
  destruct m; cbn [dispatch ops_of] in *; try solve [keeps_run].
  apply Forall_singleton in Hp as [Hb Hk]. pose proof (keeps_ingest op Hb Hk). keeps_run.
Qed.

Lemma from_wire_valid buf m : message_from_wire buf = Ok m -> message_valid m.
Proof using Type.
  intros (r' & H & _)%run_reader_inv. by apply message_read_sound in H as [Hv _].
Qed.

(** The operations a byte string carries, when it is a message. *)
Definition ops_in (wire : bytes) : list Op :=
  match message_from_wire wire with Ok m => ops_of m | Err _ => [] end.

Lemma keeps_handle wire :
  Forall (fun op => st_asked fx (op_deps op)) (ops_in wire) -> keeps (part_ok fx) (handle wire).
Proof.
  unfold handle, ops_in. destruct (message_from_wire wire) as [m|x] eqn:E; [|by intros _ e].
  apply from_wire_valid in E. intros HH. pose proof (keeps_dispatch m E HH).
  intros e He. rewrite (bind_ok (lift (Ok m)) _ e m e) by reflexivity.
  revert e He. match goal with |- forall e, _ -> part_ok fx (e_p (?k e).2) =>
    change (keeps (part_ok fx) k) end.
  unfold can_derive. keeps_run.
Qed.

Lemma keeps_invite kp : keeps (part_ok fx) (invite kp).
Proof. unfold invite, contribute. keeps_run. Qed.

Lemma keeps_remove who : keeps (part_ok fx) (remove who).
Proof. unfold remove. keeps_run. Qed.

Lemma keeps_leave : keeps (part_ok fx) leave.
Proof. unfold leave. keeps_run. Qed.

Lemma keeps_repair : keeps (part_ok fx) repair_request.
Proof. unfold repair_request. keeps_run. Qed.

Lemma keeps_found : keeps (part_ok fx) found.
Proof. unfold found, contribute. keeps_run. Qed.

Lemma keeps_join node_keys history :
  Forall entry_valid node_keys -> presented history ->
  keeps (part_ok fx) (join node_keys history).
Proof.
  intros Hn Hh. unfold join. apply keeps_bind.
  { apply keeps_upd. intros p Hp. apply (ok_foldl entry_valid); [|exact Hn|exact Hp].
    intros q en. apply ok_seed_entry. }
  intros _. keeps_run. apply keeps_upd. intros p Hp. unfold rebuild_contribution_parents.
  apply (ok_foldl (fun _ => True)); [|by apply Forall_true|exact Hp].
  intros q [oid cp] _. apply ok_set_cparents.
Qed.
End methods.
