(* ===== verification/MemberProps.v ===== *)
(** * What a participant guarantees

    [reachable] closes founding and joining under every public method, with any
    input and any entropy, failed calls included.  The theorems are stated for
    reachable participants: the invariant of [MemberInv], the transparency of
    the memos, the branches of [ingest], repair, beacons, termination of the
    two open-ended loops, and a complete run of two participants. *)

From Stdlib Require Import NArith Lia.
From S2P Require Import Prelude Crypto Toy Codec Ops Dag Membership Keys Channel Prekey Checkpoint Wire Member MemberInv.

(** ** Calls *)

Inductive Call :=
| CHandle (wire : bytes)
| CContribute
| CContributeExcluding (exclude : gset SigPublic)
| CInvite (kp : KeyPackage)
| CRemove (who : SigPublic)
| CLeave
| CPublishPrekeys
| CRotatePrekeys
| CTick
| CRepairRequest
| CNeedsRepair
| CMembers
| CVersion
| CFrontier
| CGroupKey
| CCanDerive
| CBeacon
| CRemovalComplete (who : SigPublic)
| CPrepare (next : SessionId) (epoch : N) (profile : ProtocolProfile)
| CApprove (record : ResumptionRecord)
| COffer (certificate : CheckpointCertificate).

Definition ignore {A} (m : Mp A) : Mp unit := _ ← m; mret tt.

Section reachability.
Context {P : Primitives}.

Definition run_call (c : Call) : Mp unit :=
  match c with
  | CHandle wire => ignore (handle wire)
  | CContribute => ignore contribute
  | CContributeExcluding exclude => ignore (contribute_excluding exclude)
  | CInvite kp => ignore (invite kp)
  | CRemove who => ignore (remove who)
  | CLeave => ignore leave
  | CPublishPrekeys => ignore publish_prekeys
  | CRotatePrekeys => ignore rotate_prekeys
  | CTick => upd p_tick
  | CRepairRequest => ignore repair_request
  | CNeedsRepair => ignore needs_repair
  | CMembers => ignore p_members
  | CVersion => ignore p_version
  | CFrontier => ignore p_frontier
  | CGroupKey => ignore p_group_key
  | CCanDerive => ignore can_derive
  | CBeacon => ignore beacon
  | CRemovalComplete who => ignore (removal_complete who)
  | CPrepare next epoch profile => ignore (prepare_checkpoint next epoch profile)
  | CApprove record => ignore (approve_checkpoint record)
  | COffer certificate => ignore (offer_checkpoint certificate)
  end.

(** Participants the interface can produce. *)
Inductive reachable : Participant -> Prop :=
| reach_create policy t p out t' : create policy t = (Ok (p, out), t') -> reachable p
| reach_accept j wire t p out t' : accept_welcome j wire t = (Ok (p, out), t') -> reachable p
| reach_call p c t r e : reachable p -> run_call c (mkEnv p t) = (r, e) -> reachable (e_p e).

(** The operations that a call presents, and those of a welcome. *)
Definition presents (c : Call) : list Op := match c with CHandle wire => ops_in wire | _ => [] end.
Definition welcome_ops (wire : bytes) : list Op :=
  match message_from_wire wire with Ok (MWelcome _ _ _ history _) => history | _ => [] end.

(** The same, with the operations that were presented on the way. *)
Inductive reached : list Op -> Participant -> Prop :=
| reached_create policy t p out t' : create policy t = (Ok (p, out), t') -> reached [] p
| reached_accept j wire t p out t' : accept_welcome j wire t = (Ok (p, out), t') -> reached (welcome_ops wire) p
| reached_call l p c t r e :
    reached l p -> run_call c (mkEnv p t) = (r, e) -> reached (l ++ presents c) (e_p e).

Lemma reached_reachable l p : reached l p -> reachable p.
Proof. induction 1; [by eapply reach_create|by eapply reach_accept|by eapply reach_call]. Qed.

Lemma reachable_reached p : reachable p -> exists l, reached l p.
Proof.
  induction 1 as [| |p c t r e _ [l IH] H]; eexists; [by eapply reached_create|by eapply reached_accept|].
  by eapply reached_call.
Qed.

(** The dependency sets of the operations presented, and that the digest which
    keys the verdict memo tells these apart. *)
Definition deps_of (l : list Op) : gset Oid -> Prop := fun deps => exists op, op ∈ l /\ op_deps op = deps.
Definition separate (l : list Op) : Prop := told_apart (deps_of l).

Lemma deps_of_all l : Forall (fun op => deps_of l (op_deps op)) l.
Proof. apply Forall_forall. intros op Hop. by exists op. Qed.

Lemma separate_check l :
  forallb (fun a => forallb (fun b => bool_decide (authz_digest (op_deps a) = authz_digest (op_deps b) -> op_deps a = op_deps b)) l) l = true ->
  separate l.
Proof.
  rewrite forallb_forall. intros H x y (a & Ha%list_elem_of_In & <-) (b & Hb%list_elem_of_In & <-).
  specialize (H a Ha). rewrite forallb_forall in H. specialize (H b Hb). by apply bool_decide_eq_true in H.
Qed.
End reachability.

(** ** Sealed payloads *)

Definition welcome_valid (v : bytes * list (Oid * bytes)) : Prop :=
  len32 v.1 /\ list_valid entry_valid v.2.
Definition welcome_image (v : bytes * list (Oid * bytes)) : bytes :=
  bytes_image v.1 ++ list_image entry_image v.2.

#[export] Instance read_welcome_lawful :
  Lawful welcome_valid welcome_image read_welcome_payload.
Proof.
  split.
  - intros [s l] pre post [Hs Hl]. unfold read_welcome_payload, welcome_image.
    cbn [fst snd] in *. rewrite <- !app_assoc. do 2 rd_step. rd_done.
  - intros pre rest v r' H. unfold read_welcome_payload in H. do 2 rd_inv H.
    injection H as <- <-. split; [split; [by apply array_len32|done]|].
    eexists. unfold welcome_image. cbn [fst snd]. by rewrite <- !app_assoc.
Qed.

Lemma entry_write_buf en w : w_buf (entry_write en w) = w_buf w ++ entry_image en.
Proof.
  unfold entry_write, entry_image. autorewrite with cfr_writer. by rewrite <- app_assoc.
Qed.
Lemma build_nodekey_image entries : build_nodekey_payload entries = list_image entry_image entries.
Proof.
  unfold build_nodekey_payload, writer_finish. by rewrite (w_buf_list _ _ _ _ entry_write_buf).
Qed.
Lemma build_welcome_image seed0 entries :
  build_welcome_payload seed0 entries = welcome_image (seed0, entries).
Proof.
  unfold build_welcome_payload, writer_finish. rewrite (w_buf_list _ _ _ _ entry_write_buf).
  by autorewrite with cfr_writer.
Qed.

(** The payloads sealed in welcomes and repair responses are read back
    exactly: the parsers accept a byte string if and only if it is what the
    builders write for the values returned, with all identifiers and keys of
    full width. *)
Theorem payloads_exact buf seed0 entries :
  (parse_welcome_payload buf = Ok (seed0, entries) <->
   welcome_valid (seed0, entries) /\ buf = build_welcome_payload seed0 entries) /\
  (parse_nodekey_payload buf = Ok entries <->
   list_valid entry_valid entries /\ buf = build_nodekey_payload entries).
Proof.
  rewrite build_welcome_image, build_nodekey_image. split.
  - apply (run_reader_ok (f := read_welcome_payload)).
  - apply (run_reader_ok (f := reader_list entry_read)).
Qed.

Section invariant.
Context {P : Primitives} {PO : PrimitivesOk P}.

Section calls.
Context {fx : Statics}.
#[local] Hint Resolve keeps_members keeps_version keeps_frontier keeps_group_key
  keeps_note_version keeps_publish_prekeys keeps_rotate_prekeys keeps_contribute
  keeps_validate keeps_validate_record keeps_handle keeps_invite keeps_remove keeps_leave
  keeps_repair : keeps.

Lemma keeps_call c :
  Forall (fun op => st_asked fx (op_deps op)) (presents c) -> keeps (part_ok fx) (run_call c).
Proof.
  destruct c; cbn [run_call presents]; intros Hh;
    unfold ignore, contribute, needs_repair, can_derive, beacon, removal_complete,
      prepare_checkpoint, approve_checkpoint, offer_checkpoint; try solve [keeps_run].
  apply keeps_upd. intros p Hp. by apply ok_set_prekeys.
Qed.
End calls.

Lemma new_ok identity sid policy seed0 pool asked :
  part_ok (mkStatics identity sid policy seed0 dag_new ∅ asked)
    (participant_new identity sid policy seed0 pool).
Proof using Type.
  split; cbn [participant_new p_dag p_guilty p_pending p_nodekeys p_seen_versions p_send
    p_recv].
  - reflexivity.
  - done.
  - done.
  - reflexivity.
  - apply dag_new_wf.
  - intros o op. unfold dag_new. cbn [dag_ops]. by rewrite lookup_empty.
  - intros o op. unfold dag_new. cbn [dag_ops]. by rewrite lookup_empty.
  - intros o op. unfold dag_new. cbn [dag_ops]. by rewrite lookup_empty.
  - intros who. by rewrite elem_of_empty.
  - intros o acc who coid. unfold participant_new, dag_new. cbn [p_dag dag_ops]. by rewrite lookup_empty.
  - reflexivity.
  - constructor.
  - simpl. lia.
  - constructor.
  - split; [apply nk_with_capacity_inv|]. split; [done|]. intros o k.
    cbn [nk_default nk_with_capacity nk_keys]. by rewrite lookup_empty.
  - rewrite map_size_empty. unfold OVERLAP. lia.
  - intros v c. by rewrite lookup_empty.
  - intros v c. by rewrite lookup_empty.
  - intros dv. unfold participant_new. cbn [p_derived]. congruence.
  - intros dg ep g past. unfold participant_new. cbn [p_authz]. by rewrite lookup_empty.
Qed.

Lemma run_on_ok {A} fx (m : Mp A) p t p' a t' :
  keeps (part_ok fx) m -> part_ok fx p -> run_on p m t = (Ok (p', a), t') -> part_ok fx p'.
Proof using Type.
  intros Hm Hp. unfold run_on. specialize (Hm (mkEnv p t) Hp).
  destruct (m (mkEnv p t)) as [[x|x] e]; [|done]. by intros [= <- <- <-].
Qed.

Lemma reached_ok asked l p :
  reached l p -> Forall (fun op => asked (op_deps op)) l ->
  part_ok (statics_for asked (p_dag p) (p_guilty p) p) p.
Proof.
  assert (forall fx q, st_asked fx = asked -> part_ok fx q -> part_ok (statics_for asked (p_dag q) (p_guilty q) q) q) as Hfx.
  { intros fx q <-. by apply part_ok_rebase. }
  induction 1 as [policy t p out t' H|j wire t p out t' H|l p c t r e Hr IH H]; intros Hl.
  - unfold create in H. do 4 inv_bind H.
    eapply (Hfx (mkStatics _ _ _ _ dag_new ∅ asked)); [done|].
    eapply run_on_ok; [apply keeps_found|apply new_ok|exact H].
  - unfold accept_welcome in H. inv_bind H.
    destruct a as [op|sid from sealed history pruned|from hs|os pr|from ns|from se|c];
      [discriminate H| |discriminate H..]. do 2 inv_bind H.
    destruct a0 as [seed0 nks]. injection Hm as Hm _. unfold welcome_ops in Hl. rewrite Hm in Hl.
    apply from_wire_valid in Hm.
    injection Hm1 as Hm1 _. apply (run_reader_ok (f := read_welcome_payload)) in Hm1 as [[_ [HF _]] _].
    eapply (Hfx (mkStatics _ _ _ _ dag_new ∅ asked)); [done|]. eapply run_on_ok; [|apply new_ok|exact H].
    apply keeps_join; [exact HF|]. apply Forall_and. split; [apply ops_valid_built, Hm|exact Hl].
  - apply Forall_app in Hl as [Hl Hc].
    pose proof (keeps_call (fx := statics_for asked (p_dag p) (p_guilty p) p) c Hc (mkEnv p t) (IH Hl)) as Hk.
    rewrite H in Hk. by apply (Hfx (statics_for asked (p_dag p) (p_guilty p) p)).
Qed.

Lemma anything_all l : Forall (fun op => anything (op_deps op)) l.
Proof using Type. apply Forall_true. by intros op. Qed.
#[local] Hint Resolve anything_all : core.

(** Where nothing that is presented is left out. *)
Lemma asked_all {fx} l : (forall deps, st_asked fx deps) -> Forall (fun op => st_asked fx (op_deps op)) l.
Proof using Type. intros H. apply Forall_true. intros op. apply H. Qed.

Lemma presented_all {fx} l : (forall deps, st_asked fx deps) -> Forall built l -> presented (fx := fx) l.
Proof using Type. intros H Hl. apply Forall_and. split; [done|by apply asked_all]. Qed.

Lemma reachable_ok p : reachable p -> part_ok (statics p) p.
Proof. intros [l Hl]%reachable_reached. by apply (reached_ok anything l). Qed.

Lemma reached_own l p : reached l p -> part_ok (statics_for (deps_of l) (p_dag p) (p_guilty p) p) p.
Proof. intros Hl. apply (reached_ok (deps_of l) l p Hl), deps_of_all. Qed.

Lemma reached_more l op p : reached l p -> part_ok (statics_for (deps_of (op :: l)) (p_dag p) (p_guilty p) p) p.
Proof.
  intros Hl. apply (reached_ok (deps_of (op :: l)) l p Hl).
  pose proof (deps_of_all (op :: l)) as H. by apply Forall_cons in H as [_ H].
Qed.

Lemma deps_of_head l op : deps_of (op :: l) (op_deps op).
Proof using Type. exists op. split; [apply list_elem_of_here|done]. Qed.

(** C1. In every participant that can be reached, whatever was received,
    whoever sent it and whichever calls failed: the graph is closed and acyclic,
    records the signed dependencies, and holds only operations of this session
    whose signatures verify; a conviction has a checkable proof; the buffer, the
    key store and the version history respect their bounds; channels stand on
    their key schedules; the memo of derived values is right, and the verdict
    memo holds, under the digest of a dependency set that was presented, the
    roster which that set defines.  When the digest tells the dependency sets
    of the operations presented apart, every operation in the graph is the
    participant's own or was authorised by the graph and the convictions that
    were there when it came. *)
Theorem participant_invariant l p :
  reached l p ->
  part_ok (statics_for (deps_of l) (p_dag p) (p_guilty p) p) p /\
  (separate l -> forall o op, dag_ops (p_dag p) !! o = Some op ->
     op_author op = p_ipk p \/
     exists d g, dag_extends d (p_dag p) /\ g ⊆ p_guilty p /\ deps_satisfied d op = true
       /\ authorised (mkMembership d (p_policy p) g) op = true).
Proof.
  intros Hp%reached_own. split; [exact Hp|]. intros Hs o op Ho.
  exact (admitted_authorised _ p op Hs (ok_admitted p Hp o op Ho)).
Qed.

(** C14. No call ever removes or rewrites history: whatever a call does, and
    also when it fails, the graph keeps every operation with its recorded
    parents, convictions stand, and the identity, the session, the policy and
    the seed do not change. *)
Theorem history_grows p c t r e :
  reachable p -> run_call c (mkEnv p t) = (r, e) ->
  dag_extends (p_dag p) (p_dag (e_p e)) /\ p_guilty p ⊆ p_guilty (e_p e) /\
  statics_at dag_new ∅ (e_p e) = statics_at dag_new ∅ p.
Proof.
  intros Hp%reachable_ok H. pose proof (keeps_call (fx := statics p) c (anything_all _) (mkEnv p t) Hp) as Hk. rewrite H in Hk.
  destruct Hk as [Hs Hb Hc]. split; [exact Hb|split; [exact Hc|]].
  injection Hs as H1 H2 H3 H4. unfold statics_at, statics_for. by rewrite H1, H2, H3, H4.
Qed.

Lemma memo_values fx p t :
  part_ok fx p ->
  let m := membership p in
  let f := frontier (p_dag p) in
  let e := mkEnv p t in
  (p_members e).1 = Ok (members m) /\ (p_frontier e).1 = Ok f /\
  (p_version e).1 = Ok (version_of f (root m)) /\
  (p_group_key e).1 = Ok (group_key (p_seed0 p) f (root m) (p_nodekeys p)).
Proof using Type.
  intros Hp m f e. destruct (derived_spec e Hp) as (e' & Hd & Hp' & He & _).
  split_and!.
  - unfold p_members. by rewrite (bind_ok _ _ _ _ _ Hd).
  - unfold p_frontier. by rewrite (bind_ok _ _ _ _ _ Hd).
  - unfold p_version. by rewrite (bind_ok _ _ _ _ _ Hd).
  - unfold p_group_key. rewrite (bind_ok _ _ _ _ _ Hd). unfold ask. cbn [fst].
    by destruct He as [->| ->].
Qed.

(** C13. The memos never change an answer: in every participant that can be
    reached, the roster, the frontier, the version and the group key are those
    recomputed from the graph and the convictions, whatever was cached before;
    and so is the verdict on an operation, when the digest that keys the verdict
    memo tells the dependency sets of this operation and of those presented
    before apart. *)
Theorem memos_transparent l p t :
  reached l p ->
  let m := membership p in
  let f := frontier (p_dag p) in
  let e := mkEnv p t in
  (p_members e).1 = Ok (members m) /\ (p_frontier e).1 = Ok f /\
  (p_version e).1 = Ok (version_of f (root m)) /\
  (p_group_key e).1 = Ok (group_key (p_seed0 p) f (root m) (p_nodekeys p)) /\
  (forall op, op_oid op ∉ dom (dag_ops (p_dag p)) -> separate (op :: l) ->
     (p_authorised op e).1 = Ok (authorised m op)).
Proof.
  intros Hl m f e. destruct (memo_values _ p t (reached_own _ _ Hl)) as (H1 & H2 & H3 & H4).
  split_and!; [exact H1|exact H2|exact H3|exact H4|].
  intros op Hn Hs. apply not_elem_of_dom, dag_contains_false in Hn.
  destruct (p_authorised_keeps_at op e (reached_more l op p Hl) (deps_of_head l op) Hn)
    as (v & e1 & Hv & _ & _ & _ & deps & Ht & ->).
  rewrite Hv. cbn [fst]. rewrite (taken_for_own _ _ _ Hs Ht). f_equal. exact (verdict_on_self m op Hn).
Qed.

(** ** Accepting an operation *)

(** Buffering, with its bound and without repetition. *)
Definition buffered (op : Op) (p : Participant) : Participant :=
  if decide (length (p_pending p) < MAX_PENDING)
  then if existsb (op_eqb op) (p_pending p) then p else set_pending (p_pending p ++ [op]) p
  else p.

Lemma admit_stores fx op e r e' :
  part_ok fx (e_p e) -> authentic (p_sid (e_p e)) op ->
  dag_contains (p_dag (e_p e)) (op_oid op) = false -> deps_available (e_p e) op = true ->
  (dag_len (p_dag (e_p e)) < MAX_OPS)%N -> admitted (st_asked fx) (e_p e) op ->
  (_ ← add_op op; out ← apply_body op; _ ← retry_accusations; mret out) e = (r, e') ->
  dag_ops (p_dag (e_p e')) !! op_oid op = Some op.
Proof.
  intros He Ha Hc Hd Hl Hadm H.
  destruct (dag_add op (p_dag (e_p e))) as [ra d] eqn:E.
  apply dag_contains_false in Hc.
  pose proof E as [(? & _)|[(_ & [? ?]%elem_of_dom & _)|(_ & _ & -> & Hops & _)]]%dag_add_cases;
    [lia|congruence|].
  set (e1 := mkEnv (set_dag d (e_p e)) (e_tape e)).
  assert (add_op op e = (Ok tt, e1)) as Hadd by (unfold add_op; by rewrite E).
  rewrite (bind_ok _ _ _ _ _ Hadd) in H.
  assert (dag_ops d !! op_oid op = Some op) as Hin by (rewrite Hops; apply lookup_insert_eq).
  destruct (accused op) as [[who coid]|] eqn:Eacc.
  - unfold e1 in H. rewrite (bind_ok _ _ _ _ _ (apply_accusation op who coid _ _ Eacc)) in H.
    match type of H with ((_ ≫= _) ?e2 = _) =>
      rewrite (bind_ok _ _ _ _ _ (retry_nothing e2 (ok_parked _ He))) in H end. by injection H as _ <-.
  - pose proof (ok_add op (e_p e) He Ha Hd Hadm Eacc) as Hok. rewrite E in Hok. cbn [snd] in Hok.
    assert (part_ok (statics (e_p e1)) (e_p e1)) as Hok1 by (by apply (part_ok_rebase anything (fx := fx))).
    pose proof (keeps_settle op Eacc e1 Hok1) as Hk. rewrite H in Hk. cbn [snd] in Hk.
    eapply lookup_weaken; [exact Hin|]. apply (ok_base _ Hk).
Qed.

(** Storing and applying, what [ingest] does with an operation it admits. *)
Definition admit_op (op : Op) : Mp (list Outbound) :=
  _ ← add_op op; out ← apply_body op; _ ← retry_accusations; mret out.

(** [ingest] once the session and the signature are right. *)
Lemma ingest_checked p t op :
  op_sid op = p_sid p -> op_verify op = Ok tt ->
  ingest op (mkEnv p t) =
    if dag_contains (p_dag p) (op_oid op) then (Ok [], mkEnv p t)
    else if negb (deps_satisfied (p_dag p) op) then (Ok [], mkEnv (buffered op p) t)
    else (verdict ← p_authorised op; if negb verdict then fail NotAMember else admit_op op) (mkEnv p t).
Proof using Type.
  intros Hs Hv. set (e := mkEnv p t). unfold ingest. rewrite (bind_ok (ask _) _ e (p_sid p) e) by reflexivity.
  rewrite decide_False by (intros Hn; by apply Hn). rewrite Hv.
  rewrite (bind_ok (lift (Ok tt)) _ e tt e) by reflexivity.
  rewrite (bind_ok (ask _) _ e (dag_contains (p_dag p) (op_oid op)) e) by reflexivity.
  destruct (dag_contains (p_dag p) (op_oid op)); [done|].
  rewrite (bind_ok (ask _) _ e (deps_available p op) e) by reflexivity.
  change (deps_available p op) with (deps_satisfied (p_dag p) op). by destruct (deps_satisfied (p_dag p) op).
Qed.

(** An authentic, new operation with its dependencies present comes down to the
    verdict, given for dependencies that pass for its own. *)
Lemma ingest_verdict fx p t op :
  part_ok fx p -> authentic (p_sid p) op -> st_asked fx (op_deps op) ->
  op_oid op ∉ dom (dag_ops (p_dag p)) -> op_deps op ⊆ dom (dag_ops (p_dag p)) ->
  exists c deps, taken_for (st_asked fx) op deps /\ part_ok fx (set_authz c p) /\
    ingest op (mkEnv p t) =
      (if verdict_on (membership p) op deps then admit_op op else fail NotAMember) (mkEnv (set_authz c p) t).
Proof.
  intros Hp (Hs & Hv & Hb) Hk Hni Hd. set (e := mkEnv p t).
  apply not_elem_of_dom, dag_contains_false in Hni. apply deps_satisfied_spec in Hd.
  unfold e. rewrite (ingest_checked p t op Hs Hv), Hni, Hd. cbn [negb]. fold e.
  destruct (p_authorised_keeps_at op e Hp Hk Hni)
    as (v & [q t'] & Hvd & Hp' & Heq & Ht & deps & Hdeps & Hver).
  rewrite (bind_ok _ _ _ _ _ Hvd). unfold e in Heq, Ht, Hver. cbn [e_p e_tape] in *. subst t'.
  exists (p_authz q), deps. rewrite <- Heq. split; [done|split; [done|]]. subst v.
  destruct (verdict_on (membership p) op deps); reflexivity.
Qed.

(** What [ingest] leaves of an operation that is new, authentic and not waiting,
    by its verdict. *)
Definition decided (p : Participant) (op : Op) (t : Tape) (r : result Error (list Outbound) * Env) (verdict : bool) : Prop :=
  if verdict
  then if (MAX_OPS <=? dag_len (p_dag p))%N
       then exists c, r = (Err (LimitExceeded "operation graph full"), mkEnv (set_authz c p) t)
       else dag_ops (p_dag (e_p r.2)) !! op_oid op = Some op
  else exists c, r = (Err NotAMember, mkEnv (set_authz c p) t).

Lemma ingest_cases fx p t op :
  part_ok fx p -> built op -> st_asked fx (op_deps op) ->
  let r := ingest op (mkEnv p t) in
  (op_sid op <> p_sid p -> r = (Err (Encoding "operation from another conference"), mkEnv p t)) /\
  (op_sid op = p_sid p -> op_verify op <> Ok tt -> r = (Err BadSignature, mkEnv p t)) /\
  (op_sid op = p_sid p -> op_verify op = Ok tt ->
   (op_oid op ∈ dom (dag_ops (p_dag p)) -> r = (Ok [], mkEnv p t)) /\
   (op_oid op ∉ dom (dag_ops (p_dag p)) ->
    (~ op_deps op ⊆ dom (dag_ops (p_dag p)) -> r = (Ok [], mkEnv (buffered op p) t)) /\
    (op_deps op ⊆ dom (dag_ops (p_dag p)) ->
     exists deps, taken_for (st_asked fx) op deps /\ decided p op t r (verdict_on (membership p) op deps)))).
Proof.
  intros Hp Hb Hk r. set (e := mkEnv p t) in r |- *. split_and!.
  - intros Hs. unfold r, ingest. rewrite (bind_ok (ask _) _ e (p_sid p) e) by reflexivity. by rewrite decide_True.
  - intros Hs Hv. unfold r, ingest. rewrite (bind_ok (ask _) _ e (p_sid p) e) by reflexivity.
    rewrite decide_False by (intros Hn; by apply Hn).
    unfold op_verify in Hv |- *. by destruct (sig_verify _ _ _) as [[]|].
  - intros Hs Hv. assert (authentic (p_sid p) op) as Ha by (by split).
    pose proof (ingest_checked p t op Hs Hv) as Hr. fold e in Hr. fold r in Hr.
    split; [intros Hin%dag_contains_spec; by rewrite Hin in Hr|].
    intros Hni. split.
    + intros Hd. apply not_elem_of_dom, dag_contains_false in Hni. rewrite Hni in Hr.
      rewrite <- deps_satisfied_spec in Hd. apply not_true_is_false in Hd. by rewrite Hd in Hr.
    + intros Hd. clear Hr. destruct (ingest_verdict fx p t op Hp Ha Hk Hni Hd) as (c & deps & Ht & Hp' & Hr).
      exists deps. split; [done|]. unfold decided.
      fold e in Hr. fold r in Hr. destruct (verdict_on (membership p) op deps) eqn:Eauth; [|by exists c].
      destruct (N.leb_spec MAX_OPS (dag_len (p_dag p))) as [Hf|Hf].
      * exists c. rewrite Hr. apply bind_err. unfold add_op, dag_add.
        cbn [e_p e_tape set_authz p_dag]. destruct (N.leb_spec MAX_OPS (dag_len (p_dag p))); [|lia].
        reflexivity.
      * clearbody r. destruct r as [r1 e2]. symmetry in Hr.
        eapply (admit_stores fx op (mkEnv (set_authz c p) t));
          [exact Hp'|exact Ha|by apply dag_contains_false, not_elem_of_dom|by apply deps_satisfied_spec|exact Hf| |exact Hr].
        right. exists deps. split; [done|]. exists (p_dag p), (p_guilty p).
        split_and!; [done|done|by apply deps_satisfied_spec|by apply dag_contains_false, not_elem_of_dom|done].
Qed.

(** C15. Every branch of [ingest].  An operation of another session, a bad
    signature and a known operation leave the participant exactly as it was; an
    operation with missing dependencies is only buffered; one that its causal
    past does not authorise is refused and changes nothing but the memo; a full
    graph refuses; otherwise the operation is in the graph afterwards, even if
    processing its content fails.  The verdict is the one of the membership
    rule when the digest that keys the verdict memo tells the dependency sets of
    this operation and of those presented before apart. *)
Theorem ingest_branches l p t op :
  reached l p -> built op ->
  let r := ingest op (mkEnv p t) in
  (op_sid op <> p_sid p -> r = (Err (Encoding "operation from another conference"), mkEnv p t)) /\
  (op_sid op = p_sid p -> op_verify op <> Ok tt -> r = (Err BadSignature, mkEnv p t)) /\
  (op_sid op = p_sid p -> op_verify op = Ok tt ->
   (op_oid op ∈ dom (dag_ops (p_dag p)) -> r = (Ok [], mkEnv p t)) /\
   (op_oid op ∉ dom (dag_ops (p_dag p)) ->
    (~ op_deps op ⊆ dom (dag_ops (p_dag p)) -> r = (Ok [], mkEnv (buffered op p) t)) /\
    (op_deps op ⊆ dom (dag_ops (p_dag p)) -> separate (op :: l) ->
     if authorised (membership p) op
     then if (MAX_OPS <=? dag_len (p_dag p))%N
          then exists c, r = (Err (LimitExceeded "operation graph full"), mkEnv (set_authz c p) t)
          else dag_ops (p_dag (e_p r.2)) !! op_oid op = Some op
     else exists c, r = (Err NotAMember, mkEnv (set_authz c p) t)))).
Proof.
  intros Hl Hb r.
  destruct (ingest_cases _ p t op (reached_more l op p Hl) Hb (deps_of_head l op)) as (H1 & H2 & H3).
  split_and!; [exact H1|exact H2|]. intros Hs Hv. destruct (H3 Hs Hv) as [H4 H5]. split; [exact H4|].
  intros Hni. destruct (H5 Hni) as [H6 H7]. split; [exact H6|]. intros Hd Hsep.
  destruct (H7 Hd) as (deps & Ht & Hdec). apply not_elem_of_dom, dag_contains_false in Hni.
  rewrite (taken_for_own _ _ _ Hsep Ht), (verdict_on_self (membership p) op Hni) in Hdec. exact Hdec.
Qed.

(** ** Repair *)

(** The response [p] seals for [to] under the ephemeral secret [eph]. *)
Definition sealed_response (p : Participant) (to : SigPublic) (gen : N) (eph shared : bytes)
    (entries : list (Oid * bytes)) : Envelope :=
  mkEnvelope (dh_public eph) gen
    (aead_seal (envelope_key shared (p_sid p) (p_ipk p) to)
       (nonce [p_sid p; dh_public eph; bstr "repair"]) (build_nodekey_payload entries)
       (repair_ad (p_sid p) (p_ipk p) to)).

Lemma elem_of_repair_entries f keys nodes n k :
  (n, k) ∈ repair_entries f keys nodes <-> n ∈ nodes /\ n ∈ f /\ nk_keys keys !! n = Some k.
Proof using Type.
  unfold repair_entries, nk_peek. rewrite list_elem_of_omap. split.
  - intros (x & Hx & H). case_bool_decide; [|done].
    destruct (nk_keys keys !! x) eqn:E; simplify_eq/=. done.
  - intros (Hn & Hf & Hk). exists n. split; [done|]. rewrite bool_decide_eq_true_2 by done.
    by rewrite Hk.
Qed.

(** The members and the frontier a method of a reachable participant sees. *)
Lemma members_at p t :
  part_ok (statics p) p ->
  exists q, p_members (mkEnv p t) = (Ok (members (membership p)), mkEnv q t)
    /\ part_ok (statics q) q /\ (q = p \/ q = set_derived (Some (derive p)) p).
Proof using Type.
  intros Hp. destruct (derived_spec (mkEnv p t) Hp) as ([q t'] & Hd & Hq & He & Ht).
  cbn [e_p e_tape] in *. subst t'. exists q. unfold p_members.
  rewrite (bind_ok _ _ _ _ _ Hd). split; [reflexivity|]. split; [|exact He].
  by destruct Hq.
Qed.

Lemma frontier_at p t :
  part_ok (statics p) p ->
  exists q, p_frontier (mkEnv p t) = (Ok (frontier (p_dag p)), mkEnv q t)
    /\ part_ok (statics q) q /\ (q = p \/ q = set_derived (Some (derive p)) p).
Proof using Type.
  intros Hp. destruct (derived_spec (mkEnv p t) Hp) as ([q t'] & Hd & Hq & He & Ht).
  cbn [e_p e_tape] in *. subst t'. exists q. unfold p_frontier.
  rewrite (bind_ok _ _ _ _ _ Hd). split; [reflexivity|]. split; [|exact He].
  by destruct Hq.
Qed.

Lemma answer_inv p t to nodes o e :
  part_ok (statics p) p ->
  answer_node_keys_for to nodes (mkEnv p t) = (Ok (Some o), e) ->
  to ∈ members (membership p) /\
  exists gen pk eph shared,
    p_peer_prekeys p !! to = Some (gen, pk) /\ dh_agree eph pk = Some shared /\
    let entries := repair_entries (frontier (p_dag p)) (p_nodekeys p) nodes in
    entries <> [] /\
    o = direct to (MNodeKeyResponse (p_ipk p) (sealed_response p to gen eph shared entries)).
Proof using Type.
  intros Hp. unfold answer_node_keys_for.
  destruct (members_at p t Hp) as (q & Hm & Hq & Hqp). rewrite (bind_ok _ _ _ _ _ Hm).
  destruct (bool_decide_reflect (to ∈ members (membership p))) as [Hto|]; cbn [negb]; [|done].
  destruct (frontier_at q t Hq) as (q' & Hf & _ & Hqq). rewrite (bind_ok _ _ _ _ _ Hf).
  assert (p_dag q = p_dag p /\ p_nodekeys q' = p_nodekeys p /\ p_sid q' = p_sid p
          /\ p_ipk q' = p_ipk p /\ p_peer_prekeys q' = p_peer_prekeys p)
    as (-> & Hn & Hs & Hi & Hpk) by (by destruct Hqp as [->| ->], Hqq as [->| ->]).
  rewrite (bind_ok (ask p_nodekeys) _ _ (p_nodekeys p) (mkEnv q' t))
    by (unfold ask; cbn [e_p]; by rewrite Hn).
  destruct (repair_entries _ _ _) as [|en ens] eqn:Een; [done|].
  rewrite (bind_ok (ask _) _ _ (p_peer_prekeys p !! to) (mkEnv q' t))
    by (unfold ask; cbn [e_p]; by rewrite Hpk).
  destruct (p_peer_prekeys p !! to) as [[gen pk]|]; [|done]. intros H. inv_bind H. inv_bind H.
  unfold seal_envelope in Hm0. inv_bind Hm0.
  assert (e_p s1 = q') as Hs1.
  { unfold draw in Hm2. destruct (dh_generate _) as [r t']. cbn [e_p] in Hm2. by injection Hm2 as _ <-. }
  destruct (dh_agree a1 pk) as [shared|] eqn:Ea; [|done].
  injection Hm0 as <- <-. injection Hm1 as <- <-. injection H as <- <-.
  split; [done|]. exists gen, pk, a1, shared. split_and!; [done..|].
  rewrite Hs1. unfold sealed_response. by rewrite Hs, Hi.
Qed.

(** C17. Repair discloses nothing beyond the current key: a response goes only
    to a current member, at its registered prekey, and seals exactly the
    requested node keys that belong to the responder's current frontier; a
    stranger's request is answered with nothing and draws no entropy. *)
Theorem repair_confined p t to nodes :
  reachable p ->
  (to ∉ members (membership p) ->
   (answer_node_keys_for to nodes (mkEnv p t)).1 = Ok None /\
   e_tape (answer_node_keys_for to nodes (mkEnv p t)).2 = t) /\
  (forall o e, answer_node_keys_for to nodes (mkEnv p t) = (Ok (Some o), e) ->
   to ∈ members (membership p) /\
   exists gen pk eph shared entries,
     p_peer_prekeys p !! to = Some (gen, pk) /\ dh_agree eph pk = Some shared /\
     o = direct to (MNodeKeyResponse (p_ipk p) (sealed_response p to gen eph shared entries)) /\
     forall n k, (n, k) ∈ entries <->
       n ∈ nodes /\ n ∈ frontier (p_dag p) /\ nk_keys (p_nodekeys p) !! n = Some k).
Proof.
  intros Hp%reachable_ok. split.
  - intros Hto. unfold answer_node_keys_for.
    destruct (members_at p t Hp) as (q & Hm & _). rewrite (bind_ok _ _ _ _ _ Hm).
    by rewrite bool_decide_eq_false_2.
  - intros o e (Hto & gen & pk & eph & shared & H1 & H2 & _ & H3)%answer_inv; [|done].
    split; [done|]. exists gen, pk, eph, shared,
      (repair_entries (frontier (p_dag p)) (p_nodekeys p) nodes).
    split_and!; [exact H1|exact H2|exact H3|].
    intros n k. apply elem_of_repair_entries.
Qed.

Lemma store_entries_nodekeys want (l : list (Oid * bytes)) p :
  p_nodekeys (foldl (fun p en => store_entry want en p) p l)
  = foldl (fun s en => nk_insert en.1 en.2 s) (p_nodekeys p) (filter (fun en => en.1 ∈ want) l).
Proof using Type.
  revert p. induction l as [|[n k] l IH]; intros p; [done|]. cbn [foldl]. rewrite IH.
  rewrite filter_cons. cbn [store_entry fst]. destruct (decide (n ∈ want)) as [Hw|Hw].
  - rewrite bool_decide_eq_true_2 by done. done.
  - by rewrite bool_decide_eq_false_2.
Qed.

Lemma repair_entries_fst f keys nodes : NoDup nodes -> NoDup (repair_entries f keys nodes).*1.
Proof using Type.
  intros Hnd. unfold repair_entries.
  induction Hnd as [|n l Hn Hnd IH]; simpl; [constructor|].
  case_bool_decide; simpl; [|done]. destruct (nk_peek keys n); simpl; [|done].
  constructor; [|done]. intros ([x k] & -> & Hx)%list_elem_of_fmap.
  by apply (elem_of_repair_entries f keys l) in Hx as [Hx _].
Qed.

Lemma open_sealed_response p q sk gen eph shared entries :
  p_sid q = p_sid p -> pk_secret (p_prekeys p) = Some sk -> pk_generation (p_prekeys p) = gen ->
  dh_agree eph (dh_public sk) = Some shared ->
  open_envelope (p_prekeys p) (bstr "repair") (p_sid p) (p_ipk q) (p_ipk p)
    (repair_ad (p_sid p) (p_ipk q) (p_ipk p)) (sealed_response q (p_ipk p) gen eph shared entries)
  = Ok (build_nodekey_payload entries).
Proof.
  intros Hs Hk <- Ha. unfold open_envelope, sealed_response, agree_envelope.
  cbn [env_gen env_eph env_ct]. rewrite N.eqb_refl, Hk, dh_agree_comm, Ha. cbn [negb].
  by rewrite Hs, aead_open_sealed.
Qed.

Lemma repair_entries_length f keys nodes :
  length (repair_entries f keys nodes) <= length nodes.
Proof using Type.
  unfold repair_entries. induction nodes as [|n l IH]; simpl; [lia|].
  case_bool_decide; simpl; [|by apply Nat.le_le_succ_r].
  destruct (nk_peek keys n); simpl; [by apply le_n_S|by apply Nat.le_le_succ_r].
Qed.

Lemma filter_fst_sublist (l : list (Oid * bytes)) (want : gset Oid) :
  (filter (fun en => en.1 ∈ want) l).*1 `sublist_of` l.*1.
Proof using Type.
  induction l as [|x l IH]; [done|]. rewrite filter_cons, fmap_cons.
  case_decide; [rewrite fmap_cons; by apply sublist_skip|by apply sublist_cons].
Qed.

Lemma repair_entries_valid q nodes :
  part_ok (statics q) q -> (lenN nodes <= OVERLAP)%N ->
  list_valid entry_valid (repair_entries (frontier (p_dag q)) (p_nodekeys q) nodes).
Proof.
  intros Hq Hlen. split.
  - apply Forall_forall. intros [n k] (_ & Hf & Hk)%elem_of_repair_entries. split; cbn [fst snd].
    + apply frontier_elem in Hf as [(op & Hop & _) _]; [|apply (ok_wf _ Hq)].
      rewrite <- (wf_oid _ (ok_wf _ Hq) n op Hop). eapply authentic_oid, (ok_ops _ Hq), Hop.
    + by apply (ok_nodekeys _ Hq) in Hk.
  - pose proof (repair_entries_length (frontier (p_dag q)) (p_nodekeys q) nodes).
    unfold lenN, MAX_ITEMS, OVERLAP in *. lia.
Qed.

(** Absorbing an envelope that opens to [entries]. *)
Lemma absorb_opened p t from sealed entries :
  part_ok (statics p) p -> from ∈ members (membership p) -> list_valid entry_valid entries ->
  open_envelope (p_prekeys p) (bstr "repair") (p_sid p) from (p_ipk p)
    (repair_ad (p_sid p) from (p_ipk p)) sealed = Ok (build_nodekey_payload entries) ->
  exists e', absorb_node_keys from sealed (mkEnv p t) = (Ok tt, e') /\
    p_nodekeys (e_p e') = foldl (fun s en => nk_insert en.1 en.2 s) (p_nodekeys p)
                            (filter (fun en => en.1 ∈ frontier (p_dag p)) entries).
Proof using Type.
  intros Hp Hm Hval Ho. unfold absorb_node_keys.
  destruct (members_at p t Hp) as (p1 & Hm1 & Hp1 & He1). rewrite (bind_ok _ _ _ _ _ Hm1).
  rewrite bool_decide_eq_true_2 by done. cbn [negb].
  destruct (frontier_at p1 t Hp1) as (p2 & Hf2 & Hp2 & He2).
  rewrite (bind_ok (ask p_prekeys) _ _ (p_prekeys p) (mkEnv p1 t))
    by (by destruct He1 as [->| ->]).
  rewrite (bind_ok (ask p_sid) _ _ (p_sid p) (mkEnv p1 t)) by (by destruct He1 as [->| ->]).
  rewrite (bind_ok (ask p_ipk) _ _ (p_ipk p) (mkEnv p1 t)) by (by destruct He1 as [->| ->]).
  rewrite Ho. erewrite (bind_ok (lift _)) by reflexivity. rewrite (bind_ok _ _ _ _ _ Hf2).
  assert (parse_nodekey_payload (build_nodekey_payload entries) = Ok entries) as ->.
  { apply (run_reader_ok (f := reader_list entry_read)). split; [done|apply build_nodekey_image]. }
  erewrite (bind_ok (lift _)) by reflexivity. eexists. split; [reflexivity|].
  cbn [upd snd e_p]. rewrite store_entries_nodekeys.
  by destruct He1 as [->| ->], He2 as [->| ->].
Qed.

(** C16. Repair works end to end: when a member answers a request of at most 64
    nodes, addressed to the requester's current prekey, the requester opens the
    response and afterwards holds, for every requested node of its own frontier
    that the responder holds, exactly the responder's key. *)
Theorem repair_restores p q t t' nodes sk o e :
  reachable p -> reachable q -> p_sid q = p_sid p ->
  pk_secret (p_prekeys p) = Some sk ->
  p_peer_prekeys q !! p_ipk p = Some (pk_generation (p_prekeys p), dh_public sk) ->
  p_ipk q ∈ members (membership p) -> NoDup nodes -> (lenN nodes <= OVERLAP)%N ->
  answer_node_keys_for (p_ipk p) nodes (mkEnv q t) = (Ok (Some o), e) ->
  exists sealed e',
    o = direct (p_ipk p) (MNodeKeyResponse (p_ipk q) sealed) /\
    absorb_node_keys (p_ipk q) sealed (mkEnv p t') = (Ok tt, e') /\
    forall n k, n ∈ nodes -> n ∈ frontier (p_dag p) -> n ∈ frontier (p_dag q) ->
      nk_keys (p_nodekeys q) !! n = Some k -> nk_keys (p_nodekeys (e_p e')) !! n = Some k.
Proof.
  intros Hp%reachable_ok Hq%reachable_ok Hs Hsk Hpk Hm Hnd Hlen Ha.
  apply answer_inv in Ha as (_ & gen & pk & eph & shared & Hpk' & Hagree & _ & ->); [|done].
  rewrite Hpk in Hpk'. injection Hpk' as <- <-.
  pose proof (repair_entries_fst (frontier (p_dag q)) (p_nodekeys q) nodes Hnd) as Hnd'.
  pose proof (repair_entries_length (frontier (p_dag q)) (p_nodekeys q) nodes) as Hle.
  pose proof (repair_entries_valid q nodes Hq Hlen) as Hval.
  pose proof (elem_of_repair_entries (frontier (p_dag q)) (p_nodekeys q) nodes) as Hel.
  set (entries := repair_entries (frontier (p_dag q)) (p_nodekeys q) nodes) in *.
  destruct (absorb_opened p t' (p_ipk q)
    (sealed_response q (p_ipk p) (pk_generation (p_prekeys p)) eph shared entries) entries)
    as (e' & He' & Hkeys); [done..|by apply (open_sealed_response p q sk)|].
  eexists _, e'. split_and!; [reflexivity|exact He'|]. intros n k Hn Hfp Hfq Hk.
  rewrite Hkeys. set (l := filter _ entries).
  pose proof (filter_fst_sublist entries (frontier (p_dag p))) as Hsub. fold l in Hsub.
  destruct (ok_nodekeys _ Hp) as (HI & Hcap & _).
  destruct (nk_insert_all l (p_nodekeys p) HI) as (_ & _ & _ & Hall).
  - by eapply sublist_NoDup.
  - rewrite Hcap. apply sublist_length in Hsub. rewrite !length_fmap in Hsub.
    unfold lenN in *. lia.
  - apply Hall, list_elem_of_filter. split; [done|]. by apply Hel.
Qed.
End invariant.

(** ** The open-ended loops end *)

Section termination.
Context {P : Primitives}.

(** With fuel above the number of waiting operations the loop runs to its end,
    whatever the fuel. *)
Lemma drain_loop_total n m waiting e :
  length waiting < n -> length waiting < m ->
  drain_loop n waiting e = drain_loop m waiting e /\
  exists out e', drain_loop n waiting e = (Ok out, e')
                 /\ p_pending (e_p e') `sublist_of` waiting.
Proof.
  revert m waiting e. induction n as [|n IH]; intros [|m] waiting e Hn Hm; try lia.
  cbn [drain_loop]. destruct (drain_round_total waiting e) as (d & b & o & e1 & E & Hs & Hb).
  rewrite !(bind_ok _ _ _ _ _ E). destruct b; cbn [negb].
  - specialize (Hb eq_refl). destruct (IH m d e1) as [Heq (out & e2 & E2 & Hp)]; [lia..|].
    unfold mbind, M_bind. rewrite <- Heq, E2. split; [done|].
    eexists _, _. split; [reflexivity|]. by etrans.
  - split; [done|]. eexists _, _. split; [reflexivity|exact Hs].
Qed.

(** [open_slice] does not touch the receiving channels. *)
Lemma open_slice_recv op mk seq ad r :
  keeps (fun p => p_recv p = r) (open_slice op mk seq ad).
Proof.
  assert (forall op, keeps (fun p => p_recv p = r) (add_op op)) as Hadd.
  { intros o e He. unfold add_op. by destruct (dag_add o (p_dag (e_p e))) as [[]]. }
  assert (forall f, (forall p, p_recv (f p) = p_recv p) -> keeps (fun p => p_recv p = r) (upd f))
    as Hupd by (intros f Hf e He; cbn [upd snd e_p]; by rewrite Hf).
  unfold open_slice, absorb, mark_missing, convict. keeps_walk; apply Hupd; reflexivity.
Qed.

(** Slices buffered for [author]. *)
Definition backlog (p : Participant) (author : SigPublic) : nat :=
  match p_recv p !! author with Some st => size (rc_buffer (rs_chan st)) | None => 0 end.

Lemma take_next_backlog e author r e' :
  on_recv author take_next e = (Ok (Some r), e') -> backlog (e_p e') author < backlog (e_p e) author.
Proof.
  unfold on_recv, backlog. destruct (p_recv (e_p e) !! author) as [st|]; [|done].
  unfold take_next. destruct (_ =? _)%N; [done|].
  destruct (rc_buffer (rs_chan st) !! recv_position (rs_chan st)) as [pl|] eqn:E; [|done].
  intros [= <- <-]. cbn [e_p set_recv p_recv]. rewrite lookup_insert_eq. cbn [rs_chan rc_buffer].
  rewrite map_size_delete_Some by (by eexists).
  assert (size (rc_buffer (rs_chan st)) <> 0); [|lia].
  apply map_size_non_empty_iff. intros H. by rewrite H, lookup_empty in E.
Qed.

Lemma commit_backlog e author seq r e' :
  commit_recv author seq e = (r, e') -> backlog (e_p e') author = backlog (e_p e) author.
Proof.
  unfold commit_recv, backlog. destruct (p_recv (e_p e) !! author) as [st|] eqn:E.
  - unfold commit. destruct (negb _); intros H.
    + injection H as <- <-. cbn [e_p set_recv p_recv]. by rewrite lookup_insert_eq.
    + destruct (advance _) as [[]]; injection H as <- <-; cbn [e_p set_recv p_recv];
        by rewrite lookup_insert_eq.
  - intros [= <- <-]. by rewrite E.
Qed.

Lemma drain_channel_total n m author e :
  backlog (e_p e) author < n -> backlog (e_p e) author < m ->
  drain_channel n author e = drain_channel m author e.
Proof.
  revert m e. induction n as [|n IH]; intros [|m] e Hn Hm; try lia. cbn [drain_channel].
  destruct (on_recv author take_next e) as [[r|x] e1] eqn:E1;
    [|by rewrite !(bind_err _ _ _ _ _ E1)].
  rewrite !(bind_ok _ _ _ _ _ E1). destruct r as [[[sq pl] mk]|]; [|done].
  apply take_next_backlog in E1. cbv zeta.
  rewrite !(bind_ok (ask _) _ e1 (dag_get (p_dag (e_p e1)) (take 32 pl)) e1) by reflexivity.
  destruct (dag_get (p_dag (e_p e1)) (take 32 pl)) as [op|]; [|done].
  destruct (op_body op) as [| | |cid cp rc sl vw| |]; try reflexivity.
  pose proof (open_slice_recv op mk sq (contrib_ad cid vw) (p_recv (e_p e1)) e1 eq_refl) as Hr.
  destruct (open_slice op mk sq (contrib_ad cid vw) e1) as [[opened|x] e2] eqn:E2;
    [|by rewrite !(bind_err _ _ _ _ _ E2)].
  rewrite !(bind_ok _ _ _ _ _ E2). destruct opened; cbn [negb snd] in *; [|done].
  destruct (commit_recv author sq e2) as [[r|x] e3] eqn:E3;
    [|by rewrite !(bind_err _ _ _ _ _ E3)].
  rewrite !(bind_ok _ _ _ _ _ E3). destruct r as [[]|]; [|done..].
  apply commit_backlog in E3. assert (backlog (e_p e2) author = backlog (e_p e1) author) as Hb.
  { unfold backlog. by rewrite Hr. }
  apply IH; lia.
Qed.

(** C18. Both open-ended loops of a participant end within the fuel the model
    gives them, so more fuel never changes a result: delivering buffered slices
    is bounded by the slices buffered, and re-examining waiting operations by
    the operations waiting.  The latter never fails, and what still waits
    afterwards was waiting before, in the same order. *)
Theorem loops_terminate e author n :
  (drain_fuel (e_p e) author <= n ->
   drain_channel n author e = drain_channel (drain_fuel (e_p e) author) author e) /\
  (length (p_pending (e_p e)) < n ->
   drain_loop n (p_pending (e_p e)) (mkEnv (set_pending [] (e_p e)) (e_tape e)) = drain_pending e) /\
  (exists out e', drain_pending e = (Ok out, e')
                  /\ p_pending (e_p e') `sublist_of` p_pending (e_p e)).
Proof.
  assert (drain_fuel (e_p e) author = S (backlog (e_p e) author)) as Hf.
  { unfold drain_fuel, backlog. by destruct (p_recv (e_p e) !! author). }
  change (drain_pending e) with
    (drain_loop (S (length (p_pending (e_p e)))) (p_pending (e_p e))
       (mkEnv (set_pending [] (e_p e)) (e_tape e))).
  split_and!.
  - intros Hn. apply drain_channel_total; lia.
  - intros Hn. apply drain_loop_total; lia.
  - apply (drain_loop_total _ (S (length (p_pending (e_p e))))); lia.
Qed.
End termination.

(** ** A run of two participants

    Alice founds a conference and invites Bob; Bob accepts the welcome and then
    handles Alice's contribution. *)

Definition ex_tape (n : N) : Tape :=
  (fun k => Some (array_of (byte_of (n + N.of_nat k)) 32)) <$> seq 0 12.

Definition nobody : Participant :=
  participant_new (P := Toy) [] [] policy_default [] (mkPool 0 None [] ∅ 0).

Definition made {A} (r : result Error (Participant * A) * Tape) : Participant :=
  match r.1 with Ok (p, _) => p | Err _ => nobody end.

Definition outcome {A B} (d : A) (r : result Error A * B) : A :=
  match r.1 with Ok a => a | Err _ => d end.

Definition ex_alice0 : Participant := made (create (P := Toy) policy_default (ex_tape 10)).

Definition ex_join : PendingJoin :=
  outcome (mkPendingJoin [] (mkPool 0 None [] ∅ 0) policy_default)
    (pending_new (P := Toy) policy_default (ex_tape 100)).

Definition ex_invited : result Error (list Outbound) * Env :=
  invite (P := Toy) (key_package (P := Toy) ex_join) (mkEnv ex_alice0 (ex_tape 30)).
Definition ex_alice : Participant := e_p ex_invited.2.
Definition ex_sent : list Outbound := outcome [] ex_invited.

(** The welcome goes to Bob alone; the contribution is broadcast last. *)
Definition to_peer (o : Outbound) : option bytes :=
  match ob_to o with Peer _ => Some (ob_payload o) | Everyone => None end.
Definition ex_welcome : bytes := default [] (head (omap to_peer ex_sent)).
Definition ex_contribution : bytes := default [] (last (ob_payload <$> ex_sent)).

Definition ex_bob0 : Participant := made (accept_welcome (P := Toy) ex_join ex_welcome (ex_tape 150)).
Definition ex_handled : result Error (list Event * list Outbound) * Env :=
  handle (P := Toy) ex_contribution (mkEnv ex_bob0 (ex_tape 200)).
Definition ex_bob : Participant := e_p ex_handled.2.

Definition key_of (p : Participant) : option bytes :=
  outcome None (p_group_key (P := Toy) (mkEnv p [])).

(** Both ends of the run are in the conference and derive the same group key,
    and it is not the one Alice had alone. *)
Definition agreed (before a b : Participant) : bool :=
  bool_decide (key_of a = key_of b) && bool_decide (is_Some (key_of a))
  && negb (bool_decide (key_of a = key_of before))
  && bool_decide (members (membership a) = {[p_ipk a; p_ipk b]})
  && bool_decide (members (membership b) = {[p_ipk a; p_ipk b]}).

Lemma two_party_agreement : agreed ex_alice0 ex_alice ex_bob = true.
Proof. vm_compute. reflexivity. Qed.

Lemma made_ok {A} (r : result Error (Participant * A) * Tape) :
  is_ok r.1 = true -> exists a t, r = (Ok (made r, a), t).
Proof. destruct r as [[[p a]|x] t]; [|done]. intros _. by exists a, t. Qed.

Lemma ex_alice0_reachable : reachable (P := Toy) ex_alice0.
Proof.
  destruct (made_ok (create (P := Toy) policy_default (ex_tape 10))) as (a & t & H);
    [vm_compute; reflexivity|]. exact (reach_create _ _ _ _ _ H).
Qed.

Lemma ignore_env {A} (m : Mp A) e : exists r, ignore m e = (r, (m e).2).
Proof. unfold ignore, mbind, M_bind. destruct (m e) as [[a|x] e']; eexists; reflexivity. Qed.

Lemma ex_alice_reachable : reachable (P := Toy) ex_alice.
Proof.
  destruct (ignore_env (invite (P := Toy) (key_package (P := Toy) ex_join))
              (mkEnv ex_alice0 (ex_tape 30))) as [r H].
  exact (reach_call _ (CInvite (key_package (P := Toy) ex_join)) _ _ _ ex_alice0_reachable H).
Qed.

Lemma ex_bob0_reachable : reachable (P := Toy) ex_bob0.
Proof.
  destruct (made_ok (accept_welcome (P := Toy) ex_join ex_welcome (ex_tape 150))) as (a & t & H);
    [vm_compute; reflexivity|]. exact (reach_accept _ _ _ _ _ _ H).
Qed.

Lemma ex_bob_reachable : reachable (P := Toy) ex_bob.
Proof.
  destruct (ignore_env (handle (P := Toy) ex_contribution) (mkEnv ex_bob0 (ex_tape 200))) as [r H].
  exact (reach_call _ (CHandle ex_contribution) _ _ _ ex_bob0_reachable H).
Qed.

(** What was presented to Bob on the way. *)
Definition ex_presented : list Op := welcome_ops (P := Toy) ex_welcome ++ ops_in (P := Toy) ex_contribution.

Lemma ex_bob_reached : reached (P := Toy) ex_presented ex_bob.
Proof.
  destruct (made_ok (accept_welcome (P := Toy) ex_join ex_welcome (ex_tape 150))) as (a & t & H);
    [vm_compute; reflexivity|]. pose proof (reached_accept _ _ _ _ _ _ H) as H0.
  destruct (ignore_env (handle (P := Toy) ex_contribution) (mkEnv ex_bob0 (ex_tape 200))) as [r Hr].
  exact (reached_call _ _ (CHandle ex_contribution) _ _ _ H0 Hr).
Qed.

(** Somebody Bob does not know adds to the graph he holds. *)
Definition ex_stranger : Op :=
  op_create (P := Toy) (array_of (byte_of 77) 32) (p_sid ex_bob) (dag_heads (p_dag ex_bob)) (Add (array_of (byte_of 2) 32)).

Lemma ex_separate : separate (P := Toy) (ex_stranger :: ex_presented).
Proof. apply separate_check. vm_compute. reflexivity. Qed.

Lemma ex_presented_some : bool_decide (2 < length ex_presented) = true.
Proof. vm_compute. reflexivity. Qed.

Lemma ex_stranger_built : built (P := Toy) ex_stranger.
Proof.
  split; [reflexivity|split; [reflexivity|]]. intros d Hd.
  assert (forallb (fun x => bool_decide (len32 x)) (bt_elems (op_deps ex_stranger)) = true) as H by (vm_compute; reflexivity).
  rewrite forallb_forall in H. apply elem_of_bt_elems, list_elem_of_In, H, bool_decide_eq_true in Hd. exact Hd.
Qed.

Lemma ex_stranger_new : op_oid ex_stranger ∉ dom (dag_ops (p_dag ex_bob)).
Proof. apply (bool_decide_unpack (op_oid ex_stranger ∉ dom (dag_ops (p_dag ex_bob)))). vm_compute. exact I. Qed.

Lemma ex_stranger_deps : op_deps ex_stranger ⊆ dom (dag_ops (p_dag ex_bob)).
Proof. apply (bool_decide_unpack (op_deps ex_stranger ⊆ dom (dag_ops (p_dag ex_bob)))). vm_compute. exact I. Qed.

Lemma ex_stranger_verdict : authorised (membership ex_bob) ex_stranger = false.
Proof. vm_compute. reflexivity. Qed.

Lemma ex_stranger_signed : op_sid ex_stranger = p_sid ex_bob /\ op_verify (P := Toy) ex_stranger = Ok tt.
Proof. split; [reflexivity|apply op_create_verifies]. Qed.

(** An operation Bob holds and did not make: the last in his graph. *)
Definition ex_taken : Op := default ex_stranger (snd <$> last (dag_iter (p_dag ex_bob))).

Lemma ex_taken_in : dag_ops (p_dag ex_bob) !! op_oid ex_taken = Some ex_taken.
Proof.
  apply (bool_decide_unpack (dag_ops (p_dag ex_bob) !! op_oid ex_taken = Some ex_taken)). vm_compute. exact I.
Qed.

Lemma ex_taken_others : op_author ex_taken <> p_ipk ex_bob.
Proof. apply (bool_decide_unpack (op_author ex_taken <> p_ipk ex_bob)). vm_compute. exact I. Qed.

#[local] Opaque ex_alice0 ex_join ex_invited ex_alice ex_sent ex_welcome ex_contribution
  ex_bob0 ex_handled ex_bob ex_presented ex_stranger ex_taken.

(** ** Witnesses *)

Lemma separate_tail {P : Primitives} op l : separate (op :: l) -> separate l.
Proof. intros H a b (x & Hx & <-) (y & Hy & <-). apply H; [exists x|exists y]; (split; [by apply list_elem_of_further|done]). Qed.

Lemma participant_invariant_witness :
  exists d g, dag_extends d (p_dag ex_bob) /\ g ⊆ p_guilty ex_bob /\ deps_satisfied d ex_taken = true
    /\ authorised (mkMembership d (p_policy ex_bob) g) ex_taken = true.
Proof.
  destruct (proj2 (participant_invariant (P := Toy) ex_presented ex_bob ex_bob_reached)
    (separate_tail _ _ ex_separate) _ _ ex_taken_in) as [H|H]; [by destruct (ex_taken_others H)|exact H].
Defined.

Lemma tick_run p t : run_call (P := Toy) CTick (mkEnv p t) = (Ok tt, mkEnv (p_tick p) t).
Proof. reflexivity. Qed.

Lemma history_grows_witness : dag_extends (p_dag ex_bob) (p_dag (e_p (mkEnv (p_tick ex_bob) []))).
Proof.
  exact (proj1 (history_grows (P := Toy) ex_bob CTick [] (Ok tt)
    (mkEnv (p_tick ex_bob) []) ex_bob_reachable (tick_run ex_bob []))).
Defined.

Lemma memos_transparent_witness :
  (p_members (P := Toy) (mkEnv ex_bob [])).1 = Ok (members (membership ex_bob)) /\
  (p_authorised (P := Toy) ex_stranger (mkEnv ex_bob [])).1 = Ok (authorised (membership ex_bob) ex_stranger).
Proof.
  destruct (memos_transparent (P := Toy) ex_presented ex_bob [] ex_bob_reached) as (H1 & _ & _ & _ & H5).
  exact (conj H1 (H5 ex_stranger ex_stranger_new ex_separate)).
Defined.

Lemma ingest_branches_witness :
  exists c, ingest (P := Toy) ex_stranger (mkEnv ex_bob []) = (Err NotAMember, mkEnv (set_authz c ex_bob) []).
Proof.
  destruct (ingest_branches (P := Toy) ex_presented ex_bob [] ex_stranger ex_bob_reached ex_stranger_built) as (_ & _ & H).
  destruct (H (proj1 ex_stranger_signed) (proj2 ex_stranger_signed)) as [_ H1].
  pose proof (proj2 (H1 ex_stranger_new) ex_stranger_deps ex_separate) as H2.
  rewrite ex_stranger_verdict in H2. exact H2.
Defined.

Definition ex_node : Oid := default [] (head (bt_elems (frontier (p_dag ex_bob)))).
Definition ex_answer : result Error (option Outbound) * Env :=
  answer_node_keys_for (P := Toy) (p_ipk ex_alice) [ex_node] (mkEnv ex_bob (ex_tape 60)).
Definition ex_response : Outbound :=
  default (mkOutbound Everyone []) (outcome None ex_answer).

Lemma ex_answered :
  answer_node_keys_for (P := Toy) (p_ipk ex_alice) [ex_node] (mkEnv ex_bob (ex_tape 60))
  = (Ok (Some ex_response), ex_answer.2).
Proof.
  fold ex_answer.
  assert (bool_decide (is_Some (outcome None ex_answer)) = true) as H
    by (vm_compute; reflexivity).
  unfold ex_response. revert H. generalize ex_answer as r. intros [[[o|]|x] e] H;
    [reflexivity|discriminate H..].
Qed.

#[local] Opaque ex_node ex_answer ex_response.

Lemma repair_confined_witness : p_ipk ex_alice ∈ members (membership ex_bob).
Proof.
  exact (proj1 (proj2 (repair_confined (P := Toy) ex_bob (ex_tape 60) (p_ipk ex_alice) [ex_node]
    ex_bob_reachable) _ _ ex_answered)).
Defined.

Definition ex_prekey : bytes := default [] (pk_secret (p_prekeys ex_alice)).

Lemma repair_restores_witness :
  exists sealed e',
    ex_response = direct (p_ipk ex_alice) (MNodeKeyResponse (p_ipk ex_bob) sealed) /\
    absorb_node_keys (P := Toy) (p_ipk ex_bob) sealed (mkEnv ex_alice []) = (Ok tt, e') /\
    forall n k, n ∈ [ex_node] -> n ∈ frontier (p_dag ex_alice) -> n ∈ frontier (p_dag ex_bob) ->
      nk_keys (p_nodekeys ex_bob) !! n = Some k -> nk_keys (p_nodekeys (e_p e')) !! n = Some k.
Proof.
  apply (repair_restores (P := Toy) ex_alice ex_bob (ex_tape 60) [] [ex_node] ex_prekey
           ex_response ex_answer.2 ex_alice_reachable ex_bob_reachable).
  - apply (bool_decide_unpack (p_sid ex_bob = p_sid ex_alice)). vm_compute; exact I.
  - apply default_is_some. vm_compute; reflexivity.
  - apply (bool_decide_unpack (p_peer_prekeys ex_bob !! p_ipk ex_alice
      = Some (pk_generation (p_prekeys ex_alice), dh_public (P := Toy) ex_prekey))).
    vm_compute; exact I.
  - apply (bool_decide_unpack (p_ipk ex_bob ∈ members (membership ex_alice))). vm_compute; exact I.
  - apply NoDup_singleton.
  - vm_compute; discriminate.
  - exact ex_answered.
Defined.
