(* ===== verification/Converge.v ===== *)
(** * Convergence of replicas

    Participants exchange no votes on their state: each computes its roster,
    frontier and version from the operations it holds.  Two participants that
    hold the same operations agree on all of them, provided every accusation
    follows the contribution it names; without that proviso they can differ for
    good, which a run at the end shows.  Anti-entropy
    ([crates/cfr-core/src/member.rs], [answer_sync] and the delivery that
    follows) makes the histories equal. *)

From Stdlib Require Import NArith Lia.
From S2P Require Import Prelude Crypto Toy Codec Ops Dag Membership Keys Channel Prekey Checkpoint Wire Member MemberInv MemberProps.

Lemma included_or_not (a b : gset SigPublic) : a ⊆ b \/ exists x, x ∈ a /\ x ∉ b.
Proof.
  destruct (decide (a ∖ b = ∅)) as [|[x Hx]%set_choose_L]; [left; set_solver|right; exists x; set_solver].
Qed.

Section converge.
Context {P : Primitives} {PO : PrimitivesOk P}.
Implicit Types (p q : Participant) (op : Op).

(** Every accusation that checks out follows the contribution it names. *)
Definition causal_accusations p : Prop :=
  forall oid acc who coid, dag_ops (p_dag p) !! oid = Some acc -> accused acc = Some (who, coid) ->
    check_accusation p acc = true -> coid ∈ past_of (p_dag p) oid.

(** The evidence for every conviction is in the graph. *)
Definition evidenced p : Prop :=
  forall who, who ∈ p_guilty p -> exists oid acc, dag_ops (p_dag p) !! oid = Some acc /\
    check_accusation p acc = true /\ fst <$> accused acc = Some who.

(** It is, unless the graph was full or another operation is stored under the
    identifier of the accusation. *)
Lemma evidence_stored fx p who :
  part_ok fx p -> (dag_len (p_dag p) < MAX_OPS)%N -> who ∈ p_guilty p ->
  exists acc b, check_accusation p acc = true /\ fst <$> accused acc = Some who /\
    dag_ops (p_dag p) !! op_oid acc = Some b /\ (b = acc \/ (b <> acc /\ op_oid b = op_oid acc)).
Proof using Type.
  intros Hp Hl Hw. destruct (ok_guilty p Hp who Hw) as (acc & Hc & Hacc & _ & [[b Hb]%elem_of_dom|?]); [|lia].
  exists acc, b. split_and!; [done..|]. destruct (decide (b = acc)) as [|Hne]; [by left|right].
  split; [done|]. by apply (wf_oid _ (ok_wf p Hp)).
Qed.

(** What the graph says about an accusation does not depend on the replica. *)
Lemma check_accusation_agree p q acc :
  p_sid p = p_sid q -> dag_ops (p_dag p) = dag_ops (p_dag q) -> check_accusation p acc = check_accusation q acc.
Proof using Type. intros Hs Ho. unfold check_accusation, dag_get. by rewrite Hs, Ho. Qed.

Lemma convictions_included fx p q :
  part_ok fx q -> p_sid p = p_sid q -> dag_ops (p_dag p) = dag_ops (p_dag q) ->
  evidenced p -> causal_accusations q -> p_guilty p ⊆ p_guilty q.
Proof using Type.
  intros Hq Hs Ho Hev Hca who Hw. destruct (Hev who Hw) as (oid & acc & Hin & Hc & Hacc).
  destruct (accused acc) as [[who' coid]|] eqn:Ea; [|done]. injection Hacc as ->.
  rewrite Ho in Hin. rewrite (check_accusation_agree p q acc Hs Ho) in Hc.
  by apply (ok_judged q Hq oid acc who coid Hin Ea (Hca _ _ _ _ Hin Ea Hc)).
Qed.

Lemma causal_agree fx fx' p q :
  part_ok fx p -> part_ok fx' q -> p_sid p = p_sid q -> dag_ops (p_dag p) = dag_ops (p_dag q) ->
  causal_accusations p -> causal_accusations q.
Proof using Type.
  intros Hp Hq Hs Ho Hca oid acc who coid Hin Ha Hc.
  pose proof (exact_same_parents _ _ (ok_wf p Hp) (ok_wf q Hq) (ok_exact p Hp) (ok_exact q Hq) Ho) as Hpar.
  rewrite <- Ho in Hin. rewrite <- (check_accusation_agree p q acc Hs Ho) in Hc.
  pose proof (Hca oid acc who coid Hin Ha Hc) as Hpast. rewrite past_of_spec in * by eauto using ok_wf. by rewrite <- Hpar.
Qed.

Lemma same_convictions fx fx' p q :
  part_ok fx p -> part_ok fx' q -> p_sid p = p_sid q -> dag_ops (p_dag p) = dag_ops (p_dag q) ->
  evidenced p -> evidenced q -> causal_accusations p -> p_guilty p = p_guilty q.
Proof using Type.
  intros Hp Hq Hs Ho Ep Eq Hca. apply (anti_symm (⊆)).
  - apply (convictions_included fx' p q); try done. by apply (causal_agree fx fx' p q).
  - by apply (convictions_included fx q p).
Qed.

Lemma same_precedes (d d' : Dag) a b :
  dag_wf d -> dag_wf d' -> dag_parents d = dag_parents d' -> precedes d a b = precedes d' a b.
Proof using Type.
  intros Hd Hd' Hp. apply eq_bool_prop_intro. by rewrite !Is_true_true, !precedes_spec, Hp by done.
Qed.

Lemma same_members (d d' : Dag) pol g keep :
  dag_wf d -> dag_wf d' -> dag_ops d = dag_ops d' -> dag_parents d = dag_parents d' ->
  members_in (mkMembership d pol g) keep = members_in (mkMembership d' pol g) keep.
Proof using Type.
  intros Hd Hd' Ho Hp. apply members_in_cong; [done..| |].
  - intros o op. unfold visible. cbn [m_dag]. by rewrite Ho.
  - intros r a _ _ _ _. by apply same_precedes.
Qed.

Lemma same_frontier (d d' : Dag) :
  dag_wf d -> dag_wf d' -> dag_ops d = dag_ops d' -> dag_parents d = dag_parents d' -> frontier d = frontier d'.
Proof using Type.
  intros Hd Hd' Ho Hp. apply set_eq. intros o. rewrite !frontier_elem by done. unfold is_contrib. by rewrite Ho, Hp.
Qed.

Lemma combine_loop_ext (k k' : gmap Oid bytes) nodes acc :
  (forall n, n ∈ nodes -> k !! n = k' !! n) -> combine_loop k nodes acc = combine_loop k' nodes acc.
Proof using Type.
  revert acc. induction nodes as [|n nodes IH]; intros acc H; [done|]. cbn [combine_loop].
  rewrite (H n) by apply list_elem_of_here. destruct (k' !! n); [|done]. apply IH. intros m Hm. by apply H, list_elem_of_further.
Qed.

Lemma group_key_ext seed nodes r s s' :
  (forall n, n ∈ nodes -> nk_keys s !! n = nk_keys s' !! n) -> group_key seed nodes r s = group_key seed nodes r s'.
Proof using Type.
  intros H. unfold group_key, nk_combine. rewrite (combine_loop_ext (nk_keys s) (nk_keys s')); [done|].
  intros n Hn. by apply H, elem_of_bt_elems.
Qed.

(** C2. Replicas converge.  Two participants of one session and policy that
    hold the same operations, however and in whatever order they received them,
    have convicted the same members and compute the same roster, frontier and
    version; and the same group key when they hold the same node keys for the
    frontier.  This needs that the graphs hold the evidence for every conviction
    (as they do unless they are full, [evidence_stored]) and that every
    accusation follows the contribution it names. *)
Theorem replicas_converge p q t t' :
  reachable p -> reachable q -> p_sid p = p_sid q -> p_policy p = p_policy q ->
  dag_ops (p_dag p) = dag_ops (p_dag q) -> evidenced p -> evidenced q -> causal_accusations p ->
  p_guilty p = p_guilty q /\
  (p_members (mkEnv p t)).1 = (p_members (mkEnv q t')).1 /\
  (p_frontier (mkEnv p t)).1 = (p_frontier (mkEnv q t')).1 /\
  (p_version (mkEnv p t)).1 = (p_version (mkEnv q t')).1 /\
  (p_seed0 p = p_seed0 q ->
   (forall n, n ∈ frontier (p_dag p) -> nk_keys (p_nodekeys p) !! n = nk_keys (p_nodekeys q) !! n) ->
   (p_group_key (mkEnv p t)).1 = (p_group_key (mkEnv q t')).1).
Proof.
  intros Hp%reachable_ok Hq%reachable_ok Hs Hpol Ho Ep Eq Hca.
  pose proof (exact_same_parents _ _ (ok_wf p Hp) (ok_wf q Hq) (ok_exact p Hp) (ok_exact q Hq) Ho) as Hpar.
  pose proof (same_convictions _ _ p q Hp Hq Hs Ho Ep Eq Hca) as Hg.
  destruct (memo_values _ p t Hp) as (P1 & P2 & P3 & P4). destruct (memo_values _ q t' Hq) as (Q1 & Q2 & Q3 & Q4).
  assert (members (membership p) = members (membership q)) as Hm.
  { unfold members, membership. rewrite Hpol, Hg. exact (same_members _ _ _ _ _ (ok_wf p Hp) (ok_wf q Hq) Ho Hpar). }
  assert (frontier (p_dag p) = frontier (p_dag q)) as Hf by exact (same_frontier _ _ (ok_wf p Hp) (ok_wf q Hq) Ho Hpar).
  rewrite P1, P2, P3, P4, Q1, Q2, Q3, Q4. unfold root. rewrite Hm, Hf. split_and!; [done..|].
  intros -> Hk. f_equal. by apply group_key_ext.
Qed.
End converge.

(** ** Graphs that share operations *)

(** Two graphs have the same operation wherever both have one. *)
Definition compatible (d d' : Dag) : Prop :=
  forall o a b, dag_ops d !! o = Some a -> dag_ops d' !! o = Some b -> a = b.

Section shared.
Context (d d' : Dag) (Hd : dag_wf d) (Hd' : dag_wf d') (He : dag_exact d) (He' : dag_exact d').
Context (Hc : compatible d d').

Lemma shared_edge o x :
  o ∈ dom (dag_ops d) -> o ∈ dom (dag_ops d') -> edge (dag_parents d) o x -> edge (dag_parents d') o x.
Proof using He He' Hc.
  intros [a Ha]%elem_of_dom [b Hb]%elem_of_dom (ps & Hps & Hx). rewrite (He o a Ha) in Hps. injection Hps as <-.
  exists (op_deps b). split; [by apply He'|]. by rewrite <- (Hc o a b Ha Hb).
Qed.

(** The past of a shared operation is shared. *)
Lemma shared_rtc o x :
  o ∈ dom (dag_ops d) -> o ∈ dom (dag_ops d') -> rtc (edge (dag_parents d)) o x ->
  rtc (edge (dag_parents d')) o x /\ x ∈ dom (dag_ops d) /\ x ∈ dom (dag_ops d').
Proof using Hd Hd' He He' Hc.
  intros Ho Ho' Hr. induction Hr as [o|o y x Hy _ IH]; [done|].
  pose proof (shared_edge o y Ho Ho' Hy) as Hy'.
  destruct IH as (? & ? & ?); [by eapply (wf_closed d)|by eapply (wf_closed d')|]. split; [by eapply rtc_l|done].
Qed.

Lemma shared_tc o x :
  o ∈ dom (dag_ops d) -> o ∈ dom (dag_ops d') -> tc (edge (dag_parents d)) o x -> tc (edge (dag_parents d')) o x.
Proof using Hd Hd' He He' Hc.
  intros Ho Ho' Ht. induction Ht as [o x Hx|o y x Hy _ IH]; [by apply tc_once, shared_edge|].
  pose proof (shared_edge o y Ho Ho' Hy) as Hy'.
  eapply tc_l; [done|]. apply IH; [by eapply (wf_closed d)|by eapply (wf_closed d')].
Qed.
End shared.

Lemma compatible_sym d d' : compatible d d' -> compatible d' d.
Proof. intros H o a b Ha Hb. symmetry. by eapply H. Qed.

(** A roster before an operation depends only on the operation's past. *)
Section rosters.
Context (d d' : Dag) (Hd : dag_wf d) (Hd' : dag_wf d') (He : dag_exact d) (He' : dag_exact d').
Context (Hc : compatible d d') (op : Op) (Hs : stored_as d op) (Hs' : stored_as d' op).
Context (Hin : op_deps op ⊆ dom (dag_ops d)) (Hin' : op_deps op ⊆ dom (dag_ops d')).

Lemma shared_past_incl x : x ∈ declared_past d op -> x ∈ declared_past d' op /\ x ∈ dom (dag_ops d) /\ x ∈ dom (dag_ops d').
Proof using Hd Hd' He He' Hc Hs Hs' Hin Hin'.
  rewrite !declared_past_deps by done. intros (y & Hy & _ & Hr).
  destruct (shared_rtc d d' Hd Hd' He He' Hc y x (Hin y Hy) (Hin' y Hy) Hr) as (Hr' & ? & ?).
  split; [|done]. exists y. split; [done|]. split; [by apply Hin'|done].
Qed.
End rosters.

Lemma shared_roster d d' pol g op :
  dag_wf d -> dag_wf d' -> dag_exact d -> dag_exact d' -> compatible d d' -> stored_as d op -> stored_as d' op ->
  op_deps op ⊆ dom (dag_ops d) -> op_deps op ⊆ dom (dag_ops d') ->
  members_before (mkMembership d pol g) op = members_before (mkMembership d' pol g) op.
Proof.
  intros Hd Hd' He He' Hc Hs Hs' Hin Hin'. pose proof (compatible_sym _ _ Hc) as Hc'.
  assert (declared_past d op = declared_past d' op) as Hp.
  { apply set_eq. intros x. split; intros Hx.
    - by apply (shared_past_incl d d' Hd Hd' He He' Hc op Hs Hs' Hin Hin').
    - by apply (shared_past_incl d' d Hd' Hd He' He Hc' op Hs' Hs Hin' Hin). }
  assert (forall x, x ∈ declared_past d op -> x ∈ dom (dag_ops d) /\ x ∈ dom (dag_ops d')) as Hdom
    by (intros x Hx; by apply (shared_past_incl d d' Hd Hd' He He' Hc op Hs Hs' Hin Hin')).
  apply members_in_cong; cbn [m_dag m_policy m_guilty in_scope]; [done..| |].
  - intros o a. unfold visible. cbn [m_dag in_scope]. rewrite <- Hp, bool_decide_eq_true.
    split; intros [Ho Hx]; (split; [|done]); destruct (Hdom o Hx) as [[u Hu]%elem_of_dom [v Hv]%elem_of_dom];
      pose proof (Hc o u v Hu Hv); congruence.
  - intros r a opr opa _ [_ Ha]. cbn [m_dag in_scope] in *. rewrite <- Hp, bool_decide_eq_true in Ha.
    destruct (Hdom a Ha) as [A1 A2]. apply eq_bool_prop_intro. rewrite !Is_true_true, !precedes_spec by done.
    split; by apply shared_tc.
Qed.

(** ** Anti-entropy *)

Lemma extends_len d d' : dag_extends d d' -> (dag_len d <= dag_len d')%N.
Proof. intros [H _]. unfold dag_len. apply map_subseteq_size in H. lia. Qed.

Section sync.
Context {P : Primitives} {PO : PrimitivesOk P}.
Implicit Types (p q : Participant) (op : Op) (e : Env).

(** What [p] shares with a graph it shares with the part of it there was. *)
Lemma compatible_past d d1 d2 : compatible d d2 -> dag_extends d1 d2 -> compatible d d1.
Proof using Type. intros Hc [Hs _] o a b Ha Hb. eapply Hc; [done|]. by eapply lookup_weaken. Qed.

Lemma compatible_stored fx p q op :
  part_ok fx p -> compatible (p_dag p) (p_dag q) -> dag_ops (p_dag p) !! op_oid op = Some op -> stored_as (p_dag q) op.
Proof using Type. intros Hp Hc Ho op' Ho'. symmetry. by eapply Hc. Qed.

Lemma authorised_shared fx fx' p q op :
  part_ok fx p -> part_ok fx' q -> compatible (p_dag p) (p_dag q) -> p_policy p = p_policy q ->
  dag_ops (p_dag p) !! op_oid op = Some op -> op_deps op ⊆ dom (dag_ops (p_dag q)) -> is_founding op = false ->
  authorised (mkMembership (p_dag p) (p_policy p) (p_guilty q)) op = true -> authorised (membership q) op = true.
Proof using Type.
  intros Hp Hq Hc Hpol Ho Hdeps Hf. unfold membership, authorised. rewrite Hpol.
  rewrite (shared_roster (p_dag p) (p_dag q)); eauto using ok_wf, ok_exact, compatible_stored.
  - intros Hau. by rewrite (decide_op_dag (p_dag p) (p_dag q) _ (p_guilty q) (p_guilty q)).
  - intros op' Ho'. congruence.
  - intros y Hy. eapply (wf_closed _ (ok_wf p Hp) (op_oid op)). exists (op_deps op). split; [|done]. by apply (ok_exact p Hp).
Qed.

Lemma ingest_batch_cons op ops e : (ingest_batch (op :: ops) e).2 = (ingest_batch ops (ingest op e).2).2.
Proof using Type.
  cbn [ingest_batch]. unfold attempt, mbind, M_bind. destruct (ingest op e) as [r e1]. cbn [snd].
  by destruct (ingest_batch ops e1) as [[]].
Qed.

Lemma part_ok_here fx p : part_ok fx p -> part_ok (statics p) p.
Proof using Type. by apply (part_ok_rebase anything). Qed.

(** What a participant becomes keeps its history, session and policy. *)
Lemma grown asked p q :
  part_ok (statics_for asked (p_dag p) (p_guilty p) p) q ->
  dag_extends (p_dag p) (p_dag q) /\ p_guilty p ⊆ p_guilty q /\ p_sid q = p_sid p /\ p_policy q = p_policy p.
Proof using Type. intros []. injection ok_statics as _ Hs Hp _. by split_and!. Qed.

(** One operation of [p], delivered to [e] with its dependencies present. *)
Lemma ingest_from fx fx' p op e :
  part_ok fx p -> part_ok fx' (e_p e) -> told_apart (st_asked fx') -> st_asked fx' (op_deps op) ->
  compatible (p_dag p) (p_dag (e_p e)) -> p_sid p = p_sid (e_p e) -> p_policy p = p_policy (e_p e) ->
  dag_ops (p_dag p) !! op_oid op = Some op -> op_deps op ⊆ dom (dag_ops (p_dag (e_p e))) ->
  (dag_len (p_dag (e_p e)) < MAX_OPS)%N ->
  (op_oid op ∉ dom (dag_ops (p_dag (e_p e))) -> is_founding op = false /\
     authorised (mkMembership (p_dag p) (p_policy p) (p_guilty (e_p e))) op = true) ->
  op_oid op ∈ dom (dag_ops (p_dag (e_p (ingest op e).2))).
Proof.
  intros Hp Hq Hta Hk Hc Hs Hpol Ho Hd Hl Hau. destruct (ok_ops p Hp _ _ Ho) as (Hsid & Hv & Hb).
  destruct e as [q t]. cbn [e_p] in *.
  destruct (ingest_cases _ q t op Hq Hb Hk) as (_ & _ & H). specialize (H (eq_trans Hsid Hs) Hv) as [Hknown Hnew].
  destruct (decide (op_oid op ∈ dom (dag_ops (p_dag q)))) as [Hin|Hn]; [by rewrite (Hknown Hin)|].
  destruct (Hnew Hn) as [_ Ha]. destruct (Hau Hn) as [Hf Hau']. destruct (Ha Hd) as (deps & Ht & Hst).
  pose proof Hn as Hn'. apply not_elem_of_dom, dag_contains_false in Hn'.
  rewrite (taken_for_own _ _ _ Hta Ht), (verdict_on_self (membership q) op Hn') in Hst.
  rewrite (authorised_shared _ _ p q op Hp Hq Hc Hpol Ho Hd Hf Hau') in Hst. unfold decided in Hst.
  destruct (N.leb_spec MAX_OPS (dag_len (p_dag q))); [lia|]. by eapply elem_of_dom_2.
Qed.

(** A list of operations of [p], each after those it depends on. *)
Definition deliverable (d : Dag) (known : gset Oid) (ops : list Op) : Prop :=
  forall pre op post, ops = pre ++ op :: post -> dag_ops d !! op_oid op = Some op /\
    forall y, y ∈ op_deps op -> y ∈ known \/ y ∈ op_oid <$> pre.

Lemma deliverable_tail d known known' op ops :
  deliverable d known (op :: ops) -> known ⊆ known' -> op_oid op ∈ known' -> deliverable d known' ops.
Proof using Type.
  intros Hd Hk Hin pre o post ->. destruct (Hd (op :: pre) o post eq_refl) as [Ho Hy]. split; [done|].
  intros y Hy'. destruct (Hy y Hy') as [?|[->|?]%elem_of_cons]; [left; by apply Hk|by left|by right].
Qed.

Lemma batch_from fx fx' p ops e :
  part_ok fx p -> part_ok fx' (e_p e) -> told_apart (st_asked fx') -> presented (fx := fx') ops ->
  p_sid p = p_sid (e_p e) -> p_policy p = p_policy (e_p e) ->
  deliverable (p_dag p) (dom (dag_ops (p_dag (e_p e)))) ops ->
  (forall op, op ∈ ops -> op_oid op ∉ dom (dag_ops (p_dag (e_p e))) -> is_founding op = false /\
     authorised (mkMembership (p_dag p) (p_policy p) (p_guilty (e_p e))) op = true) ->
  let q' := e_p (ingest_batch ops e).2 in
  compatible (p_dag p) (p_dag q') -> p_guilty q' = p_guilty (e_p e) -> (dag_len (p_dag q') < MAX_OPS)%N ->
  forall op, op ∈ ops -> op_oid op ∈ dom (dag_ops (p_dag q')).
Proof.
  unfold presented. intros Hp Hq Hta Hpr. remember (st_asked fx') as A eqn:EA. revert fx' EA e Hq.
  induction Hpr as [|op ops [Hb Hk] Hpr IH]; intros fx' EA e Hq Hs Hpol Hdel Hau Hc Hg Hl.
  { intros op Hop. by apply elem_of_nil in Hop. }
  rewrite ingest_batch_cons in *. set (e1 := (ingest op e).2) in *.
  set (here := fun q : Participant => statics_for A (p_dag q) (p_guilty q) q).
  assert (part_ok (here (e_p e)) (e_p e)) as Hq0 by (subst A; by apply (part_ok_rebase (st_asked fx') (fx := fx'))).
  destruct (Hdel [] op ops eq_refl) as [Ho Hdeps].
  pose proof (keeps_ingest (fx := here (e_p e)) op Hb Hk e Hq0) as H1. fold e1 in H1.
  assert (part_ok (here (e_p e1)) (e_p e1)) as H1' by (by apply (part_ok_rebase A (fx := here (e_p e)))).
  pose proof (keeps_ingest_batch (fx := here (e_p e1)) ops Hpr e1 H1') as H2.
  destruct (grown _ _ _ H1) as (G1 & G2 & G3 & G4). destruct (grown _ _ _ H2) as (K1 & K2 & K3 & K4).
  assert (p_guilty (e_p e1) = p_guilty (e_p e)) as Hge by (apply (anti_symm (⊆)); [by rewrite <- Hg|done]).
  pose proof (extends_len _ _ G1). pose proof (extends_len _ _ K1).
  assert (op_oid op ∈ dom (dag_ops (p_dag (e_p e1)))) as Hin.
  { apply (ingest_from fx (here (e_p e)) p op e); try done.
    - eapply compatible_past; [exact Hc|]. by eapply extends_trans.
    - intros y Hy. destruct (Hdeps y Hy) as [|Hn]; [done|by apply elem_of_nil in Hn].
    - lia.
    - apply Hau, list_elem_of_here. }
  assert (dom (dag_ops (p_dag (e_p e))) ⊆ dom (dag_ops (p_dag (e_p e1)))) as Hsub by apply subseteq_dom, G1.
  intros o [->|Hop]%elem_of_cons; [by apply (subseteq_dom _ _ (proj1 K1))|].
  apply (IH (here (e_p e1)) eq_refl e1 H1'); [by rewrite G3|by rewrite G4| | |done|by rewrite Hge|done|done].
  - by eapply deliverable_tail.
  - intros x Hx Hno. rewrite Hge. apply Hau; [by apply list_elem_of_further|]. intros Hy. by apply Hno, Hsub.
Qed.

(** What [answer_sync] sends to a peer that advertised [heads]. *)
Definition missing_ops (d : Dag) (heads : list Oid) : list Op :=
  omap (dag_get d) (filter (fun oid => oid ∉ causal_closure d heads) (topological d)).

Lemma missing_ops_spec d heads op :
  dag_wf d -> op ∈ missing_ops d heads <->
  op_oid op ∉ causal_closure d heads /\ dag_ops d !! op_oid op = Some op.
Proof using Type.
  intros Hw. destruct (topological_spec d Hw) as (_ & Hin & _). unfold missing_ops, dag_get.
  rewrite list_elem_of_omap. split.
  - intros (o & [Ho Ht]%list_elem_of_filter & Hop). by rewrite (wf_oid d Hw o op Hop).
  - intros [Hc Hop]. exists (op_oid op). split; [|done]. apply list_elem_of_filter. split; [done|].
    apply Hin. by eapply elem_of_dom_2.
Qed.

(** A prefix of the selected operations comes from a prefix of the order. *)
Lemma omap_filter_split (f : Oid -> option Op) (K : gset Oid) l pre op post :
  omap f (filter (fun o => o ∉ K) l) = pre ++ op :: post ->
  exists l1 o l2, l = l1 ++ o :: l2 /\ f o = Some op /\ o ∉ K /\ pre = omap f (filter (fun o => o ∉ K) l1).
Proof using Type.
  revert pre. induction l as [|x l IH]; intros pre; [by destruct pre|].
  rewrite filter_cons. destruct (decide (x ∉ K)) as [Hx|Hx]; simpl; [|destruct_decide (decide (x ∉ K)) as Hx'; [done|]].
  - destruct (f x) as [a|] eqn:Ef.
    + destruct pre as [|b pre]; intros [= -> H].
      * by exists [], x, l.
      * destruct (IH pre H) as (l1 & o & l2 & -> & Ho & Hk & ->). exists (x :: l1), o, l2. split_and!; [done..|].
        rewrite filter_cons, decide_True by done. simpl. by rewrite Ef.
    + intros H. destruct (IH pre H) as (l1 & o & l2 & -> & Ho & Hk & ->). exists (x :: l1), o, l2. split_and!; [done..|].
      rewrite filter_cons, decide_True by done. simpl. by rewrite Ef.
  - intros H. destruct (IH pre H) as (l1 & o & l2 & -> & Ho & Hk & ->). exists (x :: l1), o, l2. split_and!; [done..|].
    by rewrite filter_cons, decide_False by done.
Qed.

(** The answer goes out in causal order, above what the peer's heads cover. *)
Lemma missing_deliverable d heads known :
  dag_wf d -> dag_exact d -> (forall x, x ∈ causal_closure d heads -> x ∈ known) ->
  deliverable d known (missing_ops d heads).
Proof.
  intros Hw He Hk pre op post (l1 & o & l2 & Hl & Ho & Hn & ->)%omap_filter_split.
  destruct (topological_spec d Hw) as (_ & Hin & Hr). unfold dag_get in Ho.
  pose proof (wf_oid d Hw o op Ho) as Hoid. rewrite Hoid. split; [done|]. intros y Hy.
  assert (edge (dag_parents d) o y) as Hedge by (exists (op_deps op); split; [by apply He|done]).
  destruct (decide (y ∈ causal_closure d heads)) as [|Hyn]; [left; by apply Hk|right].
  pose proof (Hr l1 o l2 Hl y Hedge) as Hyl.
  assert (y ∈ dom (dag_ops d)) as [a Ha]%elem_of_dom by (apply Hin; rewrite Hl; apply elem_of_app; by left).
  apply list_elem_of_fmap. exists a. split; [symmetry; by apply (wf_oid d Hw)|].
  apply list_elem_of_omap. exists y. split; [|done]. apply list_elem_of_filter. by split.
Qed.

(** What the advertised heads cover is held by the one who advertised them. *)
Lemma covered_held d d' x :
  dag_wf d -> dag_wf d' -> dag_exact d -> dag_exact d' -> compatible d d' ->
  x ∈ causal_closure d (bt_elems (dag_heads d')) -> x ∈ dom (dag_ops d').
Proof.
  intros Hw Hw' He He' Hc (h & Hh & Hd & Hr)%causal_closure_spec; [|done].
  apply elem_of_bt_elems, dag_heads_spec in Hh as [Hh _].
  by destruct (shared_rtc d d' Hw Hw' He He' Hc h x Hd Hh Hr) as (_ & _ & ?).
Qed.

(** The participant that has taken a delivery in. *)
Definition after_delivery q (ops : list Op) (t : Tape) : Participant :=
  e_p (dispatch (MDeliver ops []) (mkEnv q t)).2.

Lemma after_delivery_eq q ops t : after_delivery q ops t = e_p (ingest_batch ops (mkEnv q t)).2.
Proof using Type.
  unfold after_delivery. cbn [dispatch]. unfold mbind, M_bind.
  by destruct (ingest_batch ops (mkEnv q t)) as [[]].
Qed.

Lemma sync_answered p from heads t :
  part_ok (statics p) p -> from ∈ members (membership p) ->
  (dispatch (MSync from heads) (mkEnv p t)).1 = Ok ([], answer_sync p from heads).
Proof using Type.
  intros Hp Hm. destruct (members_at p t Hp) as (q & Hq & _ & Hcase). cbn [dispatch].
  rewrite (bind_ok _ _ _ _ _ Hq), bool_decide_true by done. by destruct Hcase as [->| ->].
Qed.

(** A replica with every identifier of another has its operations. *)
Lemma holds_all d d' : compatible d d' -> dom (dag_ops d) ⊆ dom (dag_ops d') -> dag_ops d ⊆ dag_ops d'.
Proof using Type.
  intros Hc Hd. apply map_subseteq_spec. intros o a Ha.
  assert (o ∈ dom (dag_ops d')) as [b Hb]%elem_of_dom by (apply Hd; by eapply elem_of_dom_2).
  by rewrite (Hc o a b Ha Hb).
Qed.

(** C3. Anti-entropy completes a replica.  When [q] advertises its heads to a
    participant [p] of its session that counts it as a member, the answer of [p]
    starts with one delivery (none is sent when nothing is missing): exactly the
    operations of [p] above the advertised heads, each after those of its
    dependencies that [q] does not hold.  Once [q] has taken the delivery in, it
    holds every operation of [p] besides its own.  For that, none of the
    operations [q] lacks may be the founding one, each must be authorised where
    it stands, no conviction may come of the batch, the graph of [q] may not be
    full, no operation of [p] may share its identifier with another one that [q]
    holds then, and the digest that keys the verdict memo of [q] must tell the
    dependency sets of what was and is presented to [q] apart. *)
Theorem sync_completes l p q t t' :
  reachable p -> reached l q -> p_sid p = p_sid q -> p_policy p = p_policy q ->
  p_ipk q ∈ members (membership p) ->
  let heads := bt_elems (dag_heads (p_dag q)) in
  let ops := missing_ops (p_dag p) heads in
  let q' := after_delivery q ops t' in
  separate (ops ++ l) -> compatible (p_dag p) (p_dag q') ->
  (forall o op, dag_ops (p_dag p) !! o = Some op -> o ∉ dom (dag_ops (p_dag q)) ->
     is_founding op = false /\ authorised (mkMembership (p_dag p) (p_policy p) (p_guilty q)) op = true) ->
  p_guilty q' = p_guilty q -> (dag_len (p_dag q') < MAX_OPS)%N ->
  (exists out, (dispatch (MSync (p_ipk q) heads) (mkEnv p t)).1 = Ok ([], out) /\
     (ops <> [] -> head out = Some (direct (p_ipk q) (MDeliver ops [])))) /\
  (forall op, op ∈ ops <-> dag_ops (p_dag p) !! op_oid op = Some op /\ op_oid op ∉ causal_closure (p_dag p) heads) /\
  (forall pre op post, ops = pre ++ op :: post ->
     forall y, y ∈ op_deps op -> y ∈ dom (dag_ops (p_dag q)) \/ y ∈ op_oid <$> pre) /\
  dag_ops (p_dag p) ⊆ dag_ops (p_dag q') /\ dag_ops (p_dag q) ⊆ dag_ops (p_dag q').
Proof.
  intros Hp%reachable_ok Hql Hs Hpol Hm heads ops q' Hsep Hc Hau Hg Hl.
  set (A := deps_of (ops ++ l)). set (here := statics_for A (p_dag q) (p_guilty q) q).
  assert (part_ok here q) as Hq.
  { apply (reached_ok A l q Hql). pose proof (deps_of_all (ops ++ l)) as H. by apply Forall_app in H as [_ H]. }
  assert (forall op, op ∈ ops <-> op_oid op ∉ causal_closure (p_dag p) heads /\ dag_ops (p_dag p) !! op_oid op = Some op)
    as Hops by (intros op; apply missing_ops_spec, Hp).
  assert (presented (fx := here) ops) as Hpr.
  { apply Forall_and. split.
    - apply Forall_forall. intros op Hop. by apply (ok_ops p Hp _ _ (proj2 (proj1 (Hops op) Hop))).
    - pose proof (deps_of_all (ops ++ l)) as H. by apply Forall_app in H as [H _]. }
  subst q'. rewrite after_delivery_eq in *.
  pose proof (keeps_ingest_batch (fx := here) ops Hpr (mkEnv q t') Hq) as Hq'. destruct (grown _ _ _ Hq') as (Hx & _).
  pose proof (compatible_past _ _ _ Hc Hx) as Hc0.
  assert (deliverable (p_dag p) (dom (dag_ops (p_dag q))) ops) as Hdel.
  { apply missing_deliverable; [apply Hp|apply Hp|]. intros x. apply covered_held; [apply Hp|apply Hq|apply Hp|apply Hq|done]. }
  split_and!.
  - exists (answer_sync p (p_ipk q) heads). split; [by apply sync_answered|].
    unfold answer_sync. fold (missing_ops (p_dag p) heads). fold ops. by destruct ops.
  - intros op. rewrite (Hops op). tauto.
  - intros pre op post E. by apply (Hdel pre op post E).
  - apply holds_all; [exact Hc|]. intros o [op Ho]%elem_of_dom.
    pose proof (wf_oid _ (ok_wf p Hp) o op Ho) as Hoid.
    destruct (decide (o ∈ causal_closure (p_dag p) heads)) as [Hk|Hk].
    + apply (subseteq_dom _ _ (proj1 Hx)).
      by apply (covered_held (p_dag p) (p_dag q)); [apply Hp|apply Hq|apply Hp|apply Hq|..].
    + rewrite <- Hoid. apply (batch_from _ here p ops (mkEnv q t') Hp Hq Hsep Hpr Hs Hpol Hdel); try done.
      * intros x Hxx. by apply Hau, Hops.
      * apply Hops. by rewrite Hoid.
  - apply Hx.
Qed.

(** A full graph takes nothing in. *)
Lemma ingest_full fx p t op :
  part_ok fx p -> built op -> (MAX_OPS <= dag_len (p_dag p))%N -> p_dag (e_p (ingest op (mkEnv p t)).2) = p_dag p.
Proof.
  intros Hp%part_ok_here Hb Hf. destruct (ingest_cases _ p t op Hp Hb I) as (H1 & H2 & H3).
  destruct (decide (op_sid op = p_sid p)) as [Hs|Hs]; [|by rewrite (H1 Hs)].
  destruct (decide (op_verify op = Ok tt)) as [Hv|Hv]; [|by rewrite (H2 Hs Hv)].
  destruct (H3 Hs Hv) as [H4 H5]. destruct (decide (op_oid op ∈ dom (dag_ops (p_dag p)))) as [Hin|Hn]; [by rewrite (H4 Hin)|].
  destruct (H5 Hn) as [H6 H7]. destruct (decide (op_deps op ⊆ dom (dag_ops (p_dag p)))) as [Hd|Hd].
  - destruct (H7 Hd) as (deps & _ & H). unfold decided in H. destruct (verdict_on _ _ _); [|by destruct H as [c ->]].
    destruct (N.leb_spec MAX_OPS (dag_len (p_dag p))); [by destruct H as [c ->]|lia].
  - rewrite (H6 Hd). unfold buffered. cbn [snd e_p]. case_decide; [by destruct (existsb _ _)|done].
Qed.

Lemma batch_full p t ops :
  part_ok (statics p) p -> Forall built ops -> (MAX_OPS <= dag_len (p_dag p))%N ->
  p_dag (e_p (ingest_batch ops (mkEnv p t)).2) = p_dag p.
Proof.
  intros Hp Hb. revert p t Hp. induction Hb as [|op ops Hop _ IH]; intros p t Hp Hf; [done|].
  rewrite ingest_batch_cons. pose proof (ingest_full _ p t op Hp Hop Hf) as Hd.
  pose proof (keeps_ingest (fx := statics p) op Hop I (mkEnv p t) Hp) as Hp'%part_ok_here.
  destruct (ingest op (mkEnv p t)) as [r [p' t']]. cbn [snd e_p] in *.
  rewrite (IH p' t' Hp'); [done|by rewrite Hd].
Qed.

(** A participant with a full graph answers the heads of a member that it does
    not know by advertising its own, and takes in nothing of what it is sent: two
    such participants with different heads ask each other for ever. *)
Lemma full_graphs_echo p from heads ops t t' :
  part_ok (statics p) p -> (MAX_OPS <= dag_len (p_dag p))%N -> from ∈ members (membership p) ->
  (exists h, h ∈ heads /\ h ∉ dom (dag_ops (p_dag p))) -> Forall built ops ->
  (exists out, (dispatch (MSync from heads) (mkEnv p t)).1 = Ok ([], out) /\
     last out = Some (direct from (MSync (p_ipk p) (bt_elems (dag_heads (p_dag p)))))) /\
  p_dag (after_delivery p ops t') = p_dag p.
Proof.
  intros Hp Hf Hm (h & Hh & Hn) Hb. split; [|rewrite after_delivery_eq; by apply batch_full].
  exists (answer_sync p from heads). split; [by apply sync_answered|]. unfold answer_sync. cbn zeta.
  assert (existsb (fun head => negb (dag_contains (p_dag p) head)) heads = true) as ->.
  { apply existsb_exists. exists h. split; [by apply list_elem_of_In|].
    apply negb_true_iff, not_true_iff_false. intros Hc. by apply Hn, dag_contains_spec. }
  apply last_snoc.
Qed.
End sync.

(** ** Two orders of the same operations

    Alice invites Bob and Carol.  Bob sends Carol a slice that does not match
    its commitment; Carol accuses him in an operation that does not name the
    contribution among its dependencies, so the two may arrive in either order. *)

Definition ex_join2 : PendingJoin :=
  outcome (mkPendingJoin [] (mkPool 0 None [] ∅ 0) policy_default)
    (pending_new (P := Toy) policy_default (ex_tape 120)).
Definition ex_watch_invite : result Error (list Outbound) * Env :=
  invite (P := Toy) (key_package (P := Toy) ex_join2) (mkEnv ex_alice (ex_tape 60)).
Definition ex_watch : Participant := e_p ex_watch_invite.2.

Definition ex_id (j : PendingJoin) : SigPublic := sig_public (P := Toy) (pj_identity j).
Definition ex_mk : bytes := array_of (byte_of 7) 32.
Definition ex_cid : Cid := array_of (byte_of 9) 32.
Definition ex_view : bytes := array_of (byte_of 3) 32.

(** Bob's contribution: what the slice seals is not what the commitment says. *)
Definition ex_bad : Op :=
  op_create (P := Toy) (pj_identity ex_join) (p_sid ex_watch) (dag_heads (p_dag ex_watch))
    (Contrib ex_cid ∅ [ex_id ex_join2]
       [mkSlice (ex_id ex_join2) None 0
          (aead_seal (P := Toy) ex_mk (slice_nonce (P := Toy) (p_sid ex_watch) ex_cid (ex_id ex_join2) 0)
             (array_of (byte_of 1) 32) (contrib_ad (P := Toy) ex_cid ex_view))] ex_view).

(** Carol's accusation, whose dependencies leave the contribution out. *)
Definition ex_acc : Op :=
  op_create (P := Toy) (pj_identity ex_join2) (p_sid ex_watch) (dag_heads (p_dag ex_watch))
    (Accuse (ex_id ex_join) (op_oid ex_bad) ex_mk 0).

Definition ex_take (op : Op) (p : Participant) : Participant :=
  e_p (handle (P := Toy) (message_to_wire (MOp op)) (mkEnv p [])).2.

Definition ex_bad_first : Participant := ex_take ex_acc (ex_take ex_bad ex_watch).
Definition ex_acc_first : Participant := ex_take ex_bad (ex_take ex_acc ex_watch).

Lemma ex_take_reachable op p : reachable (P := Toy) p -> reachable (P := Toy) (ex_take op p).
Proof.
  intros Hp. destruct (ignore_env (handle (P := Toy) (message_to_wire (MOp op))) (mkEnv p [])) as [r H].
  exact (reach_call _ (CHandle (message_to_wire (MOp op))) _ _ _ Hp H).
Qed.

Lemma ex_watch_reachable : reachable (P := Toy) ex_watch.
Proof.
  destruct (ignore_env (invite (P := Toy) (key_package (P := Toy) ex_join2)) (mkEnv ex_alice (ex_tape 60))) as [r H].
  exact (reach_call _ (CInvite (key_package (P := Toy) ex_join2)) _ _ _ ex_alice_reachable H).
Qed.

Definition split_brain (a b : Participant) (guilty : SigPublic) : bool :=
  bool_decide (p_sid a = p_sid b) && bool_decide (p_policy a = p_policy b)
  && bool_decide (dag_ops (p_dag a) = dag_ops (p_dag b))
  && bool_decide (p_guilty a = {[guilty]}) && bool_decide (p_guilty b = ∅)
  && bool_decide (guilty ∉ members (membership a)) && bool_decide (guilty ∈ members (membership b))
  && bool_decide (p_open_accusations b = []).

Lemma split_brain_spec a b g :
  split_brain a b g = true ->
  p_sid a = p_sid b /\ p_policy a = p_policy b /\ dag_ops (p_dag a) = dag_ops (p_dag b) /\
  p_guilty a = {[g]} /\ p_guilty b = ∅ /\ p_open_accusations b = [] /\
  g ∉ members (membership a) /\ g ∈ members (membership b).
Proof.
  unfold split_brain. rewrite !andb_true_iff, !bool_decide_eq_true.
  tauto.
Qed.

Lemma ex_split : split_brain ex_bad_first ex_acc_first (ex_id ex_join) = true.
Proof. vm_compute. reflexivity. Qed.

#[local] Opaque ex_join ex_join2 ex_watch ex_bad ex_acc ex_take.

(** The proviso of convergence cannot be dropped: two participants can be
    reached that share session, policy and every stored operation and still
    disagree about who is a member.  One took in a contribution that does not
    match its commitment and then the accusation that proves it; the other took
    them in the opposite order, which the dependencies allow, and neither
    convicted the contributor nor kept the accusation to retry it. *)
Theorem accusation_order_matters :
  exists a b guilty,
    reachable (P := Toy) a /\ reachable (P := Toy) b /\
    p_sid a = p_sid b /\ p_policy a = p_policy b /\ dag_ops (p_dag a) = dag_ops (p_dag b) /\
    p_guilty a = {[guilty]} /\ p_guilty b = ∅ /\ p_open_accusations b = [] /\
    guilty ∉ members (membership a) /\ guilty ∈ members (membership b).
Proof.
  exists ex_bad_first, ex_acc_first, (ex_id ex_join). unfold ex_bad_first, ex_acc_first.
  split; [apply ex_take_reachable, ex_take_reachable, ex_watch_reachable|].
  split; [apply ex_take_reachable, ex_take_reachable, ex_watch_reachable|].
  exact (split_brain_spec _ _ _ ex_split).
Qed.

(** ** Witnesses *)

(** Alice lacks the prekey Bob published when he joined; a round of
    anti-entropy delivers it. *)
Definition ex_lacking : list Op := missing_ops (p_dag ex_bob) (bt_elems (dag_heads (p_dag ex_alice))).
Definition ex_handed : Participant :=
  e_p (handle (P := Toy) (message_to_wire (MDeliver ex_lacking [])) (mkEnv ex_alice (ex_tape 90))).2.

Lemma ex_handed_reachable : reachable (P := Toy) ex_handed.
Proof.
  destruct (ignore_env (handle (P := Toy) (message_to_wire (MDeliver ex_lacking []))) (mkEnv ex_alice (ex_tape 90))) as [r H].
  exact (reach_call _ (CHandle (message_to_wire (MDeliver ex_lacking []))) _ _ _ ex_alice_reachable H).
Qed.

Definition all_admissible (p q : Participant) : bool :=
  forallb (fun '(o, op) => bool_decide (o ∈ dom (dag_ops (p_dag q)))
    || negb (is_founding op) && authorised (mkMembership (p_dag p) (p_policy p) (p_guilty q)) op)
    (map_to_list (dag_ops (p_dag p))).

Lemma all_admissible_spec p q :
  all_admissible p q = true ->
  forall o op, dag_ops (p_dag p) !! o = Some op -> o ∉ dom (dag_ops (p_dag q)) ->
    is_founding op = false /\ authorised (mkMembership (p_dag p) (p_policy p) (p_guilty q)) op = true.
Proof.
  unfold all_admissible. rewrite forallb_forall. intros H o op Ho Hn. specialize (H (o, op)). cbn beta iota in H.
  rewrite bool_decide_false in H by exact Hn. cbn [orb] in H.
  apply andb_true_iff in H as [Hf Ha]; [by apply negb_true_iff in Hf|].
  apply list_elem_of_In, elem_of_map_to_list, Ho.
Qed.

Definition accuses (op : Op) : bool := match accused op with Some _ => true | None => false end.

Lemma no_accusations p :
  forallb (fun '(_, op) => negb (accuses op)) (map_to_list (dag_ops (p_dag p))) = true -> causal_accusations (P := Toy) p.
Proof.
  intros H oid acc who coid Hacc Ha _. rewrite forallb_forall in H.
  specialize (H (oid, acc)). cbn beta iota in H. unfold accuses in H. rewrite Ha in H.
  discriminate H. apply list_elem_of_In, elem_of_map_to_list, Hacc.
Qed.

Lemma innocent_evidenced p : p_guilty p = ∅ -> evidenced (P := Toy) p.
Proof. intros H who. rewrite H. set_solver. Qed.

Lemma ex_alice_reached : reached (P := Toy) [] ex_alice.
Proof.
  destruct (made_ok (create (P := Toy) policy_default (ex_tape 10))) as (a & t & H); [vm_compute; reflexivity|].
  assert (reached (P := Toy) [] ex_alice0) as H0 by exact (reached_create _ _ _ _ _ H).
  destruct (ignore_env (invite (P := Toy) (key_package (P := Toy) ex_join)) (mkEnv ex_alice0 (ex_tape 30))) as [r Hr].
  exact (reached_call _ _ (CInvite (key_package (P := Toy) ex_join)) _ _ _ H0 Hr).
Qed.

Definition compatible_check (d d' : Dag) : bool :=
  forallb (fun '(o, a) => match dag_ops d' !! o with Some b => bool_decide (a = b) | None => true end) (map_to_list (dag_ops d)).

Lemma compatible_check_spec d d' : compatible_check d d' = true -> compatible d d'.
Proof.
  unfold compatible_check. rewrite forallb_forall. intros H o a b Ha Hb. specialize (H (o, a)). cbn beta iota in H.
  rewrite Hb in H. apply bool_decide_eq_true in H; [exact H|]. by apply list_elem_of_In, elem_of_map_to_list.
Qed.

(** Alice, with what she took in. *)
Definition ex_completed : Participant := after_delivery (P := Toy) ex_alice ex_lacking (ex_tape 90).

Lemma ex_lacking_separate : separate (P := Toy) (ex_lacking ++ []).
Proof. apply separate_check. vm_compute. reflexivity. Qed.

Lemma ex_completed_compatible : compatible (p_dag ex_bob) (p_dag ex_completed).
Proof. apply compatible_check_spec. vm_compute. reflexivity. Qed.

#[local] Opaque ex_alice ex_bob ex_handed missing_ops dag_heads after_delivery.

Lemma replicas_converge_witness :
  p_guilty ex_handed = p_guilty ex_bob /\
  (p_members (P := Toy) (mkEnv ex_handed [])).1 = (p_members (P := Toy) (mkEnv ex_bob [])).1.
Proof.
  destruct (replicas_converge (P := Toy) ex_handed ex_bob [] [] ex_handed_reachable ex_bob_reachable) as (H1 & H2 & _).
  - apply (bool_decide_unpack (p_sid ex_handed = p_sid ex_bob)). vm_compute; exact I.
  - apply (bool_decide_unpack (p_policy ex_handed = p_policy ex_bob)). vm_compute; exact I.
  - apply (bool_decide_unpack (dag_ops (p_dag ex_handed) = dag_ops (p_dag ex_bob))). vm_compute; exact I.
  - apply innocent_evidenced, (bool_decide_unpack (p_guilty ex_handed = ∅)). vm_compute; exact I.
  - apply innocent_evidenced, (bool_decide_unpack (p_guilty ex_bob = ∅)). vm_compute; exact I.
  - apply no_accusations. vm_compute. reflexivity.
  - exact (conj H1 H2).
Defined.

Lemma sync_completes_witness : dag_ops (p_dag ex_bob) ⊆ dag_ops (p_dag ex_completed).
Proof.
  refine (proj1 (proj2 (proj2 (proj2 (sync_completes (P := Toy) [] ex_bob ex_alice [] (ex_tape 90)
    ex_bob_reachable ex_alice_reached _ _ _ ex_lacking_separate ex_completed_compatible
    (all_admissible_spec _ _ _) _ _))))).
  - apply (bool_decide_unpack (p_sid ex_bob = p_sid ex_alice)). vm_compute; exact I.
  - apply (bool_decide_unpack (p_policy ex_bob = p_policy ex_alice)). vm_compute; exact I.
  - apply (bool_decide_unpack (p_ipk ex_alice ∈ members (membership ex_bob))). vm_compute; exact I.
  - vm_compute. reflexivity.
  - apply (bool_decide_unpack (p_guilty ex_completed = p_guilty ex_alice)). vm_compute; exact I.
  - apply (bool_decide_unpack (dag_len (p_dag ex_completed) < MAX_OPS)%N). vm_compute; exact I.
Defined.
