(* ===== verification/Fuzz.v ===== *)
(** * The fuzz targets

    [src/fuzz/fuzz_targets]: each target states properties the fuzzer tries to
    refute on arbitrary input.  A target is modelled as a function that answers
    whether its assertions hold on that input; the theorems decide the
    assertions for every input, where the fuzzer samples them. *)

From Stdlib Require Import NArith Lia.
From S2P Require Import Prelude Crypto Toy Codec Ops Layout Frame Checkpoint Wire.

(** ** codec_canonical.rs *)

Definition if_finished (r : Reader) (again : bytes) : option bytes :=
  match (reader_finish r).1 with Ok _ => Some again | Err _ => None end.

(** Decodes a self-describing value and re-encodes it. *)
Definition round (data : bytes) : option bytes :=
  match reader_bytes (reader_new data) with
  | (Ok v, r) => if_finished r (writer_finish (writer_bytes v writer_new))
  | _ =>
  match reader_u64 (reader_new data) with
  | (Ok v, r) => if_finished r (writer_finish (writer_u64 v writer_new))
  | _ =>
  match reader_str (reader_new data) with
  | (Ok v, r) => if_finished r (writer_finish (writer_str v writer_new))
  | _ =>
  match reader_set reader_bytes (reader_new data) with
  | (Ok v, r) => if_finished r (writer_finish (writer_set v writer_bytes writer_new))
  | _ =>
  match reader_list reader_bytes (reader_new data) with
  | (Ok v, r) => if_finished r (writer_finish (writer_list v writer_bytes writer_new))
  | _ => None
  end end end end end.

Definition codec_canonical (data : bytes) : bool :=
  match round data with Some again => bool_decide (again = data) | None => true end.

(** ** frame_layout.rs *)

Definition CODECS : list Codec := [H264; H265; Av1; Vp8; Vp9; Opus; Generic].

Definition frame_layout (data : bytes) : bool :=
  match data with
  | [] => true
  | b :: frame =>
      let codec := nth (Byte.to_nat b mod length CODECS) CODECS Generic in
      let keyframe := negb (N.land (Byte.to_N b) 128 =? 0)%N in
      let l := layout codec frame keyframe in
      tiles l (lenN frame)
      && forallb (fun r => (r.1 <=? r.2)%N && (r.2 <=? lenN frame)%N) (ly_clear l ++ ly_secret l)
  end.

Section targets.
Context {P : Primitives}.

(** ** frame_open.rs *)

Definition seed_key (b : N) : SigPublic := sig_public (array_of (byte_of b) 32).

Definition opened_by (me : SigPublic) (roster : list SigPublic) : Protector :=
  install (array_of (byte_of 1) 8) (array_of (byte_of 7) 32) roster
    (protector_new (array_of (byte_of 0) 32) me 4).

Definition frame_open (data : bytes) : bool :=
  let a := seed_key 1 in
  let b := seed_key 2 in
  let rx := opened_by b [a; b] in
  let _ := inspect data in
  match (unprotect data rx).1 with
  | Ok (from, plain) =>
      let tx := opened_by a [a; b] in
      let _ := protect Generic plain false tx in
      bool_decide (from = a)
  | Err _ => true
  end.

(** ** message_parse.rs *)

Definition message_parse (data : bytes) : bool :=
  match message_from_wire data with
  | Err _ => true
  | Ok m =>
      bool_decide (message_to_wire m = data)
      && match message_from_wire (message_to_wire m) with
         | Ok m' => bool_decide (m' = m)
         | Err _ => false
         end
  end.

(** ** op_parse.rs *)

Definition op_parse (data : bytes) : bool :=
  match op_from_wire data with
  | Err _ => true
  | Ok op =>
      let _ := op_verify op in
      bool_decide (op_to_wire op = data)
      && match op_from_wire data with
         | Ok op' => bool_decide (op_oid op' = op_oid op)
         | Err _ => false
         end
  end.
End targets.

(** ** What the assertions come to *)

Lemma if_finished_some r again x : if_finished r again = Some x -> x = again /\ r_pos r = lenN (r_buf r).
Proof.
  unfold if_finished, reader_finish. destruct (N.eqb_spec (r_pos r) (lenN (r_buf r))); [|done].
  by intros [= <-].
Qed.

(** A shape that was read to the end of its input is written back as it was. *)
Lemma shape_back {A} (V : A -> Prop) img (f : Rd A) (L : Lawful V img f) data v r :
  f (reader_new data) = (Ok v, r) -> r_pos r = lenN (r_buf r) -> img v = data.
Proof.
  intros H Hr. change (reader_new data) with (rd_at [] data) in H. apply L in H as (_ & post & -> & ->).
  apply rd_at_end in Hr as ->. by rewrite app_nil_r.
Qed.

Lemma round_back data again : round data = Some again -> again = data.
Proof.
  unfold round.
  destruct (reader_bytes _) as [[v|x] r] eqn:E1.
  { intros [-> Hr]%if_finished_some. exact (shape_back _ _ _ reader_bytes_lawful data v r E1 Hr). }
  destruct (reader_u64 _) as [[v|x2] r2] eqn:E2.
  { intros [-> Hr]%if_finished_some. exact (shape_back _ _ _ reader_u64_lawful data v r2 E2 Hr). }
  destruct (reader_str _) as [[v|x3] r3] eqn:E3.
  { intros [-> Hr]%if_finished_some. exact (shape_back _ _ _ reader_str_lawful data v r3 E3 Hr). }
  destruct (reader_set _ _) as [[v|x4] r4] eqn:E4.
  { intros [-> Hr]%if_finished_some. rewrite <- (shape_back _ _ _ reader_set_lawful data v r4 E4 Hr).
    unfold writer_finish. by rewrite (w_buf_set _ bytes_image) by apply w_buf_bytes. }
  destruct (reader_list _ _) as [[v|x5] r5] eqn:E5; [|done].
  intros [-> Hr]%if_finished_some. rewrite <- (shape_back _ _ _ reader_list_lawful data v r5 E5 Hr).
  unfold writer_finish. by rewrite (w_buf_list _ bytes_image) by apply w_buf_bytes.
Qed.

Lemma layout_target data : frame_layout data = true.
Proof.
  destruct data as [|b frame]; [done|]. unfold frame_layout.
  set (l := layout _ frame _). pose proof (layout_tiling _ frame _ : tiling l (lenN frame)) as (L & Hc & H1 & H2).
  apply andb_true_iff. split.
  - unfold tiles. rewrite H1, H2.
    destruct (sort_ranges_spec (clears L ++ secrets L)) as [Hp Hs].
    rewrite (sorted_ranges_unique _ L.*2 Hs (chain_sorted _ _ _ Hc)); [by apply chain_tiles_from|].
    by rewrite Hp, clears_secrets_perm.
  - apply forallb_forall. intros r Hr%list_elem_of_In. rewrite H1, H2, clears_secrets_perm in Hr.
    apply list_elem_of_fmap in Hr as (e & -> & He). destruct (chain_starts _ _ _ _ Hc He).
    apply andb_true_iff. split; apply N.leb_le; lia.
Qed.

Section properties.
Context {P : Primitives}.

Lemma opened_by_version me roster c vk :
  p_versions (opened_by me roster) !! c = Some vk ->
  vk_roster vk = foldl (fun m id => <[sender_tag id := id]> m) ∅ roster.
Proof.
  unfold opened_by, install, protector_new. cbn [p_versions]. rewrite lookup_empty. cbn [p_order p_retain app drop_old].
  destruct (N.ltb_spec (N.max 4 1) (lenN [context_id (array_of (byte_of 1) 8)])) as [Hl|_]; [done|].
  cbn [p_versions]. rewrite lookup_insert_Some, lookup_empty. by intros [[_ <-]|[_ ?]].
Qed.

Lemma opened_by_me me roster : p_me (opened_by me roster) = me.
Proof.
  unfold opened_by, install, protector_new. cbn [p_versions]. rewrite lookup_empty.
  by destruct (drop_old _ _ _).
Qed.

Lemma frame_target data : frame_open data = true.
Proof.
  unfold frame_open. cbn zeta. set (rx := opened_by _ _).
  destruct (unprotect_cases data rx) as [[e ->]|(t & vk & sender & raw & body & tag & _ & _ & _ & Hv & Hs & Hme & ->)];
    [done|].
  destruct (open_with _ _ _ _ _ _ _) as [[plain|x] vk']; [|done]. cbn [fst].
  apply bool_decide_eq_true_2. rewrite (opened_by_version _ _ _ _ Hv) in Hs.
  unfold rx in Hme. rewrite opened_by_me in Hme. cbn [foldl] in Hs.
  apply lookup_insert_Some in Hs as [[_ <-]|[_ Hs]]; [done|].
  apply lookup_insert_Some in Hs as [[_ <-]|[_ Hs]]; [done|]. by rewrite lookup_empty in Hs.
Qed.

Lemma op_target data : op_parse data = true.
Proof.
  unfold op_parse. destruct (op_from_wire data) as [o|x] eqn:E; [|done]. cbn zeta.
  apply run_reader_ok in E as [_ ->]. by rewrite !bool_decide_true.
Qed.

Lemma message_target data :
  message_parse data = false <->
  exists c, message_from_wire data = Ok (MCheckpoint c) /\ data <> message_to_wire (MCheckpoint c).
Proof.
  unfold message_parse. destruct (message_from_wire data) as [m|x] eqn:E; [|naive_solver].
  pose proof E as (r' & H & He)%run_reader_inv.
  apply message_read_sound in H as (Hv & b & post & Hb & -> & ->).
  apply rd_at_end in He as ->. rewrite app_nil_r in *.
  destruct (message_roundtrip m Hv) as [-> _]. rewrite (bool_decide_eq_true_2 (m = m)) by done.
  rewrite andb_true_r, bool_decide_eq_false. split.
  - intros Hn. destruct (to_wire_encodes m) as (b' & Hb' & Hw). destruct Hb as (b2 & Hb2 & ->).
    destruct m; cbn [body_encodes] in *; [exfalso; apply Hn; by rewrite Hw, Hb', Hb2..|by eexists].
  - intros (c & [= ->] & Hn) Heq. by apply Hn.
Qed.
End properties.

(** C40. The fuzz targets of the parsers and of the frame layer, decided for
    every input.  Four of them never fail: an accepted TLV value and an accepted
    operation are the encoder's own output, a layout tiles its frame within its
    bounds, and a packet that opens comes from the one other participant.  The
    message target fails on one kind of input exactly: a checkpoint certificate
    whose approvals are listed in another order than the encoder's. *)
Theorem targets_decided {P : Primitives} data :
  codec_canonical data = true /\ op_parse data = true /\ frame_layout data = true /\ frame_open data = true /\
  (message_parse data = false <->
   exists c, message_from_wire data = Ok (MCheckpoint c) /\ data <> message_to_wire (MCheckpoint c)).
Proof.
  split_and!; [|apply op_target|apply layout_target|apply frame_target|apply message_target].
  unfold codec_canonical. destruct (round data) as [again|] eqn:E; [|done].
  by apply bool_decide_eq_true_2, round_back.
Qed.

(** ** A message the target is refuted by *)

Definition ex_approvals : list CheckpointSignature := approval_by (P := Toy) ex_record <$> ex_seeds.
Definition ex_reordered : bytes :=
  let c := (add_signatures (P := Toy) ex_approvals (cert_new ex_record)).2 in
  preamble (MCheckpoint c) ++ record_image ex_record ++ list_image approval_image ex_approvals.

Lemma message_target_refuted : message_parse (P := Toy) ex_reordered = false.
Proof. vm_compute. reflexivity. Qed.
