(* ===== verification/Inbound.v ===== *)
(** * A participant under arbitrary input

    The last fuzz target, [src/fuzz/fuzz_targets/participant_inbound.rs]: a
    participant alone in its conference is offered arbitrary byte strings.  The
    theorem proves what the target asserts on every run in which no chunk holds
    an operation under the participant's own signature that it has not stored
    itself, that is, in which nothing is forged. *)

From Stdlib Require Import NArith Lia.
From S2P Require Import Prelude Crypto Toy Codec Ops Dag Membership Keys Channel Prekey Checkpoint Wire Member MemberInv MemberProps Converge.

(** ** The target *)

Section target.
Context {P : Primitives}.

Fixpoint offer_chunks (chunks : list bytes) (accepted : bool) : Mp bool :=
  match chunks with
  | [] => mret accepted
  | c :: chunks =>
      if (65536 <? lenN c)%N then offer_chunks chunks accepted else
      r ← attempt (handle c);
      offer_chunks chunks (match r with Ok _ => true | Err _ => accepted end)
  end.

(** Whether every assertion holds, once the participant exists. *)
Definition inbound_asserts (chunks : list bytes) : Mp bool :=
  before_members ← p_members;
  before_version ← p_version;
  accepted ← offer_chunks chunks false;
  unmoved ← (if accepted : bool then mret true else
               ms ← p_members;
               v ← p_version;
               mret (bool_decide (ms = before_members) && bool_decide (v = before_version)));
  ms ← p_members;
  ipk ← ask p_ipk;
  mret (unmoved && bool_decide (ipk ∈ ms)).

(** [None] is a participant that could not be created, which the target takes
    for a failure of its own set-up. *)
Definition participant_inbound (chunks : list bytes) (t : Tape) : option (result Error bool) :=
  if decide (64 < length chunks) then Some (Ok true) else
  match create (policy_leaderless 2) t with
  | (Ok (p, _), t) => Some (inbound_asserts chunks (mkEnv p t)).1
  | (Err _, _) => None
  end.
End target.

(** ** Steps that leave the history alone *)

Section quiet.
Context {P : Primitives}.

(** What the roster, the version and the verdicts are computed from. *)
Definition core_of (p : Participant) :=
  (p_identity p, p_ipk p, p_sid p, p_policy p, p_dag p, p_guilty p, p_pending p).

Definition quiet {A} (m : Mp A) : Prop := forall v, keeps (fun p => core_of p = v) m.

Lemma quiet_upd f : (forall p, core_of (f p) = core_of p) -> quiet (upd f).
Proof. intros H v e He. cbn [upd snd e_p]. by rewrite H. Qed.

Lemma quiet_derived : quiet derived.
Proof. intros v e He. unfold derived. destruct (stale (e_p e)); cbn [e_p]; by destruct (p_derived _). Qed.
Lemma quiet_members : quiet p_members.
Proof. intros v. pose proof (quiet_derived v). unfold p_members. keeps_walk. Qed.
Lemma quiet_version : quiet p_version.
Proof. intros v. pose proof (quiet_derived v). unfold p_version. keeps_walk. Qed.
Lemma quiet_frontier : quiet p_frontier.
Proof. intros v. pose proof (quiet_derived v). unfold p_frontier. keeps_walk. Qed.
Lemma quiet_group_key : quiet p_group_key.
Proof. intros v. pose proof (quiet_derived v). unfold p_group_key. keeps_walk. Qed.
Lemma quiet_note_version : quiet note_version.
Proof.
  intros v. pose proof (quiet_derived v). unfold note_version. keeps_walk.
Qed.
Lemma quiet_seal_envelope label ad to gen pk payload : quiet (seal_envelope label ad to gen pk payload).
Proof. intros v. unfold seal_envelope. keeps_walk. Qed.
Lemma quiet_answer to nodes : quiet (answer_node_keys_for to nodes).
Proof.
  intros v. pose proof (quiet_members v). pose proof (quiet_frontier v).
  pose proof (fun l a t g pk pl => quiet_seal_envelope l a t g pk pl v). unfold answer_node_keys_for. keeps_walk.
Qed.

Lemma core_store_entries want (l : list (Oid * bytes)) p :
  core_of (foldl (fun p en => store_entry want en p) p l) = core_of p.
Proof.
  revert p. induction l as [|[o k] l IH]; intros p; [done|]. cbn [foldl]. rewrite IH. unfold store_entry.
  by destruct (bool_decide _).
Qed.

Lemma quiet_absorb_node_keys from sealed : quiet (absorb_node_keys from sealed).
Proof.
  intros v. pose proof (quiet_members v). pose proof (quiet_frontier v). unfold absorb_node_keys. keeps_walk.
  apply quiet_upd. intros p. apply core_store_entries.
Qed.

Lemma quiet_validate c : quiet (validate_checkpoint c).
Proof.
  intros v. pose proof (quiet_members v). pose proof (quiet_frontier v). pose proof (quiet_version v).
  unfold validate_checkpoint, validate_checkpoint_record. keeps_walk.
Qed.
Lemma quiet_absorb op x : quiet (absorb op x).
Proof. intros v. unfold absorb. keeps_walk. Qed.
Lemma quiet_establish to : quiet (establish_channel to).
Proof. intros v. unfold establish_channel. keeps_walk. Qed.
Lemma quiet_step_channel to : quiet (step_channel to).
Proof.
  intros v e He. unfold step_channel. destruct (p_send (e_p e) !! to); [|done]. by destruct (chan_step _).
Qed.
Lemma quiet_seal_slices x cid ad recips : quiet (seal_slices x cid ad recips).
Proof.
  intros v. pose proof (fun to => quiet_establish to v). pose proof (fun to => quiet_step_channel to v).
  induction recips; cbn [seal_slices]; keeps_walk.
Qed.
End quiet.

(** ** Alone in a conference *)

Section lonely.
Context {P : Primitives}.
Implicit Types (p : Participant) (op : Op).

(** What a lone participant [me] can hold: its own operations, none of which
    admits or evicts anyone else, and strangers taking leave. *)
Definition harmless (me : SigPublic) (op : Op) : Prop :=
  (op_author op = me /\ match op_body op with Add who => who = me | Remove _ | Accuse _ _ _ _ => False | _ => True end)
  \/ (op_author op <> me /\ op_body op = Remove (op_author op)).

Record lonely (me : SigPublic) p : Prop := {
  lo_me : p_ipk p = me;
  lo_guilty : p_guilty p = ∅;
  lo_founded : exists o op, dag_ops (p_dag p) !! o = Some op /\ op_author op = me /\
    is_founding op = true /\ op_body op = Add me;
  lo_ops o op : dag_ops (p_dag p) !! o = Some op -> harmless me op;
  lo_pending : Forall (fun op => op_author op = me -> op_oid op ∈ dom (dag_ops (p_dag p))) (p_pending p);
}.

Lemma lonely_core me p q : core_of p = core_of q -> lonely me p -> lonely me q.
Proof.
  intros E [H1 H2 H3 H4 H5]. injection E as _ E1 _ _ E2 E3 E4.
  split; rewrite <- ?E1, <- ?E2, <- ?E3, <- ?E4; done.
Qed.

Lemma lonely_uncounted me p keep r : lonely me p -> ~ counted (membership p) me keep r.
Proof.
  intros H (op & [Ho _] & Hc). cbn [membership m_dag] in Ho.
  assert (is_proven (membership p) me op = true \/ is_vote (membership p) me op = true) as Hc'
    by (destruct Hc as [|[? _]]; auto). clear Hc.
  unfold is_proven, is_vote in Hc'. cbn [membership m_guilty] in Hc'. rewrite (lo_guilty _ _ H) in Hc'.
  destruct (lo_ops _ _ H r op Ho) as [[Ha Hb]|[Ha Hb]].
  - destruct (op_body op); naive_solver.
  - rewrite Hb in Hc'. by rewrite (bool_decide_eq_false_2 (op_author op = me)) in Hc' by done; naive_solver.
Qed.

Lemma lonely_only me p keep who : lonely me p -> who ∈ members_in (membership p) keep -> who = me.
Proof.
  intros H (a & op & [Ho _] & Hb & _)%members_in_spec. cbn [membership m_dag] in Ho.
  destruct (lo_ops _ _ H a op Ho) as [[_ Hh]|[_ Hh]]; rewrite Hb in Hh; [done|discriminate Hh].
Qed.

Lemma lonely_members me p : lonely me p -> members (membership p) = {[me]}.
Proof.
  intros H. apply set_eq. intros who. rewrite elem_of_singleton. split; [exact (lonely_only me p None who H)|]. intros ->.
  destruct (lo_founded _ _ H) as (o & op & Ho & _ & _ & Hb). apply (members_in_spec (membership p) None me). exists o, op.
  split; [by split|split; [done|]]. intros r Hr. by apply lonely_uncounted in Hr.
Qed.

(** A stranger can only take leave, whichever roster it is held against: that
    of a dependency set never has anyone but [me]. *)
Lemma lonely_verdict me p op deps :
  lonely me p -> op_author op <> me -> verdict_on (membership p) op deps = true -> op_body op = Remove (op_author op).
Proof.
  intros H Ha. unfold verdict_on, decide_op.
  assert (bool_decide (op_author op ∈ members_in (membership p) (Some (past_of_deps (m_dag (membership p)) deps))) = false) as ->.
  { apply bool_decide_eq_false. intros Hm. exact (Ha (lonely_only me p _ _ H Hm)). }
  unfold op_kind. destruct (op_body op) as [who|who|gen pk|cid cps rs ss vw|who coid mk sq|ts]; cbn [body_kind]; try done.
  - rewrite !andb_true_iff, negb_true_iff. intros [[Hw _] Hno]. apply not_true_iff_false in Hno. destruct Hno.
    destruct (lo_founded _ _ H) as (o & f & Ho & Hf & Hfo & _). apply existsb_exists. exists (o, f).
    split; [apply list_elem_of_In; unfold dag_iter; by apply elem_of_bt_list|].
    rewrite Hfo. apply bool_decide_eq_true_2. congruence.
  - case_decide as Hw; [by subst|done].
Qed.

(** Storing a harmless operation. *)
Lemma lonely_add me p op r d :
  dag_wf (p_dag p) -> lonely me p -> harmless me op -> dag_add op (p_dag p) = (r, d) -> lonely me (set_dag d p).
Proof.
  intros Hwf [H1 H2 (o & f & Ho & Hf) H4 H5] Hh E.
  pose proof (dag_add_extends _ _ _ _ Hwf E) as [Hsub _].
  split; cbn [set_dag p_ipk p_guilty p_dag p_pending]; try done.
  - exists o, f. split; [by eapply lookup_weaken|done].
  - intros o' op' Ho'. apply dag_add_cases in E as [(_ & _ & ->)|[(_ & _ & _ & ->)|(_ & _ & _ & Hops & _)]];
      [by eapply H4..|]. rewrite Hops in Ho'. apply lookup_insert_Some in Ho' as [[_ <-]|[_ ?]]; [done|by eapply H4].
  - eapply Forall_impl; [exact H5|]. intros x Hx Hm. apply (subseteq_dom _ _ Hsub). by apply Hx.
Qed.

Lemma lonely_buffer me p op :
  lonely me p -> (op_author op = me -> op_oid op ∈ dom (dag_ops (p_dag p))) -> lonely me (buffered op p).
Proof.
  intros H Hop. unfold buffered. case_decide; [|done]. destruct (existsb _ _); [done|].
  destruct H as [H1 H2 H3 H4 H5]. split; cbn [set_pending p_ipk p_guilty p_dag p_pending]; try done.
  apply Forall_app. split; [done|]. by constructor.
Qed.
End lonely.

(** ** Taking input in *)

Section inbound.
Context {P : Primitives} {PO : PrimitivesOk P} {fx : Statics} (me : SigPublic).
Context (Hall : forall deps, st_asked fx deps).
Implicit Types (p : Participant) (op : Op).

Definition alone p : Prop := part_ok fx p /\ lonely me p.

(** A computation that leaves a lone participant alone and, when it fails, has
    not touched its history. *)
Definition harmless_run {A} (m : Mp A) : Prop := forall e,
  alone (e_p e) -> alone (e_p (m e).2) /\
  (is_ok (m e).1 = false ->
     p_dag (e_p (m e).2) = p_dag (e_p e) /\ p_guilty (e_p (m e).2) = p_guilty (e_p e)).

Lemma core_history p q : core_of p = core_of q -> p_dag p = p_dag q /\ p_guilty p = p_guilty q.
Proof using Type. intros E. by injection E. Qed.

Lemma quiet_harmless {A} (m : Mp A) : keeps (part_ok fx) m -> quiet m -> harmless_run m.
Proof using Type.
  intros Hk Hq e [He Ha]. pose proof (Hq (core_of (e_p e)) e eq_refl) as Hc. cbn beta in Hc.
  split; [split; [by apply Hk|]|intros _; by apply core_history]. by eapply lonely_core.
Qed.

(** An operation the participant has stored if it is its own. *)
Definition unforged (d : Dag) op : Prop :=
  op_verify op = Ok tt -> op_author op = me -> op_oid op ∈ dom (dag_ops d).

Lemma admit_leave op e :
  op_body op = Remove (op_author op) -> p_open_accusations (e_p e) = [] ->
  admit_op op e = match dag_add op (p_dag (e_p e)) with
                  | (Ok _, d) => (Ok [], mkEnv (set_dag d (e_p e)) (e_tape e))
                  | (Err x, d) => (Err x, mkEnv (set_dag d (e_p e)) (e_tape e))
                  end.
Proof using Type.
  intros Hb Ho. unfold admit_op, add_op, mbind, M_bind. destruct (dag_add op (p_dag (e_p e))) as [[u|x] d]; [|done].
  unfold apply_body. rewrite Hb. unfold mret, M_ret. by rewrite retry_nothing.
Qed.

Lemma ingest_harmless op e :
  built op -> unforged (p_dag (e_p e)) op -> alone (e_p e) ->
  alone (e_p (ingest op e).2) /\
  (is_ok (ingest op e).1 = false ->
     p_dag (e_p (ingest op e).2) = p_dag (e_p e) /\ p_guilty (e_p (ingest op e).2) = p_guilty (e_p e)).
Proof using PO Hall.
  intros Hb Hu [He Ha]. pose proof (keeps_ingest (fx := fx) op Hb (Hall _) e He) as Hk.
  destruct e as [p t]. cbn [e_p] in *.
  destruct (ingest_cases fx p t op He Hb (Hall _)) as (H1 & H2 & H3).
  destruct (decide (op_sid op = p_sid p)) as [Hs|Hs]; [|rewrite (H1 Hs) in *; by split].
  destruct (decide (op_verify op = Ok tt)) as [Hv|Hv]; [|rewrite (H2 Hs Hv) in *; by split].
  specialize (H3 Hs Hv) as [Hknown Hnew].
  destruct (decide (op_oid op ∈ dom (dag_ops (p_dag p)))) as [Hin|Hni]; [rewrite (Hknown Hin) in *; by split|].
  assert (op_author op <> me) as Hm by (intros Hm; by apply Hni, Hu).
  destruct (decide (op_deps op ⊆ dom (dag_ops (p_dag p)))) as [Hd|Hd].
  2: { rewrite (proj1 (Hnew Hni) Hd) in *. split; [split; [done|]|done]. by apply lonely_buffer. }
  destruct (ingest_verdict fx p t op He (conj Hs (conj Hv Hb)) (Hall _) Hni Hd) as (c & deps & _ & Hc & Hr).
  assert (lonely me (set_authz c p)) as Hl by (by apply (lonely_core me p)).
  rewrite Hr in *. destruct (verdict_on (membership p) op deps) eqn:Eau; [|by split].
  pose proof (lonely_verdict me p op deps Ha Hm Eau) as Hbody.
  clear H1 H2 Hknown Hnew Hr. rewrite (admit_leave op (mkEnv (set_authz c p) t) Hbody (ok_parked _ Hc)) in *. cbn [e_p e_tape] in *.
  destruct (dag_add op (p_dag (set_authz c p))) as [r d] eqn:E.
  assert (lonely me (set_dag d (set_authz c p))) as Hl' by (apply (lonely_add me _ op r); [apply He|done|by right|done]).
  destruct r; cbn [fst snd e_p] in *; (split; [by split|]); [done|]. intros _.
  by apply dag_add_cases in E as [(_ & _ & ->)|[(_ & _ & ? & _)|(_ & _ & ? & _)]].
Qed.

Lemma batch_cons op ops e : (ingest_batch (op :: ops) e).2 = (ingest_batch ops (ingest op e).2).2.
Proof using Type. apply ingest_batch_cons. Qed.

Lemma batch_ok ops e : exists out, (ingest_batch ops e).1 = Ok out.
Proof using Type.
  revert e. induction ops as [|op ops IH]; intros e; [by eexists|]. cbn [ingest_batch]. unfold attempt, mbind, M_bind.
  destruct (ingest op e) as [r e1]. destruct (IH e1) as [out Ho]. destruct (ingest_batch ops e1) as [r2 e2].
  cbn [fst] in Ho. subst r2. by eexists.
Qed.

Lemma unforged_here p op : part_ok fx p -> unforged (st_base fx) op -> unforged (p_dag p) op.
Proof using Type.
  intros Hp H Hv Hm. destruct (ok_base _ Hp) as [Hs _]. apply (subseteq_dom _ _ Hs). by apply H.
Qed.

Lemma batch_alone ops e :
  Forall built ops -> Forall (unforged (st_base fx)) ops -> alone (e_p e) -> alone (e_p (ingest_batch ops e).2).
Proof using PO Hall.
  intros Hb. revert e. induction Hb as [|op ops Hop _ IH]; intros e Hu He; [done|].
  apply Forall_cons in Hu as [Hu Hus]. rewrite batch_cons. apply IH; [done|].
  apply ingest_harmless; [done| |done]. apply unforged_here; [apply He|done].
Qed.

(** What waits is a stranger's or already stored. *)
Definition known_own (d : Dag) op : Prop := op_author op = me -> op_oid op ∈ dom (dag_ops d).

Lemma known_own_grows d d' ops : dag_extends d d' -> Forall (known_own d) ops -> Forall (known_own d') ops.
Proof using Type.
  intros [Hs _] H. eapply Forall_impl; [exact H|]. intros op Hop Hm. apply (subseteq_dom _ _ Hs). by apply Hop.
Qed.

Lemma ingest_extends op e : built op -> part_ok fx (e_p e) -> dag_extends (p_dag (e_p e)) (p_dag (e_p (ingest op e).2)).
Proof using PO.
  intros Hb He. by apply (grown anything (e_p e)), (keeps_ingest (fx := statics (e_p e)) op Hb I e), (part_ok_here fx).
Qed.

Lemma round_cons op ops e :
  (drain_round (op :: ops) e).2 =
    (drain_round ops (if deps_available (e_p e) op then (ingest op e).2 else e)).2.
Proof using Type.
  cbn [drain_round]. rewrite (bind_ok (ask _) _ e (deps_available (e_p e) op) e) by reflexivity.
  destruct (deps_available (e_p e) op); cbn [negb].
  - unfold attempt, mbind, M_bind. destruct (ingest op e) as [r e1]. cbn [snd].
    destruct (drain_round_total ops e1) as (d & b & o & e2 & -> & _). by destruct r.
  - destruct (drain_round_total ops e) as (d & b & o & e2 & E & _). by rewrite (bind_ok _ _ _ _ _ E), E.
Qed.

Lemma round_alone ops e :
  Forall built ops -> Forall (known_own (p_dag (e_p e))) ops -> alone (e_p e) ->
  alone (e_p (drain_round ops e).2) /\ dag_extends (p_dag (e_p e)) (p_dag (e_p (drain_round ops e).2)).
Proof using PO Hall.
  intros Hb. revert e. induction Hb as [|op ops Hop _ IH]; intros e Hk He; [done|].
  rewrite round_cons. apply Forall_cons in Hk as [Hk Hks]. destruct (deps_available (e_p e) op); [|by apply IH].
  pose proof (ingest_extends op e Hop (proj1 He)) as Hx.
  destruct (IH (ingest op e).2) as [H1 H2]; [by eapply known_own_grows| |split; [done|by eapply extends_trans]].
  apply ingest_harmless; [done|by intros _|done].
Qed.

Lemma lonely_set_pending p l : lonely me p -> Forall (known_own (p_dag p)) l -> lonely me (set_pending l p).
Proof using Type. intros []. by split. Qed.

Lemma alone_set_pending p l :
  alone p -> Forall (authentic (p_sid p)) l -> length l <= MAX_PENDING -> Forall (known_own (p_dag p)) l ->
  alone (set_pending l p).
Proof using Hall.
  intros [Hp Ha] Hl Hn Hk. split; [apply ok_set_pending; [done|done|by apply asked_all|done]|by apply lonely_set_pending].
Qed.

Lemma loop_alone fuel ops e :
  Forall (authentic (st_sid fx)) ops -> length ops <= MAX_PENDING -> Forall (known_own (p_dag (e_p e))) ops ->
  alone (e_p e) -> alone (e_p (drain_loop fuel ops e).2).
Proof using PO Hall.
  revert ops e. induction fuel as [|fuel IH]; intros ops e Ho Hl Hk He; [done|]. cbn [drain_loop].
  assert (Forall built ops) as Hb by (eapply Forall_impl; [exact Ho|by intros op (_ & _ & ?)]).
  destruct (round_alone ops e Hb Hk He) as [H1 Hx].
  destruct (drain_round_total ops e) as (d & b & o & e1 & E & Hs & _).
  rewrite (bind_ok _ _ _ _ _ E). rewrite E in H1, Hx. cbn [snd] in *.
  pose proof (sublist_length _ _ Hs) as Hlen.
  assert (Forall (authentic (st_sid fx)) d) as Hd by by eapply sublist_Forall.
  assert (Forall (known_own (p_dag (e_p e1))) d) as Hkd.
  { apply (known_own_grows (p_dag (e_p e))); [done|]. by eapply sublist_Forall. }
  destruct b; cbn [negb].
  - specialize (IH d e1 Hd ltac:(lia) Hkd H1). unfold mbind, M_bind. by destruct (drain_loop fuel d e1) as [[]].
  - apply (alone_set_pending (e_p e1)); [done| |lia|done]. by rewrite <- (ok_statics _ (proj1 H1)) in Hd.
Qed.

Lemma drain_alone e : alone (e_p e) -> alone (e_p (drain_pending e).2).
Proof using PO Hall.
  intros [Hp Hl]. pose proof (keeps_drain_pending e Hp) as Hk.
  unfold drain_pending. rewrite (bind_ok (ask _) _ e (p_pending (e_p e)) e) by reflexivity.
  rewrite (bind_ok (upd _) _ e tt (mkEnv (set_pending [] (e_p e)) (e_tape e))) by reflexivity.
  apply loop_alone; [rewrite <- (ok_statics _ Hp); apply (ok_pending _ Hp)|apply (ok_pending_len _ Hp)|apply Hl|].
  apply alone_set_pending; [by split|constructor|simpl; lia|constructor].
Qed.

(** ** Messages *)

Lemma harmless_map {A B} (m : Mp A) (f : A -> B) : harmless_run m -> harmless_run (a ← m; mret (f a)).
Proof using Type.
  intros H e He. specialize (H e He). unfold mbind, M_bind. by destruct (m e) as [[a|x] e1].
Qed.

Lemma dispatch_harmless m :
  message_valid m -> Forall (unforged (st_base fx)) (ops_of m) -> harmless_run (dispatch m).
Proof using PO Hall.
  intros Hv Hu. pose proof (ops_of_built m Hv) as Hb.
  assert (quiet (dispatch m) -> harmless_run (dispatch m)) as Hq.
  { intros H. apply quiet_harmless; [apply keeps_dispatch; [done|by apply asked_all]|done]. }
  destruct m; cbn [dispatch ops_of] in *;
    try solve [apply Hq; intros v; pose proof (quiet_members v); pose proof (fun t n => quiet_answer t n v);
         pose proof (fun f se => quiet_absorb_node_keys f se v); pose proof (fun c => quiet_validate c v); keeps_walk].
  - clear Hq. apply (harmless_map _ (fun out => ([], out))). intros e He.
    apply Forall_cons in Hu as [Hu _]. apply Forall_cons in Hb as [Hb _].
    apply ingest_harmless; [done| |done]. apply unforged_here; [apply He|done].
  - clear Hq. apply (harmless_map _ (fun out => ([], out))). intros e He.
    split; [by apply batch_alone|]. by destruct (batch_ok ops e) as [out ->].
Qed.

(** A computation that cannot fail on a lone participant. *)
Definition calm {A} (m : Mp A) : Prop :=
  forall e, alone (e_p e) -> exists a e', m e = (Ok a, e') /\ alone (e_p e').

Lemma calm_ret {A} (a : A) : calm (mret a).
Proof using Type. intros e He. by exists a, e. Qed.

Lemma calm_bind {A B} (m : Mp A) (f : A -> Mp B) : calm m -> (forall a, calm (f a)) -> calm (m ≫= f).
Proof using Type.
  intros Hm Hf e He. destruct (Hm e He) as (a & e1 & E & H1). rewrite (bind_ok _ _ _ _ _ E). by apply Hf.
Qed.

Lemma calm_quiet {A} (m : Mp A) :
  keeps (part_ok fx) m -> quiet m -> (forall e, part_ok fx (e_p e) -> exists a, (m e).1 = Ok a) -> calm m.
Proof using Type.
  intros Hk Hq Ht e He. destruct (quiet_harmless m Hk Hq e He) as [H1 _]. destruct (Ht e (proj1 He)) as [a Ha].
  destruct (m e) as [r e1]. cbn [fst snd] in *. subst r. by exists a, e1.
Qed.

Lemma calm_members : calm p_members.
Proof using Type.
  apply calm_quiet; [apply keeps_members|apply quiet_members|]. intros [p t] Hp. eexists. by apply (memo_values fx).
Qed.
Lemma calm_version : calm p_version.
Proof using Type.
  apply calm_quiet; [apply keeps_version|apply quiet_version|]. intros [p t] Hp. eexists. by apply (memo_values fx).
Qed.
Lemma calm_note_version : calm note_version.
Proof using Type.
  apply calm_quiet; [apply keeps_note_version|apply quiet_note_version|]. intros e Hp. unfold note_version.
  destruct (derived_spec e Hp) as (e1 & E & _). exists tt. by rewrite (bind_ok _ _ _ _ _ E).
Qed.
Lemma calm_can_derive : calm can_derive.
Proof using Type.
  unfold can_derive. apply calm_bind; [|intros; apply calm_ret].
  apply calm_quiet; [apply keeps_group_key|apply quiet_group_key|]. intros [p t] Hp. eexists. by apply (memo_values fx).
Qed.
Lemma calm_drain : calm drain_pending.
Proof using PO Hall.
  intros e He. pose proof (drain_alone e He) as H. destruct (drain_loop_total (S (length (p_pending (e_p e))))
    (S (length (p_pending (e_p e)))) (p_pending (e_p e)) (mkEnv (set_pending [] (e_p e)) (e_tape e)))
    as (_ & out & e' & E & _); [lia..|].
  change (drain_pending e = (Ok out, e')) in E. rewrite E in H. by exists out, e'.
Qed.

Lemma harmless_calm {A B} (m : Mp A) (f : A -> Mp B) : harmless_run m -> (forall a, calm (f a)) -> harmless_run (m ≫= f).
Proof using Type.
  intros Hm Hf e He. destruct (Hm e He) as [H1 H2]. unfold mbind, M_bind.
  destruct (m e) as [[a|x] e1]; [|by split]. cbn [fst snd] in *.
  destruct (Hf a e1 H1) as (b & e2 & -> & H3). by split.
Qed.

Lemma calm_harmless {A B} (m : Mp A) (f : A -> Mp B) :
  calm m -> quiet m -> (forall a, harmless_run (f a)) -> harmless_run (m ≫= f).
Proof using Type.
  intros Hm Hq Hf e He. destruct (Hm e He) as (a & e1 & E & H1). rewrite (bind_ok _ _ _ _ _ E).
  pose proof (Hq (core_of (e_p e)) e eq_refl) as Hc. cbn beta in Hc. rewrite E in Hc. cbn [snd] in Hc.
  destruct (Hf a e1 H1) as [H2 H3]. split; [done|]. apply core_history in Hc as [<- <-]. done.
Qed.

Lemma handle_harmless wire :
  (forall m, message_from_wire wire = Ok m -> Forall (unforged (st_base fx)) (ops_of m)) -> harmless_run (handle wire).
Proof using PO Hall.
  intros Hu. unfold handle. destruct (message_from_wire wire) as [m|x] eqn:E; [|by intros e He].
  pose proof (dispatch_harmless m (from_wire_valid _ _ E) (Hu m eq_refl)) as Hd.
  intros e He. rewrite (bind_ok (lift (Ok m)) _ e m e) by reflexivity. revert e He.
  apply calm_harmless; [apply calm_version|apply quiet_version|intros before].
  apply calm_harmless; [apply calm_members|apply quiet_members|intros members_before].
  apply harmless_calm; [exact Hd|intros [events out]].
  apply calm_bind; [apply calm_drain|intros drained]. apply calm_bind; [apply calm_members|intros members_after].
  cbn zeta. apply calm_bind; [apply calm_version|intros after].
  apply calm_bind.
  { case_decide; [|apply calm_ret]. apply calm_bind; [apply calm_note_version|intros; apply calm_ret]. }
  intros changed. apply calm_bind; [apply calm_can_derive|intros ok; apply calm_ret].
Qed.
End inbound.

(** ** Founding *)

Section founding.
Context {P : Primitives} {PO : PrimitivesOk P} {fx : Statics} (me : SigPublic).
Implicit Types (p : Participant) (op : Op).

Definition founder p : Prop := part_ok fx p /\ lonely me p.

Lemma founder_quiet {A} (m : Mp A) : keeps (part_ok fx) m -> quiet m -> keeps founder m.
Proof using Type.
  intros Hk Hq e [He Hl]. split; [by apply Hk|]. apply (lonely_core me (e_p e)); [|done].
  symmetry. exact (Hq (core_of (e_p e)) e eq_refl).
Qed.

(** Signing and storing an operation that neither admits nor evicts. *)
Lemma founder_publish {B} (body : Participant -> Body) (k : Op -> Mp B) :
  (forall p, match body p with Prekeys _ _ | Contrib _ _ _ _ _ | PrekeyRequest _ => True | _ => False end) ->
  (forall op, keeps founder (k op)) ->
  keeps founder (op ← ask (fun p => sign p (body p)); _ ← add_op op; k op).
Proof using PO.
  intros Hn Hk. apply keeps_ask_bind. intros e [He Hl].
  set (op := sign (e_p e) (body (e_p e))).
  pose proof (keeps_publish (fx := fx) (fun _ => body (e_p e)) (fun _ => mret tt)) as Hs.
  assert (part_ok fx (e_p (add_op op e).2)) as Hp.
  { specialize (Hs ltac:(intros q; specialize (Hn (e_p e)); unfold accused; cbn [sign op_create op_body]; by destruct (body (e_p e)))
      ltac:(intros; apply keeps_ret) e He).
    rewrite (bind_ok (ask _) _ e op e) in Hs by reflexivity. unfold mbind, M_bind in Hs. by destruct (add_op op e) as [[]]. }
  assert (founder (e_p (add_op op e).2)) as HJ.
  { split; [done|]. unfold add_op in *. destruct (dag_add op (p_dag (e_p e))) as [r d] eqn:E.
    assert (harmless me op) as Hh.
    { left. change (op_body op) with (body (e_p e)). change (op_author op) with (sig_public (p_identity (e_p e))).
      rewrite <- (ok_key _ He). split; [apply Hl|]. specialize (Hn (e_p e)). by destruct (body (e_p e)). }
    destruct r; cbn [snd e_p]; by apply (lonely_add me _ op _ _ (ok_wf _ He) Hl Hh E). }
  unfold mbind, M_bind. destruct (add_op op e) as [[u|x] e1]; cbn [snd] in *; [by apply Hk|done].
Qed.

Lemma founder_prekeys : keeps founder publish_prekeys.
Proof using PO. unfold publish_prekeys. apply founder_publish; [done|]. intros op. apply keeps_ret. Qed.

Lemma founder_note : keeps founder note_version.
Proof using Type. apply founder_quiet; [apply keeps_note_version|apply quiet_note_version]. Qed.

Lemma founder_contribute : keeps founder contribute.
Proof using PO.
  pose proof founder_note. pose proof (founder_quiet p_members keeps_members quiet_members).
  pose proof (founder_quiet p_frontier keeps_frontier quiet_frontier).
  pose proof (founder_quiet derived keeps_derived quiet_derived).
  pose proof (fun x cid ad l => founder_quiet _ (keeps_seal_slices x cid ad l) (quiet_seal_slices x cid ad l)).
  pose proof (fun op x => founder_quiet _ (keeps_absorb op x) (quiet_absorb op x)).
  unfold contribute, contribute_excluding, chainable_parents.
  repeat first
    [ solve [eauto with keeps]
    | progress cbn zeta
    | lazymatch goal with
      | |- keeps _ (ask (fun p => sign p _) ≫= _) => apply founder_publish; [done|intros ?]
      | |- keeps _ (_ ≫= _) => apply keeps_bind; [|intros ?]
      | |- keeps _ (match ?x with _ => _ end) => destruct x
      end ].
Qed.
End founding.

Section theorem.
Context {P : Primitives} {PO : PrimitivesOk P}.

Lemma new_lonely identity sid policy seed0 pool d (p := participant_new identity sid policy seed0 pool) :
  dag_add (sign p (Add (p_ipk p))) (p_dag p) = (Ok d.1, d.2) -> lonely (p_ipk p) (set_dag d.2 p).
Proof using Type.
  intros E. set (op := sign p (Add (p_ipk p))) in *. destruct d as [r d]. cbn [fst snd] in *.
  apply dag_add_cases in E as [(_ & ? & _)|[(_ & Hin & _)|(_ & _ & _ & Hops & _)]]; [done| |].
  { unfold p, participant_new, dag_new in Hin. cbn [p_dag dag_ops] in Hin. by rewrite dom_empty_L in Hin. }
  assert (dag_ops d = {[op_oid op := op]}) as Ho by exact Hops.
  split; cbn [set_dag p_ipk p_guilty p_dag p_pending p participant_new]; try done.
  - exists (op_oid op), op. rewrite Ho, lookup_singleton_eq.
    split; [done|split; [reflexivity|split; [|reflexivity]]].
    unfold is_founding. apply andb_true_iff. split; by apply bool_decide_eq_true_2.
  - intros o op'. rewrite Ho, lookup_singleton_Some. intros [_ <-]. left. by split.
Qed.

(** Who creates a conference is alone in it. *)
Lemma create_lonely policy t p out t' : create policy t = (Ok (p, out), t') -> lonely (p_ipk p) p.
Proof.
  intros H. unfold create in H. do 4 inv_bind H. unfold run_on in H.
  set (p0 := participant_new _ _ _ _ _) in H. destruct (found (mkEnv p0 _)) as [[out'|x] e] eqn:E; [|done].
  injection H as <- <- <-. pose proof (new_ok a a0 policy a1 a2 anything) as H0. fold p0 in H0.
  set (fx := mkStatics _ _ _ _ dag_new ∅ anything) in H0. unfold found in E.
  rewrite (bind_ok (ask _) _ (mkEnv p0 s2) (sign p0 (Add (p_ipk p0))) (mkEnv p0 s2)) in E by reflexivity.
  pose proof (add_op_keeps_at (fx := fx) (sign p0 (Add (p_ipk p0))) (mkEnv p0 s2) H0 (sign_authentic _ _ H0)
    (sign_deps _ _) (sign_admitted _ _ H0) eq_refl) as Hk1.
  inv_bind E. rewrite Hm3 in Hk1. cbn [snd] in Hk1.
  assert (lonely (p_ipk p0) (e_p s3)) as Hl.
  { unfold add_op in Hm3. destruct (dag_add _ _) as [[r|x] d] eqn:Ed; [|done]. injection Hm3 as _ <-.
    exact (new_lonely a a0 policy a1 a2 (r, d) Ed). }
  pose proof (founder_prekeys (fx := fx) (p_ipk p0) s3 (conj Hk1 Hl)) as H3.
  inv_bind E. rewrite Hm4 in H3. cbn [snd] in H3.
  pose proof (founder_contribute (fx := fx) (p_ipk p0) s4 H3) as H4. inv_bind E. rewrite Hm5 in H4. cbn [snd] in H4.
  pose proof (founder_note (fx := fx) (p_ipk p0) s5 H4) as H5. inv_bind E. rewrite Hm6 in H5. cbn [snd] in H5.
  injection E as _ <-. rewrite (lo_me _ _ (proj2 H5)). exact (proj2 H5).
Qed.

(** Offering chunks: alone throughout, and unmoved unless one was accepted. *)
Lemma offer_alone (fx : Statics) me chunks accepted e :
  (forall deps, st_asked fx deps) ->
  (forall c m, c ∈ chunks -> message_from_wire c = Ok m -> Forall (unforged me (st_base fx)) (ops_of m)) ->
  alone (fx := fx) me (e_p e) ->
  exists a e', offer_chunks chunks accepted e = (Ok a, e') /\ alone (fx := fx) me (e_p e') /\
    (a = false -> accepted = false /\ p_dag (e_p e') = p_dag (e_p e) /\ p_guilty (e_p e') = p_guilty (e_p e)).
Proof.
  intros Hall. revert accepted e. induction chunks as [|c chunks IH]; intros accepted e Hu He.
  { exists accepted, e. split_and!; [done|done|]. by intros ->. }
  cbn [offer_chunks].
  assert (forall c' m, c' ∈ chunks -> message_from_wire c' = Ok m -> Forall (unforged me (st_base fx)) (ops_of m)) as Hu'
    by (intros c' m Hc; by apply Hu, list_elem_of_further).
  destruct (65536 <? lenN c)%N; [by apply IH|].
  destruct (handle_harmless (fx := fx) me Hall c (fun m => Hu c m (list_elem_of_here _ _)) e He) as [H1 H2].
  unfold attempt, mbind, M_bind. destruct (handle c e) as [r e1]. cbn [fst snd] in *.
  set (acc := match r with Ok _ => true | Err _ => accepted end).
  destruct (IH acc e1 Hu' H1) as (a & e' & E & H3 & H4). exists a, e'. split_and!; [exact E|done|].
  intros Ha. destruct (H4 Ha) as (Hacc & Hd' & Hg'). destruct r as [|x]; [discriminate Hacc|].
  split; [exact Hacc|]. destruct (H2 eq_refl) as [Hd Hg]. by rewrite Hd', Hd, Hg', Hg.
Qed.

(** What the target reads. *)
Lemma reads_members (fx : Statics) me e :
  alone (fx := fx) me (e_p e) ->
  exists e1, p_members e = (Ok (members (membership (e_p e))), e1) /\ alone (fx := fx) me (e_p e1) /\
    core_of (e_p e1) = core_of (e_p e).
Proof using Type.
  intros He. destruct (calm_members (fx := fx) me e He) as (ms & e1 & E & H1). exists e1.
  pose proof (quiet_members (core_of (e_p e)) e eq_refl) as C. cbn beta in C. rewrite E in C.
  destruct e as [p t]. pose proof (proj1 (memo_values fx p t (proj1 He))) as M. rewrite E in M.
  injection M as ->. by split_and!.
Qed.

Lemma reads_version (fx : Statics) me e :
  alone (fx := fx) me (e_p e) ->
  exists e1, p_version e = (Ok (version_of (frontier (p_dag (e_p e))) (root (membership (e_p e)))), e1) /\
    alone (fx := fx) me (e_p e1) /\ core_of (e_p e1) = core_of (e_p e).
Proof using Type.
  intros He. destruct (calm_version (fx := fx) me e He) as (v & e1 & E & H1). exists e1.
  pose proof (quiet_version (core_of (e_p e)) e eq_refl) as C. cbn beta in C. rewrite E in C.
  destruct e as [p t]. pose proof (proj1 (proj2 (proj2 (memo_values fx p t (proj1 He))))) as M. rewrite E in M.
  injection M as ->. by split_and!.
Qed.

Lemma core_membership p q : core_of p = core_of q -> membership p = membership q /\ p_dag p = p_dag q.
Proof using Type. intros E. unfold membership. by injection E as _ _ _ -> -> -> _. Qed.

(** The assertions, whatever the policy. *)
Lemma lone_stands policy t p out t' chunks tape :
  create policy t = (Ok (p, out), t') ->
  (forall c m, c ∈ chunks -> message_from_wire c = Ok m -> Forall (unforged (p_ipk p) (p_dag p)) (ops_of m)) ->
  (inbound_asserts chunks (mkEnv p tape)).1 = Ok true.
Proof.
  intros Hc Hu. pose proof (create_lonely _ _ _ _ _ Hc) as Hl. set (me := p_ipk p) in *.
  pose proof (reachable_ok p (reach_create _ _ _ _ _ Hc)) as Hp. set (fx := statics p) in *.
  assert (alone (fx := fx) me p) as H0 by (by split).
  unfold inbound_asserts.
  destruct (reads_members fx me (mkEnv p tape) H0) as (e1 & E1 & H1 & C1). rewrite (bind_ok _ _ _ _ _ E1).
  destruct (reads_version fx me e1 H1) as (e2 & E2 & H2 & C2). rewrite (bind_ok _ _ _ _ _ E2). rewrite C1 in C2.
  apply core_membership in C1 as [-> ->]. apply core_membership in C2 as [C2 C2d]. cbn [e_p] in *.
  destruct (offer_alone fx me chunks false e2 (fun _ => I) Hu H2) as (a & e3 & E3 & H3 & Hun). rewrite (bind_ok _ _ _ _ _ E3).
  assert (forall e, alone (fx := fx) me (e_p e) ->
    ((ms ← p_members; ipk ← ask p_ipk; mret (true && bool_decide (ipk ∈ ms))) e).1 = Ok true) as Hlast.
  { intros e He. pose proof (proj2 He) as Hlo.
    destruct (reads_members fx me e He) as (e' & E & He' & C). rewrite (bind_ok _ _ _ _ _ E).
    rewrite (lonely_members me _ Hlo). unfold ask, mbind, M_bind. cbn [fst]. injection C as _ -> _ _ _ _ _.
    rewrite (lo_me _ _ Hlo). rewrite bool_decide_true by (by apply elem_of_singleton). done. }
  destruct a; [by apply Hlast|]. destruct (Hun eq_refl) as (_ & Hd & Hg).
  assert (membership (e_p e3) = membership p /\ p_dag (e_p e3) = p_dag p) as [M3 D3].
  { rewrite Hd, C2d. split; [|done]. unfold membership in *. injection C2 as _ _ Hg2. rewrite Hd, Hg, C2d, Hg2.
    f_equal. pose proof (ok_statics _ (proj1 H3)) as S3. by injection S3. }
  destruct (reads_members fx me e3 H3) as (e4 & E4 & H4 & C4).
  destruct (reads_version fx me e4 H4) as (e5 & E5 & H5 & _). apply core_membership in C4 as [C4 C4d].
  rewrite C4, C4d, M3, D3 in E5. rewrite M3 in E4.
  rewrite <- (Hlast e5 H5).
  unfold mbind at 1, M_bind at 1. rewrite (bind_ok _ _ _ _ _ E4), (bind_ok _ _ _ _ _ E5).
  unfold mret at 1, M_ret at 1. by rewrite !bool_decide_true by done.
Qed.

(** C4. A participant alone in its conference withstands arbitrary input.  The
    fuzz target creates one and offers it any chunks; if none carries a verifying
    operation under the participant's own identity that it has not stored, every
    assertion holds: input it refused moved neither the roster nor the version,
    and whatever it accepted it is still a member. *)
Theorem lone_participant_stands chunks t p out t' :
  create (policy_leaderless 2) t = (Ok (p, out), t') ->
  (forall c m, c ∈ chunks -> message_from_wire c = Ok m -> Forall (unforged (p_ipk p) (p_dag p)) (ops_of m)) ->
  participant_inbound chunks t = Some (Ok true).
Proof.
  intros Hc Hu. unfold participant_inbound. case_decide; [done|]. rewrite Hc.
  by rewrite (lone_stands _ _ _ _ _ chunks t' Hc Hu).
Qed.
End theorem.

(** ** Witness *)

Definition ex_lone_tape : Tape := ex_tape 70.
Definition ex_lone : Participant := made (create (P := Toy) (policy_leaderless 2) ex_lone_tape).

(** Too short, and a well-formed operation of somebody else's. *)
Definition ex_chunks : list bytes := [bstr "noise"; ex_contribution].

Definition by_strangers (me : SigPublic) (c : bytes) : bool :=
  match message_from_wire (P := Toy) c with
  | Ok m => forallb (fun op => negb (bool_decide (op_author op = me))) (ops_of m)
  | Err _ => true
  end.

Lemma by_strangers_unforged me d chunks :
  forallb (by_strangers me) chunks = true ->
  forall c m, c ∈ chunks -> message_from_wire (P := Toy) c = Ok m -> Forall (unforged (P := Toy) me d) (ops_of m).
Proof.
  rewrite forallb_forall. intros H c m Hc%list_elem_of_In%H E. unfold by_strangers in Hc. rewrite E in Hc.
  rewrite forallb_forall in Hc. apply Forall_forall. intros op Hop%list_elem_of_In%Hc _ Hm.
  by rewrite bool_decide_true in Hop.
Qed.

Lemma lone_participant_stands_witness :
  participant_inbound (P := Toy) ex_chunks ex_lone_tape = Some (Ok true).
Proof.
  destruct (made_ok (create (P := Toy) (policy_leaderless 2) ex_lone_tape)) as (out & t & H);
    [vm_compute; reflexivity|].
  apply (lone_participant_stands (P := Toy) ex_chunks ex_lone_tape ex_lone out t H).
  apply by_strangers_unforged. vm_compute. reflexivity.
Defined.
