(* ===== verification/Emit.v ===== *)
(** * What a participant sends in reply

    How much a participant emits while it handles a message, which decides
    whether a network of participants comes to rest: an operation is broadcast
    only in return for one that was newly stored, a key request is answered by
    one direct message, and only a synchronisation request is ever answered by
    another. *)

From Stdlib Require Import NArith Lia.
From S2P Require Import Prelude Crypto Codec Ops Dag Membership Keys Channel Prekey Checkpoint Wire Member MemberInv MemberProps Converge.

(** ** Kinds of message *)

Section kinds.
Context {P : Primitives}.

(** No synchronisation request. *)
Definition settling (wire : bytes) : Prop := forall from heads, message_from_wire wire <> Ok (MSync from heads).

(** The queue slots one message may cost: itself, and its answer. *)
Definition weight (wire : bytes) : nat :=
  match message_from_wire wire with Ok (MNodeKeyRequest _ _) => 2 | _ => 1 end.

Lemma weight_pos wire : 1 <= weight wire.
Proof. unfold weight. destruct (message_from_wire wire) as [[]|]; lia. Qed.

Lemma to_wire_tag m m' : message_from_wire (message_to_wire m) = Ok m' -> message_tag m' = message_tag m.
Proof.
  intros (r' & H & He)%run_reader_inv. apply message_read_sound in H as (_ & b & post & (b' & _ & Hb) & Hw & ->).
  destruct (to_wire_encodes m) as (b2 & _ & Hb2). rewrite Hb2, Hb in Hw. unfold preamble in Hw.
  rewrite <- !app_assoc in Hw. apply app_inv_head in Hw. apply app_inv_head in Hw.
  assert (forall m, u64_valid (message_tag m)) as Hu by (by intros []).
  apply app_inj_1 in Hw as [Hw _]; [|unfold u64_image; by rewrite !length_app, !u64_be_length].
  symmetry. by apply (lawful_inj (f := reader_u64) _ _ (Hu m) (Hu m')).
Qed.

Definition not_sync (m : Message) : Prop := match m with MSync _ _ => False | _ => True end.

Lemma settling_to_wire m : not_sync m -> settling (message_to_wire m).
Proof. intros Hm from heads H%to_wire_tag. by destruct m. Qed.

Lemma weight_to_wire m : match m with MNodeKeyRequest _ _ => False | _ => True end -> weight (message_to_wire m) = 1.
Proof.
  intros Hm. unfold weight. destruct (message_from_wire (message_to_wire m)) as [m'|] eqn:E; [|done].
  apply to_wire_tag in E. by destruct m', m.
Qed.

(** The two shapes of what is sent: an operation to everyone, or a message to
    one peer. *)
Definition op_broadcast (o : Outbound) : Prop := exists op, o = broadcast (MOp op).
Definition key_answer (o : Outbound) : Prop := exists to from sealed, o = direct to (MNodeKeyResponse from sealed).
Definition no_sync (o : Outbound) : Prop := settling (ob_payload o).

Lemma op_broadcast_no_sync o : op_broadcast o -> no_sync o.
Proof. intros [op ->]. by apply settling_to_wire. Qed.

(** ** Results of a computation *)

Definition yields {A} (m : Mp A) (Q : A -> Prop) : Prop := forall e a e', m e = (Ok a, e') -> Q a.

Lemma yields_ret {A} (a : A) (Q : A -> Prop) : Q a -> yields (mret a) Q.
Proof. by intros H e b e' [= <- _]. Qed.
Lemma yields_fail {A} x (Q : A -> Prop) : yields (fail x) Q.
Proof. by intros e b e'. Qed.
Lemma yields_bind {A B} (m : Mp A) (f : A -> Mp B) (R : A -> Prop) Q :
  yields m R -> (forall a, R a -> yields (f a) Q) -> yields (m ≫= f) Q.
Proof. intros Hm Hf e b e' H. inv_bind H. eapply Hf; [|exact H]. by eapply Hm. Qed.
Lemma yields_then {A B} (m : Mp A) (f : A -> Mp B) Q : (forall a, yields (f a) Q) -> yields (m ≫= f) Q.
Proof. intros Hf e b e' H. inv_bind H. by eapply Hf. Qed.

(** At most one operation, to everyone. *)
Definition one_op (out : list Outbound) : Prop := length out <= 1 /\ Forall op_broadcast out.

Lemma one_op_nil : one_op [].
Proof. split; [simpl; lia|constructor]. Qed.
Lemma one_op_one o : op_broadcast o -> one_op [o].
Proof. intros Ho. split; [simpl; lia|by constructor]. Qed.
End kinds.

Create HintDb yields discriminated.

(** Walks to the end of a method, keeping what is known of the results of the
    steps that have a lemma. *)
Ltac yields_walk :=
  repeat first
    [ progress cbn zeta
    | lazymatch goal with
      | |- yields (mret _) _ => apply yields_ret
      | |- yields (fail _) _ => apply yields_fail
      | |- yields (match ?x with _ => _ end) _ => destruct x
      | |- yields (_ ≫= _) _ =>
          first [eapply yields_bind; [solve [eauto with yields nocore]|intros ? ?] | apply yields_then; intros ?]
      end ].

Section replies.
Context {P : Primitives}.

Lemma yields_publish : yields publish_prekeys op_broadcast.
Proof. unfold publish_prekeys. yields_walk. by eexists. Qed.
#[local] Hint Resolve yields_publish : yields.

Lemma yields_rotate : yields rotate_prekeys op_broadcast.
Proof. unfold rotate_prekeys. do 3 (apply yields_then; intros ?). apply yields_publish. Qed.
#[local] Hint Resolve yields_rotate : yields.

Lemma yields_open_channel op est :
  yields (open_channel op est) (fun r => match r with Some out => one_op out | None => True end).
Proof. unfold open_channel. yields_walk; try done; [apply one_op_nil|by apply one_op_one]. Qed.
#[local] Hint Resolve yields_open_channel : yields.

Lemma yields_receive op : yields (receive_contribution op) one_op.
Proof. unfold receive_contribution. yields_walk; try apply one_op_nil. done. Qed.
#[local] Hint Resolve yields_receive : yields.

(** Applying an operation sends at most one in return, and an accusation none. *)
Lemma yields_apply op : yields (apply_body op) (fun out => one_op out /\ (accused op <> None -> out = [])).
Proof.
  unfold apply_body, accused. destruct (op_body op) as [who|who|gen pk|cid cps rs ss vw|who coid mk sq|ts].
  5: { yields_walk; by split; [apply one_op_nil|]. }
  4: { intros e a e' H. apply yields_receive in H. by split. }
  all: yields_walk; (split; [|done]); first [apply one_op_nil|by apply one_op_one].
Qed.
#[local] Hint Resolve yields_apply : yields.

Lemma yields_admit op : yields (admit_op op) (fun out => one_op out /\ (accused op <> None -> out = [])).
Proof. unfold admit_op. yields_walk. done. Qed.

Lemma yields_contribute_excluding exclude : yields (contribute_excluding exclude) (Forall op_broadcast).
Proof.
  unfold contribute_excluding. yields_walk; try constructor; by first [constructor|eexists].
Qed.
#[local] Hint Resolve yields_contribute_excluding : yields.

Lemma yields_contribute : yields contribute (Forall op_broadcast).
Proof. apply yields_contribute_excluding. Qed.
#[local] Hint Resolve yields_contribute : yields.

Lemma yields_remove who : yields (remove who) (Forall op_broadcast).
Proof. unfold remove. yields_walk. constructor; [by eexists|done]. Qed.

Lemma broadcasts_quiet out : Forall op_broadcast out -> Forall no_sync out.
Proof. intros H. eapply Forall_impl; [exact H|]. apply op_broadcast_no_sync. Qed.

Lemma yields_rotation (sealed : bool) :
  yields (if sealed then o ← rotate_prekeys; mret [o] else mret []) (Forall op_broadcast).
Proof. destruct sealed; yields_walk; by constructor. Qed.
#[local] Hint Resolve yields_rotation : yields.

Lemma yields_invite kp : yields (invite kp) (Forall no_sync).
Proof.
  unfold invite. yields_walk. apply Forall_cons. split; [by apply settling_to_wire|].
  apply Forall_app. split; [by apply broadcasts_quiet|].
  apply Forall_cons. split; [by apply settling_to_wire|by apply broadcasts_quiet].
Qed.

Lemma yields_found : yields found (Forall no_sync).
Proof.
  unfold found. yields_walk. apply Forall_cons. split; [by apply settling_to_wire|].
  apply Forall_cons. split; [by apply op_broadcast_no_sync|by apply broadcasts_quiet].
Qed.

Lemma yields_join node_keys history : yields (join node_keys history) (Forall no_sync).
Proof. unfold join. yields_walk. apply Forall_singleton. by apply op_broadcast_no_sync. Qed.

Lemma run_on_yields {A} p (m : Mp A) Q t r t' : yields m Q -> run_on p m t = (Ok r, t') -> Q r.2.
Proof.
  intros Hm. unfold run_on. destruct (m (mkEnv p t)) as [[a|x] e] eqn:E; [|done].
  intros [= <- _]. by eapply Hm.
Qed.

Lemma create_no_sync policy t p out t' : create policy t = (Ok (p, out), t') -> Forall no_sync out.
Proof.
  unfold create. intros H. do 4 inv_bind H. exact (run_on_yields _ _ _ _ _ _ yields_found H).
Qed.

Lemma accept_no_sync j wire t p out t' : accept_welcome j wire t = (Ok (p, out), t') -> Forall no_sync out.
Proof.
  unfold accept_welcome. intros H. inv_bind H. destruct a; try discriminate H. do 2 inv_bind H.
  destruct a0 as [seed0 nks]. exact (run_on_yields _ _ _ _ _ _ (yields_join _ _) H).
Qed.

Lemma yields_answer to nodes :
  yields (answer_node_keys_for to nodes) (fun o => match o with Some o => key_answer o | None => True end).
Proof. unfold answer_node_keys_for. yields_walk; try done. by eexists _, _, _. Qed.
End replies.

(** ** Replies against room *)

(** How many operations can still be stored. *)
Definition room (p : Participant) : nat := N.to_nat (MAX_OPS - dag_len (p_dag p)).

Lemma extends_room p q : dag_extends (p_dag p) (p_dag q) -> room q <= room p.
Proof. intros H%extends_len. unfold room. lia. Qed.

Section rooms.
Context {P : Primitives} {PO : PrimitivesOk P} {fx : Statics}.
Context (Hall : forall deps, st_asked fx deps).

(** Every operation sent is paid for by one stored. *)
Definition paid (p : Participant) (out : list Outbound) (q : Participant) : Prop :=
  Forall op_broadcast out /\ length out + room q <= room p.

Lemma paid_nil p q : dag_extends (p_dag p) (p_dag q) -> paid p [] q.
Proof using Type. intros H%extends_room. split; [constructor|simpl; lia]. Qed.

Lemma paid_app p out q out' s : paid p out q -> paid q out' s -> paid p (out ++ out') s.
Proof using Type.
  intros [H1 H2] [H3 H4]. split; [by apply Forall_app|]. rewrite length_app. lia.
Qed.

Lemma stored_room p q o op :
  dag_extends (p_dag p) (p_dag q) -> (dag_len (p_dag p) < MAX_OPS)%N -> o ∉ dom (dag_ops (p_dag p)) ->
  dag_ops (p_dag q) !! o = Some op -> 1 + room q <= room p.
Proof using Type.
  intros [Hs _] Hl Hn Ho. unfold room, dag_len in *.
  assert (dag_ops (p_dag p) ⊂ dag_ops (p_dag q)) as Hlt.
  { apply map_subset_alt. split; [done|]. exists o. rewrite Ho. split; [by apply not_elem_of_dom|done]. }
  apply map_subset_size in Hlt. lia.
Qed.

Lemma ingest_paid op e out e' :
  part_ok fx (e_p e) -> built op -> ingest op e = (Ok out, e') -> paid (e_p e) out (e_p e').
Proof using PO Hall.
  intros He Hb H. destruct e as [p t]. cbn [e_p] in *.
  assert (dag_extends (p_dag p) (p_dag (e_p e'))) as Hx.
  { pose proof (keeps_ingest (fx := statics p) op Hb I (mkEnv p t) (part_ok_here fx p He)) as Hk. rewrite H in Hk.
    by apply (grown anything p). }
  assert (out = [] -> paid p out (e_p e')) as Hnil by (intros ->; by apply paid_nil).
  destruct (decide (op_sid op = p_sid p)) as [Hs|Hs]; [|by rewrite (proj1 (ingest_cases fx p t op He Hb (Hall _))) in H].
  destruct (decide (op_verify op = Ok tt)) as [Hv|Hv];
    [|by rewrite (proj1 (proj2 (ingest_cases fx p t op He Hb (Hall _)))) in H].
  rewrite (ingest_checked p t op Hs Hv) in H.
  destruct (dag_contains (p_dag p) (op_oid op)) eqn:Hc; [injection H as <- <-; by apply Hnil|].
  destruct (deps_satisfied (p_dag p) op) eqn:Hd; [|injection H as <- <-; by apply Hnil]. cbn [negb] in H.
  assert (op_oid op ∉ dom (dag_ops (p_dag p))) as Hn by (by apply not_elem_of_dom, dag_contains_false).
  pose proof (proj1 (deps_satisfied_spec _ _) Hd) as Hdin.
  destruct (ingest_verdict fx p t op He (conj Hs (conj Hv Hb)) (Hall _) Hn Hdin) as (c & deps & Ht & Hq & Hr).
  rewrite (ingest_checked p t op Hs Hv), Hc, Hd in Hr. cbn [negb] in Hr. rewrite Hr in H. clear Hr.
  destruct (verdict_on (membership p) op deps) eqn:Ever; [|done].
  destruct (yields_admit op (mkEnv (set_authz c p) t) out e' H) as [[Hlen Hout] _].
  split; [done|]. enough (1 + room (e_p e') <= room p) by lia.
  destruct (N.ltb_spec (dag_len (p_dag p)) MAX_OPS) as [Hl|Hl].
  2: { exfalso. assert (add_op op (mkEnv (set_authz c p) t)
         = (Err (LimitExceeded "operation graph full"), mkEnv (set_dag (p_dag p) (set_authz c p)) t)) as Hadd.
       { unfold add_op, dag_add. cbn [e_p e_tape set_authz p_dag]. by destruct (N.leb_spec MAX_OPS (dag_len (p_dag p))); [|lia]. }
       unfold admit_op in H. by rewrite (bind_err _ _ _ _ _ Hadd) in H. }
  apply (stored_room p (e_p e') (op_oid op) op Hx Hl Hn).
  apply (admit_stores fx op (mkEnv (set_authz c p) t) (Ok out)); cbn [e_p]; try done.
  right. exists deps. split; [done|]. exists (p_dag p), (p_guilty p). by split_and!.
Qed.

Lemma keeps_extends {A} (m : Mp A) e :
  (forall fx, (forall deps, st_asked fx deps) -> keeps (part_ok fx) m) -> part_ok fx (e_p e) ->
  part_ok fx (e_p (m e).2) /\ dag_extends (p_dag (e_p e)) (p_dag (e_p (m e).2)).
Proof using Hall.
  intros Hm He. split; [by apply Hm|].
  apply (grown anything (e_p e)), (Hm (statics (e_p e)) (fun _ => I) e), (part_ok_here fx _ He).
Qed.

Lemma batch_paid ops e out e' :
  part_ok fx (e_p e) -> Forall built ops -> ingest_batch ops e = (Ok out, e') -> paid (e_p e) out (e_p e').
Proof using PO Hall.
  intros He Hb. revert e out e' He. induction Hb as [|op ops Hop _ IH]; intros e out e' He H.
  { injection H as <- <-. by apply paid_nil. }
  cbn [ingest_batch] in H. inv_bind H. inv_bind H. injection H as <- <-.
  destruct (keeps_extends (ingest op) e (fun fx H => keeps_ingest op Hop (H _)) He) as [H1 Hx].
  unfold attempt in Hm. destruct (ingest op e) as [r e1] eqn:E. injection Hm as <- <-. cbn [snd] in *.
  specialize (IH e1 _ _ H1 Hm0). destruct r as [o|x].
  - apply (paid_app _ _ (e_p e1)); [by apply (ingest_paid op)|done].
  - destruct IH as [H3 H4]. split; [done|]. apply extends_room in Hx. lia.
Qed.

Lemma round_paid ops e d b out e' :
  part_ok fx (e_p e) -> Forall built ops -> drain_round ops e = (Ok (d, b, out), e') -> paid (e_p e) out (e_p e').
Proof using PO Hall.
  intros He Hb. revert e d b out e' He. induction Hb as [|op ops Hop _ IH]; intros e d b out e' He H.
  { injection H as _ _ <- <-. by apply paid_nil. }
  cbn [drain_round] in H. inv_bind H. injection Hm as <- <-.
  destruct (deps_available (e_p e) op); cbn [negb] in H.
  - inv_bind H. inv_bind H. destruct a0 as [[d' b'] o'].
    destruct (keeps_extends (ingest op) e (fun fx H => keeps_ingest op Hop (H _)) He) as [H1 Hx].
    unfold attempt in Hm. destruct (ingest op e) as [r e1] eqn:E. injection Hm as <- <-. cbn [snd] in *.
    specialize (IH e1 _ _ _ _ H1 Hm0). destruct r as [o|x]; injection H as _ _ <- <-.
    + apply (paid_app _ _ (e_p e1)); [by apply (ingest_paid op)|done].
    + destruct IH as [H3 H4]. split; [done|]. apply extends_room in Hx. lia.
  - inv_bind H. destruct a as [[d' b'] o']. injection H as _ _ <- <-. by eapply IH.
Qed.

Lemma loop_paid fuel ops e out e' :
  part_ok fx (e_p e) -> Forall built ops -> drain_loop fuel ops e = (Ok out, e') -> paid (e_p e) out (e_p e').
Proof using PO Hall.
  revert ops e out e'. induction fuel as [|fuel IH]; intros ops e out e' He Hb H.
  { injection H as <- <-. by apply paid_nil. }
  cbn [drain_loop] in H. inv_bind H. destruct a as [[d b] o].
  destruct (keeps_extends (drain_round ops) e (fun fx H => keeps_drain_round ops (presented_all ops H Hb)) He) as [H1 _].
  destruct (drain_round_total ops e) as (d' & b' & o' & e1 & E & Hs & _).
  rewrite Hm in E. injection E as <- <- <- <-. rewrite Hm in H1. cbn [snd] in H1.
  pose proof (round_paid ops e _ _ _ _ He Hb Hm) as Hp. destruct b; cbn [negb] in H.
  - inv_bind H. injection H as <- <-. apply (paid_app _ _ (e_p s)); [done|]. eapply IH; [done| |done].
    rewrite Forall_forall in *. intros op Hop. apply Hb. by eapply elem_of_sublist.
  - inv_bind H. injection Hm0 as _ <-. injection H as <- <-. exact Hp.
Qed.

Lemma drain_paid e out e' :
  part_ok fx (e_p e) -> drain_pending e = (Ok out, e') -> paid (e_p e) out (e_p e').
Proof using PO Hall.
  intros He H.
  change (drain_pending e) with (drain_loop (S (length (p_pending (e_p e)))) (p_pending (e_p e))
       (mkEnv (set_pending [] (e_p e)) (e_tape e))) in H.
  apply (loop_paid _ _ (mkEnv (set_pending [] (e_p e)) (e_tape e))) in H; [exact H| |].
  - apply ok_set_pending; [constructor|simpl; lia|constructor|exact He].
  - eapply Forall_impl; [apply (ok_pending _ He)|]. by intros op (_ & _ & ?).
Qed.

(** The reply to a message that is no synchronisation request: at most one
    direct answer, for the slot the request took beside its own, and operations
    paid for by what was stored. *)
Definition reply (wire : bytes) (p : Participant) (out : list Outbound) (q : Participant) : Prop :=
  exists answers ops, out = answers ++ ops /\ length answers < weight wire /\ Forall key_answer answers /\
    paid p ops q.

Lemma dispatch_reply m e ev out e' wire :
  part_ok fx (e_p e) -> message_from_wire wire = Ok m -> settling wire ->
  dispatch m e = (Ok (ev, out), e') -> reply wire (e_p e) out (e_p e').
Proof using PO Hall.
  intros He Hw Hq H. pose proof (from_wire_valid _ _ Hw) as Hv. pose proof (weight_pos wire) as Hwt.
  destruct (keeps_extends (dispatch m) e (fun fx H => keeps_dispatch m Hv (asked_all (ops_of m) H)) He) as [_ Hx]. rewrite H in Hx. cbn [snd] in Hx.
  assert (out = [] -> reply wire (e_p e) out (e_p e')) as Hnil.
  { intros ->. exists [], []. split_and!; [done|simpl; lia|constructor|by apply paid_nil]. }
  assert (forall l, out = l -> paid (e_p e) l (e_p e') -> reply wire (e_p e) out (e_p e')) as Hops.
  { intros l -> Hp. exists [], l. split_and!; [done|simpl; lia|constructor|done]. }
  destruct m as [op|sid from sealed history pruned|from hs|ops pr|from ns|from se|c]; cbn [dispatch message_valid] in *.
  - inv_bind H. injection H as _ <- <-. eapply Hops; [done|]. eapply ingest_paid; [done| |done]. exact (op_valid_built op (proj1 Hv)).
  - discriminate H.
  - exfalso. by eapply Hq.
  - inv_bind H. injection H as _ <- <-. eapply Hops; [done|]. eapply batch_paid; [done| |done]. exact (ops_valid_built ops (proj1 Hv)).
  - inv_bind H. injection H as _ <- <-. pose proof (yields_answer from ns e a s Hm) as Ha.
    destruct a as [o|]; [|by apply Hnil]. exists [o], []. unfold weight. rewrite Hw.
    split; [done|]. split; [simpl; lia|]. split; [by apply Forall_singleton|by apply paid_nil].
  - inv_bind H. injection H as _ <- <-. by apply Hnil.
  - inv_bind H. injection H as _ <- <-. by apply Hnil.
Qed.

(** A step of [handle] that neither stores nor sends. *)
Lemma step_extends {A} (m : Mp A) e a e' :
  (forall fx, (forall deps, st_asked fx deps) -> keeps (part_ok fx) m) -> part_ok fx (e_p e) -> m e = (Ok a, e') ->
  part_ok fx (e_p e') /\ room (e_p e') <= room (e_p e).
Proof using Hall.
  intros Hm He H. destruct (keeps_extends m e Hm He) as [H1 H2]. rewrite H in H1, H2.
  split; [done|by apply extends_room].
Qed.

Lemma handle_reply wire e ev out e' :
  part_ok fx (e_p e) -> settling wire -> handle wire e = (Ok (ev, out), e') -> reply wire (e_p e) out (e_p e').
Proof using PO Hall.
  intros He Hq H. unfold handle in H. inv_bind H. injection Hm as Hw <-. rename a into m.
  inv_bind H. destruct (step_extends p_version e a s (fun _ _ => keeps_version) He Hm) as [H1 R1].
  inv_bind H. destruct (step_extends p_members s a0 s0 (fun _ _ => keeps_members) H1 Hm0) as [H2 R2].
  inv_bind H. destruct a1 as [ev1 out1].
  destruct (step_extends (dispatch m) s0 (ev1, out1) s1 (fun _ H => keeps_dispatch m (from_wire_valid _ _ Hw) (asked_all (ops_of m) H)) H2 Hm1) as [H3 _].
  pose proof (dispatch_reply m s0 ev1 out1 s1 wire H2 Hw Hq Hm1) as (answers & ops & -> & Hl & Ha & [Ho Hp]).
  inv_bind H. rename a1 into drained. pose proof (drain_paid s1 drained s2 H3 Hm2) as [Hd Hdl].
  destruct (step_extends drain_pending s1 drained s2 (fun _ _ => keeps_drain_pending) H3 Hm2) as [H4 _].
  assert (out = (answers ++ ops) ++ drained /\ room (e_p e') <= room (e_p s2)) as [-> Hlast].
  { inv_bind H. destruct (step_extends p_members s2 a1 s3 (fun _ _ => keeps_members) H4 Hm3) as [H5 R5]. cbn zeta in H.
    inv_bind H. destruct (step_extends p_version s3 a2 s4 (fun _ _ => keeps_version) H5 Hm4) as [H6 R6].
    inv_bind H. assert (part_ok fx (e_p s5) /\ room (e_p s5) <= room (e_p s4)) as [H7 R7].
    { eapply step_extends; [|exact H6|exact Hm5]. intros g _. case_decide; [|apply keeps_ret].
      apply keeps_bind; [apply keeps_note_version|intros; apply keeps_ret]. }
    inv_bind H. assert (part_ok fx (e_p s6) /\ room (e_p s6) <= room (e_p s5)) as [H8 R8].
    { eapply step_extends; [|exact H7|exact Hm6]. intros g _. unfold can_derive.
      apply keeps_bind; [apply keeps_group_key|intros; apply keeps_ret]. }
    injection H as _ <- <-. split; [done|lia]. }
  exists answers, (ops ++ drained). split; [by rewrite app_assoc|]. split; [done|]. split; [done|].
  split; [by apply Forall_app|]. rewrite length_app. lia.
Qed.
End rooms.
