(* ===== verification/State.v ===== *)
(** * Persisted participant state ([crates/cfr-core/src/state.rs])

    The private codec of a participant: export of every non-derived field, and
    import with all its checks.  Import rebuilds the graph by adding its
    operations again, recomputes the contribution parents and starts with empty
    memos.  [usize] has 64 bits, so the conversions between it and [u64] never
    fail and are not written. *)

From Stdlib Require Import NArith Lia.
From S2P Require Import Prelude Crypto Toy Codec Ops Dag Membership Keys Channel Prekey Checkpoint Wire Member MemberInv MemberProps.

Definition invalid {A} (message : string) : result Error A := Err (Encoding message).
Definition reject {A} (message : string) : Rd A := fail (Encoding message).

(** ** Sets and ordered maps *)

Definition write_id_set (values : gset bytes) (w : Writer) : Writer :=
  w |> writer_set (bt_elems values) writer_bytes.

Definition write_sig_set (values : gset SigPublic) (w : Writer) : Writer := write_id_set values w.
Definition write_oid_set (values : gset Oid) (w : Writer) : Writer := write_id_set values w.

Definition read_sig_set (limit : N) : Rd (gset SigPublic) :=
  values ← reader_set (reader_array 32);
  if (limit <? lenN values)%N then reject "state identity set exceeds limit"
  else mret (list_to_set values).

Definition read_oid_set (limit : N) : Rd (gset Oid) :=
  values ← reader_set (reader_array 32);
  if (limit <? lenN values)%N then reject "state operation set exceeds limit"
  else mret (list_to_set values).

(** [ensure_strictly_ordered] followed by the caller's check of the entry and
    the insertion, for each entry in turn. *)
Section collect.
Context {K V : Type} `{Countable K} (le : K -> K -> Prop) `{forall a b, Decision (le a b)}.

Definition ensure_strictly_ordered (previous : option K) (value : K) : result Error (option K) :=
  match previous with
  | Some prior => if decide (le value prior) then invalid "state map is not strictly ordered"
                  else Ok (Some value)
  | None => Ok (Some value)
  end.

Fixpoint collect_map (check : K -> V -> result Error unit) (entries : list (K * V))
    (previous : option K) (values : gmap K V) : result Error (gmap K V) :=
  match entries with
  | [] => Ok values
  | (k, v) :: entries =>
      previous ← ensure_strictly_ordered previous k;
      _ ← check k v;
      collect_map check entries previous (<[k := v]> values)
  end.
End collect.

Section state.
Context {P : Primitives}.

(** ** Policy *)

Definition write_policy (policy : Policy) (w : Writer) : Writer :=
  w |> write_sig_set (admins policy) |> writer_u64 (quorum policy)
    |> writer_u64 (max_ops_per_author policy).

Definition read_policy : Rd Policy :=
  admins ← read_sig_set MAX_RECIPIENTS;
  quorum ← reader_u64;
  max_ops ← reader_u64;
  if (quorum =? 0)%N || (max_ops =? 0)%N then reject "state contains an invalid policy"
  else mret (mkPolicy admins quorum max_ops).

(** ** Prekeys *)

Definition write_prekeys (k : PrekeyPool) (w : Writer) : Writer :=
  let w := w |> writer_u32 (pk_generation k) in
  let w := match pk_secret k with
           | Some secret => w |> writer_u32 1 |> writer_bytes secret
           | None => w |> writer_u32 0
           end in
  w |> writer_bytes (pk_public k) |> write_sig_set (pk_established k) |> writer_u32 (pk_age k).

Definition read_secret : Rd (option bytes) :=
  v ← reader_u32;
  match v with
  | 0%N => mret None
  | 1%N => secret ← reader_array 32; mret (Some secret)
  | _ => reject "state prekey presence flag is invalid"
  end.

(** The two checks of a pool: halves that match, and no secret past its
    deadline. *)
Definition prekeys_check (secret : option bytes) (public : DhPublic) (age : N) : result Error unit :=
  match secret with
  | None => Ok tt
  | Some secret =>
      if decide (dh_public secret <> public)
      then invalid "state prekey public and private halves differ"
      else if (SEAL_AFTER <=? age)%N then invalid "state retains an expired prekey secret"
      else Ok tt
  end.

Definition read_prekeys : Rd PrekeyPool :=
  generation ← reader_u32;
  secret ← read_secret;
  public ← reader_array 32;
  established ← read_sig_set MAX_RECIPIENTS;
  age ← reader_u32;
  _ ← lift (prekeys_check secret public age);
  mret (mkPool generation secret public established age).

(** ** Channels *)

Definition write_chan (c : Chan) (w : Writer) : Writer :=
  w |> writer_bytes (ch_chain c) |> writer_u64 (ch_next c).

Definition read_chan : Rd Chan :=
  chain ← reader_array 32;
  next ← reader_u64;
  mret (mkChan chain next).

Definition not_self (ipk : SigPublic) (message : string) {V} (peer : SigPublic) (_ : V)
    : result Error unit :=
  if decide (peer = ipk) then invalid message else Ok tt.

Definition read_peer_prekey : Rd (SigPublic * (N * DhPublic)) :=
  peer ← reader_array 32;
  generation ← reader_u32;
  public ← reader_array 32;
  mret (peer, (generation, public)).

Definition read_peer_prekeys (ipk : SigPublic) : Rd (gmap SigPublic (N * DhPublic)) :=
  entries ← reader_list read_peer_prekey;
  if (MAX_RECIPIENTS <? lenN entries)%N then reject "state peer prekey map exceeds limit" else
  lift (collect_map bytes_le (not_self ipk "state contains a self peer prekey") entries None ∅).

Definition read_send_channel : Rd (SigPublic * Chan) :=
  peer ← reader_array 32;
  chan ← read_chan;
  mret (peer, chan).

Definition read_send_channels (ipk : SigPublic) : Rd (gmap SigPublic Chan) :=
  entries ← reader_list read_send_channel;
  if (MAX_RECIPIENTS <? lenN entries)%N then reject "state send channel map exceeds limit" else
  lift (collect_map bytes_le (not_self ipk "state contains a self send channel") entries None ∅).

Definition read_buffered : Rd (N * bytes) :=
  sequence ← reader_u64;
  payload ← reader_bytes;
  mret (sequence, payload).

Definition buffered_check (next sequence : N) (payload : bytes) : result Error unit :=
  if (sequence <=? next)%N || (lenN payload <? 32)%N
  then invalid "state receive buffer entry is invalid" else Ok tt.

Definition read_recv_chan : Rd RecvChan :=
  chan ← read_chan;
  entries ← reader_list read_buffered;
  if (MAX_BUFFERED <? lenN entries)%N then reject "state receive buffer exceeds limit" else
  buffer ← lift (collect_map N.le (buffered_check (ch_next chan)) entries None ∅);
  mret (mkRecvChan chan buffer).

Definition read_recv_channel : Rd (SigPublic * RecvState) :=
  peer ← reader_array 32;
  eph ← reader_array 32;
  chan ← read_recv_chan;
  mret (peer, mkRecvState eph chan).

Definition read_recv_channels (ipk : SigPublic) : Rd (gmap SigPublic RecvState) :=
  entries ← reader_list read_recv_channel;
  if (MAX_RECIPIENTS <? lenN entries)%N then reject "state receive channel map exceeds limit" else
  lift (collect_map bytes_le (not_self ipk "state contains a self receive channel") entries None ∅).

(** ** The graph and waiting operations *)

Definition write_operations (operations : list Op) (w : Writer) : Writer :=
  w |> writer_list operations op_write.

Definition write_dag (d : Dag) (w : Writer) : result Error Writer :=
  let order := topological d in
  if decide (lenN order <> dag_len d) then invalid "state operation graph contains a cycle" else
  match mapM (dag_get d) order with
  | None => invalid "state operation graph is inconsistent"
  | Some operations => Ok (write_operations operations w)
  end.

Fixpoint rebuild (sid : SessionId) (operations : list Op) (seen : gset Oid) (d : Dag)
    : result Error Dag :=
  match operations with
  | [] => Ok d
  | operation :: operations =>
      if decide (op_sid operation <> sid) then invalid "state operation belongs to another session"
      else
        _ ← op_verify operation;
        let oid := op_oid operation in
        if decide (oid ∈ seen) then invalid "state operation graph contains a duplicate" else
        let seen := {[oid]} ∪ seen in
        if negb (forallb (fun dependency => bool_decide (dependency ∈ seen))
                   (bt_elems (op_deps operation)))
        then invalid "state operation graph is not causally ordered"
        else
          match dag_add operation d with
          | (Ok _, d) => rebuild sid operations seen d
          | (Err e, _) => Err e
          end
  end.

Definition read_dag (sid : SessionId) : Rd Dag :=
  operations ← reader_list nested_op;
  if bool_decide (operations = []) || (MAX_OPS <? lenN operations)%N
  then reject "state operation graph size is invalid"
  else lift (rebuild sid operations ∅ dag_new).

Fixpoint check_operations (sid : SessionId) (operations : list Op) (ids : gset Oid)
    : result Error unit :=
  match operations with
  | [] => Ok tt
  | operation :: operations =>
      if decide (op_sid operation <> sid)
      then invalid "state pending operation belongs to another session"
      else
        _ ← op_verify operation;
        if decide (op_oid operation ∈ ids)
        then invalid "state pending operation list contains a duplicate"
        else check_operations sid operations ({[op_oid operation]} ∪ ids)
  end.

Definition read_operations (sid : SessionId) (limit : N) : Rd (list Op) :=
  operations ← reader_list nested_op;
  if (limit <? lenN operations)%N then reject "state pending operation list exceeds limit" else
  _ ← lift (check_operations sid operations ∅);
  mret operations.

(** ** Node keys and versions *)

Definition nodekey_write (e : Oid * bytes) (w : Writer) : Writer :=
  w |> writer_bytes e.1 |> writer_bytes e.2.

Fixpoint order_check (keys : gmap Oid bytes) (order : list Oid) (ids : gset Oid) : result Error unit :=
  match order with
  | [] => Ok tt
  | oid :: order =>
      if bool_decide (keys !! oid = None) || bool_decide (oid ∈ ids)
      then invalid "state node-key order is inconsistent"
      else order_check keys order ({[oid]} ∪ ids)
  end.

Definition read_nodekeys : Rd NodeKeys :=
  capacity ← reader_u64;
  if (capacity =? 0)%N || (OVERLAP <? capacity)%N then reject "state node-key capacity is invalid" else
  entries ← reader_list entry_read;
  if (capacity <? lenN entries)%N then reject "state node-key map exceeds capacity" else
  keys ← lift (collect_map bytes_le (fun _ _ => Ok tt) entries None ∅);
  order ← reader_list (reader_array 32);
  if negb (lenN order =? N.of_nat (size keys))%N
  then reject "state node-key order length differs from map" else
  _ ← lift (order_check keys order ∅);
  mret (mkNodeKeys keys order capacity).

Definition version_write (e : bytes * (gset Oid * bytes)) (w : Writer) : Writer :=
  w |> writer_bytes e.1 |> write_oid_set e.2.1 |> writer_bytes e.2.2.

Definition read_version_entry : Rd (bytes * (gset Oid * bytes)) :=
  version ← reader_array 8;
  nodes ← read_oid_set MAX_OPS;
  root ← reader_array 32;
  mret (version, (nodes, root)).

Definition version_check (version : bytes) (e : gset Oid * bytes) : result Error unit :=
  if decide (version_of e.1 e.2 <> version) then invalid "state version binding is invalid" else Ok tt.

Definition read_versions : Rd (gmap bytes (gset Oid * bytes) * bytes) :=
  entries ← reader_list read_version_entry;
  if bool_decide (entries = []) || (OVERLAP <? lenN entries)%N
  then reject "state version history size is invalid" else
  versions ← lift (collect_map bytes_le version_check entries None ∅);
  last ← reader_array 8;
  if bool_decide (versions !! last = None) then reject "state last version is not retained"
  else mret (versions, last).

(** ** Cross-field validation *)

Definition contribution_ids (d : Dag) : gset Oid :=
  list_to_set (filter (fun e => op_kind e.2 = KContrib) (dag_iter d)).*1.

Definition validate_contribution_state (p : Participant) : result Error unit :=
  let ids := contribution_ids (p_dag p) in
  if negb (bool_decide (p_absorbed p ## p_missing p))
     || negb (bool_decide (p_absorbed p ⊆ ids)) || negb (bool_decide (p_missing p ⊆ ids))
     || negb (forallb (fun oid => bool_decide (oid ∈ ids)) (bt_keys (nk_keys (p_nodekeys p))))
  then invalid "state contribution tracking is inconsistent"
  else if existsb (fun operation =>
            dag_contains (p_dag p) (op_oid operation)
            || forallb (dag_contains (p_dag p)) (bt_elems (op_deps operation))) (p_pending p)
  then invalid "state pending operation is not pending"
  else Ok tt.

Definition accuses (who : SigPublic) (op : Op) : bool :=
  match op_body op with Accuse w _ _ _ => bool_decide (w = who) | _ => false end.

Definition proof_in_graph (p : Participant) (guilty : SigPublic) : bool :=
  existsb (fun e => accuses guilty e.2 && check_accusation p e.2) (dag_iter (p_dag p)).

Definition validate_participant (p : Participant) : result Error unit :=
  _ ← validate_contribution_state p;
  if forallb (proof_in_graph p) (bt_elems (p_guilty p)) then Ok tt
  else invalid "state guilty set lacks valid evidence".

(** ** Export and import *)

Definition peer_prekey_write (e : SigPublic * (N * DhPublic)) (w : Writer) : Writer :=
  w |> writer_bytes e.1 |> writer_u32 e.2.1 |> writer_bytes e.2.2.
Definition send_write (e : SigPublic * Chan) (w : Writer) : Writer :=
  w |> writer_bytes e.1 |> write_chan e.2.
Definition buffered_write (e : N * bytes) (w : Writer) : Writer :=
  w |> writer_u64 e.1 |> writer_bytes e.2.
Definition recv_write (e : SigPublic * RecvState) (w : Writer) : Writer :=
  w |> writer_bytes e.1 |> writer_bytes (rs_eph e.2) |> write_chan (rc_chan (rs_chan e.2))
    |> writer_list (nt_list (rc_buffer (rs_chan e.2))) buffered_write.

Definition write_nodekeys (k : NodeKeys) (w : Writer) : Writer :=
  w |> writer_u64 (nk_capacity k) |> writer_list (bt_list (nk_keys k)) nodekey_write
    |> writer_list (nk_order k) writer_bytes.

Definition write_participant (p : Participant) : result Error Writer :=
  let w := writer_new |> writer_bytes (p_identity p) |> writer_bytes (p_ipk p)
             |> writer_bytes (p_sid p) |> write_policy (p_policy p)
             |> writer_bytes (p_seed0 p) in
  w ← write_dag (p_dag p) w;
  Ok (w |> write_sig_set (p_guilty p) |> write_prekeys (p_prekeys p)
        |> writer_list (bt_list (p_peer_prekeys p)) peer_prekey_write
        |> writer_list (bt_list (p_send p)) send_write
        |> writer_list (bt_list (p_recv p)) recv_write
        |> write_nodekeys (p_nodekeys p)
        |> write_oid_set (p_absorbed p) |> write_oid_set (p_missing p)
        |> write_operations (p_pending p) |> write_operations (p_open_accusations p)
        |> writer_list (bt_list (p_seen_versions p)) version_write
        |> writer_bytes (p_last_version p)).

Definition export_persistence_state (p : Participant) : result Error bytes :=
  w ← write_participant p;
  let bytes := writer_finish w in
  if (MAX_FIELD <? lenN bytes)%N then Err (LimitExceeded "participant state exceeds codec limit")
  else Ok bytes.

Definition cparents_of (d : Dag) : gmap Oid (gset Oid) :=
  foldl (fun m '(oid, operation) =>
           match op_body operation with
           | Contrib _ parents _ _ _ => <[oid := parents]> m
           | _ => m
           end) ∅ (dag_iter d).

Definition read_participant : Rd Participant :=
  identity ← reader_array 32;
  ipk ← reader_array 32;
  if decide (sig_public identity <> ipk) then reject "state identity binding is invalid" else
  sid ← reader_array 32;
  policy ← read_policy;
  seed0 ← reader_array 32;
  dag ← read_dag sid;
  guilty ← read_sig_set MAX_RECIPIENTS;
  prekeys ← read_prekeys;
  peer_prekeys ← read_peer_prekeys ipk;
  send ← read_send_channels ipk;
  recv ← read_recv_channels ipk;
  nodekeys ← read_nodekeys;
  absorbed ← read_oid_set MAX_OPS;
  missing ← read_oid_set MAX_OPS;
  pending ← read_operations sid (N.of_nat MAX_PENDING);
  open_accusations ← read_operations sid (N.of_nat MAX_PENDING);
  versions ← read_versions;
  _ ← reader_finish;
  mret (mkParticipant identity ipk sid policy seed0 dag guilty prekeys peer_prekeys send recv
          nodekeys (cparents_of dag) absorbed missing pending open_accusations versions.1
          versions.2 ∅ None).

Definition import_persistence_state (bytes : bytes) : result Error Participant :=
  if (MAX_FIELD <? lenN bytes)%N then Err (LimitExceeded "participant state exceeds codec limit") else
  participant ← (read_participant (reader_new bytes)).1;
  _ ← validate_participant participant;
  Ok participant.
End state.

(** ** Collecting ordered entries *)

Section collect_lemmas.
Context {K V : Type} `{Countable K} (le lt : K -> K -> Prop) `{forall a b, Decision (le a b)}.
Context (Hlt : forall a b, lt a b <-> ~ le b a) {Htr : Transitive lt}.

Definition ascends (previous : option K) (ks : list K) : Prop :=
  StronglySorted lt (match previous with Some p => p :: ks | None => ks end).

Lemma ascends_cons previous k ks :
  ascends previous (k :: ks) <->
  match previous with Some p => ~ le k p | None => True end /\ ascends (Some k) ks.
Proof using Hlt Htr.
  unfold ascends. destruct previous as [p|]; [|naive_solver]. rewrite <- Hlt.
  rewrite StronglySorted_cons. split.
  - intros [HF HS]. split; [|done]. by apply Forall_cons in HF as [? _].
  - intros [Hp HS]. split; [|done]. constructor; [done|].
    apply StronglySorted_cons in HS as [HF _].
    eapply Forall_impl; [exact HF|]. intros x Hx. by etrans.
Qed.

Lemma collect_map_ok check (l : list (K * V)) previous acc m :
  collect_map le check l previous acc = Ok m <->
  ascends previous l.*1 /\ Forall (fun e => check e.1 e.2 = Ok tt) l /\
  m = foldl (fun m e => <[e.1 := e.2]> m) acc l.
Proof using Hlt Htr.
  revert previous acc. induction l as [|[k v] l IH]; intros previous acc.
  { cbn [collect_map foldl fmap list_fmap]. split; [|by intros (_ & _ & ->)].
    intros [= <-]. split_and!; [|done|done]. unfold ascends. destruct previous; repeat constructor. }
  cbn [collect_map foldl]. rewrite fmap_cons, ascends_cons, Forall_cons. cbn [fst snd].
  unfold ensure_strictly_ordered, mbind, result_bind, invalid.
  destruct previous as [p|].
  - destruct (decide (le k p)) as [Hd|Hd].
    + split; [done|]. by intros [[? _] _].
    + destruct (check k v) as [[]|e]; [rewrite IH|]; naive_solver.
  - destruct (check k v) as [[]|e]; [rewrite IH|]; naive_solver.
Qed.
End collect_lemmas.

Lemma bytes_lt_le a b : bytes_lt a b <-> ~ bytes_le b a.
Proof. symmetry. apply bytes_not_le. Qed.
Lemma N_lt_le a b : (a < b)%N <-> ~ (b <= a)%N.
Proof. lia. Qed.

Lemma collect_bytes {V} (check : bytes -> V -> result Error unit) (m : gmap bytes V) :
  Forall (fun e => check e.1 e.2 = Ok tt) (bt_list m) ->
  collect_map bytes_le check (bt_list m) None ∅ = Ok m.
Proof.
  intros Hc. apply (collect_map_ok bytes_le bytes_lt bytes_lt_le).
  split_and!; [apply bt_list_sorted|done|].
  by rewrite foldl_insert_map, map_union_empty, list_to_map_bt_list by apply bt_list_NoDup_fst.
Qed.

Lemma collect_bytes_inv {V} (check : bytes -> V -> result Error unit) (l : list (bytes * V)) m :
  collect_map bytes_le check l None ∅ = Ok m ->
  l = bt_list m /\ Forall (fun e => check e.1 e.2 = Ok tt) (bt_list m).
Proof.
  intros (Hs & Hc & ->)%(collect_map_ok bytes_le bytes_lt bytes_lt_le).
  unfold ascends in Hs. rewrite foldl_insert_map, map_union_empty by (by apply sorted_lt_NoDup).
  by rewrite bt_list_of_sorted.
Qed.

Lemma collect_N {V} (check : N -> V -> result Error unit) (m : gmap N V) :
  Forall (fun e => check e.1 e.2 = Ok tt) (nt_list m) ->
  collect_map N.le check (nt_list m) None ∅ = Ok m.
Proof.
  intros Hc. apply (collect_map_ok N.le N.lt N_lt_le).
  split_and!; [apply nt_list_sorted|done|].
  rewrite foldl_insert_map, map_union_empty, list_to_map_nt_list; [done|].
  apply sorted_N_lt_NoDup, nt_list_sorted.
Qed.

Lemma collect_N_inv {V} (check : N -> V -> result Error unit) (l : list (N * V)) m :
  collect_map N.le check l None ∅ = Ok m ->
  l = nt_list m /\ Forall (fun e => check e.1 e.2 = Ok tt) (nt_list m).
Proof.
  intros (Hs & Hc & ->)%(collect_map_ok N.le N.lt N_lt_le).
  unfold ascends in Hs. rewrite foldl_insert_map, map_union_empty by (by apply sorted_N_lt_NoDup).
  by rewrite nt_list_of_sorted.
Qed.

(** ** Images and validity of the fields *)

Definition ids_valid (limit : N) (s : gset bytes) : Prop :=
  (forall o, o ∈ s -> len32 o) /\ (N.of_nat (size s) <= limit)%N.
Definition ids_image (s : gset bytes) : bytes := set_image bytes_image (bt_elems s).

Lemma ids_list limit s :
  (limit <= MAX_ITEMS)%N -> ids_valid limit s ->
  set_valid (array_valid 32) bytes_image (bt_elems s) /\ (lenN (bt_elems s) <= limit)%N.
Proof.
  intros Hl [HF Hs]. assert (Forall len32 (bt_elems s)) as H32.
  { apply Forall_forall. intros o Ho. by apply HF, elem_of_bt_elems. }
  unfold lenN. rewrite bt_elems_length. split; [split_and!|done].
  - eapply Forall_impl; [done|]. apply len32_array.
  - unfold lenN. rewrite bt_elems_length. lia.
  - apply (bytes_images_sorted 32); [done|]. apply bt_elems_sorted.
Qed.

Lemma list_ids limit l :
  set_valid (array_valid 32) bytes_image l -> (lenN l <= limit)%N ->
  ids_valid limit (list_to_set l) /\ bt_elems (list_to_set l) = l.
Proof.
  intros H Hl. apply set_list_oid in H as [HF He]. split; [split|done].
  - intros o Ho. rewrite elem_of_list_to_set in Ho. by eapply Forall_forall in HF.
  - by rewrite <- bt_elems_length, He.
Qed.

Lemma id_set_lawful limit msg :
  (limit <= MAX_ITEMS)%N ->
  Lawful (ids_valid limit) ids_image
    (values ← reader_set (reader_array 32);
     if (limit <? lenN values)%N then reject msg else mret (list_to_set values)).
Proof.
  intros Hl. split.
  - intros s pre post [Hs Hn]%ids_list; [|done]. unfold ids_image. rd_step.
    rewrite limit_ok by done. by rewrite bt_elems_to_set.
  - intros pre rest s r' H. rd_inv H. apply limit_fail_inv in H as [Hle H].
    injection H as <- <-. destruct (list_ids limit a HV Hle) as [Hv He]. split; [done|].
    exists post. unfold ids_image. by rewrite He.
Qed.

#[export] Instance read_sig_set_lawful :
  Lawful (ids_valid MAX_RECIPIENTS) ids_image (read_sig_set MAX_RECIPIENTS).
Proof.
  apply (id_set_lawful MAX_RECIPIENTS "state identity set exceeds limit").
  unfold MAX_RECIPIENTS, MAX_ITEMS. lia.
Qed.
#[export] Instance read_oid_set_lawful : Lawful (ids_valid MAX_OPS) ids_image (read_oid_set MAX_OPS).
Proof.
  apply (id_set_lawful MAX_OPS "state operation set exceeds limit").
  unfold MAX_OPS, MAX_ITEMS. lia.
Qed.

Lemma write_id_set_buf s w : w_buf (write_id_set s w) = w_buf w ++ ids_image s.
Proof.
  unfold write_id_set, ids_image. rewrite (w_buf_set writer_bytes bytes_image); [reflexivity|].
  intros. reflexivity.
Qed.
#[export] Hint Rewrite write_id_set_buf : cfr_writer.

Definition policy_valid (p : Policy) : Prop :=
  ids_valid MAX_RECIPIENTS (admins p) /\ u64_valid (quorum p) /\ u64_valid (max_ops_per_author p)
  /\ quorum p <> 0%N /\ max_ops_per_author p <> 0%N.
Definition policy_image (p : Policy) : bytes :=
  ids_image (admins p) ++ u64_image (quorum p) ++ u64_image (max_ops_per_author p).

#[export] Instance read_policy_lawful : Lawful policy_valid policy_image read_policy.
Proof.
  unfold read_policy, policy_image. split.
  - intros [a q m] pre post (H1 & H2 & H3 & H4 & H5). cbn [admins quorum max_ops_per_author] in *.
    rewrite <- !app_assoc. do 3 rd_step.
    rewrite (proj2 (N.eqb_neq _ _) H4), (proj2 (N.eqb_neq _ _) H5). rd_done.
  - intros pre rest p r' H. do 3 rd_inv H. destruct (N.eqb_spec a0 0), (N.eqb_spec a1 0); try done.
    injection H as <- <-. split; [by split_and!|]. eexists. by rewrite <- !app_assoc.
Qed.

Definition chan_valid (c : Chan) : Prop := len32 (ch_chain c) /\ u64_valid (ch_next c).
Definition chan_image (c : Chan) : bytes := bytes_image (ch_chain c) ++ u64_image (ch_next c).

#[export] Instance read_chan_lawful : Lawful chan_valid chan_image read_chan.
Proof.
  unfold read_chan, chan_image. split.
  - intros [c n] pre post [H1 H2]. cbn [ch_chain ch_next] in *. rewrite <- !app_assoc.
    do 2 rd_step. rd_done.
  - intros pre rest c r' H. do 2 rd_inv H. injection H as <- <-.
    split; [split; [by apply array_len32|done]|]. eexists. by rewrite <- !app_assoc.
Qed.

(** ** Maps keyed by a participant *)

Section peers.
Context {V : Type} (VE : bytes * V -> Prop) (imgE : bytes * V -> bytes) (entry : Rd (bytes * V)).
Context {L : Lawful VE imgE entry}.

Definition peers_ok (ipk : SigPublic) (m : gmap SigPublic V) : Prop :=
  Forall VE (bt_list m) /\ (lenN (bt_list m) <= MAX_RECIPIENTS)%N /\ m !! ipk = None.

Lemma peer_map_lawful ipk msg1 msg2 :
  Lawful (peers_ok ipk) (fun m => list_image imgE (bt_list m))
    (entries ← reader_list entry;
     if (MAX_RECIPIENTS <? lenN entries)%N then reject msg1 else
     lift (collect_map bytes_le (not_self ipk msg2) entries None ∅)).
Proof using L.
  assert (forall m : gmap SigPublic V, m !! ipk = None <->
            Forall (fun e => not_self ipk msg2 e.1 e.2 = Ok tt) (bt_list m)) as Hself.
  { intros m. rewrite Forall_forall. unfold not_self. split.
    - intros Hn [k v] Hin%elem_of_bt_list. cbn [fst]. rewrite decide_False; [done|]. intros ->. congruence.
    - intros Hall. apply eq_None_not_Some. intros [v Hv]. apply elem_of_bt_list in Hv.
      specialize (Hall _ Hv). cbn [fst] in Hall. by rewrite decide_True in Hall. }
  split.
  - intros m pre post (HV & Hl & Hs).
    rd_step by (split; [done|unfold MAX_RECIPIENTS, MAX_ITEMS in *; lia]).
    rewrite limit_ok by done. unfold lift. by rewrite collect_bytes by (by apply Hself).
  - intros pre rest m r' H. rd_inv H. apply limit_fail_inv in H as [Hle H].
    injection H as H <-. apply collect_bytes_inv in H as [-> Hc].
    split; [split_and!; [apply HV|done|by apply Hself]|]. by eexists.
Qed.
End peers.

Definition peer_prekey_valid (e : SigPublic * (N * DhPublic)) : Prop :=
  len32 e.1 /\ u32_valid e.2.1 /\ len32 e.2.2.
Definition peer_prekey_image (e : SigPublic * (N * DhPublic)) : bytes :=
  bytes_image e.1 ++ u64_image e.2.1 ++ bytes_image e.2.2.

#[export] Instance read_peer_prekey_lawful :
  Lawful peer_prekey_valid peer_prekey_image read_peer_prekey.
Proof.
  unfold read_peer_prekey, peer_prekey_image. split.
  - intros [k [g pk]] pre post (H1 & H2 & H3). cbn [fst snd] in *. rewrite <- !app_assoc.
    do 3 rd_step. rd_done.
  - intros pre rest c r' H. do 3 rd_inv H. injection H as <- <-.
    split; [split_and!; [by apply array_len32|done|by apply array_len32]|]. eexists. by rewrite <- !app_assoc.
Qed.

Definition send_valid (e : SigPublic * Chan) : Prop := len32 e.1 /\ chan_valid e.2.
Definition send_image (e : SigPublic * Chan) : bytes := bytes_image e.1 ++ chan_image e.2.

#[export] Instance read_send_channel_lawful : Lawful send_valid send_image read_send_channel.
Proof.
  unfold read_send_channel, send_image. split.
  - intros [k c] pre post (H1 & H2). cbn [fst snd] in *. rewrite <- !app_assoc. do 2 rd_step. rd_done.
  - intros pre rest c r' H. do 2 rd_inv H. injection H as <- <-.
    split; [split; [by apply array_len32|done]|]. eexists. by rewrite <- !app_assoc.
Qed.

Definition buffered_valid (e : N * bytes) : Prop := u64_valid e.1 /\ bytes_valid e.2.
Definition buffered_image (e : N * bytes) : bytes := u64_image e.1 ++ bytes_image e.2.

#[export] Instance read_buffered_lawful : Lawful buffered_valid buffered_image read_buffered.
Proof.
  unfold read_buffered, buffered_image. split.
  - intros [k c] pre post (H1 & H2). cbn [fst snd] in *. rewrite <- !app_assoc. do 2 rd_step. rd_done.
  - intros pre rest c r' H. do 2 rd_inv H. injection H as <- <-.
    split; [by split|]. eexists. by rewrite <- !app_assoc.
Qed.

(** Every waiting slice is ahead of the channel and long enough to name an
    operation. *)
Definition recv_chan_valid (r : RecvChan) : Prop :=
  chan_valid (rc_chan r) /\ Forall buffered_valid (nt_list (rc_buffer r))
  /\ (lenN (nt_list (rc_buffer r)) <= MAX_BUFFERED)%N
  /\ Forall (fun e => buffered_check (ch_next (rc_chan r)) e.1 e.2 = Ok tt) (nt_list (rc_buffer r)).
Definition recv_chan_image (r : RecvChan) : bytes :=
  chan_image (rc_chan r) ++ list_image buffered_image (nt_list (rc_buffer r)).

#[export] Instance read_recv_chan_lawful : Lawful recv_chan_valid recv_chan_image read_recv_chan.
Proof.
  unfold read_recv_chan, recv_chan_image. split.
  - intros [c b] pre post (H1 & H2 & H3 & H4). cbn [rc_chan rc_buffer] in *. rewrite <- !app_assoc.
    rd_step. rd_step by (split; [done|unfold MAX_BUFFERED, MAX_ITEMS in *; lia]).
    rewrite limit_ok by done. erewrite bind_ok by (unfold lift; rewrite collect_N by done; reflexivity).
    rd_done.
  - intros pre rest c r' H. do 2 rd_inv H. apply limit_fail_inv in H as [Hle H].
    inv_bind H. injection Hm as Hm <-. apply collect_N_inv in Hm as [-> Hc].
    injection H as <- <-. split; [split_and!; [done|apply HV0|done|done]|].
    eexists. by rewrite <- !app_assoc.
Qed.

Definition recv_valid (e : SigPublic * RecvState) : Prop :=
  len32 e.1 /\ len32 (rs_eph e.2) /\ recv_chan_valid (rs_chan e.2).
Definition recv_image (e : SigPublic * RecvState) : bytes :=
  bytes_image e.1 ++ bytes_image (rs_eph e.2) ++ recv_chan_image (rs_chan e.2).

#[export] Instance read_recv_channel_lawful : Lawful recv_valid recv_image read_recv_channel.
Proof.
  unfold read_recv_channel, recv_image. split.
  - intros [k [eph c]] pre post (H1 & H2 & H3). cbn [fst snd rs_eph rs_chan] in *.
    rewrite <- !app_assoc. do 3 rd_step. rd_done.
  - intros pre rest c r' H. do 3 rd_inv H. injection H as <- <-.
    split; [split_and!; [by apply array_len32..|done]|]. eexists. by rewrite <- !app_assoc.
Qed.

#[export] Instance read_peer_prekeys_lawful ipk :
  Lawful (peers_ok peer_prekey_valid ipk) (fun m => list_image peer_prekey_image (bt_list m))
    (read_peer_prekeys ipk).
Proof. apply (peer_map_lawful _ _ read_peer_prekey). Qed.
#[export] Instance read_send_channels_lawful ipk :
  Lawful (peers_ok send_valid ipk) (fun m => list_image send_image (bt_list m)) (read_send_channels ipk).
Proof. apply (peer_map_lawful _ _ read_send_channel). Qed.
#[export] Instance read_recv_channels_lawful ipk :
  Lawful (peers_ok recv_valid ipk) (fun m => list_image recv_image (bt_list m)) (read_recv_channels ipk).
Proof. apply (peer_map_lawful _ _ read_recv_channel). Qed.

(** ** Prekeys, node keys, versions *)

Definition secret_image (s : option bytes) : bytes :=
  match s with Some s => u64_image 1 ++ bytes_image s | None => u64_image 0 end.

#[export] Instance read_secret_lawful :
  Lawful (fun s => match s with Some s => len32 s | None => True end) secret_image read_secret.
Proof.
  unfold read_secret, secret_image. split.
  - intros [s|] pre post Hs; rewrite <- ?app_assoc.
    + rd_step by done. cbn match. rd_step. rd_done.
    + rd_step by done. rd_done.
  - intros pre rest s r' H. rd_inv H. destruct a as [|[| |]]; try done.
    + injection H as <- <-. split; [done|]. by eexists.
    + rd_inv H. injection H as <- <-. split; [by apply array_len32|]. eexists. by rewrite <- !app_assoc.
Qed.

Section state_laws.
Context {P : Primitives}.

Definition prekeys_valid (k : PrekeyPool) : Prop :=
  u32_valid (pk_generation k) /\ match pk_secret k with Some s => len32 s | None => True end
  /\ len32 (pk_public k) /\ ids_valid MAX_RECIPIENTS (pk_established k) /\ u32_valid (pk_age k)
  /\ prekeys_check (pk_secret k) (pk_public k) (pk_age k) = Ok tt.
Definition prekeys_image (k : PrekeyPool) : bytes :=
  u64_image (pk_generation k) ++ secret_image (pk_secret k) ++ bytes_image (pk_public k)
  ++ ids_image (pk_established k) ++ u64_image (pk_age k).

#[export] Instance read_prekeys_lawful : Lawful prekeys_valid prekeys_image read_prekeys.
Proof.
  unfold read_prekeys, prekeys_image. split.
  - intros [g s pk e a] pre post (H1 & H2 & H3 & H4 & H5 & H6).
    cbn [pk_generation pk_secret pk_public pk_established pk_age] in *. rewrite <- !app_assoc.
    do 5 rd_step. erewrite bind_ok by (unfold lift; rewrite H6; reflexivity). rd_done.
  - intros pre rest k r' H. do 5 rd_inv H. inv_bind H. injection Hm as Hm <-. destruct a4.
    injection H as <- <-. split; [split_and!; try done; by apply array_len32|].
    eexists. cbn [pk_generation pk_secret pk_public pk_established pk_age]. by rewrite <- !app_assoc.
Qed.

Lemma write_prekeys_buf k w : w_buf (write_prekeys k w) = w_buf w ++ prekeys_image k.
Proof.
  unfold write_prekeys, prekeys_image, secret_image, write_sig_set. cbn zeta.
  destruct (pk_secret k); autorewrite with cfr_writer; by rewrite <- !app_assoc.
Qed.

Lemma order_check_ok keys order ids :
  order_check keys order ids = Ok tt <->
  NoDup order /\ (forall o, o ∈ order -> is_Some (keys !! o) /\ o ∉ ids).
Proof.
  revert ids. induction order as [|o order IH]; intros ids; cbn [order_check].
  { split; [|done]. intros _. split; [constructor|]. by intros o ?%not_elem_of_nil. }
  unfold invalid. destruct (bool_decide (keys !! o = None)) eqn:E1; cbn [orb].
  { apply bool_decide_eq_true in E1. split; [done|]. intros [_ H].
    destruct (H o (list_elem_of_here _ _)) as [[v Hv] _]. congruence. }
  apply bool_decide_eq_false in E1. destruct (bool_decide (o ∈ ids)) eqn:E2.
  { apply bool_decide_eq_true in E2. split; [done|]. intros [_ H].
    by destruct (H o (list_elem_of_here _ _)) as [_ ?]. }
  apply bool_decide_eq_false in E2. apply not_eq_None_Some in E1.
  rewrite IH, NoDup_cons. split.
  - intros [Hnd H]. split; [split; [|done]|].
    + intros Hin. destruct (H o Hin) as [_ Hn]. apply Hn. set_solver.
    + intros x [->|Hx]%elem_of_cons; [done|]. destruct (H x Hx). set_solver.
  - intros [[Hn Hnd] H]. split; [done|]. intros x Hx.
    destruct (H x (list_elem_of_further _ _ _ Hx)) as [Hs Hni]. split; [done|].
    intros [->%elem_of_singleton|?]%elem_of_union; done.
Qed.

(** The recency queue lists exactly the stored keys. *)
Definition nodekeys_valid (k : NodeKeys) : Prop :=
  (0 < nk_capacity k <= OVERLAP)%N /\ Forall entry_valid (bt_list (nk_keys k))
  /\ (lenN (bt_list (nk_keys k)) <= nk_capacity k)%N /\ Forall len32 (nk_order k)
  /\ lenN (nk_order k) = N.of_nat (size (nk_keys k)) /\ order_check (nk_keys k) (nk_order k) ∅ = Ok tt.
Definition nodekeys_image (k : NodeKeys) : bytes :=
  u64_image (nk_capacity k) ++ list_image entry_image (bt_list (nk_keys k))
  ++ list_image bytes_image (nk_order k).

#[export] Instance read_nodekeys_lawful : Lawful nodekeys_valid nodekeys_image read_nodekeys.
Proof.
  unfold read_nodekeys, nodekeys_image. split.
  - intros [ks o c] pre post ([H1 H2] & H3 & H4 & H5 & H6 & H7). cbn [nk_keys nk_order nk_capacity] in *.
    assert (lenN (bt_list ks) <= MAX_ITEMS)%N by (unfold OVERLAP, MAX_ITEMS in *; lia).
    assert (lenN o <= MAX_ITEMS)%N.
    { rewrite H6, <- bt_list_length. unfold lenN in *. done. }
    rewrite <- !app_assoc. rd_step by (unfold u64_valid, OVERLAP, two64 in *; lia).
    destruct (N.eqb_spec c 0); [lia|]. rewrite (proj2 (N.ltb_ge _ _) H2). cbn [orb].
    rd_step by (by split). rewrite limit_ok by done.
    erewrite bind_ok by (unfold lift; rewrite collect_bytes by (by apply Forall_true); reflexivity).
    rd_step by (split; [eapply Forall_impl; [exact H5|apply len32_array]|done]).
    rewrite H6, N.eqb_refl. cbn [negb].
    erewrite bind_ok by (unfold lift; rewrite H7; reflexivity). rd_done.
  - intros pre rest k r' H. rd_inv H. destruct (N.eqb_spec a 0); [done|].
    destruct (N.ltb_spec OVERLAP a); [done|]. cbn [orb] in H. rd_inv H.
    apply limit_fail_inv in H as [Hle H]. inv_bind H. injection Hm as Hm <-.
    apply collect_bytes_inv in Hm as [-> _]. rd_inv H.
    destruct (N.eqb_spec (lenN a0) (N.of_nat (size a1))); [|done]. cbn [negb] in H.
    inv_bind H. injection Hm as Hm <-. destruct a2. injection H as <- <-. split.
    + split_and!; cbn [nk_keys nk_order nk_capacity]; try done; try lia; [apply HV0|].
      eapply Forall_impl; [apply HV1|]. apply array_len32.
    + eexists. cbn [nk_keys nk_order nk_capacity]. by rewrite <- !app_assoc.
Qed.

Definition version_entry_valid (e : bytes * (gset Oid * bytes)) : Prop :=
  length e.1 = 8 /\ ids_valid MAX_OPS e.2.1 /\ len32 e.2.2.
Definition version_entry_image (e : bytes * (gset Oid * bytes)) : bytes :=
  bytes_image e.1 ++ ids_image e.2.1 ++ bytes_image e.2.2.

Lemma array_len n b : array_valid n b -> length b = n.
Proof. by intros [? _]. Qed.
Lemma len_array8 b : length b = 8 -> array_valid 8 b.
Proof. intros H. split; [done|]. unfold bytes_valid, MAX_FIELD, lenN. rewrite H. lia. Qed.
#[local] Hint Resolve len_array8 : cfr.

#[export] Instance read_version_entry_lawful :
  Lawful version_entry_valid version_entry_image read_version_entry.
Proof.
  unfold read_version_entry, version_entry_image. split.
  - intros [v [n r]] pre post (H1 & H2 & H3). cbn [fst snd] in *. rewrite <- !app_assoc.
    do 3 rd_step. rd_done.
  - intros pre rest c r' H. do 3 rd_inv H. injection H as <- <-.
    split; [split_and!; [by apply (array_len 8)|done|by apply array_len32]|]. eexists. by rewrite <- !app_assoc.
Qed.

(** Version history: labels that bind their frontier and roster. *)
Definition versions_ok (vs : gmap bytes (gset Oid * bytes)) : Prop :=
  Forall version_entry_valid (bt_list vs) /\ bt_list vs <> [] /\ (lenN (bt_list vs) <= OVERLAP)%N
  /\ Forall (fun e => version_check e.1 e.2 = Ok tt) (bt_list vs).
Definition versions_image (v : gmap bytes (gset Oid * bytes) * bytes) : bytes :=
  list_image version_entry_image (bt_list v.1) ++ bytes_image v.2.

(** Reading the history of a state, retained or not. *)
Lemma read_versions_image vs last pre post :
  versions_ok vs -> length last = 8 ->
  read_versions (rd_at pre (versions_image (vs, last) ++ post))
  = if bool_decide (vs !! last = None)
    then reject "state last version is not retained" (rd_at (pre ++ versions_image (vs, last)) post)
    else (Ok (vs, last), rd_at (pre ++ versions_image (vs, last)) post).
Proof.
  intros (H1 & H2 & H3 & H4) H5. unfold read_versions, versions_image. cbn [fst snd].
  rewrite <- !app_assoc.
  rd_step by (split; [done|unfold OVERLAP, MAX_ITEMS in *; lia]).
  rewrite bool_decide_false by done. rewrite (proj2 (N.ltb_ge _ _) H3). cbn [orb].
  erewrite bind_ok by (unfold lift; rewrite collect_bytes by done; reflexivity).
  rd_step. destruct (bool_decide (vs !! last = None)); by rewrite !app_assoc.
Qed.

Lemma read_versions_sound pre rest v r' :
  read_versions (rd_at pre rest) = (Ok v, r') ->
  versions_ok v.1 /\ length v.2 = 8 /\ is_Some (v.1 !! v.2) /\
  exists post, rest = versions_image v ++ post /\ r' = rd_at (pre ++ versions_image v) post.
Proof.
  unfold read_versions. intros H. rd_inv H. destruct (bool_decide (a = [])) eqn:Ee; [done|].
  apply bool_decide_eq_false in Ee. destruct (N.ltb_spec OVERLAP (lenN a)); [done|]. cbn [orb] in H.
  inv_bind H. injection Hm as Hm <-. apply collect_bytes_inv in Hm as [-> Hc]. rd_inv H.
  destruct (bool_decide (a0 !! a = None)) eqn:Er; [done|]. apply bool_decide_eq_false in Er.
  injection H as <- <-. cbn [fst snd]. split_and!.
  - split_and!; try done. apply HV.
  - by apply (array_len 8).
  - by apply not_eq_None_Some.
  - eexists. unfold versions_image. cbn [fst snd]. by rewrite <- !app_assoc.
Qed.

(** ** Waiting operations and the graph *)

Definition genuine (sid : SessionId) (op : Op) : Prop := op_sid op = sid /\ op_verify op = Ok tt.

Lemma check_operations_ok sid l ids :
  check_operations sid l ids = Ok tt <->
  Forall (genuine sid) l /\ NoDup (op_oid <$> l) /\ (forall op, op ∈ l -> op_oid op ∉ ids).
Proof.
  revert ids. induction l as [|op l IH]; intros ids; cbn [check_operations].
  { split; [|done]. intros _. split_and!; [done|constructor|]. by intros o ?%not_elem_of_nil. }
  rewrite Forall_cons, fmap_cons, NoDup_cons. unfold invalid, genuine at 1.
  destruct (decide (op_sid op <> sid)) as [Hs|Hs]; [naive_solver|]. apply dec_stable in Hs.
  unfold mbind at 1, result_bind at 1. destruct (op_verify op) as [[]|e]; [|naive_solver].
  destruct (decide (op_oid op ∈ ids)) as [Hi|Hi].
  { split; [done|]. intros (_ & _ & H). by destruct (H op (list_elem_of_here _ _)). }
  rewrite IH. split.
  - intros (HF & Hnd & H). split_and!; try done.
    + intros (q & Hq & Hin)%list_elem_of_fmap. apply (H q Hin). rewrite <- Hq. set_solver.
    + intros q [->|Hq]%elem_of_cons; [done|]. specialize (H q Hq). set_solver.
  - intros ([_ HF] & [Hn Hnd] & H). split_and!; try done. intros q Hq.
    specialize (H q (list_elem_of_further _ _ _ Hq)). intros [He%elem_of_singleton|?]%elem_of_union; [|done].
    apply Hn. rewrite <- He. apply list_elem_of_fmap. exists q. by split.
Qed.

Definition operations_valid (sid : SessionId) (limit : N) (l : list Op) : Prop :=
  Forall nested_valid l /\ (lenN l <= limit)%N /\ check_operations sid l ∅ = Ok tt.

#[export] Instance read_operations_lawful sid :
  Lawful (operations_valid sid (N.of_nat MAX_PENDING)) (list_image nested_image)
    (read_operations sid (N.of_nat MAX_PENDING)).
Proof.
  unfold read_operations. split.
  - intros l pre post (H1 & H2 & H3).
    rd_step by (split; [done|unfold MAX_PENDING, MAX_ITEMS in *; lia]). rewrite limit_ok by done.
    erewrite bind_ok by (unfold lift; rewrite H3; reflexivity). rd_done.
  - intros pre rest l r' H. rd_inv H. apply limit_fail_inv in H as [Hle H]. inv_bind H.
    injection Hm as Hm <-. destruct a0. injection H as <- <-.
    split; [split_and!; [apply HV|done|done]|]. by eexists.
Qed.

(** The graph import rebuilds: the same operations and parents, nothing cached. *)
Definition reload_dag (d : Dag) : Dag := mkDag (dag_len d) (dag_ops d) (dag_parents d) ∅.

Definition prefix_graph (d : Dag) (pre : list Oid) (d' : Dag) : Prop :=
  (forall o, dag_ops d' !! o = if decide (o ∈ pre) then dag_ops d !! o else None) /\
  (forall o, dag_parents d' !! o = if decide (o ∈ pre) then dag_parents d !! o else None) /\
  dag_epoch d' = lenN pre /\ dag_cache d' = ∅.

Section rebuilding.
Context (d : Dag) (sid : SessionId).
Context (Hwf : dag_wf d) (Hex : dag_exact d).
Context (Hgen : forall o op, dag_ops d !! o = Some op -> genuine sid op).

Lemma prefix_size pre d' :
  prefix_graph d pre d' -> NoDup pre -> (forall o, o ∈ pre -> o ∈ dom (dag_ops d)) ->
  dag_len d' = lenN pre.
Proof using Type.
  intros (Ho & _) Hnd Hin. unfold dag_len, lenN. f_equal.
  rewrite <- size_dom, <- (size_list_to_set (C := gset Oid) pre) by done. f_equal.
  apply set_eq. intros o. rewrite elem_of_list_to_set, elem_of_dom, Ho.
  case_decide as Hd; [|by split; [intros []|]]. rewrite <- elem_of_dom. naive_solver.
Qed.

Lemma rebuild_step pre o suf d' op :
  topological d = pre ++ o :: suf -> prefix_graph d pre d' -> dag_ops d !! o = Some op ->
  exists d'', dag_add op d' = (Ok o, d'') /\ prefix_graph d (pre ++ [o]) d''.
Proof using Hwf Hex Hgen.
  intros Ht Hpre Hop. destruct (topological_spec d Hwf) as (Hnd & Hin & Hr).
  assert (forall x, x ∈ pre -> x ∈ dom (dag_ops d)) as Hind.
  { intros x Hx. apply Hin. rewrite Ht. set_solver. }
  rewrite Ht in Hnd. pose proof Hnd as Hnd'. apply NoDup_app in Hnd' as (Hp & Hd & _).
  assert (o ∉ pre) as Hno by (intros Hx; apply (Hd o Hx), list_elem_of_here).
  pose proof (prefix_size pre d' Hpre Hp Hind) as Hlen. destruct Hpre as (Ho & Hpar & Hep & Hc).
  assert (lenN pre < dag_len d)%N as Hlt.
  { unfold dag_len. rewrite <- size_dom.
    assert (dom (dag_ops d) = list_to_set (C := gset Oid) (pre ++ o :: suf)) as ->.
    { apply set_eq. intros x. by rewrite elem_of_list_to_set, <- Ht, Hin. }
    rewrite size_list_to_set by done. len_lia. }
  pose proof (wf_size d Hwf). pose proof (wf_oid d Hwf o op Hop) as Hoid.
  destruct (dag_add op d') as [r d''] eqn:Ea.
  apply dag_add_cases in Ea as [(? & _)|[(_ & Hx & _)|(_ & _ & -> & A1 & A2 & A3 & A4)]]; [lia| |].
  { apply elem_of_dom in Hx as [x Hx]. rewrite Ho, Hoid, decide_False in Hx by done. done. }
  rewrite Hoid in *. exists d''. split; [done|]. split_and!.
  - intros x. rewrite A1. destruct (decide (x = o)) as [->|Hne].
    + by rewrite lookup_insert_eq, decide_True by set_solver.
    + rewrite lookup_insert_ne, Ho by done. by rewrite (decide_ext (x ∈ pre) (x ∈ pre ++ [o])) by set_solver.
  - intros x. rewrite A2. destruct (decide (x = o)) as [->|Hne].
    + rewrite lookup_insert_eq, decide_True by set_solver. rewrite (Hex o op Hop). f_equal.
      apply set_eq. intros y. rewrite elem_of_intersection. split; [by intros [? _]|]. intros Hy.
      split; [done|]. apply elem_of_dom. rewrite Ho.
      assert (y ∈ pre) as Hyp by (eapply Hr; [exact Ht|]; exists (op_deps op); by rewrite (Hex o op Hop)).
      rewrite decide_True by done. by apply elem_of_dom, Hind.
    + rewrite lookup_insert_ne, Hpar by done. by rewrite (decide_ext (x ∈ pre) (x ∈ pre ++ [o])) by set_solver.
  - rewrite A4, Hep, lenN_app. done.
  - done.
Qed.

Lemma rebuild_run suf pre d' :
  topological d = pre ++ suf -> prefix_graph d pre d' ->
  exists l, mapM (dag_get d) suf = Some l /\ length l = length suf /\
    rebuild sid l (list_to_set pre) d' = Ok (reload_dag d).
Proof using Hwf Hex Hgen.
  destruct (topological_spec d Hwf) as (Hnd & Hin & Hr).
  revert pre d'. induction suf as [|o suf IH]; intros pre d' Ht Hpre.
  { exists []. split_and!; [done..|]. cbn [rebuild]. f_equal. rewrite app_nil_r in Ht. subst pre.
    assert (dag_len d' = lenN (topological d)) as Hl.
    { apply prefix_size; [done|done|]. intros o. apply Hin. }
    destruct Hpre as (Ho & Hpar & Hep & Hc).
    assert (dag_ops d' = dag_ops d) as Hops.
    { apply map_eq. intros o. rewrite Ho. case_decide as Hd; [done|]. symmetry.
      apply not_elem_of_dom. by rewrite <- Hin. }
    assert (dag_parents d' = dag_parents d) as Hps.
    { apply map_eq. intros o. rewrite Hpar. case_decide as Hd; [done|]. symmetry.
      apply not_elem_of_dom. rewrite (wf_dom d Hwf). by rewrite <- Hin. }
    unfold reload_dag, dag_len in *. destruct d' as [ep ops ps ca]. cbn [dag_ops dag_parents dag_epoch dag_cache] in *.
    subst. f_equal; congruence. }
  assert (is_Some (dag_ops d !! o)) as [op Hop].
  { apply elem_of_dom, Hin. rewrite Ht. set_solver. }
  destruct (rebuild_step pre o suf d' op Ht Hpre Hop) as (d'' & Ha & Hpre').
  destruct (IH (pre ++ [o]) d'') as (l & Hl & Hlen & Hrun); [by rewrite <- app_assoc|done|].
  assert (dag_get d o = Some op) as Hget by exact Hop.
  exists (op :: l). split_and!; [by apply mapM_Some; constructor; [|apply mapM_Some]|simpl; lia|].
  cbn [rebuild].
  destruct (Hgen o op Hop) as [Hs Hv]. rewrite decide_False by (intros Hn; by apply Hn).
  rewrite Hv. cbn [mbind result_bind]. pose proof (wf_oid d Hwf o op Hop) as ->.
  rewrite Ht in Hnd. apply NoDup_app in Hnd as (Hp & Hd & _).
  rewrite decide_False by (rewrite elem_of_list_to_set; intros Hx; apply (Hd o Hx), list_elem_of_here).
  assert (forallb (fun x => bool_decide (x ∈ {[o]} ∪ list_to_set (C := gset Oid) pre))
            (bt_elems (op_deps op)) = true) as ->.
  { apply forallb_forall. intros y Hy%list_elem_of_In%elem_of_bt_elems. apply bool_decide_true.
    apply elem_of_union_r, elem_of_list_to_set. eapply Hr; [exact Ht|].
    exists (op_deps op). by rewrite (Hex o op Hop). }
  cbn [negb]. rewrite Ha. rewrite list_to_set_app_L, union_comm_L in Hrun.
  by replace (list_to_set [o] : gset Oid) with ({[o]} : gset Oid) in Hrun by set_solver.
Qed.

(** Exporting the graph and rebuilding it gives it back. *)
Lemma rebuild_topological :
  exists l, mapM (dag_get d) (topological d) = Some l /\ lenN (topological d) = dag_len d /\
    lenN l = dag_len d /\ rebuild sid l ∅ dag_new = Ok (reload_dag d).
Proof using Hwf Hex Hgen.
  destruct (rebuild_run (topological d) [] dag_new) as (l & Hl & Hlen & Hrun); [done| |].
  { split_and!; [| |done..]; intros o; rewrite decide_False by apply not_elem_of_nil; apply lookup_empty. }
  destruct (topological_spec d Hwf) as (Hnd & Hin & _).
  assert (lenN (topological d) = dag_len d) as Hd.
  { unfold lenN, dag_len. f_equal. rewrite <- size_dom, <- (size_list_to_set (C := gset Oid)) by done.
    f_equal. apply set_eq. intros o. by rewrite elem_of_list_to_set, Hin. }
  exists l. split_and!; [done|done| |done]. unfold lenN in *. by rewrite Hlen.
Qed.
End rebuilding.

Lemma read_dag_image d sid l pre post :
  dag_wf d -> dag_exact d -> (forall o op, dag_ops d !! o = Some op -> genuine sid op) ->
  mapM (dag_get d) (topological d) = Some l -> Forall nested_valid l -> dag_ops d <> ∅ ->
  read_dag sid (rd_at pre (list_image nested_image l ++ post))
  = (Ok (reload_dag d), rd_at (pre ++ list_image nested_image l) post).
Proof.
  intros Hwf Hex Hg Hl HF Hne.
  destruct (rebuild_topological d sid Hwf Hex Hg) as (l' & Hl' & Ht & Hn & Hr).
  rewrite Hl in Hl'. injection Hl' as <-. pose proof (wf_size d Hwf) as Hsz. unfold read_dag.
  rd_step by (split; [done|unfold MAX_OPS, MAX_ITEMS in *; lia]).
  rewrite bool_decide_false.
  - rewrite (proj2 (N.ltb_ge _ _)) by lia. cbn [orb]. unfold lift. by rewrite Hr.
  - intros ->. apply Hne. apply map_size_empty_iff. unfold dag_len, lenN in Hn. simpl in Hn. lia.
Qed.

(** A rebuilt graph is well formed and holds genuine operations only; parents
    are the signed dependencies (an operation that names itself aside). *)
Definition rebuilt (sid : SessionId) (d : Dag) : Prop :=
  dag_wf d /\ dag_epoch d = dag_len d /\ dag_cache d = ∅ /\
  forall o op, dag_ops d !! o = Some op ->
    nested_valid op /\ genuine sid op /\ dag_parents d !! o = Some (op_deps op ∖ {[o]}).

Lemma rebuild_sound sid l d d' :
  Forall nested_valid l -> rebuilt sid d -> rebuild sid l (dom (dag_ops d)) d = Ok d' ->
  rebuilt sid d' /\ dom (dag_ops d) ⊆ dom (dag_ops d') /\
  (forall op, op ∈ l -> op_oid op ∈ dom (dag_ops d')).
Proof.
  revert d. induction l as [|op l IH]; intros d HF Hd H; cbn [rebuild] in H.
  { injection H as <-. split_and!; [done..|]. by intros op ?%not_elem_of_nil. }
  apply Forall_cons in HF as [Hop HF]. unfold invalid in H.
  destruct (decide (op_sid op <> sid)) as [|Hs]; [done|]. apply dec_stable in Hs.
  destruct (op_verify op) as [[]|] eqn:Hv; [|done]. cbn [mbind result_bind] in H.
  destruct (decide (op_oid op ∈ dom (dag_ops d))) as [|Hn]; [done|].
  destruct (forallb _ _) eqn:Hdeps; [|done]. cbn [negb] in H.
  destruct (dag_add op d) as [[o|e] d1] eqn:Ea; [|done].
  destruct Hd as (Hwf & Hep & Hc & Hall).
  pose proof (dag_add_wf op d _ _ Hwf Ea) as Hwf1.
  apply dag_add_cases in Ea as [(_ & ? & _)|[(_ & ? & _)|(_ & Hno & _ & A1 & A2 & A3 & A4)]]; [done|done|].
  assert (dom (dag_ops d1) = {[op_oid op]} ∪ dom (dag_ops d)) as Hdom by (by rewrite A1, dom_insert_L).
  rewrite <- Hdom in H. apply IH in H as (Hd' & Hsub & Hin); [|done|].
  - rewrite Hdom in Hsub. split_and!; [exact Hd'|etrans; [apply union_subseteq_r|exact Hsub]|].
    intros q [->|Hq]%elem_of_cons; [|by apply Hin].
    apply Hsub, elem_of_union_l, elem_of_singleton. reflexivity.
  - split_and!; [done| |done|].
    + rewrite A4, Hep. unfold dag_len. rewrite A1, map_size_insert_None by done. lia.
    + intros x q. rewrite A1, A2. intros [[<- <-]|[Hne Hq]]%lookup_insert_Some.
      * rewrite lookup_insert_eq. split_and!; [done|done|]. f_equal.
        rewrite forallb_forall in Hdeps. apply set_eq. intros y.
        rewrite elem_of_intersection, elem_of_difference, elem_of_singleton. split.
        -- intros [Hy Hyd]. split; [done|]. by intros ->.
        -- intros [Hy Hyn]. split; [done|].
           assert (In y (bt_elems (op_deps op))) as Hi by (by apply list_elem_of_In, elem_of_bt_elems).
           specialize (Hdeps y Hi).
           apply bool_decide_eq_true, elem_of_union in Hdeps as [Hy1%elem_of_singleton|Hy1]; [|exact Hy1].
           by destruct Hyn.
      * rewrite lookup_insert_ne by done. by apply Hall.
Qed.

Lemma read_dag_sound sid pre rest d r' :
  read_dag sid (rd_at pre rest) = (Ok d, r') ->
  rebuilt sid d /\ dag_ops d <> ∅ /\
  exists img post, rest = img ++ post /\ r' = rd_at (pre ++ img) post.
Proof.
  unfold read_dag. intros H. rd_inv H. destruct (bool_decide (a = [])) eqn:Ee; [done|].
  apply bool_decide_eq_false in Ee. destruct (MAX_OPS <? lenN a)%N; [done|]. cbn [orb] in H.
  injection H as H <-. change ∅ with (dom (dag_ops dag_new)) in H.
  apply rebuild_sound in H as (Hd & _ & Hin); [|apply HV|].
  - split; [done|]. split; [|by do 2 eexists]. intros He. rewrite He in Hin.
    destruct a as [|op a]; [done|]. by apply (not_elem_of_empty (C := gset Oid) (op_oid op)),
      (Hin op), list_elem_of_here.
  - split_and!; [apply dag_new_wf|done|done|]. intros o op. cbn [dag_new dag_ops]. by rewrite lookup_empty.
Qed.

(** ** The whole participant *)

(** The widths of the Rust types and the checks import makes field by field. *)
Record stored_fields (p : Participant) : Prop := {
  sf_identity : len32 (p_identity p);
  sf_ipk : len32 (p_ipk p);
  sf_key : sig_public (p_identity p) = p_ipk p;
  sf_sid : len32 (p_sid p);
  sf_policy : policy_valid (p_policy p);
  sf_seed0 : len32 (p_seed0 p);
  sf_ops o op : dag_ops (p_dag p) !! o = Some op -> nested_valid op /\ genuine (p_sid p) op;
  sf_nonempty : dag_ops (p_dag p) <> ∅;
  sf_guilty : ids_valid MAX_RECIPIENTS (p_guilty p);
  sf_prekeys : prekeys_valid (p_prekeys p);
  sf_peer_prekeys : peers_ok peer_prekey_valid (p_ipk p) (p_peer_prekeys p);
  sf_send : peers_ok send_valid (p_ipk p) (p_send p);
  sf_recv : peers_ok recv_valid (p_ipk p) (p_recv p);
  sf_nodekeys : nodekeys_valid (p_nodekeys p);
  sf_absorbed : ids_valid MAX_OPS (p_absorbed p);
  sf_missing : ids_valid MAX_OPS (p_missing p);
  sf_pending : operations_valid (p_sid p) (N.of_nat MAX_PENDING) (p_pending p);
  sf_accusations : operations_valid (p_sid p) (N.of_nat MAX_PENDING) (p_open_accusations p);
  sf_versions : versions_ok (p_seen_versions p);
  sf_last : length (p_last_version p) = 8;
}.

Definition participant_image (p : Participant) (ops : list Op) : bytes :=
  bytes_image (p_identity p) ++ bytes_image (p_ipk p) ++ bytes_image (p_sid p)
  ++ policy_image (p_policy p) ++ bytes_image (p_seed0 p) ++ list_image nested_image ops
  ++ ids_image (p_guilty p) ++ prekeys_image (p_prekeys p)
  ++ list_image peer_prekey_image (bt_list (p_peer_prekeys p))
  ++ list_image send_image (bt_list (p_send p)) ++ list_image recv_image (bt_list (p_recv p))
  ++ nodekeys_image (p_nodekeys p) ++ ids_image (p_absorbed p) ++ ids_image (p_missing p)
  ++ list_image nested_image (p_pending p) ++ list_image nested_image (p_open_accusations p)
  ++ versions_image (p_seen_versions p, p_last_version p).

(** The specification of import on what export wrote: memos start empty, the
    graph and the contribution parents are rebuilt.  No code computes it; that
    [import_persistence_state] returns it is [import_of_export]. *)
Definition reload (p : Participant) : Participant :=
  mkParticipant (p_identity p) (p_ipk p) (p_sid p) (p_policy p) (p_seed0 p) (reload_dag (p_dag p))
    (p_guilty p) (p_prekeys p) (p_peer_prekeys p) (p_send p) (p_recv p) (p_nodekeys p)
    (cparents_of (reload_dag (p_dag p))) (p_absorbed p) (p_missing p) (p_pending p)
    (p_open_accusations p) (p_seen_versions p) (p_last_version p) ∅ None.

Lemma write_policy_buf p w : w_buf (write_policy p w) = w_buf w ++ policy_image p.
Proof.
  unfold write_policy, policy_image, write_sig_set. autorewrite with cfr_writer. by rewrite <- !app_assoc.
Qed.
Lemma peer_prekey_write_buf e w : w_buf (peer_prekey_write e w) = w_buf w ++ peer_prekey_image e.
Proof. unfold peer_prekey_write, peer_prekey_image. autorewrite with cfr_writer. by rewrite <- !app_assoc. Qed.
Lemma send_write_buf e w : w_buf (send_write e w) = w_buf w ++ send_image e.
Proof.
  unfold send_write, send_image, write_chan, chan_image. autorewrite with cfr_writer. by rewrite <- !app_assoc.
Qed.
Lemma buffered_write_buf e w : w_buf (buffered_write e w) = w_buf w ++ buffered_image e.
Proof. unfold buffered_write, buffered_image. autorewrite with cfr_writer. by rewrite <- !app_assoc. Qed.
Lemma recv_write_buf e w : w_buf (recv_write e w) = w_buf w ++ recv_image e.
Proof.
  unfold recv_write, recv_image, recv_chan_image, write_chan, chan_image.
  rewrite (w_buf_list _ _ _ _ buffered_write_buf). autorewrite with cfr_writer. by rewrite <- !app_assoc.
Qed.
Lemma nodekey_write_buf e w : w_buf (nodekey_write e w) = w_buf w ++ entry_image e.
Proof. unfold nodekey_write, entry_image. autorewrite with cfr_writer. by rewrite <- !app_assoc. Qed.
Lemma write_nodekeys_buf k w : w_buf (write_nodekeys k w) = w_buf w ++ nodekeys_image k.
Proof.
  unfold write_nodekeys, nodekeys_image. rewrite (w_buf_list writer_bytes bytes_image) by done.
  rewrite (w_buf_list _ _ _ _ nodekey_write_buf). autorewrite with cfr_writer. by rewrite <- !app_assoc.
Qed.
Lemma version_write_buf e w : w_buf (version_write e w) = w_buf w ++ version_entry_image e.
Proof.
  unfold version_write, version_entry_image, write_oid_set. autorewrite with cfr_writer. by rewrite <- !app_assoc.
Qed.

Lemma write_participant_image p l :
  dag_wf (p_dag p) -> mapM (dag_get (p_dag p)) (topological (p_dag p)) = Some l ->
  lenN (topological (p_dag p)) = dag_len (p_dag p) ->
  exists w, write_participant p = Ok w /\ w_buf w = participant_image p l.
Proof.
  intros Hwf Hl Hlen. unfold write_participant, write_dag. cbn zeta.
  rewrite decide_False by (intros Hn; by apply Hn). rewrite Hl. cbn [mbind result_bind].
  eexists. split; [reflexivity|]. unfold write_operations, write_sig_set, write_oid_set.
  rewrite w_buf_bytes, (w_buf_list _ _ _ _ version_write_buf), !op_write_list, !write_id_set_buf,
    write_nodekeys_buf, (w_buf_list _ _ _ _ recv_write_buf), (w_buf_list _ _ _ _ send_write_buf),
    (w_buf_list _ _ _ _ peer_prekey_write_buf), write_prekeys_buf, write_id_set_buf, op_write_list,
    w_buf_bytes, write_policy_buf, !w_buf_bytes.
  unfold participant_image, versions_image. cbn [w_buf writer_new fst snd app]. by rewrite <- !app_assoc.
Qed.

Lemma read_participant_image p l :
  dag_wf (p_dag p) -> dag_exact (p_dag p) -> stored_fields p ->
  mapM (dag_get (p_dag p)) (topological (p_dag p)) = Some l ->
  exists r, read_participant (rd_at [] (participant_image p l ++ []))
    = (if bool_decide (p_seen_versions p !! p_last_version p = None)
       then Err (Encoding "state last version is not retained") else Ok (reload p), r).
Proof.
  intros Hwf Hex [] Hl. destruct p as [identity ipk sid policy seed0 d guilty prekeys peers send recv
    nk cp absorbed missing pending acc vs last authz dv].
  cbn [p_identity p_ipk p_sid p_policy p_seed0 p_dag p_guilty p_prekeys p_peer_prekeys p_send p_recv
    p_nodekeys p_absorbed p_missing p_pending p_open_accusations p_seen_versions p_last_version] in *.
  assert (Forall nested_valid l) as HF.
  { apply mapM_Some in Hl. apply Forall_forall. intros op Hin.
    apply list_elem_of_lookup in Hin as [i Hi]. destruct (Forall2_lookup_r _ _ _ _ _ Hl Hi) as (o & _ & Ho).
    by apply (sf_ops0 o op). }
  unfold read_participant, participant_image, reload.
  cbn [p_identity p_ipk p_sid p_policy p_seed0 p_dag p_guilty p_prekeys p_peer_prekeys p_send p_recv
    p_nodekeys p_absorbed p_missing p_pending p_open_accusations p_seen_versions p_last_version].
  rewrite <- !app_assoc. destruct (bool_decide (vs !! last = None)) eqn:Elast; eexists;
    (do 2 rd_step; rewrite decide_False by (intros Hn; by apply Hn); do 3 rd_step;
     erewrite bind_ok by (apply read_dag_image; [done|done|intros o op Ho; by apply (sf_ops0 o op)|done|done|done]);
     do 10 rd_step).
  - erewrite bind_err; [reflexivity|]. rewrite read_versions_image by done. by rewrite Elast.
  - erewrite bind_ok; [|rewrite read_versions_image by done; by rewrite Elast].
    erewrite bind_ok; [reflexivity|]. unfold reader_finish, rd_at. cbn [r_pos r_buf].
    by rewrite app_nil_r, N.eqb_refl.
Qed.

Lemma import_of_export_eq p buf :
  dag_wf (p_dag p) -> dag_exact (p_dag p) -> stored_fields p ->
  export_persistence_state p = Ok buf ->
  import_persistence_state buf
  = if bool_decide (p_seen_versions p !! p_last_version p = None)
    then Err (Encoding "state last version is not retained")
    else match validate_participant (reload p) with Ok _ => Ok (reload p) | Err e => Err e end.
Proof.
  intros Hwf Hex Hsf He.
  destruct (rebuild_topological (p_dag p) (p_sid p) Hwf Hex) as (l & Hl & Hlen & _ & _).
  { intros o op Ho. by apply (sf_ops p Hsf o op). }
  destruct (write_participant_image p l Hwf Hl Hlen) as (w & Hw & Hbuf).
  unfold export_persistence_state in He. rewrite Hw in He. cbn [mbind result_bind] in He.
  unfold writer_finish in He. rewrite Hbuf in He.
  destruct (N.ltb_spec MAX_FIELD (lenN (participant_image p l))) as [|Hle]; [done|].
  injection He as <-. unfold import_persistence_state. rewrite (proj2 (N.ltb_ge _ _) Hle).
  destruct (read_participant_image p l Hwf Hex Hsf Hl) as [r Hr]. rewrite app_nil_r in Hr.
  change (reader_new (participant_image p l)) with (rd_at [] (participant_image p l)). rewrite Hr.
  cbn [fst]. destruct (bool_decide _); [done|]. cbn [mbind result_bind].
  by destruct (validate_participant (reload p)) as [[]|].
Qed.

(** C23. What becomes of an exported participant, exactly.  For a participant
    with a well-formed graph whose fields respect the stored limits, import of
    its export is its reloaded copy, subject to the cross-field validation; the
    one exception is a version history that no longer retains the last version
    announced, which import refuses. *)
Theorem import_of_export p buf :
  dag_wf (p_dag p) -> dag_exact (p_dag p) -> stored_fields p ->
  export_persistence_state p = Ok buf ->
  import_persistence_state buf
  = if bool_decide (p_seen_versions p !! p_last_version p = None)
    then Err (Encoding "state last version is not retained")
    else match validate_participant (reload p) with Ok _ => Ok (reload p) | Err e => Err e end.
Proof. apply import_of_export_eq. Qed.

(** ** What survives a restart *)

Lemma reload_dag_wf d : dag_wf d -> dag_wf (reload_dag d).
Proof.
  intros [H1 H2 H3 H4 H5 H6]. split; cbn [reload_dag dag_ops dag_parents dag_cache]; try done.
Qed.

Lemma reload_precedes d a b : dag_wf d -> precedes (reload_dag d) a b = precedes d a b.
Proof.
  intros Hwf. apply eq_bool_prop_intro.
  by rewrite !Is_true_true, !precedes_spec by auto using reload_dag_wf.
Qed.

Lemma reload_members_in d pol g keep :
  dag_wf d -> members_in (mkMembership (reload_dag d) pol g) keep = members_in (mkMembership d pol g) keep.
Proof.
  intros Hwf. apply members_in_cong; [done..|]. intros. by apply reload_precedes.
Qed.

Lemma reload_frontier d : dag_wf d -> frontier (reload_dag d) = frontier d.
Proof.
  intros Hwf. apply set_eq. intros o. rewrite !frontier_elem by auto using reload_dag_wf. done.
Qed.

Lemma reload_accusation p acc : check_accusation (reload p) acc = check_accusation p acc.
Proof. reflexivity. Qed.

Lemma reload_ok fx p : part_ok fx p -> part_ok fx (reload p).
Proof.
  intros [H1 H2 H3 H4 H5 H6 H7 H8 H9 H10 H11 H12 H13 H14 H15 H16 H17 H18 H19].
  split; cbn [reload reload_dag p_identity p_ipk p_sid p_policy p_seed0 p_dag p_guilty p_send p_recv
    p_nodekeys p_pending p_seen_versions dag_ops dag_parents]; try assumption.
  - by apply reload_dag_wf.
  - intros o acc who coid Ho Hacc Hpast. apply (H10 o acc who coid Ho Hacc).
    rewrite (past_of_spec (p_dag p)) by done. by apply (past_of_spec (reload_dag (p_dag p))); [apply reload_dag_wf|].
  - discriminate.
  - intros digest ep g past. cbn [reload p_authz]. by rewrite lookup_empty.
Qed.

Lemma validate_reload p : validate_participant (reload p) = validate_participant p.
Proof. reflexivity. Qed.

(** Everything a participant stores, its graph by its operations and their
    recorded parents. *)
Definition persisted (p : Participant) :=
  (p_identity p, p_ipk p, p_sid p, p_policy p, p_seed0 p, dag_ops (p_dag p), dag_parents (p_dag p), p_guilty p,
   p_prekeys p, p_peer_prekeys p, p_send p, p_recv p, p_nodekeys p, p_absorbed p, p_missing p, p_pending p,
   p_open_accusations p, p_seen_versions p, p_last_version p).

Lemma reload_declared_past d op : dag_wf d -> declared_past (reload_dag d) op = declared_past d op.
Proof.
  intros Hwf. pose proof (reload_dag_wf d Hwf) as Hwf'.
  assert (forall o, past_of (reload_dag d) o = past_of d o) as Hp.
  { intros o. apply set_eq. intros x. by rewrite !past_of_spec. }
  unfold declared_past. change (dag_contains (reload_dag d)) with (dag_contains d). rewrite Hp.
  generalize (if dag_contains d (op_oid op) then past_of d (op_oid op) else ∅). intros acc.
  revert acc. induction (bt_elems (op_deps op)) as [|x l IH]; intros acc; [done|]. cbn [foldl]. by rewrite Hp, IH.
Qed.

Lemma reload_authorised p op :
  dag_wf (p_dag p) -> authorised (membership (reload p)) op = authorised (membership p) op.
Proof.
  intros Hwf. unfold authorised, members_before, membership. cbn [reload p_dag p_policy p_guilty m_dag].
  by rewrite (reload_declared_past _ _ Hwf), (reload_members_in _ _ _ _ Hwf).
Qed.

Lemma reload_version p t :
  part_ok (statics p) p -> (p_version (mkEnv (reload p) t)).1 = (p_version (mkEnv p t)).1.
Proof.
  intros Hp. pose proof (reload_ok _ _ Hp) as Hr. pose proof (ok_wf _ Hp) as Hwf.
  rewrite (proj1 (proj2 (proj2 (memo_values _ p t Hp)))), (proj1 (proj2 (proj2 (memo_values _ (reload p) t Hr)))).
  unfold root, members, membership. cbn [reload p_dag p_policy p_guilty].
  by rewrite (reload_members_in _ _ _ _ Hwf), (reload_frontier _ Hwf).
Qed.

Lemma reload_group_key p t :
  part_ok (statics p) p -> (p_group_key (mkEnv (reload p) t)).1 = (p_group_key (mkEnv p t)).1.
Proof.
  intros Hp. pose proof (reload_ok _ _ Hp) as Hr. pose proof (ok_wf _ Hp) as Hwf.
  rewrite (proj2 (proj2 (proj2 (memo_values _ p t Hp)))), (proj2 (proj2 (proj2 (memo_values _ (reload p) t Hr)))).
  unfold root, members, membership. cbn [reload p_dag p_policy p_guilty p_seed0 p_nodekeys].
  by rewrite (reload_members_in _ _ _ _ Hwf), (reload_frontier _ Hwf).
Qed.

(** C24. A restart loses nothing the protocol depends on.  If a participant
    within the stored limits, whose version history retains the last version and
    whose cross-field validation passes, is exported, then importing the bytes
    succeeds.  The participant that comes back satisfies the whole participant
    invariant for the same history, stores the same fields (its contribution
    parents are rebuilt, its memos start empty), computes the same roster,
    frontier, version label and group key, passes the same verdict on every
    operation, and exports to the same bytes again. *)
Theorem restart_transparent p buf t :
  part_ok (statics p) p -> stored_fields p -> is_Some (p_seen_versions p !! p_last_version p) ->
  validate_participant p = Ok tt -> export_persistence_state p = Ok buf ->
  exists q, import_persistence_state buf = Ok q /\ part_ok (statics p) q /\
    persisted q = persisted p /\ p_cparents q = cparents_of (p_dag q) /\
    members (membership q) = members (membership p) /\ frontier (p_dag q) = frontier (p_dag p) /\
    (p_version (mkEnv q t)).1 = (p_version (mkEnv p t)).1 /\
    (p_group_key (mkEnv q t)).1 = (p_group_key (mkEnv p t)).1 /\
    (forall op, authorised (membership q) op = authorised (membership p) op) /\
    export_persistence_state q = Ok buf.
Proof.
  intros Hp Hf Hl Hv He. pose proof (ok_wf _ Hp) as Hwf. exists (reload p).
  split_and!; [|by apply reload_ok|reflexivity|reflexivity|by apply reload_members_in|by apply reload_frontier
    |by apply reload_version|by apply reload_group_key|intros op; by apply reload_authorised|exact He].
  rewrite (import_of_export_eq p buf Hwf (ok_exact _ Hp) Hf He), validate_reload, Hv.
  rewrite bool_decide_false; [done|]. intros Hn. rewrite Hn in Hl. by destruct Hl.
Qed.

Lemma validated_guilt p who :
  validate_participant p = Ok tt -> who ∈ p_guilty p -> proven_guilty p who.
Proof.
  unfold validate_participant. destruct (validate_contribution_state p); [|done].
  cbn [mbind result_bind]. destruct (forallb _ _) eqn:E; [|done]. intros _ Hw.
  rewrite forallb_forall in E.
  assert (In who (bt_elems (p_guilty p))) as Hi by (by apply list_elem_of_In, elem_of_bt_elems).
  specialize (E who Hi). unfold proof_in_graph in E. apply existsb_exists in E as ([o acc] & _ & Ha).
  cbn [snd] in Ha. apply andb_true_iff in Ha as [Ha Hc]. exists acc. split; [done|].
  unfold accuses in Ha. unfold accused. destruct (op_body acc); try done.
  by apply bool_decide_eq_true in Ha as ->.
Qed.

Lemma import_sound buf q :
  import_persistence_state buf = Ok q ->
  stored_fields q /\ rebuilt (p_sid q) (p_dag q) /\ reload q = q /\
  is_Some (p_seen_versions q !! p_last_version q) /\ validate_participant q = Ok tt /\
  (forall who, who ∈ p_guilty q -> proven_guilty q who).
Proof.
  unfold import_persistence_state. destruct (MAX_FIELD <? lenN buf)%N; [done|].
  change (reader_new buf) with (rd_at [] buf).
  destruct (read_participant (rd_at [] buf)) as [[p|e] r] eqn:E; [|done].
  cbn [fst mbind result_bind]. destruct (validate_participant p) as [[]|] eqn:Hv; [|done].
  intros [= <-]. unfold read_participant in E. do 2 rd_inv E.
  destruct (decide _) as [|Hd]; [done|]. apply dec_stable in Hd. do 3 rd_inv E.
  inv_bind E. apply read_dag_sound in Hm as (Hb & Hne & img & post' & -> & ->).
  do 10 rd_inv E. inv_bind E. apply read_versions_sound in Hm as (V1 & V2 & V3 & post'' & -> & ->).
  inv_bind E. injection E as <- <-.
  match goal with |- stored_fields ?p /\ _ => set (q := p) in * end.
  assert (reload q = q) as Hre.
  { unfold q, reload. cbn [p_identity p_ipk p_sid p_policy p_seed0 p_dag p_guilty p_prekeys
      p_peer_prekeys p_send p_recv p_nodekeys p_absorbed p_missing p_pending p_open_accusations
      p_seen_versions p_last_version].
    destruct Hb as (_ & Hep & Hc & _). unfold reload_dag. rewrite <- Hep, <- Hc. by destruct a4. }
  split_and!; [|exact Hb|exact Hre|exact V3|exact Hv|].
  - split; unfold q; cbn [p_identity p_ipk p_sid p_policy p_seed0 p_dag p_guilty p_prekeys
      p_peer_prekeys p_send p_recv p_nodekeys p_absorbed p_missing p_pending p_open_accusations
      p_seen_versions p_last_version]; try assumption; try (by apply array_len32).
    intros o op Ho. destruct Hb as (_ & _ & _ & Hall). by destruct (Hall o op Ho) as (? & ? & _).
  - intros who Hw. by apply validated_guilt.
Qed.
(** C25. Import never admits an inconsistent state: whatever bytes it is given,
    a participant it returns has matching identity halves, every field within
    its stored limits, a well-formed graph of genuine operations rebuilt from
    them, no cached values, a retained last version, and evidence in the graph
    for every conviction. *)
Theorem import_validates buf q :
  import_persistence_state buf = Ok q ->
  stored_fields q /\ rebuilt (p_sid q) (p_dag q) /\ reload q = q /\
  is_Some (p_seen_versions q !! p_last_version q) /\ validate_participant q = Ok tt /\
  (forall who, who ∈ p_guilty q -> proven_guilty q who).
Proof. intros Hi. by apply (import_sound buf). Qed.

(** ** A version history that cannot be read back *)

Lemma evict_least v vs x :
  size vs = N.to_nat OVERLAP -> vs !! v = None -> (forall k, k ∈ dom vs -> bytes_lt v k) ->
  evict_versions (bt_keys (<[v := x]> vs)) (<[v := x]> vs) = vs.
Proof.
  intros Hs Hn Hlt. unfold bt_keys. rewrite dom_insert_L.
  assert (bt_elems ({[v]} ∪ dom vs) = v :: bt_elems (dom vs)) as ->.
  { apply sorted_lt_unique; [apply bt_elems_sorted| |].
    - constructor; [apply bt_elems_sorted|]. apply Forall_forall. intros k Hk.
      apply Hlt. by apply elem_of_bt_elems.
    - intros k. rewrite elem_of_cons, !elem_of_bt_elems. set_solver. }
  cbn [evict_versions]. rewrite map_size_insert_None by done.
  destruct (N.ltb_spec OVERLAP (N.of_nat (S (size vs)))); [|lia].
  rewrite delete_insert_id by done. destruct (bt_elems (dom vs)) as [|k l]; [done|].
  cbn [evict_versions]. destruct (N.ltb_spec OVERLAP (N.of_nat (size vs))); [lia|done].
Qed.

(** The newest version label can be dropped at once.  When the history is
    full and the label just computed is smaller than every retained one, noting
    it evicts the new entry itself: the last version is then not retained, and
    import refuses every export of that state. *)
Theorem newest_version_stranded p t :
  part_ok (statics p) p -> size (p_seen_versions p) = N.to_nat OVERLAP ->
  p_seen_versions p !! dv_version (derive p) = None ->
  (forall k, k ∈ dom (p_seen_versions p) -> bytes_lt (dv_version (derive p)) k) ->
  let p' := e_p (note_version (mkEnv p t)).2 in
  p_last_version p' = dv_version (derive p) /\ p_seen_versions p' !! p_last_version p' = None /\
  forall buf, stored_fields p' -> export_persistence_state p' = Ok buf ->
    import_persistence_state buf = Err (Encoding "state last version is not retained").
Proof.
  intros Hp Hs Hn Hlt p'.
  assert (part_ok (statics p) p') as Hp' by (by apply (keeps_note_version (mkEnv p t))).
  assert (p_last_version p' = dv_version (derive p) /\ p_seen_versions p' = p_seen_versions p) as [Hl Hv].
  { unfold p', note_version. destruct (derived_spec (mkEnv p t) Hp) as (e1 & Hd & _ & He & _).
    rewrite (bind_ok _ _ _ _ _ Hd). unfold upd. cbn [snd e_p set_last_version p_last_version
      set_seen_versions p_seen_versions]. split; [done|].
    assert (p_seen_versions (e_p e1) = p_seen_versions p) as -> by (by destruct He as [->| ->]).
    by apply evict_least. }
  split_and!; [done|by rewrite Hl, Hv|]. intros buf Hsf He.
  rewrite (import_of_export_eq p' buf (ok_wf _ Hp') (ok_exact _ Hp') Hsf He).
  rewrite bool_decide_true; [done|]. by rewrite Hl, Hv.
Qed.
End state_laws.

(** ** Witnesses: Bob of the two-party run is stored and restarted *)

#[export] Instance PrekeyPool_eq_dec : EqDecision PrekeyPool.
Proof. solve_decision. Defined.
#[export] Instance Chan_eq_dec : EqDecision Chan.
Proof. solve_decision. Defined.
#[export] Instance RecvChan_eq_dec : EqDecision RecvChan.
Proof. solve_decision. Defined.
#[export] Instance RecvState_eq_dec : EqDecision RecvState.
Proof. solve_decision. Defined.
#[export] Instance NodeKeys_eq_dec : EqDecision NodeKeys.
Proof. solve_decision. Defined.
#[export] Instance Dag_eq_dec : EqDecision Dag.
Proof. solve_decision. Defined.
#[export] Instance Derived_eq_dec : EqDecision Derived.
Proof. solve_decision. Defined.
#[export] Instance Participant_eq_dec : EqDecision Participant.
Proof. solve_decision. Defined.

Definition saved (r : result Error bytes) : bytes := match r with Ok b => b | Err _ => [] end.
Definition ex_saved : bytes := saved (export_persistence_state ex_bob).
Definition loaded (r : result Error Participant) : Participant :=
  match r with Ok p => p | Err _ => nobody end.
Definition ex_restarted : Participant := loaded (import_persistence_state (P := Toy) ex_saved).

Lemma loaded_ok (r : result Error Participant) : is_ok r = true -> r = Ok (loaded r).
Proof. by destruct r. Qed.

Definition exact_check (d : Dag) : bool :=
  forallb (fun e => bool_decide (dag_parents d !! e.1 = Some (op_deps e.2))) (dag_iter d).

Lemma exact_check_ok d : exact_check d = true -> dag_exact d.
Proof.
  unfold exact_check. rewrite forallb_forall. intros H o op Ho.
  assert (In (o, op) (dag_iter d)) as Hi by (by apply list_elem_of_In, elem_of_bt_list).
  specialize (H _ Hi). by apply bool_decide_eq_true in H.
Qed.

Lemma ex_import : import_persistence_state (P := Toy) ex_saved = Ok ex_restarted.
Proof. apply loaded_ok. vm_compute. reflexivity. Qed.

Lemma ex_exact : dag_exact (p_dag ex_restarted).
Proof. apply exact_check_ok. vm_compute. reflexivity. Qed.

Definition ex_saved_again : bytes := saved (export_persistence_state ex_restarted).

Lemma saved_ok (r : result Error bytes) : is_ok r = true -> r = Ok (saved r).
Proof. by destruct r. Qed.

Lemma ex_export_again : export_persistence_state ex_restarted = Ok ex_saved_again.
Proof. apply saved_ok. vm_compute. reflexivity. Qed.
#[local] Opaque ex_saved ex_restarted ex_saved_again.

Lemma import_validates_witness : is_Some (p_seen_versions ex_restarted !! p_last_version ex_restarted).
Proof.
  exact (proj1 (proj2 (proj2 (proj2 (import_validates (P := Toy) ex_saved ex_restarted ex_import))))).
Defined.

Definition reimported (p : Participant) : result Error Participant :=
  if bool_decide (p_seen_versions p !! p_last_version p = None)
  then Err (Encoding "state last version is not retained")
  else match validate_participant (P := Toy) (reload p) with Ok _ => Ok (reload p) | Err e => Err e end.

Lemma import_of_export_witness :
  import_persistence_state (P := Toy) ex_saved_again = reimported ex_restarted.
Proof.
  destruct (import_sound (P := Toy) ex_saved ex_restarted ex_import) as (Hf & (Hwf & _) & _).
  exact (import_of_export (P := Toy) ex_restarted ex_saved_again Hwf ex_exact Hf ex_export_again).
Defined.

Lemma stored_fields_reload p : stored_fields (P := Toy) (reload p) -> stored_fields (P := Toy) p.
Proof. intros [H1 H2 H3 H4 H5 H6 H7 H8 H9 H10 H11 H12 H13 H14 H15 H16 H17 H18 H19 H20]. by split. Qed.

Definition save_check (p : Participant) : bool :=
  bool_decide (import_persistence_state (P := Toy) (saved (export_persistence_state p)) = Ok (reload p)).

Lemma save_check_ok p :
  save_check p = true ->
  stored_fields (P := Toy) p /\ is_Some (p_seen_versions p !! p_last_version p) /\
  validate_participant (P := Toy) p = Ok tt.
Proof.
  intros Hc%bool_decide_eq_true. destruct (import_sound (P := Toy) _ _ Hc) as (Hf & _ & _ & Hl & Hv & _).
  split; [by apply stored_fields_reload|]. split; [exact Hl|]. by rewrite <- validate_reload.
Qed.

Lemma ex_bob_saves : save_check ex_bob = true.
Proof. vm_compute. reflexivity. Qed.

Lemma ex_bob_export : export_persistence_state ex_bob = Ok (saved (export_persistence_state ex_bob)).
Proof. apply saved_ok. vm_compute. reflexivity. Qed.

Lemma restart_transparent_witness :
  exists q, import_persistence_state (P := Toy) (saved (export_persistence_state ex_bob)) = Ok q /\
    persisted q = persisted ex_bob.
Proof.
  destruct (save_check_ok ex_bob ex_bob_saves) as (Hf & Hl & Hv).
  destruct (restart_transparent (P := Toy) ex_bob (saved (export_persistence_state ex_bob)) []
    (reachable_ok (P := Toy) ex_bob ex_bob_reachable) Hf Hl Hv ex_bob_export) as (q & H1 & _ & H2 & _).
  exists q. split; [exact H1|exact H2].
Defined.

(** Bob with a full history of 64 labels above his current one. *)
Definition ex_roots : list bytes :=
  (fun n => u64_to_be_bytes (N.of_nat n) ++ array_of (byte_of 0) 24) <$> seq 0 600.
Definition ex_history : list (bytes * (gset Oid * bytes)) :=
  let v := dv_version (derive (P := Toy) ex_bob) in
  take (N.to_nat OVERLAP)
    (filter (fun e => bytes_lt v e.1)
       ((fun r => (version_of (P := Toy) ∅ r, (∅, r))) <$> ex_roots)).
Definition ex_full : Participant := set_seen_versions (list_to_map ex_history) ex_bob.

Definition full_check (p : Participant) : bool :=
  let v := dv_version (derive (P := Toy) p) in
  bool_decide (size (p_seen_versions p) = N.to_nat OVERLAP)
  && bool_decide (p_seen_versions p !! v = None)
  && forallb (fun k => bool_decide (bytes_lt v k)) (bt_keys (p_seen_versions p)).

Lemma full_check_ok p :
  full_check p = true ->
  size (p_seen_versions p) = N.to_nat OVERLAP /\
  p_seen_versions p !! dv_version (derive (P := Toy) p) = None /\
  (forall k, k ∈ dom (p_seen_versions p) -> bytes_lt (dv_version (derive (P := Toy) p)) k).
Proof.
  unfold full_check. cbn zeta. rewrite !andb_true_iff, !bool_decide_eq_true, forallb_forall.
  intros [[H1 H2] H3]. split_and!; [done|done|]. intros k Hk.
  apply (bool_decide_eq_true_1 (bytes_lt _ k)), H3, list_elem_of_In. unfold bt_keys.
  by apply elem_of_bt_elems.
Qed.

Lemma ex_full_ok : full_check ex_full = true.
Proof. vm_compute. reflexivity. Qed.

(** The refusal, computed. *)
Definition refusal (p : Participant) : option Error :=
  match export_persistence_state p with
  | Ok b => match import_persistence_state (P := Toy) b with Err e => Some e | Ok _ => None end
  | Err _ => None
  end.
Lemma stranded_state_refused :
  bool_decide (refusal (e_p (note_version (P := Toy) (mkEnv ex_full [])).2)
               = Some (Encoding "state last version is not retained")) = true.
Proof. vm_compute. reflexivity. Qed.

Lemma full_history_ok l p :
  part_ok (P := Toy) (statics p) p ->
  size (p_seen_versions (set_seen_versions (list_to_map l) p)) = N.to_nat OVERLAP ->
  part_ok (P := Toy) (statics (set_seen_versions (list_to_map l) p))
    (set_seen_versions (list_to_map l) p).
Proof.
  cbn [set_seen_versions p_seen_versions]. intros Hp Hs.
  apply (ok_set_seen (fx := statics p)); [|exact Hp]. rewrite Hs. unfold OVERLAP. lia.
Qed.
#[local] Opaque ex_history.

Lemma newest_version_stranded_witness :
  p_last_version (e_p (note_version (P := Toy) (mkEnv ex_full [])).2)
  = dv_version (derive (P := Toy) ex_full).
Proof.
  destruct (full_check_ok ex_full ex_full_ok) as (H1 & H2 & H3).
  pose proof (full_history_ok ex_history ex_bob (reachable_ok (P := Toy) ex_bob ex_bob_reachable) H1) as Hp.
  exact (proj1 (newest_version_stranded (P := Toy) ex_full [] Hp H1 H2 H3)).
Defined.
