(* ===== verification/Conference.v ===== *)
(** * The conference facade ([crates/cfr/src/conference.rs])

    A conference is a participant and a protector.  Every operation runs the
    participant's method and then installs the current group key in the
    protector.  Calls take the entropy tape along with the conference; a failed
    call leaves the state it had reached.

    [conf_inv] is the invariant of the pair.  The theorems say that the
    protector follows the participant, that two conferences which agree on a
    version exchange frames, and what becomes of an exported conference. *)

From Stdlib Require Import NArith Lia.
From S2P Require Import Prelude Crypto Toy Codec Ops Dag Membership Keys Channel Prekey Replay Ratchet Layout Frame MediaState Checkpoint Wire Member MemberInv MemberProps State.

Definition MEDIA_OVERLAP : N := 4.

Inductive Recipient := REveryone | RPeer (who : SigPublic).

Definition recipient_of (d : Destination) : Recipient :=
  match d with Everyone => REveryone | Peer p => RPeer p end.

Record CMessage := mkCMessage { cm_to : Recipient; cm_payload : bytes }.

Definition message_of (o : Outbound) : CMessage := mkCMessage (recipient_of (ob_to o)) (ob_payload o).

Inductive ConfError := KeyE (e : Error) | MediaE (e : MediaError).

#[export] Instance ConfError_eq_dec : EqDecision ConfError.
Proof. solve_decision. Defined.
#[export] Instance Recipient_eq_dec : EqDecision Recipient.
Proof. solve_decision. Defined.

Record Conference := mkConference { c_core : Participant; c_media : Protector }.

(** A conference and the entropy left to it. *)
Record CEnv := mkCEnv { ce_c : Conference; ce_tape : Tape }.

Abbreviation Mc := (M CEnv ConfError).

(** [self.core.m(..)?] and [self.media.m(..)?]. *)
Definition on_core {A} (m : Mp A) : Mc A := fun e =>
  let '(r, e') := m (mkEnv (c_core (ce_c e)) (ce_tape e)) in
  (map_err KeyE r, mkCEnv (mkConference (e_p e') (c_media (ce_c e))) (e_tape e')).

Definition on_media {A} (m : M Protector MediaError A) : Mc A := fun e =>
  let '(r, media) := m (c_media (ce_c e)) in
  (map_err MediaE r, mkCEnv (mkConference (c_core (ce_c e)) media) (ce_tape e)).

Section conference.
Context {P : Primitives}.

Definition refresh_media : Mc unit :=
  key ← on_core p_group_key;
  match key with
  | None => mret tt
  | Some k =>
      v ← on_core p_version;
      cur ← gets (fun e => current_version (c_media (ce_c e)));
      if decide (cur <> Some v) then
        ms ← on_core p_members;
        on_media (modify (install v k (bt_elems ms)))
      else mret tt
  end.

Definition wrap (core : Participant) (out : list Outbound) : Conference * list CMessage :=
  let media := protector_new (p_sid core) (p_ipk core) MEDIA_OVERLAP in
  let e := mkCEnv (mkConference core media) [] in
  (ce_c (refresh_media e).2, message_of <$> out).

Definition conf_create (policy : Policy) : M Tape ConfError (Conference * list CMessage) := fun t =>
  let '(r, t) := create policy t in
  (match r with Ok (p, out) => Ok (wrap p out) | Err e => Err (KeyE e) end, t).

(** [Joining] *)
Definition joining_new (policy : Policy) : M Tape ConfError PendingJoin := fun t =>
  let '(r, t) := pending_new policy t in (map_err KeyE r, t).

Definition joining_key_package (j : PendingJoin) : KeyPackage := key_package j.
Definition joining_identity (j : PendingJoin) : SigPublic := sig_public (pj_identity j).

Definition joining_accept (j : PendingJoin) (welcome : bytes)
    : M Tape ConfError (Conference * list CMessage) := fun t =>
  let '(r, t) := accept_welcome j welcome t in
  (match r with Ok (p, out) => Ok (wrap p out) | Err e => Err (KeyE e) end, t).

(** ** State *)

Definition conf_identity (c : Conference) : SigPublic := p_ipk (c_core c).
Definition conf_session_id (c : Conference) : SessionId := p_sid (c_core c).
Definition conf_members : Mc (gset SigPublic) := on_core p_members.
Definition conf_version : Mc bytes := on_core p_version.
Definition conf_ready : Mc bool := on_core can_derive.
Definition conf_needs_repair : Mc bool := on_core needs_repair.
Definition conf_history_len (c : Conference) : N := history_len (c_core c).
Definition conf_state_bytes (c : Conference) : N := state_bytes (c_core c).
Definition conf_reinitialization_recommended (c : Conference) : bool :=
  reinitialization_recommended (c_core c).
Definition conf_prepare_checkpoint (next : SessionId) (epoch : N) (profile : ProtocolProfile)
    : Mc ResumptionRecord := on_core (prepare_checkpoint next epoch profile).
Definition conf_approve_checkpoint (record : ResumptionRecord) : Mc CheckpointSignature :=
  on_core (approve_checkpoint record).
Definition conf_offer_checkpoint (certificate : CheckpointCertificate) : Mc CMessage :=
  o ← on_core (offer_checkpoint certificate); mret (message_of o).
Definition conf_beacon : Mc bytes := on_core beacon.
Definition conf_check_beacon (peer : SigPublic) (b : bytes) (c : Conference) : Beacon :=
  check_beacon (c_core c) peer b.

(** ** Lifecycle *)

Definition conf_invite (kp : KeyPackage) : Mc (list CMessage) :=
  out ← on_core (invite kp);
  _ ← refresh_media;
  mret (message_of <$> out).

Definition conf_evict (who : SigPublic) : Mc (list CMessage) :=
  out ← on_core (remove who);
  _ ← refresh_media;
  mret (message_of <$> out).

Definition conf_leave : Mc CMessage :=
  message ← on_core leave;
  _ ← refresh_media;
  mret (message_of message).

Definition conf_rekey : Mc (list CMessage) :=
  out ← on_core contribute;
  _ ← refresh_media;
  mret (message_of <$> out).

Definition conf_heal : Mc (list CMessage) :=
  rotate ← on_core rotate_prekeys;
  more ← conf_rekey;
  mret (message_of rotate :: more).

Definition conf_tick : Mc unit := on_core (upd p_tick).

(** ** Traffic *)

Definition conf_handle (wire : bytes) : Mc (list Event * list CMessage) :=
  r ← on_core (handle wire);
  let '(events, out) := r in
  _ ← refresh_media;
  mret (events, message_of <$> out).

Definition conf_resync : Mc (list CMessage) :=
  sync ← on_core (ask sync_request);
  more ← on_core repair_request;
  mret (message_of sync :: match more with Some l => message_of <$> l | None => [] end).

Definition conf_protect (codec : Codec) (frame : bytes) (keyframe : bool) : Mc bytes :=
  _ ← refresh_media;
  on_media (protect codec frame keyframe).

Definition conf_open (packet : bytes) : Mc (SigPublic * bytes) :=
  _ ← refresh_media;
  on_media (unprotect packet).

Definition conf_inspect (packet : bytes) : result ConfError Trailer :=
  map_err MediaE (inspect packet).

(** ** Persisted image *)

Definition conf_export (c : Conference) : result ConfError bytes :=
  core ← map_err KeyE (export_persistence_state (c_core c));
  media ← map_err MediaE (media_export (c_media c));
  Ok (writer_finish (writer_new |> writer_bytes core |> writer_bytes media)).

Definition read_parts : Rd (bytes * bytes) :=
  core_bytes ← reader_bytes;
  media_bytes ← reader_bytes;
  _ ← reader_finish;
  mret (core_bytes, media_bytes).

(** The arguments of [validate_persistence_binding], read off the core. *)
Definition check_binding : Mc unit :=
  group_key ← on_core p_group_key;
  members ← on_core p_members;
  current ← (match group_key with
             | None => mret None
             | Some key => v ← on_core p_version; mret (Some (v, key, members))
             end);
  c ← gets ce_c;
  lift (map_err MediaE
    (validate_persistence_binding (p_sid (c_core c)) (p_ipk (c_core c)) current (c_media c))).

Definition conf_import (bytes : bytes) : result ConfError Conference :=
  parts ← map_err KeyE (read_parts (reader_new bytes)).1;
  let '(core_bytes, media_bytes) := parts in
  core ← map_err KeyE (import_persistence_state core_bytes);
  media ← map_err MediaE (media_import media_bytes);
  match check_binding (mkCEnv (mkConference core media) []) with
  | (Ok _, e) => Ok (ce_c e)
  | (Err x, _) => Err x
  end.
End conference.

(** ** What the memo hides *)

Section warm.
Context {P : Primitives}.

(** The participant after its memo was consulted. *)
Definition warm (p : Participant) : Participant :=
  if stale p then set_derived (Some (derive p)) p else p.

Definition current_key (p : Participant) : option bytes :=
  group_key (p_seed0 p) (frontier (p_dag p)) (root_for_members (members (membership p)))
    (p_nodekeys p).
Definition current_label (p : Participant) : bytes :=
  version_of (frontier (p_dag p)) (root_for_members (members (membership p))).
Definition current_members (p : Participant) : gset SigPublic := members (membership p).

Lemma warm_cases p : warm p = p \/ warm p = set_derived (Some (derive p)) p.
Proof. unfold warm. destruct (stale p); auto. Qed.

Lemma warm_key p : current_key (warm p) = current_key p.
Proof. by destruct (warm_cases p) as [->| ->]. Qed.
Lemma warm_label p : current_label (warm p) = current_label p.
Proof. by destruct (warm_cases p) as [->| ->]. Qed.
Lemma warm_members p : current_members (warm p) = current_members p.
Proof. by destruct (warm_cases p) as [->| ->]. Qed.
Lemma warm_sid p : p_sid (warm p) = p_sid p.
Proof. by destruct (warm_cases p) as [->| ->]. Qed.
Lemma warm_ipk p : p_ipk (warm p) = p_ipk p.
Proof. by destruct (warm_cases p) as [->| ->]. Qed.
Lemma warm_statics p : statics (warm p) = statics p.
Proof. by destruct (warm_cases p) as [->| ->]. Qed.
Lemma warm_reload p : reload (warm p) = reload p.
Proof. by destruct (warm_cases p) as [->| ->]. Qed.

Lemma warm_ok fx p : part_ok fx p -> part_ok fx (warm p).
Proof.
  intros Hp. destruct (warm_cases p) as [->| ->]; [done|]. by apply ok_set_derived.
Qed.

Lemma stale_warm p : stale (warm p) = false.
Proof.
  unfold warm. destruct (stale p) eqn:E; [|done].
  unfold stale, derive. cbn [set_derived p_derived dv_epoch dv_guilty p_dag p_guilty].
  by rewrite N.eqb_refl, bool_decide_true.
Qed.
Lemma warm_warm p : warm (warm p) = warm p.
Proof. unfold warm at 1. by rewrite stale_warm. Qed.

Lemma derived_warm fx p t :
  part_ok fx p -> derived (mkEnv p t) = (Ok (derive p), mkEnv (warm p) t).
Proof.
  intros Hp. destruct (derived_spec (mkEnv p t) Hp) as (e' & Hd & _ & _ & _).
  rewrite Hd. f_equal. unfold derived in Hd. cbn [e_p e_tape] in Hd. fold (warm p) in Hd.
  by destruct (p_derived (warm p)); injection Hd as _ <-.
Qed.

Section reads.
Context {fx : Statics} (c : Conference) (t : Tape) (Hc : part_ok fx (c_core c)).

Definition warmed : Conference := mkConference (warm (c_core c)) (c_media c).

Lemma read_group_key :
  on_core p_group_key (mkCEnv c t) = (Ok (current_key (c_core c)), mkCEnv warmed t).
Proof using Hc.
  unfold on_core, p_group_key. cbn [ce_c ce_tape].
  rewrite (bind_ok _ _ _ _ _ (derived_warm fx (c_core c) t Hc)). unfold ask. cbn [e_p e_tape map_err].
  unfold warmed, derive. cbn [dv_frontier dv_root]. do 2 f_equal.
  by destruct (warm_cases (c_core c)) as [->| ->].
Qed.

Lemma read_version_label :
  on_core p_version (mkCEnv c t) = (Ok (current_label (c_core c)), mkCEnv warmed t).
Proof using Hc.
  unfold on_core, p_version. cbn [ce_c ce_tape].
  by rewrite (bind_ok _ _ _ _ _ (derived_warm fx (c_core c) t Hc)).
Qed.

Lemma read_members :
  on_core p_members (mkCEnv c t) = (Ok (current_members (c_core c)), mkCEnv warmed t).
Proof using Hc.
  unfold on_core, p_members. cbn [ce_c ce_tape].
  by rewrite (bind_ok _ _ _ _ _ (derived_warm fx (c_core c) t Hc)).
Qed.
End reads.

Lemma warmed_warmed c : warmed (warmed c) = warmed c.
Proof. unfold warmed. cbn [c_core c_media]. by rewrite warm_warm. Qed.

(** The protector after [refresh_media]. *)
Definition installed (p : Participant) (m : Protector) : Protector :=
  match current_key p with
  | None => m
  | Some k =>
      if decide (current_version m <> Some (current_label p))
      then install (current_label p) k (bt_elems (current_members p)) m else m
  end.

Lemma refresh_media_spec fx c t :
  part_ok fx (c_core c) ->
  refresh_media (mkCEnv c t)
  = (Ok tt, mkCEnv (mkConference (warm (c_core c)) (installed (c_core c) (c_media c))) t).
Proof.
  intros Hc. unfold refresh_media, installed.
  rewrite (bind_ok _ _ _ _ _ (read_group_key (fx := fx) c t Hc)).
  destruct (current_key (c_core c)) as [k|] eqn:Ek; [|done].
  assert (part_ok fx (c_core (warmed c))) as Hw by (by apply warm_ok).
  rewrite (bind_ok _ _ _ _ _ (read_version_label (fx := fx) (warmed c) t Hw)).
  unfold gets at 1. unfold mbind at 1, M_bind at 1. cbn [ce_c c_media c_core warmed].
  rewrite warm_label. destruct (decide _); [|by unfold warmed; cbn [c_core]; rewrite warm_warm].
  assert (part_ok fx (c_core (warmed (warmed c)))) as Hww by (by apply warm_ok).
  rewrite (bind_ok _ _ _ _ _ (read_members (fx := fx) (warmed (warmed c)) t Hww)).
  unfold on_media, modify, warmed. cbn [c_core c_media ce_c ce_tape map_err].
  by rewrite !warm_warm, warm_members.
Qed.
End warm.

(** ** Calls and the invariant *)

Inductive ConfCall :=
| CfInvite (kp : KeyPackage)
| CfEvict (who : SigPublic)
| CfLeave
| CfRekey
| CfHeal
| CfTick
| CfHandle (wire : bytes)
| CfResync
| CfProtect (codec : Codec) (frame : bytes) (keyframe : bool)
| CfOpen (packet : bytes)
| CfMembers
| CfVersion
| CfReady
| CfNeedsRepair
| CfPrepare (next : SessionId) (epoch : N) (profile : ProtocolProfile)
| CfApprove (record : ResumptionRecord)
| CfOffer (certificate : CheckpointCertificate)
| CfBeacon.

Definition cignore {A} (m : Mc A) : Mc unit := _ ← m; mret tt.

(** The calls that end, or begin, by refreshing the media layer. *)
Definition refreshes (call : ConfCall) : bool :=
  match call with
  | CfInvite _ | CfEvict _ | CfLeave | CfRekey | CfHeal | CfHandle _ | CfProtect _ _ _ | CfOpen _ => true
  | _ => false
  end.

Section conf_invariant.
Context {P : Primitives}.

Definition run_conf (call : ConfCall) : Mc unit :=
  match call with
  | CfInvite kp => cignore (conf_invite kp)
  | CfEvict who => cignore (conf_evict who)
  | CfLeave => cignore conf_leave
  | CfRekey => cignore conf_rekey
  | CfHeal => cignore conf_heal
  | CfTick => conf_tick
  | CfHandle wire => cignore (conf_handle wire)
  | CfResync => cignore conf_resync
  | CfProtect codec frame keyframe => cignore (conf_protect codec frame keyframe)
  | CfOpen packet => cignore (conf_open packet)
  | CfMembers => cignore conf_members
  | CfVersion => cignore conf_version
  | CfReady => cignore conf_ready
  | CfNeedsRepair => cignore conf_needs_repair
  | CfPrepare next epoch profile => cignore (conf_prepare_checkpoint next epoch profile)
  | CfApprove record => cignore (conf_approve_checkpoint record)
  | CfOffer certificate => cignore (conf_offer_checkpoint certificate)
  | CfBeacon => cignore conf_beacon
  end.

Inductive conf_reachable : Conference -> Prop :=
| cre_create policy t c out t' : conf_create policy t = (Ok (c, out), t') -> conf_reachable c
| cre_accept j welcome t c out t' :
    joining_accept j welcome t = (Ok (c, out), t') -> conf_reachable c
| cre_call c call t r e :
    conf_reachable c -> run_conf call (mkCEnv c t) = (r, e) -> conf_reachable (ce_c e).

Record conf_inv (c : Conference) : Prop := {
  ci_core : part_ok (statics (c_core c)) (c_core c);
  ci_media : prot_inv (c_media c);
  ci_sid : Frame.p_sid (c_media c) = p_sid (c_core c);
  ci_me : p_me (c_media c) = p_ipk (c_core c);
  ci_retain : p_retain (c_media c) = MEDIA_OVERLAP;
}.

(** What a conference may become: the identity, the session and the policy are
    the same, and the history and the convictions have only grown. *)
Definition evolved (c c' : Conference) : Prop := part_ok (statics (c_core c)) (c_core c').

Lemma evolved_refl c : conf_inv c -> evolved c c.
Proof. intros []. done. Qed.

Lemma evolved_trans c1 c2 c3 : evolved c1 c2 -> evolved c2 c3 -> evolved c1 c3.
Proof.
  intros H1 H2. pose proof (ok_statics _ H1) as S1. pose proof (ok_statics _ H2) as S2.
  pose proof (extends_trans _ _ _ (ok_base _ H1) (ok_base _ H2)) as Hb.
  pose proof (transitivity (ok_convicted _ H1) (ok_convicted _ H2)) as Hg.
  destruct H2. split; try done. unfold statics, statics_at, statics_for in *. cbn [st_base st_convicted st_asked] in *. congruence.
Qed.

Lemma evolved_identity c c' : conf_inv c -> evolved c c' -> conf_identity c' = conf_identity c.
Proof.
  intros [Hc _ _ _ _] He. unfold conf_identity. rewrite (ok_key _ He), (ok_key _ Hc).
  pose proof (ok_statics _ He) as S. unfold statics, statics_at, statics_for in S. cbn [st_base st_convicted st_asked] in S. congruence.
Qed.

Definition csafe {A} (m : Mc A) : Prop := forall e,
  conf_inv (ce_c e) -> conf_inv (ce_c (m e).2) /\ evolved (ce_c e) (ce_c (m e).2).

Lemma csafe_ret {A} (a : A) : csafe (mret a).
Proof. intros e He. split; [done|by apply evolved_refl]. Qed.
Lemma csafe_bind {A B} (m : Mc A) (f : A -> Mc B) :
  csafe m -> (forall a, csafe (f a)) -> csafe (m ≫= f).
Proof.
  intros Hm Hf e He. unfold mbind, M_bind. specialize (Hm e He).
  destruct (m e) as [[a|x] e']; [|done]. destruct Hm as [H1 H2]. destruct (Hf a e' H1) as [H3 H4].
  split; [done|by eapply evolved_trans].
Qed.

Lemma rebased fx q : part_ok fx q -> part_ok (statics q) q.
Proof. apply (part_ok_rebase anything). done. Qed.

Lemma csafe_core {A} (m : Mp A) : (forall fx, (forall deps, st_asked fx deps) -> keeps (part_ok fx) m) -> csafe (on_core m).
Proof.
  intros Hm e [Hc Hp Hs Hi Hr]. unfold on_core.
  specialize (Hm (statics (c_core (ce_c e))) (fun _ => I) (mkEnv (c_core (ce_c e)) (ce_tape e)) Hc).
  destruct (m (mkEnv _ _)) as [r e'] eqn:E. cbn [fst snd] in Hm |- *.
  pose proof (ok_statics _ Hm) as Hst. unfold statics, statics_at, statics_for in Hst.
  cbn [st_base st_convicted st_asked] in Hst. injection Hst as Hid Hsid _ _.
  split; [|exact Hm]. split; cbn [ce_c c_core c_media]; [by eapply rebased|done| | |done].
  - by rewrite Hsid.
  - by rewrite Hi, (ok_key _ Hm), Hid, (ok_key _ Hc).
Qed.

Lemma prot_step_retain p p' : prot_step p p' -> p_retain p' = p_retain p.
Proof.
  intros [v k roster q|codec frame kf q|packet q].
  - unfold install. cbn zeta. destruct (p_versions q !! _); [done|]. by destruct (drop_old _ _ _).
  - unfold protect. destruct (p_current q); [|done]. destruct (p_versions q !! _); [|done].
    destruct (checked_add64 _ _); [|done]. destruct (send_key _ _) as [[fk|] s]; [|done].
    by destruct (seal_frame _ _ _ _ _).
  - destruct (unprotect_cases packet q)
      as [[e ->]|(t & vk & s & raw & body & tag & _ & _ & _ & _ & _ & _ & ->)]; [done|].
    by destruct (open_with _ _ _ _ _ _ _).
Qed.

Lemma conf_inv_media c m : conf_inv c -> prot_step (c_media c) m -> conf_inv (mkConference (c_core c) m).
Proof.
  intros [Hc Hp Hs Hi Hr] Hst. destruct (prot_step_fixed _ _ Hst) as [H1 H2].
  split; cbn [c_core c_media]; [done|by eapply prot_step_inv|congruence|congruence|].
  by rewrite (prot_step_retain _ _ Hst).
Qed.

Lemma csafe_media {A} (m : M Protector MediaError A) :
  (forall p, prot_step p (m p).2) -> csafe (on_media m).
Proof.
  intros Hm e He. unfold on_media. specialize (Hm (c_media (ce_c e))).
  destruct (m (c_media (ce_c e))) as [r p'].
  split; [by apply conf_inv_media|apply He].
Qed.

Lemma installed_cases p m :
  installed p m = m \/
  exists k, current_key p = Some k /\
    installed p m = install (current_label p) k (bt_elems (current_members p)) m.
Proof.
  unfold installed. destruct (current_key p) as [k|]; [|by left].
  destruct (decide _); [right; by exists k|by left].
Qed.

Lemma conf_inv_warm c : conf_inv c -> conf_inv (mkConference (warm (c_core c)) (c_media c)).
Proof.
  intros [Hc Hp Hs Hi Hr]. split; cbn [c_core c_media].
  - rewrite warm_statics. by apply warm_ok.
  - exact Hp.
  - by rewrite warm_sid.
  - by rewrite warm_ipk.
  - exact Hr.
Qed.

Lemma conf_inv_refreshed c :
  conf_inv c -> conf_inv (mkConference (warm (c_core c)) (installed (c_core c) (c_media c))).
Proof.
  intros Hc%conf_inv_warm. destruct (installed_cases (c_core c) (c_media c)) as [->|(k & _ & ->)]; [exact Hc|].
  eapply (conf_inv_media _ _ Hc). constructor.
Qed.

Lemma csafe_refresh : csafe refresh_media.
Proof.
  intros [c t] He. rewrite (refresh_media_spec _ c t (ci_core c He)). split; [by apply conf_inv_refreshed|].
  apply warm_ok, He.
Qed.

Lemma conf_inv_wrap core out : part_ok (statics core) core -> conf_inv (wrap core out).1.
Proof.
  intros Hc. unfold wrap. cbn [fst].
  apply (csafe_refresh (mkCEnv (mkConference core (protector_new (p_sid core) (p_ipk core) MEDIA_OVERLAP)) [])). cbn [ce_c].
  split; cbn [c_core c_media]; [done|apply protector_new_inv|reflexivity..].
Qed.

Context {PO : PrimitivesOk P}.

Lemma keeps_of_call {A} fx (m : Mp A) c :
  run_call c = ignore m -> (forall deps, st_asked fx deps) -> keeps (part_ok fx) m.
Proof.
  intros Hc Hall e He. pose proof (keeps_call c (fx := fx) (asked_all _ Hall) e He) as H. rewrite Hc in H.
  destruct (ignore_env m e) as [r Hr]. by rewrite Hr in H.
Qed.

Ltac core_call call := apply csafe_core; intros fx Hall; exact (keeps_of_call fx _ call eq_refl Hall).

Lemma csafe_rekey : csafe conf_rekey.
Proof.
  unfold conf_rekey. apply csafe_bind; [core_call CContribute|intros out].
  apply csafe_bind; [apply csafe_refresh|intros []; apply csafe_ret].
Qed.

Lemma csafe_then_refresh {A B} (m : Mp A) (f : A -> B) :
  csafe (on_core m) -> csafe (out ← on_core m; _ ← refresh_media; mret (f out)).
Proof using Type.
  intros Hm. apply csafe_bind; [exact Hm|intros out].
  apply csafe_bind; [apply csafe_refresh|intros []; apply csafe_ret].
Qed.

Lemma csafe_cignore {A} (m : Mc A) : csafe m -> csafe (cignore m).
Proof using Type. intros Hm. apply csafe_bind; [exact Hm|intros a; apply csafe_ret]. Qed.

Lemma csafe_run call : csafe (run_conf call).
Proof.
  destruct call; cbn [run_conf]; try apply csafe_cignore.
  - apply csafe_then_refresh. core_call (CInvite kp).
  - apply csafe_then_refresh. core_call (CRemove who).
  - apply csafe_then_refresh. core_call CLeave.
  - apply csafe_rekey.
  - apply csafe_bind; [core_call CRotatePrekeys|intros o].
    apply csafe_bind; [apply csafe_rekey|intros l; apply csafe_ret].
  - apply csafe_core. intros fx _. apply keeps_upd. intros p Hp. by apply ok_set_prekeys.
  - apply csafe_bind; [core_call (CHandle wire)|intros [events out]].
    apply csafe_bind; [apply csafe_refresh|intros []; apply csafe_ret].
  - apply csafe_bind; [apply csafe_core; intros fx _; apply keeps_ask|intros o].
    apply csafe_bind; [core_call CRepairRequest|intros l; apply csafe_ret].
  - apply csafe_bind; [apply csafe_refresh|intros []]. apply csafe_media. intros p. constructor.
  - apply csafe_bind; [apply csafe_refresh|intros []]. apply csafe_media. intros p. constructor.
  - core_call CMembers.
  - core_call CVersion.
  - core_call CCanDerive.
  - core_call CNeedsRepair.
  - core_call (CPrepare next epoch profile).
  - core_call (CApprove record).
  - apply csafe_bind; [core_call (COffer certificate)|intros o; apply csafe_ret].
  - core_call CBeacon.
Qed.

Lemma conf_reachable_inv c : conf_reachable c -> conf_inv c.
Proof.
  induction 1 as [policy t c out t' H|j welcome t c out t' H|c call t r e _ IH H].
  - unfold conf_create in H. destruct (create policy t) as [[[p o]|x] t1] eqn:E; [|done].
    pose proof (conf_inv_wrap p o) as Hw. destruct (wrap p o) as [c' o']. injection H as <- _ _.
    apply Hw, reachable_ok. exact (reach_create _ _ _ _ _ E).
  - unfold joining_accept in H. destruct (accept_welcome j welcome t) as [[[p o]|x] t1] eqn:E; [|done].
    pose proof (conf_inv_wrap p o) as Hw. destruct (wrap p o) as [c' o']. injection H as <- _ _.
    apply Hw, reachable_ok. exact (reach_accept _ _ _ _ _ _ E).
  - pose proof (csafe_run call (mkCEnv c t) IH) as [Hs _]. by rewrite H in Hs.
Qed.

(** C27. Every conference reached by founding or joining and any sequence of
    calls, failed ones included, is a participant that satisfies its whole
    invariant beside a protector that satisfies its own, bound to the same
    session and identity and retaining at most four key versions. *)
Theorem conference_invariant c :
  conf_reachable c ->
  conf_inv c /\ (retained (c_media c) <= MEDIA_OVERLAP)%N.
Proof.
  intros Hc%conf_reachable_inv. split; [done|]. destruct Hc as [_ Hp _ _ <-].
  by apply retained_bound.
Qed.
End conf_invariant.

(** ** The media layer follows the control plane *)

Section in_step.
Context {P : Primitives}.

(** When the group key can be derived, frames are sent under its version. *)
Definition in_step (c : Conference) : Prop :=
  forall k, current_key (c_core c) = Some k ->
    p_current (c_media c) = Some (context_id (current_label (c_core c))).

Lemma install_current v k roster m : p_current (install v k roster m) = Some (context_id v).
Proof.
  unfold install. cbn zeta. destruct (p_versions m !! context_id v); [done|].
  by destruct (drop_old _ _ _).
Qed.

Lemma installed_current p m k :
  prot_inv m -> current_key p = Some k ->
  p_current (installed p m) = Some (context_id (current_label p)).
Proof.
  intros HI Hk. unfold installed. rewrite Hk. destruct (decide _) as [|Hd]; [apply install_current|].
  apply dec_stable in Hd. unfold current_version in Hd.
  destruct (p_current m) as [c|] eqn:Ec; [|done]. cbn [mbind option_bind] in Hd.
  destruct (p_versions m !! c) as [vk|] eqn:Ev; [|done]. injection Hd as <-.
  by rewrite (vo_context _ _ _ (pi_versions m HI c vk Ev)).
Qed.

Lemma in_step_refreshed c :
  conf_inv c -> in_step (mkConference (warm (c_core c)) (installed (c_core c) (c_media c))).
Proof.
  intros Hc k. cbn [c_core c_media]. rewrite warm_key, warm_label.
  apply installed_current, Hc.
Qed.

Lemma protect_current codec frame kf p : p_current (protect codec frame kf p).2 = p_current p.
Proof.
  unfold protect. destruct (p_current p) eqn:E; [|done]. destruct (p_versions p !! _); [|done].
  destruct (checked_add64 _ _); [|done]. destruct (send_key _ _) as [[fk|] s]; [|done].
  by destruct (seal_frame _ _ _ _ _).
Qed.

Lemma unprotect_current packet p : p_current (unprotect packet p).2 = p_current p.
Proof.
  destruct (unprotect_cases packet p)
    as [[e ->]|(t & vk & s & raw & body & tag & _ & _ & _ & _ & _ & _ & ->)]; [done|].
  by destruct (open_with _ _ _ _ _ _ _).
Qed.

Lemma refresh_in_step e e' : conf_inv (ce_c e) -> refresh_media e = (Ok tt, e') -> in_step (ce_c e').
Proof.
  destruct e as [c t]. intros Hc. rewrite (refresh_media_spec _ c t (ci_core c Hc)).
  intros [= <-]. by apply in_step_refreshed.
Qed.

(** Calls of the form "run the core, then refresh". *)
Lemma then_refresh_in_step {A B} (m : Mp A) (f : A -> B) e b e' :
  csafe (on_core m) -> conf_inv (ce_c e) ->
  (out ← on_core m; _ ← refresh_media; mret (f out)) e = (Ok b, e') -> in_step (ce_c e').
Proof.
  intros Hm He H. inv_bind H. inv_bind H. injection H as _ <-.
  pose proof (Hm e He) as [Hs _]. rewrite Hm0 in Hs. by destruct a0; apply (refresh_in_step s s0).
Qed.

Lemma media_in_step {A} (m : M Protector MediaError A) e a e' :
  (forall p, p_current (m p).2 = p_current p) -> in_step (ce_c e) -> on_media m e = (Ok a, e') ->
  in_step (ce_c e').
Proof.
  intros Hm He. unfold on_media. specialize (Hm (c_media (ce_c e))).
  destruct (m (c_media (ce_c e))) as [r p]. intros [= _ <-] k. cbn [ce_c c_core c_media snd] in *.
  rewrite Hm. apply He.
Qed.

Context {PO : PrimitivesOk P}.

Lemma cignore_ok {A} (m : Mc A) e e' : cignore m e = (Ok tt, e') -> exists a, m e = (Ok a, e').
Proof using Type. unfold cignore. intros H. inv_bind H. injection H as <-. eauto. Qed.

Ltac core_call call := apply csafe_core; intros fx Hall; exact (keeps_of_call fx _ call eq_refl Hall).

Lemma run_in_step call c t e :
  conf_inv c -> refreshes call = true -> run_conf call (mkCEnv c t) = (Ok tt, e) -> in_step (ce_c e).
Proof.
  intros Hc Hr H. destruct call; try discriminate Hr; cbn [run_conf] in H;
    apply cignore_ok in H as [a H].
  - eapply (then_refresh_in_step _ _ (mkCEnv c t)); [|exact Hc|exact H]. core_call (CInvite kp).
  - eapply (then_refresh_in_step _ _ (mkCEnv c t)); [|exact Hc|exact H]. core_call (CRemove who).
  - eapply (then_refresh_in_step _ _ (mkCEnv c t)); [|exact Hc|exact H]. core_call CLeave.
  - eapply (then_refresh_in_step _ _ (mkCEnv c t)); [|exact Hc|exact H]. core_call CContribute.
  - unfold conf_heal in H. inv_bind H. inv_bind H. injection H as _ <-.
    assert (conf_inv (ce_c s)) as Hs.
    { assert (csafe (on_core rotate_prekeys)) as Hsafe by core_call CRotatePrekeys.
      pose proof (Hsafe (mkCEnv c t) Hc) as [Hs _]. by rewrite Hm in Hs. }
    eapply (then_refresh_in_step _ _ s); [|exact Hs|exact Hm0]. core_call CContribute.
  - unfold conf_handle in H. inv_bind H. destruct a0 as [ev out]. inv_bind H. injection H as _ <-.
    assert (csafe (on_core (handle wire))) as Hsafe by core_call (CHandle wire).
    pose proof (Hsafe (mkCEnv c t) Hc) as [Hs _]. rewrite Hm in Hs. destruct a0.
    by apply (refresh_in_step s s0).
  - unfold conf_protect in H. inv_bind H. destruct a0.
    eapply media_in_step; [|by apply (refresh_in_step (mkCEnv c t) s)|exact H]. intros p. apply protect_current.
  - unfold conf_open in H. inv_bind H. destruct a0.
    eapply media_in_step; [|by apply (refresh_in_step (mkCEnv c t) s)|exact H]. intros p. apply unprotect_current.
Qed.
End in_step.

(** ** Frames between conferences *)

Section frames.
Context {P : Primitives}.

Lemma roster_lookup (l : list SigPublic) (acc : gmap SenderTag SigPublic) id :
  (forall x, x ∈ l -> sender_tag x = sender_tag id -> x = id) ->
  id ∈ l \/ acc !! sender_tag id = Some id ->
  foldl (fun m x => <[sender_tag x := x]> m) acc l !! sender_tag id = Some id.
Proof.
  revert acc. induction l as [|x l IH]; intros acc Hinj [Hin|Hacc]; simpl.
  - by apply not_elem_of_nil in Hin.
  - done.
  - apply IH; [intros y Hy; apply Hinj; by apply list_elem_of_further|].
    apply elem_of_cons in Hin as [<-|Hin]; [right; by rewrite lookup_insert_eq|by left].
  - apply IH; [intros y Hy; apply Hinj; by apply list_elem_of_further|].
    right. destruct (decide (sender_tag x = sender_tag id)) as [E|E].
    + rewrite E, lookup_insert_eq. f_equal. apply Hinj; [apply list_elem_of_here|done].
    + by rewrite lookup_insert_ne.
Qed.

(** What a refresh leaves under a version that was not installed before. *)
Lemma installed_fresh p m k :
  prot_inv m -> current_key p = Some k -> p_versions m !! context_id (current_label p) = None ->
  p_versions (installed p m) !! context_id (current_label p)
  = Some (fresh_version (current_label p) k (bt_elems (current_members p)) (p_me m)).
Proof.
  intros HI Hk Hn. unfold installed. rewrite Hk. rewrite decide_True.
  - destruct (install_new (current_label p) k (bt_elems (current_members p)) m HI Hn)
      as (_ & H2 & _ & H4 & _). rewrite H2, decide_True by exact H4. by rewrite lookup_insert_eq.
  - intros Hv. unfold current_version in Hv.
    destruct (p_current m) as [c|] eqn:Ec; [|done]. cbn [mbind option_bind] in Hv.
    destruct (p_versions m !! c) as [vk|] eqn:Ev; [|done]. injection Hv as Hv.
    pose proof (vo_context _ _ _ (pi_versions m HI c vk Ev)) as Hc. rewrite Hv in Hc. congruence.
Qed.

Lemma conf_protect_run c t codec frame kf :
  conf_inv c ->
  conf_protect codec frame kf (mkCEnv c t)
  = on_media (protect codec frame kf)
      (mkCEnv (mkConference (warm (c_core c)) (installed (c_core c) (c_media c))) t).
Proof.
  intros Hc. unfold conf_protect. by rewrite (bind_ok _ _ _ _ _ (refresh_media_spec _ c t (ci_core c Hc))).
Qed.

Lemma conf_open_run c t packet :
  conf_inv c ->
  conf_open packet (mkCEnv c t)
  = on_media (unprotect packet)
      (mkCEnv (mkConference (warm (c_core c)) (installed (c_core c) (c_media c))) t).
Proof.
  intros Hc. unfold conf_open. by rewrite (bind_ok _ _ _ _ _ (refresh_media_spec _ c t (ci_core c Hc))).
Qed.

Context {PO : PrimitivesOk P}.

Lemma conf_protect_trailer c t codec frame kf packet e k :
  conf_inv c -> current_key (c_core c) = Some k ->
  conf_protect codec frame kf (mkCEnv c t) = (Ok packet, e) ->
  exists tr, conf_inspect packet = Ok tr /\ t_version tr = context_id (current_label (c_core c)) /\
    t_sender tr = sender_tag (conf_identity c).
Proof.
  intros Hc Hk. rewrite conf_protect_run by done. unfold on_media. cbn [ce_c c_media].
  pose proof (conf_inv_refreshed c Hc) as Hr. pose proof (ci_media _ Hr) as HI. cbn [c_media] in HI.
  pose proof (installed_current _ _ _ (ci_media _ Hc) Hk) as Hcur.
  pose proof (ci_me _ Hr) as Hme. cbn [c_media c_core] in Hme. rewrite warm_ipk in Hme.
  set (m := installed (c_core c) (c_media c)) in *.
  destruct (pi_current m HI _ Hcur) as [vk Hv].
  pose proof (protect_spec m _ vk codec frame kf HI Hcur Hv) as Hs.
  destruct (vk_counter vk =? u64_max)%N; [rewrite Hs; discriminate|].
  destruct Hs as (vk' & -> & _). cbn [map_err]. intros [= <- _].
  eexists. unfold conf_inspect. rewrite inspect_packet by done. split_and!; [reflexivity|reflexivity|].
  cbn [t_sender sent_trailer]. by rewrite (pi_tag m HI), Hme.
Qed.

(** C28. After every successful call that touches the key, a conference that can
    derive the group key sends under that key's version; and every frame it
    protects carries that version and the sender's own tag in the clear. *)
Theorem media_follows_core c call t e :
  conf_reachable c ->
  (refreshes call = true -> run_conf call (mkCEnv c t) = (Ok tt, e) -> in_step (ce_c e)) /\
  (forall codec frame kf packet k,
     current_key (c_core c) = Some k -> conf_protect codec frame kf (mkCEnv c t) = (Ok packet, e) ->
     exists tr, conf_inspect packet = Ok tr /\ t_version tr = context_id (current_label (c_core c)) /\
       t_sender tr = sender_tag (conf_identity c)).
Proof.
  intros Hc%conf_reachable_inv. split; [by apply run_in_step|].
  intros codec frame kf packet k Hk Hp. by apply (conf_protect_trailer c t codec frame kf packet e k).
Qed.
End frames.

(** ** Restarting a conference *)

Section restart.
Context {P : Primitives}.

(** The answer of [validate_persistence_binding] for a conference. *)
Definition bound (c : Conference) : result MediaError unit :=
  validate_persistence_binding (p_sid (c_core c)) (p_ipk (c_core c))
    ((fun k => (current_label (c_core c), k, current_members (c_core c))) <$> current_key (c_core c))
    (c_media c).

Lemma check_binding_spec fx c t :
  part_ok fx (c_core c) ->
  check_binding (mkCEnv c t)
  = (map_err MediaE (bound c), mkCEnv (mkConference (warm (c_core c)) (c_media c)) t).
Proof.
  intros Hc. unfold check_binding, bound.
  rewrite (bind_ok _ _ _ _ _ (read_group_key (fx := fx) c t Hc)).
  assert (part_ok fx (c_core (warmed c))) as Hw by (by apply warm_ok).
  rewrite (bind_ok _ _ _ _ _ (read_members (fx := fx) (warmed c) t Hw)).
  assert (part_ok fx (c_core (warmed (warmed c)))) as Hww by (by apply warm_ok).
  cbn [warmed c_core]. rewrite warm_members.
  destruct (current_key (c_core c)) as [k|]; cbn [fmap option_fmap option_map].
  - erewrite bind_ok by (erewrite bind_ok by exact (read_version_label (fx := fx) _ t Hww); reflexivity).
    unfold gets at 1. unfold mbind at 1, M_bind at 1. unfold lift. cbn [warmed ce_c c_core c_media].
    by rewrite !warm_warm, warm_label, warm_sid, warm_ipk, !warmed_warmed.
  - erewrite bind_ok by reflexivity.
    unfold gets at 1. unfold mbind at 1, M_bind at 1. unfold lift. cbn [warmed ce_c c_core c_media].
    by rewrite !warm_warm, warm_sid, warm_ipk, !warmed_warmed.
Qed.

Lemma read_parts_image cb mb :
  bytes_valid cb -> bytes_valid mb ->
  exists r, read_parts (reader_new (bytes_image cb ++ bytes_image mb)) = (Ok (cb, mb), r).
Proof.
  intros Hc Hm. change (reader_new (bytes_image cb ++ bytes_image mb))
    with (rd_at [] (bytes_image cb ++ bytes_image mb)).
  rewrite <- (app_nil_r (bytes_image mb)). unfold read_parts. eexists. do 2 rd_step.
  erewrite bind_ok; [reflexivity|]. unfold reader_finish, rd_at. cbn [r_pos r_buf].
  by rewrite app_nil_r, N.eqb_refl.
Qed.

Lemma reload_key fx p : part_ok fx p -> current_key (reload p) = current_key p.
Proof.
  intros Hp. pose proof (ok_wf _ Hp) as Hwf. unfold current_key.
  replace (frontier (p_dag (reload p))) with (frontier (p_dag p)) by (symmetry; by apply reload_frontier).
  replace (members (membership (reload p))) with (members (membership p))
    by (symmetry; by apply (reload_members_in (p_dag p))). reflexivity.
Qed.
Lemma reload_label fx p : part_ok fx p -> current_label (reload p) = current_label p.
Proof.
  intros Hp. pose proof (ok_wf _ Hp) as Hwf. unfold current_label.
  replace (frontier (p_dag (reload p))) with (frontier (p_dag p)) by (symmetry; by apply reload_frontier).
  replace (members (membership (reload p))) with (members (membership p))
    by (symmetry; by apply (reload_members_in (p_dag p))). reflexivity.
Qed.
Lemma reload_current_members fx p : part_ok fx p -> current_members (reload p) = current_members p.
Proof. intros Hp. exact (reload_members_in (p_dag p) _ _ _ (ok_wf _ Hp)). Qed.

(** A conference whose parts can be stored. *)
Record storable (c : Conference) : Prop := {
  st_fields : stored_fields (c_core c);
  st_last : is_Some (p_seen_versions (c_core c) !! p_last_version (c_core c));
  st_core : validate_participant (c_core c) = Ok tt;
  st_media : protector_valid (c_media c);
}.

(** The conference a restart returns. *)
Definition restarted (c : Conference) : Conference :=
  mkConference (warm (reload (c_core c))) (c_media c).

(** What import answers for the export of a conference: the last version must be
    retained, the participant's cross-field validation must pass, and the media
    layer must be bound to the derived key. *)
Definition restart_result (c : Conference) : result ConfError Conference :=
  if bool_decide (p_seen_versions (c_core c) !! p_last_version (c_core c) = None)
  then Err (KeyE (Encoding "state last version is not retained"))
  else match validate_participant (c_core c) with
       | Err e => Err (KeyE e)
       | Ok _ => match bound c with Ok _ => Ok (restarted c) | Err x => Err (MediaE x) end
       end.

Lemma export_parts c buf :
  protector_valid (c_media c) -> conf_export c = Ok buf ->
  exists cb mb, export_persistence_state (c_core c) = Ok cb /\ media_export (c_media c) = Ok mb /\
    bytes_valid cb /\ bytes_valid mb /\ buf = bytes_image cb ++ bytes_image mb /\
    media_import mb = Ok (c_media c).
Proof.
  intros Hv. unfold conf_export.
  destruct (export_persistence_state (c_core c)) as [cb|] eqn:Ec; [|done]. cbn [map_err mbind result_bind].
  destruct (media_export (c_media c)) as [mb|] eqn:Em; [|done]. cbn [map_err mbind result_bind].
  intros [= <-]. exists cb, mb. rewrite media_export_image in Em by done.
  destruct (N.ltb_spec MAX_MEDIA_STATE_BYTES (lenN (protector_image (c_media c)))) as [|Hle]; [done|].
  injection Em as <-. split_and!; try done.
  - unfold export_persistence_state in Ec. destruct (write_participant (c_core c)); [|done].
    cbn [mbind result_bind] in Ec. destruct (N.ltb_spec MAX_FIELD (lenN (writer_finish a))); [done|].
    injection Ec as <-. done.
  - apply media_import_image. by split.
Qed.

Lemma conf_import_of_export c buf :
  conf_inv c -> stored_fields (c_core c) -> protector_valid (c_media c) -> conf_export c = Ok buf ->
  conf_import buf = restart_result c.
Proof.
  intros [Hc _ _ _ _] Hf Hv He.
  destruct (export_parts c buf Hv He) as (cb & mb & Ec & _ & Hcb & Hmb & -> & Em).
  unfold conf_import, restart_result. destruct (read_parts_image cb mb Hcb Hmb) as [r ->].
  cbn [fst map_err mbind result_bind].
  rewrite (import_of_export_eq (c_core c) cb (ok_wf _ Hc) (ok_exact _ Hc) Hf Ec).
  destruct (bool_decide _); [done|]. rewrite validate_reload. destruct (validate_participant (c_core c)); [|done].
  cbn [map_err mbind result_bind]. rewrite Em. cbn [map_err mbind result_bind].
  pose proof (reload_ok _ _ Hc) as Hr.
  rewrite (check_binding_spec _ (mkConference (reload (c_core c)) (c_media c)) [] Hr).
  assert (bound (mkConference (reload (c_core c)) (c_media c)) = bound c) as ->.
  { unfold bound. cbn [c_core c_media].
    rewrite (reload_key _ _ Hc), (reload_label _ _ Hc), (reload_current_members _ _ Hc).
    reflexivity. }
  by destruct (bound c).
Qed.

Lemma storable_result c :
  storable c -> restart_result c = match bound c with Ok _ => Ok (restarted c) | Err x => Err (MediaE x) end.
Proof.
  intros [_ Hl Hv _]. unfold restart_result. rewrite Hv, bool_decide_false; [done|].
  intros Hn. rewrite Hn in Hl. by destruct Hl.
Qed.

Lemma storable_import c buf :
  conf_inv c -> storable c -> conf_export c = Ok buf ->
  conf_import buf = match bound c with Ok _ => Ok (restarted c) | Err x => Err (MediaE x) end.
Proof. intros Hc Hs He. rewrite <- (storable_result c Hs). by apply conf_import_of_export; [|apply Hs..|]. Qed.

Lemma roster_set (l : list SigPublic) :
  (forall x y, x ∈ l -> y ∈ l -> sender_tag x = sender_tag y -> x = y) ->
  (list_to_set (bt_list (foldl (fun m x => <[sender_tag x := x]> m) ∅ l :
     gmap SenderTag SigPublic)).*2 : gset SigPublic) = list_to_set l.
Proof.
  intros Hinj. apply set_eq. intros x. rewrite !elem_of_list_to_set, list_elem_of_fmap. split.
  - intros ([tag y] & -> & Hy%elem_of_bt_list). cbn [snd].
    apply roster_values in Hy as [Hy|Hy]; [by rewrite lookup_empty in Hy|done].
  - intros Hx. exists (sender_tag x, x). split; [done|]. apply elem_of_bt_list. cbn [fst snd].
    apply roster_lookup; [intros y Hy; by apply Hinj|by left].
Qed.

(** The binding that a first installation establishes. *)
Lemma bound_installed c k :
  conf_inv c -> current_key (c_core c) = Some k ->
  p_versions (c_media c) !! context_id (current_label (c_core c)) = None ->
  (forall x y, x ∈ current_members (c_core c) -> y ∈ current_members (c_core c) ->
     sender_tag x = sender_tag y -> x = y) ->
  bound (mkConference (warm (c_core c)) (installed (c_core c) (c_media c))) = Ok tt.
Proof.
  intros Hc Hk Hn Hinj. pose proof (conf_inv_refreshed c Hc) as [_ HI Hs Hm _].
  pose proof (installed_current _ _ _ (ci_media _ Hc) Hk) as Hcur.
  pose proof (installed_fresh _ _ _ (ci_media _ Hc) Hk Hn) as Hv.
  cbn [c_core c_media] in *. unfold bound. cbn [c_core c_media].
  rewrite warm_key, warm_label, warm_members, Hk. cbn [fmap option_fmap option_map].
  unfold validate_persistence_binding. rewrite decide_False.
  - rewrite decide_False by (intros H; by apply H). rewrite Hv. cbn [fresh_version vk_version vk_key vk_roster].
    rewrite bool_decide_false by (intros H; by apply H). rewrite ct_eq_spec, bool_decide_true by done.
    rewrite roster_set by (intros x y Hx%elem_of_bt_elems Hy%elem_of_bt_elems; by apply Hinj).
    rewrite bool_decide_false; [done|]. intros H. apply H. apply set_eq. intros x.
    by rewrite elem_of_list_to_set, elem_of_bt_elems.
  - intros [H|[H|H]]; apply H; [exact Hs|exact Hm|]. by rewrite (pi_tag _ HI), Hm.
Qed.

(** C29. What becomes of a stored conference, exactly.  For a conference whose
    participant and media state are within the stored limits, import of its
    export refuses a version history that does not retain the last version (as
    when the eviction of old versions removed it), then reports what the
    participant's cross-field validation finds, then refuses a media layer that
    is not bound to the derived key, and otherwise returns the reloaded
    participant with the very same media state.  The first frame key installed
    for a version, with no two members sharing a sender tag, establishes that
    binding. *)
Theorem conference_restart c buf :
  conf_inv c -> stored_fields (c_core c) -> protector_valid (c_media c) -> conf_export c = Ok buf ->
  conf_import buf = restart_result c /\
  (forall k, current_key (c_core c) = Some k ->
     p_versions (c_media c) !! context_id (current_label (c_core c)) = None ->
     (forall x y, x ∈ current_members (c_core c) -> y ∈ current_members (c_core c) ->
        sender_tag x = sender_tag y -> x = y) ->
     bound (mkConference (warm (c_core c)) (installed (c_core c) (c_media c))) = Ok tt).
Proof.
  intros Hc Hf Hv He. split; [by apply conf_import_of_export|]. intros k. by apply bound_installed.
Qed.

(** A key that changes under an unchanged version label is never picked
    up: if the version in use is the current one but holds another key, a
    refresh leaves the media layer as it is, and no export of the conference
    can be imported again. *)
Theorem changed_key_strands c k vk buf :
  conf_inv c -> storable c -> current_key (c_core c) = Some k ->
  p_current (c_media c) = Some (context_id (current_label (c_core c))) ->
  p_versions (c_media c) !! context_id (current_label (c_core c)) = Some vk ->
  vk_version vk = current_label (c_core c) -> vk_key vk <> k ->
  conf_export c = Ok buf ->
  installed (c_core c) (c_media c) = c_media c /\ conf_import buf = Err (MediaE MalformedState).
Proof.
  intros Hc Hs Hk Hcur Hv Hl Hne He. split.
  - unfold installed. rewrite Hk. rewrite decide_False; [done|]. intros H. apply H.
    unfold current_version. rewrite Hcur. cbn [mbind option_bind]. by rewrite Hv, <- Hl.
  - rewrite (storable_import c buf Hc Hs He). unfold bound. rewrite Hk.
    cbn [fmap option_fmap option_map]. unfold validate_persistence_binding.
    destruct (decide _); [done|]. rewrite decide_False by (intros H; by apply H). rewrite Hv.
    rewrite Hl, ct_eq_spec, (bool_decide_false (vk_key vk = k)) by done. cbn [negb].
    by rewrite orb_true_r.
Qed.

(** What the binding says of the version in use. *)
Lemma bound_version c k vk :
  bound c = Ok tt -> current_key (c_core c) = Some k ->
  p_versions (c_media c) !! context_id (current_label (c_core c)) = Some vk ->
  p_current (c_media c) = Some (context_id (current_label (c_core c))) /\ vk_key vk = k /\
  (list_to_set (bt_list (vk_roster vk)).*2 : gset SigPublic) = current_members (c_core c).
Proof.
  unfold bound. intros Hb Hk Hv. rewrite Hk in Hb. cbn [fmap option_fmap option_map] in Hb.
  unfold validate_persistence_binding in Hb. destruct (decide _); [done|].
  destruct (decide (p_current (c_media c) <> _)) as [|Hd]; [done|]. apply dec_stable in Hd.
  rewrite Hv, ct_eq_spec in Hb. destruct (_ || _) eqn:E; [done|].
  apply orb_false_iff in E as [E Er]. apply orb_false_iff in E as [_ Ek].
  apply negb_false_iff, bool_decide_eq_true in Ek. apply bool_decide_eq_false, dec_stable in Er. done.
Qed.

Definition refreshed (c : Conference) : Conference :=
  mkConference (warm (c_core c)) (installed (c_core c) (c_media c)).

Lemma member_tag c k vk who :
  conf_inv c -> bound c = Ok tt -> current_key (c_core c) = Some k ->
  p_versions (c_media c) !! context_id (current_label (c_core c)) = Some vk ->
  who ∈ current_members (c_core c) -> vk_roster vk !! sender_tag who = Some who.
Proof.
  intros Hc Hb Hk Hv Hw. destruct (bound_version c k vk Hb Hk Hv) as (_ & _ & Hr).
  rewrite <- Hr in Hw. apply elem_of_list_to_set, list_elem_of_fmap in Hw as ([tag x] & -> & Hx).
  apply elem_of_bt_list in Hx. cbn [fst snd] in Hx |- *.
  by rewrite <- (vo_roster _ _ _ (pi_versions _ (ci_media _ Hc) _ _ Hv) _ _ Hx).
Qed.

Context {PO : PrimitivesOk P}.

(** C26. The two planes compose: when two conferences of one session derive the
    same version label and group key and their media layers are bound to it, a
    frame that one protects is opened by the other, which learns the right
    sender and the exact frame, provided the sender is a member for the
    receiver, its frame counter is not exhausted, the frame index is fresh to
    the receiver's replay window and within its epoch window, and the codec has a
    fixed clear prefix (VP8, VP9, Opus and generic frames).  For H.264 it does not
    hold ([Frame.h264_start_code_emulation]). *)
Theorem frames_arrive a b k vka vkb codec frame kf ta tb :
  conf_reachable a -> conf_reachable b ->
  conf_session_id a = conf_session_id b -> conf_identity a <> conf_identity b ->
  current_label (c_core a) = current_label (c_core b) ->
  current_key (c_core a) = Some k -> current_key (c_core b) = Some k ->
  bound (refreshed a) = Ok tt -> bound (refreshed b) = Ok tt ->
  conf_identity a ∈ current_members (c_core b) ->
  let ctx := context_id (current_label (c_core a)) in
  p_versions (c_media (refreshed a)) !! ctx = Some vka ->
  p_versions (c_media (refreshed b)) !! ctx = Some vkb ->
  let e := entry_of vkb (sender_tag (conf_identity a)) (conf_identity a) in
  (vk_counter vka < u64_max)%N -> (accept (vk_counter vka) e.2).1 = true ->
  (rr_epoch e.1 <= vk_counter vka / EPOCH <= rr_epoch e.1 + MAX_EPOCH_JUMP)%N ->
  prefix_codec codec = true ->
  exists packet ea eb,
    conf_protect codec frame kf (mkCEnv a ta) = (Ok packet, ea) /\
    conf_open packet (mkCEnv b tb) = (Ok (conf_identity a, frame), eb).
Proof.
  intros Ha%conf_reachable_inv Hb%conf_reachable_inv Hsid Hne Hl Hka Hkb Ba Bb Hin ctx Hva Hvb e
    Hcnt Hacc Hep Hcodec.
  pose proof (conf_inv_refreshed a Ha) as Ra. pose proof (conf_inv_refreshed b Hb) as Rb.
  assert (current_key (c_core (refreshed a)) = Some k) as Ka by (etrans; [apply warm_key|exact Hka]).
  assert (current_key (c_core (refreshed b)) = Some k) as Kb by (etrans; [apply warm_key|exact Hkb]).
  assert (context_id (current_label (c_core (refreshed a))) = ctx) as La
    by (unfold ctx; cbn [refreshed c_core]; by rewrite warm_label).
  assert (context_id (current_label (c_core (refreshed b))) = ctx) as Lb
    by (unfold ctx; cbn [refreshed c_core]; by rewrite warm_label, Hl).
  rewrite <- La in Hva. rewrite <- Lb in Hvb.
  destruct (bound_version _ k vka Ba Ka Hva) as (Hcur & Hkeya & _).
  destruct (bound_version _ k vkb Bb Kb Hvb) as (_ & Hkeyb & _).
  assert (vk_roster vkb !! sender_tag (conf_identity a) = Some (conf_identity a)) as Hros.
  { apply (member_tag _ k _ _ Rb Bb Kb Hvb). cbn [refreshed c_core]. by rewrite warm_members. }
  rewrite La in Hva, Hcur. rewrite Lb in Hvb.
  destruct Ra as [_ Ia Sa Ma _]. destruct Rb as [_ Ib Sb Mb _]. cbn [refreshed c_core c_media] in *.
  rewrite warm_sid in Sa, Sb. rewrite warm_ipk in Ma, Mb.
  rewrite conf_protect_run by done. unfold on_media. cbn [ce_c c_core c_media ce_tape].
  set (ma := installed (c_core a) (c_media a)) in *. set (mb := installed (c_core b) (c_media b)) in *.
  destruct (frame_opens (p_sid (c_core a)) (conf_identity a) (conf_identity b) ma mb ctx vka vkb
    codec frame kf Ia Sa Ma Ib) as (packet & ma' & mb' & Hp & Ho);
    [by rewrite Sb|exact Mb|done|done|done|done|congruence|done|done|done|done|by left|].
  exists packet. eexists _, _. rewrite Hp. split; [reflexivity|].
  rewrite conf_open_run by done. unfold on_media. cbn [ce_c c_core c_media ce_tape].
  fold mb. by rewrite Ho.
Qed.
End restart.

(** ** A conference of two

    The run of [MemberProps] through the facade. *)

#[export] Instance SendRatchet_eq_dec : EqDecision SendRatchet.
Proof. solve_decision. Defined.
#[export] Instance RecvRatchet_eq_dec : EqDecision RecvRatchet.
Proof. solve_decision. Defined.
#[export] Instance Replay_eq_dec : EqDecision Replay.
Proof. solve_decision. Defined.
#[export] Instance VersionKeys_eq_dec : EqDecision VersionKeys.
Proof. solve_decision. Defined.
#[export] Instance Protector_eq_dec : EqDecision Protector.
Proof. solve_decision. Defined.
#[export] Instance Conference_eq_dec : EqDecision Conference.
Proof. solve_decision. Defined.

Definition no_conf : Conference := mkConference nobody (protector_new (P := Toy) [] [] 4).
Definition cmade {A} (r : result ConfError (Conference * A) * Tape) : Conference :=
  match r.1 with Ok (c, _) => c | Err _ => no_conf end.

Definition ex_ca0 : Conference := cmade (conf_create (P := Toy) policy_default (ex_tape 10)).
Definition ex_ca : Conference :=
  ce_c (conf_invite (P := Toy) (key_package (P := Toy) ex_join) (mkCEnv ex_ca0 (ex_tape 30))).2.
Definition ex_cb0 : Conference := cmade (joining_accept (P := Toy) ex_join ex_welcome (ex_tape 150)).
Definition ex_cb : Conference :=
  ce_c (conf_handle (P := Toy) ex_contribution (mkCEnv ex_cb0 (ex_tape 200))).2.

Lemma cmade_ok {A} (r : result ConfError (Conference * A) * Tape) :
  is_ok r.1 = true -> exists a t, r = (Ok (cmade r, a), t).
Proof. destruct r as [[[p a]|x] t]; [|done]. intros _. by exists a, t. Qed.

Lemma cignore_env {A} (m : Mc A) e : exists r, cignore m e = (r, (m e).2).
Proof. unfold cignore, mbind, M_bind. destruct (m e) as [[a|x] e']; eexists; reflexivity. Qed.

Lemma ex_ca0_reachable : conf_reachable (P := Toy) ex_ca0.
Proof.
  destruct (cmade_ok (conf_create (P := Toy) policy_default (ex_tape 10))) as (a & t & H);
    [vm_compute; reflexivity|]. exact (cre_create _ _ _ _ _ H).
Qed.

Lemma ex_ca_reachable : conf_reachable (P := Toy) ex_ca.
Proof.
  destruct (cignore_env (conf_invite (P := Toy) (key_package (P := Toy) ex_join))
              (mkCEnv ex_ca0 (ex_tape 30))) as [r H].
  exact (cre_call _ (CfInvite (key_package (P := Toy) ex_join)) _ _ _ ex_ca0_reachable H).
Qed.

Lemma ex_cb0_reachable : conf_reachable (P := Toy) ex_cb0.
Proof.
  destruct (cmade_ok (joining_accept (P := Toy) ex_join ex_welcome (ex_tape 150))) as (a & t & H);
    [vm_compute; reflexivity|]. exact (cre_accept _ _ _ _ _ _ H).
Qed.

Lemma ex_cb_reachable : conf_reachable (P := Toy) ex_cb.
Proof.
  destruct (cignore_env (conf_handle (P := Toy) ex_contribution) (mkCEnv ex_cb0 (ex_tape 200))) as [r H].
  exact (cre_call _ (CfHandle ex_contribution) _ _ _ ex_cb0_reachable H).
Qed.

#[local] Opaque ex_ca0 ex_ca ex_cb0 ex_cb.

Lemma conference_invariant_witness : conf_inv (P := Toy) ex_cb.
Proof. exact (proj1 (conference_invariant (P := Toy) ex_cb ex_cb_reachable)). Defined.

Lemma tick_conf c t :
  run_conf (P := Toy) CfTick (mkCEnv c t)
  = (Ok tt, mkCEnv (mkConference (p_tick (c_core c)) (c_media c)) t).
Proof. reflexivity. Qed.

(** Everything [frames_arrive] asks of two conferences, as one computation. *)
Definition key_in (c : Conference) : bytes := default [] (current_key (P := Toy) (c_core c)).
Definition version_in (c : Conference) (ctx : ContextId) : VersionKeys :=
  default (fresh_version (P := Toy) [] [] [] []) (p_versions (c_media (refreshed (P := Toy) c)) !! ctx).

Definition pair_check (a b : Conference) : bool :=
  let ctx := context_id (P := Toy) (current_label (P := Toy) (c_core a)) in
  let e := entry_of (P := Toy) (version_in b ctx) (sender_tag (P := Toy) (conf_identity a)) (conf_identity a) in
  bool_decide (conf_session_id a = conf_session_id b)
  && bool_decide (conf_identity a <> conf_identity b)
  && bool_decide (current_label (P := Toy) (c_core a) = current_label (P := Toy) (c_core b))
  && bool_decide (current_key (P := Toy) (c_core a) = Some (key_in a))
  && bool_decide (current_key (P := Toy) (c_core b) = Some (key_in a))
  && is_ok (bound (P := Toy) (refreshed (P := Toy) a)) && is_ok (bound (P := Toy) (refreshed (P := Toy) b))
  && bool_decide (conf_identity a ∈ current_members (c_core b))
  && bool_decide (p_versions (c_media (refreshed (P := Toy) a)) !! ctx = Some (version_in a ctx))
  && bool_decide (p_versions (c_media (refreshed (P := Toy) b)) !! ctx = Some (version_in b ctx))
  && (vk_counter (version_in a ctx) <? u64_max)%N
  && (accept (vk_counter (version_in a ctx)) e.2).1
  && (rr_epoch e.1 <=? vk_counter (version_in a ctx) / EPOCH)%N
  && (vk_counter (version_in a ctx) / EPOCH <=? rr_epoch e.1 + MAX_EPOCH_JUMP)%N.

Lemma ex_pair : pair_check ex_ca ex_cb = true.
Proof. vm_compute. reflexivity. Qed.

Lemma is_ok_unit {E} (r : result E unit) : is_ok r = true -> r = Ok tt.
Proof. by destruct r as [[]|]. Qed.

Lemma pair_check_ok a b :
  pair_check a b = true ->
  let ctx := context_id (P := Toy) (current_label (P := Toy) (c_core a)) in
  let e := entry_of (P := Toy) (version_in b ctx) (sender_tag (P := Toy) (conf_identity a)) (conf_identity a) in
  (conf_session_id a = conf_session_id b /\ conf_identity a <> conf_identity b /\
   current_label (P := Toy) (c_core a) = current_label (P := Toy) (c_core b)) /\
  (current_key (P := Toy) (c_core a) = Some (key_in a) /\
   current_key (P := Toy) (c_core b) = Some (key_in a)) /\
  (bound (P := Toy) (refreshed (P := Toy) a) = Ok tt /\ bound (P := Toy) (refreshed (P := Toy) b) = Ok tt) /\
  conf_identity a ∈ current_members (c_core b) /\
  (p_versions (c_media (refreshed (P := Toy) a)) !! ctx = Some (version_in a ctx) /\
   p_versions (c_media (refreshed (P := Toy) b)) !! ctx = Some (version_in b ctx)) /\
  (vk_counter (version_in a ctx) < u64_max)%N /\ (accept (vk_counter (version_in a ctx)) e.2).1 = true /\
  (rr_epoch e.1 <= vk_counter (version_in a ctx) / EPOCH <= rr_epoch e.1 + MAX_EPOCH_JUMP)%N.
Proof.
  intros H ctx e. unfold pair_check in H. cbn zeta in H. fold ctx in H. fold e in H.
  rewrite !andb_true_iff, !bool_decide_eq_true, N.ltb_lt, !N.leb_le in H.
  destruct H as [[[[[[[[[[[[[H1 H2] H3] H4] H5] H6] H7] H8] H9] H10] H11] H12] H13] H14].
  apply is_ok_unit in H6, H7. split_and!; assumption.
Qed.

Lemma frames_arrive_witness :
  exists packet ea eb,
    conf_protect (P := Toy) Opus (bstr "voice") false (mkCEnv ex_ca []) = (Ok packet, ea) /\
    conf_open (P := Toy) packet (mkCEnv ex_cb []) = (Ok (conf_identity ex_ca, bstr "voice"), eb).
Proof.
  destruct (pair_check_ok ex_ca ex_cb ex_pair)
    as ((H1 & H2 & H3) & (H4 & H5) & (H6 & H7) & H8 & (H9 & H10) & H11 & H12 & H13).
  exact (frames_arrive (P := Toy) ex_ca ex_cb (key_in ex_ca) _ _ Opus (bstr "voice") false [] []
    ex_ca_reachable ex_cb_reachable H1 H2 H3 H4 H5 H6 H7 H8 H9 H10 H11 H12 H13 eq_refl).
Defined.

Lemma conf_protect_answer (r : result ConfError bytes * CEnv) :
  is_ok r.1 = true -> exists packet e, r = (Ok packet, e).
Proof. destruct r as [[b|x] e]; [|done]. eauto. Qed.

Lemma media_follows_core_witness :
  exists packet tr, conf_inspect packet = Ok tr /\ t_sender tr = sender_tag (P := Toy) (conf_identity ex_cb).
Proof.
  assert (bool_decide (current_key (P := Toy) (c_core ex_cb) = Some (key_in ex_cb))
          && is_ok (conf_protect (P := Toy) Vp8 (bstr "frame") false (mkCEnv ex_cb [])).1 = true) as H
    by (vm_compute; reflexivity).
  apply andb_true_iff in H as [Hk Hp]. apply bool_decide_eq_true in Hk.
  destruct (conf_protect_answer _ Hp) as (packet & e & He).
  destruct (proj2 (media_follows_core (P := Toy) ex_cb CfTick [] e ex_cb_reachable) Vp8 (bstr "frame") false
    packet (key_in ex_cb) Hk He) as (tr & H1 & _ & H3).
  exists packet, tr. by split.
Defined.

(** Bob's conference stored and restarted. *)
Definition kept {A} (d : A) (r : result ConfError A) : A := match r with Ok a => a | Err _ => d end.
Lemma kept_ok {A} (d : A) (r : result ConfError A) : is_ok r = true -> r = Ok (kept d r).
Proof. by destruct r. Qed.

Definition stored (p : Protector) : bytes := match media_export p with Ok b => b | Err _ => [] end.

Definition store_check (c : Conference) : bool :=
  bool_decide (import_persistence_state (P := Toy) (saved (export_persistence_state (c_core c)))
               = Ok (reload (c_core c)))
  && bool_decide (media_import (P := Toy) (stored (c_media c)) = Ok (c_media c))
  && is_ok (conf_export c).

Lemma store_check_ok c :
  store_check c = true ->
  storable (P := Toy) c /\ conf_export c = Ok (kept [] (conf_export c)).
Proof.
  unfold store_check. rewrite !andb_true_iff, !bool_decide_eq_true. intros [[Hc Hm] He].
  split; [|by apply kept_ok].
  destruct (import_sound (P := Toy) _ _ Hc) as (Hf & _ & _ & Hl & Hv & _).
  split; [by apply stored_fields_reload|exact Hl|by rewrite <- validate_reload|].
  by apply media_import_image in Hm as [? _].
Qed.

Lemma ex_cb_stored : store_check ex_cb = true.
Proof. vm_compute. reflexivity. Qed.

Lemma conference_restart_witness :
  conf_import (P := Toy) (kept [] (conf_export ex_cb)) = restart_result (P := Toy) ex_cb.
Proof.
  destruct (store_check_ok _ ex_cb_stored) as [Hs He].
  exact (proj1 (conference_restart (P := Toy) ex_cb _ (conf_reachable_inv ex_cb ex_cb_reachable)
    (st_fields _ Hs) (st_media _ Hs) He)).
Defined.

(** Bob's participant beside a media layer that holds another key for the
    current version. *)
Definition with_key (core : Participant) (k : bytes) : Conference :=
  mkConference core
    (install (P := Toy) (current_label (P := Toy) core) k (bt_elems (current_members core))
       (protector_new (P := Toy) (p_sid core) (p_ipk core) MEDIA_OVERLAP)).
Lemma with_key_inv core k : part_ok (P := Toy) (statics core) core -> conf_inv (P := Toy) (with_key core k).
Proof.
  intros Hc. unfold with_key.
  apply (conf_inv_media (P := Toy) (mkConference core
    (protector_new (P := Toy) (p_sid core) (p_ipk core) MEDIA_OVERLAP))); [|constructor].
  split; cbn [c_core c_media]; [exact Hc|apply protector_new_inv|reflexivity..].
Qed.
Definition ex_wrong : Conference := with_key (c_core ex_cb) (array_of (byte_of 9) 32).

Definition wrong_check (c : Conference) : bool :=
  let ctx := context_id (P := Toy) (current_label (P := Toy) (c_core c)) in
  let vk := default (fresh_version (P := Toy) [] [] [] []) (p_versions (c_media c) !! ctx) in
  bool_decide (current_key (P := Toy) (c_core c) = Some (key_in c))
  && bool_decide (p_current (c_media c) = Some ctx)
  && bool_decide (p_versions (c_media c) !! ctx = Some vk)
  && bool_decide (vk_version vk = current_label (P := Toy) (c_core c))
  && bool_decide (vk_key vk <> key_in c) && store_check c.

Lemma wrong_check_ok c :
  wrong_check c = true ->
  let ctx := context_id (P := Toy) (current_label (P := Toy) (c_core c)) in
  let vk := default (fresh_version (P := Toy) [] [] [] []) (p_versions (c_media c) !! ctx) in
  current_key (P := Toy) (c_core c) = Some (key_in c) /\ p_current (c_media c) = Some ctx /\
  p_versions (c_media c) !! ctx = Some vk /\ vk_version vk = current_label (P := Toy) (c_core c) /\
  vk_key vk <> key_in c /\ store_check c = true.
Proof.
  intros H ctx vk. unfold wrong_check in H. cbn zeta in H. fold ctx in H. fold vk in H.
  rewrite !andb_true_iff, !bool_decide_eq_true in H. destruct H as [[[[[H1 H2] H3] H4] H5] H6].
  split_and!; assumption.
Qed.

Lemma ex_wrong_check : wrong_check ex_wrong = true.
Proof. vm_compute. reflexivity. Qed.

Lemma ex_wrong_inv : conf_inv (P := Toy) ex_wrong.
Proof. exact (with_key_inv _ _ (ci_core _ (conf_reachable_inv ex_cb ex_cb_reachable))). Qed.
#[local] Opaque ex_wrong.

Lemma changed_key_strands_witness :
  conf_import (P := Toy) (kept [] (conf_export ex_wrong)) = Err (MediaE MalformedState).
Proof.
  destruct (wrong_check_ok ex_wrong ex_wrong_check) as (H1 & H2 & H3 & H4 & H5 & H6).
  destruct (store_check_ok _ H6) as [Hs He].
  exact (proj2 (changed_key_strands (P := Toy) ex_wrong (key_in ex_wrong) _ _ ex_wrong_inv Hs H1 H2 H3 H4 H5 He)).
Defined.

(** A member's unsolicited repair response that names a wrong key for a node
    the receiver already holds: the key changes, the label does not, the media
    layer keeps the old key, and the conference no longer loads. *)
Definition forged (from to : Participant) : Mp Outbound :=
  sealed ← seal_envelope (P := Toy) (bstr "repair") (repair_ad (P := Toy)) (p_ipk to)
             (pk_generation (p_prekeys to)) (pk_public (p_prekeys to))
             (build_nodekey_payload [(default [] (head (bt_elems (frontier (p_dag to)))),
                                      array_of (byte_of 9) 32)]);
  mret (direct (p_ipk to) (MNodeKeyResponse (p_ipk from) sealed)).

Definition forge (from to : Conference) : bytes :=
  ob_payload (outcome (mkOutbound Everyone [])
    (forged (c_core from) (c_core to) (mkEnv (c_core from) (ex_tape 70)))).

Definition overwritten (from to : Conference) : bool :=
  let after := ce_c (conf_handle (P := Toy) (forge from to) (mkCEnv to [])).2 in
  is_ok (conf_handle (P := Toy) (forge from to) (mkCEnv to [])).1
  && bool_decide (current_key (P := Toy) (c_core after) <> current_key (P := Toy) (c_core to))
  && bool_decide (is_Some (current_key (P := Toy) (c_core after)))
  && bool_decide (current_label (P := Toy) (c_core after) = current_label (P := Toy) (c_core to))
  && bool_decide (c_media after = c_media to)
  && bool_decide (conf_import (P := Toy) (kept [] (conf_export after)) = Err (MediaE MalformedState)).

Lemma repair_overwrites_key : overwritten ex_cb ex_ca = true.
Proof. vm_compute. reflexivity. Qed.
