(* ===== verification/Net.v ===== *)
(** * A network of conferences ([crates/cfr/examples/scale.rs])

    The repository's benchmark drives a whole conference in memory: every peer is
    a [Conference], and messages between them go through one first-in first-out
    queue.  It is the one place where several participants run against each
    other, so the theorems here are about the composition: every peer stays
    within the invariants of the facade whatever the others send, the queue
    drains, and the agreement check means what it says.  The clock and the
    printing are left out; what is printed is returned as a [Report]. *)

From Stdlib Require Import NArith Lia Ascii.
From S2P Require Import Prelude Crypto Toy Codec Ops Dag Membership Keys Layout Frame Wire Member MemberInv MemberProps Converge Emit Conference.

(** ** Configuration and traffic *)

Definition DEFAULT_PARTICIPANTS : N := 100.
Definition DEFAULT_MEDIA_ROUNDS : N := 200.
Definition FRAME_BYTES : N := 40000.
Definition MIN_PARTICIPANTS : N := 8.

Record BenchConfig := mkBenchConfig { bc_participants : N; bc_media_rounds : N }.

Definition bench_default : BenchConfig := mkBenchConfig DEFAULT_PARTICIPANTS DEFAULT_MEDIA_ROUNDS.

Record Traffic := mkTraffic { tr_messages : N; tr_upload : N; tr_per_recipient : N }.

Definition traffic_default : Traffic := mkTraffic 0 0 0.

Definition traffic_record (message : CMessage) (t : Traffic) : Traffic :=
  mkTraffic (tr_messages t + 1) (tr_upload t + lenN (cm_payload message))
    (if decide (cm_to message = REveryone) then tr_per_recipient t + lenN (cm_payload message)
     else tr_per_recipient t)%N.

Record Measurement := mkMeasurement { me_operation : string; me_traffic : Traffic }.

(** The error strings: a broken expectation, an error of a peer in its context,
    and two ways of not returning, a panic and a loop out of fuel. *)
Inductive BenchError :=
| Invariant (what : string)
| LacksKey (who : SigPublic)
| Sees (who : SigPublic) (members expected : N)
| Delivery (to : SigPublic) (e : ConfError)
| InContext (context : string) (e : ConfError)
| Usage (what : string) (argument : string)
| Panicked
| Unsettled.

(** ** The network *)

Record Net := mkNet {
  n_peers : gmap SigPublic Conference;
  n_queue : list (SigPublic * bytes);
  n_traffic : Traffic;
}.

Record NEnv := mkNEnv { ne_net : Net; ne_tape : Tape }.

Abbreviation Mn := (M NEnv BenchError).

Definition net_new : Net := mkNet ∅ [] traffic_default.
Definition reset_traffic (n : Net) : Net := mkNet (n_peers n) (n_queue n) traffic_default.
Definition net_record (message : CMessage) (n : Net) : Net :=
  mkNet (n_peers n) (n_queue n) (traffic_record message (n_traffic n)).
Definition insert_peer (id : SigPublic) (c : Conference) (n : Net) : Net :=
  mkNet (<[id := c]> (n_peers n)) (n_queue n) (n_traffic n).
Definition push_back (entries : list (SigPublic * bytes)) (n : Net) : Net :=
  mkNet (n_peers n) (n_queue n ++ entries) (n_traffic n).

Definition on_net (f : Net -> Net) : Mn unit := modify (fun e => mkNEnv (f (ne_net e)) (ne_tape e)).

(** [self.peer(id)?.m()] and [self.peer_mut(id)?.m()]. *)
Definition on_peer {A} (id : SigPublic) (report : ConfError -> BenchError) (m : Mc A) : Mn A := fun e =>
  match n_peers (ne_net e) !! id with
  | None => (Err (Invariant "peer is absent"), e)
  | Some c =>
      let '(r, ce) := m (mkCEnv c (ne_tape e)) in
      (map_err report r, mkNEnv (insert_peer id (ce_c ce) (ne_net e)) (ce_tape ce))
  end.

Definition fanout (n : Net) (from : SigPublic) (to : Recipient) : list SigPublic :=
  match to with
  | REveryone => filter (fun identity => identity <> from) (bt_keys (n_peers n))
  | RPeer identity => [identity]
  end.

Definition send_one (from : SigPublic) (count_traffic : bool) (n : Net) (message : CMessage) : Net :=
  let n := if count_traffic then net_record message n else n in
  let recipients := filter (fun r => is_Some (n_peers n !! r)) (fanout n from (cm_to message)) in
  push_back ((fun r => (r, cm_payload message)) <$> recipients) n.

Definition send (from : SigPublic) (outbound : list CMessage) (count_traffic : bool) (n : Net) : Net :=
  foldl (send_one from count_traffic) n outbound.

Section bench.
Context {P : Primitives}.

(** One turn of the loop of [settle]. *)
Definition deliver_next (recipient : SigPublic) (payload : bytes) (queue : list (SigPublic * bytes))
    (count_traffic : bool) : Mn unit :=
  _ ← on_net (fun n => mkNet (n_peers n) queue (n_traffic n));
  r ← on_peer recipient (Delivery recipient) (conf_handle payload);
  on_net (send recipient r.2 count_traffic).

Fixpoint settle_loop (fuel : nat) (count_traffic : bool) : Mn unit := fun e =>
  match n_queue (ne_net e) with
  | [] => (Ok tt, e)
  | (recipient, payload) :: queue =>
      match fuel with
      | O => (Err Unsettled, e)
      | S fuel =>
          (_ ← deliver_next recipient payload queue count_traffic;
           settle_loop fuel count_traffic) e
      end
  end.

(** A bound on the deliveries: what can still be stored anywhere, each time for
    every peer, and what is queued; see [settle_completes]. *)
Definition backlog_of (queue : list (SigPublic * bytes)) : nat := sum_list_with (fun en => weight en.2) queue.
Definition total_room (peers : gmap SigPublic Conference) : nat := sum_list_with (fun en => room (c_core en.2)) (map_to_list peers).
Definition net_fuel (n : Net) : nat := size (n_peers n) * total_room (n_peers n) + backlog_of (n_queue n).

Definition settle (count_traffic : bool) : Mn unit := fun e =>
  settle_loop (net_fuel (ne_net e)) count_traffic e.

Definition measured (operation : string) (action : Mn unit) : Mn Measurement :=
  _ ← on_net reset_traffic;
  _ ← action;
  gets (fun e => mkMeasurement operation (n_traffic (ne_net e))).

Fixpoint check_peers (expected_members : N) (version : bytes) (ids : list SigPublic) : Mn unit :=
  match ids with
  | [] => mret tt
  | id :: ids =>
      ready ← on_peer id (fun _ => Panicked) conf_ready;
      if negb ready then fail (LacksKey id) else
      ms ← on_peer id (fun _ => Panicked) conf_members;
      if negb (N.of_nat (size ms) =? expected_members)%N
      then fail (Sees id (N.of_nat (size ms)) expected_members) else
      v ← on_peer id (fun _ => Panicked) conf_version;
      if decide (v <> version) then fail (Invariant "participants diverged") else
      check_peers expected_members version ids
  end.

Definition assert_agreement (expected_members : N) : Mn unit :=
  ids ← gets (fun e => bt_keys (n_peers (ne_net e)));
  match ids with
  | [] => fail (Invariant "conference is empty")
  | first :: _ =>
      version ← on_peer first (fun _ => Panicked) conf_version;
      check_peers expected_members version ids
  end.
End bench.

(** ** The command line *)

Definition digit_of (c : ascii) : option N :=
  let n := N_of_ascii c in if (48 <=? n)%N && (n <=? 57)%N then Some (n - 48)%N else None.

Fixpoint parse_digits (max acc : N) (s : list ascii) : option N :=
  match s with
  | [] => Some acc
  | c :: s =>
      match digit_of c with
      | None => None
      | Some d => if (max <? acc * 10 + d)%N then None else parse_digits max (acc * 10 + d) s
      end
  end.

(** [str::parse] at an unsigned type with greatest value [max]. *)
Definition parse_unsigned (max : N) (s : string) : option N :=
  match String.list_ascii_of_string s with
  | [] => None
  | c :: cs =>
      if decide (c = "+"%char)
      then match cs with [] => None | _ :: _ => parse_digits max 0 cs end
      else parse_digits max 0 (c :: cs)
  end.

Definition USIZE_MAX : N := u64_max.
Definition U32_MAX : N := (two32 - 1)%N.

Fixpoint parse_pairs (args : list string) (config : BenchConfig) : result BenchError BenchConfig :=
  match args with
  | [] => Ok config
  | argument :: [] => Err (Usage "missing value for" argument)
  | argument :: value :: args =>
      if decide (argument = "--participants") then
        match parse_unsigned USIZE_MAX value with
        | Some n => parse_pairs args (mkBenchConfig n (bc_media_rounds config))
        | None => Err (Usage "invalid participant count" value)
        end
      else if decide (argument = "--rounds") then
        match parse_unsigned U32_MAX value with
        | Some n => parse_pairs args (mkBenchConfig (bc_participants config) n)
        | None => Err (Usage "invalid media round count" value)
        end
      else Err (Usage "unknown argument" argument)
  end.

Definition parse_args (args : list string) : result BenchError BenchConfig :=
  config ← parse_pairs args bench_default;
  if (bc_participants config <? MIN_PARTICIPANTS)%N then Err (Usage "too few" "--participants")
  else if (bc_media_rounds config =? 0)%N then Err (Usage "must be positive" "--rounds")
  else Ok config.

(** ** The scenarios *)

Section scenarios.
Context {P : Primitives}.

Definition on_tape {A} (context : string) (m : M Tape ConfError A) : Mn A := fun e =>
  let '(r, t) := m (ne_tape e) in (map_err (InContext context) r, mkNEnv (ne_net e) t).

(** [identities[i]], which panics out of range. *)
Definition at_index (identities : list SigPublic) (i : nat) : Mn SigPublic :=
  match identities !! i with Some id => mret id | None => fail Panicked end.

Record PreparedConference := mkPrepared {
  pc_identities : list SigPublic;
  pc_join : Measurement;
  pc_welcome_bytes : N;
}.

Definition is_welcome (identity : SigPublic) (message : CMessage) : bool :=
  bool_decide (cm_to message = RPeer identity).

(** One turn of the loop of [build_conference]; the size of the welcome. *)
Definition join_one (founder_id : SigPublic) : Mn N :=
  joining ← on_tape "join identity" (joining_new (policy_leaderless 2));
  let package := joining_key_package joining in
  let identity := joining_identity joining in
  _ ← on_net reset_traffic;
  outbound ← on_peer founder_id (InContext "invite") (conf_invite package);
  match List.find (is_welcome identity) outbound with
  | None => fail (Invariant "invitation has no welcome")
  | Some welcome =>
      r ← on_tape "accept welcome" (joining_accept joining (cm_payload welcome));
      _ ← on_net (insert_peer identity r.1);
      _ ← on_net (net_record welcome);
      let remaining_outbound := filter (fun m => is_welcome identity m = false) outbound in
      _ ← on_net (send founder_id remaining_outbound true);
      _ ← on_net (send identity r.2 true);
      _ ← settle true;
      mret (lenN (cm_payload welcome))
  end.

(** The joins still to come, the last of which is measured. *)
Fixpoint join_all (remaining : nat) (founder_id : SigPublic) (welcome_bytes : N)
    : Mn (N * option Measurement) :=
  match remaining with
  | O => mret (welcome_bytes, None)
  | S remaining =>
      welcome_bytes ← join_one founder_id;
      match remaining with
      | O => m ← gets (fun e => mkMeasurement "join" (n_traffic (ne_net e)));
             mret (welcome_bytes, Some m)
      | S _ => join_all remaining founder_id welcome_bytes
      end
  end.

Definition build_conference (participants : N) : Mn PreparedConference :=
  r ← on_tape "create" (conf_create (policy_leaderless 2));
  let '(founder, outbound) := r in
  let founder_id := conf_identity founder in
  _ ← on_net (fun _ => insert_peer founder_id founder net_new);
  _ ← on_net (send founder_id outbound false);
  _ ← settle false;
  r ← join_all (N.to_nat participants - 1) founder_id 0;
  let '(welcome_bytes, join) := r in
  _ ← assert_agreement participants;
  identities ← gets (fun e => bt_keys (n_peers (ne_net e)));
  match join with
  | None => fail (Invariant "no join measurement")
  | Some join => mret (mkPrepared identities join welcome_bytes)
  end.

Definition measure_rotation (identities : list SigPublic) (participants : N) : Mn Measurement :=
  first ← at_index identities 0;
  initial_version ← on_peer first (fun _ => Panicked) conf_version;
  measured "rotation" (
    eighth ← at_index identities 7;
    outbound ← on_peer eighth (InContext "rotate contribution") conf_rekey;
    _ ← on_net (send eighth outbound true);
    _ ← settle true;
    _ ← assert_agreement participants;
    v ← on_peer first (fun _ => Panicked) conf_version;
    if decide (v = initial_version) then fail (Invariant "rotation did not change the version")
    else mret tt).

Fixpoint evict_each (evictors : list SigPublic) (victim : SigPublic) : Mn unit :=
  match evictors with
  | [] => mret tt
  | evictor :: evictors =>
      outbound ← on_peer evictor (InContext "evict") (conf_evict victim);
      _ ← on_net (send evictor outbound true);
      _ ← settle true;
      evict_each evictors victim
  end.

Definition measure_eviction (identities : list SigPublic) : Mn Measurement :=
  match last identities with
  | None => fail (Invariant "conference is empty")
  | Some victim =>
      measured "eviction_quorum_2" (
        first ← at_index identities 0;
        second ← at_index identities 1;
        _ ← evict_each [first; second] victim;
        ms ← on_peer first (fun _ => Panicked) conf_members;
        if bool_decide (victim ∈ ms) then fail (Invariant "quorum eviction did not take effect")
        else mret tt)
  end.

Definition measure_healing (identities : list SigPublic) : Mn Measurement :=
  measured "heal" (
    fourth ← at_index identities 3;
    outbound ← on_peer fourth (InContext "heal") conf_heal;
    _ ← on_net (send fourth outbound true);
    settle true).

Definition media_frame : bytes :=
  (fun index => byte_of (N.of_nat index mod 251)) <$> seq 0 (N.to_nat FRAME_BYTES).

Fixpoint protect_rounds (rounds : nat) (sender : SigPublic) (frame sealed : bytes) : Mn bytes :=
  match rounds with
  | O => mret sealed
  | S rounds =>
      sealed ← on_peer sender (InContext "protect media") (conf_protect H264 frame false);
      protect_rounds rounds sender frame sealed
  end.

(** The measurement and the bytes a sealed frame adds; [usize] subtraction. *)
Definition measure_media_of (frame : bytes) (identities : list SigPublic) (rounds : N) : Mn (Measurement * N) :=
  sender ← at_index identities 0;
  sealed ← protect_rounds (N.to_nat rounds) sender frame [];
  receiver ← at_index identities 1;
  opened ← on_peer receiver (InContext "open media") (conf_open sealed);
  if decide (opened.2 <> frame) then fail (Invariant "media round trip changed the frame")
  else if (lenN sealed <? lenN frame)%N then fail Panicked
  else mret (mkMeasurement "media_protect" traffic_default, (lenN sealed - lenN frame)%N).

Definition measure_media : list SigPublic -> N -> Mn (Measurement * N) := measure_media_of media_frame.

(** What the program prints. *)
Record Report := mkReport {
  re_state_bytes : N;
  re_history : N;
  re_sync_bytes : N;
  re_sync_heads : N;
  re_frame_overhead : N;
  re_welcome_bytes : N;
  re_rows : list Measurement;
}.

Definition run_bench (config : BenchConfig) : Mn Report :=
  prepared ← build_conference (bc_participants config);
  let identities := pc_identities prepared in
  rotation ← measure_rotation identities (bc_participants config);
  eviction ← measure_eviction identities;
  healing ← measure_healing identities;
  r ← measure_media identities (bc_media_rounds config);
  let '(media, frame_overhead) := r in
  first ← at_index identities 0;
  state_bytes ← on_peer first (fun _ => Panicked) (gets (fun e => conf_state_bytes (ce_c e)));
  history_len ← on_peer first (fun _ => Panicked) (gets (fun e => conf_history_len (ce_c e)));
  sync ← on_peer first (fun _ => Panicked) conf_resync;
  match List.find (fun m => bool_decide (cm_to m = REveryone)) sync with
  | None => fail (Invariant "resync emitted no Sync message")
  | Some sync_message =>
      m ← lift (map_err (fun e => InContext "parse sync summary" (KeyE e))
                  (message_from_wire (cm_payload sync_message)));
      match m with
      | MSync _ heads =>
          mret (mkReport state_bytes history_len (lenN (cm_payload sync_message)) (lenN heads)
                  frame_overhead (pc_welcome_bytes prepared)
                  [rotation; pc_join prepared; eviction; healing; media])
      | _ => fail (Invariant "resync emitted a non-Sync message")
      end
  end.

(** [main]: whether the exit code is success. *)
Definition bench_main (args : list string) (t : Tape) : bool :=
  match (config ← lift (parse_args args); run_bench config) (mkNEnv net_new t) with
  | (Ok _, _) => true
  | (Err _, _) => false
  end.
End scenarios.

(** ** Peers stay within the facade's invariants *)

Section invariant.
Context {P : Primitives} {PO : PrimitivesOk P}.

(** Every peer is a reachable conference under its own identity, and mail is
    only queued for peers. *)
Record net_ok (n : Net) : Prop := {
  no_peers id c : n_peers n !! id = Some c -> conf_reachable c /\ conf_identity c = id;
  no_queue : Forall (fun en => is_Some (n_peers n !! en.1)) (n_queue n);
}.

(** No peer goes, and each has only moved forward. *)
Definition net_evolved (n n' : Net) : Prop :=
  dom (n_peers n') = dom (n_peers n) /\
  forall id c c', n_peers n !! id = Some c -> n_peers n' !! id = Some c' -> evolved c c'.

Lemma net_evolved_same n n' : net_ok n -> n_peers n' = n_peers n -> net_evolved n n'.
Proof.
  intros Hn E. split; [by rewrite E|]. rewrite E. intros id c c' H H'. rewrite H in H'. injection H' as <-.
  by apply evolved_refl, conf_reachable_inv, (no_peers n Hn id).
Qed.

Lemma net_evolved_trans n1 n2 n3 : net_evolved n1 n2 -> net_evolved n2 n3 -> net_evolved n1 n3.
Proof using Type.
  intros [D1 E1] [D2 E2]. split; [by rewrite D2|]. intros id c c3 H H3.
  assert (id ∈ dom (n_peers n2)) as [c2 H2]%elem_of_dom by (rewrite D1; by eapply elem_of_dom_2).
  eapply evolved_trans; eauto.
Qed.

(** What a peer may run: a call of the facade. *)
Definition peer_step {A} (m : Mc A) : Prop := forall c t,
  conf_reachable c -> conf_reachable (ce_c (m (mkCEnv c t)).2) /\ evolved c (ce_c (m (mkCEnv c t)).2).

Lemma peer_call {A} (m : Mc A) call : run_conf call = cignore m -> peer_step m.
Proof.
  intros Hc c t Hr. destruct (cignore_env m (mkCEnv c t)) as [r H]. rewrite <- Hc in H.
  split; [exact (cre_call c call t r _ Hr H)|].
  pose proof (csafe_run call (mkCEnv c t) (conf_reachable_inv c Hr)) as [_ He]. by rewrite H in He.
Qed.

Lemma peer_gets {A} (f : CEnv -> A) : peer_step (gets f).
Proof. intros c t Hc. split; [done|]. by apply evolved_refl, conf_reachable_inv. Qed.

(** Network steps that keep the invariant; [tame] ones also keep the peers. *)
Definition nsafe {A} (m : Mn A) : Prop := forall e, net_ok (ne_net e) -> net_ok (ne_net (m e).2).

Lemma on_peer_spec {A} id report (m : Mc A) e :
  peer_step m -> net_ok (ne_net e) ->
  net_ok (ne_net (on_peer id report m e).2) /\ net_evolved (ne_net e) (ne_net (on_peer id report m e).2).
Proof.
  intros Hm Hn. unfold on_peer. destruct (n_peers (ne_net e) !! id) as [c|] eqn:E; [|by split; [|apply net_evolved_same]].
  destruct (no_peers _ Hn id c E) as [Hr Hid]. destruct (Hm c (ne_tape e) Hr) as [Hr' Hev].
  destruct (m (mkCEnv c (ne_tape e))) as [r [c' t']]. cbn [fst snd ce_c ce_tape ne_net] in *.
  split; [split|split]; cbn [insert_peer n_peers n_queue].
  - intros id' d [[<- <-]|[_ Hd]]%lookup_insert_Some; [|by apply (no_peers _ Hn)].
    split; [done|]. rewrite <- Hid. apply evolved_identity; [by apply conf_reachable_inv|done].
  - eapply Forall_impl; [apply (no_queue _ Hn)|]. intros en [d Hd]. apply lookup_insert_is_Some'. right. by exists d.
  - rewrite dom_insert_L. apply elem_of_dom_2 in E. set_solver.
  - intros id' d d' Hd [[<- <-]|[_ Hd']]%lookup_insert_Some; [rewrite E in Hd; by injection Hd as <-|].
    rewrite Hd in Hd'. injection Hd' as <-. by apply evolved_refl, conf_reachable_inv, (no_peers _ Hn id').
Qed.

Lemma send_peers from outbound ct n : n_peers (send from outbound ct n) = n_peers n.
Proof using Type.
  unfold send. revert n. induction outbound as [|m l IH]; intros n; [done|]. cbn [foldl]. rewrite IH.
  unfold send_one. by destruct ct.
Qed.

(** Where each message goes: to peers only, and to all others or to one. *)
Lemma send_one_queue from ct n m :
  n_queue (send_one from ct n m) =
  n_queue n ++ ((fun r => (r, cm_payload m)) <$> filter (fun r => is_Some (n_peers n !! r)) (fanout n from (cm_to m))).
Proof using Type. unfold send_one. by destruct ct. Qed.

Lemma send_ok from outbound ct n : net_ok n -> net_ok (send from outbound ct n).
Proof using Type.
  unfold send. revert n. induction outbound as [|m l IH]; intros n Hn; [done|]. cbn [foldl]. apply IH.
  destruct Hn as [Hp Hq]. split.
  - intros id c. unfold send_one. by destruct ct; apply Hp.
  - rewrite send_one_queue. apply Forall_app. split; [by destruct ct|].
    apply Forall_fmap, Forall_forall. intros r [Hr _]%list_elem_of_filter. cbn [compose fst]. by destruct ct.
Qed.
End invariant.

(** ** The queue drains *)

Lemma sum_list_with_perm {A} (f : A -> nat) l k : l ≡ₚ k -> sum_list_with f l = sum_list_with f k.
Proof. induction 1; simpl; lia. Qed.

Section rest.
Context {P : Primitives} {PO : PrimitivesOk P}.

Lemma total_room_insert (peers : gmap SigPublic Conference) id c :
  peers !! id = None -> total_room (<[id := c]> peers) = room (c_core c) + total_room peers.
Proof using Type.
  intros H. unfold total_room. rewrite (sum_list_with_perm _ _ _ (map_to_list_insert peers id c H)). done.
Qed.

Lemma total_room_update (peers : gmap SigPublic Conference) id c c' :
  peers !! id = Some c -> total_room (<[id := c']> peers) + room (c_core c) = total_room peers + room (c_core c').
Proof using Type.
  intros H. rewrite <- (insert_delete_id peers id c H) at 2. rewrite <- insert_delete_eq.
  rewrite !total_room_insert by apply lookup_delete_eq. lia.
Qed.

Lemma backlog_app q k : backlog_of (q ++ k) = backlog_of q + backlog_of k.
Proof using Type. unfold backlog_of. by rewrite sum_list_with_app. Qed.

(** What one peer makes of one message. *)
Lemma conf_handle_reply wire c t ev msgs e :
  conf_inv c -> settling wire -> conf_handle wire (mkCEnv c t) = (Ok (ev, msgs), e) ->
  exists answers ops, msgs = message_of <$> (answers ++ ops) /\ length answers < weight wire /\
    Forall key_answer answers /\ Forall op_broadcast ops /\ length ops + room (c_core (ce_c e)) <= room (c_core c).
Proof.
  intros [Hc _ _ _ _] Hq H. unfold conf_handle in H. inv_bind H. destruct a as [ev' out]. unfold on_core in Hm. cbn [ce_c ce_tape] in Hm.
  destruct (handle wire (mkEnv (c_core c) t)) as [[r|x] e1] eqn:Eh; [|done]. injection Hm as -> <-.
  destruct (handle_reply (fx := statics (c_core c)) (fun _ => I) wire (mkEnv (c_core c) t) ev' out e1 Hc Hq Eh) as (answers & ops & -> & Hl & Ha & Ho & Hp).
  pose proof (keeps_handle (fx := statics (c_core c)) wire (anything_all _) (mkEnv (c_core c) t) Hc) as Hk. rewrite Eh in Hk. cbn [snd e_p] in *.
  inv_bind H. rewrite (refresh_media_spec (statics (c_core c)) (mkConference (e_p e1) (c_media c))) in Hm by exact Hk.
  injection Hm as _ <-. injection H as _ <- <-. cbn [ce_c c_core].
  exists answers, ops. split; [done|]. split; [done|]. split; [done|]. split; [done|].
  replace (room (warm (e_p e1))) with (room (e_p e1)); [done|]. by destruct (warm_cases (e_p e1)) as [->| ->].
Qed.

(** The mail a reply causes. *)
Lemma answers_mail from ct answers n :
  Forall key_answer answers ->
  backlog_of (n_queue (send from (message_of <$> answers) ct n)) <= backlog_of (n_queue n) + length answers.
Proof using Type.
  unfold send. intros Ha. revert n. induction Ha as [|o l (to & fr & sealed & ->) _ IH]; intros n; cbn [fmap list_fmap foldl]; [simpl; lia|].
  etrans; [apply IH|]. rewrite send_one_queue, backlog_app. cbn [message_of direct cm_to ob_to recipient_of fanout cm_payload ob_payload].
  rewrite filter_cons, filter_nil. unfold backlog_of. cbn [length].
  destruct (decide _); cbn [fmap list_fmap sum_list_with snd]; rewrite ?weight_to_wire by done; lia.
Qed.

Lemma uniform_mail payload rs : weight payload = 1 -> backlog_of ((fun r : SigPublic => (r, payload)) <$> rs) = length rs.
Proof using Type. intros Hw. unfold backlog_of. induction rs as [|r rs IH]; [done|]. cbn [fmap list_fmap sum_list_with snd length]. rewrite Hw. f_equal. exact IH. Qed.

Lemma ops_mail from ct ops n :
  Forall op_broadcast ops ->
  backlog_of (n_queue (send from (message_of <$> ops) ct n))
  <= backlog_of (n_queue n) + size (n_peers n) * length ops.
Proof using Type.
  unfold send. intros Ha. revert n. induction Ha as [|o l (op & ->) _ IH]; intros n; cbn [fmap list_fmap foldl]; [simpl; lia|].
  etrans; [apply IH|]. rewrite send_one_queue, backlog_app.
  assert (n_peers (send_one from ct n (message_of (broadcast (MOp op)))) = n_peers n) as -> by (unfold send_one; by destruct ct).
  cbn [message_of broadcast cm_to ob_to recipient_of fanout cm_payload ob_payload]. rewrite uniform_mail by by apply weight_to_wire.
  cbn [length]. enough (length (filter (fun r => is_Some (n_peers n !! r)) (filter (fun i => i <> from) (bt_keys (n_peers n)))) <= size (n_peers n)) by lia.
  do 2 (etrans; [apply length_filter|]). unfold bt_keys. rewrite <- size_dom. by rewrite bt_elems_length.
Qed.

Lemma reply_mail from ct answers ops n :
  Forall key_answer answers -> Forall op_broadcast ops ->
  backlog_of (n_queue (send from (message_of <$> (answers ++ ops)) ct n))
  <= backlog_of (n_queue n) + length answers + size (n_peers n) * length ops.
Proof using Type.
  intros Ha Ho. rewrite fmap_app. unfold send. rewrite foldl_app. fold (send from (message_of <$> answers) ct n).
  fold (send from (message_of <$> ops) ct (send from (message_of <$> answers) ct n)).
  etrans; [by apply ops_mail|]. rewrite send_peers. pose proof (answers_mail from ct answers n Ha). lia.
Qed.

(** Only mail that is no synchronisation request. *)
Definition mail_settling (n : Net) : Prop := Forall (fun en => settling en.2) (n_queue n).

Lemma send_settling from ct msgs n :
  mail_settling n -> Forall (fun m => settling (cm_payload m)) msgs -> mail_settling (send from msgs ct n).
Proof using Type.
  unfold send. intros Hn Hm. revert n Hn. induction Hm as [|m l Hm _ IH]; intros n Hn; [done|]. cbn [foldl]. apply IH.
  unfold mail_settling. rewrite send_one_queue. apply Forall_app. split; [done|].
  apply Forall_fmap, Forall_forall. by intros r _.
Qed.

Lemma reply_settling answers ops :
  Forall key_answer answers -> Forall op_broadcast ops ->
  Forall (fun m => settling (cm_payload m)) (message_of <$> (answers ++ ops)).
Proof using Type.
  intros Ha Ho. apply Forall_fmap, Forall_app. split; [|exact (broadcasts_quiet _ Ho)].
  eapply Forall_impl; [exact Ha|]. intros o (to & fr & se & ->). by apply settling_to_wire.
Qed.

Lemma on_peer_eq {A} id report (m : Mc A) e c r ce :
  n_peers (ne_net e) !! id = Some c -> m (mkCEnv c (ne_tape e)) = (r, ce) ->
  on_peer id report m e = (map_err report r, mkNEnv (insert_peer id (ce_c ce) (ne_net e)) (ce_tape ce)).
Proof using Type. intros Hc Hm. unfold on_peer. by rewrite Hc, Hm. Qed.

(** The bound after a reply has been sent. *)
Lemma reply_fuel recipient payload queue ct n c c' answers ops :
  n_peers n !! recipient = Some c -> n_queue n = (recipient, payload) :: queue ->
  length answers < weight payload -> Forall key_answer answers -> Forall op_broadcast ops ->
  length ops + room (c_core c') <= room (c_core c) ->
  net_fuel (send recipient (message_of <$> (answers ++ ops)) ct
    (insert_peer recipient c' (mkNet (n_peers n) queue (n_traffic n)))) < net_fuel n.
Proof using Type.
  intros Hc Hq Hl Ha Ho Hr. unfold net_fuel. rewrite send_peers.
  set (n1 := insert_peer recipient c' _).
  pose proof (reply_mail recipient ct answers ops n1 Ha Ho) as Hmail. rewrite Hq.
  assert (size (n_peers n1) = size (n_peers n)) as Hsize by (cbn [n1 insert_peer n_peers]; by apply map_size_insert_Some).
  rewrite Hsize in *. pose proof (total_room_update (n_peers n) recipient c c' Hc) as Hroom.
  cbn [n1 insert_peer n_peers n_queue] in *. unfold backlog_of at 2. cbn [sum_list_with snd]. fold (backlog_of queue).
  assert (total_room (<[recipient := c']> (n_peers n)) + length ops <= total_room (n_peers n)) as Hle by lia.
  apply (Nat.mul_le_mono_l _ _ (size (n_peers n))) in Hle. lia.
Qed.

(** One delivery: the peers move forward, and the bound goes down. *)
Lemma deliver_drained recipient payload queue ct e :
  net_ok (ne_net e) -> n_queue (ne_net e) = (recipient, payload) :: queue -> mail_settling (ne_net e) ->
  let r := deliver_next recipient payload queue ct e in
  net_ok (ne_net r.2) /\ net_evolved (ne_net e) (ne_net r.2) /\ mail_settling (ne_net r.2) /\
  (is_ok r.1 = true -> net_fuel (ne_net r.2) < net_fuel (ne_net e)) /\ r.1 <> Err Unsettled.
Proof.
  intros Hn Hq Hm. set (n := mkNet (n_peers (ne_net e)) queue (n_traffic (ne_net e))).
  unfold mail_settling in Hm. rewrite Hq in Hm. apply Forall_cons in Hm as [Hw Hm]. cbn [snd] in Hw.
  pose proof (no_queue _ Hn) as Hto. rewrite Hq in Hto. apply Forall_cons in Hto as [[c Hc] Hto]. cbn [fst] in Hc.
  assert (net_ok n) as Hn1 by (split; [apply (no_peers _ Hn)|exact Hto]).
  destruct (no_peers _ Hn _ _ Hc) as [Hr%conf_reachable_inv _].
  unfold deliver_next. rewrite (bind_ok (on_net _) _ e tt (mkNEnv n (ne_tape e))) by reflexivity.
  destruct (on_peer_spec recipient (Delivery recipient) (conf_handle payload) (mkNEnv n (ne_tape e))
    (peer_call _ (CfHandle payload) eq_refl) Hn1) as [H1 H2]. cbn [ne_net] in H2.
  destruct (conf_handle payload (mkCEnv c (ne_tape e))) as [r ce] eqn:Eh.
  pose proof (on_peer_eq recipient (Delivery recipient) (conf_handle payload) (mkNEnv n (ne_tape e)) c r ce Hc Eh) as Eq.
  rewrite Eq in H1, H2. cbn [fst snd ne_net ne_tape] in *.
  assert (net_evolved (ne_net e) (insert_peer recipient (ce_c ce) n)) as Hev by exact H2. clear H2.
  destruct r as [[ev msgs]|x]; cbn [map_err] in Eq.
  - rewrite (bind_ok _ _ _ _ _ Eq). unfold on_net, modify. cbn [fst snd ne_net ne_tape is_ok].
    destruct (conf_handle_reply payload c (ne_tape e) ev msgs ce Hr Hw Eh) as (answers & ops & -> & Hl & Ha & Ho & Hroom).
    split; [by apply send_ok|]. split.
    { eapply net_evolved_trans; [exact Hev|]. apply net_evolved_same; [exact H1|apply send_peers]. }
    split; [apply send_settling; [exact Hm|by apply reply_settling]|]. split; [|done].
    intros _. by apply (reply_fuel recipient payload queue ct (ne_net e) c).
  - rewrite (bind_err _ _ _ _ _ Eq). cbn [fst snd ne_net]. by split_and!.
Qed.

Lemma queue_empty_fuel n : n_queue n <> [] -> 0 < net_fuel n.
Proof using Type.
  unfold net_fuel, backlog_of. destruct (n_queue n) as [|en q]; [done|]. intros _. cbn [sum_list_with].
  pose proof (weight_pos en.2). lia.
Qed.

Lemma settle_loop_spec fuel ct e :
  net_ok (ne_net e) -> mail_settling (ne_net e) -> net_fuel (ne_net e) <= fuel ->
  let r := settle_loop fuel ct e in
  net_ok (ne_net r.2) /\ net_evolved (ne_net e) (ne_net r.2) /\ mail_settling (ne_net r.2) /\
  (is_ok r.1 = true -> n_queue (ne_net r.2) = []) /\ r.1 <> Err Unsettled.
Proof.
  revert e. induction fuel as [|fuel IH]; intros e Hn Hm Hf; cbn [settle_loop];
    destruct (n_queue (ne_net e)) as [|[recipient payload] queue] eqn:Hq;
    try (cbn [fst snd]; split_and!; [done|by apply net_evolved_same|done..]).
  { pose proof (queue_empty_fuel (ne_net e)) as H. rewrite Hq in H. specialize (H ltac:(done)). lia. }
  destruct (deliver_drained recipient payload queue ct e Hn Hq Hm) as (H1 & H2 & H3 & H4 & H5).
  destruct (deliver_next recipient payload queue ct e) as [[u|x] e1] eqn:E; cbn [fst snd is_ok] in *.
  - rewrite (bind_ok _ _ _ _ _ E). destruct (IH e1 H1 H3) as (K1 & K2 & K3 & K4 & K5); [specialize (H4 eq_refl); lia|].
    split; [exact K1|]. split; [by eapply net_evolved_trans|done].
  - rewrite (bind_err _ _ _ _ _ E). by split_and!.
Qed.

(** C9. The queue drains.  While the queue holds no synchronisation request,
    [settle] returns: deliveries cause at most one direct answer each and an
    operation only for one newly stored, so what is stored, queued and still
    storable bounds them.  When it succeeds nothing is queued; however it ends,
    no peer is lost, every peer is a reachable conference whose history has only
    grown, and no synchronisation request has appeared. *)
Theorem settle_completes ct e :
  net_ok (ne_net e) -> mail_settling (ne_net e) ->
  let r := settle ct e in
  r.1 <> Err Unsettled /\ (is_ok r.1 = true -> n_queue (ne_net r.2) = []) /\
  net_ok (ne_net r.2) /\ net_evolved (ne_net e) (ne_net r.2) /\ mail_settling (ne_net r.2).
Proof.
  intros Hn Hm. destruct (settle_loop_spec (net_fuel (ne_net e)) ct e Hn Hm (Nat.le_refl _)) as (H1 & H2 & H3 & H4 & H5).
  by split_and!.
Qed.
End rest.

(** ** The scenarios come to rest *)

Section scenarios_rest.
Context {P : Primitives} {PO : PrimitivesOk P}.

Definition quiet_mail (msgs : list CMessage) : Prop := Forall (fun m => settling (cm_payload m)) msgs.

Lemma quiet_outbound out : Forall no_sync out -> quiet_mail (message_of <$> out).
Proof using Type. intros H. by apply Forall_fmap. Qed.

Definition cyields {A} (m : Mc A) (Q : A -> Prop) : Prop := forall e a e', m e = (Ok a, e') -> Q a.

Lemma cyields_true {A} (m : Mc A) : cyields m (fun _ => True).
Proof using Type. by intros e a e'. Qed.

Lemma on_core_yields {A} (m : Mp A) Q : yields m Q -> cyields (on_core m) Q.
Proof using Type.
  intros Hm e a e'. unfold on_core. destruct (m _) as [r e1] eqn:E. intros [= Hr _].
  destruct r as [b|x]; [injection Hr as <-|done]. by eapply Hm.
Qed.

Lemma then_refresh_yields (m : Mp (list Outbound)) :
  yields m (Forall no_sync) -> cyields (out ← on_core m; _ ← refresh_media; mret (message_of <$> out)) quiet_mail.
Proof using Type.
  intros Hm e a e' H. inv_bind H. inv_bind H. injection H as <- _. apply quiet_outbound. by eapply (on_core_yields m).
Qed.

Lemma yields_impl {A} (m : Mp A) (Q R : A -> Prop) : yields m Q -> (forall a, Q a -> R a) -> yields m R.
Proof using Type. intros H HQ e a e' E. by eapply HQ, H. Qed.

Lemma invite_quiet kp : cyields (conf_invite kp) quiet_mail.
Proof using Type. apply then_refresh_yields, yields_invite. Qed.
Lemma evict_quiet who : cyields (conf_evict who) quiet_mail.
Proof using Type. apply then_refresh_yields. eapply yields_impl; [apply yields_remove|apply broadcasts_quiet]. Qed.
Lemma rekey_quiet : cyields conf_rekey quiet_mail.
Proof using Type. apply then_refresh_yields. eapply yields_impl; [apply yields_contribute|apply broadcasts_quiet]. Qed.
Lemma heal_quiet : cyields conf_heal quiet_mail.
Proof using Type.
  intros e a e' H. unfold conf_heal in H. inv_bind H. inv_bind H. injection H as <- _. apply Forall_cons.
  split; [|by eapply rekey_quiet]. apply op_broadcast_no_sync. by eapply (on_core_yields _ _ yields_rotate).
Qed.

(** The network at rest or on its way there. *)
Definition calm_net (n : Net) : Prop := net_ok n /\ mail_settling n.

(** Keeps the network so, returns, and yields results with a property. *)
Definition rests {A} (m : Mn A) (Q : A -> Prop) : Prop := forall e, calm_net (ne_net e) ->
  calm_net (ne_net (m e).2) /\ match (m e).1 with Ok a => Q a | Err x => x <> Unsettled end.

Lemma rests_ret {A} (a : A) (Q : A -> Prop) : Q a -> rests (mret a) Q.
Proof using Type. intros H e He. by split. Qed.
Lemma rests_fail {A} x (Q : A -> Prop) : x <> Unsettled -> rests (fail x) Q.
Proof using Type. intros H e He. by split. Qed.
Lemma rests_gets {A} (f : NEnv -> A) : rests (gets f) (fun _ => True).
Proof using Type. intros e He. by split. Qed.
Lemma rests_bind {A B} (m : Mn A) (f : A -> Mn B) (R : A -> Prop) Q :
  rests m R -> (forall a, R a -> rests (f a) Q) -> rests (m ≫= f) Q.
Proof using Type.
  intros Hm Hf e He. destruct (Hm e He) as [H1 H2]. unfold mbind, M_bind.
  destruct (m e) as [[a|x] e1]; cbn [fst snd] in *; [by apply Hf|done].
Qed.
Lemma rests_then {A B} (m : Mn A) (f : A -> Mn B) Q :
  rests m (fun _ => True) -> (forall a, rests (f a) Q) -> rests (m ≫= f) Q.
Proof using Type. intros Hm Hf. by eapply rests_bind. Qed.

Lemma rests_on_net f : (forall n, calm_net n -> calm_net (f n)) -> rests (on_net f) (fun _ => True).
Proof using Type. intros Hf e He. split; [by apply Hf|done]. Qed.

Lemma rests_on_peer {A} id report (m : Mc A) Q :
  (forall x, report x <> Unsettled) -> peer_step m -> cyields m Q -> rests (on_peer id report m) Q.
Proof.
  intros Hrep Hp Hy e [Hn Hm]. destruct (on_peer_spec id report m e Hp Hn) as [H1 _].
  unfold on_peer in *. destruct (n_peers (ne_net e) !! id) as [c|]; [|by split].
  destruct (m (mkCEnv c (ne_tape e))) as [[a|x] ce] eqn:E; cbn [fst snd map_err] in *; (split; [by split|]); [by eapply Hy|done].
Qed.

Lemma rests_settle ct : rests (settle ct) (fun _ => True).
Proof.
  intros e [Hn Hm]. destruct (settle_loop_spec (net_fuel (ne_net e)) ct e Hn Hm (Nat.le_refl _)) as (H1 & _ & H3 & _ & H5).
  fold (settle ct e) in *. split; [done|]. destruct (settle ct e).1; [done|]. congruence.
Qed.

Lemma rests_send from msgs ct : quiet_mail msgs -> rests (on_net (send from msgs ct)) (fun _ => True).
Proof using Type. intros Hq. apply rests_on_net. intros n [Hn Hm]. split; [by apply send_ok|by apply send_settling]. Qed.

Lemma rests_reset : rests (on_net reset_traffic) (fun _ => True).
Proof using Type. apply rests_on_net. intros n [[Hp Hq] Hm]. by split. Qed.

Lemma rests_record m : rests (on_net (net_record m)) (fun _ => True).
Proof using Type. apply rests_on_net. intros n [[Hp Hq] Hm]. by split. Qed.

Lemma rests_insert id c : conf_reachable c -> conf_identity c = id -> rests (on_net (insert_peer id c)) (fun _ => True).
Proof using Type.
  intros Hc Hid. apply rests_on_net. intros n [[Hp Hq] Hm]. split; [|done]. split.
  - intros id' d. cbn [insert_peer n_peers]. intros [[<- <-]|[_ Hd]]%lookup_insert_Some; [done|by apply Hp].
  - eapply Forall_impl; [exact Hq|]. intros en [d Hd]. cbn [insert_peer n_peers].
    apply lookup_insert_is_Some'. right. by exists d.
Qed.

Lemma rests_on_tape {A} context (m : M Tape ConfError A) Q :
  (forall t a t', m t = (Ok a, t') -> Q a) -> rests (on_tape context m) Q.
Proof using Type.
  intros Hm e He. unfold on_tape. destruct (m (ne_tape e)) as [[a|x] t] eqn:E; cbn [fst snd map_err]; (split; [done|]); [by eapply Hm|done].
Qed.
Lemma rests_index ids i : rests (at_index ids i) (fun _ => True).
Proof using Type. unfold at_index. destruct (ids !! i); [by apply rests_ret|by apply rests_fail]. Qed.
End scenarios_rest.

Create HintDb rests discriminated.

(** Walks a scenario down to the calls on peers. *)
Ltac rests_walk :=
  repeat first
    [ progress cbn zeta
    | solve [eauto with rests nocore]
    | lazymatch goal with
      | |- rests (mret _) _ => apply rests_ret
      | |- rests (fail _) _ => apply rests_fail; discriminate
      | |- rests (match ?x with _ => _ end) _ => destruct x
      | |- rests (on_peer _ _ _ ≫= _) _ =>
          first [eapply rests_bind; [solve [eauto with rests nocore]|intros ? ?] | fail 2 "on_peer"]
      | |- rests (_ ≫= _) _ => eapply rests_bind; [|intros ? ?]
      end ].

Section scenarios_spec.
Context {P : Primitives} {PO : PrimitivesOk P}.

Lemma wrap_identity core out : part_ok (statics core) core -> conf_identity (wrap core out).1 = p_ipk core.
Proof using Type.
  intros Hc. unfold wrap. cbn [fst]. rewrite (refresh_media_spec (statics core)) by exact Hc. cbn [fst snd ce_c].
  unfold conf_identity. cbn [c_core]. apply warm_ipk.
Qed.

Lemma conf_create_spec policy t r t' :
  conf_create policy t = (Ok r, t') -> conf_reachable r.1 /\ quiet_mail r.2.
Proof using Type.
  intros H. destruct r as [c out]. split; [exact (cre_create _ _ _ _ _ H)|]. unfold conf_create in H.
  destruct (create policy t) as [[[p o]|x] t1] eqn:E; [|done].
  assert ((wrap p o).2 = out) as <- by (destruct (wrap p o); by injection H as -> -> _).
  apply quiet_outbound. by eapply create_no_sync.
Qed.

Lemma accept_identity j wire t p out t' :
  accept_welcome j wire t = (Ok (p, out), t') -> p_ipk p = sig_public (pj_identity j).
Proof.
  intros H. pose proof (reachable_ok p (reach_accept _ _ _ _ _ _ H)) as Hp. rewrite (ok_key _ Hp). f_equal.
  unfold accept_welcome in H. inv_bind H.
  destruct a as [op|sid from sealed history pruned|from hs|os pr|from ns|from se|c];
    [discriminate H| |discriminate H..]. do 2 inv_bind H. destruct a0 as [seed0 nks].
  injection Hm as Hm _. apply from_wire_valid in Hm.
  injection Hm1 as Hm1 _. apply (run_reader_ok (f := read_welcome_payload)) in Hm1 as [[_ [HF _]] _].
  pose proof (new_ok (pj_identity j) sid (pj_policy j) seed0 (pj_prekeys j) anything) as H0.
  pose proof (presented_all (fx := mkStatics (pj_identity j) sid (pj_policy j) seed0 dag_new ∅ anything) history
    (fun _ => I) (ops_valid_built _ (proj1 (proj2 (proj2 (proj2 Hm)))))) as Hh.
  pose proof (run_on_ok _ _ _ _ _ _ _ (keeps_join nks history HF Hh) H0 H) as Hok.
  pose proof (ok_statics _ Hok) as S. by injection S.
Qed.

Lemma joining_accept_spec j wire t r t' :
  joining_accept j wire t = (Ok r, t') ->
  conf_reachable r.1 /\ conf_identity r.1 = joining_identity j /\ quiet_mail r.2.
Proof.
  intros H. destruct r as [c out]. split; [exact (cre_accept _ _ _ _ _ _ H)|]. unfold joining_accept in H.
  destruct (accept_welcome j wire t) as [[[p o]|x] t1] eqn:E; [|done].
  pose proof (reachable_ok p (reach_accept _ _ _ _ _ _ E)) as Hp.
  assert (wrap p o = (c, out)) as Hw by congruence. cbn [fst snd]. split.
  - pose proof (wrap_identity p o Hp) as Hi. rewrite Hw in Hi. cbn [fst] in Hi. rewrite Hi. by eapply accept_identity.
  - assert ((wrap p o).2 = out) as <- by (by rewrite Hw). apply quiet_outbound. by eapply accept_no_sync.
Qed.

Lemma rests_version id : rests (on_peer id (fun _ => Panicked) conf_version) (fun _ => True).
Proof. apply rests_on_peer; [done|by apply (peer_call _ CfVersion)|apply cyields_true]. Qed.
Lemma rests_ready id : rests (on_peer id (fun _ => Panicked) conf_ready) (fun _ => True).
Proof. apply rests_on_peer; [done|by apply (peer_call _ CfReady)|apply cyields_true]. Qed.
Lemma rests_members id : rests (on_peer id (fun _ => Panicked) conf_members) (fun _ => True).
Proof. apply rests_on_peer; [done|by apply (peer_call _ CfMembers)|apply cyields_true]. Qed.
Lemma rests_resync id : rests (on_peer id (fun _ => Panicked) conf_resync) (fun _ => True).
Proof. apply rests_on_peer; [done|by apply (peer_call _ CfResync)|apply cyields_true]. Qed.
Lemma rests_peer_gets {A} id (f : CEnv -> A) : rests (on_peer id (fun _ => Panicked) (gets f)) (fun _ => True).
Proof. apply rests_on_peer; [done|apply peer_gets|apply cyields_true]. Qed.
Lemma rests_invite id context kp : rests (on_peer id (InContext context) (conf_invite kp)) quiet_mail.
Proof. apply rests_on_peer; [done|by apply (peer_call _ (CfInvite kp))|apply invite_quiet]. Qed.
Lemma rests_evict id context who : rests (on_peer id (InContext context) (conf_evict who)) quiet_mail.
Proof. apply rests_on_peer; [done|by apply (peer_call _ (CfEvict who))|apply evict_quiet]. Qed.
Lemma rests_rekey id context : rests (on_peer id (InContext context) conf_rekey) quiet_mail.
Proof. apply rests_on_peer; [done|by apply (peer_call _ CfRekey)|apply rekey_quiet]. Qed.
Lemma rests_heal id context : rests (on_peer id (InContext context) conf_heal) quiet_mail.
Proof. apply rests_on_peer; [done|by apply (peer_call _ CfHeal)|apply heal_quiet]. Qed.
Lemma rests_protect id context codec frame kf :
  rests (on_peer id (InContext context) (conf_protect codec frame kf)) (fun _ => True).
Proof. apply rests_on_peer; [done|by apply (peer_call _ (CfProtect codec frame kf))|apply cyields_true]. Qed.
Lemma rests_open id context packet : rests (on_peer id (InContext context) (conf_open packet)) (fun _ => True).
Proof. apply rests_on_peer; [done|by apply (peer_call _ (CfOpen packet))|apply cyields_true]. Qed.

#[local] Hint Resolve rests_version rests_ready rests_members rests_resync rests_peer_gets rests_invite
  rests_evict rests_rekey rests_heal rests_protect rests_open rests_gets rests_settle rests_send
  rests_reset rests_record rests_index : rests.

Lemma rests_check expected version ids : rests (check_peers expected version ids) (fun _ => True).
Proof. induction ids as [|id ids IH]; cbn [check_peers]; rests_walk; done. Qed.
#[local] Hint Resolve rests_check : rests.

Lemma rests_agreement expected : rests (assert_agreement expected) (fun _ => True).
Proof. unfold assert_agreement. rests_walk. Qed.
#[local] Hint Resolve rests_agreement : rests.

Lemma rests_measured op action : rests action (fun _ => True) -> rests (measured op action) (fun _ => True).
Proof. intros Ha. unfold measured. rests_walk. Qed.

Lemma quiet_sublist (Q : CMessage -> Prop) {HQ : forall m, Decision (Q m)} msgs : quiet_mail msgs -> quiet_mail (filter Q msgs).
Proof using Type. intros H. apply Forall_forall. intros m [_ Hm]%list_elem_of_filter. by eapply Forall_forall in H. Qed.
#[local] Hint Resolve quiet_sublist : rests.

Lemma rests_join founder : rests (join_one founder) (fun _ => True).
Proof.
  unfold join_one. eapply rests_bind; [by apply rests_on_tape with (Q := fun _ => True)|intros joining _]. cbn zeta.
  eapply rests_bind; [apply rests_reset|intros _ _]. eapply rests_bind; [apply rests_invite|intros outbound Ho].
  destruct (List.find _ outbound) as [welcome|]; [|by apply rests_fail].
  eapply rests_bind; [apply rests_on_tape, joining_accept_spec|intros r (Hr & Hi & Hq)].
  eapply rests_bind; [by apply rests_insert|intros _ _]. rests_walk; done.
Qed.
#[local] Hint Resolve rests_join : rests.

Lemma rests_joins k founder w : rests (join_all k founder w) (fun _ => True).
Proof. revert w. induction k as [|k IH]; intros w; cbn [join_all]; rests_walk; done. Qed.
#[local] Hint Resolve rests_joins : rests.

Lemma rests_build participants : rests (build_conference participants) (fun _ => True).
Proof.
  unfold build_conference. eapply rests_bind; [apply rests_on_tape, conf_create_spec|intros [founder outbound] [Hr Hq]].
  cbn zeta. cbn [fst snd] in *. eapply rests_bind.
  { apply rests_on_net. intros n _. split; [split|constructor].
    - intros id c. cbn [insert_peer net_new n_peers]. intros [[<- <-]|[_ H]]%lookup_insert_Some; [done|].
      by rewrite lookup_empty in H.
    - constructor. }
  intros _ _. rests_walk; done.
Qed.
#[local] Hint Resolve rests_build : rests.

Lemma rests_rotation ids participants : rests (measure_rotation ids participants) (fun _ => True).
Proof.
  unfold measure_rotation. eapply rests_bind; [apply rests_index|intros first _].
  eapply rests_bind; [apply rests_version|intros v _]. apply rests_measured. rests_walk; done.
Qed.
Lemma rests_evictions evictors victim : rests (evict_each evictors victim) (fun _ => True).
Proof. induction evictors as [|i l IH]; cbn [evict_each]; rests_walk; done. Qed.
#[local] Hint Resolve rests_evictions rests_rotation : rests.
Lemma rests_eviction ids : rests (measure_eviction ids) (fun _ => True).
Proof.
  unfold measure_eviction. destruct (last ids); [|by apply rests_fail]. apply rests_measured. rests_walk; done.
Qed.
Lemma rests_healing ids : rests (measure_healing ids) (fun _ => True).
Proof. unfold measure_healing. apply rests_measured. rests_walk. Qed.
Lemma rests_rounds k sender frame sealed : rests (protect_rounds k sender frame sealed) (fun _ => True).
Proof. revert sealed. induction k as [|k IH]; intros sealed; cbn [protect_rounds]; rests_walk; done. Qed.
#[local] Hint Resolve rests_rounds rests_eviction rests_healing : rests.
Lemma rests_media frame ids rounds : rests (measure_media_of frame ids rounds) (fun _ => True).
Proof. unfold measure_media_of. rests_walk; done. Qed.

Lemma rests_lift {A} (r : result BenchError A) : (forall x, r = Err x -> x <> Unsettled) -> rests (lift r) (fun _ => True).
Proof using Type. intros H e He. split; [done|]. cbn. destruct r; [done|by apply H]. Qed.

Lemma rests_run config : rests (run_bench config) (fun _ => True).
Proof.
  unfold run_bench. eapply rests_bind; [apply rests_build|intros prepared _]. cbn zeta.
  eapply rests_bind; [apply rests_rotation|intros rotation _].
  eapply rests_bind; [apply rests_eviction|intros eviction _].
  eapply rests_bind; [apply rests_healing|intros healing _].
  eapply rests_bind; [apply (rests_media media_frame)|intros [media overhead] _].
  eapply rests_bind; [apply rests_index|intros first _].
  do 2 (eapply rests_bind; [apply rests_peer_gets|intros ? _]).
  eapply rests_bind; [apply rests_resync|intros sync _].
  destruct (List.find _ sync) as [m|]; [|by apply rests_fail].
  eapply rests_bind; [apply rests_lift|intros [] _]; try (by apply rests_fail); [|by apply rests_ret].
  intros x. destruct (message_from_wire _); [done|]. by intros [= <-].
Qed.

(** C10. A network run stays within every peer's invariants and ends.  Whatever
    the configuration, the entropy and the outcome of the benchmark, an error in
    the middle included, it returns; afterwards every peer is a conference
    reached by founding or joining and the facade's own calls, under its own
    identity, mail is queued for peers only, and none of it asks for a
    synchronisation. *)
Theorem network_invariant config t :
  let r := run_bench config (mkNEnv net_new t) in
  r.1 <> Err Unsettled /\ net_ok (ne_net r.2) /\ mail_settling (ne_net r.2) /\
  forall id c, n_peers (ne_net r.2) !! id = Some c -> conf_inv c.
Proof.
  assert (calm_net net_new) as H0.
  { split; [split|constructor]; [|constructor]. intros id c. cbn [net_new n_peers]. by rewrite lookup_empty. }
  destruct (rests_run config (mkNEnv net_new t) H0) as [[H1 H2] H3]. cbn zeta. split_and!; [|done|done|].
  - intros E. by rewrite E in H3.
  - intros id c Hc. by apply conf_reachable_inv, (no_peers _ H1 id).
Qed.
End scenarios_spec.

(** ** Agreement *)

Section agreement.
Context {P : Primitives} {PO : PrimitivesOk P}.

(** What the others can compare: the group key, the roster and the version. *)
Definition view (c : Conference) : option bytes * gset SigPublic * bytes :=
  (current_key (c_core c), current_members (c_core c), current_label (c_core c)).

Definition views (n : Net) : gmap SigPublic (option bytes * gset SigPublic * bytes) := view <$> n_peers n.

Lemma view_warmed c : view (warmed c) = view c.
Proof using Type. unfold view, warmed. cbn [c_core]. by rewrite warm_key, warm_members, warm_label. Qed.

(** A read-only method: a function of the view that leaves it alone. *)
Definition reads {A} (m : Mc A) (f : option bytes * gset SigPublic * bytes -> A) : Prop :=
  forall c t, conf_inv c -> m (mkCEnv c t) = (Ok (f (view c)), mkCEnv (warmed c) t).

Lemma version_reads : reads conf_version (fun v => v.2).
Proof using Type. intros c t Hc. by apply (read_version_label (fx := statics (c_core c))), Hc. Qed.
Lemma roster_reads : reads conf_members (fun v => v.1.2).
Proof using Type. intros c t Hc. by apply (read_members (fx := statics (c_core c))), Hc. Qed.
Lemma reads_ready : reads conf_ready (fun v => match v.1.1 with Some _ => true | None => false end).
Proof using Type.
  intros c t Hc. pose proof (read_group_key (fx := statics (c_core c)) c t (ci_core c Hc)) as H.
  unfold conf_ready, on_core, can_derive in *. cbn [ce_c ce_tape] in *. unfold mbind, M_bind.
  destruct (p_group_key (mkEnv (c_core c) t)) as [[k|x] e1]; [|done]. injection H as -> Hw <-.
  unfold mret, M_ret, warmed. cbn [map_err]. do 2 f_equal. by rewrite Hw.
Qed.

Lemma peer_reads {A} id report (m : Mc A) f call e w :
  run_conf call = cignore m -> reads m f -> net_ok (ne_net e) -> views (ne_net e) !! id = Some w ->
  exists e', on_peer id report m e = (Ok (f w), e') /\ net_ok (ne_net e') /\ views (ne_net e') = views (ne_net e).
Proof.
  intros Hcall Hm Hn Hw. destruct (on_peer_spec id report m e (peer_call m call Hcall) Hn) as [Hn' _].
  unfold views in *. apply lookup_fmap_Some in Hw as (c & <- & Hc).
  destruct (no_peers _ Hn id c Hc) as [Hr%conf_reachable_inv _].
  pose proof (on_peer_eq id report m e c _ _ Hc (Hm c (ne_tape e) Hr)) as E. rewrite E in Hn'.
  eexists. split; [exact E|]. split; [exact Hn'|]. cbn [ne_net insert_peer n_peers ce_c].
  rewrite fmap_insert, view_warmed. apply insert_id. by rewrite lookup_fmap, Hc.
Qed.

(** One peer passes the check. *)
Definition agrees (expected : N) (version : bytes) (w : option bytes * gset SigPublic * bytes) : Prop :=
  w.1.1 <> None /\ N.of_nat (size w.1.2) = expected /\ w.2 = version.

Lemma check_peers_spec expected version ids e :
  net_ok (ne_net e) -> Forall (fun id => is_Some (views (ne_net e) !! id)) ids ->
  (check_peers expected version ids e).1 = Ok tt <->
  forall id w, id ∈ ids -> views (ne_net e) !! id = Some w -> agrees expected version w.
Proof.
  revert e. induction ids as [|id ids IH]; intros e Hn Hids.
  { split; [|done]. intros _ id w H. by apply elem_of_nil in H. }
  apply Forall_cons in Hids as [[w Hw] Hids]. cbn [check_peers].
  destruct (peer_reads id (fun _ => Panicked) conf_ready _ CfReady e w eq_refl reads_ready Hn Hw) as (e1 & E1 & N1 & V1).
  rewrite (bind_ok _ _ _ _ _ E1). rewrite <- V1 in Hw, Hids.
  assert (forall Q : Prop, (Q <-> agrees expected version w /\
      forall id' w', id' ∈ ids -> views (ne_net e) !! id' = Some w' -> agrees expected version w') ->
    (Q <-> forall id' w', id' ∈ id :: ids -> views (ne_net e) !! id' = Some w' -> agrees expected version w')) as Hcons.
  { intros Q ->. rewrite V1 in Hw. split.
    - intros [Hh Ht] id' w' [->|Hin]%elem_of_cons Hw'; [congruence|by eapply Ht].
    - intros H. split; [eapply H; [apply list_elem_of_here|done]|].
      intros id' w' Hin. apply H. by apply list_elem_of_further. }
  apply Hcons. clear Hcons. unfold agrees at 1.
  destruct w.1.1 as [k|]; cbn [negb]; [|split; [done|by intros [[? _] _]]].
  destruct (peer_reads id (fun _ => Panicked) conf_members _ CfMembers e1 w eq_refl roster_reads N1 Hw) as (e2 & E2 & N2 & V2).
  rewrite (bind_ok _ _ _ _ _ E2). rewrite <- V2 in Hw, Hids.
  destruct (N.eqb_spec (N.of_nat (size w.1.2)) expected) as [Hs|Hs]; cbn [negb]; [|split; [done|by intros [(_ & ? & _) _]]].
  destruct (peer_reads id (fun _ => Panicked) conf_version _ CfVersion e2 w eq_refl version_reads N2 Hw) as (e3 & E3 & N3 & V3).
  rewrite (bind_ok _ _ _ _ _ E3). rewrite <- V3 in Hids.
  destruct (decide (w.2 <> version)) as [Hv|Hv]; [split; [done|by intros [(_ & _ & ?) _]]|].
  apply dec_stable in Hv. rewrite (IH e3 N3 Hids), V3, V2, V1. split; [|by intros [_ ?]]. intros H. by split; [split_and!|].
Qed.

(** The agreement check is exact: it passes if and only if there is a peer
    and all peers can derive the group key, count the expected number of members
    and are at one and the same version. *)
Theorem agreement_exact expected e :
  net_ok (ne_net e) ->
  (assert_agreement expected e).1 = Ok tt <->
  n_peers (ne_net e) <> ∅ /\ exists version, forall id c, n_peers (ne_net e) !! id = Some c ->
    current_key (c_core c) <> None /\ N.of_nat (size (current_members (c_core c))) = expected /\
    current_label (c_core c) = version.
Proof.
  intros Hn. unfold assert_agreement.
  rewrite (bind_ok (gets _) _ e (bt_keys (n_peers (ne_net e))) e) by reflexivity.
  assert (Forall (fun id => is_Some (views (ne_net e) !! id)) (bt_keys (n_peers (ne_net e)))) as Hids.
  { apply Forall_forall. intros id [c Hc]%elem_of_bt_keys. unfold views. rewrite lookup_fmap, Hc. by eexists. }
  assert (forall version, (forall id c, n_peers (ne_net e) !! id = Some c ->
      current_key (c_core c) <> None /\ N.of_nat (size (current_members (c_core c))) = expected /\
      current_label (c_core c) = version) <->
    (forall id w, id ∈ bt_keys (n_peers (ne_net e)) -> views (ne_net e) !! id = Some w -> agrees expected version w)) as Hall.
  { intros version. split.
    - intros H id w _ (c & <- & Hc)%lookup_fmap_Some. exact (H id c Hc).
    - intros H id c Hc. apply (H id (view c)); [apply elem_of_bt_keys; by exists c|]. unfold views. by rewrite lookup_fmap, Hc. }
  setoid_rewrite Hall. clear Hall. destruct (bt_keys (n_peers (ne_net e))) as [|first ids] eqn:Ek.
  { split; [done|]. intros [Hne _]. destruct (map_choose _ Hne) as (id & c & Hc).
    assert (id ∈ bt_keys (n_peers (ne_net e))) as Hin by (apply elem_of_bt_keys; by exists c).
    rewrite Ek in Hin. by apply elem_of_nil in Hin. }
  pose proof Hids as [[w Hw] _]%Forall_cons.
  destruct (peer_reads first (fun _ => Panicked) conf_version _ CfVersion e w eq_refl version_reads Hn Hw) as (e1 & E1 & N1 & V1).
  rewrite (bind_ok _ _ _ _ _ E1). rewrite <- V1 in Hids. rewrite (check_peers_spec expected _ _ e1 N1 Hids), V1. split.
  - intros H. split; [|by exists w.2]. intros Hemp. unfold views in Hw. by rewrite Hemp, lookup_fmap, lookup_empty in Hw.
  - intros [_ [version H]]. replace w.2 with version; [done|]. symmetry.
    by destruct (H first w (list_elem_of_here _ _) Hw) as (_ & _ & ?).
Qed.
End agreement.

(** ** The command line admits what the scenarios need *)

Lemma parse_digits_bound max acc s n : (acc <= max)%N -> parse_digits max acc s = Some n -> (n <= max)%N.
Proof.
  revert acc. induction s as [|c s IH]; intros acc Ha; cbn [parse_digits]; [by intros [= <-]|].
  destruct (digit_of c) as [d|]; [|done]. destruct (N.ltb_spec max (acc * 10 + d)); [done|]. by apply IH.
Qed.

Lemma parse_unsigned_bound max s n : parse_unsigned max s = Some n -> (n <= max)%N.
Proof.
  unfold parse_unsigned. destruct (String.list_ascii_of_string s) as [|c cs]; [done|].
  case_decide; [destruct cs; [done|]|]; apply parse_digits_bound; lia.
Qed.

Lemma parse_pairs_bound args config config' :
  parse_pairs args config = Ok config' ->
  (bc_participants config <= USIZE_MAX)%N -> (bc_media_rounds config <= U32_MAX)%N ->
  (bc_participants config' <= USIZE_MAX)%N /\ (bc_media_rounds config' <= U32_MAX)%N.
Proof.
  remember (length args) as k eqn:Ek. assert (length args <= k) as Hk by lia. clear Ek. revert args config Hk.
  induction k as [|k IH]; intros [|a [|v args]] config Hk; cbn [parse_pairs length] in *; try done; try lia;
    try (intros [= <-]; done).
  case_decide as Ha.
  - destruct (parse_unsigned USIZE_MAX v) as [n|] eqn:E; [|done]. intros H _ Hr.
    apply (IH args _ ltac:(lia) H); [by apply (parse_unsigned_bound _ v)|done].
  - case_decide as Hb; [|done]. destruct (parse_unsigned U32_MAX v) as [n|] eqn:E; [|done]. intros H Hp _.
    apply (IH args _ ltac:(lia) H); [done|by apply (parse_unsigned_bound _ v)].
Qed.

(** Every accepted command line has the eight participants the scenarios index
    and at least one round of media, within the widths of its types. *)
Lemma args_bounds args config :
  parse_args args = Ok config ->
  (MIN_PARTICIPANTS <= bc_participants config <= USIZE_MAX)%N /\ (1 <= bc_media_rounds config <= U32_MAX)%N.
Proof.
  unfold parse_args. destruct (parse_pairs args bench_default) as [c|x] eqn:E; [|done]. cbn [mbind result_bind].
  destruct (parse_pairs_bound args bench_default c E ltac:(done) ltac:(done)) as [H1 H2].
  destruct (N.ltb_spec (bc_participants c) MIN_PARTICIPANTS); [done|].
  destruct (N.eqb_spec (bc_media_rounds c) 0); [done|]. intros [= <-]. lia.
Qed.

Lemma args_read :
  parse_args ["--rounds"; "+20"; "--participants"; "12"]%string = Ok (mkBenchConfig 12 20) /\
  parse_args ["--participants"; "7"]%string = Err (Usage "too few" "--participants") /\
  parse_args ["--rounds"; "4294967296"]%string = Err (Usage "invalid media round count" "4294967296").
Proof. by vm_compute. Qed.

(** ** A run, and witnesses *)

Definition ex_net_tape : Tape :=
  (fun k => Some (be_bytes 4 (N.of_nat k * 7919 + 13) ++ array_of (byte_of (N.of_nat k)) 28)) <$> seq 0 100.

(** A founder, one who joins, and three frames between them: four control
    messages for the join, and 65 bytes of tag and trailer on a frame. *)
Definition ex_scenario : Mn (N * N) :=
  prepared ← build_conference (P := Toy) 2;
  media ← measure_media_of (P := Toy) (bstr "a frame") (pc_identities prepared) 3;
  mret (tr_messages (me_traffic (pc_join prepared)), media.2).

Lemma ex_scenario_runs : (ex_scenario (mkNEnv net_new ex_net_tape)).1 = Ok (4, 65)%N.
Proof. vm_compute. reflexivity. Qed.

(** Two peers and one message on its way to the second. *)
Definition two_net (a b : Conference) (payload : bytes) : Net :=
  mkNet (<[conf_identity a := a]> (<[conf_identity b := b]> ∅)) [(conf_identity b, payload)] traffic_default.

Lemma two_net_ok {P : Primitives} a b payload : conf_reachable a -> conf_reachable b -> net_ok (two_net a b payload).
Proof.
  intros Ha Hb. split; cbn [two_net n_peers n_queue].
  - intros id c [[<- <-]|[_ [[<- <-]|[_ H]]%lookup_insert_Some]]%lookup_insert_Some; [done|done|].
    by rewrite lookup_empty in H.
  - apply Forall_singleton. cbn [fst]. apply lookup_insert_is_Some'. right. apply lookup_insert_is_Some'. by left.
Qed.

Lemma two_net_settling {P : Primitives} a b payload : settling payload -> mail_settling (two_net a b payload).
Proof. intros H. by apply Forall_singleton. Qed.

(** Alice has invited Bob, and her contribution is on its way to him. *)
Definition ex_net : Net := two_net ex_ca ex_cb0 ex_contribution.

Lemma ex_net_ok : net_ok (P := Toy) ex_net.
Proof. exact (two_net_ok (P := Toy) ex_ca ex_cb0 ex_contribution ex_ca_reachable ex_cb0_reachable). Qed.

Definition is_sync (wire : bytes) : bool :=
  match message_from_wire (P := Toy) wire with Ok (MSync _ _) => true | _ => false end.

Lemma not_sync_settling wire : is_sync wire = false -> settling (P := Toy) wire.
Proof. unfold is_sync. intros H from heads E. by rewrite E in H. Qed.

Lemma ex_net_settling : mail_settling (P := Toy) ex_net.
Proof.
  apply (two_net_settling (P := Toy)), not_sync_settling. vm_compute. reflexivity.
Qed.

#[local] Opaque ex_net.

Lemma settle_completes_witness :
  (settle (P := Toy) true (mkNEnv ex_net [])).1 <> Err Unsettled /\
  net_ok (P := Toy) (ne_net (settle (P := Toy) true (mkNEnv ex_net [])).2).
Proof.
  pose proof (settle_completes (P := Toy) true (mkNEnv ex_net []) ex_net_ok ex_net_settling) as H.
  exact (conj (proj1 H) (proj1 (proj2 (proj2 H)))).
Defined.

Definition ex_bench : NEnv := mkNEnv net_new ex_net_tape.

Lemma network_invariant_witness :
  (run_bench (P := Toy) (mkBenchConfig 7 1) ex_bench).1 <> Err Unsettled /\
  net_ok (P := Toy) (ne_net (run_bench (P := Toy) (mkBenchConfig 7 1) ex_bench).2).
Proof.
  pose proof (network_invariant (P := Toy) (mkBenchConfig 7 1) ex_net_tape) as H.
  exact (conj (proj1 H) (proj1 (proj2 H))).
Defined.

Definition ex_settled : NEnv := (settle (P := Toy) true (mkNEnv ex_net [])).2.

Lemma ex_settled_ok : net_ok (P := Toy) (ne_net ex_settled).
Proof. exact (proj1 (settle_loop_spec (P := Toy) _ true (mkNEnv ex_net []) ex_net_ok ex_net_settling (Nat.le_refl _))). Qed.

Lemma ok_unit {E} (r : result E unit) : is_ok r = true -> r = Ok tt.
Proof. by destruct r as [[]|]. Qed.

Lemma agreement_exact_witness :
  exists version, forall id c, n_peers (ne_net ex_settled) !! id = Some c ->
    current_key (P := Toy) (c_core c) <> None /\ N.of_nat (size (current_members (c_core c))) = 2%N /\
    current_label (P := Toy) (c_core c) = version.
Proof.
  apply (proj1 (agreement_exact (P := Toy) 2 ex_settled ex_settled_ok)).
  apply ok_unit. vm_compute. reflexivity.
Defined.
