(* ===== verification/Persist.v ===== *)
(** * Data of the persistence boundary ([crates/cfr/src/persistence/mod.rs])

    Limits, options, identifiers, deliveries and errors shared by the store,
    the logical state and the persistent conference. *)

From Stdlib Require Import NArith Lia.
From S2P Require Import Prelude Crypto Codec Ops Member Conference.

Definition CURRENT_PERSISTENCE_SCHEMA_VERSION : N := 1.
Definition HARD_MAX_STATE_BYTES : N := 4194304.
Definition HARD_MAX_WAL_BYTES : N := 67108864.
Definition MAX_WINDOW_ENTRIES : N := 65536.

Inductive VersionKind := PersistenceSchema | StoreEnvelope.

Abbreviation InboundId := (list Byte.byte).
Abbreviation OutboundId := N.
Abbreviation DeliveryKey := (list Byte.byte).

Record PendingDelivery := mkDelivery {
  pd_id : OutboundId;
  pd_key : DeliveryKey;
  pd_recipient : Recipient;
  pd_payload : bytes;
}.

Record InboundResult := mkInbound {
  ir_duplicate : bool;
  ir_events : list Event;
  ir_deliveries : list OutboundId;
}.

Record PersistenceOptions := mkOptions {
  inbound_window : N;
  max_outbox_entries : N;
  max_state_bytes : N;
  max_record_bytes : N;
  max_wal_bytes : N;
  checkpoint_threshold : N;
}.

Definition options_default : PersistenceOptions :=
  mkOptions 4096 1024 HARD_MAX_STATE_BYTES HARD_MAX_STATE_BYTES HARD_MAX_WAL_BYTES 33554432.

(** The kinds of [std::io::Error] the code distinguishes. *)
Inductive IoKind := IoNotFound | IoWouldBlock | IoOther.

Inductive PError :=
| PNotFound
| PAlreadyExists
| PLocked
| PCorrupt (m : string)
| PUnsupportedVersion (kind : VersionKind) (found : N)
| PIdempotencyConflict (id : InboundId)
| PLimitExceeded (m : string)
| PInvalidOptions (m : string)
| PIo (e : IoKind)
| PProtocol (e : ConfError).

#[export] Instance VersionKind_eq_dec : EqDecision VersionKind.
Proof. solve_decision. Defined.
#[export] Instance IoKind_eq_dec : EqDecision IoKind.
Proof. solve_decision. Defined.
#[export] Instance PError_eq_dec : EqDecision PError.
Proof. solve_decision. Defined.
#[export] Instance PendingDelivery_eq_dec : EqDecision PendingDelivery.
Proof. solve_decision. Defined.
#[export] Instance PersistenceOptions_eq_dec : EqDecision PersistenceOptions.
Proof. solve_decision. Defined.

Definition options_validate (o : PersistenceOptions) : result PError PersistenceOptions :=
  if (inbound_window o =? 0)%N || (MAX_WINDOW_ENTRIES <? inbound_window o)%N
  then Err (PInvalidOptions "inbound window is out of range") else
  if (max_outbox_entries o =? 0)%N || (MAX_WINDOW_ENTRIES <? max_outbox_entries o)%N
  then Err (PInvalidOptions "outbox limit is out of range") else
  if (max_state_bytes o =? 0)%N || (HARD_MAX_STATE_BYTES <? max_state_bytes o)%N
  then Err (PInvalidOptions "state limit is out of range") else
  if (max_record_bytes o =? 0)%N || (HARD_MAX_STATE_BYTES <? max_record_bytes o)%N
  then Err (PInvalidOptions "record limit is out of range") else
  if (max_wal_bytes o =? 0)%N || (HARD_MAX_WAL_BYTES <? max_wal_bytes o)%N
  then Err (PInvalidOptions "WAL limit is out of range") else
  if (checkpoint_threshold o =? 0)%N || (max_wal_bytes o <? checkpoint_threshold o)%N
  then Err (PInvalidOptions "checkpoint threshold exceeds WAL limit") else
  Ok o.

(** What validation guarantees. *)
Record options_ok (o : PersistenceOptions) : Prop := {
  oo_window : (1 <= inbound_window o <= MAX_WINDOW_ENTRIES)%N;
  oo_outbox : (1 <= max_outbox_entries o <= MAX_WINDOW_ENTRIES)%N;
  oo_state : (1 <= max_state_bytes o <= HARD_MAX_STATE_BYTES)%N;
  oo_record : (1 <= max_record_bytes o <= HARD_MAX_STATE_BYTES)%N;
  oo_wal : (1 <= max_wal_bytes o <= HARD_MAX_WAL_BYTES)%N;
  oo_threshold : (1 <= checkpoint_threshold o <= max_wal_bytes o)%N;
}.

Lemma range_guard {A} v m x (k : result PError A) (y : A) :
  (if (v =? 0)%N || (m <? v)%N then Err x else k) = Ok y <-> (1 <= v <= m)%N /\ k = Ok y.
Proof.
  destruct (N.eqb_spec v 0); [by split; [|lia]|]. destruct (N.ltb_spec m v); [by split; [|lia]|].
  cbn [orb]. split; [|by intros [_ ?]]. intros Hk. split; [lia|done].
Qed.

Lemma options_validate_ok o o' : options_validate o = Ok o' <-> o' = o /\ options_ok o.
Proof.
  unfold options_validate. rewrite !range_guard. split.
  - intros (H1 & H2 & H3 & H4 & H5 & H6 & [= ->]). done.
  - by intros [-> [H1 H2 H3 H4 H5 H6]].
Qed.

Lemma options_default_ok : options_ok options_default.
Proof. split; vm_compute; (split; discriminate). Qed.
