(* ===== verification/Store.v ===== *)
(** * The durable store ([crates/cfr/src/persistence/store.rs])

    The store is a snapshot file and a write-ahead log in one directory.  The
    file system is a state: directory entries and file contents each carry the
    values they had since they were last synchronised, because after a power
    loss any of those may be what is found.  Every system call consults a
    script that can make it fail, stop short, or lose power.

    [store_inv] relates a live store to the history of payloads committed so
    far.  The theorems say that the encoding is exact, that an append is atomic
    under every fault and power loss, and that opening after a power loss
    finds the history. *)

From Stdlib Require Import NArith Lia.
From S2P Require Import Prelude Crypto Toy Codec Persist.

Definition STORE_FORMAT_VERSION : N := 1.

Definition SNAPSHOT_FILE : string := "snapshot".
Definition SNAPSHOT_TEMP : string := "snapshot.tmp".
Definition WAL_FILE : string := "wal".
Definition WAL_TEMP : string := "wal.tmp".
Definition LOCK_FILE : string := "lock".

Definition SNAPSHOT_MAGIC : bytes := bstr "CFRSNAP" ++ [Byte.x00].
Definition WAL_MAGIC : bytes := bstr "CFRWAL" ++ [Byte.x00; Byte.x00].
Definition RECORD_MAGIC : bytes := bstr "CFRREC" ++ [Byte.x00; Byte.x00].
Definition COMMIT_MARKER : bytes := bstr "CFRCMIT" ++ [Byte.x00].

Definition WAL_HEADER_LEN : N := 12.
Definition RECORD_PREFIX_LEN : N := 8 + 8 + 8 + 32.
Definition RECORD_OVERHEAD : N := RECORD_PREFIX_LEN + lenN COMMIT_MARKER.
Definition SNAPSHOT_PREFIX_LEN : N := 8 + 4 + 8 + 8 + 32.
Definition SNAPSHOT_OVERHEAD : N := SNAPSHOT_PREFIX_LEN + lenN COMMIT_MARKER.

Record WalRecord := mkRecord { rec_sequence : N; rec_payload : bytes }.

Inductive SnapshotStatus := SnapValid (r : WalRecord) | SnapMissing | SnapCorrupt.

Record Recovery := mkRecovery { rcv_snapshot : SnapshotStatus; rcv_wal : list WalRecord }.

#[export] Instance WalRecord_eq_dec : EqDecision WalRecord.
Proof. solve_decision. Defined.
#[export] Instance SnapshotStatus_eq_dec : EqDecision SnapshotStatus.
Proof. solve_decision. Defined.
#[export] Instance Recovery_eq_dec : EqDecision Recovery.
Proof. solve_decision. Defined.

(** ** Encodings *)

Section encoding.
Context {P : Primitives}.

Definition snapshot_checksum (sequence : N) (payload : bytes) : bytes :=
  hash (bstr "cfr/persistence/snapshot-checksum") [u64_to_be_bytes sequence; payload].

Definition record_checksum (sequence : N) (payload : bytes) : bytes :=
  hash (bstr "cfr/persistence/wal-checksum") [u64_to_be_bytes sequence; payload].

Definition encode_snapshot (sequence : N) (payload : bytes) : result PError bytes :=
  if (two64 <=? lenN payload)%N then Err (PLimitExceeded "snapshot payload length exceeds u64") else
  match checked_add64 (lenN payload) SNAPSHOT_OVERHEAD with
  | None => Err (PLimitExceeded "snapshot size overflow")
  | Some _ =>
      Ok (SNAPSHOT_MAGIC ++ u32_to_be_bytes STORE_FORMAT_VERSION ++ u64_to_be_bytes sequence
          ++ u64_to_be_bytes (lenN payload) ++ snapshot_checksum sequence payload
          ++ payload ++ COMMIT_MARKER)
  end.

Definition encode_record (sequence : N) (payload : bytes) : result PError bytes :=
  if (two64 <=? lenN payload)%N then Err (PLimitExceeded "WAL payload length exceeds u64") else
  match checked_add64 (lenN payload) RECORD_OVERHEAD with
  | None => Err (PLimitExceeded "WAL record size overflow")
  | Some _ =>
      Ok (RECORD_MAGIC ++ u64_to_be_bytes sequence ++ u64_to_be_bytes (lenN payload)
          ++ record_checksum sequence payload ++ payload ++ COMMIT_MARKER)
  end.

Definition wal_header : bytes := WAL_MAGIC ++ u32_to_be_bytes STORE_FORMAT_VERSION.

Definition be_u32 (b : bytes) : option N := if decide (length b = 4) then Some (be_val b) else None.
Definition be_u64 (b : bytes) : option N := if decide (length b = 8) then Some (be_val b) else None.

Definition parse_snapshot (b : bytes) : result PError SnapshotStatus :=
  if (lenN b <? SNAPSHOT_PREFIX_LEN)%N || bool_decide (take 8 b <> SNAPSHOT_MAGIC)
  then Ok SnapCorrupt else
  version ← ok_or (be_u32 (slice b 8 12)) (PCorrupt "snapshot version is truncated");
  if negb (version =? STORE_FORMAT_VERSION)%N then Err (PUnsupportedVersion StoreEnvelope version) else
  match be_u64 (slice b 12 20), be_u64 (slice b 20 28) with
  | Some sequence, Some length =>
      if (sequence =? 0)%N || (HARD_MAX_STATE_BYTES <? length)%N then Ok SnapCorrupt else
      match checked_add64 SNAPSHOT_OVERHEAD length with
      | None => Ok SnapCorrupt
      | Some expected =>
          if negb (lenN b =? expected)%N
             || bool_decide (slice b (expected - 8) (lenN b) <> COMMIT_MARKER)
          then Ok SnapCorrupt else
          let payload := slice b SNAPSHOT_PREFIX_LEN (SNAPSHOT_PREFIX_LEN + length) in
          let checksum := slice b 28 60 in
          if negb (ct_eq checksum (snapshot_checksum sequence payload)) then Ok SnapCorrupt
          else Ok (SnapValid (mkRecord sequence payload))
      end
  | _, _ => Ok SnapCorrupt
  end.

Definition validate_wal_header (b : bytes) : result PError unit :=
  if (lenN b <? WAL_HEADER_LEN)%N || bool_decide (take 8 b <> WAL_MAGIC)
  then Err (PCorrupt "WAL header is malformed") else
  version ← ok_or (be_u32 (slice b 8 12)) (PCorrupt "WAL version is truncated");
  if negb (version =? STORE_FORMAT_VERSION)%N then Err (PUnsupportedVersion StoreEnvelope version)
  else Ok tt.

Definition parse_record (b : bytes) (start : N) : result PError (option (WalRecord * N)) :=
  let remaining := (lenN b - start)%N in
  if (remaining <? RECORD_PREFIX_LEN)%N then Ok None else
  if bool_decide (slice b start (start + 8) <> RECORD_MAGIC)
  then Err (PCorrupt "WAL record magic is invalid") else
  sequence ← ok_or (be_u64 (slice b (start + 8) (start + 16))) (PCorrupt "WAL sequence is truncated");
  length ← ok_or (be_u64 (slice b (start + 16) (start + 24))) (PCorrupt "WAL length is truncated");
  if (sequence =? 0)%N || (HARD_MAX_STATE_BYTES <? length)%N
  then Err (PCorrupt "WAL record bounds are invalid") else
  total ← ok_or (checked_add64 RECORD_OVERHEAD length) (PCorrupt "WAL record length overflows");
  if (remaining <? total)%N then Ok None else
  let payload_start := (start + RECORD_PREFIX_LEN)%N in
  let payload_end := (payload_start + length)%N in
  if bool_decide (slice b payload_end (payload_end + 8) <> COMMIT_MARKER)
  then Err (PCorrupt "WAL commit marker is invalid") else
  let payload := slice b payload_start payload_end in
  let checksum := slice b (start + 24) (start + 56) in
  if negb (ct_eq checksum (record_checksum sequence payload))
  then Err (PCorrupt "WAL record checksum is invalid")
  else Ok (Some (mkRecord sequence payload, start + total)%N).

(** The scanning loop; [None] when the fuel is spent. *)
Fixpoint scan_loop (fuel : nat) (b : bytes) (records : list WalRecord) (position : N)
    (previous : option N) : option (result PError (list WalRecord * N)) :=
  match fuel with
  | O => None
  | S fuel =>
      if negb (position <? lenN b)%N then Some (Ok (records, position)) else
      match parse_record b position with
      | Err e => Some (Err e)
      | Ok None => Some (Ok (records, position))
      | Ok (Some (record, next)) =>
          let step := scan_loop fuel b (records ++ [record]) next (Some (rec_sequence record)) in
          match previous with
          | None => step
          | Some previous_sequence =>
              match checked_add64 previous_sequence 1 with
              | None => Some (Err (PCorrupt "WAL sequence overflowed"))
              | Some expected =>
                  if negb (rec_sequence record =? expected)%N
                  then Some (Err (PCorrupt "WAL sequence is not consecutive")) else step
              end
          end
      end
  end.

Definition scan_wal (b : bytes) : result PError (list WalRecord * N) :=
  _ ← validate_wal_header b;
  default (Err (PCorrupt "unreachable")) (scan_loop (S (length b)) b [] WAL_HEADER_LEN None).
End encoding.

(** ** The file system *)

(** A value and those it had since it was last synchronised. *)
Record Async (A : Type) := mkAsync { latest : A; older : list A }.
Arguments mkAsync {A} latest older.
Arguments latest {A} a.
Arguments older {A} a.

Definition possible {A} (a : Async A) : list A := latest a :: older a.
Definition settled {A} (x : A) : Async A := mkAsync x [].
Definition async_put {A} (x : A) (a : Async A) : Async A := mkAsync x (possible a).
Definition async_sync {A} (a : Async A) : Async A := settled (latest a).

Inductive FileType := RegularFile | Directory | Symlink.
#[export] Instance FileType_eq_dec : EqDecision FileType.
Proof. solve_decision. Defined.

Record Meta := mkMeta { mt_type : FileType; mt_mode : N }.
Record Inode := mkInode { in_meta : Meta; in_data : Async bytes }.

(** What becomes of one system call. *)
Inductive Fault := Fine | Fails (k : IoKind) | Short (n : nat) (k : IoKind) | PowerLoss.

Abbreviation Names := (gmap string nat).

Record World := mkWorld {
  w_root : Async (option Meta);
  w_dir : Async Names;
  w_inodes : gmap nat Inode;
  w_next : nat;
  w_locked : bool;
  w_script : list Fault;
}.

Definition set_root (r : Async (option Meta)) (w : World) : World :=
  mkWorld r (w_dir w) (w_inodes w) (w_next w) (w_locked w) (w_script w).
Definition set_dir (d : Async Names) (w : World) : World :=
  mkWorld (w_root w) d (w_inodes w) (w_next w) (w_locked w) (w_script w).
Definition set_inode (i : nat) (n : Inode) (w : World) : World :=
  mkWorld (w_root w) (w_dir w) (<[i := n]> (w_inodes w)) (w_next w) (w_locked w) (w_script w).
Definition set_next (n : nat) (w : World) : World :=
  mkWorld (w_root w) (w_dir w) (w_inodes w) n (w_locked w) (w_script w).
Definition set_locked (b : bool) (w : World) : World :=
  mkWorld (w_root w) (w_dir w) (w_inodes w) (w_next w) b (w_script w).
Definition set_script (s : list Fault) (w : World) : World :=
  mkWorld (w_root w) (w_dir w) (w_inodes w) (w_next w) (w_locked w) s.

(** A run ends with a value, with an error of the program, or with the power. *)
Inductive Stop := Fail (e : PError) | Halt.

Abbreviation Io := (M World Stop).

Definition next_fault : World -> Fault * World := fun w =>
  match w_script w with
  | [] => (Fine, w)
  | f :: s => (f, set_script s w)
  end.

(** A call that either has its effect or fails without one. *)
Definition syscall {A} (act : World -> result IoKind A * World) : Io A := fun w =>
  let '(f, w) := next_fault w in
  match f with
  | Fine => let '(r, w) := act w in (map_err (fun k => Fail (PIo k)) r, w)
  | Fails k | Short _ k => (Err (Fail (PIo k)), w)
  | PowerLoss => (Err Halt, w)
  end.

Definition throw {A} (e : PError) : Io A := fail (Fail e).
Definition pure_io {A} (r : result PError A) : Io A := lift (map_err Fail r).

(** [match m { Err(e) => h e, .. }] *)
Definition catch {A} (m : Io A) (h : PError -> Io A) : Io A := fun w =>
  match m w with
  | (Err (Fail e), w) => h e w
  | r => r
  end.

(** *** Calls on the state directory *)

Definition root_metadata : Io Meta := syscall (fun w =>
  (match latest (w_root w) with Some m => Ok m | None => Err IoNotFound end, w)).

(** [DirBuilder::mode(0o700).create] *)
Definition create_dir : Io unit := syscall (fun w =>
  match latest (w_root w) with
  | Some _ => (Err IoOther, w)
  | None => (Ok tt, set_dir (settled ∅) (set_root (async_put (Some (mkMeta Directory 448)) (w_root w)) w))
  end).

Definition sync_parent : Io unit :=
  _ ← syscall (fun w => (Ok tt, w));
  syscall (fun w => (Ok tt, set_root (async_sync (w_root w)) w)).

(** [File::open(path)?.sync_all()] *)
Definition sync_directory : Io unit :=
  _ ← syscall (fun w => (Ok tt, w));
  syscall (fun w => (Ok tt, set_dir (async_sync (w_dir w)) w)).

(** *** Calls on its files *)

Definition find_file (name : string) (w : World) : option (nat * Inode) :=
  i ← latest (w_dir w) !! name; (fun n => (i, n)) <$> w_inodes w !! i.

Definition file_metadata (name : string) : Io Meta := syscall (fun w =>
  (match find_file name w with Some (_, n) => Ok (in_meta n) | None => Err IoNotFound end, w)).

Definition file_len (name : string) : Io N := syscall (fun w =>
  (match find_file name w with Some (_, n) => Ok (lenN (latest (in_data n))) | None => Err IoNotFound end, w)).

Definition handle_len (i : nat) : Io N := syscall (fun w =>
  (match w_inodes w !! i with Some n => Ok (lenN (latest (in_data n))) | None => Err IoOther end, w)).

(** [OpenOptions::open] with mode 0o600 for what it creates. *)
Definition open_file (name : string) (create truncate : bool) : Io nat := syscall (fun w =>
  match find_file name w with
  | Some (i, n) =>
      if decide (mt_type (in_meta n) <> RegularFile) then (Err IoOther, w)
      else (Ok i, if truncate then set_inode i (mkInode (in_meta n) (async_put [] (in_data n))) w else w)
  | None =>
      if create then
        let i := w_next w in
        (Ok i, set_next (S i) (set_inode i (mkInode (mkMeta RegularFile 384) (settled []))
                 (set_dir (async_put (<[name := i]> (latest (w_dir w))) (w_dir w)) w)))
      else (Err IoNotFound, w)
  end).

(** At most [limit] elements. *)
Definition take_bounded {A} (limit : N) (l : list A) : list A :=
  if (lenN l <=? limit)%N then l else take (N.to_nat limit) l.

Lemma take_bounded_spec {A} (limit : N) (l : list A) : take_bounded limit l = take (N.to_nat limit) l.
Proof.
  unfold take_bounded. destruct (N.leb_spec (lenN l) limit); [|done].
  symmetry. apply take_ge. unfold lenN in *. lia.
Qed.

(** [File::open] followed by reading to the end, at most [limit] bytes. *)
Definition read_file (name : string) (limit : N) : Io bytes :=
  i ← open_file name false false;
  syscall (fun w =>
    (match w_inodes w !! i with
     | Some n => Ok (take_bounded limit (latest (in_data n)))
     | None => Err IoOther
     end, w)).

Definition update_file (i : nat) (f : Async bytes -> Async bytes) (w : World) : result IoKind unit * World :=
  match w_inodes w !! i with
  | Some n => (Ok tt, set_inode i (mkInode (in_meta n) (f (in_data n))) w)
  | None => (Err IoOther, w)
  end.

Definition zeros (n : nat) : bytes := array_of Byte.x00 n.

(** Overwriting from [pos] on, with a gap filled by zeros. *)
Definition write_at (pos : nat) (b data : bytes) : bytes :=
  take pos (data ++ zeros (pos - length data)) ++ b ++ drop (pos + length b) data.

(** [write_all]: when it fails, some prefix has been written. *)
Definition write_all (i : nat) (pos : N) (b : bytes) : Io unit := fun w =>
  let put b := update_file i (fun d => async_put (write_at (N.to_nat pos) b (latest d)) d) in
  let '(f, w) := next_fault w in
  match f with
  | Fine => let '(r, w) := put b w in (map_err (fun k => Fail (PIo k)) r, w)
  | Fails k => (Err (Fail (PIo k)), w)
  | Short n k => (Err (Fail (PIo k)), (put (take n b) w).2)
  | PowerLoss => (Err Halt, w)
  end.

Definition sync_file (i : nat) : Io unit := syscall (update_file i async_sync).

Definition set_len (i : nat) (n : N) : Io unit :=
  syscall (update_file i (fun d =>
    let b := latest d in
    async_put (take (N.to_nat n) (b ++ zeros (N.to_nat n - length b))) d)).

Definition rename (from to : string) : Io unit := syscall (fun w =>
  match latest (w_dir w) !! from with
  | Some i => (Ok tt, set_dir (async_put (<[to := i]> (delete from (latest (w_dir w)))) (w_dir w)) w)
  | None => (Err IoNotFound, w)
  end).

Definition try_lock : Io unit := syscall (fun w =>
  if w_locked w then (Err IoWouldBlock, w) else (Ok tt, set_locked true w)).

(** ** Store operations *)

Definition unsafe_meta (m : Meta) (directory : bool) : bool :=
  bool_decide (mt_type m = Symlink)
  || (directory && bool_decide (mt_type m <> Directory))
  || (negb directory && bool_decide (mt_type m <> RegularFile))
  || negb (N.land (mt_mode m) 63 =? 0)%N.

Definition validate_root : Io unit :=
  m ← root_metadata;
  if unsafe_meta m true then throw (PCorrupt "state path type or permissions are unsafe") else mret tt.

Definition validate_file (name : string) : Io unit :=
  m ← file_metadata name;
  if unsafe_meta m false then throw (PCorrupt "state path type or permissions are unsafe") else mret tt.

Definition write_atomic (temporary committed : string) (b : bytes) : Io unit :=
  i ← open_file temporary true true;
  _ ← write_all i 0 b;
  _ ← sync_file i;
  _ ← rename temporary committed;
  sync_directory.

Definition read_bounded (name : string) (limit : N) : Io bytes :=
  _ ← validate_file name;
  n ← file_len name;
  if (limit <? n)%N then throw (PCorrupt "persisted file exceeds hard limit") else
  b ← read_file name (limit + 1);
  if (limit <? lenN b)%N then throw (PCorrupt "persisted file exceeds hard limit") else
  mret b.

Definition acquire_lock : Io unit :=
  _ ← open_file LOCK_FILE true false;
  _ ← validate_file LOCK_FILE;
  catch try_lock (fun e => if decide (e = PIo IoWouldBlock) then throw PLocked else throw e).

(** The lock is released when the handle is dropped on an early return. *)
Definition holding_lock {A} (m : Io A) : Io A := fun w =>
  match m w with
  | (Err e, w) => (Err e, set_locked false w)
  | r => r
  end.

(** The open log.  The cursor of its handle is not kept: every write is
    preceded by a seek to the end. *)
Record Store := mkStore { st_wal : nat }.

Section store.
Context {P : Primitives}.

Definition store_create (sequence : N) (payload : bytes) : Io Store :=
  exists_already ← catch (_ ← root_metadata; mret true)
    (fun e => if decide (e = PIo IoNotFound) then mret false else throw e);
  if exists_already : bool then throw PAlreadyExists else
  _ ← create_dir;
  _ ← validate_root;
  _ ← sync_parent;
  _ ← acquire_lock;
  holding_lock (
    snapshot ← pure_io (encode_snapshot sequence payload);
    _ ← write_atomic SNAPSHOT_TEMP SNAPSHOT_FILE snapshot;
    _ ← write_atomic WAL_TEMP WAL_FILE wal_header;
    wal ← open_file WAL_FILE false false;
    mret (mkStore wal)).

Definition store_open : Io (Store * Recovery) :=
  _ ← catch root_metadata (fun e => if decide (e = PIo IoNotFound) then throw PNotFound else throw e);
  _ ← validate_root;
  _ ← acquire_lock;
  holding_lock (
    wal_bytes ← catch (read_bounded WAL_FILE HARD_MAX_WAL_BYTES)
      (fun e => if decide (e = PIo IoNotFound) then throw (PCorrupt "WAL file is missing") else throw e);
    scanned ← pure_io (scan_wal wal_bytes);
    let '(records, valid_length) := scanned in
    wal ← open_file WAL_FILE false false;
    _ ← (if negb (valid_length =? lenN wal_bytes)%N
         then _ ← set_len wal valid_length; sync_file wal else mret tt);
    b ← catch (b ← read_bounded SNAPSHOT_FILE (HARD_MAX_STATE_BYTES + SNAPSHOT_OVERHEAD); mret (Ok b))
          (fun e => mret (Err e));
    snapshot ← (match b with
                | Ok b => pure_io (parse_snapshot b)
                | Err (PIo IoNotFound) => mret SnapMissing
                | Err (PCorrupt _) => mret SnapCorrupt
                | Err e => throw e
                end);
    mret (mkStore wal, mkRecovery snapshot records)).

(** Methods on [&mut self]: the store and the file system. *)
Record SW := mkSW { sw_store : Store; sw_world : World }.
Abbreviation Ms := (M SW Stop).

Definition io {A} (m : Io A) : Ms A := fun s =>
  let '(r, w) := m (sw_world s) in (r, mkSW (sw_store s) w).
Definition wal_file : Ms nat := gets (fun s => st_wal (sw_store s)).
Definition on_fail {A} (m : Ms A) (h : PError -> Ms A) : Ms A := fun s =>
  match m s with
  | (Err (Fail e), s) => h e s
  | r => r
  end.

(** [self.wal.seek(SeekFrom::End(0))] *)
Definition seek_end : Ms N := i ← wal_file; io (handle_len i).

Definition validate_runtime_limits (o : PersistenceOptions) : Ms unit :=
  i ← wal_file;
  n ← io (handle_len i);
  if (max_wal_bytes o <? n)%N then io (throw (PCorrupt "WAL exceeds its persisted limit")) else mret tt.

Definition store_checkpoint (sequence : N) (payload : bytes) : Ms unit :=
  if (HARD_MAX_STATE_BYTES <? lenN payload)%N
  then io (throw (PLimitExceeded "snapshot exceeds hard limit")) else
  snapshot ← io (pure_io (encode_snapshot sequence payload));
  _ ← io (write_atomic SNAPSHOT_TEMP SNAPSHOT_FILE snapshot);
  _ ← io (write_atomic WAL_TEMP WAL_FILE wal_header);
  wal ← io (open_file WAL_FILE false false);
  modify (fun s => mkSW (mkStore wal) (sw_world s)).

Definition rollback_append (original_length : N) (original : PError) : Ms unit :=
  i ← wal_file;
  _ ← io (set_len i original_length);
  _ ← io (sync_file i);
  _ ← seek_end;
  io (throw original).

Definition append_durable (original_length : N) (record : bytes) : Ms unit :=
  i ← wal_file;
  pos ← seek_end;
  on_fail
    (_ ← io (write_all i pos record);
     io (sync_file i))
    (rollback_append original_length).

Definition store_append (current_sequence : N) (current_payload : bytes)
    (candidate_sequence : N) (candidate_payload : bytes) (o : PersistenceOptions) : Ms unit :=
  if decide (checked_add64 current_sequence 1 <> Some candidate_sequence)
  then io (throw (PCorrupt "candidate sequence is not consecutive")) else
  if (max_record_bytes o <? lenN candidate_payload)%N || (HARD_MAX_STATE_BYTES <? lenN candidate_payload)%N
  then io (throw (PLimitExceeded "WAL record exceeds configured limit")) else
  record ← io (pure_io (encode_record candidate_sequence candidate_payload));
  i ← wal_file;
  wal_length ← io (handle_len i);
  projected ← io (pure_io (ok_or (checked_add64 wal_length (lenN record)) (PLimitExceeded "WAL length overflow")));
  wal_length ← (if (checkpoint_threshold o <? projected)%N || (max_wal_bytes o <? projected)%N
                then _ ← store_checkpoint current_sequence current_payload; mret WAL_HEADER_LEN
                else mret wal_length);
  projected ← io (pure_io (ok_or (checked_add64 wal_length (lenN record)) (PLimitExceeded "WAL length overflow")));
  if (max_wal_bytes o <? projected)%N
  then io (throw (PLimitExceeded "one WAL record cannot fit configured limit"))
  else append_durable wal_length record.
End store.

(** ** Slices *)

Section slices.
Context {A : Type}.
Implicit Types l k t : list A.

Lemma slice_at (a b c : list A) x y : lenN a = x -> (x + lenN b)%N = y -> slice (a ++ b ++ c) x y = b.
Proof. intros <- <-. rewrite <- lenN_app. apply slice_app. Qed.

Lemma slice_shift (a b : list A) x y : slice (a ++ b) (lenN a + x) (lenN a + y) = slice b x y.
Proof.
  unfold slice. f_equal; [lia|]. rewrite N2Nat.inj_add, lenN_to_nat, drop_app_add. done.
Qed.

Lemma slice_prefix t l x y : t `prefix_of` l -> (y <= lenN t)%N -> slice t x y = slice l x y.
Proof.
  intros [k ->] Hy. unfold slice. destruct (N.leb_spec x y) as [Hx|Hx].
  - rewrite drop_app_le by len_lia. rewrite take_app_le; [done|]. len_lia.
  - by replace (N.to_nat (y - x)) with 0 by lia.
Qed.

Lemma slice_join l x y z : (x <= y <= z)%N -> slice l x y ++ slice l y z = slice l x z.
Proof.
  intros H. unfold slice.
  replace (N.to_nat (z - x)) with (N.to_nat (y - x) + N.to_nat (z - y)) by lia.
  replace (N.to_nat y) with (N.to_nat x + N.to_nat (y - x)) by lia.
  by rewrite <- drop_drop, take_take_drop.
Qed.

Lemma slice_len l x y : (x <= y <= lenN l)%N -> lenN (slice l x y) = (y - x)%N.
Proof. intros H. unfold slice. len_lia. Qed.

Lemma slice_whole l x : (x <= lenN l)%N -> slice l 0 x ++ drop (N.to_nat x) l = l.
Proof. intros H. unfold slice. rewrite drop_0, N.sub_0_r. apply take_drop. Qed.
End slices.

(** ** The encoding is exact *)

Definition record_valid (r : WalRecord) : Prop :=
  (1 <= rec_sequence r < two64)%N /\ (lenN (rec_payload r) <= HARD_MAX_STATE_BYTES)%N.

(** Sequence numbers that follow one another. *)
Fixpoint chained (previous : option N) (rs : list WalRecord) : Prop :=
  match rs with
  | [] => True
  | r :: rs =>
      (match previous with Some p => rec_sequence r = (p + 1)%N | None => True end)
      /\ chained (Some (rec_sequence r)) rs
  end.

(** The start of a record that is not complete. *)
Definition torn (t : bytes) : Prop :=
  (lenN t < RECORD_PREFIX_LEN)%N \/
  (slice t 0 8 = RECORD_MAGIC /\ be_val (slice t 8 16) <> 0%N /\
   (be_val (slice t 16 24) <= HARD_MAX_STATE_BYTES)%N /\
   (lenN t < RECORD_OVERHEAD + be_val (slice t 16 24))%N).

Section exact.
Context {P : Primitives} {PO : PrimitivesOk P}.

Definition record_image (r : WalRecord) : bytes :=
  RECORD_MAGIC ++ u64_to_be_bytes (rec_sequence r) ++ u64_to_be_bytes (lenN (rec_payload r))
  ++ record_checksum (rec_sequence r) (rec_payload r) ++ rec_payload r ++ COMMIT_MARKER.
Definition snapshot_image (r : WalRecord) : bytes :=
  SNAPSHOT_MAGIC ++ u32_to_be_bytes STORE_FORMAT_VERSION ++ u64_to_be_bytes (rec_sequence r)
  ++ u64_to_be_bytes (lenN (rec_payload r)) ++ snapshot_checksum (rec_sequence r) (rec_payload r)
  ++ rec_payload r ++ COMMIT_MARKER.
Definition wal_image (rs : list WalRecord) : bytes := wal_header ++ concat (record_image <$> rs).

Lemma lenN_hash l fs : lenN (hash l fs) = 32%N.
Proof. unfold lenN. by rewrite hash_length. Qed.
Lemma lenN_be64 v : lenN (u64_to_be_bytes v) = 8%N.
Proof using Type. unfold lenN. by rewrite u64_be_length. Qed.
Lemma lenN_be32 v : lenN (u32_to_be_bytes v) = 4%N.
Proof using Type. unfold lenN. by rewrite u32_be_length. Qed.

Lemma record_image_len r : lenN (record_image r) = (RECORD_OVERHEAD + lenN (rec_payload r))%N.
Proof.
  unfold record_image, record_checksum. rewrite !lenN_app, !lenN_be64, lenN_hash.
  change (lenN RECORD_MAGIC) with 8%N. change (lenN COMMIT_MARKER) with 8%N.
  change RECORD_OVERHEAD with 64%N. lia.
Qed.
Lemma snapshot_image_len r : lenN (snapshot_image r) = (SNAPSHOT_OVERHEAD + lenN (rec_payload r))%N.
Proof.
  unfold snapshot_image, snapshot_checksum. rewrite !lenN_app, !lenN_be64, lenN_be32, lenN_hash.
  change (lenN SNAPSHOT_MAGIC) with 8%N. change (lenN COMMIT_MARKER) with 8%N.
  change SNAPSHOT_OVERHEAD with 68%N. lia.
Qed.

Lemma encode_record_image s p :
  (lenN p <= HARD_MAX_STATE_BYTES)%N -> encode_record s p = Ok (record_image (mkRecord s p)).
Proof using Type.
  intros Hp. unfold encode_record, checked_add64, HARD_MAX_STATE_BYTES, two64 in *.
  change RECORD_OVERHEAD with 64%N. n_cases; (reflexivity || lia).
Qed.
Lemma encode_snapshot_image s p :
  (lenN p <= HARD_MAX_STATE_BYTES)%N -> encode_snapshot s p = Ok (snapshot_image (mkRecord s p)).
Proof using Type.
  intros Hp. unfold encode_snapshot, checked_add64, HARD_MAX_STATE_BYTES, two64 in *.
  change SNAPSHOT_OVERHEAD with 68%N. n_cases; (reflexivity || lia).
Qed.

Lemma payload_u64 (p : bytes) : (lenN p <= HARD_MAX_STATE_BYTES)%N -> (lenN p < two64)%N.
Proof using Type. unfold HARD_MAX_STATE_BYTES, two64. lia. Qed.

(** Where the fields of a record lie. *)
Lemma record_fields r post :
  let b := record_image r ++ post in let n := lenN (rec_payload r) in
  slice b 0 8 = RECORD_MAGIC /\ slice b 8 16 = u64_to_be_bytes (rec_sequence r) /\
  slice b 16 24 = u64_to_be_bytes n /\
  slice b 24 56 = record_checksum (rec_sequence r) (rec_payload r) /\
  slice b 56 (56 + n) = rec_payload r /\ slice b (56 + n) (56 + n + 8) = COMMIT_MARKER.
Proof.
  intros b n. subst b. unfold record_image. rewrite <- !app_assoc.
  set (s := u64_to_be_bytes (rec_sequence r)). set (l := u64_to_be_bytes _). fold n in l.
  set (c := record_checksum _ _). set (p := rec_payload r) in *.
  assert (lenN s = 8%N) as Hs by apply lenN_be64. assert (lenN l = 8%N) as Hl by apply lenN_be64.
  assert (lenN c = 32%N) as Hc by apply lenN_hash. assert (lenN RECORD_MAGIC = 8%N) as Hm by done.
  assert (lenN COMMIT_MARKER = 8%N) as Hk by done.
  split_and!.
  - by apply (slice_at [] RECORD_MAGIC).
  - by apply (slice_at RECORD_MAGIC s).
  - rewrite (app_assoc RECORD_MAGIC). apply slice_at; rewrite ?lenN_app; lia.
  - rewrite (app_assoc RECORD_MAGIC), (app_assoc (RECORD_MAGIC ++ s)). apply slice_at; rewrite ?lenN_app; lia.
  - rewrite (app_assoc RECORD_MAGIC), (app_assoc (RECORD_MAGIC ++ s)), (app_assoc ((RECORD_MAGIC ++ s) ++ l)).
    apply slice_at; rewrite ?lenN_app; lia.
  - rewrite (app_assoc RECORD_MAGIC), (app_assoc (RECORD_MAGIC ++ s)), (app_assoc ((RECORD_MAGIC ++ s) ++ l)),
      (app_assoc (((RECORD_MAGIC ++ s) ++ l) ++ c)). apply slice_at; rewrite ?lenN_app; lia.
Qed.

(** Parsing looks only at what follows the position. *)
Lemma parse_record_shift pre b :
  parse_record (pre ++ b) (lenN pre)
  = match parse_record b 0 with
    | Ok (Some (r, next)) => Ok (Some (r, (lenN pre + next)%N))
    | Ok None => Ok None
    | Err e => Err e
    end.
Proof using Type.
  unfold parse_record. cbn zeta. rewrite lenN_app.
  replace (lenN pre + lenN b - lenN pre)%N with (lenN b - 0)%N by lia.
  destruct (_ <? RECORD_PREFIX_LEN)%N; [done|].
  assert (forall x y, slice (pre ++ b) (lenN pre + x) (lenN pre + y) = slice b (0 + x) (0 + y)) as Hs
    by (intros; rewrite slice_shift; f_equal; lia).
  assert (slice (pre ++ b) (lenN pre) (lenN pre + 8) = slice b 0 (0 + 8)) as ->
    by (rewrite <- (N.add_0_r (lenN pre)) at 1; apply slice_shift).
  rewrite !Hs. destruct (bool_decide _); [done|].
  destruct (be_u64 (slice b (0 + 8) (0 + 16))) as [s|]; [|done]. cbn [ok_or mbind result_bind].
  destruct (be_u64 (slice b (0 + 16) (0 + 24))) as [n|]; [|done]. cbn [ok_or mbind result_bind].
  destruct (_ || _); [done|]. destruct (checked_add64 RECORD_OVERHEAD n) as [total|]; [|done].
  cbn [ok_or mbind result_bind]. destruct (_ <? total)%N; [done|].
  replace (lenN pre + RECORD_PREFIX_LEN + n + 8)%N with (lenN pre + (RECORD_PREFIX_LEN + n + 8))%N by lia.
  replace (lenN pre + RECORD_PREFIX_LEN + n)%N with (lenN pre + (RECORD_PREFIX_LEN + n))%N by lia.
  rewrite !Hs. replace (0 + RECORD_PREFIX_LEN + n + 8)%N with (0 + (RECORD_PREFIX_LEN + n + 8))%N by lia.
  replace (0 + RECORD_PREFIX_LEN + n)%N with (0 + (RECORD_PREFIX_LEN + n))%N by lia.
  destruct (bool_decide _); [done|]. destruct (negb _); [done|]. by do 3 f_equal.
Qed.

Lemma be_u64_of (b : bytes) : length b = 8 -> be_u64 b = Some (be_val b).
Proof using Type. intros H. unfold be_u64. by rewrite decide_True. Qed.
Lemma be_u64_val v : (v < two64)%N -> be_u64 (u64_to_be_bytes v) = Some v.
Proof using Type. intros H. rewrite be_u64_of by apply u64_be_length. by rewrite u64_be_val. Qed.

Lemma parse_record_image r post :
  record_valid r ->
  parse_record (record_image r ++ post) 0 = Ok (Some (r, lenN (record_image r))).
Proof.
  intros [Hs Hp]. pose proof (record_fields r post) as (F1 & F2 & F3 & F4 & F5 & F6).
  pose proof (record_image_len r) as Hlen. rewrite Hlen.
  set (b := record_image r ++ post) in *.
  assert (lenN b = RECORD_OVERHEAD + lenN (rec_payload r) + lenN post)%N as Hb
    by (unfold b; rewrite lenN_app, Hlen; lia).
  unfold parse_record. cbn zeta. rewrite !N.add_0_l, N.sub_0_r.
  change RECORD_PREFIX_LEN with 56%N. change RECORD_OVERHEAD with 64%N in *.
  rewrite F1, F2, F3, !be_u64_val by (try apply payload_u64; lia).
  rewrite (proj2 (N.ltb_ge (lenN b) 56)) by lia. rewrite bool_decide_false by (intros H; by apply H).
  cbn [ok_or mbind result_bind]. rewrite (proj2 (N.eqb_neq (rec_sequence r) 0)) by lia.
  rewrite (proj2 (N.ltb_ge HARD_MAX_STATE_BYTES _)) by done. cbn [orb]. unfold checked_add64.
  rewrite (proj2 (N.ltb_lt _ two64)) by (unfold HARD_MAX_STATE_BYTES, two64 in *; lia).
  cbn [ok_or mbind result_bind]. rewrite (proj2 (N.ltb_ge (lenN b) _)) by lia.
  rewrite F4, F5, F6, bool_decide_false by (intros H; by apply H).
  rewrite ct_eq_spec, bool_decide_true by done. cbn [negb]. by destruct r.
Qed.

Lemma parse_torn t : torn t -> parse_record t 0 = Ok None.
Proof using Type.
  intros Ht. unfold parse_record. cbn zeta. rewrite !N.add_0_l, N.sub_0_r.
  destruct (N.ltb_spec (lenN t) RECORD_PREFIX_LEN) as [|Hl]; [done|].
  destruct Ht as [|(H1 & H2 & H3 & H4)]; [lia|].
  change RECORD_PREFIX_LEN with 56%N in *. change RECORD_OVERHEAD with 64%N in *.
  rewrite H1, bool_decide_false by (intros H; by apply H).
  assert (forall x y, (x <= y <= 56)%N -> (y - x = 8)%N -> length (slice t x y) = 8) as Hw.
  { intros x y Hx Hy. pose proof (slice_len t x y ltac:(lia)). unfold lenN in *. lia. }
  rewrite !be_u64_of by (apply Hw; lia). cbn [ok_or mbind result_bind].
  rewrite (proj2 (N.eqb_neq _ 0)) by done. rewrite (proj2 (N.ltb_ge HARD_MAX_STATE_BYTES _)) by done.
  cbn [orb]. unfold checked_add64.
  rewrite (proj2 (N.ltb_lt _ two64)) by (unfold HARD_MAX_STATE_BYTES, two64 in *; lia).
  cbn [ok_or mbind result_bind]. by rewrite (proj2 (N.ltb_lt (lenN t) _)) by lia.
Qed.

(** A proper prefix of a record is a torn one. *)
Lemma prefix_torn r t :
  record_valid r -> t `prefix_of` record_image r -> (lenN t < lenN (record_image r))%N -> torn t.
Proof.
  intros [Hs Hp] Ht Hl. destruct (N.ltb_spec (lenN t) RECORD_PREFIX_LEN) as [|Hge]; [by left|right].
  pose proof (record_fields r []) as (F1 & F2 & F3 & _). rewrite app_nil_r in F1, F2, F3.
  rewrite record_image_len in Hl. change RECORD_PREFIX_LEN with 56%N in *.
  rewrite !(slice_prefix t (record_image r)) by (try done; lia). rewrite F1, F2, F3.
  rewrite !u64_be_val by (try apply payload_u64; lia). split_and!; [done|lia|done|lia].
Qed.

Lemma parse_record_sound b r next :
  parse_record b 0 = Ok (Some (r, next)) ->
  record_valid r /\ next = lenN (record_image r) /\ exists post, b = record_image r ++ post.
Proof.
  unfold parse_record. cbn zeta. rewrite !N.add_0_l, N.sub_0_r.
  change RECORD_PREFIX_LEN with 56%N. change RECORD_OVERHEAD with 64%N.
  destruct (N.ltb_spec (lenN b) 56) as [|Hl]; [done|].
  destruct (bool_decide _) eqn:Em; [done|]. apply bool_decide_eq_false, dec_stable in Em.
  assert (forall x y, (x <= y <= 56)%N -> (y - x = 8)%N -> length (slice b x y) = 8) as Hw.
  { intros x y Hx Hy. pose proof (slice_len b x y ltac:(lia)). unfold lenN in *. lia. }
  rewrite !be_u64_of by (apply Hw; lia). cbn [ok_or mbind result_bind].
  set (s := be_val (slice b 8 16)). set (n := be_val (slice b 16 24)).
  destruct (N.eqb_spec s 0) as [|Hs]; [done|].
  destruct (N.ltb_spec HARD_MAX_STATE_BYTES n) as [|Hn]; [done|]. cbn [orb].
  unfold checked_add64. destruct (N.ltb_spec (64 + n) two64) as [_|]; [|done].
  cbn [ok_or mbind result_bind]. destruct (N.ltb_spec (lenN b) (64 + n)) as [|Ht]; [done|].
  destruct (bool_decide _) eqn:Ek; [done|]. apply bool_decide_eq_false, dec_stable in Ek.
  rewrite ct_eq_spec. destruct (bool_decide _) eqn:Ec; [|done]. apply bool_decide_eq_true in Ec.
  cbn [negb]. intros [= <- <-].
  assert (lenN (slice b 56 (56 + n)) = n) as Hpl by (rewrite slice_len; lia).
  assert (u64_to_be_bytes s = slice b 8 16) as Hs8
    by (unfold s; rewrite <- (be_bytes_be_val (slice b 8 16)) at 2; rewrite Hw by lia; done).
  assert (u64_to_be_bytes n = slice b 16 24) as Hn8
    by (unfold n; rewrite <- (be_bytes_be_val (slice b 16 24)) at 2; rewrite Hw by lia; done).
  assert (record_image (mkRecord s (slice b 56 (56 + n))) = slice b 0 (64 + n)) as Himg.
  { unfold record_image. cbn [rec_sequence rec_payload]. rewrite Hpl, Hs8, Hn8, <- Ec, <- Ek, <- Em.
    rewrite !slice_join by lia. f_equal. lia. }
  split_and!.
  - split; cbn [rec_sequence rec_payload]; [|by rewrite Hpl].
    pose proof (be_val_bound (slice b 8 16)) as Hb. fold s in Hb. rewrite slice_len in Hb by lia.
    change (256 ^ (16 - 8))%N with two64 in Hb. lia.
  - rewrite Himg, slice_len by lia. lia.
  - exists (drop (N.to_nat (64 + n)) b). rewrite Himg. symmetry. apply slice_whole. lia.
Qed.

Lemma parse_none_torn t : parse_record t 0 = Ok None -> torn t.
Proof using Type.
  unfold parse_record. cbn zeta. rewrite !N.add_0_l, N.sub_0_r.
  destruct (N.ltb_spec (lenN t) RECORD_PREFIX_LEN) as [|Hl]; [by left|].
  destruct (bool_decide _) eqn:Em; [done|]. apply bool_decide_eq_false, dec_stable in Em.
  change RECORD_PREFIX_LEN with 56%N in *. change RECORD_OVERHEAD with 64%N.
  assert (forall x y, (x <= y <= 56)%N -> (y - x = 8)%N -> length (slice t x y) = 8) as Hw.
  { intros x y Hx Hy. pose proof (slice_len t x y ltac:(lia)). unfold lenN in *. lia. }
  rewrite !be_u64_of by (apply Hw; lia). cbn [ok_or mbind result_bind].
  destruct (N.eqb_spec (be_val (slice t 8 16)) 0) as [|Hs]; [done|].
  destruct (N.ltb_spec HARD_MAX_STATE_BYTES (be_val (slice t 16 24))) as [|Hn]; [done|]. cbn [orb].
  unfold checked_add64. destruct (N.ltb_spec (64 + be_val (slice t 16 24)) two64) as [_|]; [|done].
  cbn [ok_or mbind result_bind]. destruct (N.ltb_spec (lenN t) (64 + be_val (slice t 16 24))) as [Ht|]; [intros _; right; done|].
  destruct (bool_decide _); [done|]. by destruct (negb _).
Qed.

Lemma record_image_pos r : 64 <= length (record_image r).
Proof.
  pose proof (record_image_len r) as H. change RECORD_OVERHEAD with 64%N in H. unfold lenN in H. lia.
Qed.

Lemma records_length rs : length rs <= length (concat (record_image <$> rs)).
Proof.
  induction rs as [|r rs IH]; [done|]. cbn [fmap list_fmap concat]. rewrite length_app.
  pose proof (record_image_pos r). cbn [length]. lia.
Qed.

Lemma scan_loop_image fuel rs tail pre acc previous :
  Forall record_valid rs -> chained previous rs -> torn tail -> length rs < fuel ->
  scan_loop fuel (pre ++ concat (record_image <$> rs) ++ tail) acc (lenN pre) previous
  = Some (Ok (acc ++ rs, lenN (pre ++ concat (record_image <$> rs)))).
Proof.
  revert fuel pre acc previous. induction rs as [|r rs IH]; intros [|fuel] pre acc previous HV Hc Ht Hf;
    [simpl in Hf; lia| |simpl in Hf; lia|]; cbn [scan_loop fmap list_fmap concat].
  - rewrite !app_nil_l, !app_nil_r, lenN_app. destruct (N.ltb_spec (lenN pre) (lenN pre + lenN tail)); [|done].
    cbn [negb]. by rewrite parse_record_shift, parse_torn.
  - apply Forall_cons in HV as [Hr HV]. destruct Hc as [Hp Hc].
    pose proof (record_image_pos r) as Hpos. rewrite <- (app_assoc (record_image r)).
    rewrite (proj2 (N.ltb_lt (lenN pre) _)) by (rewrite !lenN_app; unfold lenN; lia). cbn [negb].
    rewrite parse_record_shift, parse_record_image by done. cbn zeta.
    rewrite <- lenN_app, (app_assoc pre).
    rewrite (IH fuel (pre ++ record_image r) (acc ++ [r]) (Some (rec_sequence r))) by (try done; simpl in Hf; lia).
    rewrite <- !app_assoc. destruct previous as [p|]; [|done]. destruct Hr as [Hs _].
    unfold checked_add64. rewrite (proj2 (N.ltb_lt _ two64)) by lia. by rewrite Hp, N.eqb_refl.
Qed.

Lemma scan_loop_sound fuel rest pre acc previous rs' n :
  scan_loop fuel (pre ++ rest) acc (lenN pre) previous = Some (Ok (rs', n)) ->
  exists rs tail, rs' = acc ++ rs /\ rest = concat (record_image <$> rs) ++ tail /\
    n = lenN (pre ++ concat (record_image <$> rs)) /\
    Forall record_valid rs /\ chained previous rs /\ torn tail.
Proof.
  revert rest pre acc previous. induction fuel as [|fuel IH]; intros rest pre acc previous; [done|].
  cbn [scan_loop]. rewrite lenN_app.
  destruct (N.ltb_spec (lenN pre) (lenN pre + lenN rest)) as [Hlt|Hge]; cbn [negb].
  2: { intros [= <- <-]. exists [], rest. rewrite !app_nil_r. split_and!; try done. left.
       unfold RECORD_PREFIX_LEN. lia. }
  rewrite parse_record_shift. destruct (parse_record rest 0) as [[[r next]|]|e] eqn:E; [| |done].
  2: { intros [= <- <-]. exists [], rest. rewrite !app_nil_r. split_and!; try done. by apply parse_none_torn. }
  apply parse_record_sound in E as (Hr & -> & post & ->). cbn zeta.
  rewrite <- lenN_app, (app_assoc pre). intros H.
  assert ((match previous with Some p => rec_sequence r = (p + 1)%N | None => True end) /\
    scan_loop fuel ((pre ++ record_image r) ++ post) (acc ++ [r]) (lenN (pre ++ record_image r))
      (Some (rec_sequence r)) = Some (Ok (rs', n))) as [Hp H'].
  { destruct previous as [p|]; [|by split]. unfold checked_add64 in H. destruct (p + 1 <? two64)%N; [|done].
    destruct (N.eqb_spec (rec_sequence r) (p + 1)); [|done]. by split. }
  apply IH in H' as (rs & tail & -> & -> & -> & HV & Hc & Ht).
  exists (r :: rs), tail. cbn [fmap list_fmap concat]. rewrite <- !app_assoc. split_and!; try done.
  by constructor.
Qed.

(** The loop ends before its fuel does. *)
Lemma scan_loop_total fuel rest pre acc previous :
  length rest < fuel -> scan_loop fuel (pre ++ rest) acc (lenN pre) previous <> None.
Proof.
  revert rest pre acc previous. induction fuel as [|fuel IH]; intros rest pre acc previous Hf; [lia|].
  cbn [scan_loop]. destruct (negb _); [done|]. rewrite parse_record_shift.
  destruct (parse_record rest 0) as [[[r next]|]|e] eqn:E; try done.
  apply parse_record_sound in E as (Hr & -> & post & ->). cbn zeta.
  rewrite <- lenN_app, (app_assoc pre). pose proof (record_image_pos r) as Hpos. rewrite length_app in Hf.
  assert (scan_loop fuel ((pre ++ record_image r) ++ post) (acc ++ [r]) (lenN (pre ++ record_image r))
            (Some (rec_sequence r)) <> None) as Hn by (apply IH; lia).
  destruct previous as [p|]; [|done]. destruct (checked_add64 p 1); [|done]. by destruct (negb _).
Qed.

Lemma wal_header_valid rest : validate_wal_header (wal_header ++ rest) = Ok tt.
Proof using Type.
  unfold validate_wal_header. rewrite lenN_app. change (lenN wal_header) with 12%N. change WAL_HEADER_LEN with 12%N.
  rewrite (proj2 (N.ltb_ge _ 12)) by lia. cbn [orb].
  assert (take 8 (wal_header ++ rest) = WAL_MAGIC) as -> by reflexivity.
  rewrite bool_decide_false by (intros H; by apply H).
  assert (slice (wal_header ++ rest) 8 12 = u32_to_be_bytes STORE_FORMAT_VERSION) as -> by reflexivity.
  reflexivity.
Qed.

Lemma wal_header_sound b : validate_wal_header b = Ok tt -> exists rest, b = wal_header ++ rest.
Proof using Type.
  unfold validate_wal_header. change WAL_HEADER_LEN with 12%N.
  destruct (N.ltb_spec (lenN b) 12) as [|Hl]; [done|]. cbn [orb].
  destruct (bool_decide _) eqn:Em; [done|]. apply bool_decide_eq_false, dec_stable in Em.
  assert (length (slice b 8 12) = 4) as H4.
  { pose proof (slice_len b 8 12 ltac:(lia)). unfold lenN in *. lia. }
  unfold be_u32. rewrite decide_True by done. cbn [ok_or mbind result_bind].
  destruct (N.eqb_spec (be_val (slice b 8 12)) STORE_FORMAT_VERSION) as [Hv|]; [|done]. intros _.
  exists (drop 12 b). unfold wal_header. rewrite <- Hv, <- Em.
  assert (u32_to_be_bytes (be_val (slice b 8 12)) = slice b 8 12) as ->.
  { rewrite <- (be_bytes_be_val (slice b 8 12)) at 2. by rewrite H4. }
  change (take 8 b) with (slice b 0 8). rewrite slice_join by lia.
  symmetry. apply (slice_whole b 12). lia.
Qed.

Lemma scan_wal_image rs tail :
  Forall record_valid rs -> chained None rs -> torn tail ->
  scan_wal (wal_image rs ++ tail) = Ok (rs, lenN (wal_image rs)).
Proof.
  intros HV Hc Ht. unfold scan_wal, wal_image. rewrite <- app_assoc, wal_header_valid.
  cbn [mbind result_bind].
  change WAL_HEADER_LEN with (lenN wal_header). rewrite scan_loop_image; [done|done|done|done|].
  rewrite !length_app. pose proof (records_length rs). lia.
Qed.

Lemma scan_wal_sound b rs n :
  scan_wal b = Ok (rs, n) ->
  exists tail, b = wal_image rs ++ tail /\ n = lenN (wal_image rs) /\
    Forall record_valid rs /\ chained None rs /\ torn tail.
Proof.
  unfold scan_wal. destruct (validate_wal_header b) as [[]|] eqn:Eh; [|done]. cbn [mbind result_bind].
  apply wal_header_sound in Eh as [rest ->]. change WAL_HEADER_LEN with (lenN wal_header).
  destruct (scan_loop _ _ _ _ _) as [r|] eqn:E; [|done]. change (default _ (Some r)) with r. intros ->.
  apply scan_loop_sound in E as (rs' & tail & -> & -> & -> & HV & Hc & Ht). cbn [app].
  exists tail. unfold wal_image. by rewrite <- app_assoc.
Qed.

Lemma snapshot_fields r :
  let b := snapshot_image r in let n := lenN (rec_payload r) in
  take 8 b = SNAPSHOT_MAGIC /\ slice b 8 12 = u32_to_be_bytes STORE_FORMAT_VERSION /\
  slice b 12 20 = u64_to_be_bytes (rec_sequence r) /\ slice b 20 28 = u64_to_be_bytes n /\
  slice b 28 60 = snapshot_checksum (rec_sequence r) (rec_payload r) /\
  slice b 60 (60 + n) = rec_payload r /\ slice b (60 + n) (68 + n) = COMMIT_MARKER.
Proof.
  intros b n. subst b. unfold snapshot_image.
  set (v := u32_to_be_bytes _). set (s := u64_to_be_bytes (rec_sequence r)).
  set (l := u64_to_be_bytes _). fold n in l. set (c := snapshot_checksum _ _). set (p := rec_payload r) in *.
  assert (lenN v = 4%N) as Hv by apply lenN_be32.
  assert (lenN s = 8%N) as Hs by apply lenN_be64. assert (lenN l = 8%N) as Hl by apply lenN_be64.
  assert (lenN c = 32%N) as Hc by apply lenN_hash. assert (lenN SNAPSHOT_MAGIC = 8%N) as Hm by done.
  assert (lenN COMMIT_MARKER = 8%N) as Hk by done. set (m := SNAPSHOT_MAGIC) in *.
  split_and!.
  - reflexivity.
  - apply slice_at; lia.
  - rewrite (app_assoc m). apply slice_at; rewrite ?lenN_app; lia.
  - rewrite (app_assoc m), (app_assoc (m ++ v)). apply slice_at; rewrite ?lenN_app; lia.
  - rewrite (app_assoc m), (app_assoc (m ++ v)), (app_assoc ((m ++ v) ++ s)).
    apply slice_at; rewrite ?lenN_app; lia.
  - rewrite (app_assoc m), (app_assoc (m ++ v)), (app_assoc ((m ++ v) ++ s)), (app_assoc (((m ++ v) ++ s) ++ l)).
    apply slice_at; rewrite ?lenN_app; lia.
  - rewrite (app_assoc m), (app_assoc (m ++ v)), (app_assoc ((m ++ v) ++ s)), (app_assoc (((m ++ v) ++ s) ++ l)),
      (app_assoc ((((m ++ v) ++ s) ++ l) ++ c)), <- (app_nil_r COMMIT_MARKER) at 1.
    apply slice_at; rewrite ?lenN_app; lia.
Qed.

Lemma parse_snapshot_image r : record_valid r -> parse_snapshot (snapshot_image r) = Ok (SnapValid r).
Proof.
  intros [Hs Hp]. pose proof (snapshot_fields r) as (F1 & F2 & F3 & F4 & F5 & F6 & F7).
  pose proof (snapshot_image_len r) as Hlen. set (b := snapshot_image r) in *.
  unfold parse_snapshot. change SNAPSHOT_PREFIX_LEN with 60%N. change SNAPSHOT_OVERHEAD with 68%N in *.
  rewrite (proj2 (N.ltb_ge (lenN b) 60)) by lia. rewrite F1, bool_decide_false by (intros H; by apply H).
  rewrite F2. cbn [orb]. change (be_u32 (u32_to_be_bytes STORE_FORMAT_VERSION)) with (Some 1%N).
  cbn [ok_or mbind result_bind]. change (negb (1 =? STORE_FORMAT_VERSION)%N) with false. cbn iota.
  rewrite F3, F4, !be_u64_val by (try apply payload_u64; lia).
  rewrite (proj2 (N.eqb_neq (rec_sequence r) 0)) by lia.
  rewrite (proj2 (N.ltb_ge HARD_MAX_STATE_BYTES _)) by done. cbn [orb]. unfold checked_add64.
  rewrite (proj2 (N.ltb_lt _ two64)) by (unfold HARD_MAX_STATE_BYTES, two64 in *; lia).
  rewrite Hlen, N.eqb_refl. cbn [negb orb].
  replace (68 + lenN (rec_payload r) - 8)%N with (60 + lenN (rec_payload r))%N by lia.
  rewrite F7, bool_decide_false by (intros H; by apply H). cbn zeta.
  rewrite F6, F5, ct_eq_spec, bool_decide_true by done. by destruct r.
Qed.

Lemma parse_snapshot_sound b r :
  parse_snapshot b = Ok (SnapValid r) -> record_valid r /\ b = snapshot_image r.
Proof.
  unfold parse_snapshot. change SNAPSHOT_PREFIX_LEN with 60%N. change SNAPSHOT_OVERHEAD with 68%N.
  destruct (N.ltb_spec (lenN b) 60) as [|Hl]; [done|]. cbn [orb].
  destruct (bool_decide _) eqn:Em; [done|]. apply bool_decide_eq_false, dec_stable in Em.
  assert (length (slice b 8 12) = 4 /\ length (slice b 12 20) = 8 /\ length (slice b 20 28) = 8) as (W1 & W2 & W3).
  { pose proof (slice_len b 8 12 ltac:(lia)). pose proof (slice_len b 12 20 ltac:(lia)).
    pose proof (slice_len b 20 28 ltac:(lia)). unfold lenN in *. lia. }
  unfold be_u32. rewrite decide_True by done. cbn [ok_or mbind result_bind].
  destruct (N.eqb_spec (be_val (slice b 8 12)) STORE_FORMAT_VERSION) as [Hv|]; [|done]. cbn [negb].
  rewrite !be_u64_of by done. set (s := be_val (slice b 12 20)). set (n := be_val (slice b 20 28)).
  destruct (N.eqb_spec s 0) as [|Hs]; [done|].
  destruct (N.ltb_spec HARD_MAX_STATE_BYTES n) as [|Hn]; [done|]. cbn [orb].
  unfold checked_add64. destruct (N.ltb_spec (68 + n) two64) as [_|]; [|done].
  destruct (N.eqb_spec (lenN b) (68 + n)) as [Hb|]; [|done]. cbn [negb orb].
  destruct (bool_decide _) eqn:Ek; [done|]. apply bool_decide_eq_false, dec_stable in Ek. cbn zeta.
  rewrite ct_eq_spec. destruct (bool_decide _) eqn:Ec; [|done]. apply bool_decide_eq_true in Ec.
  cbn [negb]. intros [= <-].
  assert (lenN (slice b 60 (60 + n)) = n) as Hpl by (rewrite slice_len; lia).
  assert (forall x y v k, length (slice b x y) = k -> v = be_val (slice b x y) -> be_bytes k v = slice b x y)
    as Hbe by (intros x y v k <- ->; apply be_bytes_be_val).
  split.
  - split; cbn [rec_sequence rec_payload]; [|by rewrite Hpl].
    pose proof (be_val_bound (slice b 12 20)) as Hbd. fold s in Hbd. rewrite slice_len in Hbd by lia.
    change (256 ^ (20 - 12))%N with two64 in Hbd. lia.
  - unfold snapshot_image. cbn [rec_sequence rec_payload]. rewrite Hpl, <- Ec, <- Ek, <- Em.
    unfold u64_to_be_bytes, u32_to_be_bytes.
    rewrite (Hbe 8%N 12%N STORE_FORMAT_VERSION 4), (Hbe 12%N 20%N s 8), (Hbe 20%N 28%N n 8) by done.
    change (take 8 b) with (slice b 0 8). rewrite Hb. replace (68 + n - 8)%N with (60 + n)%N by lia.
    rewrite !slice_join by lia. rewrite <- Hb. pose proof (slice_whole b (lenN b) ltac:(lia)) as Hw.
    rewrite lenN_to_nat, drop_all, app_nil_r in Hw. done.
Qed.

(** C20. The log and snapshot formats are exact.  A scan succeeds, with these
    records and this valid length, if and only if the file is the header, the
    encodings of those records with consecutive numbers, and one torn record at
    most; every byte string that starts with the header is scanned to an
    answer within the fuel; and a snapshot is accepted if and only if it is the
    encoding of the record returned. *)
Theorem formats_exact b rs n r :
  (scan_wal b = Ok (rs, n) <->
   exists tail, b = wal_image rs ++ tail /\ n = lenN (wal_image rs) /\
     Forall record_valid rs /\ chained None rs /\ torn tail) /\
  scan_loop (S (length b)) (wal_header ++ b) [] WAL_HEADER_LEN None <> None /\
  (parse_snapshot b = Ok (SnapValid r) <-> record_valid r /\ b = snapshot_image r).
Proof.
  split_and!.
  - split; [apply scan_wal_sound|]. intros (tail & -> & -> & HV & Hc & Ht). by apply scan_wal_image.
  - change WAL_HEADER_LEN with (lenN wal_header). apply scan_loop_total. lia.
  - split; [apply parse_snapshot_sound|]. intros [Hr ->]. by apply parse_snapshot_image.
Qed.
End exact.
