(* ===== verification/Crash.v ===== *)
(** * Crash safety of the store

    What a power loss can leave ([crash]), the state of the disk during every
    operation ([disk_ok]), and the rules by which runs with faults are followed
    ([wp]: one postcondition for a value, one for an error, one for a loss of
    power).  The committed payloads form a history [H]; the snapshot holds one
    entry of it and the log the entries after some point.

    The store refines an abstract log of payloads: creation starts it, a
    successful append extends it by one entry, a failed or interrupted append
    leaves it as it was or extended, and opening after a power loss returns its
    last entry. *)

From Stdlib Require Import NArith Lia.
From S2P Require Import Prelude Crypto Toy Codec Persist Store.

(** ** Power loss *)

(** A file is found with some prefix of a content it had since its last sync,
    no shorter than the shortest of them.  This is an assumption about the file
    system: bytes reach the disk in the order of the file, without holes and
    without a tail that was allocated and not written (for that see
    [unwritten_tail_refused] in [Durable]). *)
Definition survives (a : Async bytes) (c : bytes) : Prop :=
  (exists h, h ∈ possible a /\ c `prefix_of` h) /\
  (exists h, h ∈ possible a /\ length h <= length c).

(** The directory is found in some state it had since its last sync. *)
Record crash (w w' : World) : Prop := {
  cr_root : exists r, r ∈ possible (w_root w) /\ w_root w' = settled r;
  cr_dir : exists d, d ∈ possible (w_dir w) /\ w_dir w' = settled d;
  cr_inodes i :
    match w_inodes w !! i with
    | Some n => exists c, survives (in_data n) c /\ w_inodes w' !! i = Some (mkInode (in_meta n) (settled c))
    | None => w_inodes w' !! i = None
    end;
  cr_next : w_next w' = w_next w;
  cr_unlocked : w_locked w' = false;
}.

(** ** Histories *)

Definition numbered (H : list bytes) : list WalRecord :=
  imap (fun i p => mkRecord (N.of_nat (S i)) p) H.

(** The log from the entry after the [k]-th. *)
Definition log (H : list bytes) (k : nat) : list WalRecord := drop k (numbered H).

Definition newest (H : list bytes) (p : bytes) : WalRecord := mkRecord (N.of_nat (S (length H))) p.

Record hist_ok (H : list bytes) : Prop := {
  ho_nonempty : H <> [];
  ho_count : (N.of_nat (length H) < two64)%N;
  ho_sizes : Forall (fun p => lenN p <= HARD_MAX_STATE_BYTES)%N H;
}.

Lemma numbered_app H p : numbered (H ++ [p]) = numbered H ++ [newest H p].
Proof. unfold numbered, newest. rewrite imap_app. simpl. by rewrite Nat.add_0_r. Qed.

Lemma numbered_length H : length (numbered H) = length H.
Proof. apply length_imap. Qed.

Lemma numbered_lookup H i : numbered H !! i = (fun p => mkRecord (N.of_nat (S i)) p) <$> H !! i.
Proof. unfold numbered. by rewrite list_lookup_imap. Qed.

Lemma log_snoc H p k : k <= length H -> log (H ++ [p]) k = log H k ++ [newest H p].
Proof. intros Hk. unfold log. rewrite numbered_app, drop_app_le by (by rewrite numbered_length). done. Qed.

Lemma log_all H : log H (length H) = [].
Proof. unfold log. by rewrite drop_ge by (by rewrite numbered_length). Qed.

Lemma numbered_valid H : hist_ok H -> Forall record_valid (numbered H).
Proof.
  intros [_ Hc Hs]. apply Forall_lookup. intros i r. rewrite numbered_lookup.
  destruct (H !! i) as [p|] eqn:E; [|done]. intros [= <-]. pose proof (lookup_lt_Some _ _ _ E).
  split; cbn [rec_sequence rec_payload]; [lia|]. exact (Forall_lookup_1 _ _ _ _ Hs E).
Qed.

Lemma log_valid H k : hist_ok H -> Forall record_valid (log H k).
Proof. intros HH. by apply Forall_drop, numbered_valid. Qed.

Lemma chained_lookup previous rs :
  (forall i r s, rs !! i = Some r -> rs !! S i = Some s -> rec_sequence s = (rec_sequence r + 1)%N) ->
  (forall p r, previous = Some p -> rs !! 0 = Some r -> rec_sequence r = (p + 1)%N) ->
  chained previous rs.
Proof.
  revert previous. induction rs as [|r rs IH]; intros previous Hs Hp; [done|]. split.
  - destruct previous as [p|]; [|done]. by apply Hp.
  - apply IH; [intros i; apply (Hs (S i))|]. intros p s [= <-] H0. by apply (Hs 0 r s).
Qed.

Lemma log_chained H k : chained None (log H k).
Proof.
  apply chained_lookup; [|done]. intros i r s. unfold log. rewrite !lookup_drop, !numbered_lookup.
  destruct (H !! (k + i)); [|done]. destruct (H !! (k + S i)); [|done]. intros [= <-] [= <-].
  cbn [rec_sequence]. lia.
Qed.

(** ** The disk *)

Definition safe_file (n : Inode) : Prop :=
  mt_type (in_meta n) = RegularFile /\ N.land (mt_mode (in_meta n)) 63 = 0%N.
Definition safe_root (m : Meta) : Prop := mt_type m = Directory /\ N.land (mt_mode m) 63 = 0%N.

(** How long the log of one store may become. *)
Class WalCap := mkCap {
  wal_cap : N;
  cap_header : (WAL_HEADER_LEN <= wal_cap)%N;
  cap_hard : (wal_cap <= HARD_MAX_WAL_BYTES)%N;
}.

Section disk.
Context {P : Primitives} {cap : WalCap}.

(** What the log file may hold beyond the history: nothing, the start of a
    record, or the start of the record for one payload. *)
Inductive Tail := Exact | Torn | Pending (p : bytes).

Definition tail_of (H : list bytes) (tl : Tail) (t : bytes) : Prop :=
  match tl with
  | Exact => t = []
  | Torn => torn t
  | Pending p => t `prefix_of` record_image (newest H p)
  end.

Definition wal_data (H : list bytes) (tl : Tail) (k : nat) (a : Async bytes) : Prop :=
  forall h, h ∈ possible a ->
    (lenN h <= wal_cap)%N /\ exists t, h = wal_image (log H k) ++ t /\ tail_of H tl t.

(** One state of the directory holds a snapshot of an entry and the log after
    an entry that is not later than the one following the snapshot. *)
Definition dir_ok (w : World) (H : list bytes) (tl : Tail) (d : Names) : Prop :=
  (forall x i, d !! x = Some i -> exists n, w_inodes w !! i = Some n /\ safe_file n) /\
  (forall x y i, d !! x = Some i -> d !! y = Some i -> x = y) /\
  exists i_s n_s i_w n_w s k r,
    d !! SNAPSHOT_FILE = Some i_s /\ w_inodes w !! i_s = Some n_s /\
    numbered H !! s = Some r /\ in_data n_s = settled (snapshot_image r) /\
    d !! WAL_FILE = Some i_w /\ w_inodes w !! i_w = Some n_w /\
    k <= S s /\ k <= length H /\ wal_data H tl k (in_data n_w).

Definition temporary (x : string) : Prop := x = SNAPSHOT_TEMP \/ x = WAL_TEMP.

Record disk_ok (w : World) (H : list bytes) (tl : Tail) : Prop := {
  dk_hist : hist_ok H;
  dk_root r : r ∈ possible (w_root w) -> exists m, r = Some m /\ safe_root m;
  dk_fresh i : is_Some (w_inodes w !! i) -> i < w_next w;
  dk_dirs d : d ∈ possible (w_dir w) -> dir_ok w H tl d;
  dk_temp x i d : temporary x -> latest (w_dir w) !! x = Some i -> d ∈ possible (w_dir w) ->
    d !! SNAPSHOT_FILE <> Some i /\ d !! WAL_FILE <> Some i;
}.

(** The directory names [j] as its log in every state it can be found in. *)
Definition attached (w : World) (j : nat) : Prop :=
  forall d, d ∈ possible (w_dir w) -> d !! WAL_FILE = Some j.

Record store_inv (w : World) (st : Store) (H : list bytes) : Prop := {
  sv_disk : disk_ok w H Exact;
  sv_attached : attached w (st_wal st);
  sv_locked : w_locked w = true;
}.
End disk.

(** ** What is found after a power loss *)

Lemma torn_nil : torn [].
Proof. left. done. Qed.

Lemma torn_prefix t t' : torn t -> t' `prefix_of` t -> torn t'.
Proof.
  intros Ht Hp. destruct (N.ltb_spec (lenN t') RECORD_PREFIX_LEN) as [|Hl]; [by left|].
  assert (lenN t' <= lenN t)%N as Hle by (apply prefix_length in Hp; unfold lenN; lia).
  destruct Ht as [|(H1 & H2 & H3 & H4)]; [lia|]. right. change RECORD_PREFIX_LEN with 56%N in Hl.
  rewrite !(slice_prefix t' t) by (try done; lia). split_and!; try done. lia.
Qed.

Lemma survives_settled b c : survives (settled b) c -> c = b.
Proof.
  intros [(h & Hh & Hp) (h' & Hh' & Hl)]. unfold possible, settled in *. cbn [latest older] in *.
  apply list_elem_of_singleton in Hh as ->, Hh' as ->. destruct Hp as [k ->]. rewrite length_app in Hl.
  destruct k; [by rewrite app_nil_r|simpl in Hl; lia].
Qed.

Lemma prefix_split (a c t : bytes) :
  c `prefix_of` a ++ t -> length a <= length c -> exists t', c = a ++ t' /\ t' `prefix_of` t.
Proof.
  intros [k Hk] Hl.
  assert (c = a ++ drop (length a) c) as Hc.
  { rewrite <- (take_drop (length a) c) at 1. f_equal.
    apply (f_equal (take (length a))) in Hk. rewrite take_app_length, take_app_le in Hk by done. done. }
  exists (drop (length a) c). split; [done|]. exists k.
  rewrite Hc, <- app_assoc in Hk. by apply app_inv_head in Hk.
Qed.

Section found.
Context {P : Primitives} {cap : WalCap}.

Definition pending_ok (H : list bytes) (tl : Tail) : Prop :=
  match tl with Pending p => hist_ok (H ++ [p]) | _ => True end.

(** The histories a power loss can leave. *)
Definition outcomes (H : list bytes) (tl : Tail) (H' : list bytes) : Prop :=
  H' = H \/ match tl with Pending p => H' = H ++ [p] | _ => False end.

Lemma wal_survives H tl k a c :
  wal_data H tl k a -> survives a c ->
  (lenN c <= wal_cap)%N /\
  exists t, c = wal_image (log H k) ++ t /\
    match tl with Exact => t = [] | Torn => torn t | Pending p => t `prefix_of` record_image (newest H p) end.
Proof.
  intros Ha [(h & Hh & Hp) (h' & Hh' & Hl)].
  destruct (Ha h Hh) as (Hb & t & -> & Ht). destruct (Ha h' Hh') as (_ & t' & -> & _).
  destruct (prefix_split (wal_image (log H k)) c t Hp) as (u & -> & Hu).
  { rewrite length_app in Hl. lia. }
  split; [apply prefix_length in Hp; unfold lenN in *; lia|]. exists u. split; [done|].
  destruct tl; cbn [tail_of] in Ht.
  - subst t. by apply prefix_nil_inv in Hu.
  - by eapply torn_prefix.
  - by etrans.
Qed.

Lemma wal_image_snoc rs r : wal_image (rs ++ [r]) = wal_image rs ++ record_image r.
Proof. unfold wal_image. rewrite fmap_app, concat_app. cbn [fmap list_fmap concat]. by rewrite app_nil_r, app_assoc. Qed.

Context {PO : PrimitivesOk P}.

Lemma newest_valid H p : hist_ok (H ++ [p]) -> record_valid (newest H p).
Proof using Type.
  intros HH%numbered_valid. rewrite numbered_app in HH. apply Forall_app in HH as [_ HH].
  by apply (Forall_singleton record_valid).
Qed.

(** A log found after a power loss is the log of an outcome, with a torn tail. *)
Lemma wal_found H tl k a c :
  pending_ok H tl -> k <= length H -> wal_data H tl k a -> survives a c ->
  exists H', outcomes H tl H' /\ wal_data H' Torn k (settled c).
Proof.
  intros Hpd Hk Ha Hc. destruct (wal_survives H tl k a c Ha Hc) as (Hb & t & -> & Ht).
  assert (forall H' t', wal_image (log H k) ++ t = wal_image (log H' k) ++ t' -> torn t' ->
            wal_data H' Torn k (settled (wal_image (log H k) ++ t))) as Hmk.
  { intros H' t' E Ht' h Hh. apply list_elem_of_singleton in Hh as ->. split; [done|].
    exists t'. by split. }
  destruct tl as [| |p].
  - exists H. split; [by left|]. subst t. apply (Hmk H []); [done|apply torn_nil].
  - exists H. split; [by left|]. by apply (Hmk H t).
  - cbn [pending_ok] in Hpd.
    destruct (N.ltb_spec (lenN t) (lenN (record_image (newest H p)))) as [Hlt|Hge].
    + exists H. split; [by left|]. apply (Hmk H t); [done|]. eapply prefix_torn; [|done|done].
      by apply newest_valid.
    + exists (H ++ [p]). split; [by right|]. destruct Ht as [x Hx].
      assert (x = []) as -> by (destruct x; [done|]; rewrite Hx, lenN_app, lenN_cons in Hge; lia).
      rewrite app_nil_r in Hx. apply (Hmk (H ++ [p]) []); [|apply torn_nil].
      by rewrite log_snoc, wal_image_snoc, <- Hx, !app_nil_r by done.
Qed.

Lemma crash_found w w' H tl :
  disk_ok w H tl -> pending_ok H tl -> crash w w' ->
  exists H', outcomes H tl H' /\ disk_ok w' H' Torn /\ w_locked w' = false.
Proof.
  intros [HH Hroot Hfresh Hdirs Htemp] Hpd [(r & Hr & Er) (d & Hd & Ed) Hin Hnext Hul].
  destruct (Hdirs d Hd) as (Hfiles & Hinj & i_s & n_s & i_w & n_w & s & k & rc & D1 & D2 & D3 & D4 & D5 & D6 & D7 & D8 & D9).
  pose proof (Hin i_w) as Hw. rewrite D6 in Hw. destruct Hw as (c & Hc & Hw).
  destruct (wal_found H tl k _ c Hpd D8 D9 Hc) as (H' & Hout & Hwal).
  assert (length H <= length H' /\ hist_ok H' /\ numbered H' !! s = Some rc) as (Hlen & HH' & Hs').
  { destruct Hout as [->|Hp]; [done|]. destruct tl as [| |p]; try done. subst H'.
    rewrite length_app, numbered_app. split_and!; [lia|done|]. by apply lookup_app_l_Some. }
  exists H'. split; [done|]. split; [|done]. split; try done.
  - intros r' Hr'. rewrite Er in Hr'. apply list_elem_of_singleton in Hr' as ->. by apply Hroot.
  - intros i Hi. rewrite Hnext. apply Hfresh. specialize (Hin i). destruct (w_inodes w !! i); [done|].
    rewrite Hin in Hi. by destruct Hi.
  - intros d' Hd'. rewrite Ed in Hd'. apply list_elem_of_singleton in Hd' as ->.
    split_and!; [|done|].
    + intros x i Hx. destruct (Hfiles x i Hx) as (n & Hn & Hsafe). specialize (Hin i). rewrite Hn in Hin.
      destruct Hin as (c' & _ & ->). by eexists.
    + pose proof (Hin i_s) as Hs. rewrite D2 in Hs. destruct Hs as (c' & Hc' & Hs).
      rewrite D4 in Hc'. apply survives_settled in Hc' as ->.
      eexists i_s, _, i_w, _, s, k, rc. split_and!; try done. lia.
  - intros x i d' Hx Hxi Hd'. rewrite Ed in Hxi, Hd'. apply list_elem_of_singleton in Hd' as ->.
    cbn [latest settled] in Hxi.
    split; intros E; pose proof (Hinj _ _ _ Hxi E) as ->; by destruct Hx.
Qed.
End found.

(** ** Following a run

    [faulty] is false when the script is empty: then no error and no power
    loss comes from outside, and the rules prove that the run succeeds. *)

Section rules.
Context (faulty : Prop).

Definition ready (w : World) : Prop := faulty \/ w_script w = [].

Definition wp {T A} (m : M T Stop A) (Q : A -> T -> Prop) (E : PError -> T -> Prop) (S : T -> Prop)
    (w : T) : Prop :=
  match m w with
  | (Ok a, w') => Q a w'
  | (Err (Fail e), w') => E e w'
  | (Err Halt, w') => S w'
  end.

Lemma wp_ret {T A} (a : A) Q E S (w : T) : Q a w -> wp (mret a) Q E S w.
Proof. done. Qed.

Lemma wp_throw {A} (e : PError) Q E S w : E e w -> wp (A := A) (throw e) Q E S w.
Proof. done. Qed.

Lemma wp_pure {A} (r : result PError A) Q (E : PError -> World -> Prop) S w :
  match r with Ok a => Q a w | Err e => E e w end -> wp (pure_io r) Q E S w.
Proof. by destruct r. Qed.

Lemma wp_bind {T A B} (m : M T Stop A) (f : A -> M T Stop B) Q E S w :
  wp m (fun a w' => wp (f a) Q E S w') E S w -> wp (m ≫= f) Q E S w.
Proof. unfold wp, mbind, M_bind. by destruct (m w) as [[a|[e|]] w']. Qed.

Lemma wp_mono {T A} (m : M T Stop A) (Q Q' : A -> T -> Prop) (E E' : PError -> T -> Prop) (S S' : T -> Prop) w :
  wp m Q E S w -> (forall a w', Q a w' -> Q' a w') -> (forall e w', E e w' -> E' e w') ->
  (forall w', S w' -> S' w') -> wp m Q' E' S' w.
Proof. unfold wp. destruct (m w) as [[a|[e|]] w']; auto. Qed.

Lemma wp_catch {A} (m : Io A) (h : PError -> Io A) Q E S w :
  wp m Q (fun e w' => wp (h e) Q E S w') S w -> wp (catch m h) Q E S w.
Proof. unfold wp, catch. by destruct (m w) as [[a|[e|]] w']. Qed.

(** Methods of the store. *)
Lemma wp_io {A} (m : Io A) Q E S st w :
  wp m (fun a w' => Q a (mkSW st w')) (fun e w' => E e (mkSW st w')) (fun w' => S (mkSW st w')) w ->
  wp (io m) Q E S (mkSW st w).
Proof. unfold wp, io. cbn [sw_world sw_store]. by destruct (m w) as [[a|[e|]] w']. Qed.

Lemma wp_wal_file Q E S st w : Q (st_wal st) (mkSW st w) -> wp wal_file Q E S (mkSW st w).
Proof. done. Qed.

Lemma wp_on_fail {A} (m : M SW Stop A) (h : PError -> M SW Stop A) Q E S s :
  wp m Q (fun e s' => wp (h e) Q E S s') S s -> wp (on_fail m h) Q E S s.
Proof. unfold wp, on_fail. by destruct (m s) as [[a|[e|]] s']. Qed.

Lemma wp_holding {A} (m : Io A) Q E S w :
  wp m Q (fun e w' => E e (set_locked false w')) (fun w' => S (set_locked false w')) w ->
  wp (holding_lock m) Q E S w.
Proof. unfold wp, holding_lock. by destruct (m w) as [[a|[e|]] w']. Qed.

Lemma set_script_id w : set_script (w_script w) w = w.
Proof. by destruct w. Qed.

(** A call either takes place, in a world that differs only in its script, or
    something outside has gone wrong. *)
Lemma wp_syscall {A} (act : World -> result IoKind A * World) Q E S w :
  ready w ->
  (forall s, ready (set_script s w) ->
     match act (set_script s w) with (Ok a, w') => Q a w' | (Err k, w') => E (PIo k) w' end) ->
  (faulty -> forall k s, E (PIo k) (set_script s w)) ->
  (faulty -> forall s, S (set_script s w)) ->
  wp (syscall act) Q E S w.
Proof.
  intros Hr Hact HE HS. unfold wp, syscall, next_fault. destruct (w_script w) as [|f s] eqn:Es.
  - specialize (Hact [] ltac:(by right)). rewrite <- Es, set_script_id in Hact.
    by destruct (act w) as [[a|k] w'].
  - destruct Hr as [Hf|Hr]; [|by rewrite Es in Hr]. specialize (Hact s ltac:(by left)).
    destruct f; [by destruct (act _) as [[a|k] w']|by apply HE..|by apply HS].
Qed.

(** A write may also stop short. *)
Lemma wp_write i pos b Q E S w n :
  ready w -> w_inodes w !! i = Some n ->
  let put c w := set_inode i (mkInode (in_meta n) (async_put (write_at (N.to_nat pos) c (latest (in_data n))) (in_data n))) w in
  (forall s, ready (set_script s w) -> Q tt (put b (set_script s w))) ->
  (faulty -> forall k s c, c `prefix_of` b -> E (PIo k) (put c (set_script s w))) ->
  (faulty -> forall k s, E (PIo k) (set_script s w)) ->
  (faulty -> forall s, S (set_script s w)) ->
  wp (write_all i pos b) Q E S w.
Proof.
  intros Hr Hn put HQ HE1 HE2 HS. unfold wp, write_all, next_fault, update_file.
  destruct (w_script w) as [|f s] eqn:Es.
  - specialize (HQ [] ltac:(by right)). rewrite <- Es, set_script_id in HQ. by rewrite Hn.
  - destruct Hr as [Hf|Hr]; [|by rewrite Es in Hr]. cbn [set_script w_inodes]. rewrite Hn.
    destruct f as [|k|m k|]; [by apply HQ; left|by apply HE2| |by apply HS].
    cbn [snd]. apply HE1; [done|]. exists (drop m b). by rewrite take_drop.
Qed.
End rules.

(** ** What the calls do to the disk *)

Section frames.
Context {P : Primitives} {cap : WalCap}.

(** The files the directory refers to as snapshot and log. *)
Definition refs (w : World) : list (option nat * option nat) :=
  (fun d : Names => (d !! SNAPSHOT_FILE, d !! WAL_FILE)) <$> possible (w_dir w).

(** Neither those files nor the references to them have changed. *)
Record frames (w w1 : World) : Prop := {
  fr_refs p : p ∈ refs w1 <-> p ∈ refs w;
  fr_latest y : y = SNAPSHOT_FILE \/ y = WAL_FILE -> latest (w_dir w1) !! y = latest (w_dir w) !! y;
  fr_inodes p i : p ∈ refs w -> p.1 = Some i \/ p.2 = Some i -> w_inodes w1 !! i = w_inodes w !! i;
  fr_locked : w_locked w1 = w_locked w;
}.

Lemma frames_refl w : frames w w.
Proof. by split. Qed.

Lemma frames_trans w1 w2 w3 : frames w1 w2 -> frames w2 w3 -> frames w1 w3.
Proof.
  intros [A1 A2 A3 A4] [B1 B2 B3 B4]. split.
  - intros p. by rewrite B1.
  - intros y Hy. by rewrite B2, A2.
  - intros p i Hp Hi. rewrite (B3 p) by (try done; by apply A1). by apply (A3 p).
  - congruence.
Qed.

Lemma frames_script w s : frames w (set_script s w).
Proof. by split. Qed.

Lemma elem_of_refs w p :
  p ∈ refs w <-> exists d, d ∈ possible (w_dir w) /\ p = (d !! SNAPSHOT_FILE, d !! WAL_FILE).
Proof. unfold refs. rewrite list_elem_of_fmap. naive_solver. Qed.

Lemma disk_script w s H tl : disk_ok w H tl -> disk_ok (set_script s w) H tl.
Proof. intros [H1 H2 H3 H4 H5]. by split. Qed.
Lemma disk_locked w b H tl : disk_ok w H tl -> disk_ok (set_locked b w) H tl.
Proof. intros [H1 H2 H3 H4 H5]. by split. Qed.

(** A file that is neither a snapshot nor a log in any state. *)
Definition private (w : World) (i : nat) : Prop :=
  forall d, d ∈ possible (w_dir w) -> d !! SNAPSHOT_FILE <> Some i /\ d !! WAL_FILE <> Some i.

Lemma dir_ok_inode w H tl d i n :
  dir_ok w H tl d -> d !! SNAPSHOT_FILE <> Some i -> d !! WAL_FILE <> Some i -> safe_file n ->
  dir_ok (set_inode i n w) H tl d.
Proof.
  intros (Hf & Hinj & i_s & n_s & i_w & n_w & s & k & r & D1 & D2 & D3 & D4 & D5 & D6 & D7) Hs Hw Hn.
  split_and!; [|done|].
  - intros x j Hx. cbn [set_inode w_inodes]. destruct (decide (i = j)) as [->|Hne].
    + exists n. by rewrite lookup_insert_eq.
    + rewrite lookup_insert_ne by done. by apply (Hf x).
  - exists i_s, n_s, i_w, n_w, s, k, r. cbn [set_inode w_inodes].
    rewrite !lookup_insert_ne by (intros ->; congruence). split_and!; try done; apply D7.
Qed.

Lemma disk_private w i n H tl :
  disk_ok w H tl -> is_Some (w_inodes w !! i) -> private w i -> safe_file n ->
  disk_ok (set_inode i n w) H tl.
Proof.
  intros [H1 H2 H3 H4 H5] Hi Hp Hn. split; try done.
  - intros j. cbn [set_inode w_inodes w_next]. rewrite lookup_insert_is_Some. intros [<-|[_ Hj]]; by apply H3.
  - intros d Hd. destruct (Hp d Hd). by apply dir_ok_inode; [apply H4|..].
Qed.

Lemma frames_private w i n : private w i -> frames w (set_inode i n w).
Proof.
  intros Hp. split; try done. intros p j (d & Hd & ->)%elem_of_refs Hj. cbn [set_inode w_inodes fst snd] in *.
  destruct (Hp d Hd) as [H1 H2]. apply lookup_insert_ne. intros ->. by destruct Hj.
Qed.

Lemma private_script w s i : private w i -> private (set_script s w) i.
Proof. done. Qed.
Lemma private_inode w j n i : private w i -> private (set_inode j n w) i.
Proof. done. Qed.

(** Another state of the directory. *)
Lemma disk_put_dir w d' H tl :
  disk_ok w H tl -> dir_ok w H tl d' ->
  (forall z i, temporary z -> d' !! z = Some i -> latest (w_dir w) !! z = Some i) ->
  disk_ok (set_dir (async_put d' (w_dir w)) w) H tl.
Proof.
  intros [H1 H2 H3 H4 H5] Hd Hz. split; try done.
  - intros d. cbn [set_dir w_dir]. unfold possible, async_put. cbn [latest older].
    rewrite elem_of_cons. intros [->|Hin]; [exact Hd|]. by apply (H4 d).
  - intros x i d Hx. cbn [set_dir w_dir async_put latest]. intros Hi Hin.
    unfold possible, async_put in Hin. cbn [latest older] in Hin. apply elem_of_cons in Hin as [->|Hin].
    + destruct Hd as (_ & Hinj & _). split; intros E; pose proof (Hinj _ _ _ Hi E) as ->; by destruct Hx.
    + apply (H5 x); auto.
Qed.

Lemma disk_sync_dir w H tl : disk_ok w H tl -> disk_ok (set_dir (async_sync (w_dir w)) w) H tl.
Proof.
  assert (forall d, d ∈ possible (async_sync (w_dir w)) -> d ∈ possible (w_dir w)) as Hs.
  { intros d ->%list_elem_of_singleton. apply list_elem_of_here. }
  intros [H1 H2 H3 H4 H5]. split; try done.
  - intros d Hd. by apply (H4 d), Hs.
  - intros x i d Hx Hi Hd. apply (H5 x); [done|done|by apply Hs].
Qed.

(** A new file under a name that is neither the snapshot's nor the log's. *)
Definition created (w : World) (x : string) (i : nat) (n : Inode) : World :=
  set_next (S i) (set_inode i n (set_dir (async_put (<[x := i]> (latest (w_dir w))) (w_dir w)) w)).

Lemma disk_create w x n H tl :
  disk_ok w H tl -> latest (w_dir w) !! x = None -> x <> SNAPSHOT_FILE -> x <> WAL_FILE -> safe_file n ->
  disk_ok (created w x (w_next w) n) H tl /\ frames w (created w x (w_next w) n) /\
  private (created w x (w_next w) n) (w_next w).
Proof.
  intros [H1 H2 H3 H4 H5] Hx Hxs Hxw Hn. set (i := w_next w). set (d' := <[x := i]> (latest (w_dir w))).
  assert (forall d y, d ∈ possible (w_dir w) -> d !! y <> Some i) as Hno.
  { intros d y Hd Hy. destruct (H4 d Hd) as (Hf & _). destruct (Hf y i Hy) as (m & Hm & _).
    specialize (H3 i ltac:(by eexists)). unfold i in *. lia. }
  assert (forall d, d ∈ possible (w_dir w) -> dir_ok (created w x i n) H tl d) as Hold.
  { intros d Hd. apply (dir_ok_inode w); [by apply H4|by apply Hno|by apply Hno|done]. }
  assert (latest (w_dir w) ∈ possible (w_dir w)) as Hl by apply list_elem_of_here.
  assert (d' !! SNAPSHOT_FILE = latest (w_dir w) !! SNAPSHOT_FILE /\ d' !! WAL_FILE = latest (w_dir w) !! WAL_FILE)
    as [Es Ew] by (unfold d'; by rewrite !lookup_insert_ne).
  assert (dir_ok (created w x i n) H tl d') as Hnew.
  { destruct (Hold _ Hl) as (Hf & Hinj & i_s & n_s & i_w & n_w & s & k & r & D1 & D). split_and!.
    - intros y j [[<- <-]|[_ Hy]]%lookup_insert_Some; [|by apply (Hf y)].
      exists n. cbn [created set_next set_inode w_inodes]. by rewrite lookup_insert_eq.
    - intros y z j [[<- <-]|[? Hy]]%lookup_insert_Some [[<- Ej]|[? Hz]]%lookup_insert_Some; try done.
      + by destruct (Hno _ z Hl).
      + subst j. by destruct (Hno _ y Hl).
      + by apply (Hinj y z j).
    - exists i_s, n_s, i_w, n_w, s, k, r. by rewrite Es, Ew. }
  assert (forall d, d ∈ possible (w_dir (created w x i n)) -> d = d' \/ d ∈ possible (w_dir w)) as Hposs.
  { intros d Hd. by apply elem_of_cons in Hd. }
  split_and!.
  - split; try done.
    + intros j. cbn [created set_next set_inode w_inodes w_next].
      rewrite lookup_insert_is_Some. intros [<-|[_ Hj]]; [lia|]. specialize (H3 j Hj). unfold i. lia.
    + intros d [->|Hd]%Hposs; [done|by apply Hold].
    + intros y j d Hy. cbn [created set_next set_inode set_dir w_dir async_put latest].
      intros [[<- <-]|[_ Hyj]]%lookup_insert_Some Hd%Hposs.
      * destruct Hd as [->|Hd]; [rewrite Es, Ew|]; split; by apply Hno.
      * destruct Hd as [->|Hd]; [rewrite Es, Ew|]; by apply (H5 y).
  - split; try done.
    + intros p. rewrite !elem_of_refs. split.
      * intros (d & [->|Hd]%Hposs & ->); [exists (latest (w_dir w)); by rewrite Es, Ew|by exists d].
      * intros (d & Hd & ->). exists d. split; [|done]. by apply elem_of_cons; right.
    + intros y Hy. cbn [created set_next set_inode set_dir w_dir async_put latest].
      destruct Hy as [->| ->]; [apply Es|apply Ew].
    + intros p j (d & Hd & ->)%elem_of_refs Hj. cbn [created set_next set_inode w_inodes].
      apply lookup_insert_ne. intros <-. by destruct Hj as [Hj|Hj]; apply (Hno _ _ Hd) in Hj.
  - intros d [->|Hd]%Hposs; [rewrite Es, Ew|]; split; by apply Hno.
Qed.
End frames.

(** ** Replacing a file atomically *)

Section atomic.
Context {P : Primitives} {cap : WalCap} (faulty : Prop).
Implicit Types (w : World) (H : list bytes).

Lemma find_latest w H tl x i :
  disk_ok w H tl -> latest (w_dir w) !! x = Some i ->
  exists n, find_file x w = Some (i, n) /\ w_inodes w !! i = Some n /\ safe_file n.
Proof using Type.
  intros Hd Hx. destruct (dk_dirs _ _ _ Hd (latest (w_dir w)) ltac:(apply list_elem_of_here)) as (Hf & _).
  destruct (Hf x i Hx) as (n & Hn & Hs). exists n. unfold find_file. rewrite Hx. cbn [mbind option_bind].
  by rewrite Hn.
Qed.

Lemma new_file_safe : safe_file (mkInode (mkMeta RegularFile 384) (settled [])).
Proof using Type. done. Qed.

(** A temporary file is opened empty and nothing else is touched. *)
Lemma wp_open_temp x w H tl (Q : nat -> World -> Prop) (E : PError -> World -> Prop) (S : World -> Prop) :
  temporary x -> disk_ok w H tl -> ready faulty w ->
  (forall i n w1, disk_ok w1 H tl -> ready faulty w1 -> frames w w1 -> private w1 i ->
     latest (w_dir w1) !! x = Some i -> w_inodes w1 !! i = Some n -> safe_file n ->
     latest (in_data n) = [] -> Q i w1) ->
  (faulty -> forall k w1, disk_ok w1 H tl -> frames w w1 -> E (PIo k) w1) ->
  (faulty -> forall w1, disk_ok w1 H tl -> frames w w1 -> S w1) ->
  wp (open_file x true true) Q E S w.
Proof using Type.
  intros Hx Hd Hr HQ HE HS. apply (wp_syscall faulty); [done| | |].
  2: { intros Hf k s. apply HE; [done|by apply disk_script|apply frames_script]. }
  2: { intros Hf s. apply HS; [done|by apply disk_script|apply frames_script]. }
  intros s Hr'. set (w0 := set_script s w) in *.
  assert (disk_ok w0 H tl) as Hd0 by (by apply disk_script).
  assert (frames w w0) as Hf0 by apply frames_script.
  destruct (latest (w_dir w0) !! x) as [i|] eqn:Ei.
  - destruct (find_latest w0 H tl x i Hd0 Ei) as (n & -> & Hn & Hs).
    rewrite decide_False by (intros Hc; apply Hc, Hs).
    assert (private w0 i) as Hp by (intros d Hin; by apply (dk_temp _ _ _ Hd0 x)).
    apply (HQ i (mkInode (in_meta n) (async_put [] (in_data n)))); try done.
    + by apply disk_private; [|eexists| |].
    + eapply frames_trans; [done|by apply frames_private].
    + cbn [set_inode w_inodes]. by rewrite lookup_insert_eq.
  - unfold find_file. rewrite Ei. cbn [mbind option_bind].
    destruct (disk_create w0 x (mkInode (mkMeta RegularFile 384) (settled [])) H tl Hd0 Ei)
      as (Hd1 & Hf1 & Hp1); [by destruct Hx as [->| ->]|by destruct Hx as [->| ->]|done|].
    apply (HQ _ (mkInode (mkMeta RegularFile 384) (settled [])) _ Hd1); try done.
    + by eapply frames_trans.
    + unfold created. cbn [set_next set_inode set_dir w_dir async_put latest]. by rewrite lookup_insert_eq.
    + unfold created. cbn [set_next set_inode w_inodes]. by rewrite lookup_insert_eq.
Qed.

Lemma write_at_start b : write_at 0 b [] = b.
Proof using Type. unfold write_at. simpl. by rewrite drop_nil, app_nil_r. Qed.

(** The three steps before the rename. *)
Lemma wp_prepare {A} x b (f : nat -> Io A) w H tl Q (E : PError -> World -> Prop) (S : World -> Prop) :
  temporary x -> disk_ok w H tl -> ready faulty w ->
  (forall i n w1, disk_ok w1 H tl -> ready faulty w1 -> frames w w1 ->
     latest (w_dir w1) !! x = Some i -> w_inodes w1 !! i = Some n -> in_data n = settled b ->
     wp (f i) Q E S w1) ->
  (faulty -> forall k w1, disk_ok w1 H tl -> frames w w1 -> E (PIo k) w1) ->
  (faulty -> forall w1, disk_ok w1 H tl -> frames w w1 -> S w1) ->
  wp (i ← open_file x true true; _ ← write_all i 0 b; _ ← sync_file i; f i) Q E S w.
Proof using Type.
  intros Hx Hd Hr HQ HE HS. apply wp_bind. eapply wp_open_temp; try done.
  intros i n w1 Hd1 Hr1 Hf1 Hp1 Hi1 Hn1 Hs1 Hempty.
  assert (forall c s, disk_ok (set_inode i c (set_script s w1)) H tl /\
            frames w (set_inode i c (set_script s w1)) \/ ~ safe_file c) as Hput.
  { intros c s. destruct (decide (mt_type (in_meta c) = RegularFile /\ N.land (mt_mode (in_meta c)) 63 = 0%N))
      as [Hc|Hc]; [left|by right].
    split; [apply disk_private; [by apply disk_script|by eexists|done|done]|].
    eapply frames_trans; [exact Hf1|]. eapply frames_trans; [apply (frames_script _ s)|by apply frames_private]. }
  apply wp_bind. eapply (wp_write faulty); [done|exact Hn1| | | |].
  2: { intros Hf k s c _. destruct (Hput (mkInode (in_meta n)
         (async_put (write_at (N.to_nat 0) c (latest (in_data n))) (in_data n))) s) as [[? ?]|[]]; [by apply HE|done]. }
  2: { intros Hf k s. apply HE; [done|by apply disk_script|]. eapply frames_trans; [done|apply frames_script]. }
  2: { intros Hf s. apply HS; [done|by apply disk_script|]. eapply frames_trans; [done|apply frames_script]. }
  intros s Hr2. rewrite Hempty, write_at_start.
  set (n2 := mkInode (in_meta n) (async_put b (in_data n))). set (w2 := set_inode i n2 (set_script s w1)).
  destruct (Hput n2 s) as [[Hd2 Hf2]|[]]; [|done]. fold w2 in Hd2, Hf2.
  assert (w_inodes w2 !! i = Some n2) as Hn2 by (cbn [w2 set_inode w_inodes]; by rewrite lookup_insert_eq).
  apply wp_bind. apply (wp_syscall faulty); [exact Hr2| | |].
  2: { intros Hf k s2. apply HE; [done|by apply disk_script|]. eapply frames_trans; [done|apply frames_script]. }
  2: { intros Hf s2. apply HS; [done|by apply disk_script|]. eapply frames_trans; [done|apply frames_script]. }
  intros s2 Hr3. unfold update_file. cbn [set_script w_inodes]. rewrite Hn2.
  set (n3 := mkInode (in_meta n2) (async_sync (in_data n2))).
  apply (HQ i n3).
  - apply disk_private; [by apply disk_script|by eexists|exact Hp1|exact Hs1].
  - exact Hr3.
  - eapply frames_trans; [exact Hf2|]. eapply frames_trans; [apply (frames_script _ s2)|].
    apply frames_private. exact Hp1.
  - exact Hi1.
  - cbn [set_inode w_inodes]. by rewrite lookup_insert_eq.
  - reflexivity.
Qed.

(** The rename and the directory sync. *)
Lemma wp_publish x y w H i (Q : unit -> World -> Prop) (E : PError -> World -> Prop) (S : World -> Prop) :
  temporary x -> disk_ok w H Exact -> ready faulty w -> latest (w_dir w) !! x = Some i ->
  dir_ok w H Exact (<[y := i]> (delete x (latest (w_dir w)))) -> y = SNAPSHOT_FILE \/ y = WAL_FILE ->
  (forall s, ready faulty (set_script s w) ->
     let w1 := set_dir (settled (<[y := i]> (delete x (latest (w_dir w))))) (set_script s w) in
     disk_ok w1 H Exact -> Q tt w1) ->
  (faulty -> forall k w1, disk_ok w1 H Exact -> w_locked w1 = w_locked w -> E (PIo k) w1) ->
  (faulty -> forall w1, disk_ok w1 H Exact -> w_locked w1 = w_locked w -> S w1) ->
  wp (_ ← rename x y; sync_directory) Q E S w.
Proof using Type.
  intros Hx Hd Hr Hi Hok Hy HQ HE HS. apply wp_bind, (wp_syscall faulty); [done| | |].
  2: { intros Hf k s. apply HE; [done|by apply disk_script|done]. }
  2: { intros Hf s. apply HS; [done|by apply disk_script|done]. }
  intros s Hr1. cbn [set_script w_dir]. rewrite Hi. set (d' := <[y := i]> _) in *.
  assert (disk_ok (set_dir (async_put d' (w_dir w)) (set_script s w)) H Exact) as Hd1.
  { apply (disk_put_dir (set_script s w)); [by apply disk_script|exact Hok|].
    intros z j Hz [[E1 _]|[_ Hj]]%lookup_insert_Some.
    - subst z. by destruct Hy as [->| ->], Hz.
    - apply lookup_delete_Some in Hj as [_ Hj]. done. }
  set (w1 := set_dir (async_put d' (w_dir w)) (set_script s w)) in *.
  apply wp_bind, (wp_syscall faulty); [exact Hr1| | |].
  2: { intros Hf k s2. apply HE; [done|by apply disk_script|done]. }
  2: { intros Hf s2. apply HS; [done|by apply disk_script|done]. }
  intros s2 Hr2. apply (wp_syscall faulty); [exact Hr2| | |].
  2: { intros Hf k s3. apply HE; [done|by apply disk_script, disk_script|done]. }
  2: { intros Hf s3. apply HS; [done|by apply disk_script, disk_script|done]. }
  intros s3 Hr3. apply (HQ s3); [exact Hr3|].
  pose proof (disk_sync_dir (set_script s3 w1) H Exact (disk_script _ s3 _ _ Hd1)) as Hd2. exact Hd2.
Qed.
End atomic.

(** ** Checkpoints *)

Lemma last_numbered H p : last H = Some p -> numbered H !! (length H - 1) = Some (mkRecord (N.of_nat (length H)) p).
Proof.
  intros Hl. rewrite numbered_lookup. rewrite last_lookup in Hl.
  replace (length H - 1) with (pred (length H)) by lia. rewrite Hl. cbn [fmap option_fmap option_map].
  by destruct H.
Qed.

Section checkpoints.
Context {P : Primitives} {cap : WalCap} (faulty : Prop).
Implicit Types (w : World) (H : list bytes).

(** The directory as it is now holds a snapshot of the last entry. *)
Definition snapshotted (w : World) (H : list bytes) : Prop :=
  exists i n r, latest (w_dir w) !! SNAPSHOT_FILE = Some i /\ w_inodes w !! i = Some n /\
    in_data n = settled (snapshot_image r) /\ numbered H !! (length H - 1) = Some r.

Lemma latest_ref w : (latest (w_dir w) !! SNAPSHOT_FILE, latest (w_dir w) !! WAL_FILE) ∈ refs w.
Proof using Type. apply elem_of_refs. exists (latest (w_dir w)). split; [apply list_elem_of_here|done]. Qed.

Lemma snapshotted_frames w w1 H : frames w w1 -> snapshotted w H -> snapshotted w1 H.
Proof using Type.
  intros [_ Hl Hi _] (i & n & r & H1 & H2 & H3). exists i, n, r. rewrite Hl by (by left).
  split; [done|]. split; [|done]. rewrite <- H2. apply (Hi _ i (latest_ref w)). by left.
Qed.

Lemma attached_frames w w1 j : frames w w1 -> attached w j -> attached w1 j.
Proof using Type.
  intros [Hr _ _ _] Ha d Hd.
  assert ((d !! SNAPSHOT_FILE, d !! WAL_FILE) ∈ refs w) as (d0 & Hd0 & [= _ E])%elem_of_refs.
  { apply Hr, elem_of_refs. by exists d. }
  rewrite E. by apply Ha.
Qed.

(** Renaming keeps files safe and names apart. *)
Lemma dir_renamed w H tl d x y i :
  dir_ok w H tl d -> d !! x = Some i ->
  let d' := <[y := i]> (delete x d) in
  (forall z j, d' !! z = Some j -> exists n, w_inodes w !! j = Some n /\ safe_file n) /\
  (forall z1 z2 j, d' !! z1 = Some j -> d' !! z2 = Some j -> z1 = z2).
Proof using Type.
  intros (Hf & Hinj & _) Hx d'. split.
  - intros z j [[<- <-]|[_ [_ Hz]%lookup_delete_Some]]%lookup_insert_Some; [by apply (Hf x)|by apply (Hf z)].
  - intros z1 z2 j [[<- <-]|[? [Hn1 Hz1]%lookup_delete_Some]]%lookup_insert_Some
      [[<- E]|[? [Hn2 Hz2]%lookup_delete_Some]]%lookup_insert_Some.
    + done.
    + by destruct Hn2; apply (Hinj x z2 i).
    + subst j. by destruct Hn1; apply (Hinj x z1 i).
    + by apply (Hinj z1 z2 j).
Qed.

Lemma write_atomic_eq x y b : write_atomic x y b =
  (i ← open_file x true true; _ ← write_all i 0 b; _ ← sync_file i; (fun _ => _ ← rename x y; sync_directory) i).
Proof using Type. done. Qed.

Lemma wp_new_snapshot w H p (Q : unit -> World -> Prop) (E : PError -> World -> Prop) (S : World -> Prop) :
  disk_ok w H Exact -> ready faulty w -> last H = Some p ->
  (forall w1, disk_ok w1 H Exact -> ready faulty w1 -> snapshotted w1 H -> w_locked w1 = w_locked w -> Q tt w1) ->
  (faulty -> forall k w1, disk_ok w1 H Exact -> w_locked w1 = w_locked w -> E (PIo k) w1) ->
  (faulty -> forall w1, disk_ok w1 H Exact -> w_locked w1 = w_locked w -> S w1) ->
  wp (write_atomic SNAPSHOT_TEMP SNAPSHOT_FILE (snapshot_image (mkRecord (N.of_nat (length H)) p))) Q E S w.
Proof using Type.
  intros Hd Hr Hp HQ HE HS. apply last_numbered in Hp. set (r := mkRecord _ p) in *.
  rewrite write_atomic_eq. eapply (wp_prepare faulty); [by left|done|done| | |].
  2: { intros Hf k w1 H1 Hfr. apply HE; [done|done|apply Hfr]. }
  2: { intros Hf w1 H1 Hfr. apply HS; [done|done|apply Hfr]. }
  intros i n w1 Hd1 Hr1 Hf1 Hi Hn Hc. pose proof (fr_locked _ _ Hf1) as Hlk.
  pose proof (dk_dirs _ _ _ Hd1 _ (list_elem_of_here _ _ : latest (w_dir w1) ∈ possible (w_dir w1))) as Hok.
  pose proof (dir_renamed w1 H Exact _ _ SNAPSHOT_FILE i Hok Hi) as [Hsafe Hinj].
  destruct Hok as (_ & _ & i_s & n_s & i_w & n_w & s & k & r0 & D1 & D2 & D3 & D4 & D5 & D6 & D7 & D8 & D9).
  eapply (wp_publish faulty); [by left|exact Hd1|exact Hr1|exact Hi| |by left| | |].
  - split_and!; [exact Hsafe|exact Hinj|]. exists i, n, i_w, n_w, (length H - 1), k, r.
    rewrite lookup_insert_eq, lookup_insert_ne, lookup_delete_ne by done. split_and!; try done.
    pose proof (ho_nonempty _ (dk_hist _ _ _ Hd1)). destruct H; [done|]. simpl in *. lia.
  - intros s' Hr' w2 Hd2. apply HQ; [done|done| |done]. exists i, n, r. cbn [w2 set_dir w_dir settled latest].
    by rewrite lookup_insert_eq.
  - intros Hf k' w2 Hd2 E2. apply HE; [done|done|congruence].
  - intros Hf w2 Hd2 E2. apply HS; [done|done|congruence].
Qed.

Lemma wal_data_empty H tl : tail_of H tl [] -> wal_data H tl (length H) (settled wal_header).
Proof using Type.
  intros Ht h ->%list_elem_of_singleton. split; [apply cap_header|]. exists []. rewrite log_all. unfold wal_image.
  cbn [fmap list_fmap concat]. by rewrite !app_nil_r.
Qed.

Lemma wp_new_wal w H (Q : unit -> World -> Prop) (E : PError -> World -> Prop) (S : World -> Prop) :
  disk_ok w H Exact -> ready faulty w -> snapshotted w H ->
  (forall w1 i n, disk_ok w1 H Exact -> ready faulty w1 -> attached w1 i -> w_inodes w1 !! i = Some n ->
     in_data n = settled wal_header -> w_locked w1 = w_locked w -> Q tt w1) ->
  (faulty -> forall k w1, disk_ok w1 H Exact -> w_locked w1 = w_locked w -> E (PIo k) w1) ->
  (faulty -> forall w1, disk_ok w1 H Exact -> w_locked w1 = w_locked w -> S w1) ->
  wp (write_atomic WAL_TEMP WAL_FILE wal_header) Q E S w.
Proof using Type.
  intros Hd Hr Hsn HQ HE HS. rewrite write_atomic_eq.
  eapply (wp_prepare faulty); [by right|done|done| | |].
  2: { intros Hf k w1 H1 Hfr. apply HE; [done|done|apply Hfr]. }
  2: { intros Hf w1 H1 Hfr. apply HS; [done|done|apply Hfr]. }
  intros i n w1 Hd1 Hr1 Hf1 Hi Hn Hc. pose proof (fr_locked _ _ Hf1) as Hlk.
  pose proof (dk_dirs _ _ _ Hd1 _ (list_elem_of_here _ _ : latest (w_dir w1) ∈ possible (w_dir w1))) as Hok.
  pose proof (dir_renamed w1 H Exact _ _ WAL_FILE i Hok Hi) as [Hsafe Hinj].
  destruct (snapshotted_frames _ _ _ Hf1 Hsn) as (i_s & n_s & r & S1 & S2 & S3 & S4).
  eapply (wp_publish faulty); [by right|exact Hd1|exact Hr1|exact Hi| |by right| | |].
  - split_and!; [exact Hsafe|exact Hinj|]. exists i_s, n_s, i, n, (length H - 1), (length H), r.
    rewrite lookup_insert_eq, lookup_insert_ne, lookup_delete_ne by done. split_and!; try done; [lia|].
    rewrite Hc. by apply wal_data_empty.
  - intros s' Hr' w2 Hd2. apply (HQ w2 i n); [done|done| |done|done|done].
    intros d ->%list_elem_of_singleton. apply lookup_insert_eq.
  - intros Hf k' w2 Hd2 E2. apply HE; [done|done|congruence].
  - intros Hf w2 Hd2 E2. apply HS; [done|done|congruence].
Qed.

(** Opening an existing file changes nothing but the script. *)
Lemma wp_open_existing x w H tl i (Q : nat -> World -> Prop) (E : PError -> World -> Prop) (S : World -> Prop) :
  disk_ok w H tl -> ready faulty w -> latest (w_dir w) !! x = Some i ->
  (forall s, ready faulty (set_script s w) -> Q i (set_script s w)) ->
  (faulty -> forall k s, E (PIo k) (set_script s w)) ->
  (faulty -> forall s, S (set_script s w)) ->
  forall c, wp (open_file x c false) Q E S w.
Proof using Type.
  intros Hd Hr Hi HQ HE HS c. apply (wp_syscall faulty); [done| |done|done]. intros s Hr'.
  destruct (find_latest (set_script s w) H tl x i (disk_script _ s _ _ Hd) Hi) as (n & -> & Hn & Hs).
  rewrite decide_False by (intros Hc; apply Hc, Hs). by apply HQ.
Qed.
End checkpoints.

(** ** Appending *)

Lemma write_at_end (c data : bytes) : write_at (N.to_nat (lenN data)) c data = data ++ c.
Proof.
  unfold write_at. rewrite lenN_to_nat, Nat.sub_diag. cbn [zeros array_of replicate].
  rewrite app_nil_r, take_ge by lia. by rewrite drop_ge, app_nil_r by lia.
Qed.

Section appending.
Context {P : Primitives} {cap : WalCap} {PO : PrimitivesOk P} (faulty : Prop).
Implicit Types (w : World) (H : list bytes) (st : Store).

Lemma hist_last_size H p : hist_ok H -> last H = Some p -> (lenN p <= HARD_MAX_STATE_BYTES)%N.
Proof using Type.
  intros [_ _ Hs] Hp. rewrite last_lookup in Hp. exact (Forall_lookup_1 _ _ _ _ Hs Hp).
Qed.

Lemma wp_store_checkpoint st w H p Q E (S : SW -> Prop) :
  disk_ok w H Exact -> ready faulty w -> last H = Some p ->
  (forall w1 i n, disk_ok w1 H Exact -> ready faulty w1 -> attached w1 i -> w_inodes w1 !! i = Some n ->
     in_data n = settled wal_header -> w_locked w1 = w_locked w -> Q tt (mkSW (mkStore i) w1)) ->
  (faulty -> forall k w1, disk_ok w1 H Exact -> w_locked w1 = w_locked w -> E (PIo k) (mkSW st w1)) ->
  (faulty -> forall w1, disk_ok w1 H Exact -> w_locked w1 = w_locked w -> S (mkSW st w1)) ->
  wp (store_checkpoint (N.of_nat (length H)) p) Q E S (mkSW st w).
Proof using Type.
  intros Hd Hr Hp HQ HE HS. pose proof (hist_last_size H p (dk_hist _ _ _ Hd) Hp) as Hsz.
  unfold store_checkpoint. rewrite (proj2 (N.ltb_ge _ _)) by done.
  apply wp_bind, wp_io, wp_pure. rewrite encode_snapshot_image by done.
  apply wp_bind, wp_io. eapply (wp_new_snapshot faulty); [done|done|done| |done|done].
  intros w1 Hd1 Hr1 Hs1 E1. apply wp_bind, wp_io.
  eapply (wp_new_wal faulty); [done|done|done| |by rewrite E1|by rewrite E1].
  intros w2 i n Hd2 Hr2 Ha2 Hn2 Hc2 E2. rewrite E1 in E2. apply wp_bind, wp_io.
  eapply (wp_open_existing faulty); [exact Hd2|exact Hr2|apply Ha2, list_elem_of_here| | |].
  - intros s Hr3. apply (HQ (set_script s w2) i n); try done. by apply disk_script.
  - intros Hf k s. apply HE; [done|by apply disk_script|done].
  - intros Hf s. apply HS; [done|by apply disk_script|done].
Qed.

(** The log file is rewritten, or the history grows. *)
Lemma disk_wal w H tl H' tl' i n n' :
  disk_ok w H tl -> attached w i -> w_inodes w !! i = Some n -> in_meta n' = in_meta n ->
  hist_ok H' -> H `prefix_of` H' ->
  (forall k, k <= length H -> wal_data H tl k (in_data n) -> wal_data H' tl' k (in_data n')) ->
  disk_ok (set_inode i n' w) H' tl'.
Proof using Type.
  intros [H1 H2 H3 H4 H5] Ha Hn Hm HH' [q ->] Hwal.
  assert (forall s r, numbered H !! s = Some r -> numbered (H ++ q) !! s = Some r) as Hnum.
  { intros s r. rewrite !numbered_lookup. destruct (H !! s) as [p|] eqn:E; [|done].
    by rewrite (lookup_app_l_Some _ _ _ _ E). }
  split; try done.
  - intros j. cbn [set_inode w_inodes w_next]. rewrite lookup_insert_is_Some. intros [<-|[_ Hj]]; apply H3; [by eexists|done].
  - intros d Hd. pose proof (Ha d Hd) as Hw.
    destruct (H4 d Hd) as (Hf & Hinj & i_s & n_s & i_w & n_w & s & k & r & D1 & D2 & D3 & D4 & D5 & D6 & D7 & D8 & D9).
    assert (i_w = i) as -> by congruence. assert (n_w = n) as -> by congruence.
    assert (i <> i_s) as Hne by (intros ->; by pose proof (Hinj _ _ _ D1 D5)).
    split_and!; [|done|].
    + intros x j Hx. destruct (Hf x j Hx) as (m & Hm' & Hs). cbn [set_inode w_inodes].
      destruct (decide (i = j)) as [<-|]; [|rewrite lookup_insert_ne by done; by exists m].
      exists n'. rewrite lookup_insert_eq. split; [done|]. unfold safe_file in *. rewrite Hm. by simplify_eq.
    + exists i_s, n_s, i, n', s, k, r. cbn [set_inode w_inodes]. rewrite lookup_insert_eq, lookup_insert_ne by done.
      rewrite length_app. split_and!; try done; [by apply Hnum|lia|by apply Hwal].
Qed.

(** The log of a store that is attached. *)
Lemma attached_wal w H tl i :
  disk_ok w H tl -> attached w i -> exists n k, w_inodes w !! i = Some n /\ safe_file n /\ k <= length H /\ wal_data H tl k (in_data n).
Proof using Type.
  intros [_ _ _ H4 _] Ha. set (d := latest (w_dir w)).
  assert (d ∈ possible (w_dir w)) as Hd by apply list_elem_of_here.
  destruct (H4 d Hd) as (Hf & _ & i_s & n_s & i_w & n_w & s & k & r & D1 & D2 & D3 & D4 & D5 & D6 & D7 & D8 & D9).
  assert (i_w = i) as -> by (specialize (Ha d Hd); congruence).
  exists n_w, k. split_and!; try done; destruct (Hf _ _ D5) as (m & Hm & [? ?]); by simplify_eq.
Qed.

(** All contents the log can be found with are the same. *)
Lemma wal_exact H k a h : wal_data H Exact k a -> h ∈ possible a -> h = wal_image (log H k).
Proof using Type. intros Ha Hh. destruct (Ha h Hh) as (_ & t & -> & ->). by rewrite app_nil_r. Qed.

Lemma inode_eta (n : Inode) : mkInode (in_meta n) (in_data n) = n.
Proof using Type. by destruct n. Qed.
Lemma world_eta w :
  w = mkWorld (w_root w) (w_dir w) (w_inodes w) (w_next w) (w_locked w) (w_script w).
Proof using Type. by destruct w. Qed.

(** The log [i] of the store, which holds [h], while the record of [p] is being
    added to it. *)
Section durable.
Context (w : World) (H : list bytes) (p : bytes) (i : nat) (n : Inode) (h : bytes).
Context (Hd : disk_ok w H Exact) (Ha : attached w i) (Hn : w_inodes w !! i = Some n)
  (Hh : latest (in_data n) = h) (HH : hist_ok (H ++ [p]))
  (Hfit : (lenN h + lenN (record_image (newest H p)) <= wal_cap)%N).

Definition holding (a : Async bytes) (s : list Fault) : World :=
  set_inode i (mkInode (in_meta n) a) (set_script s w).

Lemma holding_start : w = holding (in_data n) (w_script w).
Proof using Hn.
  unfold holding, set_inode, set_script. cbn [w_root w_dir w_inodes w_next w_locked w_script].
  rewrite inode_eta, insert_id by done. apply world_eta.
Qed.

Lemma holding_lookup a s : w_inodes (holding a s) !! i = Some (mkInode (in_meta n) a).
Proof using Type. cbn [holding set_inode w_inodes]. apply lookup_insert_eq. Qed.

Lemma holding_put a a' s : set_inode i (mkInode (in_meta n) a') (holding a s) = holding a' s.
Proof using Type.
  unfold holding, set_inode, set_script. cbn [w_root w_dir w_inodes w_next w_locked w_script].
  by rewrite insert_insert_eq.
Qed.

Lemma holding_ok a s H' tl :
  hist_ok H' -> H `prefix_of` H' ->
  (forall k, k <= length H -> h = wal_image (log H k) -> wal_data H' tl k a) ->
  disk_ok (holding a s) H' tl.
Proof using Hd Ha Hn Hh.
  intros HH' Hpre Hw. eapply (disk_wal (set_script s w) H Exact); [by apply disk_script|done|done|done|done|done|].
  intros k Hk Hwal. apply Hw; [done|]. apply (wal_exact H k (in_data n)); [done|]. rewrite <- Hh. apply list_elem_of_here.
Qed.

(** Every content is [h] with a part of the record. *)
Definition adding (a : Async bytes) : Prop :=
  forall b, b ∈ possible a -> exists c, b = h ++ c /\ c `prefix_of` record_image (newest H p).

Lemma adding_ok a s : adding a -> disk_ok (holding a s) H (Pending p).
Proof using Hd Ha Hn Hh Hfit.
  intros Hadd. apply holding_ok; [apply Hd|done|]. intros k Hk Hhk b Hb.
  destruct (Hadd b Hb) as (c & -> & Hc). split.
  - apply prefix_length in Hc. rewrite lenN_app. unfold lenN in *. lia.
  - exists c. by rewrite <- Hhk.
Qed.

Lemma adding_start : adding (in_data n).
Proof using Hd Ha Hn Hh.
  destruct (attached_wal w H Exact i Hd Ha) as (m & k & Hm & _ & _ & Hw). simplify_eq.
  intros b Hb. exists []. split; [|apply prefix_nil]. rewrite app_nil_r.
  rewrite (wal_exact H k _ b Hw Hb). symmetry. apply (wal_exact H k (in_data n)); [done|].
  rewrite <- Hh. apply list_elem_of_here.
Qed.

Lemma adding_put a c : adding a -> c `prefix_of` record_image (newest H p) -> adding (async_put (h ++ c) a).
Proof using Type. intros Ha' Hc b [->|Hb]%elem_of_cons; [by exists c|by apply Ha']. Qed.

Lemma kept_holding_ok s : disk_ok (holding (settled h) s) H Exact.
Proof using Hd Ha Hn Hh Hfit.
  apply holding_ok; [apply Hd|done|]. intros k Hk Hhk b ->%list_elem_of_singleton.
  cbn [latest settled]. split; [lia|]. exists []. by rewrite app_nil_r.
Qed.

Lemma added_ok s : disk_ok (holding (settled (h ++ record_image (newest H p))) s) (H ++ [p]) Exact.
Proof using Hd Ha Hn Hh HH Hfit.
  apply holding_ok; [done|by apply prefix_app_r|]. intros k Hk Hhk b ->%list_elem_of_singleton.
  cbn [latest settled]. split; [by rewrite lenN_app|]. exists [].
  by rewrite app_nil_r, log_snoc, wal_image_snoc, <- Hhk.
Qed.

Lemma wp_update f a s Q (E : PError -> World -> Prop) (S : World -> Prop) :
  ready faulty (holding a s) ->
  (forall s', ready faulty (holding a s') -> Q tt (holding (f a) s')) ->
  (faulty -> forall k s', E (PIo k) (holding a s')) ->
  (faulty -> forall s', S (holding a s')) ->
  wp (syscall (update_file i f)) Q E S (holding a s).
Proof using Type.
  intros Hr HQ HE HS. apply (wp_syscall faulty); [done| |done|done]. intros s' Hr'.
  change (set_script s' (holding a s)) with (holding a s') in *.
  unfold update_file. rewrite holding_lookup. cbn [in_meta in_data]. rewrite holding_put. by apply HQ.
Qed.

Lemma wp_length a s Q (E : PError -> World -> Prop) (S : World -> Prop) :
  ready faulty (holding a s) ->
  (forall s', ready faulty (holding a s') -> Q (lenN (latest a)) (holding a s')) ->
  (faulty -> forall k s', E (PIo k) (holding a s')) ->
  (faulty -> forall s', S (holding a s')) ->
  wp (handle_len i) Q E S (holding a s).
Proof using Type.
  intros Hr HQ HE HS. apply (wp_syscall faulty); [done| |done|done]. intros s' Hr'.
  change (set_script s' (holding a s)) with (holding a s') in *. rewrite holding_lookup. by apply HQ.
Qed.

Context (Q : unit -> SW -> Prop) (E : PError -> SW -> Prop) (S : SW -> Prop).
Context (HE : forall e a s, faulty -> adding a -> E e (mkSW (mkStore i) (holding a s)))
  (HS : forall a s, faulty -> adding a -> S (mkSW (mkStore i) (holding a s))).

Lemma adding_cut a : adding a ->
  take (N.to_nat (lenN h)) (latest a ++ zeros (N.to_nat (lenN h) - length (latest a))) = h.
Proof using Type.
  intros Hadd. destruct (Hadd _ (list_elem_of_here _ _)) as (c & -> & _).
  rewrite lenN_to_nat, <- app_assoc. by rewrite take_app_length.
Qed.

Lemma wp_rollback a s e :
  faulty -> adding a -> wp (rollback_append (lenN h) e) Q E S (mkSW (mkStore i) (holding a s)).
Proof using HE HS.
  intros Hf Hadd. assert (forall a' s', ready faulty (holding a' s')) as Hr by (intros; by left).
  assert (adding (async_put h a)) as Hcut.
  { rewrite <- (app_nil_r h) at 1. apply adding_put; [done|apply prefix_nil]. }
  assert (adding (settled h)) as Hsync.
  { intros b Hb. apply Hcut. apply list_elem_of_singleton in Hb as ->. apply list_elem_of_here. }
  unfold rollback_append. apply wp_bind, wp_wal_file, wp_bind, wp_io. apply wp_update; [done| |auto|auto].
  intros s1 _. cbn beta zeta. rewrite adding_cut by done. apply wp_bind, wp_io. apply wp_update; [done| |auto|auto].
  intros s2 _. apply wp_bind. unfold seek_end. apply wp_bind, wp_wal_file, wp_io. apply wp_length; [done| |auto|auto].
  intros s3 _. apply wp_io, wp_throw. auto.
Qed.

Lemma wp_append_durable s :
  ready faulty (holding (in_data n) s) ->
  (forall s', ready faulty (holding (in_data n) s') ->
     Q tt (mkSW (mkStore i) (holding (settled (h ++ record_image (newest H p))) s'))) ->
  wp (append_durable (lenN h) (record_image (newest H p))) Q E S (mkSW (mkStore i) (holding (in_data n) s)).
Proof using Hd Ha Hn Hh HE HS.
  intros Hr HQ. pose proof adding_start as Hadd. set (r := record_image _) in *.
  assert (forall c, c `prefix_of` r -> adding (async_put (h ++ c) (in_data n))) as Hput by (intros; by apply adding_put).
  unfold append_durable. apply wp_bind, wp_wal_file, wp_bind. unfold seek_end.
  apply wp_bind, wp_wal_file, wp_io. apply wp_length; [done| |auto|auto]. intros s1 Hr1.
  apply wp_on_fail, wp_bind, wp_io. rewrite Hh.
  eapply (wp_write faulty); [done|apply holding_lookup| | | |]; cbn [in_meta in_data].
  - intros s2 Hr2. change (set_script s2 (holding (in_data n) s1)) with (holding (in_data n) s2) in *.
    rewrite holding_put, Hh, write_at_end. apply wp_io. apply wp_update; [exact Hr2| | |].
    + intros s3 Hr3. by apply HQ.
    + intros Hf k s3. apply wp_rollback; [done|by apply Hput].
    + intros Hf s3. apply HS; [done|by apply Hput].
  - intros Hf k s2 c Hc. change (set_script s2 (holding (in_data n) s1)) with (holding (in_data n) s2).
    rewrite holding_put, Hh, write_at_end. apply wp_rollback; [done|by apply Hput].
  - intros Hf k s2. by apply (wp_rollback (in_data n) s2).
  - intros Hf s2. by apply (HS (in_data n) s2).
Qed.
End durable.

Definition fits (o : PersistenceOptions) (H : list bytes) (p : bytes) : Prop :=
  (N.of_nat (length H) + 1 < two64)%N /\ (lenN p <= max_record_bytes o)%N /\
  (WAL_HEADER_LEN + RECORD_OVERHEAD + lenN p <= max_wal_bytes o)%N.

(** The history, and perhaps part or all of one more record. *)
Definition interrupted (w : World) (H : list bytes) (p : bytes) : Prop :=
  exists tl, disk_ok w H tl /\ pending_ok H tl /\ (tl = Exact \/ tl = Pending p).

Lemma hist_snoc o H p :
  options_ok o -> hist_ok H -> (N.of_nat (length H) + 1 < two64)%N -> (lenN p <= max_record_bytes o)%N -> hist_ok (H ++ [p]).
Proof using Type.
  intros Ho [H1 H2 H3] Hc Hp. pose proof (oo_record _ Ho). split.
  - by destruct H.
  - rewrite length_app. simpl. lia.
  - apply Forall_app. split; [done|]. apply Forall_singleton. lia.
Qed.

(** The last step of an append, in a store whose log has length [l]. *)
Lemma wp_append_record w st H p l Q (E : PError -> SW -> Prop) (S : SW -> Prop) :
  store_inv w st H -> ready faulty w -> hist_ok (H ++ [p]) ->
  (forall m, w_inodes w !! st_wal st = Some m -> l = lenN (latest (in_data m))) ->
  (l + lenN (record_image (newest H p)) <= wal_cap)%N ->
  (forall w1, store_inv w1 st (H ++ [p]) -> ready faulty w1 -> Q tt (mkSW st w1)) ->
  (forall e w1, faulty -> interrupted w1 H p -> w_locked w1 = true -> E e (mkSW st w1)) ->
  (forall w1, faulty -> interrupted w1 H p -> w_locked w1 = true -> S (mkSW st w1)) ->
  wp (append_durable l (record_image (newest H p))) Q E S (mkSW st w).
Proof using Type.
  intros [Hd Ha Hlk] Hr HH Hl Hfit HQ HE HS. destruct st as [i]. cbn [st_wal] in *.
  destruct (attached_wal w H Exact i Hd Ha) as (n & k & Hn & _). specialize (Hl n Hn). subst l.
  rewrite (holding_start w i n Hn) in Hr |- * at 1.
  apply (wp_append_durable w H p i n _ Hd Ha Hn eq_refl); try done.
  - intros e a s Hf Hadd. apply HE; [done| |done]. exists (Pending p). split_and!; [|done|by right].
    by apply (adding_ok w H p i n _ Hd Ha Hn eq_refl Hfit).
  - intros a s Hf Hadd. apply HS; [done| |done]. exists (Pending p). split_and!; [|done|by right].
    by apply (adding_ok w H p i n _ Hd Ha Hn eq_refl Hfit).
  - intros s' Hr'. apply HQ; [|done]. split; [|done|done].
    by apply (added_ok w H p i n _ Hd Ha Hn eq_refl HH Hfit).
Qed.

Section append.
Context (H : list bytes) (p : bytes) (o : PersistenceOptions).
Context (Q : unit -> SW -> Prop) (E : PError -> SW -> Prop) (S : SW -> Prop).
Context (HQ : forall w1 st1, fits o H p -> store_inv w1 st1 (H ++ [p]) -> ready faulty w1 -> Q tt (mkSW st1 w1)).
Context (HR : forall e w1 st1, ~ fits o H p -> store_inv w1 st1 H -> E e (mkSW st1 w1)).
Context (HE : forall e w1 st1, faulty -> interrupted w1 H p -> w_locked w1 = true -> E e (mkSW st1 w1)).
Context (HS : forall w1 st1, faulty -> interrupted w1 H p -> w_locked w1 = true -> S (mkSW st1 w1)).
Context (Ho : options_ok o) (Hcap : (max_wal_bytes o <= wal_cap)%N).
Let r := record_image (newest H p).

Lemma exact_interrupted w1 : disk_ok w1 H Exact -> interrupted w1 H p.
Proof using Type. intros Hd. exists Exact. split_and!; [done|done|by left]. Qed.

(** From the last computation of the projected length on. *)
Lemma wp_append_tail w st l :
  store_inv w st H -> ready faulty w -> hist_ok (H ++ [p]) -> (l <= wal_cap)%N ->
  (forall m, w_inodes w !! st_wal st = Some m -> l = lenN (latest (in_data m))) ->
  (max_wal_bytes o < l + lenN r <-> ~ fits o H p)%N ->
  wp (projected ← io (pure_io (ok_or (checked_add64 l (lenN r)) (PLimitExceeded "WAL length overflow")));
      if (max_wal_bytes o <? projected)%N
      then io (throw (PLimitExceeded "one WAL record cannot fit configured limit"))
      else append_durable l r) Q E S (mkSW st w).
Proof using PO HQ HR HE HS Ho Hcap.
  intros Hi Hr HH Hlb Hl Hfit. pose proof (record_image_len (newest H p)) as Hlen. fold r in Hlen.
  assert (lenN p <= HARD_MAX_STATE_BYTES)%N as Hp.
  { pose proof (ho_sizes _ HH) as Hs. apply Forall_app in Hs as [_ Hs]. by apply (Forall_singleton (fun q => lenN q <= _)%N). }
  cbn [newest rec_payload] in Hlen. change RECORD_OVERHEAD with 64%N in Hlen.
  apply wp_bind, wp_io, wp_pure. unfold checked_add64.
  rewrite (proj2 (N.ltb_lt _ two64)) by (pose proof cap_hard; unfold HARD_MAX_STATE_BYTES, HARD_MAX_WAL_BYTES, two64 in *; lia).
  cbn [ok_or]. destruct (N.ltb_spec (max_wal_bytes o) (l + lenN r)) as [Hlt|Hge].
  - apply wp_io, wp_throw, HR; [by apply Hfit|done].
  - pose proof (oo_wal _ Ho). apply wp_append_record with (H := H); try done.
    + fold r. lia.
    + intros w1 Hi1 Hr1. apply HQ; [|done|done]. apply dec_stable. intros Hn%Hfit. lia.
    + auto.
    + auto.
Qed.

Lemma wp_store_append w st cur :
  store_inv w st H -> ready faulty w -> last H = Some cur ->
  wp (store_append (N.of_nat (length H)) cur (N.of_nat (Datatypes.S (length H))) p o) Q E S (mkSW st w).
Proof using PO HQ HR HE HS Ho Hcap.
  intros Hi Hr Hcur. pose proof (oo_record _ Ho) as Hrec. unfold store_append.
  assert (forall e, ~ fits o H p -> wp (io (throw e)) Q E S (mkSW st w)) as Href by (intros e Hn; by apply wp_io, wp_throw, HR).
  destruct (decide _) as [Hs|Hs]; [apply Href; unfold fits|].
  { intros (Hc & _). apply Hs. unfold checked_add64. rewrite (proj2 (N.ltb_lt _ two64)) by lia. f_equal. lia. }
  assert (N.of_nat (length H) + 1 < two64)%N as Hc.
  { unfold checked_add64 in Hs. destruct (N.ltb_spec (N.of_nat (length H) + 1) two64); [done|by destruct Hs]. }
  destruct (N.ltb_spec (max_record_bytes o) (lenN p)) as [Hlt|Hle]; [apply Href; unfold fits; lia|].
  rewrite (proj2 (N.ltb_ge HARD_MAX_STATE_BYTES _)) by lia. cbn [orb].
  destruct Hi as [Hd Ha Hlk]. pose proof (hist_snoc o H p Ho (dk_hist _ _ _ Hd) Hc Hle) as HH.
  apply wp_bind, wp_io, wp_pure. rewrite encode_record_image by lia. fold (newest H p). fold r.
  apply wp_bind, wp_wal_file, wp_bind, wp_io.
  destruct (attached_wal w H Exact _ Hd Ha) as (n & k & Hn & _ & Hk & Hw).
  apply (wp_syscall faulty); [done| | |].
  2: { intros Hf k' s. apply HE; [done|by apply exact_interrupted, disk_script|done]. }
  2: { intros Hf s. apply HS; [done|by apply exact_interrupted, disk_script|done]. }
  intros s Hr1. cbn [set_script w_inodes]. rewrite Hn.
  destruct (Hw _ (list_elem_of_here _ _)) as (Hlb & _). set (l := lenN (latest (in_data n))) in *.
  pose proof (record_image_len (newest H p)) as Hlen. fold r in Hlen. cbn [newest rec_payload] in Hlen.
  change RECORD_OVERHEAD with 64%N in Hlen.
  apply wp_bind, wp_io, wp_pure. unfold checked_add64 at 1.
  rewrite (proj2 (N.ltb_lt _ two64)) by (pose proof cap_hard; unfold HARD_MAX_STATE_BYTES, HARD_MAX_WAL_BYTES, two64 in *; lia).
  cbn [ok_or]. apply wp_bind. set (w1 := set_script s w).
  assert (disk_ok w1 H Exact) as Hd1 by (by apply disk_script).
  assert (fits o H p <-> WAL_HEADER_LEN + lenN r <= max_wal_bytes o)%N as Hfits.
  { unfold fits. change RECORD_OVERHEAD with 64%N. lia. }
  destruct (_ || _) eqn:Ethr.
  - apply wp_bind. eapply wp_store_checkpoint; [exact Hd1|exact Hr1|exact Hcur| | |].
    + intros w2 i2 n2 Hd2 Hr2 Ha2 Hn2 Hc2 Hlk2. apply wp_ret, wp_append_tail; try done.
      * split; [done|exact Ha2|by rewrite Hlk2].
      * apply cap_header.
      * intros m Hm. cbn [st_wal] in Hm. simplify_eq. by rewrite Hc2.
      * rewrite Hfits. lia.
    + intros Hf k' w2 Hd2 Hlk2. apply HE; [done|by apply exact_interrupted|by rewrite Hlk2].
    + intros Hf w2 Hd2 Hlk2. apply HS; [done|by apply exact_interrupted|by rewrite Hlk2].
  - apply orb_false_iff in Ethr as [_ Hmax%N.ltb_ge]. apply wp_ret, wp_append_tail; try done.
    + intros m Hm. change (w_inodes w !! st_wal st = Some m) in Hm. by simplify_eq.
    + rewrite Hfits. assert (WAL_HEADER_LEN <= l)%N; [|lia].
      unfold l. rewrite (wal_exact H k _ _ Hw (list_elem_of_here _ _)). unfold wal_image.
      rewrite lenN_app. change (lenN wal_header) with WAL_HEADER_LEN. lia.
Qed.
End append.
End appending.

(** ** Opening *)

Section opening.
Context {P : Primitives} {cap : WalCap} {PO : PrimitivesOk P} (faulty : Prop).
Implicit Types (w : World) (H : list bytes).

(** Nobody holds the store, and its log is one file with one content. *)
Record openable (w : World) (H : list bytes) : Prop := {
  op_disk : disk_ok w H Torn;
  op_unlocked : w_locked w = false;
  op_wal : exists i n, attached w i /\ w_inodes w !! i = Some n /\
    forall b, b ∈ possible (in_data n) -> b = latest (in_data n);
}.

(** What recovery is given: a snapshot and the entries from some point before
    or right after it. *)
Definition recovers (rcv : Recovery) (H : list bytes) : Prop :=
  exists s k r, rcv = mkRecovery (SnapValid r) (log H k) /\ numbered H !! s = Some r /\
    k <= S s /\ k <= length H.

Lemma crash_openable w w' H tl :
  disk_ok w H tl -> pending_ok H tl -> crash w w' -> exists H', outcomes H tl H' /\ openable w' H'.
Proof.
  intros Hd Hp Hc. destruct (crash_found w w' H tl Hd Hp Hc) as (H' & Ho & Hd' & Hl).
  exists H'. split; [done|]. split; [done|done|]. destruct Hc as [_ (d & _ & Ed) Hin _ _].
  destruct (dk_dirs _ _ _ Hd' d) as (_ & _ & i_s & n_s & i_w & n_w & s & k & r & D1 & D2 & D3 & D4 & D5 & D6 & _).
  { rewrite Ed. apply list_elem_of_here. }
  exists i_w, n_w. split_and!; [|done|].
  - intros d' Hd0. rewrite Ed in Hd0. by apply list_elem_of_singleton in Hd0 as ->.
  - specialize (Hin i_w). destruct (w_inodes w !! i_w) as [m|]; [|by rewrite Hin in D6].
    destruct Hin as (c & _ & Hc). rewrite D6 in Hc. simplify_eq. intros b ->%list_elem_of_singleton. done.
Qed.

Lemma torn_weaken w H : disk_ok w H Exact -> disk_ok w H Torn.
Proof using Type.
  intros [H1 H2 H3 H4 H5]. split; try done. intros d Hd.
  destruct (H4 d Hd) as (Hf & Hinj & i_s & n_s & i_w & n_w & s & k & r & D1 & D2 & D3 & D4 & D5 & D6 & D7 & D8 & D9).
  split_and!; [done|done|]. exists i_s, n_s, i_w, n_w, s, k, r. split_and!; try done.
  intros h Hh. destruct (D9 h Hh) as (Hb & t & -> & Ht). cbn [tail_of] in Ht. subst t. split; [done|].
  exists []. split; [done|apply torn_nil].
Qed.

(** A store that is closed can be opened. *)
Lemma closed_openable w st H : store_inv w st H -> openable (set_locked false w) H.
Proof using Type.
  intros [Hd Ha _]. split; [by apply disk_locked, torn_weaken|done|].
  destruct (attached_wal w H Exact _ Hd Ha) as (n & k & Hn & _ & _ & Hw). exists (st_wal st), n.
  split_and!; [done|done|]. intros b Hb. rewrite (wal_exact H k _ b Hw Hb). symmetry.
  apply (wal_exact H k _ _ Hw). apply list_elem_of_here.
Qed.

Lemma safe_file_meta n : safe_file n -> unsafe_meta (in_meta n) false = false.
Proof using Type.
  intros [H1 H2]. unfold unsafe_meta. rewrite H1, H2. done.
Qed.
Lemma safe_root_meta m : safe_root m -> unsafe_meta m true = false.
Proof using Type. intros [H1 H2]. unfold unsafe_meta. by rewrite H1, H2. Qed.

Section run.
Context (E : PError -> World -> Prop) (S : World -> Prop).

Lemma wp_validate_file x w H tl i (Q : unit -> World -> Prop) (E1 : PError -> World -> Prop) :
  disk_ok w H tl -> ready faulty w -> latest (w_dir w) !! x = Some i ->
  (forall s, ready faulty (set_script s w) -> Q tt (set_script s w)) ->
  (faulty -> forall k s, E1 (PIo k) (set_script s w)) -> (faulty -> forall s, S (set_script s w)) ->
  wp (validate_file x) Q E1 S w.
Proof using Type.
  intros Hd Hr Hi HQ HE HS. apply wp_bind, (wp_syscall faulty); [done| |done|done]. intros s Hr'.
  destruct (find_latest (set_script s w) H tl x i (disk_script _ s _ _ Hd) Hi) as (n & -> & _ & Hn).
  rewrite safe_file_meta by done. by apply HQ.
Qed.

Lemma wp_read_bounded x w H tl i n limit (Q : bytes -> World -> Prop) (E1 : PError -> World -> Prop) :
  disk_ok w H tl -> ready faulty w -> latest (w_dir w) !! x = Some i -> w_inodes w !! i = Some n ->
  (lenN (latest (in_data n)) <= limit)%N ->
  (forall s, ready faulty (set_script s w) -> Q (latest (in_data n)) (set_script s w)) ->
  (faulty -> forall k s, E1 (PIo k) (set_script s w)) -> (faulty -> forall s, S (set_script s w)) ->
  wp (read_bounded x limit) Q E1 S w.
Proof using Type.
  intros Hd Hr Hi Hn Hl HQ HE HS. unfold read_bounded.
  apply wp_bind. eapply wp_validate_file; [done|done|done| |done|done]. intros s1 Hr1.
  apply wp_bind, (wp_syscall faulty); [done| |by intros Hf k s; apply HE|by intros Hf s; apply HS]. intros s2 Hr2.
  change (set_script s2 (set_script s1 w)) with (set_script s2 w) in *.
  unfold find_file. cbn [set_script w_dir w_inodes]. rewrite Hi. cbn [mbind option_bind]. rewrite Hn.
  cbn [fmap option_fmap option_map]. rewrite (proj2 (N.ltb_ge _ _)) by done.
  change (wp (read_file x (limit + 1) ≫= fun b => if (limit <? lenN b)%N then throw (PCorrupt "persisted file exceeds hard limit")
    else mret b) Q E1 S (set_script s2 w)).
  apply wp_bind, wp_bind. eapply (wp_open_existing faulty); [by apply disk_script|done|done| |done|done].
  intros s3 Hr3. apply (wp_syscall faulty); [done| |by intros Hf k s; apply HE|by intros Hf s; apply HS]. intros s4 Hr4.
  change (set_script s4 (set_script s3 _)) with (set_script s4 w) in *. cbn [set_script w_inodes]. rewrite Hn.
  unfold lenN in Hl. rewrite take_bounded_spec, take_ge by lia. unfold lenN. rewrite (proj2 (N.ltb_ge _ _)) by done. by apply HQ.
Qed.

(** Taking the lock leaves the history alone. *)
Lemma wp_acquire_lock w H tl (Q : unit -> World -> Prop) :
  disk_ok w H tl -> ready faulty w -> w_locked w = false ->
  (forall w1, disk_ok w1 H tl -> ready faulty w1 -> frames w (set_locked false w1) -> w_locked w1 = true -> Q tt w1) ->
  (faulty -> forall k w1, disk_ok w1 H tl -> E (PIo k) w1) -> (faulty -> forall k w1, disk_ok w1 H tl -> E k w1) ->
  (faulty -> forall w1, disk_ok w1 H tl -> S w1) ->
  wp acquire_lock Q E S w.
Proof using Type.
  intros Hd Hr Hul HQ HE HE' HS.
  assert (forall w1 i, disk_ok w1 H tl -> ready faulty w1 -> frames w w1 -> latest (w_dir w1) !! LOCK_FILE = Some i ->
    wp (_ ← validate_file LOCK_FILE;
        catch try_lock (fun e => if decide (e = PIo IoWouldBlock) then throw PLocked else throw e)) Q E S w1) as Hrest.
  { intros w1 i Hd1 Hr1 Hf1 Hi. apply wp_bind. eapply wp_validate_file; [done|done|done| | |].
    2: { intros Hf k s. apply HE; [done|by apply disk_script]. }
    2: { intros Hf s. apply HS; [done|by apply disk_script]. }
    intros s Hr2. apply wp_catch, (wp_syscall faulty); [done| | |].
    2: { intros Hf k s2. destruct (decide _); apply HE'; try done; by apply disk_script, disk_script. }
    2: { intros Hf s2. apply HS; [done|by apply disk_script, disk_script]. }
    intros s2 Hr3. cbn [set_script w_locked]. rewrite (fr_locked _ _ Hf1), Hul. cbn iota.
    apply HQ; [by apply disk_locked, disk_script, disk_script|exact Hr3| |done].
    destruct Hf1 as [F1 F2 F3 F4]. by split. }
  unfold acquire_lock. apply wp_bind, (wp_syscall faulty); [done| | |].
  2: { intros Hf k s. apply HE; [done|by apply disk_script]. }
  2: { intros Hf s. apply HS; [done|by apply disk_script]. }
  intros s Hr1. set (w1 := set_script s w) in *. assert (disk_ok w1 H tl) as Hd1 by (by apply disk_script).
  destruct (latest (w_dir w1) !! LOCK_FILE) as [i|] eqn:Ei.
  - destruct (find_latest w1 H tl _ i Hd1 Ei) as (n & -> & _ & Hn).
    rewrite decide_False by (intros Hc; apply Hc, Hn). apply (Hrest w1 i); [done|done|apply frames_script|done].
  - unfold find_file. rewrite Ei. cbn [mbind option_bind].
    destruct (disk_create w1 LOCK_FILE (mkInode (mkMeta RegularFile 384) (settled [])) H tl Hd1 Ei)
      as (Hd2 & Hf2 & _); [done|done|done|].
    apply (Hrest _ (w_next w1) Hd2); [done|by eapply frames_trans; [apply frames_script|]|].
    unfold created. cbn [set_next set_inode set_dir w_dir async_put latest]. by rewrite lookup_insert_eq.
Qed.

(** The records of a log are determined by its content. *)
Lemma log_unique H k k' t t' :
  hist_ok H -> torn t -> torn t' -> wal_image (log H k) ++ t = wal_image (log H k') ++ t' ->
  log H k = log H k' /\ t = t'.
Proof using PO.
  intros HH Ht Ht' Eq. pose proof (scan_wal_image (log H k) t (log_valid H k HH) (log_chained H k) Ht) as S1.
  pose proof (scan_wal_image (log H k') t' (log_valid H k' HH) (log_chained H k') Ht') as S2.
  rewrite Eq, S2 in S1. injection S1 as E1 E2. rewrite E1 in Eq. split; [done|]. by apply app_inv_head in Eq.
Qed.

(** The torn tail is removed before anything else is read. *)
Lemma wp_truncate w H i n k t (Q : unit -> World -> Prop) :
  disk_ok w H Torn -> ready faulty w -> attached w i -> w_inodes w !! i = Some n ->
  (forall b, b ∈ possible (in_data n) -> b = latest (in_data n)) ->
  latest (in_data n) = wal_image (log H k) ++ t -> torn t ->
  (forall w1, disk_ok w1 H Exact -> ready faulty w1 -> w_dir w1 = w_dir w -> w_locked w1 = w_locked w ->
     (exists n1, w_inodes w1 !! i = Some n1 /\ latest (in_data n1) = wal_image (log H k)) -> Q tt w1) ->
  (faulty -> forall e w1, disk_ok w1 H Torn -> E e w1) -> (faulty -> forall w1, disk_ok w1 H Torn -> S w1) ->
  wp (if negb (lenN (wal_image (log H k)) =? lenN (latest (in_data n)))%N
      then _ ← set_len i (lenN (wal_image (log H k))); sync_file i else mret tt) Q E S w.
Proof using PO.
  intros Hd Hr Ha Hn Hone Hl Ht HQ HE HS. pose proof (dk_hist _ _ _ Hd) as HH.
  assert (lenN (latest (in_data n)) <= wal_cap)%N as Hb.
  { destruct (attached_wal w H Torn i Hd Ha) as (m & k0 & Hm & _ & _ & Hw). simplify_eq.
    by destruct (Hw _ (list_elem_of_here _ _)). }
  set (img := wal_image (log H k)) in *.
  assert (forall s tl a, (forall b, b ∈ possible a -> (lenN b <= wal_cap)%N /\ exists u, b = img ++ u /\ tail_of H tl u) ->
    disk_ok (holding w i n a s) H tl) as Hmk.
  { intros s tl a Hin. apply (disk_wal (set_script s w) H Torn _ _ _ n); try done; [by apply disk_script|].
    intros k' _ Hw'. destruct (Hw' _ (list_elem_of_here _ _)) as (_ & t' & E' & Ht'). cbn [in_data].
    rewrite Hl in E'. apply log_unique in E' as [E' _]; [|done..]. intros b Hb'. rewrite <- E'. by apply Hin. }
  rewrite Hl, lenN_app in Hb |- *. destruct (N.eqb_spec (lenN img) (lenN img + lenN t)) as [Eq|Hne].
  - assert (t = []) as -> by (destruct t; [done|rewrite lenN_cons in Eq; lia]). rewrite app_nil_r in Hl.
    apply wp_ret, HQ; try done; [|by exists n]. rewrite (holding_start w i n Hn). apply Hmk.
    intros b Hin. apply Hone in Hin as ->. rewrite Hl. split; [lia|]. exists []. by rewrite app_nil_r.
  - rewrite (holding_start w i n Hn) in Hr |- * at 1.
    assert (forall a, (forall b, b ∈ possible a -> b = img \/ b = img ++ t) -> forall s, disk_ok (holding w i n a s) H Torn) as Hmid.
    { intros a Hin s. apply Hmk. intros b [->| ->]%Hin; [split; [lia|]; exists []|split; [by rewrite lenN_app|]; exists t].
      - rewrite app_nil_r. split; [done|apply torn_nil].
      - done. }
    assert (forall b, b ∈ possible (in_data n) -> b = img \/ b = img ++ t) as H0.
    { intros b ->%Hone. by right. }
    cbn [negb]. apply wp_bind. eapply wp_update; [done| | |].
    2: { intros Hf e s. by apply HE, Hmid. }
    2: { intros Hf s. by apply HS, Hmid. }
    intros s Hr1. cbn beta zeta. rewrite Hl, <- app_assoc, lenN_to_nat, take_app_length.
    assert (forall b, b ∈ possible (async_put img (in_data n)) -> b = img \/ b = img ++ t) as H1.
    { intros b [->|Hb0]%elem_of_cons; [by left|by apply H0]. }
    eapply wp_update; [done| | |].
    2: { intros Hf e s'. by apply HE, Hmid. }
    2: { intros Hf s'. by apply HS, Hmid. }
    intros s' Hr2. apply HQ; try done.
    + apply Hmk. intros b ->%list_elem_of_singleton. cbn [async_sync async_put latest settled]. split; [lia|]. exists [].
      by rewrite app_nil_r.
    + eexists. split; [apply holding_lookup|done].
Qed.

Lemma wp_root_metadata w H tl (Q : Meta -> World -> Prop) (E1 : PError -> World -> Prop) :
  disk_ok w H tl -> ready faulty w ->
  (forall m s, ready faulty (set_script s w) -> safe_root m -> Q m (set_script s w)) ->
  (faulty -> forall k s, E1 (PIo k) (set_script s w)) -> (faulty -> forall s, S (set_script s w)) ->
  wp root_metadata Q E1 S w.
Proof using Type.
  intros Hd Hr HQ HE HS. apply (wp_syscall faulty); [done| |done|done]. intros s Hr'.
  destruct (dk_root _ _ _ Hd (latest (w_root w)) (list_elem_of_here _ _)) as (m & Em & Hm).
  cbn [set_script w_root]. rewrite Em. by apply HQ.
Qed.

(** Reading what is there, with the lock held. *)
Lemma wp_load w H i n (Q : Store * Recovery -> World -> Prop) :
  disk_ok w H Torn -> ready faulty w -> w_locked w = true -> attached w i -> w_inodes w !! i = Some n ->
  (forall b, b ∈ possible (in_data n) -> b = latest (in_data n)) ->
  (forall st rcv w1, store_inv w1 st H -> recovers rcv H -> ready faulty w1 -> Q (st, rcv) w1) ->
  (faulty -> forall st k w1, store_inv w1 st H -> Q (st, mkRecovery SnapMissing (log H k)) w1) ->
  (faulty -> forall e w1, disk_ok w1 H Torn -> E e w1) -> (faulty -> forall w1, disk_ok w1 H Torn -> S w1) ->
  wp (wal_bytes ← catch (read_bounded WAL_FILE HARD_MAX_WAL_BYTES)
      (fun e => if decide (e = PIo IoNotFound) then throw (PCorrupt "WAL file is missing") else throw e);
    scanned ← pure_io (scan_wal wal_bytes);
    let '(records, valid_length) := scanned in
    wal ← open_file WAL_FILE false false;
    _ ← (if negb (valid_length =? lenN wal_bytes)%N
         then _ ← set_len wal valid_length; sync_file wal else mret tt);
    b ← catch (b ← read_bounded SNAPSHOT_FILE (HARD_MAX_STATE_BYTES + SNAPSHOT_OVERHEAD); mret (Ok b))
          (fun e => mret (Err e));
    snapshot ← (match b with
                | Ok b => pure_io (parse_snapshot b)
                | Err (PIo IoNotFound) => mret SnapMissing
                | Err (PCorrupt _) => mret SnapCorrupt
                | Err e => throw e
                end);
    mret (mkStore wal, mkRecovery snapshot records)) Q E S w.
Proof using PO.
  intros Hd Hr Hlk Ha Hn Hone HQ HM HE HS. pose proof (dk_hist _ _ _ Hd) as HH.
  assert (forall s, disk_ok (set_script s w) H Torn) as Hds by (intros; by apply disk_script).
  destruct (attached_wal w H Torn i Hd Ha) as (m & k & Hm & _ & Hk & Hw). simplify_eq.
  destruct (Hw _ (list_elem_of_here _ _)) as (Hb & t & El & Ht). cbn [latest possible] in Hb, El.
  pose proof (Ha _ (list_elem_of_here _ _)) as Hi.
  apply wp_bind, wp_catch. eapply wp_read_bounded; [done|done|done|done|pose proof cap_hard; lia| | |].
  2: { intros Hf e s. destruct (decide _); by apply HE. }
  2: { intros Hf s. by apply HS. }
  intros s1 Hr1. apply wp_bind, wp_pure. rewrite El, scan_wal_image by (first [done|by apply log_valid|apply log_chained]).
  rewrite <- El. apply wp_bind. eapply (wp_open_existing faulty); [by apply Hds|done|done| | |].
  2: { intros Hf e s. by apply HE, disk_script. }
  2: { intros Hf s. by apply HS, disk_script. }
  intros s2 Hr2. apply wp_bind. change (set_script s2 (set_script s1 w)) with (set_script s2 w) in *.
  eapply (wp_truncate _ H i n k t); [done|done|done|done|done|done|done| |done|done].
  intros w3 Hd3 Hr3 Ed3 El3 (n3 & Hn3 & Hc3). apply wp_bind, wp_catch, wp_bind.
  assert (attached w3 i) as Ha3 by (unfold attached; rewrite Ed3; exact Ha).
  destruct (dk_dirs _ _ _ Hd3 _ (list_elem_of_here _ _ : latest (w_dir w3) ∈ possible (w_dir w3)))
    as (_ & _ & i_s & n_s & i_w & n_w & s & k3 & r & D1 & D2 & D3 & D4 & D5 & D6 & D7 & D8 & D9).
  assert (record_valid r) as Hv by (by apply (Forall_lookup_1 _ _ s _ (numbered_valid H HH))).
  assert (log H k = log H k3) as Elog.
  { assert (i_w = i) as -> by (specialize (Ha3 _ (list_elem_of_here _ _)); congruence). simplify_eq.
    pose proof (wal_exact H k3 _ _ D9 (list_elem_of_here _ _)) as Ew. rewrite Hc3 in Ew.
    apply (log_unique H k k3 [] []); [done|apply torn_nil|apply torn_nil|by rewrite !app_nil_r]. }
  assert (forall s, disk_ok (set_script s w3) H Torn) as Hds3 by (intros; by apply disk_script, torn_weaken).
  eapply wp_read_bounded; [done|done|done|done| | | |].
  - rewrite D4. cbn [latest settled]. rewrite snapshot_image_len. destruct Hv. lia.
  - intros s4 Hr4. apply wp_ret. rewrite D4. cbn [latest settled]. apply wp_bind, wp_pure.
    rewrite parse_snapshot_image by done. apply wp_ret, HQ; [|exists s, k3, r; by rewrite Elog|done].
    split; [by apply disk_script|done|by rewrite <- Hlk].
  - intros Hf e s4. apply wp_ret, wp_bind. destruct e; [apply wp_ret, wp_ret, HM|by apply wp_throw, HE..]; [done|].
    split; [by apply disk_script|done|by rewrite <- Hlk].
  - intros Hf s4. by apply HS.
Qed.
End run.

Lemma wp_store_open w H (Q : Store * Recovery -> World -> Prop) (E : PError -> World -> Prop) (S : World -> Prop) :
  openable w H -> ready faulty w ->
  (forall st rcv w1, store_inv w1 st H -> recovers rcv H -> ready faulty w1 -> Q (st, rcv) w1) ->
  (faulty -> forall st k w1, store_inv w1 st H -> Q (st, mkRecovery SnapMissing (log H k)) w1) ->
  (faulty -> forall e w1, disk_ok w1 H Torn -> E e w1) -> (faulty -> forall w1, disk_ok w1 H Torn -> S w1) ->
  wp store_open Q E S w.
Proof using PO.
  intros [Hd Hul (i & n & Ha & Hn & Hone)] Hr HQ HM HE HS.
  assert (forall s, disk_ok (set_script s w) H Torn) as Hds by (intros; by apply disk_script).
  unfold store_open. apply wp_bind, wp_catch. eapply wp_root_metadata; [done|done| | |].
  2: { intros Hf k s. destruct (decide _); by apply HE. }
  2: { intros Hf s. by apply HS. }
  intros _ s1 Hr1 _. apply wp_bind. unfold validate_root. apply wp_bind.
  eapply wp_root_metadata; [by apply Hds|done| | |].
  2: { intros Hf k s. by apply HE, disk_script. }
  2: { intros Hf s. by apply HS, disk_script. }
  intros m s2 Hr2 Hm. rewrite safe_root_meta by done. apply wp_ret, wp_bind.
  change (set_script s2 (set_script s1 w)) with (set_script s2 w) in *.
  eapply (wp_acquire_lock E S _ H Torn); [done|done|done| |auto|auto|auto].
  intros w3 Hd3 Hr3 Hf3 Hlk3. apply wp_holding.
  assert (frames w (set_locked false w3)) as Hf4 by (eapply frames_trans; [apply (frames_script w s2)|done]).
  apply (wp_load _ _ w3 H i n); try done.
  - exact (attached_frames w (set_locked false w3) i Hf4 Ha).
  - rewrite <- Hn. refine (fr_inodes _ _ Hf4 _ i (latest_ref w) _). right. apply Ha, list_elem_of_here.
  - intros Hf e w5 Hd5. by apply HE, disk_locked.
  - intros Hf w5 Hd5. by apply HS, disk_locked.
Qed.
End opening.

(** ** Creating *)

Lemma world_ext (w w' : World) :
  w_root w = w_root w' -> w_dir w = w_dir w' -> w_inodes w = w_inodes w' -> w_next w = w_next w' ->
  w_locked w = w_locked w' -> w_script w = w_script w' -> w = w'.
Proof. destruct w, w'. cbn. by intros -> -> -> -> -> ->. Qed.

Section creating.
Context {P : Primitives} {cap : WalCap} {PO : PrimitivesOk P} (faulty : Prop).
Context (E : PError -> World -> Prop) (S : World -> Prop)
  (HE : faulty -> forall e w, E e w) (HS : faulty -> forall w, S w).
Implicit Types (w : World).

Definition new_file (b : bytes) : Inode := mkInode (mkMeta RegularFile 384) (settled b).

(** A file that was not there, written and named. *)
Definition published (w : World) (y : string) (b : bytes) : World :=
  set_next (Datatypes.S (w_next w)) (set_inode (w_next w) (new_file b)
    (set_dir (settled (<[y := w_next w]> (latest (w_dir w)))) w)).

Lemma wp_publish_fresh x y b w (Q : unit -> World -> Prop) :
  ready faulty w -> latest (w_dir w) !! x = None -> x <> y ->
  (forall s, ready faulty (set_script s w) -> Q tt (published (set_script s w) y b)) ->
  wp (write_atomic x y b) Q E S w.
Proof using HE HS.
  intros Hr Hx Hne HQ. unfold write_atomic. apply wp_bind, (wp_syscall faulty); [done| |auto|auto].
  intros s1 Hr1. unfold find_file. cbn [set_script w_dir]. rewrite Hx. cbn [mbind option_bind].
  set (i := w_next w). set (d := latest (w_dir w)) in *.
  apply wp_bind. eapply (wp_write faulty); [exact Hr1|apply lookup_insert_eq| |auto|auto|auto].
  intros s2 Hr2. apply wp_bind, (wp_syscall faulty); [exact Hr2| |auto|auto]. intros s3 Hr3.
  unfold update_file. cbn [set_script set_inode w_inodes]. rewrite lookup_insert_eq. cbn [in_meta in_data].
  apply wp_bind, (wp_syscall faulty); [exact Hr3| |auto|auto]. intros s4 Hr4.
  cbn [set_script set_next set_inode set_dir w_dir async_put latest]. rewrite lookup_insert_eq.
  apply wp_bind, (wp_syscall faulty); [exact Hr4| |auto|auto]. intros s5 Hr5.
  apply (wp_syscall faulty); [exact Hr5| |auto|auto]. intros s6 Hr6.
  specialize (HQ s6 Hr6). eapply (eq_ind _ (Q tt) HQ). apply world_ext; try reflexivity.
  - cbn [published set_script set_next set_inode set_dir w_dir w_next async_put async_sync latest].
    f_equal. fold i d. by rewrite delete_insert_id.
  - cbn [published set_script set_next set_inode set_dir w_inodes w_next in_meta in_data latest settled async_put async_sync].
    rewrite !insert_insert_eq. unfold new_file, async_sync. cbn [async_put latest]. change (N.to_nat 0) with 0.
    by rewrite write_at_start.
Qed.

(** A directory that was made, synchronised and locked. *)
Definition made (w : World) : World :=
  set_locked true (set_next (Datatypes.S (w_next w)) (set_inode (w_next w) (new_file [])
    (set_dir (mkAsync {[LOCK_FILE := w_next w]} [∅]) (set_root (settled (Some (mkMeta Directory 448))) w)))).

Lemma wp_make {A} w (m : Io A) (R : A -> World -> Prop) :
  ready faulty w -> latest (w_root w) = None -> w_locked w = false ->
  (forall s, ready faulty (set_script s w) -> wp m R E S (made (set_script s w))) ->
  wp (exists_already ← catch (_ ← root_metadata; mret true)
        (fun e => if decide (e = PIo IoNotFound) then mret false else throw e);
      if exists_already : bool then throw PAlreadyExists else
      _ ← create_dir; _ ← validate_root; _ ← sync_parent; _ ← acquire_lock; m) R E S w.
Proof using HE HS.
  intros Hr Hroot Hul Hm.
  assert (forall s, ready faulty (set_script s w) ->
    wp (_ ← create_dir; _ ← validate_root; _ ← sync_parent; _ ← acquire_lock; m) R E S (set_script s w)) as Hgo.
  { intros s0 Hr0. apply wp_bind, (wp_syscall faulty); [done| |auto|auto]. intros s1 Hr1.
    cbn [set_script w_root]. rewrite Hroot. apply wp_bind. unfold validate_root, root_metadata.
    apply wp_bind, (wp_syscall faulty); [exact Hr1| |auto|auto]. intros s2 Hr2.
    cbn [set_script set_dir set_root w_root async_put latest]. apply wp_ret, wp_bind. unfold sync_parent.
    apply wp_bind, (wp_syscall faulty); [exact Hr2| |auto|auto]. intros s3 Hr3.
    apply (wp_syscall faulty); [exact Hr3| |auto|auto]. intros s4 Hr4.
    apply wp_bind. unfold acquire_lock. apply wp_bind, (wp_syscall faulty); [exact Hr4| |auto|auto]. intros s5 Hr5.
    unfold find_file at 1. cbn [set_script set_dir set_root w_dir settled latest]. rewrite lookup_empty. cbn [mbind option_bind].
    apply wp_bind. unfold validate_file, file_metadata. apply wp_bind, (wp_syscall faulty); [exact Hr5| |auto|auto]. intros s6 Hr6.
    unfold find_file. cbn [set_script set_next set_inode set_dir set_root w_dir w_inodes async_put latest].
    rewrite lookup_insert_eq. cbn [mbind option_bind]. rewrite lookup_insert_eq. cbn [fmap option_fmap option_map].
    apply wp_ret, wp_catch, (wp_syscall faulty); [exact Hr6| | |auto].
    2: { intros Hf k s7. destruct (decide _); by apply HE. }
    intros s7 Hr7. cbn [set_script set_next set_inode set_dir set_root w_locked]. rewrite Hul.
    specialize (Hm s7 Hr7). eapply (eq_ind _ (wp m R E S) Hm). by apply world_ext. }
  apply wp_bind, wp_catch, wp_bind, (wp_syscall faulty); [done| | |auto].
  - intros s1 Hr1. cbn [set_script w_root]. rewrite Hroot. rewrite decide_True by done. apply wp_ret. by apply Hgo.
  - intros Hf k s1. destruct (decide _); [|by apply HE]. apply wp_ret. apply Hgo. by left.
Qed.

End creating.

Section created.
Context {P : Primitives} {cap : WalCap} {PO : PrimitivesOk P} (faulty : Prop).

(** The world after creation, for a script that is left over. *)
Definition born (w : World) (p : bytes) : World :=
  published (published (made w) SNAPSHOT_FILE (snapshot_image (mkRecord 1 p))) WAL_FILE wal_header.

Lemma born_inv w p :
  (forall i, is_Some (w_inodes w !! i) -> i < w_next w) -> (lenN p <= HARD_MAX_STATE_BYTES)%N ->
  store_inv (born w p) (mkStore (S (S (w_next w)))) [p].
Proof using Type.
  intros Hfresh Hp. set (n := w_next w).
  set (d := <[WAL_FILE := S (S n)]> (<[SNAPSHOT_FILE := S n]> ({[LOCK_FILE := n]} : Names))).
  assert (w_dir (born w p) = settled d) as Ed by done.
  assert (forall x i, d !! x = Some i <->
    (x = LOCK_FILE /\ i = n) \/ (x = SNAPSHOT_FILE /\ i = S n) \/ (x = WAL_FILE /\ i = S (S n))) as Hdir.
  { intros x i. unfold d. rewrite !lookup_insert_Some, lookup_singleton_Some.
    split; [naive_solver|]. intros [[-> ->]|[[-> ->]|[-> ->]]]; naive_solver. }
  assert (w_inodes (born w p) = <[S (S n) := new_file wal_header]> (<[S n := new_file (snapshot_image (mkRecord 1 p))]>
    (<[n := new_file []]> (w_inodes w)))) as Ei by done.
  assert (w_inodes (born w p) !! n = Some (new_file []) /\
          w_inodes (born w p) !! S n = Some (new_file (snapshot_image (mkRecord 1 p))) /\
          w_inodes (born w p) !! S (S n) = Some (new_file wal_header)) as (I1 & I2 & I3).
  { rewrite Ei. split_and!.
    - by rewrite !lookup_insert_ne, lookup_insert_eq by lia.
    - by rewrite lookup_insert_ne, lookup_insert_eq by lia.
    - by rewrite lookup_insert_eq. }
  split; [split| |done].
  - split; [done|done|by apply Forall_singleton].
  - intros r ->%list_elem_of_singleton. eexists. split; [done|]. by split.
  - intros i. rewrite Ei, !lookup_insert_is_Some. change (w_next (born w p)) with (S (S (S n))).
    intros [<-|[_ [<-|[_ [<-|[_ Hi%Hfresh]]]]]]; unfold n in *; lia.
  - rewrite Ed. intros d' ->%list_elem_of_singleton. cbn [latest settled]. split_and!.
    + intros x i [[_ ->]|[[_ ->]|[_ ->]]]%Hdir; by eexists.
    + intros x y i Hx%Hdir Hy%Hdir. naive_solver lia.
    + exists (S n), (new_file (snapshot_image (mkRecord 1 p))), (S (S n)), (new_file wal_header), 0, 1, (mkRecord 1 p).
      split_and!; try done; [apply Hdir; naive_solver..|].
      apply (wal_data_empty [p] Exact). done.
  - intros x i d' Hx. rewrite Ed. cbn [latest settled]. intros Hi%Hdir. destruct Hx as [->| ->]; naive_solver.
  - intros d'. rewrite Ed. intros ->%list_elem_of_singleton. apply Hdir. naive_solver.
Qed.

(** A new store holds one entry. *)
Lemma wp_store_create w p (Q : Store -> World -> Prop) (E : PError -> World -> Prop) (S : World -> Prop) :
  (faulty -> forall e w, E e w) -> (faulty -> forall w, S w) ->
  ready faulty w -> latest (w_root w) = None -> w_locked w = false ->
  (forall i, is_Some (w_inodes w !! i) -> i < w_next w) -> (lenN p <= HARD_MAX_STATE_BYTES)%N ->
  (forall st w1, store_inv w1 st [p] -> ready faulty w1 -> Q st w1) ->
  wp (store_create 1 p) Q E S w.
Proof using Type.
  intros HE HS Hr Hroot Hul Hfresh Hp HQ. apply (wp_make faulty); [done|done|done|done|done|]. intros s0 Hr0.
  apply wp_holding, wp_bind, wp_pure. rewrite encode_snapshot_image by done.
  apply wp_bind. eapply (wp_publish_fresh faulty); [by auto|by auto|exact Hr0|done|done|]. intros s1 Hr1.
  apply wp_bind. eapply (wp_publish_fresh faulty); [by auto|by auto|exact Hr1|done|done|]. intros s2 Hr2.
  pose proof (born_inv w p Hfresh Hp) as [Hd Ha Hl].
  apply wp_bind. eapply (wp_open_existing faulty _ _ [p] Exact).
  - exact (disk_script _ s2 _ _ Hd).
  - exact Hr2.
  - apply (Ha _ (list_elem_of_here _ _)).
  - intros s3 Hr3. apply wp_ret, HQ; [|exact Hr3]. split; [exact (disk_script _ s3 _ _ Hd)|exact Ha|exact Hl].
  - auto.
  - auto.
Qed.
End created.
