(* ===== verification/Failed.v ===== *)
(** * A store that is kept after a call failed

    [Store::append] and [Store::checkpoint] return errors to callers that go on
    using the store ([crates/cfr/src/persistence/store.rs]).  When one call of the
    file system fails during an append, the rollback takes the torn record back;
    when a checkpoint fails, the store is sound as long as the directory still
    names the open file as its log. *)

From Stdlib Require Import NArith Lia.
From S2P Require Import Prelude Crypto Codec Persist Store Crash.

(** ** Scripts with at most one failure *)

Definition once (s : list Fault) : Prop := s = [] \/ exists a f, s = replicate a Fine ++ [f].

Lemma once_cons f s : once (f :: s) -> once s /\ (f <> Fine -> s = []).
Proof.
  intros [H|(a & g & H)]; [done|]. destruct a as [|a]; injection H as -> ->; [by split; [left|]|].
  split; [right; by exists a, g|done].
Qed.

Lemma once_nil : once [].
Proof. by left. Qed.

(** ** Properties that calls keep *)

(** From [I], the run of [m] ends in [J], or fails in [K]. *)
Definition within {A} (I J K : World -> Prop) (m : Io A) : Prop :=
  forall w, I w -> wp m (fun _ => J) (fun _ => K) K w.

(** [I] does not depend on the failures to come. *)
Definition shrinks (I : World -> Prop) : Prop := forall w f s, w_script w = f :: s -> I w -> I (set_script s w).

Section within.
Context (K : World -> Prop).
Implicit Types I J L : World -> Prop.

Lemma within_bind {A B} I J L (m : Io A) (f : A -> Io B) :
  within I J K m -> (forall a, within J L K (f a)) -> within I L K (m ≫= f).
Proof.
  intros Hm Hf w Hw. apply wp_bind. eapply wp_mono; [by apply Hm| |done|done]. intros a w' H. by apply Hf.
Qed.

Lemma within_syscall {A} I J (act : World -> result IoKind A * World) :
  shrinks I -> (forall w, I w -> K w) ->
  (forall w, I w -> match act w with (Ok _, w') => J w' | (Err _, w') => K w' end) -> within I J K (syscall act).
Proof.
  intros Hs HK Ha w Hw. unfold wp, syscall, next_fault. destruct (w_script w) as [|f s] eqn:E.
  - specialize (Ha w Hw). by destruct (act w) as [[a|k] w'].
  - pose proof (Hs w f s E Hw) as Hw'. specialize (Ha _ Hw').
    destruct f; [by destruct (act _) as [[a|k'] w']|by apply HK..].
Qed.

Lemma within_write I i pos b :
  shrinks I -> (forall w, I w -> K w) -> (forall w f, I w -> I (update_file i f w).2) ->
  within I I K (write_all i pos b).
Proof.
  intros Hs HK Hu w Hw. unfold wp, write_all, next_fault.
  assert (forall w b, I w -> match update_file i (fun d => async_put (write_at (N.to_nat pos) b (latest d)) d) w with
    (Ok _, w') => I w' | (Err _, w') => K w' end) as Hput.
  { intros w1 c H1. specialize (Hu w1 (fun d => async_put (write_at (N.to_nat pos) c (latest d)) d) H1).
    destruct (update_file _ _ _) as [[]]; auto. }
  destruct (w_script w) as [|f s] eqn:E.
  - specialize (Hput w b Hw). by destruct (update_file _ _ _) as [[a|k] w'].
  - pose proof (Hs w f s E Hw) as Hw'. destruct f as [|k|m k|]; [|by apply HK| |by apply HK].
    + specialize (Hput _ b Hw'). by destruct (update_file _ _ _) as [[a|k] w'].
    + apply HK, Hu, Hw'.
Qed.
End within.

Lemma update_script i f w : w_script (update_file i f w).2 = w_script w.
Proof. unfold update_file. by destruct (w_inodes w !! i). Qed.
Lemma update_dir i f w : w_dir (update_file i f w).2 = w_dir w.
Proof. unfold update_file. by destruct (w_inodes w !! i). Qed.
Lemma update_next i f w : w_next (update_file i f w).2 = w_next w.
Proof. unfold update_file. by destruct (w_inodes w !! i). Qed.

(** ** What replacing a file leaves *)

(** The script stays one with at most one failure. *)
Definition scripted (w : World) : Prop := once (w_script w).

Lemma scripted_shrinks : shrinks scripted.
Proof. intros w f s E H. unfold scripted in *. rewrite E in H. by apply once_cons in H as [? _]. Qed.

Lemma scripted_syscall {A} (act : World -> result IoKind A * World) :
  (forall w, w_script (act w).2 = w_script w) -> within scripted scripted scripted (syscall act).
Proof.
  intros Ha. apply within_syscall; [apply scripted_shrinks|done|]. intros w Hw. specialize (Ha w). unfold scripted in *.
  destruct (act w) as [[]]; cbn [snd] in Ha; by rewrite Ha.
Qed.

Lemma scripted_open x c t : within scripted scripted scripted (open_file x c t).
Proof.
  apply scripted_syscall. intros w. destruct (find_file x w) as [[i n]|]; [case_decide; [done|by destruct t]|by destruct c].
Qed.

Lemma scripted_write_atomic x y b : within scripted scripted scripted (write_atomic x y b).
Proof.
  unfold write_atomic. apply (within_bind _ _ scripted); [apply scripted_open|intros i].
  apply (within_bind _ _ scripted).
  { apply within_write; [apply scripted_shrinks|done|]. intros w f Hw. unfold scripted. by rewrite update_script. }
  intros []. apply (within_bind _ _ scripted); [apply scripted_syscall; intros w; apply update_script|intros []].
  apply (within_bind _ _ scripted); [apply scripted_syscall; intros w; by destruct (latest (w_dir w) !! x)|intros []].
  apply (within_bind _ _ scripted); [by apply scripted_syscall|intros []]. by apply scripted_syscall.
Qed.

(** [j] is the log by every name the directory may have for it, and by no other. *)
Record log_name (j : nat) (w : World) : Prop := {
  ln_attached : attached w j;
  ln_only x : latest (w_dir w) !! x = Some j -> x = WAL_FILE;
  ln_old : j < w_next w;
}.

(** It still is, or another file took its name. *)
Definition kept_log (j : nat) (w : World) : Prop := log_name j w \/ latest (w_dir w) !! WAL_FILE <> Some j.

Lemma kept_attached j w : kept_log j w -> latest (w_dir w) !! WAL_FILE = Some j -> attached w j.
Proof. by intros [[? _ _]|]. Qed.

Lemma log_name_dir j w w' : w_dir w' = w_dir w -> w_next w' = w_next w -> log_name j w -> log_name j w'.
Proof. intros E1 E2 [H1 H2 H3]. split; [|by rewrite E1|by rewrite E2]. intros d. rewrite E1. apply H1. Qed.

Section names.
Context (j : nat).
#[local] Abbreviation named := (log_name j).
#[local] Abbreviation kept := (kept_log j).

Lemma named_shrinks : shrinks named.
Proof. intros w f s _. by apply log_name_dir. Qed.
Lemma kept_shrinks : shrinks kept.
Proof. intros w f s E [H|H]; [left|by right]. by apply (named_shrinks w f). Qed.
Lemma named_kept w : named w -> kept w.
Proof. by left. Qed.

Lemma named_open x c t : x <> WAL_FILE -> within named named kept (open_file x c t).
Proof.
  intros Hx. apply within_syscall; [apply named_shrinks|apply named_kept|]. intros w Hw.
  destruct (find_file x w) as [[i n]|].
  { case_decide; [by left|]. destruct t; [|done]. by apply (log_name_dir j w). }
  destruct c; [|by left]. destruct Hw as [H1 H2 H3]. split.
  - intros d [->|Hd]%elem_of_cons; [|by apply H1].
    cbn [set_next set_inode set_dir w_dir async_put latest]. rewrite lookup_insert_ne by done. apply H1, list_elem_of_here.
  - cbn [set_next set_inode set_dir w_dir async_put latest]. intros y [[_ E]|[_ Hy]]%lookup_insert_Some; [lia|by apply H2].
  - cbn [set_next w_next]. lia.
Qed.

Lemma named_written x b : x <> WAL_FILE -> within named named kept
  (i ← open_file x true true; _ ← write_all i 0 b; sync_file i).
Proof.
  intros Hx. apply (within_bind _ _ named); [by apply named_open|intros i].
  assert (forall w f, named w -> named (update_file i f w).2) as Hu
    by (intros w f; apply log_name_dir; [apply update_dir|apply update_next]).
  apply (within_bind _ _ named).
  { apply within_write; [apply named_shrinks|apply named_kept|done]. }
  intros []. apply within_syscall; [apply named_shrinks|apply named_kept|]. intros w Hw. specialize (Hu w async_sync Hw).
  destruct (update_file _ _ _) as [[]]; [done|by left].
Qed.

(** Another name for a file that is not the log. *)
Lemma named_rename x y : x <> WAL_FILE -> within named (if bool_decide (y = WAL_FILE) then kept else named) kept (rename x y).
Proof.
  intros Hx. apply within_syscall; [apply named_shrinks|apply named_kept|]. intros w Hw.
  destruct (latest (w_dir w) !! x) as [i|] eqn:E; [|by left]. destruct Hw as [H1 H2 H3].
  assert (i <> j) as Hne by (intros ->; by apply Hx, H2).
  case_bool_decide as Hy.
  - right. subst y. cbn [set_dir w_dir async_put latest]. rewrite lookup_insert_eq. by intros [= ->].
  - split; [| |done].
    + intros d [->|Hd]%elem_of_cons; [|by apply H1].
      cbn [set_dir w_dir async_put latest]. rewrite lookup_insert_ne, lookup_delete_ne by done. apply H1, list_elem_of_here.
    + cbn [set_dir w_dir async_put latest]. intros z [[_ [= ->]]|[_ [_ Hz]%lookup_delete_Some]]%lookup_insert_Some; [done|].
      by apply H2.
Qed.

Lemma named_sync I : I = named \/ I = kept -> within I I kept sync_directory.
Proof.
  intros HI. assert (shrinks I /\ (forall w, I w -> kept w) /\ forall w, I w -> I (set_dir (async_sync (w_dir w)) w)) as (Hs & HK & Hd).
  { assert (forall w, named w -> named (set_dir (async_sync (w_dir w)) w)) as Hn.
    { intros w [H1 H2 H3]. split; [|done|done]. intros d ->%list_elem_of_singleton. apply H1, list_elem_of_here. }
    destruct HI as [->| ->]; split_and!; auto using named_shrinks, kept_shrinks, named_kept.
    intros w [H|H]; [left; by apply Hn|by right]. }
  unfold sync_directory. apply (within_bind _ _ I); [by apply within_syscall|intros []]. by apply within_syscall.
Qed.

Lemma named_write_atomic x y b : x <> WAL_FILE ->
  within named (if bool_decide (y = WAL_FILE) then kept else named) kept (write_atomic x y b).
Proof.
  intros Hx w Hw. unfold write_atomic.
  assert (wp ((i ← open_file x true true; _ ← write_all i 0 b; sync_file i) ≫= fun _ => _ ← rename x y; sync_directory)
    (fun _ => if bool_decide (y = WAL_FILE) then kept else named) (fun _ => kept) kept w) as H.
  { revert w Hw. apply (within_bind _ _ named); [by apply named_written|intros []].
    apply (within_bind _ _ (if bool_decide (y = WAL_FILE) then kept else named)); [by apply named_rename|intros []].
    apply named_sync. case_bool_decide; [by right|by left]. }
  unfold wp, mbind, M_bind in *. destruct (open_file x true true w) as [[i|[e|]] w1]; [|done..].
  destruct (write_all i 0 b w1) as [[u|[e|]] w2]; [|done..]. by destruct (sync_file i w2) as [[u'|[e|]] w3].
Qed.

Lemma kept_open x : within kept kept kept (open_file x false false).
Proof.
  apply within_syscall; [apply kept_shrinks|done|]. intros w Hw. destruct (find_file x w) as [[i n]|]; [|done].
  by case_decide.
Qed.
End names.

(** ** A checkpoint that fails *)

Section failed.
Context {P : Primitives} {cap : WalCap} {PO : PrimitivesOk P}.
Implicit Types (w : World) (H : list bytes) (st : Store).

Lemma store_log_name w st H : store_inv w st H -> log_name (st_wal st) w.
Proof using Type.
  intros [[_ _ H3 H4 _] Ha _]. assert (latest (w_dir w) ∈ possible (w_dir w)) as Hd by apply list_elem_of_here.
  destruct (H4 _ Hd) as (Hf & Hinj & _). split; [done| |].
  - intros x Hx. by apply (Hinj x WAL_FILE (st_wal st)), Ha.
  - destruct (Hf WAL_FILE (st_wal st) (Ha _ Hd)) as (n & Hn & _). apply H3. by eexists.
Qed.

Lemma checkpoint_within I J K L st sequence payload :
  (forall b, within I J K (write_atomic SNAPSHOT_TEMP SNAPSHOT_FILE b)) ->
  (forall b, within J L K (write_atomic WAL_TEMP WAL_FILE b)) -> within L L K (open_file WAL_FILE false false) ->
  (forall w, I w -> K w) ->
  forall w, I w -> wp (store_checkpoint sequence payload) (fun _ s => L (sw_world s)) (fun _ s => K (sw_world s) /\ sw_store s = st)
    (fun s => K (sw_world s) /\ sw_store s = st) (mkSW st w).
Proof using Type.
  intros H1 H2 H3 HK w Hw. unfold store_checkpoint.
  destruct (_ <? _)%N; [apply wp_io, wp_throw; cbn [sw_world sw_store]; auto|].
  apply wp_bind, wp_io, wp_pure. destruct (encode_snapshot sequence payload); [|cbn [sw_world sw_store]; auto].
  apply wp_bind, wp_io. eapply wp_mono; [by apply H1| |by intros|by intros]. intros u1 w1 HJ. cbn beta in HJ |- *.
  apply wp_bind, wp_io. eapply wp_mono; [by apply H2| |by intros|by intros]. intros u2 w2 HL. cbn beta in HL |- *.
  apply wp_bind, wp_io. eapply wp_mono; [by apply H3| |by intros|by intros]. by intros i w3 H.
Qed.

(** A checkpoint leaves the history alone.  One that fails leaves the handle on
    the old log, which the directory may or may not still name. *)
Lemma checkpoint_cases w st H cur :
  store_inv w st H -> last H = Some cur ->
  match store_checkpoint (N.of_nat (length H)) cur (mkSW st w) with
  | (Ok _, s) => store_inv (sw_world s) (sw_store s) H /\
      (forall n, w_inodes (sw_world s) !! st_wal (sw_store s) = Some n -> in_data n = settled wal_header) /\
      (once (w_script w) -> once (w_script (sw_world s)))
  | (Err _, s) => sw_store s = st /\ disk_ok (sw_world s) H Exact /\ w_locked (sw_world s) = true /\
      kept_log (st_wal st) (sw_world s)
  end.
Proof using PO.
  intros Hi Hc. pose proof (store_log_name w st H Hi) as Hn. destruct Hi as [Hd Ha Hl].
  pose proof (wp_store_checkpoint True st w H cur
    (fun _ s => store_inv (sw_world s) (sw_store s) H /\
      (forall n, w_inodes (sw_world s) !! st_wal (sw_store s) = Some n -> in_data n = settled wal_header))
    (fun _ s => disk_ok (sw_world s) H Exact /\ w_locked (sw_world s) = true)
    (fun s => disk_ok (sw_world s) H Exact /\ w_locked (sw_world s) = true) Hd (or_introl I) Hc) as H1.
  specialize (H1 ltac:(intros w1 i n Hd1 _ Ha1 Hn1 Hc1 Hl1; split; [split; [done|done|cbn [sw_world]; congruence]|];
    intros n' Hn'; cbn [sw_world sw_store st_wal] in Hn'; by simplify_eq)
    ltac:(intros _ k w1 Hd1 Hl1; cbn [sw_world]; split; [done|congruence])
    ltac:(intros _ w1 Hd1 Hl1; cbn [sw_world]; split; [done|congruence])).
  pose proof (checkpoint_within (log_name (st_wal st)) (log_name (st_wal st)) (kept_log (st_wal st)) (kept_log (st_wal st)) st
    (N.of_nat (length H)) cur ltac:(intros b; by apply (named_write_atomic _ SNAPSHOT_TEMP SNAPSHOT_FILE))
    ltac:(intros b; by apply (named_write_atomic _ WAL_TEMP WAL_FILE)) (kept_open _ _) (named_kept _) w Hn) as H2.
  assert (once (w_script w) -> wp (store_checkpoint (N.of_nat (length H)) cur) (fun _ s => scripted (sw_world s))
    (fun _ s => scripted (sw_world s) /\ sw_store s = st) (fun s => scripted (sw_world s) /\ sw_store s = st) (mkSW st w)) as H3.
  { apply (checkpoint_within scripted scripted scripted scripted); auto using scripted_write_atomic, scripted_open. }
  unfold wp in *. destruct (store_checkpoint _ _ _) as [[u|[e|]] s]; [|tauto..]. destruct H1. by split_and!.
Qed.

(** ** An append that fails and is rolled back *)

Lemma wp_syscall_once {A} (act : World -> result IoKind A * World) Q (E : PError -> World -> Prop) w :
  once (w_script w) ->
  (forall s, once s -> match act (set_script s w) with (Ok a, w') => Q a w' | (Err k, w') => E (PIo k) w' end) ->
  (forall k, E (PIo k) (set_script [] w)) ->
  wp (syscall act) Q E (fun _ => True) w.
Proof using Type.
  intros Ho Ha HE. unfold wp, syscall, next_fault. destruct (w_script w) as [|f s] eqn:Es.
  - specialize (Ha [] once_nil). rewrite <- Es, set_script_id in Ha. by destruct (act w) as [[a|k] w'].
  - apply once_cons in Ho as [Ho Hs]. specialize (Ha s Ho).
    destruct f; [by destruct (act _) as [[a|k'] w']|by rewrite Hs by done..|done].
Qed.

(** The log [i] of the store, which holds [h], while a record is added. *)
Section once.
Context (w : World) (H : list bytes) (p : bytes) (i : nat) (n : Inode) (h : bytes).
Context (Hd : disk_ok w H Exact) (Ha : attached w i) (Hn : w_inodes w !! i = Some n)
  (Hh : latest (in_data n) = h) (HH : hist_ok (H ++ [p]))
  (Hfit : (lenN h + lenN (record_image (newest H p)) <= wal_cap)%N) (Hlk : w_locked w = true).
#[local] Abbreviation at_log := (holding w i n).
#[local] Abbreviation sound := (fun (_ : PError) s => store_inv (sw_world s) (sw_store s) H).

Lemma holding_script a s s' : set_script s' (at_log a s) = at_log a s'.
Proof using Type. done. Qed.

Lemma at_log_sound a s : a = in_data n \/ a = settled h -> store_inv (at_log a s) (mkStore i) H.
Proof using Hd Ha Hn Hh HH Hfit Hlk.
  intros Hc. split; [|done|done]. destruct Hc as [->| ->]; [|by apply (kept_holding_ok w H p i n h Hd Ha Hn Hh Hfit)].
  pose proof (holding_start w i n Hn) as Es. pose proof (disk_script w s H Exact Hd) as Hs.
  rewrite Es in Hs. exact Hs.
Qed.

(** The rollback, when nothing else fails. *)
Lemma wp_rollback_quiet a e :
  adding H p h a ->
  wp (rollback_append (lenN h) e) (fun _ _ => True) sound (fun _ => True) (mkSW (mkStore i) (at_log a [])).
Proof using Hd Ha Hn Hh HH Hfit Hlk.
  intros Hadd. unfold rollback_append.
  apply wp_bind, wp_wal_file, wp_bind, wp_io. apply (wp_update False w i n); [by right| |done|done].
  intros s1 [[]|Hs1]. change (s1 = []) in Hs1. subst s1. cbn beta zeta. rewrite (adding_cut H p h a Hadd).
  apply wp_bind, wp_io. apply (wp_update False w i n); [by right| |done|done].
  intros s2 [[]|Hs2]. change (s2 = []) in Hs2. subst s2. apply wp_bind. unfold seek_end.
  apply wp_bind, wp_wal_file, wp_io. apply (wp_length False w i n); [by right| |done|done].
  intros s3 _. apply wp_io, wp_throw. apply at_log_sound. by right.
Qed.

Lemma wp_append_durable_once s :
  once s ->
  wp (append_durable (lenN h) (record_image (newest H p))) (fun _ _ => True) sound (fun _ => True)
    (mkSW (mkStore i) (at_log (in_data n) s)).
Proof using Hd Ha Hn Hh HH Hfit Hlk.
  intros Hs. set (r := record_image _).
  assert (forall c, c `prefix_of` r -> adding H p h (async_put (h ++ c) (in_data n))) as Hput.
  { intros c Hc. apply adding_put; [|done]. by apply (adding_start w H p i n h Hd Ha Hn Hh). }
  unfold append_durable. apply wp_bind, wp_wal_file, wp_bind. unfold seek_end.
  apply wp_bind, wp_wal_file, wp_io. apply wp_syscall_once; [done| |intros k; apply (at_log_sound (in_data n) []); by left].
  intros s1 Hs1. rewrite holding_script, holding_lookup. cbn [in_data].
  apply wp_on_fail, wp_bind, wp_io. unfold wp at 1, write_all, next_fault, update_file. rewrite Hh.
  change (w_script (at_log (in_data n) s1)) with s1.
  assert (forall a s2, set_inode i (mkInode (in_meta n) (async_put (write_at (N.to_nat (lenN h)) a (latest (in_data n))) (in_data n)))
    (at_log (in_data n) s2) = at_log (async_put (h ++ a) (in_data n)) s2) as Hw.
  { intros a s2. by rewrite Hh, write_at_end, holding_put. }
  assert (forall s2, once s2 -> wp (io (sync_file i)) (fun _ _ => True)
    (fun e s' => wp (rollback_append (lenN h) e) (fun _ _ => True) sound (fun _ => True) s') (fun _ => True)
    (mkSW (mkStore i) (at_log (async_put (h ++ r) (in_data n)) s2))) as Hsync.
  { intros s2 Hs2. apply wp_io. unfold sync_file. apply wp_syscall_once; [done| |].
    - intros s3 Hs3. rewrite holding_script. unfold update_file. by rewrite holding_lookup.
    - intros k. rewrite holding_script. by apply wp_rollback_quiet, Hput. }
  destruct s1 as [|f s2].
  - rewrite holding_lookup. cbn [fst snd map_err in_meta in_data]. rewrite Hw. by apply Hsync, once_nil.
  - apply once_cons in Hs1 as [Hs2 Hnil]. rewrite holding_script, holding_lookup. cbn [in_meta in_data].
    destruct f as [|k|m k|]; [| | |done].
    + rewrite Hw. by apply Hsync.
    + rewrite Hnil by done. apply wp_rollback_quiet. by apply (adding_start w H p i n h Hd Ha Hn Hh).
    + cbn [snd]. rewrite Hw, Hnil by done. apply wp_rollback_quiet, Hput. exists (drop m r). by rewrite take_drop.
Qed.
End once.

Lemma append_durable_once w st H p l :
  store_inv w st H -> hist_ok (H ++ [p]) -> once (w_script w) ->
  (forall m, w_inodes w !! st_wal st = Some m -> l = lenN (latest (in_data m))) ->
  (l + lenN (record_image (newest H p)) <= wal_cap)%N ->
  wp (append_durable l (record_image (newest H p))) (fun _ _ => True)
    (fun _ s => store_inv (sw_world s) (sw_store s) H) (fun _ => True) (mkSW st w).
Proof using PO.
  intros [Hd Ha Hlk] HH Ho Hl Hfit. destruct st as [i]. cbn [st_wal] in *.
  destruct (attached_wal w H Exact i Hd Ha) as (n & k & Hn & _). specialize (Hl n Hn). subst l.
  rewrite (holding_start w i n Hn). by apply (wp_append_durable_once w H p i n _ Hd Ha Hn eq_refl HH Hfit Hlk).
Qed.

(** What an append leaves that fails: the history as it was, with the handle
    still on the log, unless a checkpoint within it failed after it had renamed
    the new log into place. *)
Definition left_sound (H : list bytes) (s : SW) : Prop :=
  disk_ok (sw_world s) H Exact /\ w_locked (sw_world s) = true /\
  (latest (w_dir (sw_world s)) !! WAL_FILE = Some (st_wal (sw_store s)) -> attached (sw_world s) (st_wal (sw_store s))).

Lemma inv_left_sound H s : store_inv (sw_world s) (sw_store s) H -> left_sound H s.
Proof using Type. intros []. by split_and!. Qed.

Lemma left_sound_inv H s :
  left_sound H s -> latest (w_dir (sw_world s)) !! WAL_FILE = Some (st_wal (sw_store s)) ->
  store_inv (sw_world s) (sw_store s) H.
Proof using Type. intros (H1 & H2 & H3) Hw. split; auto. Qed.

Lemma inv_script w st H s : store_inv w st H -> store_inv (set_script s w) st H.
Proof using Type. intros [H1 H2 H3]. split; [by apply disk_script|done|done]. Qed.

Section append.
Context (H : list bytes) (p : bytes) (o : PersistenceOptions).
Context (Ho : options_ok o) (Hcap : (max_wal_bytes o <= wal_cap)%N).
Let r := record_image (newest H p).
#[local] Abbreviation wps m := (wp m (fun _ _ => True) (fun (_ : PError) s => left_sound H s) (fun _ => True)).

Lemma append_tail_once w st l :
  store_inv w st H -> once (w_script w) -> hist_ok (H ++ [p]) ->
  (forall m, w_inodes w !! st_wal st = Some m -> l = lenN (latest (in_data m))) ->
  wps (projected ← io (pure_io (ok_or (checked_add64 l (lenN r)) (PLimitExceeded "WAL length overflow")));
      if (max_wal_bytes o <? projected)%N
      then io (throw (PLimitExceeded "one WAL record cannot fit configured limit"))
      else append_durable l r) (mkSW st w).
Proof using PO Ho Hcap.
  intros Hi Hs HH Hl. apply wp_bind, wp_io, wp_pure. unfold checked_add64.
  destruct (N.ltb_spec (l + lenN r) two64); cbn [ok_or]; [|by apply (inv_left_sound H (mkSW st w))].
  destruct (N.ltb_spec (max_wal_bytes o) (l + lenN r)); [by apply wp_io, wp_throw, (inv_left_sound H (mkSW st w))|].
  eapply wp_mono; [apply (append_durable_once w st H p l Hi HH Hs Hl); fold r; lia|done| |done].
  intros e s Hs'. by apply inv_left_sound.
Qed.

Lemma append_once w st cur :
  store_inv w st H -> once (w_script w) -> last H = Some cur ->
  wps (store_append (N.of_nat (length H)) cur (N.of_nat (S (length H))) p o) (mkSW st w).
Proof using PO Ho Hcap.
  intros Hi Hs Hcur. unfold store_append.
  assert (forall e w1, store_inv w1 st H -> wps (io (throw e) : M SW Stop unit) (mkSW st w1)) as Href
    by (intros e w1 Hi1; by apply wp_io, wp_throw, (inv_left_sound H (mkSW st w1))).
  destruct (decide _) as [Hq|Hq]; [by apply Href|]. apply dec_stable in Hq. unfold checked_add64 in Hq.
  destruct (N.ltb_spec (N.of_nat (length H) + 1) two64) as [Hc|]; [|done].
  destruct (N.ltb_spec (max_record_bytes o) (lenN p)) as [Hlt|Hle]; [by apply Href|]. cbn [orb].
  destruct (N.ltb_spec HARD_MAX_STATE_BYTES (lenN p)) as [Hlt|Hle']; [by apply Href|].
  pose proof (hist_snoc o H p Ho (dk_hist _ _ _ (sv_disk _ _ _ Hi)) Hc Hle) as HH.
  apply wp_bind, wp_io, wp_pure. rewrite encode_record_image by lia. fold (newest H p). fold r.
  apply wp_bind, wp_wal_file, wp_bind, wp_io. pose proof Hi as [Hd Ha _].
  destruct (attached_wal w H Exact _ Hd Ha) as (n & k & Hn & _).
  apply wp_syscall_once; [done| |intros k'; by apply (inv_left_sound H (mkSW st (set_script [] w))), inv_script].
  intros s Hs1. cbn [set_script w_inodes]. rewrite Hn. set (w1 := set_script s w).
  assert (store_inv w1 st H) as Hi1 by (by apply inv_script).
  apply wp_bind, wp_io, wp_pure. destruct (checked_add64 _ _) as [projected|]; cbn [ok_or]; [|by apply (inv_left_sound H (mkSW st w1))].
  apply wp_bind. destruct (_ || _).
  - pose proof (checkpoint_cases w1 st H cur Hi1 Hcur) as Hck. apply wp_bind. unfold wp at 1.
    destruct (store_checkpoint _ _ _) as [[u|[e|]] [st2 w2]]; [|by destruct Hck as (E & H1 & H2 & H3); cbn [sw_store sw_world] in *; subst st2;
      split_and!; [done|done|apply kept_attached]|done].
    destruct Hck as (H1 & H2 & H3). cbn [sw_store sw_world] in *. apply wp_ret, append_tail_once; [done|by apply H3|done|].
    intros m Hm. by rewrite (H2 m Hm).
  - apply wp_ret, append_tail_once; [done|done|done|]. intros m Hm. change (w_inodes w !! st_wal st = Some m) in Hm. by simplify_eq.
Qed.
End append.
End failed.
