(* ===== verification/Durable.v ===== *)
(** * The store as a durable log

    The store against its specification: a history of committed payloads.
    [reaches] are the states a program can bring a store to by appends and
    checkpoints, also such as failed, and by power losses and reopenings at any
    moment; [store_inv] holds in all of them.  What is left out is shown at the
    end of the file to break it: going on with a handle whose log has been
    replaced by a failed checkpoint, or after a rollback that failed as well. *)

From Stdlib Require Import NArith Lia.
From S2P Require Import Prelude Crypto Toy Codec Persist Store Crash Failed.

(** ** Runs *)

Section runs.
Context {P : Primitives} {cap : WalCap} {PO : PrimitivesOk P}.
Implicit Types (w : World) (st : Store) (H : list bytes).

(** A path at which nothing is stored. *)
Record vacant (w : World) : Prop := {
  vc_root : latest (w_root w) = None;
  vc_unlocked : w_locked w = false;
  vc_fresh i : is_Some (w_inodes w !! i) -> i < w_next w;
}.

(** Limits whose log bound is that of the store. *)
Definition options_fit (o : PersistenceOptions) : Prop := options_ok o /\ (max_wal_bytes o <= wal_cap)%N.

(** One append of [p] to the history [H], by the caller's rule that it passes
    the last payload and the next number. *)
Definition append_next (H : list bytes) (cur p : bytes) (o : PersistenceOptions) : M SW Stop unit :=
  store_append (N.of_nat (length H)) cur (N.of_nat (S (length H))) p o.

(** Opening failed, and then the power. *)
Definition open_failed (w w2 : World) : Prop := exists e w1, store_open w = (Err e, w1) /\ crash w1 w2.

(** The directory names the open file as its log. *)
Definition still_open (s : SW) : Prop := latest (w_dir (sw_world s)) !! WAL_FILE = Some (st_wal (sw_store s)).

(** The outside world decides which calls will fail.  A store is created; it is
    appended to and checkpointed; it is kept after an append in which one call
    failed, and after a checkpoint that failed, as long as the directory still
    names the open file as its log; and it is opened again after it was closed,
    after the power was lost, and after it was lost in the middle of an append or
    of a checkpoint, any number of failed attempts included. *)
Inductive reaches : World -> Store -> list bytes -> Prop :=
| reaches_create w p st w' :
    vacant w -> (lenN p <= HARD_MAX_STATE_BYTES)%N -> store_create 1 p w = (Ok st, w') -> reaches w' st [p]
| reaches_script w st H s : reaches w st H -> reaches (set_script s w) st H
| reaches_append w st H cur p o st' w' :
    reaches w st H -> options_fit o -> last H = Some cur ->
    append_next H cur p o (mkSW st w) = (Ok tt, mkSW st' w') -> reaches w' st' (H ++ [p])
| reaches_append_failed w st H cur p o e s :
    reaches w st H -> options_fit o -> last H = Some cur -> once (w_script w) ->
    append_next H cur p o (mkSW st w) = (Err (Fail e), s) -> still_open s -> reaches (sw_world s) (sw_store s) H
| reaches_checkpoint w st H cur s :
    reaches w st H -> last H = Some cur ->
    store_checkpoint (N.of_nat (length H)) cur (mkSW st w) = (Ok tt, s) -> reaches (sw_world s) (sw_store s) H
| reaches_checkpoint_failed w st H cur e s :
    reaches w st H -> last H = Some cur ->
    store_checkpoint (N.of_nat (length H)) cur (mkSW st w) = (Err (Fail e), s) -> still_open s ->
    reaches (sw_world s) (sw_store s) H
| reaches_reopen w st H w1 w' st' rcv :
    reaches w st H -> rtc open_failed (set_locked false w) w1 -> store_open w1 = (Ok (st', rcv), w') -> reaches w' st' H
| reaches_crash w st H w1 w2 st' rcv w' :
    reaches w st H -> crash w w1 -> rtc open_failed w1 w2 -> store_open w2 = (Ok (st', rcv), w') -> reaches w' st' H
| reaches_interrupted w st H cur p o e s w1 w2 st' rcv w' H' :
    reaches w st H -> options_fit o -> last H = Some cur ->
    append_next H cur p o (mkSW st w) = (Err e, s) -> crash (sw_world s) w1 -> rtc open_failed w1 w2 ->
    store_open w2 = (Ok (st', rcv), w') -> H' = H \/ H' = H ++ [p] -> recovers rcv H' -> reaches w' st' H'
| reaches_checkpoint_cut w st H cur e s w1 w2 st' rcv w' :
    reaches w st H -> last H = Some cur ->
    store_checkpoint (N.of_nat (length H)) cur (mkSW st w) = (Err e, s) -> crash (sw_world s) w1 ->
    rtc open_failed w1 w2 -> store_open w2 = (Ok (st', rcv), w') -> reaches w' st' H.

(** ** What recovery finds *)

(** The last record of the log, or else the snapshot. *)
Definition recovered (rcv : Recovery) : option WalRecord :=
  match last (rcv_wal rcv) with
  | Some r => Some r
  | None => match rcv_snapshot rcv with SnapValid r => Some r | _ => None end
  end.

Lemma last_drop {A} (l : list A) k : k < length l -> last (drop k l) = last l.
Proof using Type.
  intros Hk. rewrite !last_lookup, lookup_drop, length_drop. f_equal. lia.
Qed.

Lemma recovers_last rcv H : recovers rcv H -> recovered rcv = last (numbered H).
Proof using Type.
  intros (s & k & r & -> & Hr & Hs & Hk). unfold recovered. cbn [rcv_wal rcv_snapshot]. unfold log.
  pose proof (lookup_lt_Some _ _ _ Hr) as Hlt. rewrite numbered_length in Hlt.
  destruct (decide (k = length H)) as [->|Hne].
  - rewrite drop_ge by (by rewrite numbered_length). cbn [last]. rewrite last_lookup, numbered_length, <- Hr. f_equal. lia.
  - rewrite last_drop by (rewrite numbered_length; lia).
    destruct (last (numbered H)) eqn:E; [done|]. apply last_None in E. by rewrite E in Hr.
Qed.

Lemma last_sequence H r : last (numbered H) = Some r -> rec_sequence r = N.of_nat (length H).
Proof using Type.
  rewrite last_lookup, numbered_lookup, numbered_length. destruct (H !! _) as [p|] eqn:E; [|done].
  intros [= <-]. cbn [rec_sequence]. apply lookup_lt_Some in E. lia.
Qed.

Lemma recovers_nonempty rcv H : recovers rcv H -> is_Some (last (numbered H)).
Proof using Type.
  intros (s & k & r & _ & Hr & _). apply last_is_Some. intros E. by rewrite E in Hr.
Qed.

(** The recovered data tell which history it is. *)
Lemma recovers_length rcv H H' : recovers rcv H -> recovers rcv H' -> length H = length H'.
Proof using Type.
  intros R R'. destruct (recovers_nonempty _ _ R) as [r Hr]. destruct (recovers_nonempty _ _ R') as [r' Hr'].
  pose proof (recovers_last _ _ R) as E. rewrite (recovers_last _ _ R'), Hr, Hr' in E. injection E as ->.
  apply last_sequence in Hr, Hr'. lia.
Qed.

Lemma snoc_unique rcv H p H1 H2 :
  H1 = H \/ H1 = H ++ [p] -> H2 = H \/ H2 = H ++ [p] -> recovers rcv H1 -> recovers rcv H2 -> H1 = H2.
Proof using Type.
  intros [->| ->] [->| ->] R1 R2; try done; pose proof (recovers_length _ _ _ R1 R2) as Hl;
    rewrite length_app in Hl; simpl in Hl; lia.
Qed.

(** ** The operations as a whole *)

Lemma ready_any w : ready True w.
Proof using Type. by left. Qed.
Lemma ready_quiet w : w_script w = [] -> ready False w.
Proof using Type. by right. Qed.

Lemma create_inv w p st w' :
  vacant w -> (lenN p <= HARD_MAX_STATE_BYTES)%N -> store_create 1 p w = (Ok st, w') -> store_inv w' st [p].
Proof using Type.
  intros [V1 V2 V3] Hp Hc.
  pose proof (wp_store_create True w p (fun st w => store_inv w st [p]) (fun _ _ => True) (fun _ => True)
    ltac:(done) ltac:(done) (ready_any w) V1 V2 V3 Hp ltac:(done)) as Hw.
  unfold wp in Hw. by rewrite Hc in Hw.
Qed.

Lemma append_result w st H cur p o :
  store_inv w st H -> options_fit o -> last H = Some cur ->
  match append_next H cur p o (mkSW st w) with
  | (Ok _, s) => fits o H p /\ store_inv (sw_world s) (sw_store s) (H ++ [p])
  | (Err _, s) => interrupted (sw_world s) H p /\ w_locked (sw_world s) = true
  end.
Proof using PO.
  intros Hi [Ho Hcap] Hc.
  pose proof (wp_store_append True H p o
    (fun _ s => fits o H p /\ store_inv (sw_world s) (sw_store s) (H ++ [p]))
    (fun _ s => interrupted (sw_world s) H p /\ w_locked (sw_world s) = true)
    (fun s => interrupted (sw_world s) H p /\ w_locked (sw_world s) = true)) as Hw.
  unfold wp, append_next in *. cbn [sw_world sw_store] in Hw.
  assert (forall w1 st1, store_inv w1 st1 H -> interrupted w1 H p /\ w_locked w1 = true) as Hk.
  { intros w1 st1 [H1 _ H3]. split; [by apply exact_interrupted|done]. }
  specialize (Hw ltac:(auto) ltac:(eauto) ltac:(auto) ltac:(auto) Ho Hcap w st cur Hi (ready_any w) Hc).
  destruct (store_append _ _ _ _ _ _) as [[[]|[e|]] s]; done.
Qed.

Lemma append_quiet w st H cur p o :
  store_inv w st H -> options_fit o -> last H = Some cur -> w_script w = [] ->
  match append_next H cur p o (mkSW st w) with
  | (Ok _, s) => fits o H p /\ store_inv (sw_world s) (sw_store s) (H ++ [p])
  | (Err _, s) => ~ fits o H p /\ store_inv (sw_world s) (sw_store s) H
  end.
Proof using PO.
  intros Hi [Ho Hcap] Hc Hs.
  pose proof (wp_store_append False H p o
    (fun _ s => fits o H p /\ store_inv (sw_world s) (sw_store s) (H ++ [p]))
    (fun _ s => ~ fits o H p /\ store_inv (sw_world s) (sw_store s) H) (fun _ => False)) as Hw.
  unfold wp, append_next in *. cbn [sw_world sw_store] in Hw.
  specialize (Hw ltac:(auto) ltac:(auto) ltac:(done) ltac:(done) Ho Hcap w st cur Hi (ready_quiet w Hs) Hc).
  destruct (store_append _ _ _ _ _ _) as [[[]|[e|]] s]; done.
Qed.

(** A checkpoint leaves the history alone; without failures it succeeds. *)
Lemma checkpoint_result w st H cur :
  store_inv w st H -> last H = Some cur ->
  match store_checkpoint (N.of_nat (length H)) cur (mkSW st w) with
  | (Ok _, s) => store_inv (sw_world s) (sw_store s) H
  | (Err _, s) => w_script w <> [] /\ disk_ok (sw_world s) H Exact
  end.
Proof using PO.
  intros [Hd _ Hl] Hc.
  assert (forall faulty, ready faulty w -> wp (store_checkpoint (N.of_nat (length H)) cur)
    (fun _ s => store_inv (sw_world s) (sw_store s) H) (fun _ s => faulty /\ disk_ok (sw_world s) H Exact)
    (fun s => faulty /\ disk_ok (sw_world s) H Exact) (mkSW st w)) as Hw.
  { intros faulty Hr. apply (wp_store_checkpoint faulty); try done.
    intros w1 i n Hd1 _ Ha1 _ _ Hl1. split; [done|done|]. cbn [sw_world]. congruence. }
  destruct (decide (w_script w = [])) as [Hs|Hs].
  - specialize (Hw False (ready_quiet w Hs)). unfold wp in Hw.
    destruct (store_checkpoint _ _ _) as [[[]|[x|]] s]; [done|by destruct Hw..].
  - specialize (Hw True (ready_any w)). unfold wp in Hw.
    destruct (store_checkpoint _ _ _) as [[[]|[x|]] s]; [done| |]; by destruct Hw.
Qed.

Lemma open_result w H st rcv w' :
  openable w H -> store_open w = (Ok (st, rcv), w') ->
  store_inv w' st H /\ (recovers rcv H \/ rcv_snapshot rcv = SnapMissing).
Proof using PO.
  intros Hop Hres.
  pose proof (wp_store_open True w H (fun '(st, rcv) w' => store_inv w' st H /\ (recovers rcv H \/ rcv_snapshot rcv = SnapMissing))
    (fun _ _ => True) (fun _ => True) Hop (ready_any w) ltac:(intros; split; [done|by left]) ltac:(intros; split; [done|by right]) ltac:(done) ltac:(done)) as Hw.
  unfold wp in Hw. by rewrite Hres in Hw.
Qed.

Lemma open_ready w H :
  openable w H -> w_script w = [] ->
  exists st rcv w', store_open w = (Ok (st, rcv), w') /\ store_inv w' st H /\ recovers rcv H /\ w_script w' = [].
Proof using PO.
  intros Hop Hs.
  assert (forall w', ready False w' -> w_script w' = []) as Hr by (by intros w' [[]|?]).
  pose proof (wp_store_open False w H (fun '(st, rcv) w' => store_inv w' st H /\ recovers rcv H /\ w_script w' = [])
    (fun _ _ => False) (fun _ => False) Hop (ready_quiet w Hs) ltac:(intros; split_and!; auto) ltac:(done) ltac:(done) ltac:(done)) as Hw.
  unfold wp in Hw. destruct (store_open w) as [[[st rcv]|[e|]] w'] eqn:Eo; [|done..].
  exists st, rcv, w'. done.
Qed.

Lemma open_quiet w H :
  openable w H -> w_script w = [] ->
  exists st rcv w', store_open w = (Ok (st, rcv), w') /\ store_inv w' st H /\ recovers rcv H.
Proof using PO.
  intros Hop Hs. destruct (open_ready w H Hop Hs) as (st & rcv & w' & E1 & E2 & E3 & _). by exists st, rcv, w'.
Qed.

Lemma interrupted_crash w H p w' :
  interrupted w H p -> crash w w' -> exists H', (H' = H \/ H' = H ++ [p]) /\ openable w' H'.
Proof using PO.
  intros (tl & Hd & Hp & Htl) Hc. destruct (crash_openable w w' H tl Hd Hp Hc) as (H' & Ho & Hop).
  exists H'. split; [|done]. destruct Ho as [->|Ho]; [by left|]. destruct Htl as [->| ->]; [done|]. by right.
Qed.

Lemma inv_crash w st H w' : store_inv w st H -> crash w w' -> openable w' H.
Proof using PO.
  intros [Hd _ _] Hc. destruct (crash_openable w w' H Exact Hd I Hc) as (H' & Ho & Hop).
  by destruct Ho as [->|[]].
Qed.

(** An opening that fails loses nothing. *)
Lemma open_fails_openable w H e w1 w2 :
  openable w H -> store_open w = (Err e, w1) -> crash w1 w2 -> openable w2 H.
Proof using PO.
  intros Hop Hres Hc.
  assert (forall w1, disk_ok w1 H Torn -> forall w2, crash w1 w2 -> openable w2 H) as Hagain.
  { intros w3 Hd w4 Hc'. destruct (crash_openable w3 w4 H Torn Hd I Hc') as (H' & [->|[]] & Hop'). done. }
  pose proof (wp_store_open True w H (fun _ _ => True)
    (fun _ w1 => forall w2, crash w1 w2 -> openable w2 H) (fun w1 => forall w2, crash w1 w2 -> openable w2 H)
    Hop (ready_any w) ltac:(done) ltac:(done) (fun _ _ => Hagain) (fun _ => Hagain)) as Hw.
  unfold wp in Hw. rewrite Hres in Hw. destruct e as [e|]; by apply Hw.
Qed.

Lemma retried_openable w w' H : openable w H -> rtc open_failed w w' -> openable w' H.
Proof using PO.
  intros Hop Ht. induction Ht as [|w w1 w2 (e & w3 & He & Hc) _ IH]; [done|]. apply IH. by eapply open_fails_openable.
Qed.

(** ** Properties *)

(** C11. In every state a store can reach its directory holds the history of
    committed payloads: every state of the directory that a power loss could leave
    has a valid snapshot of an entry and a log of consecutive entries that
    continues it, the open handle is the log the directory names, and the lock is
    held.  The states reached are those after creating the store, appending and
    checkpointing; after an append in which one call of the file system failed and
    which was rolled back; after a checkpoint that failed before it had replaced
    the log; and after closing the store or losing power at any moment, in the
    middle of an append, a checkpoint or an opening too, and opening it again.  Out
    of scope is going on with the handle after a checkpoint that failed once the
    log had been replaced, and after an append in which more calls than one
    failed. *)
Theorem store_invariant w st H : reaches w st H -> store_inv w st H.
Proof using PO.
  induction 1 as [w p st w' Hv Hp Hc|w st H s _ IH|w st H cur p o st' w' _ IH Ho Hcur Ha
    |w st H cur p o e s _ IH Ho Hcur Hsc Ha Hopen|w st H cur s _ IH Hcur Hck|w st H cur e s _ IH Hcur Hck Hopen
    |w st H w1 w' st' rcv _ IH Ht Hop|w st H w1 w2 st' rcv w' _ IH Hc Ht Hop
    |w st H cur p o e s w1 w2 st' rcv w' H' _ IH Ho Hcur Ha Hc Ht Hop HH' HR
    |w st H cur e s w1 w2 st' rcv w' _ IH Hcur Hck Hc Ht Hop].
  - by eapply create_inv.
  - by apply inv_script.
  - pose proof (append_result w st H cur p o IH Ho Hcur) as Hr. rewrite Ha in Hr. apply Hr.
  - pose proof (append_once H p o (proj1 Ho) (proj2 Ho) w st cur IH Hsc Hcur) as Hr. unfold wp in Hr.
    unfold append_next in Ha. rewrite Ha in Hr. by apply left_sound_inv.
  - pose proof (checkpoint_cases w st H cur IH Hcur) as Hr. rewrite Hck in Hr. apply Hr.
  - pose proof (checkpoint_cases w st H cur IH Hcur) as Hr. rewrite Hck in Hr. destruct Hr as (Es & Hd & Hl & Hk).
    unfold still_open in Hopen. rewrite Es in *. split; [done|by apply kept_attached|done].
  - by apply (open_result _ _ _ _ _ (retried_openable _ _ _ (closed_openable _ _ _ IH) Ht)) in Hop as [? _].
  - by apply (open_result _ _ _ _ _ (retried_openable _ _ _ (inv_crash _ _ _ _ IH Hc) Ht)) in Hop as [? _].
  - pose proof (append_result w st H cur p o IH Ho Hcur) as Hr. rewrite Ha in Hr. destruct Hr as [Hi _].
    destruct (interrupted_crash _ _ _ _ Hi Hc) as (H2 & HH2 & Hop2).
    apply (open_result _ _ _ _ _ (retried_openable _ _ _ Hop2 Ht)) in Hop as [Hinv [R2|Hm]].
    + by rewrite (snoc_unique rcv H p H' H2).
    + destruct HR as (s0 & k & r & -> & _). done.
  - pose proof (checkpoint_result w st H cur IH Hcur) as Hr. rewrite Hck in Hr. destruct Hr as [_ Hd].
    destruct (crash_openable _ w1 H Exact Hd I Hc) as (H' & [->|[]] & Hop').
    by apply (open_result _ _ _ _ _ (retried_openable _ _ _ Hop' Ht)) in Hop as [? _].
Qed.

(** C12. An append is atomic.  When it reports success the history has one more
    entry and the record fits the limits; when no call fails from outside, it
    succeeds exactly when the record fits, and a refusal leaves the store as it
    was; and whatever calls fail, however many bytes of the record were written
    and wherever power is lost, opening the store afterwards succeeds and finds
    either the history before or the history with the new entry, and the latter
    whenever success had been reported. *)
Theorem append_atomic w st H cur p o :
  store_inv w st H -> options_fit o -> last H = Some cur ->
  let '(r, s) := append_next H cur p o (mkSW st w) in
  (r = Ok tt -> fits o H p /\ store_inv (sw_world s) (sw_store s) (H ++ [p])) /\
  (w_script w = [] ->
     (r = Ok tt <-> fits o H p) /\ (r <> Ok tt -> store_inv (sw_world s) (sw_store s) H)) /\
  (forall w1, crash (sw_world s) w1 -> w_script w1 = [] ->
     exists H' st' rcv w', (H' = H ++ [p] \/ (H' = H /\ r <> Ok tt)) /\
       store_open w1 = (Ok (st', rcv), w') /\ store_inv w' st' H' /\ recovered rcv = last (numbered H')).
Proof using PO.
  intros Hi Ho Hc. pose proof (append_result w st H cur p o Hi Ho Hc) as Hres.
  pose proof (append_quiet w st H cur p o Hi Ho Hc) as Hq.
  destruct (append_next H cur p o (mkSW st w)) as [[[]|e] s]; split_and!; try done.
  - intros Hs. destruct (Hq Hs). split; [done|]. by intros [].
  - intros w1 Hcr Hs1. destruct Hres as [_ Hinv].
    destruct (open_quiet w1 _ (inv_crash _ _ _ _ Hinv Hcr) Hs1) as (st' & rcv & w' & E1 & E2 & E3).
    exists (H ++ [p]), st', rcv, w'. split_and!; [by left|done|done|by apply recovers_last].
  - intros Hs. destruct (Hq Hs). done.
  - intros w1 Hcr Hs1. destruct Hres as [Hint _]. destruct (interrupted_crash _ _ _ _ Hint Hcr) as (H' & HH' & Hop).
    destruct (open_quiet w1 _ Hop Hs1) as (st' & rcv & w' & E1 & E2 & E3).
    exists H', st', rcv, w'. split_and!; [|done|done|by apply recovers_last].
    destruct HH' as [->| ->]; [by right|by left].
Qed.

(** C19. Opening is safe and live.  A store that was closed, or that lost power
    in any reachable state, opens when no call fails and gives back its last
    committed entry; when calls fail or power is lost again while it is being
    opened, nothing of the history is lost: after the next power loss it can
    still be opened with the same history. *)
Theorem open_safe w H :
  openable w H ->
  (w_script w = [] ->
     exists st rcv w', store_open w = (Ok (st, rcv), w') /\ store_inv w' st H /\
       recovered rcv = last (numbered H)) /\
  (let '(r, w1) := store_open w in
   match r with
   | Ok (st, rcv) => store_inv w1 st H
   | Err _ => forall w2, crash w1 w2 -> openable w2 H
   end).
Proof using PO.
  intros Hop. split.
  - intros Hs. destruct (open_quiet w H Hop Hs) as (st & rcv & w' & E1 & E2 & E3).
    exists st, rcv, w'. split_and!; [done|done|by apply recovers_last].
  - destruct (store_open w) as [[[st rcv]|e] w1] eqn:Eo; [by eapply open_result|]. intros w2. by eapply open_fails_openable.
Qed.
End runs.

(** ** Two ways to lose power *)

Definition oldest {A} (a : Async A) : A := default (latest a) (last (older a)).

(** Everything that was not synchronised is lost. *)
Definition lose (w : World) : World :=
  mkWorld (settled (oldest (w_root w))) (settled (oldest (w_dir w)))
    ((fun n => mkInode (in_meta n) (settled (oldest (in_data n)))) <$> w_inodes w) (w_next w) false [].

(** Everything had reached the disk. *)
Definition keep (w : World) : World :=
  mkWorld (settled (latest (w_root w))) (settled (latest (w_dir w)))
    ((fun n => mkInode (in_meta n) (settled (latest (in_data n)))) <$> w_inodes w) (w_next w) false [].

Lemma oldest_possible {A} (a : Async A) : oldest a ∈ possible a.
Proof.
  unfold oldest, possible. destruct (last (older a)) as [x|] eqn:E; cbn [default].
  - apply list_elem_of_further. rewrite last_lookup in E. by eapply list_elem_of_lookup_2.
  - apply list_elem_of_here.
Qed.

Lemma survives_possible a c : c ∈ possible a -> survives a c.
Proof. intros Hc. split; by exists c. Qed.

Lemma crash_lose w : crash w (lose w).
Proof.
  split; [exists (oldest (w_root w)); split; [apply oldest_possible|done]
    |exists (oldest (w_dir w)); split; [apply oldest_possible|done]| |done|done].
  intros i. cbn [lose w_inodes]. rewrite lookup_fmap. destruct (w_inodes w !! i) as [n|]; [|done].
  eexists. split; [apply survives_possible, oldest_possible|done].
Qed.

Lemma crash_keep w : crash w (keep w).
Proof.
  split; [exists (latest (w_root w)); split; [apply list_elem_of_here|done]
    |exists (latest (w_dir w)); split; [apply list_elem_of_here|done]| |done|done].
  intros i. cbn [keep w_inodes]. rewrite lookup_fmap. destruct (w_inodes w !! i) as [n|]; [|done].
  eexists. split; [apply survives_possible, list_elem_of_here|done].
Qed.

(** ** A store of its own *)

Lemma ex_cap_header : (WAL_HEADER_LEN <= 4096)%N.
Proof. by vm_compute. Qed.
Lemma ex_cap_hard : (4096 <= HARD_MAX_WAL_BYTES)%N.
Proof. by vm_compute. Qed.
Definition ex_cap : WalCap := mkCap 4096 ex_cap_header ex_cap_hard.

Section example.
#[local] Existing Instance Toy.
#[local] Existing Instance ex_cap.

Definition one : bytes := bstr "one".
Definition two : bytes := bstr "two".
Definition three : bytes := bstr "three".

Definition ex_limits : PersistenceOptions := mkOptions 16 16 4096 4096 4096 150.
Definition ex_vacant : World := mkWorld (settled None) (settled ∅) ∅ 0 false [].

Definition result_of {A} (d : A) (r : result Stop A) : A := match r with Ok a => a | Err _ => d end.

Lemma ok_pair {A} (d : A) (r : result Stop A * World) : is_ok r.1 = true -> r = (Ok (result_of d r.1), r.2).
Proof. by destruct r as [[a|] w]. Qed.

Definition ex_made : result Stop Store * World := store_create 1 one ex_vacant.
Definition ex_st : Store := result_of (mkStore 0) ex_made.1.
Definition ex_w : World := ex_made.2.

Lemma ex_limits_ok : options_fit ex_limits.
Proof. split; [split; vm_compute; (split; discriminate)|done]. Qed.

Lemma ex_vacant_ok : vacant ex_vacant.
Proof. split; [done|done|]. intros i [n Hn]. cbn [ex_vacant w_inodes] in Hn. by rewrite lookup_empty in Hn. Qed.

Lemma ex_reaches : reaches ex_w ex_st [one].
Proof.
  apply (reaches_create ex_vacant one ex_st ex_w); [apply ex_vacant_ok|by vm_compute|].
  apply (ok_pair (mkStore 0) ex_made). by vm_compute.
Qed.

Lemma ex_inv : store_inv ex_w ex_st [one].
Proof.
  apply (create_inv ex_vacant); [apply ex_vacant_ok|by vm_compute|].
  apply (ok_pair (mkStore 0) ex_made). by vm_compute.
Qed.

Definition with_script (fs : list Fault) (s : SW) : SW := mkSW (sw_store s) (set_script fs (sw_world s)).

(** An append that stops in the middle of its record and is rolled back, and the
    one after it. *)
Definition ex_rolled_back : result Stop unit * SW :=
  append_next [one] one two ex_limits (with_script [Fine; Fine; Short 60 IoOther] (mkSW ex_st ex_w)).
Definition ex_appended : result Stop unit * SW :=
  append_next [one] one three ex_limits (with_script [] ex_rolled_back.2).

Definition stop_or (r : result Stop unit) : PError := match r with Err (Fail e) => e | _ => PLocked end.
Lemma fail_pair (x : result Stop unit * SW) :
  match x.1 with Err (Fail _) => true | _ => false end = true -> x = (Err (Fail (stop_or x.1)), x.2).
Proof. by destruct x as [[|[]] s]. Qed.
Lemma unit_pair (x : result Stop unit * SW) : is_ok x.1 = true -> x = (Ok tt, mkSW (sw_store x.2) (sw_world x.2)).
Proof. by destruct x as [[[]|] []]. Qed.

Lemma ex_rolled_back_reaches : reaches (sw_world ex_rolled_back.2) (sw_store ex_rolled_back.2) [one].
Proof.
  apply (reaches_append_failed (set_script [Fine; Fine; Short 60 IoOther] ex_w) ex_st [one] one two ex_limits
    (stop_or ex_rolled_back.1)).
  - apply reaches_script, ex_reaches.
  - apply ex_limits_ok.
  - reflexivity.
  - right. by exists 2, (Short 60 IoOther).
  - apply (fail_pair ex_rolled_back). by vm_compute.
  - unfold still_open. by vm_compute.
Qed.

Lemma ex_appended_reaches : reaches (sw_world ex_appended.2) (sw_store ex_appended.2) [one; three].
Proof.
  apply (reaches_append (set_script [] (sw_world ex_rolled_back.2)) (sw_store ex_rolled_back.2) [one] one three ex_limits).
  - apply reaches_script, ex_rolled_back_reaches.
  - apply ex_limits_ok.
  - reflexivity.
  - apply (unit_pair ex_appended). by vm_compute.
Qed.

(** An append that loses power before the record is synchronised. *)
Definition ex_cut : World := set_script [Fine; Fine; Fine; PowerLoss] ex_w.
Definition ex_try : result Stop unit * SW := append_next [one] one two ex_limits (mkSW ex_st ex_cut).

Lemma ex_cut_inv : store_inv ex_cut ex_st [one].
Proof. destruct ex_inv as [H1 H2 H3]. split; [by apply disk_script|done|done]. Qed.

(** What is found by opening. *)
Definition find (w : World) : result Stop (option WalRecord) :=
  match store_open w with (Ok (_, rcv), _) => Ok (recovered rcv) | (Err e, _) => Err e end.

(** The new entry is there if the bytes had reached the disk, and not if not. *)
Lemma ex_try_outcomes :
  ex_try.1 = Err Halt /\
  find (lose (sw_world ex_try.2)) = Ok (Some (mkRecord 1 one)) /\
  find (keep (sw_world ex_try.2)) = Ok (Some (mkRecord 2 two)).
Proof. by vm_compute. Qed.
End example.

(** A log of two records and three bytes of a third. *)
Definition ex_records : list WalRecord := [mkRecord 4 one; mkRecord 5 two].
Definition ex_log : bytes := wal_image (P := Toy) ex_records ++ take 3 RECORD_MAGIC.

Lemma formats_exact_witness :
  scan_wal (P := Toy) ex_log = Ok (ex_records, lenN (wal_image (P := Toy) ex_records)) /\
  parse_snapshot (P := Toy) (snapshot_image (P := Toy) (mkRecord 4 one)) = Ok (SnapValid (mkRecord 4 one)).
Proof.
  split.
  - apply (proj1 (formats_exact (P := Toy) ex_log ex_records (lenN (wal_image (P := Toy) ex_records)) (mkRecord 4 one))).
    exists (take 3 RECORD_MAGIC). split; [reflexivity|]. split; [reflexivity|]. split.
    { repeat constructor; vm_compute; discriminate. }
    split; [vm_compute; repeat split|]. left. vm_compute. reflexivity.
  - apply (proj2 (proj2 (formats_exact (P := Toy) (snapshot_image (P := Toy) (mkRecord 4 one)) [] 0 (mkRecord 4 one)))).
    split; [split; [split|]; vm_compute; (discriminate || reflexivity)|reflexivity].
Defined.

Lemma store_invariant_witness :
  store_inv (P := Toy) (cap := ex_cap) (sw_world ex_appended.2) (sw_store ex_appended.2) [one; three].
Proof. exact (store_invariant (P := Toy) (cap := ex_cap) _ _ [one; three] ex_appended_reaches). Defined.

Lemma append_atomic_witness :
  exists H' st' rcv w', (H' = [one] ++ [two] \/ (H' = [one] /\ ex_try.1 <> Ok tt)) /\
    store_open (P := Toy) (lose (sw_world ex_try.2)) = (Ok (st', rcv), w') /\ store_inv (P := Toy) (cap := ex_cap) w' st' H' /\
    recovered rcv = last (numbered H').
Proof.
  pose proof (append_atomic (P := Toy) (cap := ex_cap) ex_cut ex_st [one] one two ex_limits ex_cut_inv ex_limits_ok eq_refl) as Ha.
  change (append_next [one] one two ex_limits (mkSW ex_st ex_cut)) with ex_try in Ha.
  destruct ex_try as [r s]. destruct Ha as (_ & _ & Hc). exact (Hc _ (crash_lose _) eq_refl).
Defined.

Lemma open_safe_witness :
  exists st rcv w', store_open (P := Toy) (lose ex_w) = (Ok (st, rcv), w') /\ store_inv (P := Toy) (cap := ex_cap) w' st [one] /\
    recovered rcv = last (numbered [one]).
Proof.
  destruct (open_safe (P := Toy) (cap := ex_cap) (lose ex_w) [one]
    (inv_crash ex_w ex_st [one] (lose ex_w) ex_inv (crash_lose ex_w))) as [Hq _].
  exact (Hq eq_refl).
Defined.

(** ** Where the promise ends *)

Section limits.
#[local] Existing Instance Toy.

(** A checkpoint that fails after the new log has been renamed into place, here
    in the synchronisation of the directory. *)
Definition ex_torn_checkpoint : result Stop unit * SW :=
  store_checkpoint 1 one (with_script (replicate 11 Fine ++ [Fails IoOther]) (mkSW ex_st ex_w)).
Definition ex_after_checkpoint : result Stop unit * SW :=
  append_next [one] one two ex_limits (with_script [] ex_torn_checkpoint.2).

(** The handle is left on the log that was replaced: the next append reports
    success, and its entry is not found again. *)
Lemma failed_checkpoint_strands_handle :
  ex_torn_checkpoint.1 = Err (Fail (PIo IoOther)) /\ ex_after_checkpoint.1 = Ok tt /\
  find (set_locked false (sw_world ex_after_checkpoint.2)) = Ok (Some (mkRecord 1 one)).
Proof. by vm_compute. Qed.

(** An append whose rollback fails too. *)
Definition ex_torn_append : result Stop unit * SW :=
  append_next [one] one two ex_limits
    (with_script [Fine; Fine; Short 60 IoOther; Fails IoOther] (mkSW ex_st ex_w)).
Definition ex_after_append : result Stop unit * SW :=
  append_next [one] one three ex_limits (with_script [] ex_torn_append.2).

(** The next append writes behind the torn record and reports success; the log
    can then no longer be read. *)
Lemma failed_rollback_corrupts_log :
  ex_torn_append.1 = Err (Fail (PIo IoOther)) /\ ex_after_append.1 = Ok tt /\
  find (set_locked false (sw_world ex_after_append.2)) = Err (Fail (PCorrupt "WAL commit marker is invalid")).
Proof. by vm_compute. Qed.

(** A file system that extends a file before it has written the new bytes can
    leave zeros where a record was to stand.  Such a tail is not taken for the
    start of a record: the log is refused, with every record before it.  [crash]
    leaves this out, since a content survives only as a prefix. *)
Lemma unwritten_tail_refused :
  scan_wal (wal_image [mkRecord 1 one] ++ zeros 64) = Err (PCorrupt "WAL record magic is invalid").
Proof. by vm_compute. Qed.
End limits.
