(* ===== verification/LState.v ===== *)
(** * The logical state ([crates/cfr/src/persistence/state.rs])

    What one committed record holds: the conference, the identifiers of inbound
    messages already processed, and the outbox of messages not yet
    acknowledged.  [ls_ok] is the invariant of a live state; the theorems say
    what survives encoding and decoding, and which record recovery selects. *)

From Stdlib Require Import NArith Lia.
From S2P Require Import Prelude Crypto Toy Codec Ops Member MemberInv State Conference Persist Store Crash Durable.

Record LogicalState := mkLogical {
  ls_sequence : N;
  ls_conference : Conference;
  ls_options : PersistenceOptions;
  ls_inbound : gmap bytes bytes;
  ls_order : list bytes;
  ls_outbox : gmap N PendingDelivery;
  ls_next : N;
}.

Definition set_sequence (n : N) (s : LogicalState) : LogicalState :=
  mkLogical n (ls_conference s) (ls_options s) (ls_inbound s) (ls_order s) (ls_outbox s) (ls_next s).
Definition set_conference (c : Conference) (s : LogicalState) : LogicalState :=
  mkLogical (ls_sequence s) c (ls_options s) (ls_inbound s) (ls_order s) (ls_outbox s) (ls_next s).
Definition set_seen (m : gmap bytes bytes) (l : list bytes) (s : LogicalState) : LogicalState :=
  mkLogical (ls_sequence s) (ls_conference s) (ls_options s) m l (ls_outbox s) (ls_next s).
Definition set_outbox (m : gmap N PendingDelivery) (n : N) (s : LogicalState) : LogicalState :=
  mkLogical (ls_sequence s) (ls_conference s) (ls_options s) (ls_inbound s) (ls_order s) m n.

Abbreviation Ml := (M LogicalState PError).

Section state.
Context {P : Primitives}.

Definition inbound_digest (payload : bytes) : bytes := hash (bstr "cfr/persistence/inbound") [payload].

Definition delivery_key (c : Conference) (id : OutboundId) (to : Recipient) (payload : bytes) : DeliveryKey :=
  match to with
  | REveryone =>
      hash (bstr "cfr/persistence/delivery")
        [conf_session_id c; conf_identity c; u64_to_be_bytes id; [byte_of 0]; payload]
  | RPeer who =>
      hash (bstr "cfr/persistence/delivery")
        [conf_session_id c; conf_identity c; u64_to_be_bytes id; [byte_of 1]; who; payload]
  end.

Definition usize_to_u64 (v : N) : result PError N :=
  if (two64 <=? v)%N then Err (PLimitExceeded "integer exceeds persisted width") else Ok v.

(** ** Fields *)

Definition corrupt_codec {A} (m : Rd A) : M Reader PError A := fun r =>
  let '(x, r) := m r in (map_err (fun _ => PCorrupt "logical state encoding is malformed") x, r).

(** [usize] has 64 bits. *)
Definition read_usize : M Reader PError N := corrupt_codec reader_u64.

Definition read_options : M Reader PError PersistenceOptions :=
  a ← read_usize; b ← read_usize; c ← read_usize; d ← read_usize;
  e ← corrupt_codec reader_u64; f ← corrupt_codec reader_u64;
  lift (map_err (fun _ => PCorrupt "persisted resource limits are invalid")
          (options_validate (mkOptions a b c d e f))).

Definition write_options (o : PersistenceOptions) (w : Writer) : result PError Writer :=
  a ← usize_to_u64 (inbound_window o);
  b ← usize_to_u64 (max_outbox_entries o);
  c ← usize_to_u64 (max_state_bytes o);
  d ← usize_to_u64 (max_record_bytes o);
  Ok (w |> writer_u64 a |> writer_u64 b |> writer_u64 c |> writer_u64 d
        |> writer_u64 (max_wal_bytes o) |> writer_u64 (checkpoint_threshold o)).

Definition read_recipient : M Reader PError Recipient :=
  tag ← corrupt_codec reader_u32;
  if (tag =? 0)%N then mret REveryone else
  if (tag =? 1)%N then who ← corrupt_codec (reader_array 32); mret (RPeer who) else
  fail (PCorrupt "outbox recipient tag is invalid").

Definition write_recipient (to : Recipient) (w : Writer) : Writer :=
  match to with
  | REveryone => w |> writer_u32 0
  | RPeer who => w |> writer_u32 1 |> writer_bytes who
  end.

(** ** Live state *)

(** The loop of [enqueue]. *)
Fixpoint enqueue_all (messages : list CMessage) (s : LogicalState) : list OutboundId * LogicalState :=
  match messages with
  | [] => ([], s)
  | m :: messages =>
      let id := ls_next s in
      let d := mkDelivery id (delivery_key (ls_conference s) id (cm_to m) (cm_payload m)) (cm_to m) (cm_payload m) in
      let '(ids, s) := enqueue_all messages (set_outbox (<[id := d]> (ls_outbox s)) (id + 1) s) in
      (id :: ids, s)
  end.

Definition enqueue (messages : list CMessage) : Ml (list OutboundId) := fun s =>
  let held := N.of_nat (size (ls_outbox s)) in
  if (max_outbox_entries (ls_options s) <? held)%N
  then (Err (PCorrupt "outbox exceeds its persisted limit"), s) else
  if (max_outbox_entries (ls_options s) - held <? lenN messages)%N
  then (Err (PLimitExceeded "durable outbox is full"), s) else
  match checked_add64 (ls_next s) (lenN messages) with
  | None => (Err (PLimitExceeded "outbound identifier exhausted"), s)
  | Some _ => let '(ids, s) := enqueue_all messages s in (Ok ids, s)
  end.

Definition logical_new (conference : Conference) (messages : list CMessage) (o : PersistenceOptions)
    : result PError LogicalState :=
  match enqueue messages (mkLogical 1 conference o ∅ [] ∅ 1) with
  | (Ok _, s) => Ok s
  | (Err e, _) => Err e
  end.

(** The eviction loop of [record_inbound]. *)
Fixpoint expire (window : N) (order : list bytes) (inbound : gmap bytes bytes) : gmap bytes bytes * list bytes :=
  match order with
  | [] => (inbound, [])
  | expired :: rest =>
      if (window <? lenN order)%N then expire window rest (delete expired inbound) else (inbound, order)
  end.

Definition record_inbound (id : InboundId) (digest : bytes) (s : LogicalState) : LogicalState :=
  let '(inbound, order) := expire (inbound_window (ls_options s)) (ls_order s ++ [id]) (<[id := digest]> (ls_inbound s)) in
  set_seen inbound order s.

(** ** Encoding *)

Definition inbound_entries (s : LogicalState) : result PError (list (bytes * bytes)) :=
  ok_or (mapM (fun id => (fun digest => (id, digest)) <$> ls_inbound s !! id) (ls_order s))
    (PCorrupt "inbound eviction order is inconsistent").

Definition write_inbound (e : bytes * bytes) (w : Writer) : Writer := w |> writer_bytes e.1 |> writer_bytes e.2.

Definition write_delivery (d : PendingDelivery) (w : Writer) : Writer :=
  w |> writer_u64 (pd_id d) |> writer_bytes (pd_key d) |> write_recipient (pd_recipient d) |> writer_bytes (pd_payload d).

Definition encode (s : LogicalState) : result PError bytes :=
  conference ← map_err PProtocol (conf_export (ls_conference s));
  inbound ← inbound_entries s;
  if negb (lenN inbound =? N.of_nat (size (ls_inbound s)))%N
  then Err (PCorrupt "inbound eviction order is inconsistent") else
  w ← write_options (ls_options s)
        (writer_new |> writer_u32 CURRENT_PERSISTENCE_SCHEMA_VERSION |> writer_u64 (ls_sequence s));
  let b := writer_finish (w |> writer_bytes conference |> writer_list inbound write_inbound
             |> writer_list (nt_list (ls_outbox s)).*2 write_delivery |> writer_u64 (ls_next s)) in
  if (max_state_bytes (ls_options s) <? lenN b)%N || (HARD_MAX_STATE_BYTES <? lenN b)%N
  then Err (PLimitExceeded "logical state exceeds configured limit") else
  if (max_record_bytes (ls_options s) <? lenN b)%N
  then Err (PLimitExceeded "WAL record exceeds configured limit") else
  Ok b.

(** ** Decoding *)

Definition read_entry : Rd (bytes * bytes) :=
  id ← reader_array 32; digest ← reader_array 32; mret (id, digest).

Fixpoint insert_entries (entries : list (bytes * bytes)) (inbound : gmap bytes bytes) (order : list bytes)
    : result PError (gmap bytes bytes * list bytes) :=
  match entries with
  | [] => Ok (inbound, order)
  | (id, digest) :: entries =>
      match inbound !! id with
      | Some _ => Err (PCorrupt "inbound window contains a duplicate ID")
      | None => insert_entries entries (<[id := digest]> inbound) (order ++ [id])
      end
  end.

Definition read_inbound (o : PersistenceOptions) : M Reader PError (gmap bytes bytes * list bytes) :=
  entries ← corrupt_codec (reader_list read_entry);
  if (inbound_window o <? lenN entries)%N then fail (PCorrupt "inbound window exceeds persisted limit") else
  lift (insert_entries entries ∅ []).

Definition recipient_encoding : Rd Recipient := fun r =>
  let '(x, r) := read_recipient r in (map_err (fun _ => Encoding "invalid persisted recipient") x, r).

Definition read_delivery : Rd PendingDelivery :=
  id ← reader_u64; key ← reader_array 32; to ← recipient_encoding; payload ← reader_bytes;
  mret (mkDelivery id key to payload).

Fixpoint insert_deliveries (c : Conference) (entries : list PendingDelivery) (previous : option N)
    (outbox : gmap N PendingDelivery) : result PError (gmap N PendingDelivery) :=
  match entries with
  | [] => Ok outbox
  | d :: entries =>
      if (pd_id d =? 0)%N || match previous with Some id => (pd_id d <=? id)%N | None => false end
         || bool_decide (pd_key d <> delivery_key c (pd_id d) (pd_recipient d) (pd_payload d))
      then Err (PCorrupt "outbox delivery binding is invalid")
      else insert_deliveries c entries (Some (pd_id d)) (<[pd_id d := d]> outbox)
  end.

Definition read_outbox (c : Conference) (o : PersistenceOptions) : M Reader PError (gmap N PendingDelivery) :=
  entries ← corrupt_codec (reader_list read_delivery);
  if (max_outbox_entries o <? lenN entries)%N then fail (PCorrupt "outbox exceeds persisted limit") else
  lift (insert_deliveries c entries None ∅).

Definition read_logical (size : N) (envelope_sequence : N) : M Reader PError LogicalState :=
  schema ← corrupt_codec reader_u32;
  if negb (schema =? CURRENT_PERSISTENCE_SCHEMA_VERSION)%N
  then fail (PUnsupportedVersion PersistenceSchema schema) else
  sequence ← corrupt_codec reader_u64;
  if (sequence =? 0)%N || negb (sequence =? envelope_sequence)%N
  then fail (PCorrupt "logical and envelope sequences differ") else
  o ← read_options;
  if (max_state_bytes o <? size)%N || (max_record_bytes o <? size)%N
  then fail (PCorrupt "logical state exceeds persisted limits") else
  conference_bytes ← corrupt_codec reader_bytes;
  conference ← lift (map_err (fun _ => PCorrupt "conference state failed validation") (conf_import conference_bytes));
  seen ← read_inbound o;
  outbox ← read_outbox conference o;
  next ← corrupt_codec reader_u64;
  _ ← corrupt_codec reader_finish;
  if (next =? 0)%N || match last (nt_keys outbox) with Some k => (next <=? k)%N | None => false end
  then fail (PCorrupt "next outbound identifier is invalid") else
  mret (mkLogical sequence conference o seen.1 seen.2 outbox next).

Definition decode (b : bytes) (envelope_sequence : N) : result PError LogicalState :=
  if (HARD_MAX_STATE_BYTES <? lenN b)%N then Err (PCorrupt "logical state exceeds hard limit") else
  s ← (read_logical (lenN b) envelope_sequence (reader_new b)).1;
  canonical ← map_err (fun _ => PCorrupt "logical state is not re-encodable") (encode s);
  if bool_decide (canonical <> b) then Err (PCorrupt "logical state encoding is non-canonical") else
  Ok s.

(** ** Recovery *)

(** The loop of [select_recovered] after a snapshot. *)
Fixpoint advance_selected (snapshot : WalRecord) (wal : list (LogicalState * WalRecord)) (selected : LogicalState)
    : result PError LogicalState :=
  match wal with
  | [] => Ok selected
  | (s, record) :: wal =>
      if (ls_sequence s <? ls_sequence selected)%N then advance_selected snapshot wal selected else
      if (ls_sequence s =? ls_sequence selected)%N then
        if (ls_sequence s =? rec_sequence snapshot)%N && bool_decide (rec_payload record <> rec_payload snapshot)
        then Err (PCorrupt "snapshot and WAL disagree at one sequence")
        else advance_selected snapshot wal selected
      else if negb (ls_sequence s =? ls_sequence selected + 1)%N
      then Err (PCorrupt "WAL sequence has a gap after snapshot")
      else advance_selected snapshot wal s
  end.

Definition select_recovered (snapshot : option (LogicalState * WalRecord)) (wal : list (LogicalState * WalRecord))
    : result PError LogicalState :=
  match snapshot with
  | None => ok_or (fst <$> last wal) (PCorrupt "no valid complete persisted state")
  | Some (selected, record) => advance_selected record wal selected
  end.

Fixpoint decode_all (wal : list WalRecord) : result PError (list (LogicalState * WalRecord)) :=
  match wal with
  | [] => Ok []
  | r :: wal =>
      s ← decode (rec_payload r) (rec_sequence r);
      rest ← decode_all wal;
      Ok ((s, r) :: rest)
  end.

Definition recover (rcv : Recovery) : result PError LogicalState :=
  snapshot ← (match rcv_snapshot rcv with
              | SnapValid record =>
                  match decode (rec_payload record) (rec_sequence record) with
                  | Ok s => Ok (Some (s, record))
                  | Err (PUnsupportedVersion kind found) => Err (PUnsupportedVersion kind found)
                  | Err _ => Ok None
                  end
              | SnapMissing | SnapCorrupt => Ok None
              end);
  wal_states ← decode_all (rcv_wal rcv);
  select_recovered snapshot wal_states.
End state.

(** ** Images *)

Definition options_image (o : PersistenceOptions) : bytes :=
  u64_image (inbound_window o) ++ u64_image (max_outbox_entries o) ++ u64_image (max_state_bytes o)
  ++ u64_image (max_record_bytes o) ++ u64_image (max_wal_bytes o) ++ u64_image (checkpoint_threshold o).
Definition recipient_image (to : Recipient) : bytes :=
  match to with REveryone => u64_image 0 | RPeer who => u64_image 1 ++ bytes_image who end.
Definition entry_image (e : bytes * bytes) : bytes := bytes_image e.1 ++ bytes_image e.2.
Definition delivery_image (d : PendingDelivery) : bytes :=
  u64_image (pd_id d) ++ bytes_image (pd_key d) ++ recipient_image (pd_recipient d) ++ bytes_image (pd_payload d).

(** The part of a record before and after the conference. *)
Definition head_image (sequence : N) (o : PersistenceOptions) : bytes :=
  u64_image CURRENT_PERSISTENCE_SCHEMA_VERSION ++ u64_image sequence ++ options_image o.
Definition tail_image (entries : list (bytes * bytes)) (deliveries : list PendingDelivery) (next : N) : bytes :=
  list_image entry_image entries ++ list_image delivery_image deliveries ++ u64_image next.

Definition recipient_typed (to : Recipient) : Prop :=
  match to with REveryone => True | RPeer who => len32 who end.
Definition entry_valid (e : bytes * bytes) : Prop := len32 e.1 /\ len32 e.2.
Definition delivery_valid (d : PendingDelivery) : Prop :=
  u64_valid (pd_id d) /\ len32 (pd_key d) /\ recipient_typed (pd_recipient d) /\ bytes_valid (pd_payload d).

Lemma corrupt_codec_ok {A} (m : Rd A) r a r' :
  corrupt_codec m r = (Ok a, r') <-> m r = (Ok a, r').
Proof. unfold corrupt_codec. destruct (m r) as [[x|e] r1]; cbn [map_err]; split; congruence. Qed.

#[export] Instance corrupt_codec_lawful {A} V img (m : Rd A) `{!Lawful V img m} : Lawful V img (corrupt_codec m).
Proof.
  split.
  - intros a pre post HV. apply corrupt_codec_ok. by apply rd_complete.
  - intros pre rest a r' H%corrupt_codec_ok. by apply rd_sound in H.
Qed.

#[export] Instance read_usize_lawful : Lawful u64_valid u64_image read_usize.
Proof. apply corrupt_codec_lawful. apply _. Qed.

Lemma options_u64 o : options_ok o ->
  u64_valid (inbound_window o) /\ u64_valid (max_outbox_entries o) /\ u64_valid (max_state_bytes o) /\
  u64_valid (max_record_bytes o) /\ u64_valid (max_wal_bytes o) /\ u64_valid (checkpoint_threshold o).
Proof.
  intros [H1 H2 H3 H4 H5 H6].
  unfold u64_valid, MAX_WINDOW_ENTRIES, HARD_MAX_STATE_BYTES, HARD_MAX_WAL_BYTES, two64 in *. lia.
Qed.

#[export] Instance read_options_lawful : Lawful options_ok options_image read_options.
Proof.
  split.
  - intros o pre post Ho. destruct (options_u64 o Ho) as (H1 & H2 & H3 & H4 & H5 & H6).
    unfold read_options, options_image. rewrite <- !app_assoc. do 6 rd_step.
    unfold lift. destruct o as [a b c d e f]. cbn [inbound_window max_outbox_entries max_state_bytes max_record_bytes max_wal_bytes checkpoint_threshold].
    assert (options_validate (mkOptions a b c d e f) = Ok (mkOptions a b c d e f)) as ->
      by (by apply options_validate_ok).
    by rewrite <- !app_assoc.
  - intros pre rest o r' H. unfold read_options in H. do 6 rd_inv H. unfold lift in H.
    destruct (options_validate _) as [o'|] eqn:E; [|done]. injection H as -> <-.
    apply options_validate_ok in E as [-> Ho]. split; [done|]. eexists. unfold options_image.
    cbn [inbound_window max_outbox_entries max_state_bytes max_record_bytes max_wal_bytes checkpoint_threshold].
    by rewrite <- !app_assoc.
Qed.

#[export] Instance read_recipient_lawful : Lawful recipient_typed recipient_image read_recipient.
Proof.
  split.
  - intros [|who] pre post HV; unfold read_recipient, recipient_image; rewrite <- ?app_assoc.
    + rd_step by (by vm_compute). done.
    + rd_step by (by vm_compute). cbn [N.eqb Pos.eqb]. rd_step. by rewrite <- !app_assoc.
  - intros pre rest to r' H. unfold read_recipient in H. rd_inv H. destruct (N.eqb_spec a 0) as [->|].
    { injection H as <- <-. split; [done|]. by eexists. }
    destruct (N.eqb_spec a 1) as [->|]; [|done]. rd_inv H. injection H as <- <-.
    split; [apply HV0|]. eexists. unfold recipient_image. by rewrite <- !app_assoc.
Qed.

#[export] Instance recipient_encoding_lawful : Lawful recipient_typed recipient_image recipient_encoding.
Proof.
  split.
  - intros to pre post HV. unfold recipient_encoding. by rewrite rd_complete.
  - intros pre rest to r' H. unfold recipient_encoding in H.
    destruct (read_recipient (rd_at pre rest)) as [[x|] r1] eqn:E; [|done]. injection H as -> ->.
    by apply rd_sound in E.
Qed.

#[export] Instance read_entry_lawful : Lawful entry_valid entry_image read_entry.
Proof.
  split.
  - intros [id d] pre post [H1 H2]. unfold read_entry, entry_image. cbn [fst snd] in *. rewrite <- !app_assoc.
    do 2 rd_step. by rewrite <- !app_assoc.
  - intros pre rest e r' H. unfold read_entry in H. do 2 rd_inv H. injection H as <- <-.
    split; [split; [apply HV|apply HV0]|]. eexists. unfold entry_image. cbn [fst snd]. by rewrite <- !app_assoc.
Qed.

#[export] Instance read_delivery_lawful : Lawful delivery_valid delivery_image read_delivery.
Proof.
  split.
  - intros [id key to payload] pre post (H1 & H2 & H3 & H4). cbn [pd_id pd_key pd_recipient pd_payload] in *.
    unfold read_delivery, delivery_image. cbn [pd_id pd_key pd_recipient pd_payload]. rewrite <- !app_assoc.
    do 4 rd_step. by rewrite <- !app_assoc.
  - intros pre rest d r' H. unfold read_delivery in H. do 4 rd_inv H. injection H as <- <-.
    split; [split_and!; [apply HV|apply HV0|apply HV1|apply HV2]|]. eexists. unfold delivery_image.
    cbn [pd_id pd_key pd_recipient pd_payload]. by rewrite <- !app_assoc.
Qed.

(** ** Collections *)

Section collections.
Context {P : Primitives}.

Lemma insert_entries_ok entries m order m' order' :
  insert_entries entries m order = Ok (m', order') <->
  NoDup entries.*1 /\ (forall id, id ∈ entries.*1 -> m !! id = None) /\
  m' = foldl (fun m kv => <[kv.1 := kv.2]> m) m entries /\ order' = order ++ entries.*1.
Proof using Type.
  revert m order. induction entries as [|[id d] entries IH]; intros m order; cbn [insert_entries fmap list_fmap foldl fst snd].
  - rewrite app_nil_r. split; [intros [= <- <-]; split_and!; [constructor|set_solver|done|done]|]. by intros (_ & _ & -> & ->).
  - rewrite NoDup_cons. destruct (m !! id) as [x|] eqn:E.
    + split; [done|]. intros (_ & Hn & _). specialize (Hn id ltac:(apply list_elem_of_here)). congruence.
    + rewrite IH, <- app_assoc. cbn [app]. split.
      * intros (H1 & H2 & -> & ->). split_and!; try done.
        -- intros Hin. specialize (H2 id Hin). by rewrite lookup_insert_eq in H2.
        -- intros k [->|Hk]%elem_of_cons; [done|]. specialize (H2 k Hk). by apply lookup_insert_None in H2 as [? _].
      * intros ([H0 H1] & H2 & -> & ->). split_and!; try done. intros k Hk.
        apply lookup_insert_None. split; [apply H2; by apply list_elem_of_further|]. by intros ->.
Qed.

Lemma insert_entries_fresh entries :
  NoDup entries.*1 -> insert_entries entries ∅ [] = Ok (list_to_map entries, entries.*1).
Proof using Type.
  intros Hn. apply insert_entries_ok. split_and!; [done|intros; apply lookup_empty| |done].
  by rewrite foldl_insert_map, map_union_empty by done.
Qed.

(** The window as it is written out. *)
Lemma entries_of_list s entries :
  NoDup entries.*1 -> ls_inbound s = list_to_map entries -> ls_order s = entries.*1 ->
  inbound_entries s = Ok entries /\ lenN entries = N.of_nat (size (ls_inbound s)).
Proof using Type.
  intros Hn Hm Ho. unfold inbound_entries. rewrite Hm, Ho. split.
  - rewrite (proj2 (mapM_Some _ _ entries)); [done|].
    apply Forall2_fmap_l, Forall_Forall2_diag, Forall_forall. intros [id d] Hin. cbn [fst].
    change ((fun x => (id, x)) <$> (list_to_map entries : gmap bytes bytes) !! id = Some (id, d)).
    by rewrite (elem_of_list_to_map_1 entries id d Hn Hin).
  - unfold lenN. f_equal. rewrite <- size_dom, dom_list_to_map_L, size_list_to_set by done. by rewrite length_fmap.
Qed.

Lemma list_of_entries s :
  NoDup (ls_order s) -> (forall id, is_Some (ls_inbound s !! id) <-> id ∈ ls_order s) ->
  exists entries, NoDup entries.*1 /\ ls_inbound s = list_to_map entries /\ ls_order s = entries.*1.
Proof using Type.
  intros Hn Hd. set (entries := omap (fun id => (fun d => (id, d)) <$> ls_inbound s !! id) (ls_order s)).
  assert (ls_order s = entries.*1) as E.
  { unfold entries. assert (forall id, id ∈ ls_order s -> is_Some (ls_inbound s !! id)) as H by (intros; by apply Hd).
    clear Hn Hd entries. induction (ls_order s) as [|id l IH]; [done|]. simpl.
    destruct (H id ltac:(apply list_elem_of_here)) as [d ->]. simpl. f_equal. apply IH.
    intros k Hk. apply H. by apply list_elem_of_further. }
  assert (NoDup entries.*1) as Hne by (by rewrite <- E).
  exists entries. split_and!; [done| |done]. apply map_eq. intros id. apply option_eq. intros d.
  rewrite <- elem_of_list_to_map by done. unfold entries. rewrite list_elem_of_omap. split.
  - intros Hl. exists id. rewrite Hl. split; [|done]. apply Hd. by eexists.
  - intros (k & Hk & Hl). destruct (ls_inbound s !! k) as [x|] eqn:Ex; [|done]. cbn in Hl. by injection Hl as <- <-.
Qed.

(** Deliveries in strictly ascending order of their identifiers, each with the
    key that binds it. *)
Definition bound_delivery (c : Conference) (d : PendingDelivery) : Prop :=
  pd_key d = delivery_key c (pd_id d) (pd_recipient d) (pd_payload d).

Lemma insert_deliveries_ok c entries prev m m' :
  insert_deliveries c entries prev m = Ok m' <->
  StronglySorted N.lt (pd_id <$> entries) /\
  Forall (fun d => pd_id d <> 0%N /\ (match prev with Some p => (p < pd_id d)%N | None => True end) /\ bound_delivery c d) entries /\
  m' = foldl (fun m d => <[pd_id d := d]> m) m entries.
Proof using Type.
  revert prev m. induction entries as [|d entries IH]; intros prev m; cbn [insert_deliveries fmap list_fmap foldl].
  - split; [intros [= <-]; split_and!; [constructor|constructor|done]|]. by intros (_ & _ & ->).
  - destruct (_ || _) eqn:Eb.
    + split; [done|]. intros (_ & HF & _). apply Forall_cons in HF as [(H0 & H1 & H2) _]. exfalso.
      rewrite (proj2 (N.eqb_neq _ _)), (bool_decide_false (_ <> _)) in Eb by (done || intros Hb; by apply Hb).
      destruct prev as [p|]; [|done]. cbn [orb] in Eb. rewrite orb_false_r in Eb. apply N.leb_le in Eb. lia.
    + apply orb_false_iff in Eb as [Eb Ek]. apply orb_false_iff in Eb as [Ez Ep].
      apply N.eqb_neq in Ez. apply bool_decide_eq_false, dec_stable in Ek.
      assert (match prev with Some p => (p < pd_id d)%N | None => True end) as Hp.
      { destruct prev as [p|]; [|done]. by apply N.leb_gt in Ep. }
      rewrite IH. split.
      * intros (H1 & H2 & ->). split_and!; [|constructor; [by split_and!|]|done].
        -- constructor; [done|]. apply Forall_fmap. eapply Forall_impl; [exact H2|]. intros x (_ & Hx & _). exact Hx.
        -- eapply Forall_impl; [exact H2|]. intros x (Hx0 & Hx & Hxk). split_and!; [done| |done].
           destruct prev; [cbn in Hx, Hp; lia|done].
      * intros (H1 & H2 & ->). apply StronglySorted_inv in H1 as [H1 H1'].
        apply Forall_cons in H2 as [_ H2]. split_and!; [done| |done].
        apply Forall_forall. intros x Hx. assert (pd_id d < pd_id x)%N by (apply (proj1 (Forall_forall _ _) H1'), list_elem_of_fmap; by exists x).
        destruct (proj1 (Forall_forall _ _) H2 x Hx) as (? & _ & ?). by split_and!.
Qed.

(** The outbox is the map of its own list. *)
Lemma deliveries_map entries :
  StronglySorted N.lt (pd_id <$> entries) ->
  let m := foldl (fun m d => <[pd_id d := d]> m) (∅ : gmap N PendingDelivery) entries in
  (nt_list m).*2 = entries /\ nt_keys m = pd_id <$> entries /\ m = list_to_map ((fun d => (pd_id d, d)) <$> entries).
Proof using Type.
  intros Hs m. set (l := (fun d => (pd_id d, d)) <$> entries).
  assert (l.*1 = pd_id <$> entries) as E1 by (unfold l; by rewrite <- list_fmap_compose).
  assert (l.*2 = entries) as E2 by (unfold l; rewrite <- list_fmap_compose; apply list_fmap_id).
  assert (m = list_to_map l) as Em.
  { transitivity (foldl (fun m kv => <[kv.1 := kv.2]> m) (∅ : gmap N PendingDelivery) l).
    - unfold m, l. clear. generalize (∅ : gmap N PendingDelivery). induction entries as [|d entries IH]; intros acc; [done|].
      cbn [fmap list_fmap foldl]. apply IH.
    - by rewrite foldl_insert_map, map_union_empty by (rewrite E1; by apply sorted_N_lt_NoDup). }
  split_and!; [|rewrite <- nt_list_fst|done]; rewrite Em, nt_list_of_sorted by (by rewrite E1); done.
Qed.

Lemma outbox_list (m : gmap N PendingDelivery) :
  (forall id d, m !! id = Some d -> pd_id d = id) ->
  pd_id <$> (nt_list m).*2 = nt_keys m /\
  foldl (fun m d => <[pd_id d := d]> m) ∅ (nt_list m).*2 = m.
Proof using Type.
  intros Hid. assert (nt_list m = (fun d => (pd_id d, d)) <$> (nt_list m).*2) as E.
  { rewrite <- list_fmap_compose, <- (list_fmap_id (nt_list m)) at 1. apply list_fmap_ext.
    intros i [k d] Hl. cbn. by rewrite (Hid k d) by (apply elem_of_nt_list; by eapply list_elem_of_lookup_2). }
  assert (pd_id <$> (nt_list m).*2 = nt_keys m) as E1.
  { transitivity ((fst ∘ (fun d => (pd_id d, d))) <$> (nt_list m).*2); [done|].
    by rewrite list_fmap_compose, <- E, nt_list_fst. }
  split; [done|]. destruct (deliveries_map (nt_list m).*2) as (_ & _ & ->).
  { rewrite E1. apply nt_keys_sorted. }
  rewrite <- E. apply list_to_map_nt_list.
Qed.
End collections.

(** ** The invariant of a live state *)

Section codec.
Context {P : Primitives} {PO : PrimitivesOk P}.

Record ls_ok (s : LogicalState) : Prop := {
  lo_sequence : (1 <= ls_sequence s)%N;
  lo_options : options_ok (ls_options s);
  lo_order : NoDup (ls_order s);
  lo_inbound id : is_Some (ls_inbound s !! id) <-> id ∈ ls_order s;
  lo_window : (lenN (ls_order s) <= inbound_window (ls_options s))%N;
  lo_outbox id d : ls_outbox s !! id = Some d ->
    pd_id d = id /\ (1 <= id < ls_next s)%N /\ bound_delivery (ls_conference s) d;
  lo_count : (N.of_nat (size (ls_outbox s)) <= max_outbox_entries (ls_options s))%N;
  lo_next : (1 <= ls_next s)%N;
}.

(** The widths that the types of the source give the fields. *)
Record ls_typed (s : LogicalState) : Prop := {
  lt_sequence : u64_valid (ls_sequence s);
  lt_next : u64_valid (ls_next s);
  lt_inbound id d : ls_inbound s !! id = Some d -> len32 id /\ len32 d;
  lt_outbox id d : ls_outbox s !! id = Some d -> recipient_typed (pd_recipient d);
}.

Lemma delivery_key_len c id to payload : len32 (delivery_key c id to payload).
Proof using PO. destruct to; apply hash_length. Qed.

Lemma write_recipient_buf to w : w_buf (write_recipient to w) = w_buf w ++ recipient_image to.
Proof using Type. destruct to; unfold write_recipient; autorewrite with cfr_writer; by rewrite <- ?app_assoc. Qed.
Lemma write_inbound_buf e w : w_buf (write_inbound e w) = w_buf w ++ entry_image e.
Proof using Type. unfold write_inbound, entry_image. autorewrite with cfr_writer. by rewrite <- app_assoc. Qed.
Lemma write_delivery_buf d w : w_buf (write_delivery d w) = w_buf w ++ delivery_image d.
Proof using Type.
  unfold write_delivery, delivery_image. autorewrite with cfr_writer. rewrite write_recipient_buf.
  autorewrite with cfr_writer. by rewrite <- !app_assoc.
Qed.

Lemma write_options_ok o w :
  options_ok o -> exists w', write_options o w = Ok w' /\ w_buf w' = w_buf w ++ options_image o.
Proof using Type.
  intros Ho. destruct (options_u64 o Ho) as (H1 & H2 & H3 & H4 & _). unfold write_options, usize_to_u64, u64_valid in *.
  rewrite !(proj2 (N.leb_gt _ _)) by done. cbn [mbind result_bind]. eexists. split; [done|].
  unfold options_image. autorewrite with cfr_writer. by rewrite <- !app_assoc.
Qed.

(** The bytes of a state, given those of its conference. *)
Definition state_image (s : LogicalState) (entries : list (bytes * bytes)) (cb : bytes) : bytes :=
  head_image (ls_sequence s) (ls_options s) ++ bytes_image cb
  ++ tail_image entries (nt_list (ls_outbox s)).*2 (ls_next s).

Lemma encode_image s entries b :
  options_ok (ls_options s) -> NoDup entries.*1 -> ls_inbound s = list_to_map entries -> ls_order s = entries.*1 ->
  encode s = Ok b <->
  exists cb, conf_export (ls_conference s) = Ok cb /\ b = state_image s entries cb /\
    (lenN b <= max_state_bytes (ls_options s))%N /\ (lenN b <= max_record_bytes (ls_options s))%N.
Proof using Type.
  intros Ho Hn Hm Hor. unfold encode. destruct (conf_export (ls_conference s)) as [cb|e]; cbn [map_err mbind result_bind].
  2: { split; [done|]. by intros (cb & ? & _). }
  destruct (entries_of_list s entries Hn Hm Hor) as [-> El]. cbn [mbind result_bind].
  rewrite El, N.eqb_refl. cbn [negb].
  destruct (write_options_ok (ls_options s) (writer_new |> writer_u32 CURRENT_PERSISTENCE_SCHEMA_VERSION |> writer_u64 (ls_sequence s)) Ho)
    as (w & -> & Hw). cbn [mbind result_bind]. cbn zeta.
  set (b' := writer_finish _). assert (b' = state_image s entries cb) as ->.
  { unfold b', writer_finish. autorewrite with cfr_writer. rewrite (w_buf_list _ delivery_image) by apply write_delivery_buf.
    rewrite (w_buf_list _ entry_image) by apply write_inbound_buf. autorewrite with cfr_writer. rewrite Hw.
    autorewrite with cfr_writer. unfold state_image, head_image, tail_image. cbn [writer_new w_buf app].
    by rewrite <- !app_assoc. }
  pose proof (oo_state _ Ho). split.
  - n_cases; cbn [orb]; try done. intros [= <-]. by exists cb.
  - intros (cb' & [= <-] & -> & H1 & H2). n_cases; cbn [orb]; first [done|lia].
Qed.

(** The limits can be read off an encoding. *)
Lemma encode_head s b :
  options_ok (ls_options s) -> encode s = Ok b -> exists rest, b = head_image (ls_sequence s) (ls_options s) ++ rest.
Proof using Type.
  intros Ho. unfold encode. destruct (conf_export (ls_conference s)) as [cb|]; [|done]. cbn [map_err mbind result_bind].
  destruct (inbound_entries s) as [entries|]; [|done]. cbn [mbind result_bind]. destruct (negb _); [done|].
  destruct (write_options_ok (ls_options s) (writer_new |> writer_u32 CURRENT_PERSISTENCE_SCHEMA_VERSION |> writer_u64 (ls_sequence s)) Ho)
    as (w & -> & Hw). cbn [mbind result_bind]. cbn zeta.
  destruct (_ || _); [done|]. destruct (_ <? _)%N; [done|]. intros [= <-]. unfold writer_finish.
  autorewrite with cfr_writer. rewrite (w_buf_list _ delivery_image) by apply write_delivery_buf.
  rewrite (w_buf_list _ entry_image) by apply write_inbound_buf. autorewrite with cfr_writer. rewrite Hw.
  autorewrite with cfr_writer. unfold head_image. cbn [writer_new w_buf app]. eexists. by rewrite <- !app_assoc.
Qed.

Lemma ok_pair_inj {E A S} (a a' : A) (s s' : S) : (@Ok E A a, s) = (Ok a', s') -> a = a'.
Proof using Type. by intros [= -> _]. Qed.

Lemma encode_options s s' b :
  options_ok (ls_options s) -> options_ok (ls_options s') -> encode s = Ok b -> encode s' = Ok b ->
  ls_options s = ls_options s'.
Proof using Type.
  intros Ho Ho' (r & ->)%encode_head (r' & E)%encode_head; [|done|done]. unfold head_image in E.
  rewrite <- !app_assoc in E. apply app_inj_1 in E as [_ E]; [|done]. apply app_inj_1 in E as [_ E].
  2: { unfold u64_image. by rewrite !length_app, !u64_be_length. }
  assert (read_options (rd_at [] (options_image (ls_options s) ++ r)) = (Ok (ls_options s'), rd_at ([] ++ options_image (ls_options s')) r')) as R
    by (rewrite E; by apply rd_complete).
  rewrite rd_complete in R by done. exact (ok_pair_inj _ _ _ _ R).
Qed.

(** Every field of a state that was encoded is within the codec's bounds. *)
Lemma concat_member {A} (img : A -> bytes) l a : a ∈ l -> (lenN (img a) <= lenN (concat (img <$> l)))%N.
Proof using Type.
  induction l as [|x l IH]; [by intros ?%not_elem_of_nil|]. cbn [fmap list_fmap concat]. rewrite lenN_app.
  intros [->|Hin]%elem_of_cons; [lia|]. specialize (IH Hin). lia.
Qed.

Lemma bytes_image_len b : lenN (bytes_image b) = (5 + lenN b)%N.
Proof using Type. unfold bytes_image. rewrite !lenN_app. unfold lenN at 1 2. rewrite u32_be_length. simpl. lia. Qed.

Lemma payload_bounded s entries cb d id :
  (lenN (state_image s entries cb) <= MAX_FIELD)%N -> ls_outbox s !! id = Some d -> bytes_valid (pd_payload d).
Proof using Type.
  intros Hb Hd. unfold bytes_valid. unfold state_image, tail_image, list_image in Hb. rewrite !lenN_app in Hb.
  assert (d ∈ (nt_list (ls_outbox s)).*2) as Hin.
  { apply list_elem_of_fmap. exists (id, d). split; [done|]. by apply elem_of_nt_list. }
  pose proof (concat_member delivery_image _ _ Hin) as Hc. unfold delivery_image at 1 in Hc.
  rewrite !lenN_app, !bytes_image_len in Hc. lia.
Qed.

Lemma conference_bounded s entries cb :
  (lenN (state_image s entries cb) <= MAX_FIELD)%N -> bytes_valid cb.
Proof using Type.
  intros Hb. unfold bytes_valid. unfold state_image in Hb. rewrite !lenN_app, bytes_image_len in Hb. lia.
Qed.

Definition codec_sizes (s : LogicalState) (b : bytes) : Prop :=
  (lenN b <= max_state_bytes (ls_options s))%N /\ (lenN b <= max_record_bytes (ls_options s))%N.

Lemma codec_hard s b : options_ok (ls_options s) -> codec_sizes s b -> (lenN b <= MAX_FIELD)%N.
Proof using Type. intros Ho [H1 _]. pose proof (oo_state _ Ho). unfold HARD_MAX_STATE_BYTES, MAX_FIELD in *. lia. Qed.

Lemma last_key_below (m : gmap N PendingDelivery) next :
  (forall id d, m !! id = Some d -> (id < next)%N) ->
  match last (nt_keys m) with Some k => (next <=? k)%N | None => false end = false.
Proof using Type.
  intros Hm. destruct (last (nt_keys m)) as [k|] eqn:E; [|done]. apply N.leb_gt.
  assert (k ∈ nt_keys m) as Hk by (rewrite last_lookup in E; by eapply list_elem_of_lookup_2).
  rewrite nt_keys_perm, elem_of_elements, elem_of_dom in Hk. destruct Hk as [d Hd]. by apply (Hm k d).
Qed.

Lemma outbox_deliveries s :
  ls_ok s -> ls_typed s -> (forall id d, ls_outbox s !! id = Some d -> bytes_valid (pd_payload d)) ->
  list_valid delivery_valid (nt_list (ls_outbox s)).*2 /\
  insert_deliveries (ls_conference s) (nt_list (ls_outbox s)).*2 None ∅ = Ok (ls_outbox s).
Proof using PO.
  intros Hs Ht Hp.
  assert (forall d, d ∈ (nt_list (ls_outbox s)).*2 -> exists id, ls_outbox s !! id = Some d) as Hin.
  { intros d ([id d'] & -> & Hd%elem_of_nt_list)%list_elem_of_fmap. by exists id. }
  destruct (outbox_list (ls_outbox s)) as [E1 E2]; [intros id d Hd; by apply (lo_outbox s Hs id d)|].
  split; [split|].
  - apply Forall_forall. intros d Hd. destruct (Hin d Hd) as [id Hid].
    destruct (lo_outbox s Hs id d Hid) as (Hi & Hb & Hk). pose proof (lt_next s Ht).
    split_and!; [unfold u64_valid in *; lia|rewrite Hk; apply delivery_key_len|by apply (lt_outbox s Ht id)|by apply (Hp id)].
  - unfold lenN. rewrite length_fmap, nt_list_length. pose proof (lo_count s Hs).
    pose proof (oo_outbox _ (lo_options s Hs)). unfold MAX_WINDOW_ENTRIES, MAX_ITEMS in *. lia.
  - apply insert_deliveries_ok. rewrite E1, E2. split_and!; [apply nt_keys_sorted| |done].
    apply Forall_forall. intros d Hd. destruct (Hin d Hd) as [id Hid].
    destruct (lo_outbox s Hs id d Hid) as (Hi & Hb & Hk). split_and!; [lia|done|done].
Qed.

Lemma read_logical_image s entries cb :
  ls_ok s -> ls_typed s -> NoDup entries.*1 -> ls_inbound s = list_to_map entries -> ls_order s = entries.*1 ->
  let b := state_image s entries cb in
  codec_sizes s b -> conf_import cb = Ok (ls_conference s) ->
  (read_logical (lenN b) (ls_sequence s) (reader_new b)).1 = Ok s.
Proof using PO.
  intros Hs Ht Hn Hm Hor b Hsz Himp. pose proof (codec_hard s b (lo_options s Hs) Hsz) as Hhard.
  destruct (outbox_deliveries s Hs Ht) as [Hdl Hins]; [intros id d; by apply payload_bounded with (entries := entries) (cb := cb)|].
  pose proof (conference_bounded s entries cb Hhard) as Hcb.
  assert (list_valid entry_valid entries) as Hent.
  { split; [|].
    - apply Forall_forall. intros [id d] Hin. apply (lt_inbound s Ht id d). rewrite Hm. by apply elem_of_list_to_map_1.
    - pose proof (lo_window s Hs) as Hw. rewrite Hor in Hw. unfold lenN in *. rewrite length_fmap in Hw.
      pose proof (oo_window _ (lo_options s Hs)). unfold MAX_WINDOW_ENTRIES, MAX_ITEMS in *. lia. }
  destruct Hsz as [Hz1 Hz2]. pose proof (lt_sequence s Ht) as Hseq. pose proof (lt_next s Ht) as Hnext.
  change (reader_new b) with (rd_at [] b).
  set (dl := (nt_list (ls_outbox s)).*2) in *.
  assert (rd_at [] b = rd_at [] (u64_image CURRENT_PERSISTENCE_SCHEMA_VERSION ++ u64_image (ls_sequence s)
    ++ options_image (ls_options s) ++ bytes_image cb ++ list_image entry_image entries
    ++ list_image delivery_image dl ++ u64_image (ls_next s) ++ [])) as ->.
  { unfold b, state_image, head_image, tail_image. by rewrite <- !app_assoc, app_nil_r. }
  match goal with |- ?x.1 = _ => assert (exists r, x = (Ok s, r)) as [r ->]; [|done] end. eexists.
  unfold read_logical. rd_step by (by vm_compute). rewrite N.eqb_refl. cbn [negb]. rd_step.
  rewrite (proj2 (N.eqb_neq _ 0)), N.eqb_refl by (pose proof (lo_sequence s Hs); lia). cbn [orb negb].
  pose proof (lo_options s Hs) as Ho. rd_step. rewrite !(proj2 (N.ltb_ge _ _)) by done. cbn [orb].
  rd_step. rewrite Himp. cbn [map_err]. erewrite bind_ok by reflexivity.
  erewrite bind_ok.
  2: { unfold read_inbound. rd_step. rewrite (proj2 (N.ltb_ge _ _)).
       - unfold lift. by rewrite insert_entries_fresh.
       - pose proof (lo_window s Hs) as Hw. rewrite Hor in Hw. unfold lenN in *. by rewrite length_fmap in Hw. }
  erewrite bind_ok.
  2: { unfold read_outbox. rd_step. rewrite (proj2 (N.ltb_ge _ _)).
       - unfold lift. by rewrite Hins.
       - unfold dl, lenN. rewrite length_fmap, nt_list_length. apply (lo_count s Hs). }
  rd_step. erewrite bind_ok.
  2: { apply corrupt_codec_ok. unfold reader_finish, rd_at. cbn [r_pos r_buf]. by rewrite app_nil_r, N.eqb_refl. }
  rewrite (proj2 (N.eqb_neq _ 0)) by (pose proof (lo_next s Hs); lia). rewrite last_key_below.
  - cbn [orb fst snd]. rewrite <- Hm, <- Hor. by destruct s.
  - intros id d Hd. apply (lo_outbox s Hs id d Hd).
Qed.

Lemma read_inbound_sound o pre rest m order r :
  read_inbound o (rd_at pre rest) = (Ok (m, order), r) ->
  exists entries post, list_valid entry_valid entries /\ NoDup entries.*1 /\ m = list_to_map entries /\
    order = entries.*1 /\ (lenN entries <= inbound_window o)%N /\
    rest = list_image entry_image entries ++ post /\ r = rd_at (pre ++ list_image entry_image entries) post.
Proof using Type.
  intros H. unfold read_inbound in H. rd_inv H. destruct (N.ltb_spec (inbound_window o) (lenN a)); [done|].
  unfold lift in H. injection H as H <-. apply insert_entries_ok in H as (Hn & _ & -> & ->).
  rewrite foldl_insert_map, map_union_empty by done. by exists a, post.
Qed.

Lemma read_outbox_sound c o pre rest m r :
  read_outbox c o (rd_at pre rest) = (Ok m, r) ->
  exists post, list_valid delivery_valid (nt_list m).*2 /\
    (forall id d, m !! id = Some d -> pd_id d = id /\ id <> 0%N /\ bound_delivery c d /\ delivery_valid d) /\
    (N.of_nat (size m) <= max_outbox_entries o)%N /\
    rest = list_image delivery_image (nt_list m).*2 ++ post /\
    r = rd_at (pre ++ list_image delivery_image (nt_list m).*2) post.
Proof using Type.
  intros H. unfold read_outbox in H. rd_inv H. destruct (N.ltb_spec (max_outbox_entries o) (lenN a)); [done|].
  unfold lift in H. injection H as H <-. apply insert_deliveries_ok in H as (Hs & HF & ->).
  destruct (deliveries_map a Hs) as (E1 & E2 & E3). set (m := foldl _ _ a) in *. rewrite E1. exists post.
  split_and!; try done.
  - intros id d Hd. rewrite E3 in Hd. apply elem_of_list_to_map_2 in Hd.
    apply list_elem_of_fmap in Hd as (d' & [= -> ->] & Hin).
    destruct (proj1 (Forall_forall _ _) HF d' Hin) as (? & _ & ?). split_and!; try done.
    exact (proj1 (Forall_forall _ _) (proj1 HV) d' Hin).
  - rewrite <- nt_list_length, <- (length_fmap snd), E1. done.
Qed.

Lemma finish_sound pre post r : reader_finish (rd_at pre post) = (Ok tt, r) -> post = [].
Proof using Type.
  unfold reader_finish. destruct (N.eqb_spec (r_pos (rd_at pre post)) (lenN (r_buf (rd_at pre post)))) as [He|]; [|done].
  intros _. by apply rd_at_end in He.
Qed.

Lemma read_logical_sound b n s :
  (read_logical (lenN b) n (reader_new b)).1 = Ok s ->
  ls_sequence s = n /\ ls_ok s /\ ls_typed s /\ codec_sizes s b /\
  exists entries cb, NoDup entries.*1 /\ ls_inbound s = list_to_map entries /\ ls_order s = entries.*1 /\
    b = state_image s entries cb /\ conf_import cb = Ok (ls_conference s).
Proof using Type.
  change (reader_new b) with (rd_at [] b). destruct (read_logical _ _ _) as [x r] eqn:H. cbn [fst]. intros ->.
  set (size := lenN b) in *. assert (size = lenN b) as Esz by done. clearbody size.
  unfold read_logical in H. rd_inv H. destruct (N.eqb_spec a CURRENT_PERSISTENCE_SCHEMA_VERSION) as [->|]; [|done].
  cbn [negb] in H. rd_inv H. rename a into seq. destruct (N.eqb_spec seq 0); [done|].
  destruct (N.eqb_spec seq n) as [<-|]; [|done]. cbn [negb orb] in H. rd_inv H. rename a into o.
  destruct (N.ltb_spec (max_state_bytes o) size) as [|Hz1]; [done|].
  destruct (N.ltb_spec (max_record_bytes o) size) as [|Hz2]; [done|]. cbn [orb] in H.
  rd_inv H. rename a into cb. apply bind_ok_inv in H as (c & s1 & Hm & H). unfold lift in Hm.
  destruct (conf_import cb) as [c0|] eqn:Hc; [|done]. cbn [map_err] in Hm. injection Hm as -> <-.
  apply bind_ok_inv in H as ([m order] & s1 & Hm & H).
  apply read_inbound_sound in Hm as (entries & post3 & He & Hn & -> & -> & Hw & -> & ->).
  apply bind_ok_inv in H as (out & s1 & Hm & H).
  apply read_outbox_sound in Hm as (post4 & Hdv & Hd & Hsz & -> & ->).
  rd_inv H. rename a into next. apply bind_ok_inv in H as ([] & s1 & Hm & H). apply corrupt_codec_ok in Hm.
  apply finish_sound in Hm as ->.
  destruct (N.eqb_spec next 0) as [|Hnz]; [done|]. cbn [orb] in H.
  destruct (match last (nt_keys out) with Some _ => _ | None => _ end) eqn:El; [done|]. injection H as <- _.
  cbn [ls_sequence ls_options ls_conference fst snd].
  assert (forall id d, out !! id = Some d -> (id < next)%N) as Hbelow.
  { intros id d Hid. destruct (last (nt_keys out)) as [k|] eqn:Ek.
    - apply N.leb_gt in El. enough (id <= k)%N by lia.
      assert (id ∈ nt_keys out) as Hin by (rewrite nt_keys_perm, elem_of_elements, elem_of_dom; by eexists).
      pose proof (nt_keys_sorted out) as Hs. apply sorted_N_le in Hs.
      apply last_Some in Ek as [l Ek]. rewrite Ek in Hs, Hin. apply elem_of_app in Hin as [Hin|Hin].
      + apply StronglySorted_app in Hs as (Hs & _). apply Hs; [done|apply list_elem_of_here].
      + apply list_elem_of_singleton in Hin as ->. lia.
    - apply last_None in Ek. assert (id ∈ nt_keys out) as Hin
        by (rewrite nt_keys_perm, elem_of_elements, elem_of_dom; by eexists). rewrite Ek in Hin. by apply not_elem_of_nil in Hin. }
  split_and!; try done.
  - split; cbn [ls_sequence ls_options ls_order ls_inbound ls_outbox ls_conference ls_next]; try done; try lia.
    + intros id. rewrite <- elem_of_dom, dom_list_to_map_L. by rewrite elem_of_list_to_set.
    + unfold lenN in *. by rewrite length_fmap.
    + intros id d Hid. destruct (Hd id d Hid) as (? & ? & ? & _). pose proof (Hbelow id d Hid). split_and!; try done; lia.
  - split; cbn [ls_sequence ls_next ls_inbound ls_outbox]; try done.
    + intros id d Hid%elem_of_list_to_map_2. exact (proj1 (Forall_forall _ _) (proj1 He) (id, d) Hid).
    + intros id d Hid. by destruct (Hd id d Hid) as (_ & _ & _ & ? & ? & ? & ?).
  - split; cbn [ls_options]; congruence.
  - by exists entries, cb.
Qed.

(** A conference that import gives back unchanged. *)
Definition reloads (c : Conference) : Prop :=
  exists cb, conf_export c = Ok cb /\ conf_import cb = Ok c.

Lemma decode_iff b n s :
  decode b n = Ok s <->
  encode s = Ok b /\ ls_sequence s = n /\ ls_ok s /\ ls_typed s /\ reloads (ls_conference s).
Proof using PO.
  unfold decode. split.
  - destruct (N.ltb_spec HARD_MAX_STATE_BYTES (lenN b)) as [|Hb]; [done|].
    destruct (read_logical _ _ _).1 as [s'|] eqn:Er; [|done]. cbn [mbind result_bind].
    destruct (encode s') as [b'|] eqn:Ee; [|done]. cbn [map_err mbind result_bind].
    destruct (bool_decide _) eqn:Eb; [done|]. apply bool_decide_eq_false, dec_stable in Eb as ->. intros [= ->].
    apply read_logical_sound in Er as (H1 & H2 & H3 & H4 & entries & cb & H5 & H6 & H7 & H8 & H9).
    split_and!; try done. exists cb. split; [|done].
    apply (encode_image s entries b (lo_options s H2) H5 H6 H7) in Ee as (cb' & Hex & Himg & _).
    rewrite H8 in Himg. unfold state_image in Himg. apply app_inv_head in Himg.
    assert (bytes_valid cb /\ bytes_valid cb') as [Hv Hv'].
    { pose proof (codec_hard s b (lo_options s H2) H4) as Hh. split.
      - apply (conference_bounded s entries cb). by rewrite <- H8.
      - apply (conference_bounded s entries cb'). unfold state_image. rewrite <- Himg. unfold state_image in H8. by rewrite <- H8. }
    assert (reader_bytes (rd_at [] (bytes_image cb ++ tail_image entries (nt_list (ls_outbox s)).*2 (ls_next s)))
            = (Ok cb', rd_at ([] ++ bytes_image cb') (tail_image entries (nt_list (ls_outbox s)).*2 (ls_next s)))) as R
      by (rewrite Himg; by apply rd_complete).
    rewrite rd_complete in R by done. by injection R as -> _.
  - intros (Ee & <- & Hs & Ht & cb & Hex & Him).
    destruct (list_of_entries s (lo_order s Hs) (lo_inbound s Hs)) as (entries & Hn & Hm & Hor).
    pose proof Ee as Ee'. apply (encode_image s entries b (lo_options s Hs) Hn Hm Hor) in Ee' as (cb' & Hex' & -> & Hz1 & Hz2).
    rewrite Hex in Hex'. injection Hex' as <-. pose proof (oo_state _ (lo_options s Hs)).
    rewrite (proj2 (N.ltb_ge _ _)) by lia. rewrite (read_logical_image s entries cb) by done. cbn [mbind result_bind].
    rewrite Ee. cbn [map_err mbind result_bind]. by rewrite bool_decide_false by (intros Hne; by apply Hne).
Qed.

(** ** Changes to a live state *)

Lemma bound_delivery_same c c' d :
  conf_session_id c = conf_session_id c' -> conf_identity c = conf_identity c' ->
  bound_delivery c d -> bound_delivery c' d.
Proof using Type. intros E1 E2. unfold bound_delivery, delivery_key. by rewrite E1, E2. Qed.

Lemma ok_set_conference c s :
  conf_session_id (ls_conference s) = conf_session_id c -> conf_identity (ls_conference s) = conf_identity c ->
  ls_ok s -> ls_ok (set_conference c s).
Proof using Type.
  intros E1 E2 [H1 H2 H3 H4 H5 H6 H7 H8]. split; try done. intros id d Hd.
  destruct (H6 id d Hd) as (Ha & Hb & Hc). split; [exact Ha|]. split; [exact Hb|]. by eapply bound_delivery_same.
Qed.

(** What enqueueing adds: consecutive identifiers from the next one on, each
    with its message and key, and nothing else. *)
Fixpoint deliveries_from (c : Conference) (next : N) (messages : list CMessage) : list PendingDelivery :=
  match messages with
  | [] => []
  | m :: messages =>
      mkDelivery next (delivery_key c next (cm_to m) (cm_payload m)) (cm_to m) (cm_payload m)
      :: deliveries_from c (next + 1) messages
  end.

Lemma enqueue_all_spec messages s :
  let ds := deliveries_from (ls_conference s) (ls_next s) messages in
  enqueue_all messages s
  = (pd_id <$> ds, set_outbox (foldl (fun m d => <[pd_id d := d]> m) (ls_outbox s) ds) (ls_next s + lenN messages) s).
Proof using Type.
  revert s. induction messages as [|m messages IH]; intros s; cbn [enqueue_all deliveries_from fmap list_fmap foldl].
  - unfold set_outbox. rewrite lenN_nil, N.add_0_r. by destruct s.
  - rewrite IH. cbn [set_outbox ls_conference ls_next ls_outbox pd_id].
    assert (ls_next s + lenN (m :: messages) = ls_next s + 1 + lenN messages)%N as -> by (rewrite lenN_cons; lia).
    reflexivity.
Qed.

Lemma deliveries_from_range c next messages d :
  d ∈ deliveries_from c next messages ->
  (next <= pd_id d < next + lenN messages)%N /\ bound_delivery c d /\
  exists m, m ∈ messages /\ pd_recipient d = cm_to m /\ pd_payload d = cm_payload m.
Proof using Type.
  revert next. induction messages as [|m messages IH]; intros next; cbn [deliveries_from]; [by intros ?%not_elem_of_nil|].
  rewrite lenN_cons. intros [->|Hd]%elem_of_cons.
  - cbn [pd_id pd_recipient pd_payload]. split_and!; [lia|lia|done|exists m; split; [apply list_elem_of_here|done]].
  - destruct (IH (next + 1)%N Hd) as (? & ? & m' & ? & ?). split_and!; [lia|lia|done|].
    exists m'. split; [by apply list_elem_of_further|done].
Qed.

Lemma deliveries_from_ids c next messages :
  StronglySorted N.lt (pd_id <$> deliveries_from c next messages) /\
  length (deliveries_from c next messages) = length messages.
Proof using Type.
  revert next. induction messages as [|m messages IH]; intros next; cbn [deliveries_from fmap list_fmap length]; [by split; constructor|].
  destruct (IH (next + 1)%N) as [H1 H2]. split; [|by rewrite H2]. constructor; [done|].
  apply Forall_fmap, Forall_forall. intros d Hd. apply deliveries_from_range in Hd as (Hd & _). cbn. lia.
Qed.

(** Deliveries in the order of their identifiers. *)
Definition pending_deliveries (s : LogicalState) : list PendingDelivery := (nt_list (ls_outbox s)).*2.

Lemma StronglySorted_N_app (l k : list N) :
  StronglySorted N.lt l -> StronglySorted N.lt k -> (forall x y, x ∈ l -> y ∈ k -> (x < y)%N) ->
  StronglySorted N.lt (l ++ k).
Proof using Type. intros Hl Hk Hlk. apply StronglySorted_app. by split_and!. Qed.

Lemma foldl_insert_deliveries (ds : list PendingDelivery) (m : gmap N PendingDelivery) l :
  m = list_to_map ((fun d => (pd_id d, d)) <$> l) -> StronglySorted N.lt (pd_id <$> l ++ ds) ->
  foldl (fun m d => <[pd_id d := d]> m) m ds = list_to_map ((fun d => (pd_id d, d)) <$> (l ++ ds)).
Proof using Type.
  intros -> Hs. rewrite fmap_app in Hs.
  assert (forall a : list PendingDelivery, StronglySorted N.lt (pd_id <$> a) ->
    foldl (fun m d => <[pd_id d := d]> m) (∅ : gmap N PendingDelivery) a = list_to_map ((fun d => (pd_id d, d)) <$> a)) as Hf.
  { intros a Ha. by destruct (deliveries_map a Ha) as (_ & _ & ->). }
  pose proof Hs as Hs'. apply StronglySorted_app in Hs' as (_ & Hl & _).
  rewrite <- (Hf l) by done. rewrite <- foldl_app. apply Hf. by rewrite fmap_app.
Qed.

(** The identifiers of the outbox by themselves. *)
Definition outbox_ids (s : LogicalState) : Prop :=
  forall id d, ls_outbox s !! id = Some d -> pd_id d = id /\ (1 <= id < ls_next s)%N.

Lemma ok_ids s : ls_ok s -> outbox_ids s.
Proof using Type. intros Hs id d Hd. by destruct (lo_outbox s Hs id d Hd) as (? & ? & _). Qed.

Lemma enqueue_appends messages s ids s' :
  outbox_ids s -> enqueue messages s = (Ok ids, s') ->
  let ds := deliveries_from (ls_conference s) (ls_next s) messages in
  ids = pd_id <$> ds /\ pending_deliveries s' = pending_deliveries s ++ ds /\
  (exists m, s' = set_outbox m (ls_next s + lenN messages) s) /\
  (ls_next s + lenN messages < two64)%N /\ (ls_ok s -> ls_ok s').
Proof using Type.
  intros Hs. unfold enqueue. destruct (N.ltb_spec (max_outbox_entries (ls_options s)) (N.of_nat (size (ls_outbox s)))); [done|].
  destruct (N.ltb_spec (max_outbox_entries (ls_options s) - N.of_nat (size (ls_outbox s))) (lenN messages)) as [|Hroom]; [done|].
  unfold checked_add64. destruct (N.ltb_spec (ls_next s + lenN messages) two64) as [Hn|]; [|done].
  rewrite enqueue_all_spec. intros [= <- <-]. cbn zeta. set (ds := deliveries_from _ _ _).
  destruct (deliveries_from_ids (ls_conference s) (ls_next s) messages) as [Hsort Hlen]. fold ds in Hsort, Hlen.
  destruct (outbox_list (ls_outbox s)) as [E1 E2]; [intros id d Hd; by apply (Hs id d)|].
  fold (pending_deliveries s) in E1, E2.
  assert (StronglySorted N.lt (pd_id <$> (pending_deliveries s ++ ds))) as Hall.
  { rewrite fmap_app. apply StronglySorted_N_app; [rewrite E1; apply nt_keys_sorted|done|].
    intros x y Hx (d & -> & Hd%deliveries_from_range)%list_elem_of_fmap. rewrite E1 in Hx.
    rewrite nt_keys_perm, elem_of_elements, elem_of_dom in Hx. destruct Hx as [d0 Hd0].
    destruct (Hs x d0 Hd0) as (_ & ?). lia. }
  assert (ls_outbox s = list_to_map ((fun d => (pd_id d, d)) <$> pending_deliveries s)) as Em.
  { destruct (deliveries_map (pending_deliveries s)) as (_ & _ & E3); [by rewrite E1; apply nt_keys_sorted|]. by rewrite <- E3, E2. }
  rewrite (foldl_insert_deliveries ds _ (pending_deliveries s) Em Hall).
  set (m' := list_to_map _ : gmap N PendingDelivery).
  assert (nt_list m' = (fun d => (pd_id d, d)) <$> (pending_deliveries s ++ ds)) as Elist.
  { apply nt_list_of_sorted. by rewrite <- list_fmap_compose. }
  assert ((nt_list m').*2 = pending_deliveries s ++ ds) as Epend.
  { rewrite Elist, <- list_fmap_compose. apply list_fmap_id. }
  split_and!; [done|exact Epend|by eexists|done|].
  intros [H1 H2 H3 H4 H5 H6 H7 H8]. split; try done; cbn [set_outbox ls_outbox ls_next ls_options ls_conference].
  - intros id d Hd. apply elem_of_nt_list in Hd. rewrite Elist in Hd.
    apply list_elem_of_fmap in Hd as (d' & [= -> ->] & [Hin|Hin]%elem_of_app).
    + apply list_elem_of_fmap in Hin as ([k d''] & -> & Hk%elem_of_nt_list). cbn [snd].
      destruct (H6 k d'' Hk) as (Hid & ? & ?). rewrite Hid. split_and!; [done|lia|lia|done].
    + apply deliveries_from_range in Hin as (? & ? & _). split_and!; [done|lia|lia|done].
  - rewrite <- nt_list_length, Elist, length_fmap, length_app, Hlen. unfold pending_deliveries.
    rewrite length_fmap, nt_list_length. unfold lenN in Hroom. lia.
  - lia.
Qed.

Lemma enqueue_failed messages s e s' : enqueue messages s = (Err e, s') -> s' = s.
Proof using Type.
  unfold enqueue. destruct (_ <? _)%N; [by intros [= _ <-]|]. destruct (_ <? _)%N; [by intros [= _ <-]|].
  destruct (checked_add64 _ _); [|by intros [= _ <-]]. by destruct (enqueue_all _ _).
Qed.

(** Acknowledging removes one delivery. *)
Lemma ok_acknowledge id s : ls_ok s -> ls_ok (set_outbox (delete id (ls_outbox s)) (ls_next s) s).
Proof using Type.
  intros [H1 H2 H3 H4 H5 H6 H7 H8]. split; try done; cbn [set_outbox ls_outbox ls_next ls_options ls_conference].
  - intros k d Hd. apply lookup_delete_Some in Hd as [_ Hd]. by apply H6.
  - assert (size (delete id (ls_outbox s)) <= size (ls_outbox s)) as Hle; [|lia].
    rewrite <- !size_dom. apply subseteq_size. rewrite dom_delete. intros x Hx. by apply elem_of_difference in Hx as [? _].
Qed.

(** Only the most recent identifiers are kept. *)
Lemma expire_spec window order inbound :
  NoDup order -> (forall id, is_Some (inbound !! id) <-> id ∈ order) ->
  let kept := drop (length order - N.to_nat window) order in
  exists inbound', expire window order inbound = (inbound', kept) /\
    forall id, inbound' !! id = if decide (id ∈ kept) then inbound !! id else None.
Proof using Type.
  revert inbound. induction order as [|x order IH]; intros inbound Hn Hd; cbn [expire].
  - exists inbound. split; [done|]. intros id. cbn [drop length]. rewrite drop_nil.
    destruct (decide (id ∈ [])) as [Hin|]; [by apply not_elem_of_nil in Hin|].
    apply eq_None_not_Some. intros Hid%Hd. by apply not_elem_of_nil in Hid.
  - destruct (N.ltb_spec window (lenN (x :: order))) as [Hlt|Hge].
    + apply NoDup_cons in Hn as [Hx Hn]. destruct (IH (delete x inbound) Hn) as (m & -> & Hm).
      { intros id. rewrite lookup_delete_is_Some, Hd, elem_of_cons. split; [naive_solver|].
        intros Hin. split; [by intros ->|by right]. }
      exists m. rewrite lenN_cons in Hlt. unfold lenN in Hlt.
      assert (length (x :: order) - N.to_nat window = S (length order - N.to_nat window)) as -> by (simpl; lia).
      cbn [drop]. split; [done|]. intros id. rewrite Hm. destruct (decide _) as [Hin|]; [|done].
      apply lookup_delete_ne. intros ->. apply Hx. by apply subseteq_drop in Hin.
    + unfold lenN in Hge. assert (length (x :: order) - N.to_nat window = 0) as -> by (cbn [length] in *; lia).
      exists inbound. split; [done|]. intros id. cbn [drop]. destruct (decide _) as [|Hni]; [done|].
      apply eq_None_not_Some. by intros Hid%Hd.
Qed.

(** The window by itself. *)
Record window_ok (s : LogicalState) : Prop := {
  wo_positive : (1 <= inbound_window (ls_options s))%N;
  wo_order : NoDup (ls_order s);
  wo_inbound id : is_Some (ls_inbound s !! id) <-> id ∈ ls_order s;
  wo_bound : (lenN (ls_order s) <= inbound_window (ls_options s))%N;
}.

Lemma ok_window s : ls_ok s -> window_ok s.
Proof using Type. intros [H1 H2 H3 H4 H5 H6 H7 H8]. split; try done. apply (oo_window _ H2). Qed.

Lemma record_inbound_spec id digest s :
  window_ok s -> ls_inbound s !! id = None ->
  let s' := record_inbound id digest s in
  window_ok s' /\ ls_inbound s' !! id = Some digest /\
  ls_order s' = drop (S (length (ls_order s)) - N.to_nat (inbound_window (ls_options s))) (ls_order s ++ [id]) /\
  (forall k, k <> id -> ls_inbound s' !! k = if decide (k ∈ ls_order s') then ls_inbound s !! k else None) /\
  s' = set_seen (ls_inbound s') (ls_order s') s.
Proof using Type.
  intros Hs Hid s'. pose proof (wo_positive s Hs) as Hw.
  assert (id ∉ ls_order s) as Hni by (intros Hin%(wo_inbound s Hs); rewrite Hid in Hin; by destruct Hin).
  assert (NoDup (ls_order s ++ [id])) as Hnd.
  { apply NoDup_app. split_and!; [apply (wo_order s Hs)| |apply NoDup_singleton]. intros x Hx ->%list_elem_of_singleton. done. }
  destruct (expire_spec (inbound_window (ls_options s)) (ls_order s ++ [id]) (<[id := digest]> (ls_inbound s)) Hnd) as (m & E & Hm).
  { intros k. rewrite lookup_insert_is_Some, elem_of_app, list_elem_of_singleton, (wo_inbound s Hs). split; [naive_solver|].
    intros [Hk| ->]; [|by left]. destruct (decide (id = k)); [by left|by right]. }
  rewrite length_app in E, Hm. cbn [length] in E, Hm. rewrite Nat.add_1_r in E, Hm.
  set (kept := drop _ _) in *.
  assert (s' = set_seen m kept s) as Es by (unfold s', record_inbound; by rewrite E).
  assert (id ∈ kept) as Hkept.
  { unfold kept. rewrite drop_app. apply elem_of_app. right.
    assert (S (length (ls_order s)) - N.to_nat (inbound_window (ls_options s)) - length (ls_order s) = 0) as -> by lia.
    apply list_elem_of_singleton. done. }
  assert (m !! id = Some digest) as Hmid by (rewrite Hm, decide_True by done; apply lookup_insert_eq).
  rewrite Es. cbn [set_seen ls_inbound ls_order]. split_and!; [|done|done| |done].
  2: { intros k Hk. rewrite Hm. destruct (decide _); [|done]. by apply lookup_insert_ne. }
  destruct Hs as [H1 H3 H4 H5]. split; try done; cbn [set_seen ls_order ls_inbound ls_options].
  - rewrite <- (take_drop (S (length (ls_order s)) - N.to_nat (inbound_window (ls_options s))) (ls_order s ++ [id])) in Hnd.
    by apply NoDup_app in Hnd as (_ & _ & ?).
  - intros k. rewrite Hm. destruct (decide _) as [Hk|Hk]; [|split; [by intros []|done]]. split; [done|]. intros _.
    rewrite lookup_insert_is_Some. destruct (decide (id = k)) as [->|Hne]; [by left|]. right. split; [done|].
    apply H4. unfold kept in Hk. apply subseteq_drop, elem_of_app in Hk as [?| ->%list_elem_of_singleton]; done.
  - unfold kept, lenN. rewrite length_drop, length_app. cbn [length]. lia.
Qed.
End codec.

(** ** What an encoding determines *)

Section determined.
Context {P : Primitives}.

Lemma lawful_split {E A} {V : A -> Prop} {img : A -> bytes} {rd : M Reader E A} `{!Lawful V img rd} a a' r r' :
  V a -> V a' -> img a ++ r = img a' ++ r' -> a = a' /\ r = r'.
Proof using Type.
  intros Ha Ha' E0. pose proof (rd_complete (rd := rd) a [] r Ha) as R. rewrite E0, (rd_complete (rd := rd) a' [] r' Ha') in R.
  injection R as -> _ _. split; [done|]. by apply app_inv_head in E0.
Qed.

Lemma u64_image_len v : length (u64_image v) = 9.
Proof using Type. unfold u64_image. by rewrite length_app, u64_be_length. Qed.
Lemma head_image_len n o : length (head_image n o) = 72.
Proof using Type. unfold head_image, options_image. by rewrite !length_app, !u64_image_len. Qed.

Definition window_typed (s : LogicalState) : Prop :=
  forall id d, ls_inbound s !! id = Some d -> len32 id /\ len32 d.

(** Two states with one encoding have one window of inbound identifiers. *)
Lemma encode_window s s' b :
  options_ok (ls_options s) -> options_ok (ls_options s') -> window_ok s -> window_ok s' ->
  window_typed s -> window_typed s' -> encode s = Ok b -> encode s' = Ok b ->
  ls_inbound s = ls_inbound s' /\ ls_order s = ls_order s'.
Proof using Type.
  intros Ho Ho' [_ N1 D1 B1] [_ N2 D2 B2] T1 T2 E1 E2.
  destruct (list_of_entries s N1 D1) as (l & L1 & L2 & L3). destruct (list_of_entries s' N2 D2) as (l' & L1' & L2' & L3').
  assert (forall s l, options_ok (ls_options s) -> NoDup l.*1 -> ls_inbound s = list_to_map l -> ls_order s = l.*1 ->
    (lenN (ls_order s) <= inbound_window (ls_options s))%N -> window_typed s -> list_valid entry_valid l) as Hv.
  { intros s0 l0 Ho0 Hn0 Hm0 Hor0 Hb0 Ht0. split.
    - apply Forall_forall. intros [id d] Hin. apply (Ht0 id d). rewrite Hm0. by apply elem_of_list_to_map_1.
    - rewrite Hor0 in Hb0. unfold lenN in *. rewrite length_fmap in Hb0. pose proof (oo_window _ Ho0).
      unfold MAX_WINDOW_ENTRIES, MAX_ITEMS in *. lia. }
  apply (encode_image s l b Ho L1 L2 L3) in E1 as (cb & _ & Eb & Z1 & Z2).
  apply (encode_image s' l' b Ho' L1' L2' L3') in E2 as (cb' & _ & Eb' & Z1' & Z2').
  pose proof (codec_hard s b Ho (conj Z1 Z2)) as Hh. rewrite Eb in Eb'.
  assert (bytes_valid cb /\ bytes_valid cb') as [V V'].
  { split; [apply (conference_bounded s l)|apply (conference_bounded s' l')]; congruence. }
  unfold state_image in Eb'. apply app_inj_1 in Eb' as [_ Eb']; [|by rewrite !head_image_len].
  apply (lawful_split (rd := reader_bytes)) in Eb' as [_ Eb']; [|done|done]. unfold tail_image in Eb'.
  apply (lawful_split (rd := reader_list read_entry)) in Eb' as [-> _]; [|by apply (Hv s l)|by apply (Hv s' l')].
  split; congruence.
Qed.
End determined.

(** ** Recovery *)

Section recovery.
Context {P : Primitives} {PO : PrimitivesOk P}.
Implicit Types (H : list bytes) (s : LogicalState).

(** The [i]-th committed payload decodes to [s]. *)
Definition holds_at (H : list bytes) (i : nat) (s : LogicalState) : Prop :=
  exists p, H !! i = Some p /\ decode p (N.of_nat (S i)) = Ok s.

Lemma holds_sequence H i s : holds_at H i s -> ls_sequence s = N.of_nat (S i).
Proof using PO. intros (p & _ & Hd). by apply decode_iff in Hd as (_ & ? & _). Qed.

Lemma holds_unique H i s s' : holds_at H i s -> holds_at H i s' -> s = s'.
Proof using Type. intros (p & Hp & Hd) (p' & Hp' & Hd'). congruence. Qed.

(** Decoded entries from the [k]-th on. *)
Definition decoded_from (H : list bytes) (k : nat) (wal : list (LogicalState * WalRecord)) : Prop :=
  forall j s r, wal !! j = Some (s, r) -> numbered H !! (k + j) = Some r /\ holds_at H (k + j) s.

Lemma advance_log H sn (s0 : nat) wal k q s :
  numbered H !! s0 = Some sn -> decoded_from H k wal -> holds_at H q s -> k <= S q ->
  exists s', advance_selected sn wal s = Ok s' /\ holds_at H (Nat.max q (k + length wal - 1)) s'.
Proof using PO.
  intros Hsn. revert k q s. induction wal as [|[t r] wal IH]; intros k q s Hwal Hq Hk; cbn [advance_selected length].
  - exists s. split; [done|]. by replace (Nat.max q (k + 0 - 1)) with q by lia.
  - destruct (Hwal 0 t r eq_refl) as [Hr Ht]. rewrite Nat.add_0_r in Hr, Ht.
    assert (decoded_from H (S k) wal) as Hwal'.
    { intros j s' r' Hj. specialize (Hwal (S j) s' r' Hj). by rewrite Nat.add_succ_r in Hwal. }
    rewrite (holds_sequence _ _ _ Hq), (holds_sequence _ _ _ Ht).
    destruct (N.ltb_spec (N.of_nat (S k)) (N.of_nat (S q))) as [Hlt|Hge].
    { destruct (IH (S k) q s Hwal' Hq ltac:(lia)) as (s' & -> & Hs'). exists s'. split; [done|].
      by replace (k + S (length wal) - 1) with (S k + length wal - 1) by lia. }
    destruct (N.eqb_spec (N.of_nat (S k)) (N.of_nat (S q))) as [Heq|Hne].
    + assert (k = q) as -> by lia. destruct (_ && _) eqn:Eb.
      { apply andb_true_iff in Eb as [E1%N.eqb_eq E2%bool_decide_eq_true]. exfalso. apply E2.
        rewrite numbered_lookup in Hsn, Hr. destruct (H !! s0) as [p0|] eqn:E0; [|done]. injection Hsn as <-.
        cbn [rec_sequence] in E1. assert (s0 = q) as -> by lia. rewrite E0 in Hr. by injection Hr as <-. }
      destruct (IH (S q) q s Hwal' Hq ltac:(lia)) as (s' & -> & Hs'). exists s'. split; [done|].
      by replace (q + S (length wal) - 1) with (S q + length wal - 1) by lia.
    + rewrite (proj2 (N.eqb_eq _ _)) by lia. cbn [negb].
      destruct (IH (S k) k t Hwal' Ht ltac:(lia)) as (s' & -> & Hs'). exists s'. split; [done|].
      assert (k = S q) as -> by lia.
      by replace (Nat.max q (S q + S (length wal) - 1)) with (Nat.max (S q) (S (S q) + length wal - 1)) by lia.
Qed.

Lemma decode_all_ok H k :
  (forall i, k <= i < length H -> exists s, holds_at H i s) ->
  exists wal, decode_all (log H k) = Ok wal /\ decoded_from H k wal /\ length wal = length H - k.
Proof using Type.
  intros Hall. remember (length H - k) as n eqn:En. revert k En Hall.
  induction n as [|n IH]; intros k En Hall.
  - exists []. unfold log. rewrite drop_ge by (rewrite numbered_length; lia). split_and!; [done| |done]. intros j s r Hj. done.
  - destruct (Hall k ltac:(lia)) as [s (p & Hp & Hd)].
    destruct (IH (S k)) as (wal & Hw & Hdec & Hlen); [lia|intros i Hi; apply Hall; lia|].
    assert (log H k = mkRecord (N.of_nat (S k)) p :: log H (S k)) as ->.
    { unfold log. apply (drop_S _ _ k). by rewrite numbered_lookup, Hp. }
    cbn [decode_all rec_payload rec_sequence]. rewrite Hd. cbn [mbind result_bind]. rewrite Hw. cbn [mbind result_bind].
    eexists. split_and!; [done| |simpl; lia]. intros [|j] t r Hj.
    + injection Hj as <- <-. rewrite Nat.add_0_r, numbered_lookup, Hp. split; [done|]. by exists p.
    + rewrite Nat.add_succ_r. by apply (Hdec j).
Qed.

Lemma recover_holds rcv H :
  recovers rcv H -> (forall i, i < length H -> exists s, holds_at H i s) ->
  exists s, recover rcv = Ok s /\ holds_at H (length H - 1) s.
Proof using PO.
  intros (s0 & k & r & -> & Hr & Hk & Hle) Hall. unfold recover. cbn [rcv_snapshot rcv_wal].
  assert (s0 < length H) as Hs0 by (apply lookup_lt_Some in Hr; by rewrite numbered_length in Hr).
  destruct (Hall s0 Hs0) as [s (p & Hp & Hd)]. pose proof Hr as Hr'. rewrite numbered_lookup, Hp in Hr'. injection Hr' as <-.
  cbn [rec_payload rec_sequence]. rewrite Hd. cbn [mbind result_bind].
  destruct (decode_all_ok H k) as (wal & -> & Hdec & Hlen); [intros i Hi; apply Hall; lia|]. cbn [mbind result_bind select_recovered].
  destruct (advance_log H _ s0 wal k s0 s Hr Hdec ltac:(by exists p) Hk) as (s' & E & Hs'). exists s'. split; [exact E|].
  by replace (length H - 1) with (Nat.max s0 (k + length wal - 1)) by lia.
Qed.

(** When the last entry does not decode, recovery reports it. *)
Lemma decode_all_err H k i :
  k <= i < length H -> (forall s, ~ holds_at H i s) -> exists e, decode_all (log H k) = Err e.
Proof using Type.
  intros Hi Hno. remember (i - k) as n eqn:En. revert k Hi En. induction n as [|n IH]; intros k Hi En.
  all: destruct (lookup_lt_is_Some_2 H k ltac:(lia)) as [p Hp].
  all: assert (log H k = mkRecord (N.of_nat (S k)) p :: log H (S k)) as ->
    by (unfold log; apply (drop_S _ _ k); by rewrite numbered_lookup, Hp).
  all: cbn [decode_all rec_payload rec_sequence]; destruct (decode p (N.of_nat (S k))) as [s|e] eqn:Ed; [|by exists e].
  - assert (k = i) as -> by lia. destruct (Hno s). by exists p.
  - cbn [mbind result_bind]. destruct (IH (S k)) as [e ->]; [lia|lia|]. by exists e.
Qed.

Lemma recover_refuses rcv H :
  recovers rcv H -> (forall s, ~ holds_at H (length H - 1) s) -> exists e, recover rcv = Err e.
Proof using PO.
  intros (s0 & k & r & -> & Hr & Hk & Hle) Hno. unfold recover. cbn [rcv_snapshot rcv_wal].
  assert (s0 < length H) as Hs0 by (apply lookup_lt_Some in Hr; by rewrite numbered_length in Hr).
  rewrite numbered_lookup in Hr. destruct (H !! s0) as [p|] eqn:Hp; [|done]. injection Hr as <-.
  cbn [rec_payload rec_sequence]. destruct (decide (k = length H)) as [->|Hne].
  - destruct (decode p (N.of_nat (S s0))) as [s|e] eqn:Ed.
    { destruct (Hno s). exists p. by replace (length H - 1) with s0 by lia. }
    rewrite log_all. destruct e; cbn; by eexists.
  - destruct (decode_all_err H k (length H - 1)) as [e He]; [lia|done|].
    destruct (decode p (N.of_nat (S s0))) as [s|e'] eqn:Ed.
    { cbn [mbind result_bind]. rewrite He. by eexists. }
    destruct e'; cbn [mbind result_bind]; rewrite ?He; by eexists.
Qed.
End recovery.

(** ** Properties *)

Section properties.
Context {P : Primitives} {PO : PrimitivesOk P}.

Lemma warm_export p : export_persistence_state (warm p) = export_persistence_state p.
Proof using Type. by destruct (warm_cases p) as [->| ->]. Qed.

Lemma restarted_export c : conf_export (restarted c) = conf_export c.
Proof using Type. unfold conf_export, restarted. cbn [c_core c_media]. by rewrite warm_export. Qed.

Lemma encode_same c s :
  conf_export c = conf_export (ls_conference s) -> encode (set_conference c s) = encode s.
Proof using Type. intros E. unfold encode. cbn [set_conference ls_conference]. by rewrite E. Qed.

Lemma restarted_statics c :
  conf_session_id (restarted c) = conf_session_id c /\ conf_identity (restarted c) = conf_identity c.
Proof using Type. unfold conf_session_id, conf_identity, restarted. cbn [c_core]. by rewrite warm_sid, warm_ipk. Qed.

Lemma decode_restarted s b :
  ls_ok s -> ls_typed s -> conf_inv (ls_conference s) -> storable (ls_conference s) ->
  bound (ls_conference s) = Ok tt -> encode s = Ok b ->
  decode b (ls_sequence s) = Ok (set_conference (restarted (ls_conference s)) s).
Proof using PO.
  intros Hs Ht Hc Hst Hb He. set (c := ls_conference s) in *. apply decode_iff.
  destruct (restarted_statics c) as [E1 E2].
  split_and!; [by rewrite encode_same by apply restarted_export|done|by apply ok_set_conference| |].
  - destruct Ht as [H1 H2 H3 H4]. by split.
  - cbn [set_conference ls_conference]. unfold reloads. rewrite restarted_export.
    destruct (conf_export c) as [cb|e] eqn:Ee; [|unfold encode in He; fold c in He; by rewrite Ee in He].
    exists cb. split; [done|]. rewrite (storable_import c cb Hc Hst Ee). by rewrite Hb.
Qed.

(** C21. The record format is exact: a record is accepted with a sequence number
    if and only if it is the encoding of a state with that number, within its
    own limits, whose identifiers, window and outbox satisfy the invariant, and
    whose conference is given back unchanged by its own import; and the encoding
    of a live state whose conference is sound and bound to its key decodes to
    that state, with only the conference's memos rebuilt. *)
Theorem state_codec_exact b n s :
  (decode b n = Ok s <->
   encode s = Ok b /\ ls_sequence s = n /\ ls_ok s /\ ls_typed s /\ reloads (ls_conference s)) /\
  (ls_ok s -> ls_typed s -> conf_inv (ls_conference s) -> storable (ls_conference s) ->
   bound (ls_conference s) = Ok tt -> encode s = Ok b ->
   decode b (ls_sequence s) = Ok (set_conference (restarted (ls_conference s)) s)).
Proof using PO. split; [apply decode_iff|apply decode_restarted]. Qed.

(** C22. Recovery selects the last committed state.  Given what opening the
    store returns for a history of payloads of which all but the last decode,
    recovery succeeds with a state if and only if the last one decodes to that
    state, wherever the snapshot and the start of the log happen to lie. *)
Theorem recovery_selects rcv H s :
  recovers rcv H -> (forall i, S i < length H -> exists t, holds_at H i t) ->
  recover rcv = Ok s <-> holds_at H (length H - 1) s.
Proof using PO.
  intros HR Hall.
  assert (0 < length H) as Hpos.
  { destruct HR as (s0 & k & r & _ & Hr & _). apply lookup_lt_Some in Hr. rewrite numbered_length in Hr. lia. }
  destruct (lookup_lt_is_Some_2 H (length H - 1) ltac:(lia)) as [p Hp].
  destruct (decode p (N.of_nat (S (length H - 1)))) as [t|e] eqn:Ed.
  - assert (holds_at H (length H - 1) t) as Ht by (by exists p).
    destruct (recover_holds rcv H HR) as (s' & -> & Hs').
    { intros i Hi. destruct (decide (i = length H - 1)) as [->|]; [by exists t|]. apply Hall. lia. }
    split; [by intros [= <-]|]. intros Hs. by rewrite (holds_unique _ _ _ _ Hs Hs').
  - assert (forall s, ~ holds_at H (length H - 1) s) as Hno.
    { intros s' (p' & Hp' & Hd'). rewrite Hp in Hp'. injection Hp' as <-. by rewrite Ed in Hd'. }
    destruct (recover_refuses rcv H HR Hno) as [e' ->]. split; [done|]. intros Hs. by destruct (Hno s).
Qed.
End properties.
