(* ===== verification/PConf.v ===== *)
(** * The persistent conference ([crates/cfr/src/persistence/mod.rs])

    Every call that changes the conference works on a candidate decoded from
    the current encoding, appends the candidate's encoding to the store, and
    only then makes the candidate the live state.  The theorems say that a call
    is all or nothing, in memory and on the disk, that inbound messages are
    processed once, and that opening returns the last committed state. *)

From Stdlib Require Import NArith Lia.
From S2P Require Import Prelude Crypto Toy Codec Ops Membership Layout Frame Checkpoint Wire Member MemberInv MemberProps State Conference Persist Store Crash Durable LState.

Record PersistentConference := mkPC { pc_state : LogicalState; pc_store : Store }.

(** The conference, the file system and the entropy left. *)
Record PEnv := mkPEnv { pe_pc : PersistentConference; pe_world : World; pe_tape : Tape }.

Abbreviation pe_state e := (pc_state (pe_pc e)).
Definition with_state (s : LogicalState) (e : PEnv) : PEnv :=
  mkPEnv (mkPC s (pc_store (pe_pc e))) (pe_world e) (pe_tape e).
Definition with_tape (t : Tape) (e : PEnv) : PEnv := mkPEnv (pe_pc e) (pe_world e) t.

(** A candidate state and the entropy left to the operation on it. *)
Record LEnv := mkLEnv { le_state : LogicalState; le_tape : Tape }.

Abbreviation Mk := (M PEnv Stop).
Abbreviation Mo := (M LEnv PError).

Definition pure_k {A} (r : result PError A) : Mk A := lift (map_err Fail r).

Definition in_store {A} (m : M SW Stop A) : Mk A := fun e =>
  let '(r, s) := m (mkSW (pc_store (pe_pc e)) (pe_world e)) in
  (r, mkPEnv (mkPC (pe_state e) (sw_store s)) (sw_world s) (pe_tape e)).

(** Running an operation on a candidate that is not yet the live state. *)
Definition on_candidate {A} (op : Mo A) (candidate : LogicalState) : Mk (A * LogicalState) := fun e =>
  let '(r, l) := op (mkLEnv candidate (pe_tape e)) in
  (match r with Ok a => Ok (a, le_state l) | Err x => Err (Fail x) end, with_tape (le_tape l) e).

Section operations.
Context {P : Primitives}.

(** [operation(&mut candidate.conference)?] *)
Definition on_conference {A} (m : Mc A) : Mo A := fun l =>
  let '(r, c) := m (mkCEnv (ls_conference (le_state l)) (le_tape l)) in
  (map_err PProtocol r, mkLEnv (set_conference (ce_c c) (le_state l)) (ce_tape c)).

Definition on_logical {A} (m : Ml A) : Mo A := fun l =>
  let '(r, s) := m (le_state l) in (r, mkLEnv s (le_tape l)).

Definition commit_candidate {R} (operation : Mo R) : Mk R :=
  s ← gets (fun e => pe_state e);
  current_payload ← pure_k (encode s);
  candidate ← pure_k (decode current_payload (ls_sequence s));
  r ← on_candidate operation candidate;
  let '(result, candidate) := r in
  n ← pure_k (ok_or (checked_add64 (ls_sequence candidate) 1) (PLimitExceeded "transaction sequence exhausted"));
  let candidate := set_sequence n candidate in
  candidate_payload ← pure_k (encode candidate);
  _ ← in_store (store_append (ls_sequence s) current_payload (ls_sequence candidate) candidate_payload
                  (ls_options candidate));
  _ ← modify (with_state candidate);
  mret result.

Definition conference_change {R} (operation : Mc (R * list CMessage)) : Mo (R * list OutboundId) :=
  r ← on_conference operation;
  let '(result, messages) := r in
  deliveries ← on_logical (enqueue messages);
  mret (result, deliveries).

Definition mutate_conference {R} (operation : Mc (R * list CMessage)) : Mk (R * list OutboundId) :=
  commit_candidate (conference_change operation).

(** ** Creating and opening *)

(** Calls before there is a conference: the file system and entropy. *)
Definition create_from_conference (conference : Conference) (messages : list CMessage) (o : PersistenceOptions)
    : Io PersistentConference :=
  state ← pure_io (logical_new conference messages o);
  payload ← pure_io (encode state);
  store ← store_create (ls_sequence state) payload;
  mret (mkPC state store).

Definition found_with (t : Tape) (m : M Tape ConfError (Conference * list CMessage)) (o : PersistenceOptions)
    : Io PersistentConference :=
  o ← pure_io (options_validate o);
  r ← pure_io (map_err PProtocol (m t).1);
  let '(conference, messages) := r in
  create_from_conference conference messages o.

Definition create_with_options (policy : Policy) (o : PersistenceOptions) (t : Tape) : Io PersistentConference :=
  found_with t (conf_create policy) o.
Definition pc_create (policy : Policy) (t : Tape) : Io PersistentConference :=
  create_with_options policy options_default t.

Definition join_with_options (joining : PendingJoin) (welcome : bytes) (o : PersistenceOptions) (t : Tape)
    : Io PersistentConference := found_with t (joining_accept joining welcome) o.
Definition pc_join (joining : PendingJoin) (welcome : bytes) (t : Tape) : Io PersistentConference :=
  join_with_options joining welcome options_default t.

(** [store.validate_runtime_limits(..)], which takes [&self]. *)
Definition check_limits (store : Store) (o : PersistenceOptions) : Io unit := fun w =>
  let '(r, s) := validate_runtime_limits o (mkSW store w) in (r, sw_world s).

(** The store is dropped, and its lock with it, when recovery fails. *)
Definition pc_open : Io PersistentConference :=
  r ← store_open;
  let '(store, recovery) := r in
  holding_lock (
    state ← pure_io (recover recovery);
    _ ← check_limits store (ls_options state);
    mret (mkPC state store)).

(** ** State *)

(** A call that takes [&self]: the conference may fill its memo. *)
Definition observe {A} (m : Mc A) : Mk A := fun e =>
  let '(r, c) := m (mkCEnv (ls_conference (pe_state e)) (pe_tape e)) in
  (map_err (fun x => Fail (PProtocol x)) r, with_tape (ce_tape c) (with_state (set_conference (ce_c c) (pe_state e)) e)).

Definition pc_identity (p : PersistentConference) : SigPublic := conf_identity (ls_conference (pc_state p)).
Definition pc_session_id (p : PersistentConference) : SessionId := conf_session_id (ls_conference (pc_state p)).
Definition pc_members : Mk (gset SigPublic) := observe conf_members.
Definition pc_version : Mk bytes := observe conf_version.
Definition pc_sequence (p : PersistentConference) : N := ls_sequence (pc_state p).
Definition pc_options (p : PersistentConference) : PersistenceOptions := ls_options (pc_state p).
Definition pc_ready : Mk bool := observe conf_ready.
Definition pc_needs_repair : Mk bool := observe conf_needs_repair.
Definition pc_history_len (p : PersistentConference) : N := conf_history_len (ls_conference (pc_state p)).
Definition pc_state_bytes (p : PersistentConference) : N := conf_state_bytes (ls_conference (pc_state p)).
Definition pc_reinitialization_recommended (p : PersistentConference) : bool :=
  conf_reinitialization_recommended (ls_conference (pc_state p)).
Definition pc_prepare_checkpoint (next : SessionId) (epoch : N) (profile : ProtocolProfile) : Mk ResumptionRecord :=
  observe (conf_prepare_checkpoint next epoch profile).
Definition pc_approve_checkpoint (record : ResumptionRecord) : Mk CheckpointSignature :=
  observe (conf_approve_checkpoint record).
Definition pc_beacon : Mk bytes := observe conf_beacon.
Definition pc_check_beacon (peer : SigPublic) (b : bytes) (p : PersistentConference) : Beacon :=
  conf_check_beacon peer b (ls_conference (pc_state p)).
Definition pc_inspect (packet : bytes) : result PError Trailer := map_err PProtocol (conf_inspect packet).
Definition pc_pending (p : PersistentConference) : list PendingDelivery := pending_deliveries (pc_state p).

(** ** Transactions *)

Definition pc_offer_checkpoint (certificate : CheckpointCertificate) : Mk (list OutboundId) :=
  r ← mutate_conference (m ← conf_offer_checkpoint certificate; mret (tt, [m])); mret r.2.
Definition pc_invite (kp : KeyPackage) : Mk (list OutboundId) :=
  r ← mutate_conference (ms ← conf_invite kp; mret (tt, ms)); mret r.2.
Definition pc_evict (who : SigPublic) : Mk (list OutboundId) :=
  r ← mutate_conference (ms ← conf_evict who; mret (tt, ms)); mret r.2.
Definition pc_leave : Mk (list OutboundId) :=
  r ← mutate_conference (m ← conf_leave; mret (tt, [m])); mret r.2.
Definition pc_rekey : Mk (list OutboundId) :=
  r ← mutate_conference (ms ← conf_rekey; mret (tt, ms)); mret r.2.
Definition pc_heal : Mk (list OutboundId) :=
  r ← mutate_conference (ms ← conf_heal; mret (tt, ms)); mret r.2.
Definition pc_tick : Mk unit :=
  r ← mutate_conference (_ ← conf_tick; mret (tt, [])); mret r.1.
Definition pc_resync : Mk (list OutboundId) :=
  r ← mutate_conference (ms ← conf_resync; mret (tt, ms)); mret r.2.
Definition pc_protect (codec : Codec) (frame : bytes) (keyframe : bool) : Mk bytes :=
  r ← mutate_conference (b ← conf_protect codec frame keyframe; mret (b, [])); mret r.1.
Definition pc_open_media (packet : bytes) : Mk (SigPublic * bytes) :=
  r ← mutate_conference (o ← conf_open packet; mret (o, [])); mret r.1.

(** The operation of [handle_inbound] on the candidate. *)
Definition inbound_change (id : InboundId) (digest payload : bytes) : Mo InboundResult :=
  r ← on_conference (conf_handle payload);
  let '(events, messages) := r in
  deliveries ← on_logical (enqueue messages);
  _ ← modify (fun l => mkLEnv (record_inbound id digest (le_state l)) (le_tape l));
  mret (mkInbound false events deliveries).

Definition handle_inbound (id : InboundId) (payload : bytes) : Mk InboundResult :=
  let digest := inbound_digest payload in
  s ← gets (fun e => pe_state e);
  match ls_inbound s !! id with
  | Some committed =>
      if bool_decide (committed = digest) then mret (mkInbound true [] [])
      else fail (Fail (PIdempotencyConflict id))
  | None => commit_candidate (inbound_change id digest payload)
  end.

(** The operation of [acknowledge] on the candidate. *)
Definition acknowledge_change (id : OutboundId) : Mo bool := fun l =>
  let s := le_state l in
  (Ok (bool_decide (is_Some (ls_outbox s !! id))),
   mkLEnv (set_outbox (delete id (ls_outbox s)) (ls_next s) s) (le_tape l)).

Definition acknowledge (id : OutboundId) : Mk bool :=
  s ← gets (fun e => pe_state e);
  if negb (bool_decide (is_Some (ls_outbox s !! id))) then mret false
  else commit_candidate (acknowledge_change id).

Definition pc_checkpoint : Mk unit :=
  s ← gets (fun e => pe_state e);
  payload ← pure_k (encode s);
  in_store (store_checkpoint (ls_sequence s) payload).
End operations.

(** ** Transactions are atomic *)

Section atomic.
Context {P : Primitives} {cap : WalCap} {PO : PrimitivesOk P}.
Implicit Types (e : PEnv) (H : list bytes) (s : LogicalState).

(** The live state is the last committed entry, and every earlier entry can be
    read back. *)
Record pc_inv (e : PEnv) (H : list bytes) : Prop := {
  pi_store : store_inv (pe_world e) (pc_store (pe_pc e)) H;
  pi_last : exists b, last H = Some b /\ encode (pe_state e) = Ok b;
  pi_sequence : ls_sequence (pe_state e) = N.of_nat (length H);
  pi_past i : S i < length H -> exists s, holds_at H i s;
  pi_options : options_fit (ls_options (pe_state e));
  pi_window : window_ok (pe_state e);
  pi_typed : window_typed (pe_state e);
}.

(** Operations leave the sequence number and the limits alone and keep the
    window of inbound identifiers in order. *)
Record proper {A} (op : Mo A) (l : LEnv) : Prop := {
  pr_sequence : ls_sequence (le_state (op l).2) = ls_sequence (le_state l);
  pr_options : ls_options (le_state (op l).2) = ls_options (le_state l);
  pr_window : window_ok (le_state l) -> window_ok (le_state (op l).2);
  pr_typed : window_typed (le_state l) -> window_typed (le_state (op l).2);
}.

(** The world after a call that failed. *)
Definition stopped (e e' : PEnv) (H : list bytes) : Prop :=
  pe_state e' = pe_state e /\ (exists p, interrupted (pe_world e') H p) /\
  (w_script (pe_world e) = [] -> pc_inv e' H).

Lemma inv_tape e H t : pc_inv e H -> pc_inv (with_tape t e) H.
Proof using Type. intros [H1 H2 H3 H4 H5 H6 H7]. by split. Qed.

Lemma stopped_tape e H t : pc_inv e H -> stopped e (with_tape t e) H.
Proof using Type.
  intros Hi. split; [done|]. split; [|intros _; by apply inv_tape]. exists []. apply exact_interrupted, Hi.
Qed.

Lemma last_snoc_lookup H b : last H = Some b -> H !! (length H - 1) = Some b /\ 0 < length H.
Proof using Type.
  intros Hb. rewrite last_lookup in Hb. replace (length H - 1) with (pred (length H)) by lia.
  split; [done|]. destruct H; [done|simpl; lia].
Qed.

Lemma candidate_holds e H b s :
  pc_inv e H -> last H = Some b -> decode b (ls_sequence (pe_state e)) = Ok s -> holds_at H (length H - 1) s.
Proof using Type.
  intros Hi Hb Hd. destruct (last_snoc_lookup H b Hb) as [Hl Hpos]. exists b. split; [done|].
  rewrite (pi_sequence e H Hi) in Hd. by replace (S (length H - 1)) with (length H) by lia.
Qed.

(** Appending the candidate: what becomes of the store. *)
Lemma append_candidate e H cur b s0 :
  pc_inv e H -> last H = Some cur -> holds_at H (length H - 1) s0 -> encode s0 = Ok cur ->
  forall s n, ls_options s = ls_options (pe_state e) -> ls_sequence s = N.of_nat (S (length H)) -> encode s = Ok b ->
  window_ok s -> window_typed s -> n = N.of_nat (length H) ->
  let '(r, e') := in_store (store_append n cur (ls_sequence s) b (ls_options s)) e in
  match r with
  | Ok _ => pc_inv (with_state s e') (H ++ [b]) /\ pe_tape e' = pe_tape e
  | Err _ => stopped e e' H /\ interrupted (pe_world e') H b
  end.
Proof using PO.
  intros Hi Hcur Hh He0 s n Ho Hs Hb Hw Hty ->. destruct Hi as [Hst Hlast Hseq Hpast Hopt Hwin Htyp]. rewrite Ho, Hs.
  pose proof (append_result _ _ H cur b _ Hst Hopt Hcur) as Hres.
  pose proof (append_quiet _ _ H cur b _ Hst Hopt Hcur) as Hq. unfold append_next in *. unfold in_store.
  destruct (store_append _ _ _ _ _ _) as [[[]|x] sw].
  - split; [|done]. split; cbn [with_state pe_pc pe_world pc_store pc_state].
    + apply Hres.
    + exists b. split; [by rewrite last_snoc|done].
    + by rewrite Hs, length_app, Nat.add_1_r.
    + intros i Hi'. rewrite length_app in Hi'. cbn [length] in Hi'.
      assert (forall i s, i < length H -> holds_at H i s -> holds_at (H ++ [b]) i s) as Hext.
      { intros j t Hj (p & Hp & Hd). exists p. split; [|done]. by apply lookup_app_l_Some. }
      destruct (decide (i = length H - 1)) as [->|].
      * exists s0. apply Hext; [lia|done].
      * destruct (Hpast i ltac:(lia)) as [t Ht]. exists t. apply Hext; [lia|done].
    + by rewrite Ho.
    + done.
    + done.
  - split; [|apply Hres]. split; [done|]. split; [exists b; apply Hres|]. intros Hsc. destruct (Hq Hsc) as [_ Hinv].
    by split; cbn [pe_pc pe_world pc_store pc_state].
Qed.

(** What a commit that fails can leave: nothing, or the start of the candidate's
    record. *)
Definition cut_short {R} (op : Mo R) e H (w : World) : Prop :=
  disk_ok w H Exact \/
  exists s0 s1 t a b, holds_at H (length H - 1) s0 /\ ls_inbound s0 = ls_inbound (pe_state e) /\
    ls_order s0 = ls_order (pe_state e) /\ op (mkLEnv s0 (pe_tape e)) = (Ok a, mkLEnv s1 t) /\
    encode (set_sequence (N.of_nat (S (length H))) s1) = Ok b /\ interrupted w H b.

Lemma commit_spec {R} (op : Mo R) e H :
  pc_inv e H ->
  (forall s0 t, holds_at H (length H - 1) s0 -> ls_inbound s0 = ls_inbound (pe_state e) ->
     ls_order s0 = ls_order (pe_state e) -> proper op (mkLEnv s0 t)) ->
  let '(r, e') := commit_candidate op e in
  match r with
  | Ok a => exists s0 s1 t b, holds_at H (length H - 1) s0 /\ ls_inbound s0 = ls_inbound (pe_state e) /\ op (mkLEnv s0 (pe_tape e)) = (Ok a, mkLEnv s1 t) /\
      pe_state e' = set_sequence (N.of_nat (S (length H))) s1 /\ encode (pe_state e') = Ok b /\
      pe_tape e' = t /\ pc_inv e' (H ++ [b])
  | Err _ => stopped e e' H /\ cut_short op e H (pe_world e')
  end.
Proof using PO.
  intros Hi Hop. destruct (pi_last e H Hi) as (cur & Hcur & Henc).
  assert (forall t, stopped e (with_tape t e) H /\ cut_short op e H (pe_world (with_tape t e))) as Hsame.
  { intros t. split; [by apply stopped_tape|]. left. apply Hi. }
  unfold commit_candidate. erewrite bind_ok by reflexivity. cbn beta. rewrite Henc. erewrite bind_ok by reflexivity.
  destruct (decode cur (ls_sequence (pe_state e))) as [s0|x] eqn:Ed; [|by destruct e; apply (Hsame pe_tape0)].
  pose proof (candidate_holds e H cur s0 Hi Hcur Ed) as Hh.
  pose proof Ed as Hdec. apply decode_iff in Hdec as (He0 & Hs0 & Hok0 & Hty0 & _).
  destruct (encode_window s0 (pe_state e) cur (lo_options _ Hok0) (proj1 (pi_options e H Hi)) (ok_window _ Hok0)
    (pi_window e H Hi) (lt_inbound _ Hty0) (pi_typed e H Hi) He0 Henc) as [Ein Eor].
  specialize (Hop s0 (pe_tape e) Hh Ein Eor).
  erewrite bind_ok by reflexivity.
  destruct (op (mkLEnv s0 (pe_tape e))) as [r l] eqn:Eop.
  destruct Hop as [P1 P2 P3 P4]. rewrite Eop in P1, P2, P3, P4. cbn [snd le_state] in P1, P2, P3, P4.
  destruct r as [a|x].
  2: { erewrite bind_err by (unfold on_candidate; rewrite Eop; reflexivity). apply Hsame. }
  erewrite bind_ok by (unfold on_candidate; rewrite Eop; reflexivity). cbn beta iota.
  set (e1 := with_tape (le_tape l) e). assert (pc_inv e1 H) as Hi1 by (by apply inv_tape).
  rewrite P1, Hs0, (pi_sequence e H Hi). unfold checked_add64.
  destruct (N.ltb_spec (N.of_nat (length H) + 1) two64) as [Hlt|]; [|apply Hsame].
  erewrite bind_ok by reflexivity. cbn zeta.
  replace (N.of_nat (length H) + 1)%N with (N.of_nat (S (length H))) by lia.
  set (s2 := set_sequence (N.of_nat (S (length H))) (le_state l)).
  destruct (encode s2) as [b|x] eqn:Eb; [|apply Hsame]. erewrite bind_ok by reflexivity.
  assert (ls_options s2 = ls_options (pe_state e1)) as Ho.
  { change (ls_options (le_state l) = ls_options (pe_state e)). rewrite P2.
    apply (encode_options s0 (pe_state e) cur); [apply (lo_options _ Hok0)|apply (pi_options e H Hi)|done|done]. }
  pose proof (append_candidate e1 H cur b s0 Hi1 Hcur Hh He0 s2 (N.of_nat (length H)) Ho eq_refl Eb) as Happ.
  specialize (Happ ltac:(destruct (P3 (ok_window _ Hok0)); by split) (P4 (lt_inbound _ Hty0)) eq_refl).
  change (N.of_nat (S (length H))) with (ls_sequence s2) at 1.
  destruct (in_store _ e1) as [[[]|x] e2] eqn:Est.
  - erewrite bind_ok by exact Est. erewrite bind_ok by reflexivity. destruct Happ as [Hnew Ht].
    exists s0, (le_state l), (le_tape l), b. split_and!; try done. by destruct l.
  - erewrite bind_err by exact Est. destruct Happ as ((A1 & A2 & A3) & A4). split; [by split_and!|]. right.
    exists s0, (le_state l), (le_tape l), a, b. split_and!; try done. by destruct l.
Qed.
End atomic.

(** ** The calls *)

Inductive PCall :=
| PInvite (kp : KeyPackage)
| PEvict (who : SigPublic)
| PLeave
| PRekey
| PHeal
| PTick
| PResync
| PProtect (codec : Codec) (frame : bytes) (keyframe : bool)
| POpenMedia (packet : bytes)
| POffer (certificate : CheckpointCertificate)
| PHandle (id : InboundId) (payload : bytes)
| PAcknowledge (id : OutboundId)
| PCheckpoint
| PMembers
| PVersion
| PReady
| PNeedsRepair
| PPrepare (next : SessionId) (epoch : N) (profile : ProtocolProfile)
| PApprove (record : ResumptionRecord)
| PBeacon.

Definition pignore {A} (m : Mk A) : Mk unit := _ ← m; mret tt.

Section calls.
Context {P : Primitives} {cap : WalCap} {PO : PrimitivesOk P}.
Implicit Types (e : PEnv) (H : list bytes) (s : LogicalState).

Definition run_pc (call : PCall) : Mk unit :=
  match call with
  | PInvite kp => pignore (pc_invite kp)
  | PEvict who => pignore (pc_evict who)
  | PLeave => pignore pc_leave
  | PRekey => pignore pc_rekey
  | PHeal => pignore pc_heal
  | PTick => pc_tick
  | PResync => pignore pc_resync
  | PProtect codec frame keyframe => pignore (pc_protect codec frame keyframe)
  | POpenMedia packet => pignore (pc_open_media packet)
  | POffer certificate => pignore (pc_offer_checkpoint certificate)
  | PHandle id payload => pignore (handle_inbound id payload)
  | PAcknowledge id => pignore (acknowledge id)
  | PCheckpoint => pc_checkpoint
  | PMembers => pignore pc_members
  | PVersion => pignore pc_version
  | PReady => pignore pc_ready
  | PNeedsRepair => pignore pc_needs_repair
  | PPrepare next epoch profile => pignore (pc_prepare_checkpoint next epoch profile)
  | PApprove record => pignore (pc_approve_checkpoint record)
  | PBeacon => pignore pc_beacon
  end.

(** Calls that only read the conference, through its memo. *)
Definition observes (call : PCall) : bool :=
  match call with
  | PMembers | PVersion | PReady | PNeedsRepair | PPrepare _ _ _ | PApprove _ | PBeacon => true
  | _ => false
  end.

(** *** Proper operations *)

Lemma proper_bind {A B} (m : Mo A) (f : A -> Mo B) l :
  proper m l -> (forall a l1, m l = (Ok a, l1) -> proper (f a) l1) -> proper (m ≫= f) l.
Proof using Type.
  intros [M1 M2 M3 M4] Hf. destruct (m l) as [[a|x] l1] eqn:E; cbn [snd] in *.
  - destruct (Hf a l1 eq_refl) as [F1 F2 F3 F4].
    split; rewrite (bind_ok m f l a l1 E); [congruence|congruence|auto|auto].
  - by split; rewrite (bind_err m f l x l1 E).
Qed.

Lemma proper_ret {A} (a : A) l : proper (mret a) l.
Proof using Type. by split. Qed.

(** The window does not depend on the conference or the outbox. *)
Lemma proper_conference {A} (m : Mc A) l : proper (on_conference m) l.
Proof using Type.
  split; unfold on_conference; destruct (m _) as [r c]; cbn [snd le_state]; try done.
  intros [H1 H2 H3 H4]. by split.
Qed.

Lemma enqueue_state ms s : exists m n, (enqueue ms s).2 = set_outbox m n s.
Proof using Type.
  assert (exists m n, s = set_outbox m n s) as Hs by (exists (ls_outbox s), (ls_next s); by destruct s).
  unfold enqueue. destruct (_ <? _)%N; [done|]. destruct (_ <? _)%N; [done|].
  destruct (checked_add64 _ _); [|done]. rewrite enqueue_all_spec. by do 2 eexists.
Qed.

Lemma proper_enqueue ms l : proper (on_logical (enqueue ms)) l.
Proof using Type.
  destruct (enqueue_state ms (le_state l)) as (m & n & E).
  split; unfold on_logical; destruct (enqueue ms (le_state l)) as [r s]; cbn [snd le_state] in *; subst s; try done.
  intros [H1 H2 H3 H4]. by split.
Qed.

Lemma proper_change {R} (m : Mc (R * list CMessage)) l : proper (conference_change m) l.
Proof using Type.
  apply proper_bind; [apply proper_conference|intros [r ms] l1 _].
  apply proper_bind; [apply proper_enqueue|intros ids l2 _; apply proper_ret].
Qed.

(** Neither of them touches the window. *)
Lemma conference_inbound {A} (m : Mc A) l : ls_inbound (le_state (on_conference m l).2) = ls_inbound (le_state l).
Proof using Type. unfold on_conference. by destruct (m _). Qed.
Lemma enqueue_inbound ms l : ls_inbound (le_state (on_logical (enqueue ms) l).2) = ls_inbound (le_state l).
Proof using Type.
  destruct (enqueue_state ms (le_state l)) as (m & n & E). unfold on_logical.
  destruct (enqueue ms (le_state l)) as [r s]. cbn [snd le_state] in *. by subst s.
Qed.

Lemma record_typed id digest s :
  window_ok s -> ls_inbound s !! id = None -> len32 id -> len32 digest ->
  window_typed s -> window_typed (record_inbound id digest s).
Proof using Type.
  intros Hw Hid Hl Hd Ht k d Hk. destruct (record_inbound_spec id digest s Hw Hid) as (_ & E1 & _ & E2 & _).
  destruct (decide (k = id)) as [->|Hne]; [rewrite E1 in Hk; by injection Hk as <-|].
  rewrite (E2 k Hne) in Hk. destruct (decide _); [by apply (Ht k)|done].
Qed.

Lemma proper_inbound id payload l :
  len32 id -> window_ok (le_state l) -> ls_inbound (le_state l) !! id = None ->
  proper (inbound_change id (inbound_digest payload) payload) l.
Proof using PO.
  intros Hlen Hw Hid. apply proper_bind; [apply proper_conference|intros [events ms] l1 E1].
  pose proof (conference_inbound (conf_handle payload) l) as I1. rewrite E1 in I1. cbn [snd] in I1.
  pose proof (pr_window _ _ (proper_conference (conf_handle payload) l) Hw) as W1. rewrite E1 in W1. cbn [snd] in W1.
  apply proper_bind; [apply proper_enqueue|intros ids l2 E2].
  pose proof (enqueue_inbound ms l1) as I2. rewrite E2 in I2. cbn [snd] in I2.
  pose proof (pr_window _ _ (proper_enqueue ms l1) W1) as W2. rewrite E2 in W2. cbn [snd] in W2.
  assert (ls_inbound (le_state l2) !! id = None) as Hid2 by congruence.
  apply proper_bind; [|intros [] l3 _; apply proper_ret].
  destruct (record_inbound_spec id (inbound_digest payload) (le_state l2) W2 Hid2) as (R1 & _ & _ & _ & R5).
  split; cbn [modify snd le_state]; [by rewrite R5|by rewrite R5|done|].
  apply record_typed; try done. apply hash_length.
Qed.

Lemma proper_acknowledge id l : proper (acknowledge_change id) l.
Proof using Type. split; try done. intros [H1 H2 H3 H4]. by split. Qed.

(** *** Observers *)

Definition memo {A} (m : Mp A) : Prop := forall e : Env, e_p (m e).2 = e_p e \/ e_p (m e).2 = warm (e_p e).

Lemma memo_bind {A B} (m : Mp A) (f : A -> Mp B) : memo m -> (forall a, memo (f a)) -> memo (m ≫= f).
Proof using Type.
  intros Hm Hf e. unfold mbind, M_bind. specialize (Hm e). destruct (m e) as [[a|x] e1]; [|done]. cbn [snd] in *.
  destruct (Hf a e1) as [->| ->]; [done|]. right. destruct Hm as [->| ->]; [done|apply warm_warm].
Qed.
Lemma memo_ret {A} (a : A) : memo (mret a).
Proof using Type. intros e. by left. Qed.
Lemma memo_ask {A} (f : Participant -> A) : memo (ask f).
Proof using Type. intros e. by left. Qed.
Lemma memo_derived : memo derived.
Proof using Type. intros e. right. unfold derived. fold (warm (e_p e)). by destruct (p_derived (warm (e_p e))). Qed.
Lemma memo_lift {A} (r : result Error A) : memo (lift r).
Proof using Type. intros e. by left. Qed.

Ltac memo_tac :=
  repeat first [apply memo_bind; [|intros ?]|apply memo_ret|apply memo_ask|apply memo_derived|apply memo_lift
               |progress unfold p_members, p_version, p_frontier, p_group_key, can_derive, needs_repair, beacon,
                  prepare_checkpoint, approve_checkpoint, validate_checkpoint_record].

Lemma memo_members : memo p_members. Proof using Type. memo_tac. Qed.
Lemma memo_version : memo p_version. Proof using Type. memo_tac. Qed.
Lemma memo_can_derive : memo can_derive. Proof using Type. memo_tac. Qed.
Lemma memo_needs_repair : memo needs_repair. Proof using Type. memo_tac. Qed.
Lemma memo_beacon : memo beacon. Proof using Type. memo_tac. Qed.
Lemma memo_prepare next epoch profile : memo (prepare_checkpoint next epoch profile).
Proof using Type. memo_tac. Qed.
Lemma memo_approve record : memo (approve_checkpoint record).
Proof using Type. memo_tac. destruct (decide _); intros e'; by left. Qed.

(** The memo is not part of what is stored. *)
Lemma observe_state {A} (m : Mp A) e :
  memo m -> let e' := (observe (on_core m) e).2 in
  pe_world e' = pe_world e /\ pc_store (pe_pc e') = pc_store (pe_pc e) /\
  encode (pe_state e') = encode (pe_state e) /\ ls_sequence (pe_state e') = ls_sequence (pe_state e) /\
  ls_options (pe_state e') = ls_options (pe_state e) /\ ls_inbound (pe_state e') = ls_inbound (pe_state e) /\
  ls_order (pe_state e') = ls_order (pe_state e).
Proof using Type.
  intros Hm. unfold observe, on_core. cbn [ce_c ce_tape].
  specialize (Hm (mkEnv (c_core (ls_conference (pe_state e))) (pe_tape e))). destruct (m _) as [r e1]. cbn [snd e_p] in Hm.
  cbn [snd with_tape with_state pe_world pe_pc pc_store pc_state set_conference ls_sequence ls_options ls_inbound ls_order ce_c].
  split_and!; try done. apply encode_same. unfold conf_export. cbn [c_core c_media].
  destruct Hm as [->| ->]; [done|]. by rewrite warm_export.
Qed.

Lemma observe_inv {A} (m : Mp A) e H : memo m -> pc_inv e H -> pc_inv (observe (on_core m) e).2 H.
Proof using Type.
  intros Hm [H1 H2 H3 H4 H5 H6 H7]. destruct (observe_state m e Hm) as (E1 & E2 & E3 & E4 & E5 & E6 & E7).
  split; rewrite ?E1, ?E2, ?E3, ?E4, ?E5; try done.
  - destruct H6 as [W1 W2 W3 W4]. split; rewrite ?E5, ?E6, ?E7; done.
  - intros id d. rewrite E6. apply H7.
Qed.

(** *** What a call leaves *)

(** All or nothing: one more entry, or the state as it was. *)
Definition settles (call : PCall) (e e' : PEnv) (r : result Stop unit) (H : list bytes) : Prop :=
  match r with
  | Ok _ => pc_inv e' H \/ exists b, pc_inv e' (H ++ [b])
  | Err _ => (observes call = false -> pe_state e' = pe_state e) /\
      (exists p, interrupted (pe_world e') H p) /\ (w_script (pe_world e) = [] -> pc_inv e' H)
  end.

Definition settled_by {A} (m : Mk A) : Prop := forall e H, pc_inv e H ->
  match m e with
  | (Ok _, e') => pc_inv e' H \/ exists b, pc_inv e' (H ++ [b])
  | (Err _, e') => stopped e e' H
  end.

Lemma settled_map {A B} (m : Mk A) (f : A -> B) : settled_by m -> settled_by (a ← m; mret (f a)).
Proof using Type.
  intros Hm e H Hi. specialize (Hm e H Hi). unfold mbind, M_bind. by destruct (m e) as [[a|x] e'].
Qed.

Lemma settled_commit {R} (op : Mo R) : (forall l, proper op l) -> settled_by (commit_candidate op).
Proof using PO.
  intros Hop e H Hi. pose proof (commit_spec op e H Hi (fun s0 t _ _ _ => Hop (mkLEnv s0 t))) as Hc. destruct (commit_candidate op e) as [[a|x] e']; [|apply Hc].
  right. destruct Hc as (s0 & s1 & t & b & _ & _ & _ & _ & _ & _ & Hn). by exists b.
Qed.

Lemma settled_mutate {R A} (m : Mc (R * list CMessage)) (f : R * list OutboundId -> A) :
  settled_by (r ← mutate_conference m; mret (f r)).
Proof using PO. apply settled_map, settled_commit. intros l. apply proper_change. Qed.

Lemma stopped_same e H : pc_inv e H -> stopped e e H.
Proof using Type. intros Hi. pose proof (stopped_tape e H (pe_tape e) Hi) as Hst. by destruct e. Qed.

Lemma inbound_proper id payload e H :
  pc_inv e H -> len32 id -> ls_inbound (pe_state e) !! id = None ->
  forall s0 t, holds_at H (length H - 1) s0 -> ls_inbound s0 = ls_inbound (pe_state e) ->
    ls_order s0 = ls_order (pe_state e) -> proper (inbound_change id (inbound_digest payload) payload) (mkLEnv s0 t).
Proof using PO.
  intros Hi Hl Hn s0 t (p & _ & Hd) Ein Eor. apply decode_iff in Hd as (_ & _ & Hok & _).
  apply proper_inbound; cbn [le_state]; [done|by apply ok_window|congruence].
Qed.

Lemma settled_inbound id payload : len32 id -> settled_by (handle_inbound id payload).
Proof using PO.
  intros Hl e H Hi. unfold handle_inbound. cbn zeta. unfold gets at 1. unfold mbind at 1, M_bind at 1. cbn beta iota.
  destruct (ls_inbound (pe_state e) !! id) as [d|] eqn:Ed.
  - destruct (bool_decide _); [by left|by apply stopped_same].
  - pose proof (commit_spec _ e H Hi (inbound_proper id payload e H Hi Hl Ed)) as Hc.
    destruct (commit_candidate _ e) as [[a|x] e']; [|apply Hc]. right.
    destruct Hc as (s0 & s1 & t & b & _ & _ & _ & _ & _ & _ & Hn). by exists b.
Qed.

Lemma settled_acknowledge id : settled_by (acknowledge id).
Proof using PO.
  intros e H Hi. unfold acknowledge. unfold gets at 1. unfold mbind at 1, M_bind at 1. cbn beta iota.
  destruct (negb _); [by left|]. by apply settled_commit; [intros l; apply proper_acknowledge|].
Qed.

Lemma settled_checkpoint : settled_by pc_checkpoint.
Proof using PO.
  intros e H Hi. destruct (pi_last e H Hi) as (b & Hb & He). unfold pc_checkpoint.
  unfold gets at 1. unfold mbind at 1, M_bind at 1. cbn beta iota. rewrite He, (pi_sequence e H Hi).
  erewrite bind_ok by reflexivity. pose proof (checkpoint_result _ _ H b (pi_store e H Hi) Hb) as Hc. unfold in_store.
  destruct (store_checkpoint _ _ _) as [[[]|x] sw].
  - left. destruct Hi as [H1 H2 H3 H4 H5 H6 H7]. by split; cbn [pe_world pe_pc pc_store pc_state].
  - destruct Hc as [Hs Hint]. split; [done|]. split; [exists []; by apply exact_interrupted|done].
Qed.

Lemma settled_observe {A} (m : Mp A) e H :
  memo m -> pc_inv e H ->
  match pignore (observe (on_core m)) e with
  | (Ok _, e') => pc_inv e' H
  | (Err _, e') => (exists p, interrupted (pe_world e') H p) /\ pc_inv e' H
  end.
Proof using Type.
  intros Hm Hi. pose proof (observe_inv m e H Hm Hi) as Ho. unfold pignore, mbind, M_bind.
  destruct (observe (on_core m) e) as [[a|x] e']; cbn [snd] in Ho; [done|]. split; [|done].
  exists []. apply exact_interrupted, Ho.
Qed.

Lemma settled_pignore {A} (m : Mk A) : settled_by m -> settled_by (pignore m).
Proof using Type. exact (settled_map m (fun _ => tt)). Qed.

(** Identifiers have 32 bytes. *)
Definition call_typed (call : PCall) : Prop :=
  match call with PHandle id _ => len32 id | _ => True end.

Lemma settled_call call : call_typed call -> observes call = false -> settled_by (run_pc call).
Proof using PO.
  destruct call; intros Ht Hc; try discriminate Hc; cbn [run_pc].
  - apply settled_pignore. exact (settled_mutate (ms ← conf_invite kp; mret (tt, ms)) snd).
  - apply settled_pignore. exact (settled_mutate (ms ← conf_evict who; mret (tt, ms)) snd).
  - apply settled_pignore. exact (settled_mutate (m ← conf_leave; mret (tt, [m])) snd).
  - apply settled_pignore. exact (settled_mutate (ms ← conf_rekey; mret (tt, ms)) snd).
  - apply settled_pignore. exact (settled_mutate (ms ← conf_heal; mret (tt, ms)) snd).
  - exact (settled_mutate (_ ← conf_tick; mret (tt, [])) fst).
  - apply settled_pignore. exact (settled_mutate (ms ← conf_resync; mret (tt, ms)) snd).
  - apply settled_pignore. exact (settled_mutate (b ← conf_protect codec frame keyframe; mret (b, [])) fst).
  - apply settled_pignore. exact (settled_mutate (o ← conf_open packet; mret (o, [])) fst).
  - apply settled_pignore. exact (settled_mutate (m ← conf_offer_checkpoint certificate; mret (tt, [m])) snd).
  - by apply settled_pignore, settled_inbound.
  - apply settled_pignore, settled_acknowledge.
  - apply settled_checkpoint.
Qed.

Lemma observed_call call : observes call = true ->
  exists A (m : Mp A), memo m /\ run_pc call = pignore (observe (on_core m)).
Proof using Type.
  destruct call; intros Hc; try discriminate Hc; cbn [run_pc]; do 2 eexists; (split; [|reflexivity]).
  - apply memo_members.
  - apply memo_version.
  - apply memo_can_derive.
  - apply memo_needs_repair.
  - apply memo_prepare.
  - apply memo_approve.
  - apply memo_beacon.
Qed.

Lemma call_settles call e H :
  pc_inv e H -> call_typed call -> let '(r, e') := run_pc call e in settles call e e' r H.
Proof using PO.
  intros Hi Hct. destruct (observes call) eqn:Ho.
  - destruct (observed_call call Ho) as (A & m & Hm & Er). pose proof (settled_observe m e H Hm Hi) as Hs.
    rewrite <- Er in Hs. destruct (run_pc call e) as [[[]|x] e']; [by left|]. destruct Hs. split_and!; [congruence|done|done].
  - pose proof (settled_call call Hct Ho e H Hi) as Hs. destruct (run_pc call e) as [[[]|x] e']; [done|].
    destruct Hs as (? & ? & ?). by split_and!.
Qed.
End calls.

(** ** Creating and opening *)

Section opening.
Context {P : Primitives} {cap : WalCap} {PO : PrimitivesOk P}.
Implicit Types (e : PEnv) (H : list bytes) (s : LogicalState) (w : World).

Lemma encode_hard s b : encode s = Ok b -> (lenN b <= HARD_MAX_STATE_BYTES)%N.
Proof using Type.
  unfold encode. destruct (map_err PProtocol _); [|done]. cbn [mbind result_bind]. destruct (inbound_entries s); [|done].
  cbn [mbind result_bind]. destruct (negb _); [done|]. destruct (write_options _ _); [|done]. cbn [mbind result_bind]. cbn zeta.
  set (x := writer_finish _). destruct (_ <? _)%N; [done|]. cbn [orb].
  destruct (N.ltb_spec HARD_MAX_STATE_BYTES (lenN x)) as [|Hle]; [done|].
  destruct (_ <? _)%N; [done|]. by intros [= <-].
Qed.

Lemma logical_new_ok c ms o s :
  (1 <= inbound_window o)%N -> logical_new c ms o = Ok s ->
  ls_sequence s = 1%N /\ ls_options s = o /\ window_ok s /\ window_typed s.
Proof using Type.
  intros Hw. unfold logical_new. set (s0 := mkLogical 1 c o ∅ [] ∅ 1).
  destruct (enqueue_state ms s0) as (m & n & E). destruct (enqueue ms s0) as [[ids|x] s1]; [|done]. cbn [snd] in E.
  intros [= <-]. subst s1. split_and!; [done|done| |].
  - split; cbn [set_outbox s0 ls_options ls_order ls_inbound]; [done|constructor| |by rewrite lenN_nil; lia].
    intros id. rewrite lookup_empty. split; [by intros []|by intros ?%not_elem_of_nil].
  - intros id d. cbn [set_outbox s0 ls_inbound]. by rewrite lookup_empty.
Qed.

(** A conference that was created or joined is committed. *)
Lemma found_inv t m o w pc w' t' :
  vacant w -> (max_wal_bytes o <= wal_cap)%N -> found_with t m o w = (Ok pc, w') ->
  exists b, encode (pc_state pc) = Ok b /\ pc_inv (mkPEnv pc w' t') [b].
Proof using Type.
  intros Hv Hcap. unfold found_with, create_from_conference.
  destruct (options_validate o) as [o'|] eqn:Eo; [|done]. apply options_validate_ok in Eo as [-> Ho].
  erewrite bind_ok by reflexivity. destruct (map_err PProtocol (m t).1) as [[c ms]|] eqn:Em; [|by erewrite bind_err by reflexivity].
  erewrite bind_ok by reflexivity. cbn beta iota. destruct (logical_new c ms o) as [s|] eqn:En; [|by erewrite bind_err by reflexivity]. erewrite bind_ok by reflexivity.
  destruct (encode s) as [b|] eqn:Eb; [|by erewrite bind_err by reflexivity]. erewrite bind_ok by reflexivity.
  destruct (logical_new_ok c ms o s (proj1 (oo_window _ Ho)) En) as (S1 & S2 & S3 & S4). rewrite S1.
  destruct (store_create 1 b w) as [[st|x] w1] eqn:Ec; [erewrite bind_ok by exact Ec|by erewrite bind_err by exact Ec].
  intros [= <- <-]. exists b. split; [done|].
  split; cbn [pe_world pe_pc pc_store pc_state]; try done.
  - exact (create_inv w b st w1 Hv (encode_hard s b Eb) Ec).
  - by exists b.
  - intros i Hi. cbn [length] in Hi. lia.
  - rewrite S2. by split.
Qed.

(** The log of a store is within its bound. *)
Lemma check_limits_ok w st H o :
  store_inv w st H -> w_script w = [] -> (wal_cap <= max_wal_bytes o)%N -> check_limits st o w = (Ok tt, w).
Proof using Type.
  intros [Hd Ha _] Hs Hcap. destruct (attached_wal w H Exact (st_wal st) Hd Ha) as (n & k & Hn & _ & _ & Hw).
  destruct (Hw _ (list_elem_of_here _ _)) as [Hb _]. cbn [possible latest] in Hb.
  unfold check_limits, validate_runtime_limits, wal_file, io, handle_len, syscall, next_fault, gets, mbind, M_bind.
  cbn [sw_store sw_world]. rewrite Hs, Hn. cbn [map_err fst snd].
  rewrite (proj2 (N.ltb_ge _ _)) by (unfold lenN in *; lia). done.
Qed.

Lemma pc_open_holds w H s t :
  openable w H -> w_script w = [] -> (forall i, S i < length H -> exists u, holds_at H i u) ->
  holds_at H (length H - 1) s -> max_wal_bytes (ls_options s) = wal_cap ->
  exists st w', pc_open w = (Ok (mkPC s st), w') /\ pc_inv (mkPEnv (mkPC s st) w' t) H.
Proof using PO.
  intros Hop Hs Hpast Hh Hcap. destruct (open_ready w H Hop Hs) as (st & rcv & w' & Eo & Hinv & Hrcv & Hs').
  destruct (recover_holds rcv H Hrcv) as (s' & Er & Hh').
  { intros i Hi. destruct (decide (i = length H - 1)) as [->|]; [by exists s|]. apply Hpast. lia. }
  rewrite (holds_unique _ _ _ _ Hh' Hh) in Er.
  exists st, w'. unfold pc_open. rewrite (bind_ok _ _ _ _ _ Eo). unfold holding_lock.
  rewrite Er. erewrite bind_ok by reflexivity.
  rewrite (bind_ok _ _ _ _ _ (check_limits_ok w' st H (ls_options s) Hinv Hs' ltac:(lia))). split; [done|].
  destruct Hh as (p & Hp & Hd). apply decode_iff in Hd as (He & Hq & Hok & Hty & _).
  pose proof (lookup_lt_Some _ _ _ Hp) as Hlt.
  split; cbn [pe_world pe_pc pc_store pc_state]; try done.
  - exists p. split; [|done]. rewrite last_lookup, <- Hp. f_equal. lia.
  - rewrite Hq. f_equal. lia.
  - split; [apply (lo_options s Hok)|lia].
  - by apply ok_window.
  - exact (lt_inbound s Hty).
Qed.

Lemma pc_open_refuses w H :
  openable w H -> w_script w = [] -> (forall s, ~ holds_at H (length H - 1) s) ->
  exists x w', pc_open w = (Err (Fail x), w') /\ w_locked w' = false.
Proof using PO.
  intros Hop Hs Hno. destruct (open_ready w H Hop Hs) as (st & rcv & w' & Eo & Hinv & Hrcv & Hs').
  destruct (recover_refuses rcv H Hrcv Hno) as [x Er]. exists x, (set_locked false w').
  unfold pc_open. rewrite (bind_ok _ _ _ _ _ Eo). unfold holding_lock. by rewrite Er.
Qed.
End opening.

(** ** Identifiers that were handled *)

Section handled.
Context {P : Primitives} {cap : WalCap} {PO : PrimitivesOk P}.
Implicit Types (e : PEnv) (H : list bytes) (s : LogicalState) (w : World).

(** The limits and the window of identifiers are the same. *)
Definition same_window s s' : Prop :=
  ls_options s' = ls_options s /\ ls_inbound s' = ls_inbound s /\ ls_order s' = ls_order s.

(** What the codec and the window rely on. *)
Record window_live s : Prop := {
  wl_options : options_ok (ls_options s);
  wl_window : window_ok s;
  wl_typed : window_typed s;
}.

(** What a call may do to the window. *)
Definition moves (call : PCall) s s' : Prop :=
  same_window s s' \/
  match call with
  | PHandle id payload => ls_inbound s !! id = None /\ same_window (record_inbound id (inbound_digest payload) s) s'
  | _ => False
  end.

(** The identifier a call has newly handled, by what is known before and after. *)
Definition newly (call : PCall) s s' : list InboundId :=
  match call with
  | PHandle id _ =>
      if bool_decide (is_Some (ls_inbound s !! id)) then []
      else if bool_decide (is_Some (ls_inbound s' !! id)) then [id] else []
  | _ => []
  end.

Lemma same_window_refl s : same_window s s.
Proof using Type. done. Qed.
Lemma same_window_trans s1 s2 s3 : same_window s1 s2 -> same_window s2 s3 -> same_window s1 s3.
Proof using Type. unfold same_window. intuition congruence. Qed.
Lemma same_window_sym s1 s2 : same_window s1 s2 -> same_window s2 s1.
Proof using Type. unfold same_window. intuition congruence. Qed.

Lemma record_same id d s s' : same_window s s' -> same_window (record_inbound id d s) (record_inbound id d s').
Proof using Type.
  intros (E1 & E2 & E3). unfold record_inbound. rewrite E1, E2, E3. destruct (expire _ _ _) as [m l]. by split_and!.
Qed.

Lemma live_same s s' : same_window s s' -> window_live s -> window_live s'.
Proof using Type.
  intros (E1 & E2 & E3) [H1 [W1 W2 W3 W4] H3]. split; [by rewrite E1|split; rewrite ?E1, ?E2, ?E3; done|].
  intros id d. rewrite E2. apply H3.
Qed.

Lemma live_record id d s :
  len32 id -> len32 d -> ls_inbound s !! id = None -> window_live s -> window_live (record_inbound id d s).
Proof using Type.
  intros Hl Hd Hn [H1 H2 H3]. destruct (record_inbound_spec id d s H2 Hn) as (R1 & _ & _ & _ & R5).
  split; [by rewrite R5|done|by apply record_typed].
Qed.

Lemma moves_left call s1 s2 s3 : same_window s1 s2 -> moves call s2 s3 -> moves call s1 s3.
Proof using Type.
  intros E [Hs|Hs]; [left; by eapply same_window_trans|right]. destruct call; try done. destruct Hs as [Hn Hs].
  destruct E as (E1 & E2 & E3). rewrite E2 in Hn. split; [done|]. eapply same_window_trans; [|done]. by apply record_same.
Qed.
Lemma moves_right call s1 s2 s3 : moves call s1 s2 -> same_window s2 s3 -> moves call s1 s3.
Proof using Type.
  intros [Hs|Hs] E; [left; by eapply same_window_trans|right]. destruct call; try done. destruct Hs as [Hn Hs].
  split; [done|]. by eapply same_window_trans.
Qed.

Lemma moves_live call s s' : call_typed call -> window_live s -> moves call s s' -> window_live s'.
Proof using PO.
  intros Ht Hl [Hs|Hs]; [by eapply live_same|]. destruct call; try done. destruct Hs as [Hn Hs].
  eapply live_same; [done|]. apply live_record; [done|apply hash_length|done|done].
Qed.

(** *** Operations on a candidate *)

(** They move the window when they succeed. *)
Definition moving {A} (call : PCall) (op : Mo A) : Prop := forall l a l1,
  window_live (le_state l) -> match call with PHandle id _ => ls_inbound (le_state l) !! id = None | _ => True end ->
  op l = (Ok a, l1) -> moves call (le_state l) (le_state l1).

Lemma same_conference {A} (m : Mc A) l : same_window (le_state l) (le_state (on_conference m l).2).
Proof using Type. unfold on_conference. by destruct (m _). Qed.
Lemma same_enqueue ms l : same_window (le_state l) (le_state (on_logical (enqueue ms) l).2).
Proof using Type.
  destruct (enqueue_state ms (le_state l)) as (m & n & E). unfold on_logical.
  destruct (enqueue ms (le_state l)) as [r s]. cbn [snd le_state] in *. by subst s.
Qed.

Lemma moving_change {R} call (m : Mc (R * list CMessage)) : moving call (conference_change m).
Proof using Type.
  intros l a l3 _ _ H. unfold conference_change in H. apply bind_ok_inv in H as ([r ms] & l1 & E1 & H).
  apply bind_ok_inv in H as (ids & l2 & E2 & H). injection H as _ <-. left.
  pose proof (same_conference m l) as S1. rewrite E1 in S1. pose proof (same_enqueue ms l1) as S2. rewrite E2 in S2.
  by eapply same_window_trans.
Qed.

Lemma moving_acknowledge id : moving (PAcknowledge id) (acknowledge_change id).
Proof using Type. intros l a l1 _ _ [= _ <-]. by left. Qed.

Lemma inbound_records id payload l a l4 :
  inbound_change id (inbound_digest payload) payload l = (Ok a, l4) ->
  same_window (record_inbound id (inbound_digest payload) (le_state l)) (le_state l4).
Proof using Type.
  intros H. unfold inbound_change in H. apply bind_ok_inv in H as ([events ms] & l1 & E1 & H).
  apply bind_ok_inv in H as (ids & l2 & E2 & H). apply bind_ok_inv in H as ([] & l3 & E3 & H).
  injection E3 as <-. injection H as _ <-. cbn [le_state].
  pose proof (same_conference (conf_handle payload) l) as S1. rewrite E1 in S1.
  pose proof (same_enqueue ms l1) as S2. rewrite E2 in S2. apply record_same. by eapply same_window_trans.
Qed.

Lemma moving_inbound id payload : moving (PHandle id payload) (inbound_change id (inbound_digest payload) payload).
Proof using Type. intros l a l1 _ Hn H. right. split; [done|]. by eapply inbound_records. Qed.

(** *** Live states and states that are found *)

(** [m] moves the window of the live state and, in step with the store, that of
    the state a power loss in its course or after it leaves to be found. *)
Definition moved_by {A} (call : PCall) (m : Mk A) : Prop := forall e,
  window_live (pe_state e) ->
  moves call (pe_state e) (pe_state (m e).2) /\
  forall H w1 pc w2, pc_inv e H -> crash (pe_world (m e).2) w1 -> w_script w1 = [] -> pc_open w1 = (Ok pc, w2) ->
    moves call (pe_state e) (pc_state pc).

Lemma inv_live e H : pc_inv e H -> window_live (pe_state e).
Proof using Type. intros Hi. split; apply Hi. Qed.

Lemma found_last w H pc w' :
  openable w H -> w_script w = [] -> (forall i, S i < length H -> exists s, holds_at H i s) ->
  pc_open w = (Ok pc, w') -> holds_at H (length H - 1) (pc_state pc).
Proof using PO.
  intros Hop Hs Hpast Ho. destruct (open_ready w H Hop Hs) as (st & rcv & w0 & Eo & _ & Hr & _).
  unfold pc_open in Ho. rewrite (bind_ok _ _ _ _ _ Eo) in Ho. unfold holding_lock in Ho.
  destruct (recover rcv) as [s|x] eqn:Er; [|done]. erewrite bind_ok in Ho by reflexivity.
  unfold mbind, M_bind in Ho. destruct (check_limits st (ls_options s) w0) as [[[]|x] w3]; [|done].
  injection Ho as <- _. cbn [pc_state].
  assert ((exists t, holds_at H (length H - 1) t) \/ forall t, ~ holds_at H (length H - 1) t) as [[t Ht]|Hno].
  { unfold holds_at. destruct (H !! (length H - 1)) as [p|]; [|right; by intros t (p & ? & _)].
    destruct (decode p (N.of_nat (S (length H - 1)))) as [t|] eqn:Ed; [left; by exists t, p|right]. intros t (p' & [= <-] & Hd). congruence. }
  - destruct (recover_holds rcv H Hr) as (s' & Er' & Hh).
    { intros i Hi. destruct (decide (i = length H - 1)) as [->|]; [by exists t|]. apply Hpast. lia. }
    rewrite Er in Er'. by injection Er' as ->.
  - destruct (recover_refuses rcv H Hr Hno) as [x Ex]. congruence.
Qed.

(** A state that decodes from what [s] encodes to has its window. *)
Lemma found_same s b n s' : window_live s -> encode s = Ok b -> decode b n = Ok s' -> same_window s s'.
Proof using PO.
  intros [H1 H2 H3] He Hd. apply decode_iff in Hd as (He' & _ & Hok & Hty & _).
  destruct (encode_window s' s b (lo_options _ Hok) H1 (ok_window _ Hok) H2 (lt_inbound _ Hty) H3 He' He) as [E1 E2].
  split_and!; [|done|done]. symmetry. by apply (encode_options s s' b H1 (lo_options _ Hok)).
Qed.

Lemma found_state e H w1 pc w2 :
  pc_inv e H -> openable w1 H -> w_script w1 = [] -> pc_open w1 = (Ok pc, w2) -> same_window (pe_state e) (pc_state pc).
Proof using PO.
  intros Hi Hop Hs Ho. destruct (found_last w1 H pc w2 Hop Hs (pi_past e H Hi) Ho) as (p & Hp & Hd).
  destruct (pi_last e H Hi) as (b & Hb & He). destruct (last_snoc_lookup H b Hb) as [Hl _]. rewrite Hl in Hp. injection Hp as <-.
  eapply found_same; [by eapply inv_live|done|done].
Qed.

(** What a commit does, whether or not its entry reaches the store. *)
Lemma commit_live {R} call (op : Mo R) e :
  call_typed call -> moving call op ->
  match call with PHandle id _ => ls_inbound (pe_state e) !! id = None | _ => True end ->
  window_live (pe_state e) -> moves call (pe_state e) (pe_state (commit_candidate op e).2).
Proof using PO.
  intros Ht Hop Hn Hl. unfold commit_candidate. erewrite bind_ok by reflexivity. cbn beta.
  destruct (encode (pe_state e)) as [cur|x] eqn:Ee; [|by left]. erewrite bind_ok by reflexivity.
  destruct (decode cur (ls_sequence (pe_state e))) as [s0|x] eqn:Ed; [|by left]. erewrite bind_ok by reflexivity.
  pose proof (found_same _ _ _ _ Hl Ee Ed) as Hs. pose proof (live_same _ _ Hs Hl) as Hl0.
  destruct (op (mkLEnv s0 (pe_tape e))) as [[a|x] l] eqn:Eop.
  2: { erewrite bind_err by (unfold on_candidate; rewrite Eop; reflexivity). by left. }
  erewrite bind_ok by (unfold on_candidate; rewrite Eop; reflexivity). cbn beta iota.
  assert (moves call (pe_state e) (le_state l)) as Hm.
  { eapply moves_left; [exact Hs|]. apply (Hop (mkLEnv s0 (pe_tape e)) a l Hl0); [|done].
    destruct call; try done. cbn [le_state]. destruct Hs as (_ & -> & _). exact Hn. }
  destruct (checked_add64 _ _) as [n|]; [|by left]. erewrite bind_ok by reflexivity. cbn zeta.
  destruct (encode (set_sequence n (le_state l))) as [b|x]; [|by left]. erewrite bind_ok by reflexivity.
  unfold mbind at 1, M_bind at 1. unfold in_store.
  destruct (store_append _ _ _ _ _ _) as [[[]|x] sw]; [|by left]. exact (moves_right _ _ _ _ Hm (same_window_refl _)).
Qed.

Lemma commit_moved {R} call (op : Mo R) :
  call_typed call -> moving call op -> (forall e H, pc_inv e H ->
    match call with PHandle id _ => ls_inbound (pe_state e) !! id = None | _ => True end ->
    forall s0 t, holds_at H (length H - 1) s0 -> ls_inbound s0 = ls_inbound (pe_state e) ->
    ls_order s0 = ls_order (pe_state e) -> proper op (mkLEnv s0 t)) ->
  forall e, match call with PHandle id _ => ls_inbound (pe_state e) !! id = None | _ => True end ->
  window_live (pe_state e) ->
  moves call (pe_state e) (pe_state (commit_candidate op e).2) /\
  forall H w1 pc w2, pc_inv e H -> crash (pe_world (commit_candidate op e).2) w1 -> w_script w1 = [] ->
    pc_open w1 = (Ok pc, w2) -> moves call (pe_state e) (pc_state pc).
Proof using PO.
  intros Ht Hop Hpr e Hn Hl. pose proof (commit_live call op e Ht Hop Hn Hl) as Hm. split; [done|].
  intros H w1 pc w2 Hi Hc Hs Ho. pose proof (commit_spec op e H Hi (Hpr e H Hi Hn)) as Hsp.
  destruct (commit_candidate op e) as [[a|x] e'].
  - destruct Hsp as (_ & _ & _ & b & _ & _ & _ & _ & _ & _ & Hi'). cbn [snd] in *.
    eapply moves_right; [exact Hm|]. eapply found_state; [exact Hi'| |done|done].
    by eapply inv_crash; [apply Hi'|].
  - cbn [snd] in *. destruct Hsp as [_ [Hd|(s0 & s1 & t & a & b & Hh & Ein & Eor & Eop & Eb & Hint)]].
    + destruct (crash_openable _ w1 H Exact Hd I Hc) as (H' & [->|[]] & Hop'). left. by eapply found_state.
    + destruct (interrupted_crash _ _ _ _ Hint Hc) as (H' & [->| ->] & Hop'); [left; by eapply found_state|].
      pose proof Hh as (p & Hp & Hd0). destruct (pi_last e H Hi) as (cur & Hcur & Ecur).
      destruct (last_snoc_lookup H cur Hcur) as [Hlk _]. rewrite Hlk in Hp. injection Hp as <-.
      pose proof (found_same _ _ _ _ Hl Ecur Hd0) as Hs0. pose proof (live_same _ _ Hs0 Hl) as Hl0.
      assert (moves call (pe_state e) s1) as Hm1.
      { eapply moves_left; [exact Hs0|]. apply (Hop (mkLEnv s0 (pe_tape e)) a (mkLEnv s1 t) Hl0); [|done].
        destruct call; try done. cbn [le_state]. by rewrite Ein. }
      pose proof (moves_live call _ _ Ht Hl Hm1) as Hl1.
      assert (forall i, S i < length (H ++ [b]) -> exists s, holds_at (H ++ [b]) i s) as Hpast.
      { intros i Hi'. rewrite length_app in Hi'. cbn [length] in Hi'.
        assert (forall j u, j < length H -> holds_at H j u -> holds_at (H ++ [b]) j u) as Hext.
        { intros j u Hj (p & Hp & Hd). exists p. split; [|done]. by apply lookup_app_l_Some. }
        destruct (decide (i = length H - 1)) as [->|]; [exists s0; apply Hext; [lia|done]|].
        destruct (pi_past e H Hi i ltac:(lia)) as [u Hu]. exists u. apply Hext; [lia|done]. }
      destruct (found_last w1 _ pc w2 Hop' Hs Hpast Ho) as (p & Hp & Hd).
      rewrite length_app, lookup_app_r in Hp by (cbn [length]; lia). cbn [length] in Hp.
      replace (length H + 1 - 1 - length H) with 0 in Hp by lia. injection Hp as <-.
      eapply moves_right; [exact Hm1|].
      exact (found_same (set_sequence _ s1) _ _ _ (live_same s1 (set_sequence _ s1) (conj eq_refl (conj eq_refl eq_refl)) Hl1) Eb Hd).
Qed.

Lemma moved_map {A B} call (m : Mk A) (f : A -> B) : moved_by call m -> moved_by call (a ← m; mret (f a)).
Proof using Type. intros Hm e Hl. specialize (Hm e Hl). unfold mbind, M_bind. by destruct (m e) as [[a|x] e']. Qed.

Lemma moved_pignore {A} call (m : Mk A) : moved_by call m -> moved_by call (pignore m).
Proof using Type. exact (moved_map call m (fun _ => tt)). Qed.

(** A call after which the world is as it was. *)
Lemma moved_still {A} call (m : Mk A) :
  (forall e, pe_world (m e).2 = pe_world e /\ same_window (pe_state e) (pe_state (m e).2)) -> moved_by call m.
Proof using PO.
  intros Hm e Hl. destruct (Hm e) as [Ew Hs]. split; [by left|]. intros H w1 pc w2 Hi Hc Hsc Ho. rewrite Ew in Hc.
  left. eapply found_state; [exact Hi| |done|done]. by eapply inv_crash; [apply Hi|].
Qed.

Lemma moved_mutate {R A} call (m : Mc (R * list CMessage)) (f : R * list OutboundId -> A) :
  match call with PHandle _ _ => False | _ => True end -> moved_by call (r ← mutate_conference m; mret (f r)).
Proof using PO.
  intros Hcall. apply moved_map. intros e Hl. apply commit_moved; [by destruct call|apply moving_change| |by destruct call|done].
  intros e1 H _ _ s0 t _ _ _. apply proper_change.
Qed.

Lemma moved_handle id payload : len32 id -> moved_by (PHandle id payload) (handle_inbound id payload).
Proof using PO.
  intros Hid e Hl. unfold handle_inbound. cbn zeta. unfold gets at 1 2. unfold mbind at 1 2, M_bind at 1 2. cbn beta iota.
  destruct (ls_inbound (pe_state e) !! id) as [d|] eqn:Ed.
  - apply (moved_still (PHandle id payload) (if bool_decide (d = inbound_digest payload) then mret (mkInbound true [] [])
      else fail (Fail (PIdempotencyConflict id)))); [|done].
    intros e1. by destruct (bool_decide _).
  - apply (commit_moved (PHandle id payload)); [done|apply moving_inbound| |done|done].
    intros e1 H Hi Hn. by apply inbound_proper.
Qed.

Lemma moved_acknowledge id : moved_by (PAcknowledge id) (acknowledge id).
Proof using PO.
  intros e Hl. unfold acknowledge. unfold gets at 1 2. unfold mbind at 1 2, M_bind at 1 2. cbn beta iota.
  destruct (negb _); [by apply (moved_still (PAcknowledge id) (mret false))|].
  apply (commit_moved (PAcknowledge id)); [done|apply moving_acknowledge| |done|done].
  intros e1 H _ _ s0 t _ _ _. apply proper_acknowledge.
Qed.

Lemma moved_checkpoint : moved_by PCheckpoint pc_checkpoint.
Proof using PO.
  intros e Hl. unfold pc_checkpoint. unfold gets at 1 2. unfold mbind at 1 3, M_bind at 1 3. cbn beta iota.
  destruct (encode (pe_state e)) as [b|x] eqn:Ee; [erewrite !bind_ok by reflexivity|].
  2: { erewrite !bind_err by reflexivity. apply (moved_still PCheckpoint (fail (Fail x) : Mk unit)); [by intros|done]. }
  pose proof (fun H => settled_checkpoint e H) as Hck. unfold pc_checkpoint in Hck.
  unfold gets at 1 in Hck. unfold mbind at 1, M_bind at 1 in Hck. cbn beta iota in Hck. rewrite Ee in Hck. erewrite bind_ok in Hck by reflexivity.
  split.
  { left. unfold in_store. by destruct (store_checkpoint _ _ _). }
  intros H w1 pc w2 Hi Hc Hs Ho. specialize (Hck H Hi).
  left. assert (openable w1 H) as Hop; [|by eapply found_state].
  destruct (pi_last e H Hi) as (b' & Hb & Eb). rewrite Ee in Eb. injection Eb as <-.
  pose proof (checkpoint_result _ _ H b (pi_store e H Hi) Hb) as Hr. rewrite <- (pi_sequence e H Hi) in Hr.
  unfold in_store in Hc. destruct (store_checkpoint _ _ _) as [[[]|x] sw]; cbn [snd pe_world] in Hc.
  - by eapply inv_crash.
  - destruct Hr as [_ Hd]. by destruct (crash_openable _ w1 H Exact Hd I Hc) as (H' & [->|[]] & ?).
Qed.

Lemma moved_call call : call_typed call -> moved_by call (run_pc call).
Proof using PO.
  intros Ht. destruct (observes call) eqn:Ho.
  { destruct (observed_call call Ho) as (A & m & Hm & ->). apply moved_pignore, moved_still. intros e.
    destruct (observe_state m e Hm) as (E1 & _ & _ & _ & E5 & E6 & E7). by split_and!. }
  destruct call; try discriminate Ho; cbn [run_pc].
  - apply moved_pignore. by apply (moved_mutate _ (ms ← conf_invite kp; mret (tt, ms)) snd).
  - apply moved_pignore. by apply (moved_mutate _ (ms ← conf_evict who; mret (tt, ms)) snd).
  - apply moved_pignore. by apply (moved_mutate _ (m ← conf_leave; mret (tt, [m])) snd).
  - apply moved_pignore. by apply (moved_mutate _ (ms ← conf_rekey; mret (tt, ms)) snd).
  - apply moved_pignore. by apply (moved_mutate _ (ms ← conf_heal; mret (tt, ms)) snd).
  - by apply (moved_mutate _ (_ ← conf_tick; mret (tt, [])) fst).
  - apply moved_pignore. by apply (moved_mutate _ (ms ← conf_resync; mret (tt, ms)) snd).
  - apply moved_pignore. by apply (moved_mutate _ (b ← conf_protect codec frame keyframe; mret (b, [])) fst).
  - apply moved_pignore. by apply (moved_mutate _ (o ← conf_open packet; mret (o, [])) fst).
  - apply moved_pignore. by apply (moved_mutate _ (m ← conf_offer_checkpoint certificate; mret (tt, [m])) snd).
  - by apply moved_pignore, moved_handle.
  - apply moved_pignore, moved_acknowledge.
  - apply moved_checkpoint.
Qed.

(** *** The window over many calls *)

(** [id] stands in the window with [d], followed by the identifiers [ids]; once
    these fill the window it has fallen out. *)
Record standing (id : InboundId) (d : bytes) (ids : list InboundId) (window : N) (s : LogicalState) : Prop := {
  sd_live : window_live s;
  sd_limit : inbound_window (ls_options s) = window;
  sd_known : (lenN ids < window)%N -> ls_inbound s !! id = Some d /\ exists pre, ls_order s = pre ++ id :: ids;
  sd_expired : (window <= lenN ids)%N -> id ∉ ids -> ls_inbound s !! id = None;
}.

Lemma newly_same call s s' : ls_inbound s' = ls_inbound s -> newly call s s' = [].
Proof using Type. intros E. destruct call; try done. cbn [newly]. rewrite E. by destruct (bool_decide _). Qed.

Lemma standing_same id d ids window s s' : same_window s s' -> standing id d ids window s -> standing id d ids window s'.
Proof using Type.
  intros Hs [H1 H2 H3 H4]. pose proof (live_same _ _ Hs H1). destruct Hs as (E1 & E2 & E3).
  split; [done|by rewrite E1|by rewrite E2, E3|by rewrite E2].
Qed.

Lemma standing_record id d ids window s k d' :
  len32 k -> len32 d' -> ls_inbound s !! k = None -> standing id d ids window s ->
  standing id d (ids ++ [k]) window (record_inbound k d' s).
Proof using PO.
  intros Hk Hd Hn [H1 H2 H3 H4]. pose proof (live_record k d' s Hk Hd Hn H1) as Hl.
  destruct (record_inbound_spec k d' s (wl_window s H1) Hn) as (R1 & R2 & R3 & R4 & R5).
  pose proof (wo_bound s (wl_window s H1)) as Hb. rewrite H2 in Hb, R3.
  assert (lenN (ids ++ [k]) = lenN ids + 1)%N as Hk1 by (by rewrite lenN_app).
  split; [done|by rewrite R5|rewrite Hk1|rewrite Hk1].
  - intros Hlt. destruct H3 as (Hin & pre & Ho); [lia|]. assert (id <> k) as Hne by congruence. rewrite Ho in Hb, R3.
    rewrite length_app in R3. cbn [length] in R3. unfold lenN in *. rewrite length_app in Hb. cbn [length] in Hb.
    assert (ls_order (record_inbound k d' s) = drop (S (length pre + S (length ids)) - N.to_nat window) pre ++ id :: ids ++ [k]) as Ho'.
    { rewrite R3, <- app_assoc. apply drop_app_le. lia. }
    split; [|by eexists]. rewrite (R4 id Hne), decide_True; [done|]. rewrite Ho'. apply elem_of_app. right. apply list_elem_of_here.
  - intros Hge [Hni Hne]%not_elem_of_app. assert (id <> k) as Hne' by (intros ->; by apply Hne, list_elem_of_here).
    rewrite (R4 id Hne'). destruct (decide (id ∈ ls_order (record_inbound k d' s))) as [Hin|]; [|done].
    destruct (N.leb_spec window (lenN ids)) as [|Hlt]; [by apply H4|]. exfalso.
    destruct H3 as (_ & pre & Ho); [done|]. rewrite Ho in Hb, R3. rewrite length_app in R3. cbn [length] in R3.
    unfold lenN in *. rewrite length_app in Hb. cbn [length] in Hb.
    replace (S (length pre + S (length ids)) - N.to_nat window) with (S (length pre)) in R3 by lia.
    rewrite <- app_assoc, drop_app, drop_ge, Nat.sub_succ_l, Nat.sub_diag in R3 by lia. cbn [drop app] in R3.
    rewrite R3 in Hin. apply elem_of_app in Hin as [|Hin%list_elem_of_singleton]; done.
Qed.

(** Just handled. *)
Lemma standing_fresh id d s :
  len32 id -> len32 d -> ls_inbound s !! id = None -> window_live s ->
  standing id d [] (inbound_window (ls_options s)) (record_inbound id d s).
Proof using Type.
  intros Hi Hd Hn Hl. destruct (record_inbound_spec id d s (wl_window s Hl) Hn) as (_ & R2 & R3 & _ & R5).
  pose proof (wo_positive s (wl_window s Hl)). split; [by apply live_record|by rewrite R5| |rewrite lenN_nil; lia].
  intros _. split; [done|]. exists (drop (S (length (ls_order s)) - N.to_nat (inbound_window (ls_options s))) (ls_order s)).
  rewrite R3. apply drop_app_le. lia.
Qed.

Lemma standing_moves call id d ids window s s' :
  call_typed call -> moves call s s' -> standing id d ids window s ->
  standing id d (ids ++ newly call s s') window s'.
Proof using PO.
  intros Ht [Hs|Hs] Hst.
  { rewrite newly_same, app_nil_r by apply Hs. by eapply standing_same. }
  destruct call as [| | | | | | | | | |k payload| | | | | | | | |]; try done. destruct Hs as [Hn Hs].
  destruct (record_inbound_spec k (inbound_digest payload) s (wl_window s (sd_live _ _ _ _ _ Hst)) Hn) as (_ & R2 & _).
  assert (newly (PHandle k payload) s s' = [k]) as ->.
  { cbn [newly]. rewrite Hn, bool_decide_false by (by intros []). destruct Hs as (_ & -> & _). by rewrite R2. }
  eapply standing_same; [exact Hs|]. apply standing_record; [done|apply hash_length|done|done].
Qed.

(** What can follow on [e], with the identifiers handled on the way: calls, with
    any result and any failures; anything the file system does and any entropy
    between them; and losing power after a call or in the middle of it, or being
    closed, and being opened again, provided the conference was in step with its
    store when the call was made. *)
Inductive later : PEnv -> list InboundId -> PEnv -> Prop :=
| later_here e : later e [] e
| later_outside e ids e1 w t : later e ids e1 -> later e ids (mkPEnv (pe_pc e1) w t)
| later_call e ids e1 call r e2 :
    later e ids e1 -> call_typed call -> run_pc call e1 = (r, e2) ->
    later e (ids ++ newly call (pe_state e1) (pe_state e2)) e2
| later_crash e ids e1 H call r e2 w1 pc w2 t :
    later e ids e1 -> pc_inv e1 H -> call_typed call -> run_pc call e1 = (r, e2) ->
    crash (pe_world e2) w1 -> w_script w1 = [] -> pc_open w1 = (Ok pc, w2) ->
    later e (ids ++ newly call (pe_state e1) (pc_state pc)) (mkPEnv pc w2 t)
| later_closed e ids e1 H pc w2 t :
    later e ids e1 -> pc_inv e1 H -> w_script (pe_world e1) = [] ->
    pc_open (set_locked false (pe_world e1)) = (Ok pc, w2) -> later e ids (mkPEnv pc w2 t).

Lemma later_standing id d window e ids e1 :
  later e ids e1 -> standing id d [] window (pe_state e) -> standing id d ids window (pe_state e1).
Proof using PO.
  intros Hl Hst. induction Hl as [e|e ids e1 w t _ IH|e ids e1 call r e2 _ IH Ht Hr|e ids e1 H call r e2 w1 pc w2 t _ IH Hi Ht Hr Hc Hs Ho
    |e ids e1 H pc w2 t _ IH Hi Hs Ho]; [done|by apply IH|..]; specialize (IH Hst).
  - destruct (moved_call call Ht e1 (sd_live _ _ _ _ _ IH)) as [Hm _]. rewrite Hr in Hm. by apply standing_moves.
  - destruct (moved_call call Ht e1 (sd_live _ _ _ _ _ IH)) as [_ Hm]. rewrite Hr in Hm.
    apply standing_moves; [done| |done]. by eapply Hm.
  - eapply standing_same; [|exact IH].
    apply (found_state e1 H (set_locked false (pe_world e1)) pc w2 Hi); [|done|done]. by eapply closed_openable, pi_store.
Qed.
End handled.

(** ** Properties *)

Section properties.
Context {P : Primitives} {cap : WalCap} {PO : PrimitivesOk P}.
Implicit Types (e : PEnv) (H : list bytes) (s : LogicalState) (w : World).

(** C5. A call is all or nothing.  Whatever call is made, and whichever system
    calls fail or lose power during it: on success the live state is the last
    entry of the store's history, which has grown by at most that entry; on
    failure the live state is the one before (a query that fails may have filled
    memos, which are not stored), and without outside failures it is still the
    last entry of an unchanged history; and after a power loss at any later moment the
    store opens with the history before the call or with one more entry, and
    with the very history of the live state when the call had succeeded. *)
Theorem transaction_atomic call e H :
  pc_inv e H -> call_typed call ->
  let '(r, e') := run_pc call e in
  settles call e e' r H /\
  (forall w1, crash (pe_world e') w1 -> w_script w1 = [] ->
     exists H' st rcv w2, store_open w1 = (Ok (st, rcv), w2) /\ store_inv w2 st H' /\
       recovered rcv = last (numbered H') /\ (H' = H \/ exists b, H' = H ++ [b]) /\ (r = Ok tt -> pc_inv e' H')).
Proof using PO.
  intros Hi Ht. pose proof (call_settles call e H Hi Ht) as Hs. destruct (run_pc call e) as [r e']. split; [done|].
  intros w1 Hc Hs1.
  assert (exists H', openable w1 H' /\ (H' = H \/ exists b, H' = H ++ [b]) /\ (r = Ok tt -> pc_inv e' H')) as (H' & Hop & HH & Hin).
  { destruct r as [[]|x].
    - destruct Hs as [Hn|[b Hn]]; eexists; (split; [by eapply inv_crash; [apply Hn|]|]); (split; [|done]); [by left|right; by exists b].
    - destruct Hs as (_ & [p Hint] & _). destruct (interrupted_crash _ _ _ _ Hint Hc) as (H' & HH & Hop).
      exists H'. split; [done|]. split; [|done]. destruct HH as [->| ->]; [by left|right; by exists p]. }
  destruct (open_quiet w1 H' Hop Hs1) as (st & rcv & w2 & E1 & E2 & E3).
  exists H', st, rcv, w2. split_and!; try done. by apply recovers_last.
Qed.

(** C6. Opening returns the last committed state.  After a power loss, the
    conference opens exactly when its last entry decodes, with the state it
    decodes to, and is again in step with its store; otherwise opening is
    refused and the lock released.  When the live state's conference is sound
    and bound to its key, the state that is opened is the live state with only
    the conference's memos rebuilt. *)
Theorem reopen_last e H w1 t :
  pc_inv e H -> max_wal_bytes (ls_options (pe_state e)) = wal_cap -> crash (pe_world e) w1 -> w_script w1 = [] ->
  (forall s, holds_at H (length H - 1) s ->
     exists st w2, pc_open w1 = (Ok (mkPC s st), w2) /\ pc_inv (mkPEnv (mkPC s st) w2 t) H) /\
  ((forall s, ~ holds_at H (length H - 1) s) ->
     exists x w2, pc_open w1 = (Err (Fail x), w2) /\ w_locked w2 = false) /\
  (let c := ls_conference (pe_state e) in
   ls_ok (pe_state e) -> ls_typed (pe_state e) -> conf_inv c -> storable c -> bound c = Ok tt ->
   holds_at H (length H - 1) (set_conference (restarted c) (pe_state e))).
Proof using PO.
  intros Hi Hcap Hc Hs. pose proof (inv_crash _ _ _ _ (pi_store e H Hi) Hc) as Hop.
  destruct (pi_last e H Hi) as (b & Hb & He). destruct (last_snoc_lookup H b Hb) as [Hl Hpos]. split_and!.
  - intros s Hh. apply pc_open_holds; try done; [apply (pi_past e H Hi)|].
    destruct Hh as (p & Hp & Hd). rewrite Hl in Hp. injection Hp as <-. apply decode_iff in Hd as (He' & _ & Hok & _).
    rewrite <- Hcap. f_equal. apply (encode_options s (pe_state e) b); [apply (lo_options s Hok)|apply (pi_options e H Hi)|done|done].
  - by apply pc_open_refuses.
  - intros c Hok Hty Hcv Hst Hbd. exists b. split; [done|]. replace (S (length H - 1)) with (length H) by lia.
    rewrite <- (pi_sequence e H Hi). by apply decode_restarted.
Qed.


(** C8. The outbox loses nothing and repeats nothing.  A committed change queues
    exactly the messages the conference produced, behind those already pending,
    under fresh consecutive identifiers; acknowledging removes that delivery and
    no other, and a second acknowledgement reports false without any effect. *)
Theorem outbox_durable e H :
  pc_inv e H ->
  (forall R (m : Mc (R * list CMessage)) r ids e', mutate_conference m e = (Ok (r, ids), e') ->
     exists s0 messages c b, holds_at H (length H - 1) s0 /\
       (m (mkCEnv (ls_conference s0) (pe_tape e))).1 = Ok (r, messages) /\
       c = ce_c (m (mkCEnv (ls_conference s0) (pe_tape e))).2 /\ pc_inv e' (H ++ [b]) /\
       pc_pending (pe_pc e') = pending_deliveries s0 ++ deliveries_from c (ls_next s0) messages /\
       ids = pd_id <$> deliveries_from c (ls_next s0) messages /\
       (forall d, d ∈ pending_deliveries s0 -> (pd_id d < ls_next s0)%N)) /\
  (forall id e', acknowledge id e = (Ok true, e') ->
     exists s0 b, holds_at H (length H - 1) s0 /\ pc_inv e' (H ++ [b]) /\
       (forall d, d ∈ pc_pending (pe_pc e') <-> d ∈ pending_deliveries s0 /\ pd_id d <> id) /\
       acknowledge id e' = (Ok false, e')).
Proof using PO.
  intros Hi. split.
  - intros R m r ids e' Hm.
    pose proof (commit_spec _ e H Hi (fun s0 t _ _ _ => proper_change m (mkLEnv s0 t))) as Hc.
    unfold mutate_conference in Hm. rewrite Hm in Hc.
    destruct Hc as (s0 & s1 & t1 & b & Hh0 & _ & Eop & Est & _ & _ & Hn).
    unfold conference_change in Eop. apply bind_ok_inv in Eop as ([r' messages] & l1 & E1 & Eop).
    unfold on_conference in E1. cbn [le_state le_tape] in E1.
    destruct (m (mkCEnv (ls_conference s0) (pe_tape e))) as [x c'] eqn:Em. injection E1 as Ex <-.
    destruct x as [[r0 ms0]|]; [|done]. cbn [map_err] in Ex. injection Ex as -> ->.
    apply bind_ok_inv in Eop as (ids' & l2 & E2 & Eop). injection Eop as -> -> ->.
    unfold on_logical in E2. cbn [le_state] in E2.
    destruct (enqueue messages (set_conference (ce_c c') s0)) as [x s2] eqn:Eq. injection E2 as -> -> _.
    destruct Hh0 as (p0 & Hp0 & Hd0). pose proof Hd0 as Hdec. apply decode_iff in Hdec as (_ & _ & Hok0 & _).
    destruct (enqueue_appends messages (set_conference (ce_c c') s0) ids s1) as (A1 & A2 & _); [exact (ok_ids s0 Hok0)|done|].
    exists s0, messages, (ce_c c'), b. rewrite Em. split_and!; [by exists p0|done|done|done| |exact A1|].
    + unfold pc_pending. rewrite Est. exact A2.
    + intros d ([k d'] & -> & Hk%elem_of_nt_list)%list_elem_of_fmap. cbn [snd].
      destruct (ok_ids s0 Hok0 k d' Hk) as [-> ?]. lia.
  - intros id e' Ha. unfold acknowledge in Ha. unfold gets at 1 in Ha. unfold mbind at 1, M_bind at 1 in Ha. cbn beta iota in Ha.
    destruct (negb _); [by injection Ha|].
    pose proof (commit_spec _ e H Hi (fun s0 t _ _ _ => proper_acknowledge id (mkLEnv s0 t))) as Hc. rewrite Ha in Hc.
    destruct Hc as (s0 & s1 & t1 & b & Hh0 & _ & Eop & Est & _ & _ & Hn).
    unfold acknowledge_change in Eop. cbn [le_state le_tape] in Eop. injection Eop as _ <- _.
    destruct Hh0 as (p0 & Hp0 & Hd0). pose proof Hd0 as Hdec. apply decode_iff in Hdec as (_ & _ & Hok0 & _).
    exists s0, b. split_and!; [by exists p0|done| |].
    + intros d. unfold pc_pending, pending_deliveries. rewrite Est. cbn [set_sequence set_outbox ls_outbox].
      rewrite !list_elem_of_fmap. split.
      * intros ([k d'] & -> & Hk%elem_of_nt_list). apply lookup_delete_Some in Hk as [Hne Hk]. cbn [snd].
        destruct (ok_ids s0 Hok0 k d' Hk) as [-> _]. split; [|done]. exists (k, d'). split; [done|]. by apply elem_of_nt_list.
      * intros [([k d'] & -> & Hk%elem_of_nt_list) Hne]. cbn [snd] in *. exists (k, d'). split; [done|].
        apply elem_of_nt_list, lookup_delete_Some. destruct (ok_ids s0 Hok0 k d' Hk) as [Hid _]. split; [congruence|done].
    + unfold acknowledge, gets, mbind, M_bind. rewrite Est. cbn [set_sequence set_outbox ls_outbox].
      by rewrite lookup_delete_eq.
Qed.
End properties.

(** ** A conference of its own *)

Lemma hard_cap_header : (WAL_HEADER_LEN <= HARD_MAX_WAL_BYTES)%N.
Proof. by vm_compute. Qed.
(** The bound of the default limits. *)
Definition hard_cap : WalCap := mkCap HARD_MAX_WAL_BYTES hard_cap_header (N.le_refl _).

Section example.
#[local] Existing Instance Toy.
#[local] Existing Instance hard_cap.

Definition no_pc : PersistentConference :=
  mkPC (mkLogical 1 no_conf options_default ∅ [] ∅ 1) (mkStore 0).

(** Bob, joined. *)
Definition ex_joined : result Stop PersistentConference * World :=
  pc_join ex_join ex_welcome (ex_tape 150) ex_vacant.
Definition ex_env : PEnv := mkPEnv (result_of no_pc ex_joined.1) ex_joined.2 (ex_tape 200).
Definition bytes_or (r : result PError bytes) : bytes := match r with Ok b => b | Err _ => [] end.
Definition ex_entry : bytes := bytes_or (encode (pe_state ex_env)).

Lemma ex_options : (max_wal_bytes options_default <= @wal_cap hard_cap)%N.
Proof. by vm_compute. Qed.
Lemma joined_inv joining welcome t w t' (x := pc_join joining welcome t w) :
  vacant w -> is_ok x.1 = true ->
  pc_inv (mkPEnv (result_of no_pc x.1) x.2 t') [bytes_or (encode (pc_state (result_of no_pc x.1)))].
Proof.
  intros Hv Hx. pose proof (ok_pair no_pc x Hx) as Ex. subst x. unfold pc_join, join_with_options in Ex.
  destruct (found_inv _ _ _ _ _ _ t' Hv ex_options Ex) as (b & Hb & Hi). unfold pc_join, join_with_options. by rewrite Hb.
Qed.

Lemma ex_joined_ok : is_ok ex_joined.1 = true.
Proof. vm_compute. reflexivity. Qed.
Lemma ex_env_inv : pc_inv ex_env [ex_entry].
Proof. exact (joined_inv ex_join ex_welcome (ex_tape 150) ex_vacant (ex_tape 200) ex_vacant_ok ex_joined_ok). Qed.

Definition ex_id : InboundId := array_of (byte_of 7) 32.
Definition ex_handled : result Stop InboundResult * PEnv := handle_inbound ex_id ex_contribution ex_env.
Definition resyncing : Mc (unit * list CMessage) := ms ← conf_resync; mret (tt, ms).

Definition fresh_result (r : result Stop InboundResult) : bool :=
  match r with Ok r => negb (ir_duplicate r) | Err _ => false end.
Lemma ex_handled_ok : fresh_result ex_handled.1 = true.
Proof. vm_compute. reflexivity. Qed.
Lemma ex_queued_ok : is_ok (mutate_conference resyncing ex_env).1 = true.
Proof. vm_compute. reflexivity. Qed.

Definition no_result : InboundResult := mkInbound true [] [].
Lemma fresh_pair (x : result Stop InboundResult * PEnv) :
  fresh_result x.1 = true -> x = (Ok (result_of no_result x.1), x.2) /\ ir_duplicate (result_of no_result x.1) = false.
Proof. destruct x as [[r|] e]; [|done]. cbn. destruct (ir_duplicate r) eqn:E; [done|]. done. Qed.
Lemma queued_pair (x : result Stop (unit * list OutboundId) * PEnv) :
  is_ok x.1 = true -> exists ids e, x = (Ok (tt, ids), e).
Proof. destruct x as [[[[] ids]|] e]; [|done]. by exists ids, e. Qed.

(** The entry committed by the message, and what it decodes to. *)
Definition ex_second : bytes := bytes_or (encode (pe_state ex_handled.2)).
Definition no_logical : LogicalState := mkLogical 1 no_conf options_default ∅ [] ∅ 1.
Definition state_or (r : result PError LogicalState) : LogicalState := match r with Ok s => s | Err _ => no_logical end.
Definition ex_recovery : Recovery := mkRecovery (SnapValid (mkRecord 1 ex_entry)) [mkRecord 2 ex_second].
Definition ex_recovered : LogicalState := state_or (recover ex_recovery).

Lemma ex_recovers : recovers ex_recovery [ex_entry; ex_second].
Proof. exists 0, 1, (mkRecord 1 ex_entry). split_and!; [reflexivity|reflexivity|lia|simpl; lia]. Qed.
Lemma state_pair (r : result PError LogicalState) : is_ok r = true -> r = Ok (state_or r).
Proof. by destruct r. Qed.
Lemma ex_entry_decodes : is_ok (decode ex_entry 1) = true.
Proof. vm_compute. reflexivity. Qed.
Lemma ex_recovery_ok : is_ok (recover ex_recovery) = true.
Proof. vm_compute. reflexivity. Qed.
Lemma ex_past i : S i < 2 -> exists t, holds_at [ex_entry; ex_second] i t.
Proof.
  intros Hi. assert (i = 0) as -> by lia. exists (state_or (decode ex_entry 1)), ex_entry.
  split; [reflexivity|exact (state_pair (decode ex_entry 1) ex_entry_decodes)].
Qed.
Lemma ex_wal : max_wal_bytes (ls_options (pe_state ex_env)) = @wal_cap hard_cap.
Proof. vm_compute. reflexivity. Qed.
Lemma ex_id_len : len32 ex_id.
Proof. reflexivity. Qed.
Lemma ex_script : w_script (lose (pe_world ex_env)) = [].
Proof. vm_compute. reflexivity. Qed.
Lemma ex_ticked_script : w_script (lose (pe_world (run_pc PTick ex_env).2)) = [].
Proof. vm_compute. reflexivity. Qed.
Lemma ex_handled_eq : handle_inbound ex_id ex_contribution ex_env = (Ok (result_of no_result ex_handled.1), ex_handled.2).
Proof. exact (proj1 (fresh_pair ex_handled ex_handled_ok)). Qed.

Lemma ex_window_open : (0 < inbound_window (ls_options (pe_state ex_handled.2)))%N.
Proof. vm_compute. reflexivity. Qed.
Lemma ex_ticked_later e : later e [] (run_pc PTick e).2.
Proof. exact (later_call e [] e PTick _ _ (later_here e) I (surjective_pairing _)). Qed.
Definition ex_later : PEnv := (run_pc PTick ex_handled.2).2.
End example.
#[local] Opaque ex_env ex_entry ex_second ex_handled ex_recovered.

Lemma state_codec_exact_witness : encode (state_or (decode (P := Toy) ex_entry 1)) = Ok ex_entry.
Proof.
  exact (proj1 (proj1 (proj1 (state_codec_exact (P := Toy) ex_entry 1 (state_or (decode (P := Toy) ex_entry 1))))
    (state_pair (decode (P := Toy) ex_entry 1) ex_entry_decodes))).
Defined.

Lemma recovery_selects_witness :
  recover (P := Toy) ex_recovery = Ok ex_recovered /\ holds_at (P := Toy) [ex_entry; ex_second] 1 ex_recovered.
Proof.
  split; [exact (state_pair (recover (P := Toy) ex_recovery) ex_recovery_ok)|].
  exact (proj1 (recovery_selects (P := Toy) ex_recovery [ex_entry; ex_second] ex_recovered ex_recovers ex_past)
    (state_pair (recover (P := Toy) ex_recovery) ex_recovery_ok)).
Defined.

Lemma transaction_atomic_witness :
  exists H' st rcv w2, store_open (P := Toy) (lose (pe_world (run_pc (P := Toy) PTick ex_env).2)) = (Ok (st, rcv), w2) /\
    store_inv (P := Toy) (cap := hard_cap) w2 st H' /\ recovered rcv = last (numbered H') /\
    (H' = [ex_entry] \/ exists b, H' = [ex_entry] ++ [b]).
Proof.
  pose proof (transaction_atomic (P := Toy) (cap := hard_cap) PTick ex_env [ex_entry] ex_env_inv I) as Ha.
  pose proof ex_ticked_script as Hs.
  destruct (run_pc (P := Toy) PTick ex_env) as [r e']. destruct Ha as [_ Hc].
  destruct (Hc _ (crash_lose _) Hs) as (H' & st & rcv & w2 & A1 & A2 & A3 & A4 & _).
  exists H', st, rcv, w2. split; [exact A1|]. split; [exact A2|]. split; [exact A3|exact A4].
Defined.

Lemma reopen_last_witness :
  exists st w2, pc_open (P := Toy) (lose (pe_world ex_env)) = (Ok (mkPC (state_or (decode (P := Toy) ex_entry 1)) st), w2).
Proof.
  destruct (reopen_last (P := Toy) (cap := hard_cap) ex_env [ex_entry] (lose (pe_world ex_env)) (ex_tape 9)
    ex_env_inv ex_wal (crash_lose _) ex_script) as [Ho _].
  destruct (Ho (state_or (decode (P := Toy) ex_entry 1))) as (st & w2 & E & _).
  - exists ex_entry. split; [reflexivity|exact (state_pair (decode (P := Toy) ex_entry 1) ex_entry_decodes)].
  - exists st, w2. exact E.
Defined.


Lemma outbox_durable_witness :
  exists ids e' s0 messages c, mutate_conference (P := Toy) resyncing ex_env = (Ok (tt, ids), e') /\
    ids = pd_id <$> deliveries_from c (ls_next s0) messages /\
    pc_pending (pe_pc e') = pending_deliveries s0 ++ deliveries_from c (ls_next s0) messages.
Proof.
  destruct (queued_pair (mutate_conference (P := Toy) resyncing ex_env) ex_queued_ok) as (ids & e' & E).
  destruct (outbox_durable (P := Toy) (cap := hard_cap) ex_env [ex_entry] ex_env_inv) as [Hq _].
  destruct (Hq _ _ _ _ _ E) as (s0 & ms & c & b & _ & _ & _ & _ & A5 & A6 & _).
  exists ids, e', s0, ms, c. split; [exact E|]. split; [exact A6|exact A5].
Defined.

(** ** Limits that cannot be met *)

Section limits.
#[local] Existing Instance Toy.

(** A log limit below the log's own header passes validation. *)
Definition ex_tiny : PersistenceOptions := mkOptions 16 16 HARD_MAX_STATE_BYTES HARD_MAX_STATE_BYTES 1 1.
Definition ex_tiny_created : result Stop PersistentConference * World :=
  create_with_options policy_default ex_tiny (ex_tape 10) ex_vacant.
Definition ex_tiny_opened : result Stop PersistentConference * World :=
  pc_open (set_locked false ex_tiny_created.2).

Definition error_of {A} (r : result Stop A) : option Stop := match r with Ok _ => None | Err x => Some x end.

(** The conference is created, and what was written is refused as corrupt. *)
Lemma tiny_log_limit_unopenable :
  is_ok ex_tiny_created.1 = true /\
  error_of ex_tiny_opened.1 = Some (Fail (PCorrupt "WAL exceeds its persisted limit")).
Proof. split; vm_compute; reflexivity. Qed.
End limits.
